(* ===== verification/_CoqProject ===== *)
-Q . S2P
Prelude.v
CppStd.v
Lock.v
LogLevel.v
LogFormatter.v
FormatterGrammar.v
Logger.v
LoggerInv.v
LoggerThm.v
LogLine.v
LogConc.v
Yaml.v
YamlDemo.v
LexicalCast.v
Config.v
ConfigInv.v
ConfigThm.v
ConfigSpec.v
ConfigLog.v
ConfigDemo.v
ConfigConc.v
LogConfig.v
LogConfigCast.v
LogYaml.v
LogConfigThm.v
LogIniter.v
LogDocument.v
LogConfigDemo.v
Fiber.v
FiberInv.v
FiberThm.v
FiberSpec.v
FiberType.v
FiberDemo.v
Thread.v
ThreadStart.v
Scheduler.v
Util.v
