(* ===== verification/Prelude.v ===== *)
(** * sylar: a verification development

    sylar is a C++ server framework: a logging system whose loggers are
    configured at run time, a registry of typed configuration variables
    that YAML documents are loaded into, fibers on ucontext, a thread class,
    and the beginning of a fiber scheduler.  This library models the code
    under src/sylar as executable definitions and proves what makes each
    part correct.

    ** The parts and how they interact

    A [Logger] filters events by level and hands them to its appenders, or
    to the root logger when it has none; an appender formats an event with
    a [LogFormatter], which is compiled from a pattern.  [LoggerManager] is
    the singleton that owns the loggers.  [ConfigVar]s are kept by name in
    [Config]; [LexicalCast] turns their values into text and back, through
    yaml-cpp; [Config::LoadFromYaml] assigns the variables a document
    names, and an assignment calls the variable's listeners.  One variable,
    "logs", holds the description of the loggers, and its listener
    reconfigures them.  Errors of the configuration are logged, so [Config]
    is a client of the logging system.  [Fiber], [Thread] and [Scheduler]
    stand on their own here: of the logging system they use only messages.

    ** Files

    - [Prelude] (this file): the effect monad, its program logics [wp]
      (returns normally), [wpx] (returns or throws) and [wlp] (partial), hints, generic lemmas.
    - [CppStd]: characters, strings, ordered sets and maps of the standard
      library.  [Yaml]: yaml-cpp as a class of operations with its documented
      laws; [YamlDemo]: an instance of it, so that the laws can hold.
    - [Lock]: the lock classes and scoped guards of thread.h, generic in the
      guarded object, over a table of the locks the running thread holds.
    - [LogLevel], [LogFormatter], [FormatterGrammar]: levels and events, the
      pattern scanner [LogFormatter::init] and the items (log.cc), the
      grammar the scanner accepts.
    - [Logger], [LoggerInv], [LoggerThm]: appenders, loggers, manager and
      macros (log.h, log.cc) on a heap [World] of shared objects, files and
      streams; its invariant [log_wf] and the rules for each operation; the
      theorems.  [LogLine]: a reader of log lines in the default pattern.
      [LogConc]: the calls of several threads, interleaved at their lock
      operations and accesses to shared lists, with iterators that become
      invalid when the list changes.
    - [LexicalCast]: the templates of config.h.
    - [Config], [ConfigInv], [ConfigThm], [ConfigSpec], [ConfigDemo]: [ConfigVar]
      and [Config] (config.h, config.cc) over any set of value types and any
      logging service (classes [CfgTypes] and [LogService]); invariant, rules,
      theorems, concrete configurations.  [ConfigLog]: the modelled logging
      system is such a service.  [ConfigConc]: the calls of several threads
      on one variable, and of concurrent registrations, interleaved.
    - [LogConfig], [LogConfigCast], [LogYaml], [LogConfigThm], [LogIniter],
      [LogDocument], [LogConfigDemo]: [LogDefine], its casts, the toYamlString methods, the
      listener of "logs" and the static objects that install it (log.cc);
      [LogYaml] reads back what the loggers print, [LogIniter] follows a
      text through [fromString] to the loggers, [LogDocument] a document with
      entries for other variables too.
    - [Fiber], [FiberInv], [FiberThm], [FiberSpec], [FiberType], [FiberDemo]:
      fibers of one thread (fiber.h, fiber.cc), as a machine whose steps are
      the calls of the class; [polite] (in [FiberInv]) says which calls
      follow the rules of the class, [FiberType] has what holds in every
      program, polite or not.
    - [Thread]: [CASLock] as interleaved steps.  [ThreadStart]: the hand-over
      between the constructor of [Thread] and [Thread::run] (thread.cc).
    - [Scheduler]: the task queue (scheduler.h).  [Util]: stack traces (util.cc).

    ** Modelling

    A method is a function of the monad [M]: it takes the state and returns
    a value, throws (keeping its changes), or is stuck: blocked on a lock the
    thread itself holds, at a failed assertion, or undefined.  Objects that
    the code shares through [std::shared_ptr] live in heaps and are passed by
    address.  Names are those of the source, with the class as a prefix where
    a method's name is not unique; record fields keep their [m_] names where
    they do not clash.  Integers are [Z], with [wrapU] where the code wraps.
    The build is the one of the CMake files: [SYLAR_LOG_MUTEX],
    [SYLAR_LOG_FILE_APPEND] and [SYLAR_CONFIG_RWMUTEX] are defined; fibers
    are modelled with and without [SYLAR_FIBER_RETURN_USE_UCLINK] (class
    [FiberBuild]).

    The sequential models (the monad) say exactly what one thread's calls do,
    and block where the thread itself holds the lock it asks for.  The
    concurrent ones ([Thread], [ThreadStart], [ConfigConc], [LogConc]) are
    step relations over the threads' positions, at the granularity of lock
    operations and of the accesses between them; a thread that waits has no
    step, so that a deadlock is a state without steps that is not finished.

    ** What the theorems show

    - Formatter: the scanner terminates, accepts exactly the grammar's
      patterns and parses a printed token list into its items; a pattern
      ending in a closing brace is rejected.
    - Logging: every reachable state satisfies the invariant and every valid
      call returns (no deadlock, no null pointer); an event reaches exactly
      the appenders it should and, on healthy streams, each destination grows
      by the formatted texts, from which the fields can be read back; as long
      as streams append, nothing that was written is lost; the manager's
      look-up is stable; with several threads that call neither
      [clearAppenders] nor [getAppenders], objects are accessed under their
      locks, no iterator becomes invalid and every schedule ends with all
      calls returned (locks are taken in the order manager, logger, root
      logger, appender); three properties state where the code does less
      than it means to ([Logger::setFormatter], a stream that has failed,
      [clearAppenders] and [getAppenders], which take no lock).
    - Configuration: with listeners that return and leave the configuration
      alone, operations are safe in any order, loading a document refines
      assignments to an abstract map (the last readable entry wins) and
      [setValue] notifies listeners in order and then stores; what listeners
      that throw or call back do; look-up, listeners; every container cast
      round-trips; with several threads, listeners and readers are given the
      value the variable has, every call returns (listeners may throw, but
      not block or call back), and what the locking does not give
      ([ConfigVar_races]).
    - Logging configuration: definitions round-trip through text (up to a
      stated normalisation), what the loggers print is read back as their
      description, the listener brings the loggers in line with the
      new definitions, and so does loading a document.
    - Fibers: programs that follow the class's rules never fail an assertion
      or resume a context twice; states, counters and identifiers agree with
      what runs; a suspended fiber keeps its context; a fiber runs to its end;
      the count of live fibers is exact in any program; two properties show
      what happens when the rules are broken.
    - Threads: [CASLock] excludes; the constructor of [Thread] returns, only
      after the new thread has finished with the object; [run] never touches
      a destroyed object, the callback can.
    - Scheduler and stack traces: the queue is first in, first out and wakes
      the pool exactly when it was empty; [Backtrace] for every [skip].

    ** Fuel

    [LogFormatter::init] is run with one iteration per character plus one
    ([init_loop_terminates]).  [Logger::log] follows [m_root] pointers; it is
    run with one level per logger plus one, which suffices because every
    recursive call holds one more logger's lock (and, in a well-formed state,
    the depth is at most two; [log_system_safe] has no case that runs out).
    The other definitions are structurally recursive, or step relations;
    [ConfigVar_calls_return] and [log_calls_return] bound the length of every
    execution of the latter.

    ** Not modelled

    Memory orders and the unsynchronised reads of levels and time stamps; the
    contents of formatters and streams in the concurrent models (the
    sequential ones have them); callbacks of a [ConfigVar] that call back
    into it from several threads; what a program does after a failed
    [SYLAR_ASSERT] in a build with [NDEBUG], where it goes on (here it stops);
    allocation failures; texts that are not valid UTF-8 (yaml-cpp's laws are
    taken to hold for all texts); the reference counts of loggers and
    appenders, and so the destructor of [FileLogAppender];
    [Scheduler]'s [schedule(begin, end)], which does not compile;
    [SingletonPtr], which is not used; the test programs; static
    initialisation order.

    ** Plan

    Next: refinement between [ConfigConc] and the sequential [setValue], and
    between [LogConc] and [Logger]; the life time of appenders. *)

From Stdlib Require Export Ascii.
From stdpp Require Export base tactics list strings gmap pretty sorting.

(** ** The effect monad

    C++ code that mutates objects, throws or can block is a function from
    a state to an outcome.  [Throw] is an exception in flight (the state
    changes made before the throw stay, as in C++); [Stuck] is a program
    point from which the thread cannot continue: a mutex that is never
    released, undefined behaviour, or a failed [assert]. *)

Inductive exn : Type :=
| StdException (what : string)
| OtherException.

Inductive stuck : Type :=
| Deadlock
| Undefined (why : string)
| AssertFailed (cond : string).

Inductive outcome (S A : Type) : Type :=
| Ret (a : A) (s : S)
| Throw (e : exn) (s : S)
| Stuck (r : stuck).
Arguments Ret {S A} a s.
Arguments Throw {S A} e s.
Arguments Stuck {S A} r.

Definition M (S A : Type) : Type := S → outcome S A.

#[export] Instance M_ret {S} : MRet (M S) := λ A a s, Ret a s.
#[export] Instance M_bind {S} : MBind (M S) := λ A B f m s,
  match m s with
  | Ret a s' => f a s'
  | Throw e s' => Throw e s'
  | Stuck r => Stuck r
  end.

Definition get {S} : M S S := λ s, Ret s s.
Definition gets {S A} (f : S → A) : M S A := λ s, Ret (f s) s.
Definition modify {S} (f : S → S) : M S unit := λ s, Ret tt (f s).
Definition throw {S A} (e : exn) : M S A := λ s, Throw e s.
Definition stop {S A} (r : stuck) : M S A := λ _, Stuck r.

(** Dereferencing a pointer: a null or dangling one is undefined. *)
Definition deref {S A} (why : string) (f : S → option A) : M S A := λ s,
  match f s with Some a => Ret a s | None => Stuck (Undefined why) end.

Definition of_option {S A} (why : string) (o : option A) : M S A :=
  deref why (λ _, o).

(** [try { m } catch (...) { h }] with access to the exception. *)
Definition try_catch {S A} (m : M S A) (h : exn → M S A) : M S A := λ s,
  match m s with
  | Throw e s' => h e s'
  | o => o
  end.

(** Run [fin] when the scope of [m] is left, by a value or an exception. *)
Definition finally {S A} (m : M S A) (fin : M S unit) : M S A := λ s,
  match m s with
  | Ret a s' => match fin s' with
                | Ret _ s'' => Ret a s''
                | Throw e s'' => Throw e s''
                | Stuck r => Stuck r
                end
  | Throw e s' => match fin s' with
                  | Ret _ s'' => Throw e s''
                  | Throw e' s'' => Throw e' s''
                  | Stuck r => Stuck r
                  end
  | Stuck r => Stuck r
  end.

(** [for (auto& i : l) body(i);] *)
Fixpoint foreach {S X} (l : list X) (body : X → M S unit) : M S unit :=
  match l with
  | [] => mret tt
  | x :: l => body x;; foreach l body
  end.

(** Run a computation on a component of a larger state. *)
Definition zoom {S E A} (pr : S → E) (up : E → S → S) (m : M E A) : M S A := λ s,
  match m (pr s) with
  | Ret a e => Ret a (up e s)
  | Throw x e => Throw x (up e s)
  | Stuck r => Stuck r
  end.

(** ** Total correctness

    [wp m Q s]: from [s], [m] returns normally (it does not throw, block
    or run into undefined behaviour) and its result satisfies [Q]. *)

Definition wp {S A} (m : M S A) (Q : A → S → Prop) (s : S) : Prop :=
  match m s with Ret a s' => Q a s' | _ => False end.

Section wp.
Context {S : Type}.
Implicit Types (s : S).

Lemma wp_returns {A} (m : M S A) Q s :
  wp m Q s ↔ ∃ a s', m s = Ret a s' ∧ Q a s'.
Proof.
  unfold wp. destruct (m s) as [a s'| |]; split; try done.
  - eauto.
  - by intros (? & ? & [= -> ->] & ?).
  - by intros (? & ? & ? & ?).
  - by intros (? & ? & ? & ?).
Qed.

Lemma wp_ret {A} (a : A) (Q : A → S → Prop) s : Q a s → wp (mret a) Q s.
Proof. done. Qed.

Lemma wp_bind {A B} (m : M S A) (f : A → M S B) Q s :
  wp m (λ a s', wp (f a) Q s') s → wp (m ≫= f) Q s.
Proof. unfold wp, mbind, M_bind. by destruct (m s). Qed.

Lemma wp_mono {A} (m : M S A) (Q Q' : A → S → Prop) s :
  (∀ a s', Q a s' → Q' a s') → wp m Q s → wp m Q' s.
Proof. unfold wp. destruct (m s); auto. Qed.

Lemma wp_eq {A} (m m' : M S A) (Q : A → S → Prop) s : m s = m' s → wp m' Q s → wp m Q s.
Proof. unfold wp. by intros ->. Qed.

Lemma wp_and {A} (m : M S A) (Q Q' : A → S → Prop) s :
  wp m Q s → wp m Q' s → wp m (λ a s', Q a s' ∧ Q' a s') s.
Proof. unfold wp. by destruct (m s). Qed.

Lemma wp_gets {A} (f : S → A) (Q : A → S → Prop) s : Q (f s) s → wp (gets f) Q s.
Proof. done. Qed.

Lemma wp_get (Q : S → S → Prop) s : Q s s → wp get Q s.
Proof. done. Qed.

Lemma wp_modify (f : S → S) (Q : unit → S → Prop) s : Q tt (f s) → wp (modify f) Q s.
Proof. done. Qed.

Lemma wp_deref {A} why (f : S → option A) a (Q : A → S → Prop) s :
  f s = Some a → Q a s → wp (deref why f) Q s.
Proof. unfold wp, deref. by intros ->. Qed.

Lemma wp_of_option {A} why (o : option A) a (Q : A → S → Prop) s :
  o = Some a → Q a s → wp (of_option why o) Q s.
Proof. apply (wp_deref why (λ _, o)). Qed.

Lemma wp_finally {A} (m : M S A) fin (Q : A → S → Prop) s :
  wp m (λ a s', wp fin (λ _, Q a) s') s → wp (finally m fin) Q s.
Proof. unfold wp, finally. destruct (m s) as [a s'| |]; [|done..]. by destruct (fin s'). Qed.

Lemma wp_try_catch {A} (m : M S A) h (Q : A → S → Prop) s :
  wp m Q s → wp (try_catch m h) Q s.
Proof. unfold wp, try_catch. by destruct (m s). Qed.

(** The loop rule, with an invariant indexed by what is left to visit. *)
Lemma wp_foreach {X} (l : list X) (body : X → M S unit) (I : list X → S → Prop) s :
  (∀ x l' s, x ∈ l → I (x :: l') s → wp (body x) (λ _, I l') s) →
  I l s → wp (foreach l body) (λ _, I []) s.
Proof.
  revert s. induction l as [|x l IH]; intros s Hstep HI; [done|].
  simpl. apply wp_bind. eapply wp_mono; [|apply (Hstep x l); [by left|done]].
  intros [] s' HI'. apply IH; [|done].
  intros y l' s'' ?. apply Hstep. by right.
Qed.

Lemma wp_foreach_inv {X} (l : list X) (body : X → M S unit) (I : S → Prop) s :
  (∀ x s, x ∈ l → I s → wp (body x) (λ _, I) s) →
  I s → wp (foreach l body) (λ _, I) s.
Proof.
  intros H HI. apply (wp_foreach l body (λ _, I)); [|done]. intros; by apply H.
Qed.

Lemma foreach_app {X} (l k : list X) (body : X → M S unit) s :
  foreach (l ++ k) body s = (foreach l body;; foreach k body) s.
Proof.
  revert s. induction l as [|x l IH]; intros s; [done|].
  simpl. unfold mbind, M_bind in *.
  destruct (body x s) as [? s'| |]; [|done..]. by rewrite IH.
Qed.

Lemma wp_zoom {E A} (pr : S → E) up (m : M E A) (Q : A → S → Prop) s :
  wp m (λ a e, Q a (up e s)) (pr s) → wp (zoom pr up m) Q s.
Proof. unfold wp, zoom. by destruct (m (pr s)). Qed.
End wp.

(** The result of a computation as a value. *)
Definition result_at {S A} (s0 : S) (m : M S A) : option A :=
  match m s0 with Ret a _ => Some a | _ => None end.

(** ** Correctness with exceptions

    [wpx m Q R s]: from [s], [m] returns with [Q] or throws with [R]; it
    does not block or run into undefined behaviour. *)

Definition wpx {S A} (m : M S A) (Q : A → S → Prop) (R : exn → S → Prop) (s : S) : Prop :=
  match m s with Ret a s' => Q a s' | Throw e s' => R e s' | Stuck _ => False end.

(** Derives from [std::exception]. *)
Definition is_std (e : exn) : Prop := match e with StdException _ => True | OtherException => False end.

Section wpx.
Context {S : Type}.
Implicit Types (s : S).

Lemma wpx_wp {A} (m : M S A) Q R s : wp m Q s → wpx m Q R s.
Proof. unfold wp, wpx. by destruct (m s). Qed.

Lemma wpx_no_throw {A} (m : M S A) Q R s : wpx m Q R s → (∀ e s', R e s' → False) → wp m Q s.
Proof. unfold wp, wpx. destruct (m s); eauto. Qed.

Lemma wpx_ret {A} (a : A) (Q : A → S → Prop) R s : Q a s → wpx (mret a) Q R s.
Proof. done. Qed.

Lemma wpx_bind {A B} (m : M S A) (f : A → M S B) Q R s :
  wpx m (λ a s', wpx (f a) Q R s') R s → wpx (m ≫= f) Q R s.
Proof. unfold wpx, mbind, M_bind. by destruct (m s). Qed.

Lemma wpx_mono {A} (m : M S A) (Q Q' : A → S → Prop) (R R' : exn → S → Prop) s :
  (∀ a s', Q a s' → Q' a s') → (∀ e s', R e s' → R' e s') → wpx m Q R s → wpx m Q' R' s.
Proof. unfold wpx. destruct (m s); auto. Qed.

Lemma wpx_try_catch {A} (m : M S A) h Q R s :
  wpx m Q (λ e s', wpx (h e) Q R s') s → wpx (try_catch m h) Q R s.
Proof. unfold wpx, try_catch. by destruct (m s). Qed.

(** All exceptions are caught by a handler that returns. *)
Lemma wp_catch {A} (m : M S A) h (Q : A → S → Prop) s :
  wpx m Q (λ e s', wp (h e) Q s') s → wp (try_catch m h) Q s.
Proof. unfold wp, wpx, try_catch. by destruct (m s). Qed.

Lemma wpx_finally {A} (m : M S A) fin Q R s :
  wpx m (λ a s', wp fin (λ _, Q a) s') (λ e s', wp fin (λ _, R e) s') s →
  wpx (finally m fin) Q R s.
Proof. unfold wpx, wp, finally. destruct (m s) as [a s'|e s'|]; [..|done]; by destruct (fin s'). Qed.

Lemma wpx_zoom {E A} (pr : S → E) up (m : M E A) Q R s :
  wpx m (λ a e, Q a (up e s)) (λ x e, R x (up e s)) (pr s) → wpx (zoom pr up m) Q R s.
Proof. unfold wpx, zoom. by destruct (m (pr s)). Qed.

(** A loop whose body keeps an invariant, also when it throws. *)
Lemma wpx_foreach_inv {X} (l : list X) (body : X → M S unit) (I : S → Prop) (R : exn → S → Prop) s :
  (∀ x s, x ∈ l → I s → wpx (body x) (λ _, I) R s) →
  I s → wpx (foreach l body) (λ _, I) R s.
Proof.
  revert s. induction l as [|x l IH]; intros s Hstep HI; [done|].
  simpl. apply wpx_bind. eapply wpx_mono; [|done|apply (Hstep x); [by left|done]].
  intros [] s' HI'. apply IH; [|done]. intros y s'' ?. apply Hstep. by right.
Qed.
End wpx.

(** ** Partial correctness

    [wlp m Q s]: from [s], [m] does not throw, and [Q] holds if it returns. *)

Definition wlp {S A} (m : M S A) (Q : A → S → Prop) (s : S) : Prop :=
  match m s with Ret a s' => Q a s' | Throw _ _ => False | Stuck _ => True end.

Section wlp.
Context {S : Type}.
Implicit Types (s : S).

Lemma wlp_ret {A} (a : A) (Q : A → S → Prop) s : Q a s → wlp (mret a) Q s.
Proof. done. Qed.

Lemma wlp_bind {A B} (m : M S A) (f : A → M S B) Q s :
  wlp m (λ a s', wlp (f a) Q s') s → wlp (m ≫= f) Q s.
Proof. unfold wlp, mbind, M_bind. by destruct (m s). Qed.

Lemma wlp_seq {A B} (m : M S A) (f : A → M S B) (P : A → S → Prop) Q s :
  wlp m P s → (∀ a s', P a s' → wlp (f a) Q s') → wlp (m ≫= f) Q s.
Proof. intros Hm Hf. apply wlp_bind. unfold wlp in *. destruct (m s); [by apply Hf|done..]. Qed.

Lemma wlp_gets {A} (f : S → A) (Q : A → S → Prop) s : Q (f s) s → wlp (gets f) Q s.
Proof. done. Qed.

Lemma wlp_get (Q : S → S → Prop) s : Q s s → wlp get Q s.
Proof. done. Qed.

Lemma wlp_modify (f : S → S) (Q : unit → S → Prop) s : Q tt (f s) → wlp (modify f) Q s.
Proof. done. Qed.

Lemma wlp_deref {A} why (f : S → option A) (Q : A → S → Prop) s :
  (∀ a, f s = Some a → Q a s) → wlp (deref why f) Q s.
Proof. unfold wlp, deref. destruct (f s); auto. Qed.

Lemma wlp_of_option {A} why (o : option A) (Q : A → S → Prop) s :
  (∀ a, o = Some a → Q a s) → wlp (of_option why o) Q s.
Proof. unfold wlp, of_option. destruct o; cbn; auto. Qed.

Lemma wlp_stop {A} r (Q : A → S → Prop) s : wlp (stop r) Q s.
Proof. done. Qed.
End wlp.

(** ** Automation *)

Create HintDb cpp discriminated.
#[export] Hint Resolve wp_ret wp_gets wp_get wp_modify : cpp.

(** One step of symbolic execution of a [wp] goal. *)
Ltac wp_step :=
  lazymatch goal with
  | |- wp (mret _) _ _ => apply wp_ret
  | |- wp (mbind _ _) _ _ => apply wp_bind
  | |- wp (gets _) _ _ => apply wp_gets
  | |- wp get _ _ => apply wp_get
  | |- wp (modify _) _ _ => apply wp_modify
  | |- wp (finally _ _) _ _ => apply wp_finally
  | |- wp (try_catch _ _) _ _ => apply wp_try_catch
  | |- wp (deref _ _) _ _ => eapply wp_deref; [done|]
  | |- wp (of_option _ _) _ _ => eapply wp_of_option; [done|]
  | |- wp (if ?b then _ else _) _ _ => destruct b eqn:?
  end.
Ltac wp_steps := repeat (wp_step; cbn beta iota).

(** ** Generic lemmas *)

Lemma string_app_assoc (s1 s2 s3 : string) : s1 +:+ (s2 +:+ s3) = (s1 +:+ s2) +:+ s3.
Proof. induction s1; [done|]. unfold String.append in *; fold String.append in *. by f_equal. Qed.

Lemma string_app_empty_r (s : string) : s +:+ "" = s.
Proof. induction s; [done|]. unfold String.append in *; fold String.append in *. by f_equal. Qed.

Lemma string_app_empty_l (s : string) : "" +:+ s = s.
Proof. done. Qed.

Lemma string_app_cons c (s1 s2 : string) : String c s1 +:+ s2 = String c (s1 +:+ s2).
Proof. done. Qed.

Lemma string_app_length (s1 s2 : string) :
  String.length (s1 +:+ s2) = String.length s1 + String.length s2.
Proof.
  induction s1; [done|]. rewrite string_app_cons. simpl. by f_equal.
Qed.

Create Rewrite HintDb cpp_str.
#[export] Hint Rewrite string_app_assoc string_app_empty_r string_app_empty_l : cpp_str.

(** Concatenation of a list of strings, the content of a stream after
    writing them one by one. *)
Definition concat_strings (l : list string) : string := foldr String.append "" l.

Lemma concat_strings_app l k :
  concat_strings (l ++ k) = concat_strings l +:+ concat_strings k.
Proof.
  induction l as [|x l IH]; [done|]. simpl. by rewrite IH, string_app_assoc.
Qed.

(** Machine integers: unsigned wrap-around at a width. *)
Definition wrapU (w : Z) (z : Z) : Z := z `mod` 2 ^ w.

Lemma wrapU_small w z : (0 ≤ z < 2 ^ w)%Z → wrapU w z = z.
Proof. apply Z.mod_small. Qed.

Lemma wrapU_range w z : (0 ≤ w)%Z → (0 ≤ wrapU w z < 2 ^ w)%Z.
Proof. intros. apply Z.mod_pos_bound. by apply Z.pow_pos_nonneg. Qed.

(** Sums over the elements of a list, one of which is replaced. *)
Lemma sum_list_with_insert {A} (f : A → nat) l i x y : l !! i = Some x →
  sum_list_with f (<[i := y]> l) + f x = sum_list_with f l + f y.
Proof.
  revert i. induction l as [|z l IH]; intros [|i] Hx; [done..| |]; simpl in *.
  - injection Hx as ->. lia.
  - specialize (IH i Hx). lia.
Qed.

Lemma sum_list_with_lookup {A} (f : A → nat) l i x : l !! i = Some x → f x ≤ sum_list_with f l.
Proof.
  revert i. induction l as [|z l IH]; intros [|i] Hx; [done..| |]; simpl in *.
  - injection Hx as ->. lia.
  - specialize (IH i Hx). lia.
Qed.

Lemma sum_list_with_lookup_2 {A} (f : A → nat) l i j x y : l !! i = Some x → l !! j = Some y → i ≠ j →
  f x + f y ≤ sum_list_with f l.
Proof.
  intros Hx Hy Hne. pose proof (sum_list_with_insert f l j y x Hy).
  destruct (decide (f x = 0)) as [E|E]; [pose proof (sum_list_with_lookup f l j y Hy); lia|].
  revert i j Hx Hy Hne H. induction l as [|z l IH]; intros [|i] [|j] Hx Hy Hne _; try done; simpl in *.
  - injection Hx as ->. pose proof (sum_list_with_lookup f l j y Hy). lia.
  - injection Hy as ->. pose proof (sum_list_with_lookup f l i x Hx). lia.
  - specialize (IH i j Hx Hy ltac:(congruence) (sum_list_with_insert f l j y x Hy)). lia.
Qed.

Lemma sum_list_with_zero {A} (f : A → nat) l i x : sum_list_with f l = 0 → l !! i = Some x → f x = 0.
Proof. intros Hs Hx. pose proof (sum_list_with_lookup f l i x Hx). lia. Qed.

Lemma sum_list_with_mono {A} (f g : A → nat) l : (∀ x, x ∈ l → f x ≤ g x) → sum_list_with f l ≤ sum_list_with g l.
Proof.
  induction l as [|z l IH]; intros Hfg; simpl; [done|].
  pose proof (Hfg z ltac:(by left)). specialize (IH ltac:(intros; apply Hfg; by right)). lia.
Qed.

(** ** Schedules

    A system of threads steps by a partial function of the thread; [drive]
    lets the first thread that can move do so. *)
Section drive.
Context {S : Type} (tstep : nat → S → option S) (ts : list nat).

Definition first_some {A} (l : list (option A)) : option A := head (omap id l).

Lemma first_some_elem {A} (l : list (option A)) a : first_some l = Some a → Some a ∈ l.
Proof.
  unfold first_some. induction l as [|[x|] l IH]; cbn; [done| |].
  - intros [= ->]. by left.
  - intros Hl. right. by apply IH.
Qed.

Fixpoint drive (n : nat) (s : S) : S :=
  match n with
  | 0 => s
  | Datatypes.S n => match first_some ((λ t, tstep t s) <$> ts) with Some s' => drive n s' | None => s end
  end.

Lemma drive_reach n s : rtc (λ s s', ∃ t, tstep t s = Some s') s (drive n s).
Proof.
  revert s. induction n as [|n IH]; intros s; cbn [drive]; [done|].
  destruct (first_some _) as [s'|] eqn:Hs; [|done]. apply first_some_elem in Hs.
  apply list_elem_of_fmap in Hs as (t & Hs & _). eapply rtc_l; [exists t; symmetry; exact Hs|apply IH].
Qed.
End drive.
