(* ===== verification/CppStd.v ===== *)
(** * The parts of the C++ standard library the program uses

    Character classification ([isalpha], [::toupper], [::tolower] in the
    "C" locale), [std::transform] and [find_first_not_of] on strings, and
    the ordered containers.  A [std::set] or [std::map] is the list of its
    elements in iteration order, strictly sorted by the comparison's key;
    [insert] keeps an equivalent element that is already there,
    [operator[]] assignment overwrites it. *)
From S2P Require Import Prelude.

(** ** Characters and strings *)

Definition isupper (c : ascii) : bool :=
  (Nat.leb 65 (nat_of_ascii c) && Nat.leb (nat_of_ascii c) 90)%nat.
Definition islower (c : ascii) : bool :=
  (Nat.leb 97 (nat_of_ascii c) && Nat.leb (nat_of_ascii c) 122)%nat.
Definition isalpha (c : ascii) : bool := isupper c || islower c.

Definition toupper (c : ascii) : ascii :=
  if islower c then ascii_of_nat (nat_of_ascii c - 32) else c.
Definition tolower (c : ascii) : ascii :=
  if isupper c then ascii_of_nat (nat_of_ascii c + 32) else c.

(** [std::transform(s.begin(), s.end(), s.begin(), f)] *)
Fixpoint transform (f : ascii → ascii) (s : string) : string :=
  match s with
  | "" => ""
  | String c s => String (f c) (transform f s)
  end.

Fixpoint str_mem (c : ascii) (s : string) : bool :=
  match s with
  | "" => false
  | String d s => bool_decide (c = d) || str_mem c s
  end.

(** [s.find_first_not_of(chars)]; [None] is [std::string::npos]. *)
Fixpoint find_first_not_of (chars s : string) : option nat :=
  match s with
  | "" => None
  | String c s => if str_mem c chars then S <$> find_first_not_of chars s else Some 0
  end.

Definition str_empty (s : string) : bool :=
  match s with "" => true | _ => false end.

Fixpoint str_all (p : ascii → bool) (s : string) : bool :=
  match s with "" => true | String c s => p c && str_all p s end.

Lemma str_empty_spec s : str_empty s = true ↔ s = "".
Proof. by destruct s. Qed.

Lemma str_all_app p s1 s2 : str_all p (s1 +:+ s2) = str_all p s1 && str_all p s2.
Proof.
  induction s1 as [|c s1 IH]; [done|]. rewrite string_app_cons. simpl.
  by rewrite IH, andb_assoc.
Qed.

Lemma find_first_not_of_None chars s :
  find_first_not_of chars s = None ↔ str_all (λ c, str_mem c chars) s = true.
Proof.
  induction s as [|c s IH]; simpl; [done|].
  destruct (str_mem c chars); simpl; [|done].
  rewrite <-IH. by destruct (find_first_not_of chars s).
Qed.

Lemma transform_app f s1 s2 : transform f (s1 +:+ s2) = transform f s1 +:+ transform f s2.
Proof.
  induction s1 as [|c s1 IH]; [done|]. rewrite !string_app_cons. simpl. by rewrite IH.
Qed.

Lemma transform_id f s : str_all (λ c, bool_decide (f c = c)) s = true → transform f s = s.
Proof.
  induction s as [|c s IH]; [done|]. simpl. intros [Hc Hs]%andb_true_iff.
  apply bool_decide_eq_true in Hc. by rewrite Hc, IH.
Qed.

Lemma toupper_idemp c : toupper (toupper c) = toupper c.
Proof. destruct c as [[][][][][][][][]]; vm_compute; reflexivity. Qed.

Lemma tolower_idemp c : tolower (tolower c) = tolower c.
Proof. destruct c as [[][][][][][][][]]; vm_compute; reflexivity. Qed.

Lemma transform_idemp f s :
  (∀ c, f (f c) = f c) → transform f (transform f s) = transform f s.
Proof. intros Hf. induction s as [|c s IH]; [done|]. simpl. by rewrite Hf, IH. Qed.

(** ** Keys: a strict total order with a decision *)

Class KeyOrd (K : Type) := {
  klt : K → K → bool;
  klt_irrefl k : klt k k = false;
  klt_trans k1 k2 k3 : klt k1 k2 = true → klt k2 k3 = true → klt k1 k3 = true;
  klt_total k1 k2 : klt k1 k2 = false → klt k2 k1 = false → k1 = k2;
}.

#[export] Instance Z_KeyOrd : KeyOrd Z.
Proof.
  refine {| klt := Z.ltb |}.
  - apply Z.ltb_irrefl.
  - intros ???. rewrite !Z.ltb_lt. lia.
  - intros ??. rewrite !Z.ltb_ge. lia.
Defined.

(** [std::string::operator<]: lexicographic on unsigned bytes. *)
Definition string_lt (s1 s2 : string) : bool := negb (String.leb s2 s1).

Lemma leb_le s1 s2 : String.leb s1 s2 = true ↔ String.le s1 s2.
Proof. unfold String.le. by rewrite Is_true_true. Qed.

#[export] Instance string_KeyOrd : KeyOrd string.
Proof.
  refine {| klt := string_lt |}; unfold string_lt.
  - intros k. rewrite (proj2 (leb_le k k)); [done|]. by reflexivity.
  - intros k1 k2 k3 H1%negb_true_iff H2%negb_true_iff. apply negb_true_iff.
    destruct (String.leb k3 k1) eqn:H3; [|done]. exfalso.
    destruct (String.leb_total k1 k2) as [H12|?]; [|congruence].
    apply leb_le in H3, H12.
    assert (String.le k3 k2) as H4%leb_le by (by etrans). congruence.
  - intros k1 k2 H1%negb_false_iff H2%negb_false_iff. by apply String.leb_antisym.
Defined.

Lemma klt_asym `{KeyOrd K} k1 k2 : klt k1 k2 = true → klt k2 k1 = false.
Proof.
  intros H1. destruct (klt k2 k1) eqn:H2; [|done].
  rewrite <-(klt_irrefl k1). symmetry. by eapply klt_trans.
Qed.

(** ** std::set, ordered by a key of the element *)
Section set.
Context {A K : Type} `{!KeyOrd K} (key : A → K).

Definition sset_sorted (l : list A) : Prop :=
  StronglySorted (λ x y, klt (key x) (key y) = true) l.

(** [std::set::insert]: an equivalent element that is present stays. *)
Fixpoint sset_insert (x : A) (l : list A) : list A :=
  match l with
  | [] => [x]
  | y :: l' =>
      if klt (key x) (key y) then x :: y :: l'
      else if klt (key y) (key x) then y :: sset_insert x l'
      else y :: l'
  end.

(** [std::set::find]: the element equivalent to one with key [k]. *)
Fixpoint sset_find (k : K) (l : list A) : option A :=
  match l with
  | [] => None
  | y :: l' =>
      if klt k (key y) then None
      else if klt (key y) k then sset_find k l'
      else Some y
  end.

Definition sset_of_list (l : list A) : list A :=
  foldl (λ acc x, sset_insert x acc) [] l.

Lemma sset_insert_elem x y l : y ∈ sset_insert x l → y = x ∨ y ∈ l.
Proof.
  induction l as [|z l IH]; simpl.
  - intros ?%list_elem_of_singleton. auto.
  - destruct (klt (key x) (key z)); [|destruct (klt (key z) (key x))];
      rewrite !elem_of_cons; intros H; tauto.
Qed.

Lemma sset_insert_sorted x l : sset_sorted l → sset_sorted (sset_insert x l).
Proof.
  unfold sset_sorted. induction 1 as [|y l Hl IH Hy]; simpl; [by repeat constructor|].
  destruct (klt (key x) (key y)) eqn:Hxy; [|destruct (klt (key y) (key x)) eqn:Hyx].
  - constructor; [by constructor|]. constructor; [done|].
    eapply Forall_impl; [done|]. simpl. intros z ?. by eapply klt_trans.
  - constructor; [done|]. rewrite Forall_forall in Hy |- *.
    intros z [->|?]%sset_insert_elem; [done|auto].
  - by constructor.
Qed.

Lemma sset_of_list_sorted l : sset_sorted (sset_of_list l).
Proof.
  unfold sset_of_list. assert (sset_sorted []) as Hs by constructor.
  revert Hs. generalize (@nil A). induction l as [|x l IH]; intros acc Hs; [done|].
  simpl. by apply IH, sset_insert_sorted.
Qed.

Lemma sset_find_Some k l x : sset_find k l = Some x → x ∈ l ∧ key x = k.
Proof.
  induction l as [|y l IH]; simpl; [done|].
  repeat case_match; intros; simplify_eq.
  - destruct IH as [??]; [done|]. split; [by right|done].
  - split; [by left|]. by apply klt_total.
Qed.

Lemma sset_find_elem x l : sset_sorted l → x ∈ l → sset_find (key x) l = Some x.
Proof.
  induction 1 as [|y l Hl IH Hy]; [by intros ?%elem_of_nil|].
  intros [->|Hx]%elem_of_cons; simpl.
  - by rewrite klt_irrefl.
  - rewrite Forall_forall in Hy. specialize (Hy x Hx).
    rewrite (klt_asym _ _ Hy), Hy. auto.
Qed.

Lemma sset_find_None k l x : sset_sorted l → sset_find k l = None → x ∈ l → key x ≠ k.
Proof. intros Hs Hn Hx <-. by rewrite sset_find_elem in Hn. Qed.

(** Inserting past the end appends. *)
Lemma sset_insert_snoc x l :
  Forall (λ y, klt (key y) (key x) = true) l → sset_insert x l = l ++ [x].
Proof.
  induction 1 as [|y l Hy Hl IH]; simpl; [done|].
  by rewrite (klt_asym _ _ Hy), Hy, IH.
Qed.

(** Rebuilding a set from its elements in iteration order gives it back. *)
Lemma sset_of_list_id l : sset_sorted l → sset_of_list l = l.
Proof.
  intros Hs. unfold sset_of_list.
  enough (∀ acc, sset_sorted (acc ++ l) → foldl (λ acc x, sset_insert x acc) acc l = acc ++ l)
    as H by (apply (H []); done).
  clear Hs. induction l as [|x l IH]; intros acc Hs; simpl; [by rewrite app_nil_r|].
  rewrite sset_insert_snoc.
  - rewrite IH; rewrite <-app_assoc; done.
  - unfold sset_sorted in Hs. clear IH. induction acc as [|y acc IH]; [done|].
    simpl in Hs. apply StronglySorted_inv in Hs as [Hs Hy].
    constructor; [|auto]. rewrite Forall_forall in Hy. apply Hy. set_solver.
Qed.
End set.

(** ** std::map: pairs ordered by the first component *)
Section map.
Context {K V : Type} `{!KeyOrd K}.

(** [m[k] = v] *)
Fixpoint smap_set (k : K) (v : V) (m : list (K * V)) : list (K * V) :=
  match m with
  | [] => [(k, v)]
  | (k', v') :: m' =>
      if klt k k' then (k, v) :: (k', v') :: m'
      else if klt k' k then (k', v') :: smap_set k v m'
      else (k', v) :: m'
  end.

Definition smap_find (k : K) (m : list (K * V)) : option V := snd <$> sset_find fst k m.
Definition smap_insert (kv : K * V) (m : list (K * V)) : list (K * V) := sset_insert fst kv m.

(** [m.erase(k)] *)
Fixpoint smap_erase (k : K) (m : list (K * V)) : list (K * V) :=
  match m with
  | [] => []
  | (k', v') :: m' =>
      if klt k k' then (k', v') :: m'
      else if klt k' k then (k', v') :: smap_erase k m'
      else m'
  end.

Lemma smap_set_elem k v m kv : kv ∈ smap_set k v m → kv = (k, v) ∨ kv ∈ m.
Proof.
  induction m as [|[k' v'] m IH]; simpl.
  - intros ?%list_elem_of_singleton. auto.
  - destruct (klt k k') eqn:H1; [|destruct (klt k' k) eqn:H2];
      rewrite ?elem_of_cons; intros H; try tauto.
    rewrite (klt_total _ _ H1 H2). tauto.
Qed.

Lemma smap_set_sorted k v m : sset_sorted fst m → sset_sorted fst (smap_set k v m).
Proof.
  unfold sset_sorted. induction 1 as [|[k' v'] m Hm IH Hy]; simpl; [by repeat constructor|].
  destruct (klt k k') eqn:H1; [|destruct (klt k' k) eqn:H2].
  - constructor; [by constructor|]. constructor; [done|].
    eapply Forall_impl; [done|]. simpl. intros z ?. by eapply klt_trans.
  - constructor; [done|]. rewrite Forall_forall in Hy |- *.
    intros z [->|?]%smap_set_elem; [done|auto].
  - by constructor.
Qed.

Lemma smap_erase_elem k m kv : kv ∈ smap_erase k m → kv ∈ m.
Proof.
  induction m as [|[k' v'] m IH]; simpl; [done|].
  repeat case_match; rewrite ?elem_of_cons; tauto.
Qed.

Lemma smap_erase_sorted k m : sset_sorted fst m → sset_sorted fst (smap_erase k m).
Proof.
  unfold sset_sorted. induction 1 as [|[k' v'] m Hm IH Hy]; simpl; [by constructor|].
  repeat case_match; try done; [by constructor|].
  constructor; [done|]. rewrite Forall_forall in Hy |- *.
  intros z ?%smap_erase_elem. auto.
Qed.

Lemma smap_find_set_eq k v m : smap_find k (smap_set k v m) = Some v.
Proof.
  unfold smap_find. induction m as [|[k' v'] m IH]; simpl; [by rewrite klt_irrefl|].
  destruct (klt k k') eqn:H1; [|destruct (klt k' k) eqn:H2]; simpl.
  - by rewrite klt_irrefl.
  - by rewrite H1, H2.
  - by rewrite H1, H2.
Qed.

Lemma smap_find_set_ne k k' v m : sset_sorted fst m → k ≠ k' →
  smap_find k' (smap_set k v m) = smap_find k' m.
Proof.
  intros Hs Hne. unfold smap_find, sset_sorted in *.
  assert (klt k' k = true ∨ klt k k' = true) as Hcmp.
  { destruct (klt k' k) eqn:?, (klt k k') eqn:?; auto. destruct Hne. by apply klt_total. }
  induction Hs as [|[j w] m Hm IH Hy]; simpl.
  { destruct Hcmp as [Hlt|Hlt]; [by rewrite Hlt|]. by rewrite (klt_asym _ _ Hlt), Hlt. }
  destruct (klt k j) eqn:H1; [|destruct (klt j k) eqn:H2]; simpl.
  - destruct Hcmp as [Hlt|Hlt].
    + rewrite Hlt. by rewrite (klt_trans _ _ _ Hlt H1).
    + by rewrite (klt_asym _ _ Hlt), Hlt.
  - repeat case_match; try done.
  - rewrite (klt_total _ _ H1 H2) in Hcmp. simpl.
    destruct Hcmp as [Hlt|Hlt]; [by rewrite Hlt|]. by rewrite (klt_asym _ _ Hlt), Hlt.
Qed.

Lemma smap_find_elem k v m : sset_sorted fst m → (k, v) ∈ m → smap_find k m = Some v.
Proof.
  intros Hs Hin. unfold smap_find. pose proof (sset_find_elem fst (k, v) m Hs Hin) as H.
  simpl in H. by rewrite H.
Qed.

Lemma smap_find_Some k m v : smap_find k m = Some v → (k, v) ∈ m.
Proof.
  unfold smap_find. destruct (sset_find fst k m) as [[k' v']|] eqn:E; [|done].
  intros [= ->]. apply sset_find_Some in E as [? [= ->]]. done.
Qed.

Lemma smap_find_None k v m : sset_sorted fst m → smap_find k m = None → (k, v) ∉ m.
Proof. intros Hs Hn Hin. by rewrite (smap_find_elem k v) in Hn. Qed.

Lemma smap_find_erase k m : sset_sorted fst m → smap_find k (smap_erase k m) = None.
Proof.
  intros Hs. destruct (smap_find k (smap_erase k m)) as [v|] eqn:E; [|done]. exfalso.
  apply smap_find_Some in E. revert E. unfold sset_sorted in Hs.
  induction Hs as [|[j w] m Hm IH Hy]; simpl; [by intros ?%elem_of_nil|].
  rewrite Forall_forall in Hy.
  destruct (klt k j) eqn:H1; [|destruct (klt j k) eqn:H2].
  - intros [[= -> _]|Hin]%elem_of_cons; [by rewrite klt_irrefl in H1|].
    specialize (Hy _ Hin). simpl in Hy. by rewrite (klt_asym _ _ H1) in Hy.
  - intros [[= -> _]|Hin]%elem_of_cons; [by rewrite klt_irrefl in H2|auto].
  - intros Hin. rewrite (klt_total _ _ H1 H2) in Hin.
    specialize (Hy _ Hin). simpl in Hy. by rewrite klt_irrefl in Hy.
Qed.

Lemma smap_erase_keeps k kv m : kv.1 ≠ k → kv ∈ m → kv ∈ smap_erase k m.
Proof.
  intros Hne. induction m as [|[k' v'] m IH]; simpl; [done|]. rewrite elem_of_cons.
  destruct (klt k k') eqn:H1; [|destruct (klt k' k) eqn:H2]; rewrite ?elem_of_cons; intros [->|Hin]; auto.
  simpl in Hne. by destruct Hne; rewrite (klt_total _ _ H1 H2).
Qed.

Lemma smap_find_erase_ne k k' m : sset_sorted fst m → k ≠ k' → smap_find k' (smap_erase k m) = smap_find k' m.
Proof.
  intros Hs Hne. destruct (smap_find k' m) as [v|] eqn:E.
  - apply smap_find_elem; [by apply smap_erase_sorted|]. by apply smap_erase_keeps, smap_find_Some; [simpl; congruence|].
  - destruct (smap_find k' (smap_erase k m)) as [v|] eqn:E'; [|done].
    apply smap_find_Some, smap_erase_elem in E'. by apply (smap_find_None k' v m) in E.
Qed.
End map.

#[export] Hint Resolve sset_insert_sorted sset_of_list_sorted smap_set_sorted
  smap_erase_sorted : cpp.
