(* ===== verification/Lock.v ===== *)
(** * Locks as one thread sees them (sylar/thread.h)

    The lock table of a state maps a lock's address to how the running
    thread holds it; a lock that is not in the table is free.  Acquiring a
    lock the thread itself holds in a conflicting way blocks for ever
    ([Deadlock]); releasing one that is not held is undefined.  The scoped
    guards ([ScopedLockImpl], [ReadScopedLockImpl], [WriteScopedLockImpl])
    are templates over the lock's type; here they are generic in an
    instance of [Lockable] or [RWLockable]. *)
From S2P Require Import Prelude.

Inductive lkst : Type := Shared (n : nat) | Exclusive.

#[export] Instance lkst_eq_dec : EqDecision lkst.
Proof. solve_decision. Defined.

(** A state that contains a lock table with addresses [L]. *)
Class HasLocks (St L : Type) `{Countable L} := {
  locks_of : St → gmap L lkst;
  set_locks : gmap L lkst → St → St;
  locks_of_set t s : locks_of (set_locks t s) = t;
  set_set_locks t t' s : set_locks t (set_locks t' s) = set_locks t s;
  set_locks_id s : set_locks (locks_of s) s = s;
}.

(** The interface the guard templates require of their argument. *)
Class Lockable (St T : Type) := { lock : T → M St unit; unlock : T → M St unit }.
Class RWLockable (St T : Type) := {
  rdlock : T → M St unit;
  wrlock : T → M St unit;
  rwunlock : T → M St unit;
}.

(** ** The lock classes *)
Section classes.
Context {St L : Type} `{HasLocks St L}.

Definition pthread_mutex_lock (l : L) : M St unit := λ s,
  match locks_of s !! l with
  | None => Ret tt (set_locks (<[l := Exclusive]> (locks_of s)) s)
  | Some _ => Stuck Deadlock
  end.
Definition pthread_mutex_unlock (l : L) : M St unit := λ s,
  match locks_of s !! l with
  | Some Exclusive => Ret tt (set_locks (delete l (locks_of s)) s)
  | _ => Stuck (Undefined "unlock of a mutex that is not held")
  end.
Definition pthread_rwlock_rdlock (l : L) : M St unit := λ s,
  match locks_of s !! l with
  | None => Ret tt (set_locks (<[l := Shared 1]> (locks_of s)) s)
  | Some (Shared n) => Ret tt (set_locks (<[l := Shared (n + 1)]> (locks_of s)) s)
  | Some Exclusive => Stuck Deadlock
  end.
Definition pthread_rwlock_wrlock (l : L) : M St unit := pthread_mutex_lock l.
Definition pthread_rwlock_unlock (l : L) : M St unit := λ s,
  match locks_of s !! l with
  | Some (Shared (S (S n))) =>
      Ret tt (set_locks (<[l := Shared (S n)]> (locks_of s)) s)
  | Some _ => Ret tt (set_locks (delete l (locks_of s)) s)
  | None => Stuck (Undefined "unlock of an rwlock that is not held")
  end.
End classes.

(** The classes differ in the primitive they wrap; a [Spinlock] and a
    [CASLock] block the thread that holds them like a [Mutex] does. *)
Record Mutex (L : Type) := mkMutex { mutex_addr : L }.
Record Spinlock (L : Type) := mkSpinlock { spin_addr : L }.
Record CASLock (L : Type) := mkCASLock { cas_addr : L }.
Record RWMutex (L : Type) := mkRWMutex { rw_addr : L }.
Inductive NullMutex : Type := mkNullMutex.
Inductive NullRWMutex : Type := mkNullRWMutex.
Arguments mkMutex {L} _.
Arguments mutex_addr {L} _.
Arguments mkSpinlock {L} _.
Arguments spin_addr {L} _.
Arguments mkCASLock {L} _.
Arguments cas_addr {L} _.
Arguments mkRWMutex {L} _.
Arguments rw_addr {L} _.

#[export] Instance Mutex_Lockable `{HasLocks St L} : Lockable St (Mutex L) :=
  {| lock m := pthread_mutex_lock (mutex_addr m); unlock m := pthread_mutex_unlock (mutex_addr m) |}.
#[export] Instance Spinlock_Lockable `{HasLocks St L} : Lockable St (Spinlock L) :=
  {| lock m := pthread_mutex_lock (spin_addr m); unlock m := pthread_mutex_unlock (spin_addr m) |}.
#[export] Instance CASLock_Lockable `{HasLocks St L} : Lockable St (CASLock L) :=
  {| lock m := pthread_mutex_lock (cas_addr m); unlock m := pthread_mutex_unlock (cas_addr m) |}.
#[export] Instance NullMutex_Lockable {St} : Lockable St NullMutex :=
  {| lock _ := mret tt; unlock _ := mret tt |}.
#[export] Instance RWMutex_RWLockable `{HasLocks St L} : RWLockable St (RWMutex L) :=
  {| rdlock m := pthread_rwlock_rdlock (rw_addr m);
     wrlock m := pthread_rwlock_wrlock (rw_addr m);
     rwunlock m := pthread_rwlock_unlock (rw_addr m) |}.
#[export] Instance NullRWMutex_RWLockable {St} : RWLockable St NullRWMutex :=
  {| rdlock _ := mret tt; wrlock _ := mret tt; rwunlock _ := mret tt |}.

(** ** The scoped guards *)

(** A guard object: the reference to the lock and [m_locked]. *)
Record Guard (T : Type) := mkGuard { m_mutex : T; m_locked : bool }.
Arguments mkGuard {T} _ _.
Arguments m_mutex {T} _.
Arguments m_locked {T} _.

Section guard.
Context {St T : Type} (acquire release : T → M St unit).

Definition guard_new (mutex : T) : M St (Guard T) :=
  acquire mutex;; mret (mkGuard mutex true).
Definition guard_lock (g : Guard T) : M St (Guard T) :=
  if negb (m_locked g) then acquire (m_mutex g);; mret (mkGuard (m_mutex g) true)
  else mret g.
Definition guard_unlock (g : Guard T) : M St (Guard T) :=
  if m_locked g then release (m_mutex g);; mret (mkGuard (m_mutex g) false)
  else mret g.
Definition guard_delete (g : Guard T) : M St unit := guard_unlock g;; mret tt.

(** A block that starts with the declaration of a guard: the guard's
    destructor runs when the block is left. *)
Definition guard_scope {A} (mutex : T) (body : M St A) : M St A :=
  g ← guard_new mutex; finally body (guard_delete g).
End guard.

Definition ScopedLockImpl `{Lockable St T} {A} (mutex : T) (body : M St A) : M St A :=
  guard_scope lock unlock mutex body.
Definition ReadScopedLockImpl `{RWLockable St T} {A} (mutex : T) (body : M St A) : M St A :=
  guard_scope rdlock rwunlock mutex body.
Definition WriteScopedLockImpl `{RWLockable St T} {A} (mutex : T) (body : M St A) : M St A :=
  guard_scope wrlock rwunlock mutex body.

(** ** Properties of the guards *)
Section guard_laws.
Context {St T : Type} (acquire release : T → M St unit).

(** Unlocking a guard twice releases the lock once. *)
Lemma guard_unlock_idemp g s :
  (g' ← guard_unlock release g; guard_unlock release g') s = guard_unlock release g s.
Proof.
  destruct g as [m []]; [|done]. unfold guard_unlock, mbind, M_bind. simpl.
  by destruct (release m s).
Qed.

(** After an explicit unlock the destructor leaves the lock alone. *)
Lemma guard_delete_unlocked m s : guard_delete release (mkGuard m false) s = Ret tt s.
Proof. done. Qed.

(** The scope holds the lock while the body runs and gives it back,
    whether the body returns or throws. *)
Lemma wp_guard_scope {A} m (body : M St A) (Q : A → St → Prop) s :
  wp (acquire m) (λ _, wp body (λ a, wp (release m) (λ _, Q a))) s →
  wp (guard_scope acquire release m body) Q s.
Proof.
  intros Hw. unfold guard_scope, guard_new, guard_delete, guard_unlock.
  apply wp_bind, wp_bind. eapply wp_mono; [|exact Hw]. intros [] s1 H1.
  apply wp_ret, wp_finally. eapply wp_mono; [|exact H1]. intros a s2 H2.
  simpl. apply wp_bind, wp_bind. eapply wp_mono; [|exact H2]. intros [] s3 H3.
  by apply wp_ret, wp_ret.
Qed.
End guard_laws.

Section table.
Context {St L : Type} `{HasLocks St L}.

Lemma wp_mutex_lock l (Q : unit → St → Prop) s :
  locks_of s !! l = None → Q tt (set_locks (<[l := Exclusive]> (locks_of s)) s) →
  wp (pthread_mutex_lock l) Q s.
Proof. unfold wp, pthread_mutex_lock. by intros ->. Qed.

Lemma wp_mutex_unlock l (Q : unit → St → Prop) s :
  locks_of s !! l = Some Exclusive → Q tt (set_locks (delete l (locks_of s)) s) →
  wp (pthread_mutex_unlock l) Q s.
Proof. unfold wp, pthread_mutex_unlock. by intros ->. Qed.

(** Running a body inside a mutex guard: the body sees the table with the
    mutex taken and must give that table back. *)
Lemma wp_ScopedLock {A} l (body : M St A) (Q : A → St → Prop) s :
  locks_of s !! l = None →
  wp body (λ a s', locks_of s' = <[l := Exclusive]> (locks_of s) ∧
                   Q a (set_locks (locks_of s) s'))
     (set_locks (<[l := Exclusive]> (locks_of s)) s) →
  wp (ScopedLockImpl (mkMutex l) body) Q s.
Proof.
  intros Hl Hb. apply wp_guard_scope. simpl. apply wp_mutex_lock; [done|].
  eapply wp_mono; [|exact Hb]. intros a s' [Hs' HQ]. apply wp_mutex_unlock.
  - rewrite Hs'. apply lookup_insert_eq.
  - rewrite Hs', delete_insert_id by done. done.
Qed.

Lemma wp_ReadLock {A} l (body : M St A) (Q : A → St → Prop) s :
  locks_of s !! l = None →
  wp body (λ a s', locks_of s' = <[l := Shared 1]> (locks_of s) ∧
                   Q a (set_locks (locks_of s) s'))
     (set_locks (<[l := Shared 1]> (locks_of s)) s) →
  wp (ReadScopedLockImpl (mkRWMutex l) body) Q s.
Proof.
  intros Hl Hb. apply wp_guard_scope. simpl. unfold wp at 1, pthread_rwlock_rdlock.
  rewrite Hl. eapply wp_mono; [|exact Hb]. intros a s' [Hs' HQ].
  unfold wp, pthread_rwlock_unlock.
  rewrite Hs', lookup_insert_eq, delete_insert_id by done. done.
Qed.

Lemma wp_WriteLock {A} l (body : M St A) (Q : A → St → Prop) s :
  locks_of s !! l = None →
  wp body (λ a s', locks_of s' = <[l := Exclusive]> (locks_of s) ∧
                   Q a (set_locks (locks_of s) s'))
     (set_locks (<[l := Exclusive]> (locks_of s)) s) →
  wp (WriteScopedLockImpl (mkRWMutex l) body) Q s.
Proof.
  intros Hl Hb. apply wp_guard_scope. simpl. apply wp_mutex_lock; [done|].
  eapply wp_mono; [|exact Hb]. intros a s' [Hs' HQ].
  unfold wp, pthread_rwlock_unlock.
  rewrite Hs', lookup_insert_eq, delete_insert_id by done. done.
Qed.

(** The same with exceptions: the scope gives the table back on both
    exits. *)
Lemma wpx_ReadLock {A} l (body : M St A) (Q : A → St → Prop) (R : exn → St → Prop) s :
  locks_of s !! l = None →
  wpx body (λ a s', locks_of s' = <[l := Shared 1]> (locks_of s) ∧
                    Q a (set_locks (locks_of s) s'))
           (λ e s', locks_of s' = <[l := Shared 1]> (locks_of s) ∧
                    R e (set_locks (locks_of s) s'))
     (set_locks (<[l := Shared 1]> (locks_of s)) s) →
  wpx (ReadScopedLockImpl (mkRWMutex l) body) Q R s.
Proof.
  intros Hl Hb. unfold ReadScopedLockImpl, guard_scope, guard_new.
  apply wpx_bind, wpx_bind, wpx_wp. simpl. unfold wp at 1, pthread_rwlock_rdlock. rewrite Hl.
  apply wpx_ret, wpx_finally. eapply wpx_mono; [..|exact Hb]; intros x s' [Hs' HQ];
    unfold guard_delete, guard_unlock; simpl; apply wp_bind, wp_bind;
    unfold wp at 1, pthread_rwlock_unlock; rewrite Hs', lookup_insert_eq, delete_insert_id by done;
    by apply wp_ret, wp_ret.
Qed.

(** A write lock requested inside a scope of the same lock blocks. *)
Lemma WriteLock_deadlock {A} l (body : M St A) s :
  is_Some (locks_of s !! l) → WriteScopedLockImpl (mkRWMutex l) body s = Stuck Deadlock.
Proof.
  intros [x Hx]. unfold WriteScopedLockImpl, guard_scope, guard_new, mbind, M_bind. simpl.
  unfold pthread_rwlock_wrlock, pthread_mutex_lock. by rewrite Hx.
Qed.

Lemma ScopedLock_deadlock {A} l (body : M St A) s :
  is_Some (locks_of s !! l) → ScopedLockImpl (mkMutex l) body s = Stuck Deadlock.
Proof.
  intros [x Hx]. unfold ScopedLockImpl, guard_scope, guard_new, mbind, M_bind. simpl.
  unfold pthread_mutex_lock. by rewrite Hx.
Qed.
End table.
