(* ===== verification/LogLevel.v ===== *)
(** * LogLevel and LogEvent (sylar/log.h, sylar/log.cc)

    The enumeration [LogLevel::Level] is its integer value: the program
    compares levels with [<=] and [>=] and casts the integer 100 to it, so
    values outside the enumerators occur. *)
From S2P Require Import Prelude CppStd.

Module LogLevel.
Definition UNKNOW : Z := 0.
Definition DEBUG : Z := 1.
Definition INFO : Z := 2.
Definition WARN : Z := 3.
Definition ERROR : Z := 4.
Definition FATAL : Z := 5.
(** [static_cast<LogLevel::Level>(100)], the level of a removed logger. *)
Definition REMOVED : Z := 100.

Definition ToString (level : Z) : string :=
  if (level =? DEBUG)%Z then "DEBUG"
  else if (level =? INFO)%Z then "INFO"
  else if (level =? WARN)%Z then "WARN"
  else if (level =? ERROR)%Z then "ERROR"
  else if (level =? FATAL)%Z then "FATAL"
  else "UNKNOW".

Definition FromString (str : string) : Z :=
  let ucstr := transform toupper str in
  if String.eqb ucstr "DEBUG" then DEBUG
  else if String.eqb ucstr "INFO" then INFO
  else if String.eqb ucstr "WARN" then WARN
  else if String.eqb ucstr "ERROR" then ERROR
  else if String.eqb ucstr "FATAL" then FATAL
  else UNKNOW.

(** The enumerators. *)
Definition is_level (l : Z) : Prop := (UNKNOW ≤ l ≤ FATAL)%Z.
(** The levels of the logging macros. *)
Definition is_event_level (l : Z) : Prop := (DEBUG ≤ l ≤ FATAL)%Z.

Lemma level_cases l : is_level l → l ∈ [UNKNOW; DEBUG; INFO; WARN; ERROR; FATAL].
Proof.
  unfold is_level, UNKNOW, FATAL. intros H.
  assert (l = 0 ∨ l = 1 ∨ l = 2 ∨ l = 3 ∨ l = 4 ∨ l = 5)%Z as Hl by lia.
  rewrite !elem_of_cons. unfold DEBUG, INFO, WARN, ERROR. tauto.
Qed.

Lemma event_level_is_level l : is_event_level l → is_level l.
Proof. unfold is_event_level, is_level, DEBUG, UNKNOW. lia. Qed.

(** Names are read back; a value that is no enumerator prints as the
    name of [UNKNOW]. *)
Lemma FromString_ToString l :
  FromString (ToString l) = (if bool_decide (is_level l) then l else UNKNOW).
Proof.
  case_bool_decide as Hl.
  - apply level_cases in Hl. repeat (apply elem_of_cons in Hl as [->|Hl]; [done|]).
    by apply elem_of_nil in Hl.
  - unfold ToString, is_level, UNKNOW, DEBUG, INFO, WARN, ERROR, FATAL in *.
    by rewrite !(proj2 (Z.eqb_neq _ _)) by lia.
Qed.

Lemma FromString_range str : is_level (FromString str).
Proof.
  unfold FromString. repeat case_match; unfold is_level, UNKNOW, DEBUG, INFO, WARN, ERROR, FATAL; lia.
Qed.

Lemma FromString_case_insensitive s1 s2 :
  transform toupper s1 = transform toupper s2 → FromString s1 = FromString s2.
Proof. unfold FromString. by intros ->. Qed.

(** The exact inverse image of an enumerator. *)
Lemma FromString_spec str l : is_event_level l →
  FromString str = l ↔ transform toupper str = ToString l.
Proof.
  intros Hl. split.
  - intros <-. revert Hl. unfold FromString.
    repeat (case_match; [by match goal with H : String.eqb _ _ = true |- _ =>
      apply String.eqb_eq in H; rewrite H end|]).
    unfold is_event_level, UNKNOW, DEBUG. lia.
  - intros Hs. rewrite <-(FromString_case_insensitive (ToString l)).
    + rewrite FromString_ToString, bool_decide_true; [done|by apply event_level_is_level].
    + rewrite <-Hs. apply transform_idemp, toupper_idemp.
Qed.
End LogLevel.

(** [LogEvent]: the widths are those of the constructor's parameters
    ([int32_t], [uint32_t], [uint64_t]); [e_logger] is the pointer to the
    logger and [e_content] what was streamed into [m_ss]. *)
Record LogEvent := mkLogEvent {
  e_file : string;
  e_line : Z;
  e_elapse : Z;
  e_threadId : Z;
  e_fiberId : Z;
  e_time : Z;
  e_logger : nat;
  e_level : Z;
  e_threadName : string;
  e_content : string;
}.

(** [LogEvent::LogEvent]: the integer arguments convert to the parameter
    types; the stream starts empty. *)
Definition LogEvent_new (logger : nat) (level : Z) (file : string) (line elapse
    thread_id fiber_id time : Z) (thread_name : string) : LogEvent :=
  {| e_file := file; e_line := line; e_elapse := wrapU 32 elapse;
     e_threadId := wrapU 32 thread_id; e_fiberId := wrapU 32 fiber_id;
     e_time := wrapU 64 time; e_logger := logger; e_level := level;
     e_threadName := thread_name; e_content := "" |}.

(** [event->getSS() << text] *)
Definition LogEvent_stream (text : string) (e : LogEvent) : LogEvent :=
  {| e_file := e_file e; e_line := e_line e; e_elapse := e_elapse e;
     e_threadId := e_threadId e; e_fiberId := e_fiberId e; e_time := e_time e;
     e_logger := e_logger e; e_level := e_level e; e_threadName := e_threadName e;
     e_content := e_content e +:+ text |}.

(** [LogEvent::format(fmt, al)]: [vasprintf] of the arguments, [None] when
    it returns -1; a failed conversion leaves the event unchanged. *)
Definition LogEvent_format (vasprintf : option string) (e : LogEvent) : LogEvent :=
  match vasprintf with
  | Some text => LogEvent_stream text e
  | None => e
  end.
