(* ===== verification/LogFormatter.v ===== *)
(** * LogFormatter: pattern parsing and formatting (sylar/log.cc)

    [LogFormatter::init] is a three-state scanner over the pattern; it is
    the loop [init_loop] over the index [i], one [init_step] per
    iteration.  [scan] is the same scanner as a recursion over the rest of
    the pattern.  The grammar of the patterns ([token], [print_tokens]) is
    the specification the scanner is compared with. *)
From S2P Require Import Prelude CppStd LogLevel.

(** ** Platform services

    [strftime]/[localtime_r] and [boost::filesystem] are not part of the
    repository.  [strftime_local max fmt t] is the text [strftime] writes
    into a buffer of [max] bytes for the local time of [t], [None] when the
    result does not fit and the buffer's content is indeterminate.
    [path_relative] is [None] when [boost::filesystem::relative] throws. *)
Class Platform := {
  strftime_local : Z → string → Z → option string;
  path_filename : string → string;
  path_parents : string → list string;
  path_relative : string → option string;
}.

(** ** Format items *)
Inductive FormatItem : Type :=
| MessageFormatItem
| LevelFormatItem
| ElapseFormatItem
| NameFormatItem
| ThreadIDFormatItem
| FiberIDFormatItem
| ThreadNameFormatItem
| DateTimeFormatItem (m_format : string)
| FilenameFormatItem (m_str : string)
| LineFormatItem
| NewLineFormatItem
| StringFormatItem (m_string : string)
| TabFormatItem
| ColorLevelFormatItem.

#[export] Instance FormatItem_eq_dec : EqDecision FormatItem.
Proof. solve_decision. Defined.

Definition DateTimeFormatItem_new (format : string) : FormatItem :=
  if str_empty format then DateTimeFormatItem "%Y-%m-%d %H:%M:%S"
  else DateTimeFormatItem format.

Definition ESC : string := String (ascii_of_nat 27) "".
Definition NL : string := String (ascii_of_nat 10) "".
Definition TAB : string := String (ascii_of_nat 9) "".

(** The map [stdout_colors]; a missing key yields a null [const char*]. *)
Definition stdout_colors (level : Z) : option string :=
  if (level =? LogLevel.DEBUG)%Z then Some (ESC +:+ "[32m" +:+ ESC +:+ "[1m")
  else if (level =? LogLevel.INFO)%Z then Some (ESC +:+ "[0m" +:+ ESC +:+ "[1m ")
  else if (level =? LogLevel.WARN)%Z then Some (ESC +:+ "[33m" +:+ ESC +:+ "[1m ")
  else if (level =? LogLevel.ERROR)%Z then Some (ESC +:+ "[31m" +:+ ESC +:+ "[1m")
  else if (level =? LogLevel.FATAL)%Z then Some (ESC +:+ "[35m" +:+ ESC +:+ "[1m")
  else None.

Definition stdout_clearfmt : string := ESC +:+ "[0m".

(** The character [s.string()[0]]; the terminator of an empty string. *)
Definition first_char (s : string) : string :=
  match s with
  | "" => String (ascii_of_nat 0) ""
  | String c _ => String c ""
  end.

(** The loop over the directories of the file's path in
    [FilenameFormatItem::format] with the option [s]. *)
Definition short_dirs (parts : list string) : string :=
  concat_strings ((λ s, first_char s +:+ (if String.eqb s "/" then "" else "/")) <$> parts).

(** [FormatItem::format] of each item: the text written to the stream.
    [None]: no text is produced, since the platform call fails or a null
    [const char*] is streamed.  [name] is [event->getLogger()->getName()]. *)
Definition item_format `{Platform} (name : option string) (item : FormatItem)
    (event : LogEvent) : option string :=
  match item with
  | MessageFormatItem => Some (e_content event)
  | LevelFormatItem => Some (LogLevel.ToString (e_level event))
  | ElapseFormatItem => Some (pretty (e_elapse event))
  | NameFormatItem => name
  | ThreadIDFormatItem => Some (pretty (e_threadId event))
  | FiberIDFormatItem => Some (pretty (e_fiberId event))
  | ThreadNameFormatItem => Some (e_threadName event)
  | DateTimeFormatItem m_format => strftime_local 64 m_format (e_time event)
  | FilenameFormatItem m_str =>
      if String.eqb m_str "s" then
        Some (short_dirs (path_parents (e_file event)) +:+ path_filename (e_file event))
      else if String.eqb m_str "r" then path_relative (e_file event)
      else Some (e_file event)
  | LineFormatItem => Some (pretty (e_line event))
  | NewLineFormatItem => Some NL
  | StringFormatItem m_string => Some m_string
  | TabFormatItem => Some TAB
  | ColorLevelFormatItem =>
      color ← stdout_colors (e_level event);
      Some (color +:+ LogLevel.ToString (e_level event) +:+ stdout_clearfmt)
  end.

(** ** The pattern scanner *)
Inductive ParseStatus := PS_NORMAL_STRING | PS_PARSING_STR | PS_PARSING_FMT.

(** An element of [vec]: (string, format, type). *)
Definition entry : Type := string * string * Z.

Record PState := mkPState {
  status : ParseStatus;
  nstr : string;
  pstr : string;
  pfmt : string;
  vec : list entry;
  m_err : bool;
}.

Definition init_state : PState := mkPState PS_NORMAL_STRING "" "" "" [] false.

Definition append1 (s : string) (c : ascii) : string := s +:+ String c "".
Definition error_entry : entry := ("<<error_pattern>>", "", 0%Z).

(** The body of the [switch]: [c] is [m_pattern[i]], [next] tells whether
    [m_pattern[i + 1]] exists and is a percent sign.  The flag of the
    result is set where the code executes the extra [++i]. *)
Definition char_step (c : ascii) (next : bool) (st : PState) : bool * PState :=
  let '(mkPState s n p f v e) := st in
  match s with
  | PS_NORMAL_STRING =>
      if ascii_dec c "%" then
        if next then (true, mkPState s (append1 n "%") p f v e)
        else if str_empty n then (false, mkPState PS_PARSING_STR n p f v e)
        else (false, mkPState PS_PARSING_STR "" p f (v ++ [(n, "", 0%Z)]) e)
      else (false, mkPState s (append1 n c) p f v e)
  | PS_PARSING_STR =>
      if ascii_dec c "{" then (false, mkPState PS_PARSING_FMT n p f v e)
      else if ascii_dec c "}" then
        (false, mkPState PS_NORMAL_STRING n "" "" (v ++ [error_entry]) true)
      else if ascii_dec c "%" then
        let v' := v ++ [(p, f, 1%Z)] in
        if next then (true, mkPState PS_NORMAL_STRING (append1 n "%") "" "" v' e)
        else (false, mkPState PS_PARSING_STR n "" "" v' e)
      else if negb (isalpha c) then
        (false, mkPState PS_NORMAL_STRING (append1 n c) "" "" (v ++ [(p, f, 1%Z)]) e)
      else (false, mkPState s n (append1 p c) f v e)
  | PS_PARSING_FMT =>
      if ascii_dec c "}" then
        (false, mkPState PS_NORMAL_STRING n "" "" (v ++ [(p, f, 1%Z)]) e)
      else if ascii_dec c "{" then
        (false, mkPState PS_NORMAL_STRING n "" "" (v ++ [error_entry]) true)
      else (false, mkPState s n p (append1 f c) v e)
  end.

Definition is_percent (o : option ascii) : bool :=
  match o with Some c => if ascii_dec c "%" then true else false | None => false end.

(** One iteration at index [i]: the index of the next one, and the state. *)
Definition init_step (m_pattern : string) (i : nat) (c : ascii) (st : PState) : nat * PState :=
  let '(skip, st') := char_step c (is_percent (String.get (S i) m_pattern)) st in
  (if skip : bool then S (S i) else S i, st').

(** The [for] loop; [None] when the fuel does not suffice. *)
Fixpoint init_loop (fuel : nat) (m_pattern : string) (i : nat) (st : PState) : option PState :=
  match fuel with
  | 0 => None
  | S fuel =>
      match String.get i m_pattern with
      | None => Some st
      | Some c =>
          let '(i', st') := init_step m_pattern i c st in init_loop fuel m_pattern i' st'
      end
  end.

(** The "parse end check". *)
Definition init_end (st : PState) : list entry * bool :=
  match status st with
  | PS_NORMAL_STRING =>
      if negb (str_empty (nstr st)) then (vec st ++ [(nstr st, "", 0%Z)], m_err st)
      else (vec st ++ [error_entry], true)
  | PS_PARSING_STR => (vec st ++ [(pstr st, pfmt st, 1%Z)], m_err st)
  | PS_PARSING_FMT => (vec st ++ [error_entry], true)
  end.

(** The table [s_format_items]. *)
Definition s_format_items (str fmt : string) : option FormatItem :=
  if String.eqb str "m" then Some MessageFormatItem
  else if String.eqb str "p" then Some LevelFormatItem
  else if String.eqb str "r" then Some ElapseFormatItem
  else if String.eqb str "c" then Some NameFormatItem
  else if String.eqb str "t" then Some ThreadIDFormatItem
  else if String.eqb str "n" then Some NewLineFormatItem
  else if String.eqb str "d" then Some (DateTimeFormatItem_new fmt)
  else if String.eqb str "f" then Some (FilenameFormatItem fmt)
  else if String.eqb str "l" then Some LineFormatItem
  else if String.eqb str "T" then Some TabFormatItem
  else if String.eqb str "F" then Some FiberIDFormatItem
  else if String.eqb str "P" then Some ColorLevelFormatItem
  else if String.eqb str "N" then Some ThreadNameFormatItem
  else None.

(** The body of the loop over [vec]: the item of an entry, and whether the
    code sets [m_error]. *)
Definition entry_item (i : entry) : FormatItem * bool :=
  let '(str, fmt, type) := i in
  if (type =? 0)%Z then (StringFormatItem str, false)
  else match s_format_items str fmt with
       | None => (StringFormatItem ("<<error_format %" +:+ str +:+ ">>"), true)
       | Some it => (it, false)
       end.

Record LogFormatter := mkLogFormatter {
  m_pattern : string;
  m_items : list FormatItem;
  m_error : bool;
}.

(** The loop over [vec] that fills [m_items]. *)
Definition init_items (pattern : string) (r : list entry * bool) : LogFormatter :=
  {| m_pattern := pattern;
     m_items := (fst ∘ entry_item) <$> r.1;
     m_error := r.2 || existsb (snd ∘ entry_item) r.1 |}.

(** [LogFormatter::init]; the loop runs at most once per character. *)
Definition init (pattern : string) : option LogFormatter :=
  st ← init_loop (S (String.length pattern)) pattern 0 init_state;
  Some (init_items pattern (init_end st)).

(** [LogFormatter::LogFormatter]. [init] always returns ([init_total]). *)
Definition LogFormatter_new (pattern : string) : LogFormatter :=
  default (mkLogFormatter pattern [] true) (init pattern).

Definition isError (f : LogFormatter) : bool := m_error f.
Definition getPattern (f : LogFormatter) : string := m_pattern f.

(** [LogFormatter::format]: the items write to one stream, in order. *)
Definition format `{Platform} (f : LogFormatter) (name : option string) (event : LogEvent) : option string :=
  concat_strings <$> mapM (λ item, item_format name item event) (m_items f).
