(* ===== verification/FormatterGrammar.v ===== *)
(** * The pattern grammar and the scanner's correctness

    Termination of the scanner's loop, its equivalence with a recursion
    over the rest of the pattern, and the two directions of the
    correspondence with the pattern grammar: a printed token list is
    parsed back, and a pattern that is accepted is a printed token list. *)
From S2P Require Import Prelude CppStd LogLevel LogFormatter.

(** ** The scanner over the rest of the pattern *)
Definition head_char (s : string) : option ascii :=
  match s with "" => None | String c _ => Some c end.

Fixpoint scan (rest : string) (st : PState) : PState :=
  match rest with
  | "" => st
  | String c rest' =>
      let '(skip, st') := char_step c (is_percent (head_char rest')) st in
      if skip : bool then
        match rest' with "" => st' | String _ rest'' => scan rest'' st' end
      else scan rest' st'
  end.

Lemma scan_cons c rest st :
  scan (String c rest) st =
    let '(skip, st') := char_step c (is_percent (head_char rest)) st in
    if skip : bool then
      match rest with "" => st' | String _ rest'' => scan rest'' st' end
    else scan rest st'.
Proof. done. Qed.

Lemma get_app pre rest k :
  String.get (String.length pre + k) (pre +:+ rest) = String.get k rest.
Proof. induction pre as [|c pre IH]; [done|]. rewrite string_app_cons. apply IH. Qed.

Lemma get_0 s : String.get 0 s = head_char s.
Proof. by destruct s. Qed.

Lemma char_step_skip c next st st' : char_step c next st = (true, st') → next = true.
Proof.
  destruct st as [s n p f v e]. unfold char_step. intros H.
  repeat case_match; by simplify_eq.
Qed.

(** The loop from index [|pre|] of [pre ++ rest] computes [scan rest],
    with any fuel larger than the number of characters left. *)
Lemma init_loop_scan fuel pre rest st :
  String.length rest < fuel →
  init_loop fuel (pre +:+ rest) (String.length pre) st = Some (scan rest st).
Proof.
  revert pre rest st. induction fuel as [|fuel IH]; intros pre rest st Hf; [lia|]. simpl.
  pose proof (get_app pre rest 0) as Hg0. pose proof (get_app pre rest 1) as Hg1.
  rewrite Nat.add_0_r in Hg0. rewrite Nat.add_1_r in Hg1. rewrite Hg0, get_0.
  destruct rest as [|c rest]; simpl; [done|]. unfold init_step.
  rewrite Hg1. simpl String.get. rewrite get_0.
  destruct (char_step c _ st) as [skip st'] eqn:Hstep.
  assert (∀ s d t, s +:+ String d t = (s +:+ String d "") +:+ t) as Hsplit.
  { intros. by rewrite <-string_app_assoc. }
  assert (∀ s d, String.length (s +:+ String d "") = S (String.length s)) as Hlen.
  { intros. rewrite string_app_length. simpl. lia. }
  simpl in Hf. destruct skip.
  - apply char_step_skip in Hstep. destruct rest as [|d rest]; simpl in Hstep; [done|].
    rewrite (Hsplit pre c), (Hsplit (pre +:+ String c "") d).
    rewrite <-(Hlen pre c), <-(Hlen (pre +:+ String c "") d). apply IH. simpl in Hf. lia.
  - rewrite (Hsplit pre c), <-(Hlen pre c). apply IH. lia.
Qed.

Lemma init_scan pattern :
  init pattern = Some (init_items pattern (init_end (scan pattern init_state))).
Proof.
  unfold init.
  pose proof (init_loop_scan (S (String.length pattern)) "" pattern init_state) as H.
  change ("" +:+ pattern) with pattern in H. change (String.length "") with 0 in H.
  by rewrite H by lia.
Qed.

Lemma LogFormatter_new_scan pattern :
  LogFormatter_new pattern = init_items pattern (init_end (scan pattern init_state)).
Proof. unfold LogFormatter_new. by rewrite init_scan. Qed.

(** ** The grammar *)
Inductive token :=
| Lit (s : string)
| Item (name : string) (fmt : option string).

Fixpoint escape (s : string) : string :=
  match s with
  | "" => ""
  | String c s => (if ascii_dec c "%" then "%%" else String c "") +:+ escape s
  end.

Definition print_token (t : token) : string :=
  match t with
  | Lit s => escape s
  | Item name None => "%" +:+ name
  | Item name (Some fmt) => "%" +:+ name +:+ "{" +:+ fmt +:+ "}"
  end.

Definition print_tokens (ts : list token) : string := concat_strings (print_token <$> ts).

Definition token_entry (t : token) : entry :=
  match t with
  | Lit s => (s, "", 0%Z)
  | Item name fmt => (name, default "" fmt, 1%Z)
  end.

(** What precedes a position: nothing, a literal, an item without braces,
    or a closing brace. *)
Inductive ctx := CStart | CLit | CName | CBrace.

Definition name_ok (n : string) : bool := negb (str_empty n) && str_all isalpha n.
Definition no_brace (c : ascii) : bool := negb (str_mem c "{}").
Definition fmt_ok (f : string) : bool := str_all no_brace f.

(** A literal that follows a bare item name must end that name. *)
Definition lit_ok (c : ctx) (s : string) : bool :=
  match c, s with
  | _, "" => false
  | CLit, _ => false
  | CName, String d _ => negb (isalpha d) && no_brace d
  | _, _ => true
  end.

Fixpoint end_ctx (c : ctx) (ts : list token) : option ctx :=
  match ts with
  | [] => Some c
  | Lit s :: ts => if lit_ok c s then end_ctx CLit ts else None
  | Item n None :: ts => if name_ok n then end_ctx CName ts else None
  | Item n (Some f) :: ts => if name_ok n && fmt_ok f then end_ctx CBrace ts else None
  end.

(** What the end check makes of the position the pattern ends in. *)
Definition end_entries (c : ctx) : list entry * bool :=
  match c with CLit | CName => ([], false) | CStart | CBrace => ([error_entry], true) end.

(** ** Parsing what was printed *)
Abbreviation stN n v e := (mkPState PS_NORMAL_STRING n "" "" v e).
Abbreviation stS p v e := (mkPState PS_PARSING_STR "" p "" v e).
Abbreviation stF p f v e := (mkPState PS_PARSING_FMT "" p f v e).

Lemma append1_app n c s : append1 n c +:+ s = n +:+ String c s.
Proof. unfold append1. by rewrite <-string_app_assoc. Qed.

Lemma append1_nonempty n c : str_empty (append1 n c) = false.
Proof. by destruct n. Qed.

Lemma scan_lit s rest n v e :
  scan (escape s +:+ rest) (stN n v e) = scan rest (stN (n +:+ s) v e).
Proof.
  revert n. induction s as [|c s IH]; intros n.
  { by rewrite string_app_empty_r. }
  simpl escape. rewrite <-string_app_assoc.
  destruct (ascii_dec c "%") as [->|Hc]; rewrite !string_app_cons; simpl.
  - rewrite string_app_empty_l, IH, append1_app. done.
  - destruct (ascii_dec c "%"); [done|].
    rewrite string_app_empty_l, IH, append1_app. done.
Qed.

Lemma isalpha_not c d : isalpha c = true → isalpha d = false → c ≠ d.
Proof. congruence. Qed.

Ltac not_alpha := repeat match goal with
  | |- context [ascii_dec ?c ?d] =>
      destruct (ascii_dec c d) as [->|?]; [try done|]
  end.

Lemma scan_name q rest p v e : str_all isalpha q = true →
  scan (q +:+ rest) (stS p v e) = scan rest (stS (p +:+ q) v e).
Proof.
  revert p. induction q as [|c q IH]; intros p Hq.
  { by rewrite string_app_empty_r. }
  simpl in Hq. apply andb_true_iff in Hq as [Hc Hq].
  rewrite string_app_cons. simpl. not_alpha. rewrite Hc. simpl.
  rewrite IH by done. by rewrite append1_app.
Qed.

Lemma scan_fmt g rest p f v e : fmt_ok g = true →
  scan (g +:+ "}" +:+ rest) (stF p f v e) = scan rest (stN "" (v ++ [(p, f +:+ g, 1%Z)]) e).
Proof.
  revert f. unfold fmt_ok. induction g as [|c g IH]; intros f Hg.
  { by rewrite string_app_empty_r. }
  simpl in Hg. apply andb_true_iff in Hg as [Hc Hg].
  rewrite string_app_cons. simpl. not_alpha.
  rewrite IH by done. by rewrite append1_app.
Qed.

Definition flush (n : string) : list entry := if str_empty n then [] else [(n, "", 0%Z)].

Lemma name_ok_cons name : name_ok name = true → ∃ c q, name = String c q ∧
  isalpha c = true ∧ str_all isalpha name = true.
Proof.
  unfold name_ok. intros [Hn Ha]%andb_true_iff. destruct name as [|c q]; [done|].
  exists c, q. split_and!; [done| |done]. simpl in Ha. by apply andb_true_iff in Ha as [? _].
Qed.

Lemma is_percent_alpha c : isalpha c = true → is_percent (Some c) = false.
Proof. intros Hc. simpl. by not_alpha. Qed.

(** An item read from the normal state: the pending literal is flushed. *)
Lemma scan_item_start name rest n v e : name_ok name = true →
  scan ("%" +:+ name +:+ rest) (stN n v e) = scan rest (stS name (v ++ flush n) e).
Proof.
  intros (c & q & -> & Hc & Ha)%name_ok_cons.
  rewrite <-(scan_name (String c q) rest "") by done.
  rewrite !string_app_cons, string_app_empty_l, scan_cons.
  change (head_char _) with (Some c). rewrite is_percent_alpha by done.
  unfold flush. destruct n; [by rewrite app_nil_r|done].
Qed.

(** An item read right after a bare item name. *)
Lemma scan_item_next name rest p v e : name_ok name = true →
  scan ("%" +:+ name +:+ rest) (stS p v e) = scan rest (stS name (v ++ [(p, "", 1%Z)]) e).
Proof.
  intros (c & q & -> & Hc & Ha)%name_ok_cons.
  rewrite <-(scan_name (String c q) rest "") by done.
  rewrite !string_app_cons, string_app_empty_l, scan_cons.
  change (head_char _) with (Some c). by rewrite is_percent_alpha by done.
Qed.

(** A literal read right after a bare item name ends the name. *)
Lemma scan_lit_next s rest p v e : lit_ok CName s = true →
  scan (escape s +:+ rest) (stS p v e) = scan rest (stN s (v ++ [(p, "", 1%Z)]) e).
Proof.
  destruct s as [|c s]; [done|]. simpl lit_ok.
  intros [Hc Hb]%andb_true_iff. apply negb_true_iff in Hc.
  simpl escape. rewrite <-string_app_assoc.
  destruct (ascii_dec c "%") as [->|Hp]; rewrite !string_app_cons, string_app_empty_l, scan_cons.
  - simpl. by rewrite scan_lit.
  - simpl char_step. not_alpha. rewrite Hc. simpl. by rewrite scan_lit.
Qed.

(** The state the scanner is in at a position of the given context, with
    the entries [v] complete up to the pending one. *)
Inductive at_ctx : ctx → list entry → PState → Prop :=
| at_start : at_ctx CStart [] (stN "" [] false)
| at_lit s v : str_empty s = false → at_ctx CLit (v ++ [(s, "", 0%Z)]) (stN s v false)
| at_name p v : at_ctx CName (v ++ [(p, "", 1%Z)]) (stS p v false)
| at_brace v : at_ctx CBrace v (stN "" v false).

Lemma print_tokens_cons t ts : print_tokens (t :: ts) = print_token t +:+ print_tokens ts.
Proof. done. Qed.

Lemma scan_token t rest c c' v st : at_ctx c v st → end_ctx c [t] = Some c' →
  ∃ st', scan (print_token t +:+ rest) st = scan rest st' ∧ at_ctx c' (v ++ [token_entry t]) st'.
Proof.
  intros Hat Hend. destruct t as [s|name [f|]]; simpl in Hend; simpl print_token.
  - destruct (lit_ok c s) eqn:Hl; [|done]. injection Hend as <-.
    assert (str_empty s = false) as Hs by (by destruct s, c).
    eexists (stN s _ false). split; [|by constructor].
    destruct Hat; [by rewrite scan_lit| |by rewrite scan_lit_next|by rewrite scan_lit].
    by destruct s.
  - destruct (name_ok name) eqn:Hn; [|done]. simpl in Hend.
    destruct (fmt_ok f) eqn:Hf; [|done]. injection Hend as <-.
    exists (stN "" (v ++ [(name, f, 1%Z)]) false). split; [|constructor].
    rewrite <-!string_app_assoc.
    destruct Hat; rewrite ?scan_item_start, ?scan_item_next by done;
      rewrite string_app_cons, string_app_empty_l, scan_cons; simpl char_step;
      cbv iota beta; rewrite scan_fmt by done; rewrite string_app_empty_l;
      unfold flush; try rewrite H; by rewrite ?app_nil_r.
  - destruct (name_ok name) eqn:Hn; [|done]. injection Hend as <-.
    exists (stS name v false). split; [|constructor]. rewrite <-!string_app_assoc.
    destruct Hat; rewrite ?scan_item_start, ?scan_item_next by done;
      unfold flush; try rewrite H; by rewrite ?app_nil_r.
Qed.

Lemma end_ctx_cons c t ts :
  end_ctx c (t :: ts) = c' ← end_ctx c [t]; end_ctx c' ts.
Proof. simpl. repeat case_match; done. Qed.

Lemma scan_tokens ts c c' v st : at_ctx c v st → end_ctx c ts = Some c' →
  at_ctx c' (v ++ (token_entry <$> ts)) (scan (print_tokens ts) st).
Proof.
  revert c v st. induction ts as [|t ts IH]; intros c v st Hat Hend.
  { simpl in *. rewrite app_nil_r. naive_solver. }
  rewrite end_ctx_cons in Hend. destruct (end_ctx c [t]) as [d|] eqn:Ht; [|done].
  rewrite print_tokens_cons.
  destruct (scan_token t (print_tokens ts) c d v st) as (st' & -> & Hat'); [done..|].
  rewrite fmap_cons, cons_middle, app_assoc. by eapply IH.
Qed.

Lemma init_end_at c v st : at_ctx c v st →
  init_end st = (v ++ (end_entries c).1, (end_entries c).2).
Proof. destruct 1 as [|s v Hs| |]; unfold init_end; simpl; rewrite ?Hs, ?app_nil_r; done. Qed.

(** Parsing a printed token list, whatever it ends in. *)
Lemma init_print ts c : end_ctx CStart ts = Some c →
  init_end (scan (print_tokens ts) init_state) =
    ((token_entry <$> ts) ++ (end_entries c).1, (end_entries c).2).
Proof. intros H. apply init_end_at. apply (scan_tokens ts CStart c []); [constructor|done]. Qed.

(** The item a token stands for, and whether the table has it. *)
Definition token_item (t : token) : FormatItem := (entry_item (token_entry t)).1.
Definition known_token (t : token) : bool := negb (entry_item (token_entry t)).2.

Definition wf_tokens (ts : list token) : bool :=
  match end_ctx CStart ts with Some (CLit | CName) => true | _ => false end.

Lemma existsb_entry ts :
  existsb (snd ∘ entry_item) (token_entry <$> ts) = negb (forallb known_token ts).
Proof.
  induction ts as [|t ts IH]; [done|]. rewrite fmap_cons. cbn [existsb forallb]. rewrite IH.
  unfold known_token, compose. by destruct (entry_item (token_entry t)).2.
Qed.

Lemma init_items_print ts c : end_ctx CStart ts = Some c →
  let f := LogFormatter_new (print_tokens ts) in
  m_items f = (token_item <$> ts) ++ ((fst ∘ entry_item) <$> (end_entries c).1) ∧
  m_error f = (end_entries c).2 || negb (forallb known_token ts).
Proof.
  intros Hc f. subst f. rewrite LogFormatter_new_scan, (init_print ts c) by done.
  unfold init_items. cbn [m_items m_error fst snd].
  rewrite fmap_app, existsb_app, existsb_entry. split.
  - by rewrite <-list_fmap_compose.
  - destruct c; simpl; by rewrite ?orb_false_r, ?orb_true_r.
Qed.

(** C5. Round trip: a well-formed token list, printed as a pattern (a
    literal percent sign doubled), is parsed into exactly its items, and
    the error flag is set exactly when an item's name is not in the table
    of format items. *)
Theorem formatter_parse_print ts : wf_tokens ts = true →
  let f := LogFormatter_new (print_tokens ts) in
  m_items f = token_item <$> ts ∧ m_error f = negb (forallb known_token ts).
Proof.
  intros Hw f. subst f. unfold wf_tokens in Hw.
  destruct (end_ctx CStart ts) as [c|] eqn:Hc; [|done]. destruct (init_items_print ts c Hc) as [-> ->].
  destruct c; try done; simpl; by rewrite app_nil_r.
Qed.

(** C35. A pattern that ends with the closing brace of an item is rejected:
    the end check falls into its error branch, sets the error flag and adds
    an error text after the items, although each item is well formed. *)
Theorem formatter_trailing_brace_rejected ts : end_ctx CStart ts = Some CBrace →
  let f := LogFormatter_new (print_tokens ts) in
  m_error f = true ∧ m_items f = (token_item <$> ts) ++ [StringFormatItem "<<error_pattern>>"].
Proof. intros Hc f. subst f. by destruct (init_items_print ts CBrace Hc) as [-> ->]. Qed.

(** ** Accepted patterns are printed token lists *)

(** No error flag and no unknown item name. *)
Definition accepted (r : list entry * bool) : Prop :=
  r.2 = false ∧ Forall (λ i, (entry_item i).2 = false) r.1.

Lemma char_step_mono c next st :
  (∃ w, vec (char_step c next st).2 = vec st ++ w) ∧
  (m_err st = true → m_err (char_step c next st).2 = true).
Proof.
  destruct st as [s n p f v e]. unfold char_step.
  repeat case_match; simpl; (split; [eauto using app_nil_r|done]).
  all: by exists []; rewrite app_nil_r.
Qed.

(** Entries are only added and the error flag is never cleared. *)
Lemma scan_mono k rest st : String.length rest ≤ k →
  (∃ w, vec (scan rest st) = vec st ++ w) ∧ (m_err st = true → m_err (scan rest st) = true).
Proof.
  revert rest st. induction k as [|k IH]; intros [|c rest] st Hk; simpl in Hk; try lia.
  1,2: split; [by exists []; rewrite app_nil_r|done].
  rewrite scan_cons. pose proof (char_step_mono c (is_percent (head_char rest)) st) as [[w Hw] He].
  destruct (char_step c _ st) as [[] st']; simpl in *.
  - destruct rest as [|d rest]; [eauto|]. simpl in Hk.
    destruct (IH rest st') as [[w' Hw'] He']; [lia|]. split; [|auto].
    exists (w ++ w'). by rewrite Hw', Hw, app_assoc.
  - destruct (IH rest st') as [[w' Hw'] He']; [lia|]. split; [|auto].
    exists (w ++ w'). by rewrite Hw', Hw, app_assoc.
Qed.

Lemma init_end_mono st :
  (∃ w, (init_end st).1 = vec st ++ w) ∧ (m_err st = true → (init_end st).2 = true).
Proof. unfold init_end. repeat case_match; simpl; eauto. Qed.

Lemma accepted_not_err rest st : accepted (init_end (scan rest st)) → m_err st = false.
Proof.
  intros [He _]. destruct (m_err st) eqn:H; [|done].
  destruct (init_end_mono (scan rest st)) as [_ H2].
  destruct (scan_mono (String.length rest) rest st) as [_ H1]; [done|].
  rewrite H2 in He; [done|auto].
Qed.

Lemma accepted_vec rest st :
  accepted (init_end (scan rest st)) → Forall (λ i, (entry_item i).2 = false) (vec st).
Proof.
  intros [_ Hi]. destruct (init_end_mono (scan rest st)) as [[w2 H2] _].
  destruct (scan_mono (String.length rest) rest st) as [[w1 H1] _]; [done|].
  rewrite H2, H1 in Hi. by apply Forall_app in Hi as [[? _]%Forall_app _].
Qed.

Definition known_name (n : string) : Prop := (entry_item (n, "", 1%Z)).2 = false.

Lemma known_name_fmt n f : (entry_item (n, f, 1%Z)).2 = false → known_name n.
Proof.
  unfold known_name. simpl.
  assert (is_Some (s_format_items n f) → is_Some (s_format_items n "")) as H.
  { unfold s_format_items. repeat (case_match; [done|]). done. }
  destruct (s_format_items n f), (s_format_items n ""); try done.
  by destruct H; [eauto|].
Qed.

Lemma known_name_ok n : known_name n → name_ok n = true.
Proof.
  unfold known_name. simpl. destruct (s_format_items n "") as [it|] eqn:E; [|done].
  intros _. revert E. unfold s_format_items.
  repeat (case_match; [by match goal with H : String.eqb n _ = true |- _ =>
    apply String.eqb_eq in H as -> end|]). done.
Qed.

Lemma accepted_last rest st v n f : accepted (init_end (scan rest st)) →
  vec st = v ++ [(n, f, 1%Z)] → known_name n.
Proof.
  intros Ha Hv. apply accepted_vec in Ha. rewrite Hv in Ha.
  apply Forall_app in Ha as [_ Ha]. inversion_clear Ha. by eapply known_name_fmt.
Qed.

(** A remainder of the pattern that can follow context [c]. *)
Definition tail_of (c : ctx) (rest : string) : Prop := ∃ ts c',
  rest = print_tokens ts ∧ end_ctx c ts = Some c' ∧ (c' = CLit ∨ c' = CName).

Definition print_fmt (o : option string) : string :=
  match o with None => "" | Some f => "{" +:+ f +:+ "}" end.
Definition ctx_fmt (o : option string) : ctx :=
  match o with None => CName | Some _ => CBrace end.
Definition fmt_opt_ok (o : option string) : bool :=
  match o with None => true | Some f => fmt_ok f end.

Lemma print_item n o : print_token (Item n o) = "%" +:+ n +:+ print_fmt o.
Proof. destruct o; simpl; [done|]. by rewrite string_app_empty_r. Qed.

Lemma tail_item c n o rest : known_name n → fmt_opt_ok o = true →
  tail_of (ctx_fmt o) rest → tail_of c ("%" +:+ n +:+ print_fmt o +:+ rest).
Proof.
  intros Hn%known_name_ok Ho (ts & c' & -> & Hend & Hc'). exists (Item n o :: ts), c'.
  rewrite print_tokens_cons, print_item, <-!string_app_assoc. split; [done|].
  destruct o; simpl in *; rewrite Hn, ?Ho; done.
Qed.

Lemma tail_lit c s rest : lit_ok c s = true → tail_of CLit rest → tail_of c (escape s +:+ rest).
Proof.
  intros Hs (ts & c' & -> & Hend & Hc'). exists (Lit s :: ts), c'.
  split_and!; [done| |done]. simpl. by rewrite Hs.
Qed.

(** What is left of an accepted pattern, in each scanner state. *)
Definition restN (n rest : string) : Prop := ∃ s rest',
  rest = escape s +:+ rest' ∧ tail_of CLit rest' ∧
  (n +:+ s = "" → tail_of CBrace rest' ∧ tail_of CStart rest').
Definition restS (p rest : string) : Prop := ∃ q o rest',
  rest = q +:+ print_fmt o +:+ rest' ∧ known_name (p +:+ q) ∧
  fmt_opt_ok o = true ∧ tail_of (ctx_fmt o) rest'.
Definition restF (p rest : string) : Prop := ∃ g rest',
  rest = g +:+ "}" +:+ rest' ∧ fmt_ok g = true ∧ known_name p ∧ tail_of CBrace rest'.

Lemma tail_end : tail_of CLit "" ∧ tail_of CName "".
Proof. split; exists []; eexists; (split; [done|]); (split; [done|]); auto. Qed.

(** A literal piece, possibly empty, after a closed item or at the start. *)
Lemma restN_tail c rest : (c = CBrace ∨ c = CStart) → restN "" rest → tail_of c rest.
Proof.
  intros Hc (s & rest' & -> & HL & HE). rewrite string_app_empty_l in HE.
  destruct (decide (s = "")) as [->|Hs].
  - destruct HE as [? ?]; [done|]. destruct Hc; by subst.
  - apply tail_lit; [|done]. by destruct Hc, s; subst.
Qed.


Section accepted_rest.
Variable k : nat.
Hypothesis IHN : ∀ rest n v, String.length rest < k →
  accepted (init_end (scan rest (stN n v false))) → restN n rest.
Hypothesis IHS : ∀ rest p v, String.length rest < k →
  accepted (init_end (scan rest (stS p v false))) → restS p rest.
Hypothesis IHF : ∀ rest p f v, String.length rest < k →
  accepted (init_end (scan rest (stF p f v false))) → restF p rest.

Lemma acceptedN rest n v : String.length rest ≤ k →
  accepted (init_end (scan rest (stN n v false))) → restN n rest.
Proof.
  destruct rest as [|c rest]; intros Hk Ha.
  { destruct n as [|d n]; [by destruct Ha|]. exists "", "". split; [done|].
    split; [apply tail_end|done]. }
  simpl in Hk. rewrite scan_cons in Ha. simpl char_step in Ha.
  destruct (ascii_dec c "%") as [->|Hc].
  - destruct (is_percent (head_char rest)) eqn:Hp.
    + destruct rest as [|d rest]; [done|]. simpl in Hp, Hk.
      destruct (ascii_dec d "%") as [->|]; [|done].
      apply IHN in Ha as (s & rest' & -> & HL & _); [|lia].
      exists (String "%" s), rest'. split; [done|]. split; [done|].
      by destruct n.
    + assert (restS "" rest) as (q & o & rest' & -> & Hq & Ho & HT).
      { destruct n; (eapply IHS; [lia|exact Ha]). }
      rewrite string_app_empty_l in Hq.
      exists "", ("%" +:+ q +:+ print_fmt o +:+ rest'). split; [done|].
      by split; [|intros _; split]; apply tail_item.
  - apply IHN in Ha as (s & rest' & -> & HL & _); [|lia].
    exists (String c s), rest'. split; [|split; [done|by destruct n]].
    simpl. by destruct (ascii_dec c "%").
Qed.

Lemma acceptedS rest p v : String.length rest ≤ k →
  accepted (init_end (scan rest (stS p v false))) → restS p rest.
Proof.
  assert (∀ rest, tail_of CName rest → known_name p → restS p rest) as Hend.
  { intros r HT Hp. exists "", None, r. rewrite string_app_empty_r. done. }
  destruct rest as [|c rest]; intros Hk Ha.
  { apply Hend; [apply tail_end|]. destruct Ha as [_ Ha]. simpl in Ha.
    apply Forall_app in Ha as [_ Ha]. by inversion_clear Ha. }
  simpl in Hk. rewrite scan_cons in Ha. simpl char_step in Ha.
  destruct (ascii_dec c "{") as [->|Hc1].
  { apply IHF in Ha as (g & rest' & -> & Hg & Hp & HT); [|lia].
    exists "", (Some g), rest'. rewrite string_app_empty_r. split_and!; [|done..].
    simpl. by rewrite !string_app_cons, !string_app_empty_l, <-string_app_assoc. }
  destruct (ascii_dec c "}") as [->|Hc2]; [by apply accepted_not_err in Ha|].
  destruct (ascii_dec c "%") as [->|Hc3].
  { assert (known_name p) as Hp.
    { destruct (is_percent _); [destruct rest; [by destruct Ha as [_ ?%Forall_app]; simpl in *;
        destruct_and?; decompose_Forall|]|]; by eapply accepted_last. }
    apply Hend; [|done]. destruct (is_percent (head_char rest)) eqn:Hpc.
    - destruct rest as [|d rest]; [done|]. simpl in Hpc, Hk.
      destruct (ascii_dec d "%") as [->|]; [|done].
      apply IHN in Ha as (s & rest' & -> & HL & _); [|lia].
      by apply (tail_lit CName (String "%" s)).
    - apply IHS in Ha as (q & o & rest' & -> & Hq & Ho & HT); [|lia].
      by apply (tail_item CName q o). }
  destruct (isalpha c) eqn:Hc4; simpl in Ha.
  - apply IHS in Ha as (q & o & rest' & -> & Hq & Ho & HT); [|lia].
    exists (String c q), o, rest'. split_and!; [done| |done..].
    by rewrite append1_app in Hq.
  - pose proof (accepted_last _ _ _ _ _ Ha eq_refl) as Hp. apply Hend; [|done].
    apply IHN in Ha as (s & rest' & -> & HL & _); [|lia].
    pose proof (tail_lit CName (String c s) rest') as HT. simpl in HT.
    destruct (ascii_dec c "%"); [done|]. apply HT; [|done].
    rewrite Hc4. unfold no_brace. simpl. by rewrite !bool_decide_false.
Qed.

Lemma acceptedF rest p f v : String.length rest ≤ k →
  accepted (init_end (scan rest (stF p f v false))) → restF p rest.
Proof.
  destruct rest as [|c rest]; intros Hk Ha; [by destruct Ha|].
  simpl in Hk. rewrite scan_cons in Ha. simpl char_step in Ha.
  destruct (ascii_dec c "}") as [->|Hc1].
  { pose proof (accepted_last _ _ _ _ _ Ha eq_refl) as Hp.
    apply IHN in Ha; [|lia]. exists "", rest. split_and!; [done..|].
    apply restN_tail; auto. }
  destruct (ascii_dec c "{") as [->|Hc2]; [by apply accepted_not_err in Ha|].
  apply IHF in Ha as (g & rest' & -> & Hg & Hp & HT); [|lia].
  exists (String c g), rest'. split_and!; [done| |done..].
  unfold fmt_ok in *. simpl. rewrite Hg. unfold no_brace. simpl.
  by rewrite !bool_decide_false.
Qed.
End accepted_rest.

Lemma accepted_rest_all k :
  (∀ rest n v, String.length rest ≤ k →
    accepted (init_end (scan rest (stN n v false))) → restN n rest) ∧
  (∀ rest p v, String.length rest ≤ k →
    accepted (init_end (scan rest (stS p v false))) → restS p rest) ∧
  (∀ rest p f v, String.length rest ≤ k →
    accepted (init_end (scan rest (stF p f v false))) → restF p rest).
Proof.
  induction k as [k IH] using lt_wf_ind.
  assert (∀ rest, String.length rest < k → String.length rest < k ∧
    String.length rest ≤ String.length rest) as Hlt by (split; [done|lia]).
  split_and!; intros rest.
  - intros n v. apply acceptedN; intros r; intros; by eapply (IH (String.length r)).
  - intros p v. apply acceptedS; intros r; intros; by eapply (IH (String.length r)).
  - intros p f v. apply acceptedF; intros r; intros; by eapply (IH (String.length r)).
Qed.

Lemma accepted_iff pattern :
  m_error (LogFormatter_new pattern) = false ↔ accepted (init_end (scan pattern init_state)).
Proof.
  rewrite LogFormatter_new_scan. unfold accepted, init_items. cbn [m_error].
  rewrite orb_false_iff. apply and_iff_compat_l. generalize (init_end (scan pattern init_state)).1.
  intros l. induction l as [|i l IH]; [done|].
  rewrite Forall_cons. cbn [existsb]. rewrite orb_false_iff, IH. done.
Qed.

(** C16. The scanner accepts exactly the grammar: a pattern is parsed
    without error if and only if it is the printed form of a well-formed
    token list (which does not end in a closing brace) all of whose item
    names are in the table, and then the formatter's items are those of
    the tokens. *)
Theorem formatter_accepts_grammar pattern :
  m_error (LogFormatter_new pattern) = false ↔
  ∃ ts, pattern = print_tokens ts ∧ wf_tokens ts = true ∧ forallb known_token ts = true ∧
        m_items (LogFormatter_new pattern) = token_item <$> ts.
Proof.
  assert (∀ ts c, end_ctx CStart ts = Some c → (c = CLit ∨ c = CName) →
    m_items (LogFormatter_new (print_tokens ts)) = token_item <$> ts ∧
    m_error (LogFormatter_new (print_tokens ts)) = negb (forallb known_token ts)) as Hpp.
  { intros ts c Hc Hd. destruct (init_items_print ts c Hc) as [-> ->].
    destruct Hd as [-> | ->]; simpl; by rewrite app_nil_r. }
  split.
  - intros He. pose proof He as Ha. apply accepted_iff in Ha.
    apply (proj1 (accepted_rest_all (String.length pattern))) in Ha; [|done].
    apply (restN_tail CStart) in Ha as (ts & c & -> & Hend & Hc); [|auto].
    destruct (Hpp ts c Hend Hc) as [Hi Hk]. exists ts. rewrite Hk in He.
    apply negb_false_iff in He. split_and!; try done.
    unfold wf_tokens. rewrite Hend. by destruct Hc as [-> | ->].
  - intros (ts & -> & Hw & Hk & _). unfold wf_tokens in Hw.
    destruct (end_ctx CStart ts) as [c|] eqn:Hend; [|done].
    destruct (Hpp ts c Hend) as [_ ->]; [destruct c; try done; auto|]. by rewrite Hk.
Qed.

(** C31. The scanning loop of [LogFormatter::init] terminates on every
    pattern: one iteration per character plus the final test suffice, any
    larger bound gives the same result, and that result is the recursive
    scanner's. *)
Theorem init_loop_terminates pattern extra :
  init_loop (S (String.length pattern) + extra) pattern 0 init_state
    = Some (scan pattern init_state) ∧
  is_Some (init pattern).
Proof.
  split.
  - pose proof (init_loop_scan (S (String.length pattern) + extra) "" pattern init_state) as H.
    change ("" +:+ pattern) with pattern in H. change (String.length "") with 0 in H.
    apply H. lia.
  - rewrite init_scan. eauto.
Qed.

(** ** Formatting *)
Section format.
Context `{Platform}.

(** Items that produce text for every event of a macro's level. *)
Definition item_safe (item : FormatItem) : Prop :=
  match item with
  | DateTimeFormatItem f => ∀ t, is_Some (strftime_local 64 f t)
  | FilenameFormatItem s => s = "r" → ∀ file, is_Some (path_relative file)
  | _ => True
  end.

Definition formatter_safe (f : LogFormatter) : Prop := Forall item_safe (m_items f).

Lemma stdout_colors_event l : LogLevel.is_event_level l → is_Some (stdout_colors l).
Proof.
  intros Hl. pose proof (LogLevel.level_cases l (LogLevel.event_level_is_level l Hl)) as Hc.
  apply elem_of_cons in Hc as [->|Hc]; [by destruct Hl|].
  repeat (apply elem_of_cons in Hc as [->|Hc]; [by eexists|]). by apply elem_of_nil in Hc.
Qed.

Lemma item_format_safe item name e : item_safe item → LogLevel.is_event_level (e_level e) →
  is_Some (item_format (Some name) item e).
Proof.
  intros Hs Hl. destruct item; simpl in *; eauto.
  - destruct (String.eqb m_str "s"); [eauto|].
    destruct (String.eqb_spec m_str "r") as [->|]; eauto.
  - destruct (stdout_colors_event _ Hl) as [c ->]. simpl. eauto.
Qed.

Lemma format_safe f name e : formatter_safe f → LogLevel.is_event_level (e_level e) →
  is_Some (format f (Some name) e).
Proof.
  unfold format, formatter_safe. intros Hs Hl. apply fmap_is_Some, mapM_is_Some_2.
  eapply Forall_impl; [exact Hs|]. intros item ?. by apply item_format_safe.
Qed.
End format.

(** ** Concrete patterns *)
Definition demo_tokens : list token :=
  [Item "d" (Some "%H:%M"); Lit " 100% ["; Item "p" None; Lit "] "; Item "m" None; Item "n" None].

Lemma formatter_parse_print_witness :
  let f := LogFormatter_new "%d{%H:%M} 100%% [%p] %m%n" in
  m_items f = [DateTimeFormatItem "%H:%M"; StringFormatItem " 100% ["; LevelFormatItem;
               StringFormatItem "] "; MessageFormatItem; NewLineFormatItem] ∧ m_error f = false.
Proof. apply (formatter_parse_print demo_tokens). reflexivity. Defined.

Lemma formatter_trailing_brace_rejected_witness :
  let f := LogFormatter_new "%m %d{%Y}" in
  m_error f = true ∧
  m_items f = [MessageFormatItem; StringFormatItem " "; DateTimeFormatItem "%Y";
               StringFormatItem "<<error_pattern>>"].
Proof.
  apply (formatter_trailing_brace_rejected [Item "m" None; Lit " "; Item "d" (Some "%Y")]).
  reflexivity.
Defined.
