(* ===== verification/Logger.v ===== *)
(** * Appenders, loggers and the logger manager (sylar/log.h, sylar/log.cc)

    Loggers and appenders are shared through [std::shared_ptr] and mutated
    in place: the state [World] keeps them in two heaps indexed by address.
    A [LogFormatter] does not change after its construction, so a pointer
    to one is an optional value ([None] is the null pointer).  The build
    options are those of sylar/CMakeLists.txt: [LogMutex] is [Mutex] and
    [SYLAR_LOG_FILE_APPEND] is defined. *)
From S2P Require Import Prelude CppStd Lock LogLevel LogFormatter.

(** ** State *)
Inductive lockid := LkManager | LkLogger (p : nat) | LkAppender (p : nat).

#[export] Instance lockid_eq_dec : EqDecision lockid.
Proof. solve_decision. Defined.
#[export] Instance lockid_countable : Countable lockid.
Proof.
  refine (inj_countable' (λ l, match l with
      | LkManager => inl tt | LkLogger p => inr (inl p) | LkAppender p => inr (inr p) end)
    (λ x, match x with
      | inl _ => LkManager | inr (inl p) => LkLogger p | inr (inr p) => LkAppender p end) _).
  by intros [].
Defined.

(** [std::ios::openmode]: the two modes the code passes. *)
Inductive openmode := ios_out | ios_app.

(** [std::ofstream]: whether the file buffer is open and in which mode,
    the write position of [ios_out], and the stream's error state. *)
Record FileStream := mkFileStream {
  fs_open : option openmode;
  fs_pos : nat;
  fs_fail : bool;
}.

Inductive AppenderKind :=
| StdoutLogAppender
| FileLogAppender (m_filename : string) (m_filestream : FileStream) (m_lastTime : Z).

Record LogAppender := mkLogAppender {
  a_level : Z;
  a_formatter : option LogFormatter;
  a_has_formatter : bool;
  a_kind : AppenderKind;
}.

Record Logger := mkLogger {
  l_name : string;
  l_level : Z;
  l_appenders : list nat;
  l_formatter : option LogFormatter;
  l_root : option nat;
}.

Record LoggerManager := mkLoggerManager {
  mg_loggers : list (string * nat);
  mg_root : nat;
}.

(** The environment the code reads: clock, thread and fiber identity, and
    which files can be opened and written. *)
Record Env := mkEnv {
  env_time : Z;
  env_tid : Z;
  env_fid : Z;
  env_tname : string;
  env_unopenable : gset string;
  env_disk_full : bool;
}.

Record World := mkWorld {
  w_loggers : gmap nat Logger;
  w_appenders : gmap nat LogAppender;
  w_next : nat;
  w_mgr : option LoggerManager;
  w_locks : gmap lockid lkst;
  w_stdout : string;
  w_files : gmap string string;
  w_env : Env;
}.

Definition set_w_loggers f w := mkWorld (f (w_loggers w)) (w_appenders w) (w_next w) (w_mgr w)
  (w_locks w) (w_stdout w) (w_files w) (w_env w).
Definition set_w_appenders f w := mkWorld (w_loggers w) (f (w_appenders w)) (w_next w) (w_mgr w)
  (w_locks w) (w_stdout w) (w_files w) (w_env w).
Definition set_w_mgr m w := mkWorld (w_loggers w) (w_appenders w) (w_next w) m
  (w_locks w) (w_stdout w) (w_files w) (w_env w).
Definition set_w_locks t w := mkWorld (w_loggers w) (w_appenders w) (w_next w) (w_mgr w)
  t (w_stdout w) (w_files w) (w_env w).
Definition set_w_stdout f w := mkWorld (w_loggers w) (w_appenders w) (w_next w) (w_mgr w)
  (w_locks w) (f (w_stdout w)) (w_files w) (w_env w).
Definition set_w_files f w := mkWorld (w_loggers w) (w_appenders w) (w_next w) (w_mgr w)
  (w_locks w) (w_stdout w) (f (w_files w)) (w_env w).

#[export] Program Instance World_HasLocks : HasLocks World lockid :=
  {| locks_of := w_locks; set_locks := set_w_locks |}.
Next Obligation. done. Qed.
Next Obligation. done. Qed.
Next Obligation. by intros []. Qed.

(** A program start: no object exists. *)
Definition world_init (env : Env) : World :=
  mkWorld ∅ ∅ 0 None ∅ "" ∅ env.

(** Heap access. *)
Definition load_logger (p : nat) : M World Logger :=
  deref "dangling Logger" (λ w, w_loggers w !! p).
Definition store_logger (p : nat) (l : Logger) : M World unit :=
  modify (set_w_loggers (<[p := l]>)).
Definition load_appender (p : nat) : M World LogAppender :=
  deref "dangling LogAppender" (λ w, w_appenders w !! p).
Definition store_appender (p : nat) (a : LogAppender) : M World unit :=
  modify (set_w_appenders (<[p := a]>)).
Definition new_logger (l : Logger) : M World nat := λ w,
  Ret (w_next w) (mkWorld (<[w_next w := l]> (w_loggers w)) (w_appenders w) (S (w_next w))
    (w_mgr w) (w_locks w) (w_stdout w) (w_files w) (w_env w)).
Definition new_appender (a : LogAppender) : M World nat := λ w,
  Ret (w_next w) (mkWorld (w_loggers w) (<[w_next w := a]> (w_appenders w)) (S (w_next w))
    (w_mgr w) (w_locks w) (w_stdout w) (w_files w) (w_env w)).

(** [std::cout << s] *)
Definition cout (s : string) : M World unit := modify (set_w_stdout (λ o, o +:+ s)).
(** [time(0)] *)
Definition time0 : M World Z := gets (λ w, wrapU 64 (env_time (w_env w))).

(** ** LogAppender *)
Definition set_a_formatter (v : option LogFormatter) (h : bool) (a : LogAppender) : LogAppender :=
  mkLogAppender (a_level a) v h (a_kind a).
Definition set_a_level (l : Z) (a : LogAppender) : LogAppender :=
  mkLogAppender l (a_formatter a) (a_has_formatter a) (a_kind a).
Definition set_a_kind (k : AppenderKind) (a : LogAppender) : LogAppender :=
  mkLogAppender (a_level a) (a_formatter a) (a_has_formatter a) k.

Definition LogAppender_setFormatter (p : nat) (val : option LogFormatter) : M World unit :=
  ScopedLockImpl (mkMutex (LkAppender p)) (
    a ← load_appender p;
    store_appender p (set_a_formatter val true a)).

Definition LogAppender_getFormatter (p : nat) : M World (option LogFormatter) :=
  ScopedLockImpl (mkMutex (LkAppender p)) (a ← load_appender p; mret (a_formatter a)).

Definition LogAppender_hasFormatter (p : nat) : M World bool :=
  ScopedLockImpl (mkMutex (LkAppender p)) (a ← load_appender p; mret (a_has_formatter a)).

Definition LogAppender_setLevel (p : nat) (level : Z) : M World unit :=
  a ← load_appender p; store_appender p (set_a_level level a).

(** ** std::ofstream *)

(** [close()]: fails when no file is open. *)
Definition stream_close (fs : FileStream) : FileStream :=
  match fs_open fs with
  | Some _ => mkFileStream None 0 (fs_fail fs)
  | None => mkFileStream None 0 true
  end.

(** [open(name, mode)]: fails on an open stream or a file that cannot be
    opened; success clears the error state.  [ios_out] truncates. *)
Definition stream_open (name : string) (mode : openmode) (fs : FileStream) : M World FileStream := λ w,
  match fs_open fs with
  | Some m => Ret (mkFileStream (Some m) (fs_pos fs) true) w
  | None =>
      if decide (name ∈ env_unopenable (w_env w)) then Ret (mkFileStream None 0 true) w
      else
        let content := match mode with ios_out => "" | ios_app => default "" (w_files w !! name) end in
        Ret (mkFileStream (Some mode) 0 false) (set_w_files (<[name := content]>) w)
  end.

(** Overwrite at a position, as [ios_out] does. *)
Definition write_at (pos : nat) (text content : string) : string :=
  String.substring 0 pos content +:+ text +:+
  String.substring (pos + String.length text) (String.length content) content.

(** [stream << text; stream.flush()]: nothing is written in an error state
    or on a closed stream; a full disk puts the stream into an error state. *)
Definition stream_write (name text : string) (fs : FileStream) : M World FileStream := λ w,
  if fs_fail fs then Ret fs w
  else match fs_open fs with
  | None => Ret (mkFileStream None 0 true) w
  | Some mode =>
      if env_disk_full (w_env w) then Ret (mkFileStream (Some mode) (fs_pos fs) true) w
      else
        let content := default "" (w_files w !! name) in
        match mode with
        | ios_app => Ret fs (set_w_files (<[name := content +:+ text]>) w)
        | ios_out => Ret (mkFileStream (Some mode) (fs_pos fs + String.length text) false)
                         (set_w_files (<[name := write_at (fs_pos fs) text content]>) w)
        end
  end.

(** ** FileLogAppender *)
Definition file_fields (a : LogAppender) : option (string * FileStream * Z) :=
  match a_kind a with
  | FileLogAppender name fs last => Some (name, fs, last)
  | StdoutLogAppender => None
  end.

Definition FileLogAppender_reopen (p : nat) (mode : openmode) : M World bool :=
  ScopedLockImpl (mkMutex (LkAppender p)) (
    a ← load_appender p;
    '(name, fs, last) ← of_option "not a FileLogAppender" (file_fields a);
    let fs := if negb (fs_fail fs) then stream_close fs else fs in
    fs ← stream_open name mode fs;
    store_appender p (set_a_kind (FileLogAppender name fs last) a);;
    mret (negb (fs_fail fs))).

(** [FileLogAppender::FileLogAppender], with [SYLAR_LOG_FILE_APPEND]. *)
Definition FileLogAppender_new (filename : string) : M World nat :=
  now ← time0;
  p ← new_appender (mkLogAppender LogLevel.DEBUG None false
        (FileLogAppender filename (mkFileStream None 0 false) now));
  ok ← FileLogAppender_reopen p ios_app;
  (if negb ok then cout ("open log file failed:" +:+ filename +:+ NL) else mret tt);;
  mret p.

Definition StdoutLogAppender_new : M World nat :=
  new_appender (mkLogAppender LogLevel.DEBUG None false StdoutLogAppender).

Section logging.
Context `{Platform}.

(** [m_formatter->format(event)]: undefined on a null formatter, or when an
    item yields no text. *)
Definition format_event (f : option LogFormatter) (event : LogEvent) : M World string :=
  f ← of_option "null LogFormatter" f;
  w ← get;
  of_option "format" (format f (l_name <$> w_loggers w !! e_logger event) event).

Definition StdoutLogAppender_log (p : nat) (event : LogEvent) : M World unit :=
  a ← load_appender p;
  if (a_level a <=? e_level event)%Z then
    ScopedLockImpl (mkMutex (LkAppender p)) (
      a ← load_appender p;
      text ← format_event (a_formatter a) event;
      cout text)
  else mret tt.

Definition FileLogAppender_log (p : nat) (event : LogEvent) : M World unit :=
  a ← load_appender p;
  if (a_level a <=? e_level event)%Z then
    now ← time0;
    '(_, _, last) ← of_option "not a FileLogAppender" (file_fields a);
    (if negb (now =? last)%Z then
       FileLogAppender_reopen p ios_app;;
       a ← load_appender p;
       '(name, fs, _) ← of_option "not a FileLogAppender" (file_fields a);
       store_appender p (set_a_kind (FileLogAppender name fs now) a)
     else mret tt);;
    ScopedLockImpl (mkMutex (LkAppender p)) (
      a ← load_appender p;
      '(name, fs, last) ← of_option "not a FileLogAppender" (file_fields a);
      text ← format_event (a_formatter a) event;
      fs ← stream_write name text fs;
      store_appender p (set_a_kind (FileLogAppender name fs last) a))
  else mret tt.

(** The virtual call [i->log(event)]. *)
Definition LogAppender_log (p : nat) (event : LogEvent) : M World unit :=
  a ← load_appender p;
  match a_kind a with
  | StdoutLogAppender => StdoutLogAppender_log p event
  | FileLogAppender _ _ _ => FileLogAppender_log p event
  end.

(** ** Logger *)
Definition default_pattern : string :=
  "%d{%Y-%m-%d %H:%M:%S}%T%t%T%N%T%F%T[%p]%T[%c]%T%f:%l%T%m%n".

Definition Logger_new (name : string) : M World nat :=
  new_logger (mkLogger name LogLevel.DEBUG [] (Some (LogFormatter_new default_pattern)) None).

Definition set_l_appenders (aps : list nat) (l : Logger) : Logger :=
  mkLogger (l_name l) (l_level l) aps (l_formatter l) (l_root l).
Definition set_l_level (v : Z) (l : Logger) : Logger :=
  mkLogger (l_name l) v (l_appenders l) (l_formatter l) (l_root l).
Definition set_l_formatter (f : option LogFormatter) (l : Logger) : Logger :=
  mkLogger (l_name l) (l_level l) (l_appenders l) f (l_root l).
Definition set_l_root (r : option nat) (l : Logger) : Logger :=
  mkLogger (l_name l) (l_level l) (l_appenders l) (l_formatter l) r.

Definition Logger_addAppender (p appender : nat) : M World unit :=
  ScopedLockImpl (mkMutex (LkLogger p)) (
    f ← LogAppender_getFormatter appender;
    (match f with
     | None => l ← load_logger p; LogAppender_setFormatter appender (l_formatter l)
     | Some _ => mret tt
     end);;
    l ← load_logger p;
    store_logger p (set_l_appenders (l_appenders l ++ [appender]) l)).

(** Erase the first occurrence. *)
Fixpoint erase_first (x : nat) (l : list nat) : list nat :=
  match l with
  | [] => []
  | y :: l => if decide (y = x) then l else y :: erase_first x l
  end.

Definition Logger_delAppender (p appender : nat) : M World unit :=
  ScopedLockImpl (mkMutex (LkLogger p)) (
    l ← load_logger p;
    store_logger p (set_l_appenders (erase_first appender (l_appenders l)) l)).

(** No lock is taken. *)
Definition Logger_clearAppenders (p : nat) : M World unit :=
  l ← load_logger p; store_logger p (set_l_appenders [] l).

(** [Logger::getAppenders] copies the list without taking the lock. *)
Definition Logger_getAppenders (p : nat) : M World (list nat) :=
  l ← load_logger p; mret (l_appenders l).

Definition Logger_setLevel (p : nat) (level : Z) : M World unit :=
  l ← load_logger p; store_logger p (set_l_level level l).

Definition Logger_setFormatter (p : nat) (val : LogFormatter) : M World unit :=
  ScopedLockImpl (mkMutex (LkLogger p)) (
    if isError val then mret tt
    else
      l ← load_logger p;
      store_logger p (set_l_formatter (Some val) l);;
      foreach (l_appenders l) (λ i,
        has ← LogAppender_hasFormatter i;
        if negb has then LogAppender_setFormatter i (Some val) else mret tt)).

Definition Logger_setFormatter_string (p : nat) (val : string) : M World unit :=
  let new_val := LogFormatter_new val in
  if isError new_val then
    l ← load_logger p;
    cout ("Logger::setFormatter name=" +:+ l_name l +:+ " value=" +:+ val
          +:+ " invalid formatter" +:+ NL)
  else Logger_setFormatter p new_val.

Definition Logger_getFormatter (p : nat) : M World (option LogFormatter) :=
  ScopedLockImpl (mkMutex (LkLogger p)) (l ← load_logger p; mret (l_formatter l)).

(** [Logger::log]; the recursion follows [m_root] pointers. *)
Fixpoint Logger_log_fuel (fuel : nat) (p : nat) (event : LogEvent) : M World unit :=
  match fuel with
  | 0 => stop (Undefined "fuel")
  | S fuel =>
      l ← load_logger p;
      if (l_level l <=? e_level event)%Z then
        ScopedLockImpl (mkMutex (LkLogger p)) (
          l ← load_logger p;
          match l_appenders l with
          | [] =>
              match l_root l with
              | Some root => Logger_log_fuel fuel root event
              | None => mret tt
              end
          | aps => foreach aps (λ i, LogAppender_log i event)
          end)
      else mret tt
  end.

(** Each recursive call holds the lock of one more logger, so the number
    of loggers bounds the depth. *)
Definition Logger_log (p : nat) (event : LogEvent) : M World unit := λ w,
  Logger_log_fuel (S (size (w_loggers w))) p event w.

(** ** LoggerManager *)
Definition root_pattern : string :=
  "%d{%Y-%m-%d %H:%M:%S}%T%t%T%F%T[%P]%T[%c](dft)%T%f{}:%l%T%m%n".
Definition root_file_pattern : string :=
  "%d{%Y-%m-%d %H:%M:%S}%T%t%T%F%T[%p]%T[%c](dft)%T%f{}:%l%T%m%n".

Definition LoggerManager_new : M World LoggerManager :=
  root ← Logger_new "root";
  appender ← StdoutLogAppender_new;
  LogAppender_setFormatter appender (Some (LogFormatter_new root_pattern));;
  Logger_addAppender root appender;;
  file_appender ← FileLogAppender_new "root.log";
  LogAppender_setFormatter file_appender (Some (LogFormatter_new root_file_pattern));;
  Logger_addAppender root file_appender;;
  l ← load_logger root;
  mret (mkLoggerManager (smap_set (l_name l) root []) root).

(** [LoggerMgr::GetInstance()]: the static local is constructed on the
    first call. *)
Definition LoggerMgr_GetInstance : M World LoggerManager :=
  w ← get;
  match w_mgr w with
  | Some m => mret m
  | None => m ← LoggerManager_new; modify (set_w_mgr (Some m));; mret m
  end.

(** [SYLAR_LOG_ROOT()] *)
Definition SYLAR_LOG_ROOT : M World nat := m ← LoggerMgr_GetInstance; mret (mg_root m).

Definition LoggerManager_getLogger (name : string) : M World nat :=
  ScopedLockImpl (mkMutex LkManager) (
    m ← deref "no LoggerManager" w_mgr;
    match smap_find name (mg_loggers m) with
    | Some p => mret p
    | None =>
        p ← Logger_new name;
        l ← load_logger p;
        store_logger p (set_l_root (Some (mg_root m)) l);;
        modify (set_w_mgr (Some (mkLoggerManager (smap_set name p (mg_loggers m)) (mg_root m))));;
        mret p
    end).

(** [SYLAR_LOG_NAME(name)] *)
Definition SYLAR_LOG_NAME (name : string) : M World nat :=
  LoggerMgr_GetInstance;; LoggerManager_getLogger name.

(** ** The logging macros

    [SYLAR_LOG_LEVEL(logger, level) << content]: when the logger's level
    admits it, an event is built, the text streamed into it, and the
    destructor of the temporary [LogEventWrap] logs it at the end of the
    full expression. *)
Definition LogEventWrap_delete (event : LogEvent) : M World unit :=
  Logger_log (e_logger event) event.

Definition SYLAR_LOG_LEVEL (logger : nat) (level : Z) (file : string) (line : Z)
    (content : string) : M World unit :=
  l ← load_logger logger;
  if (l_level l <=? level)%Z then
    w ← get;
    let env := w_env w in
    LogEventWrap_delete (LogEvent_stream content
      (LogEvent_new logger level file line 0 (env_tid env) (env_fid env) (env_time env) (env_tname env)))
  else mret tt.

(** [SYLAR_LOG_FMT_LEVEL]; the argument is the result of [vasprintf]. *)
Definition SYLAR_LOG_FMT_LEVEL (logger : nat) (level : Z) (file : string) (line : Z)
    (vasprintf : option string) : M World unit :=
  l ← load_logger logger;
  if (l_level l <=? level)%Z then
    w ← get;
    let env := w_env w in
    LogEventWrap_delete (LogEvent_format vasprintf
      (LogEvent_new logger level file line 0 (env_tid env) (env_fid env) (env_time env) (env_tname env)))
  else mret tt.
End logging.
