(* ===== verification/LoggerInv.v ===== *)
(** * Well-formedness of the logging state and what every operation does

    [heap_wf] is the invariant of the object heaps; the operations keep it,
    return normally from it when the locks they need are free, and leave
    the lock table as they found it.  [log_step] says what logging an event
    may change; [log_delivers] says where the text goes. *)
From S2P Require Import Prelude CppStd Lock LogLevel LogFormatter FormatterGrammar Logger.

Section inv.
Context `{Platform}.

(** ** The invariant *)
Definition fmt_safe (o : option LogFormatter) : Prop :=
  match o with Some f => formatter_safe f | None => False end.

(** A stream that is closed or appends: not one of [reopen]'s default mode
    [std::ios::out], which truncates the file and writes at a position. *)
Definition appends_kind (k : AppenderKind) : Prop :=
  match k with
  | StdoutLogAppender => True
  | FileLogAppender _ fs _ => fs_open fs ≠ Some ios_out
  end.

(** Any appender: the flag [m_has_formatter] tells whether the formatter
    pointer is set. *)
Definition appender_ok (a : LogAppender) : Prop :=
  match a_formatter a with
  | Some f => formatter_safe f ∧ a_has_formatter a = true
  | None => a_has_formatter a = false
  end.

(** An appender that is attached to a logger. *)
Definition attached_ok (a : LogAppender) : Prop :=
  fmt_safe (a_formatter a) ∧ a_has_formatter a = true.

Record logger_ok (w : World) (l : Logger) : Prop := {
  lo_formatter : fmt_safe (l_formatter l);
  lo_appenders : ∀ i, i ∈ l_appenders l → ∃ a, w_appenders w !! i = Some a ∧ attached_ok a;
  lo_root : ∀ r, l_root l = Some r → ∃ m, w_mgr w = Some m ∧ mg_root m = r;
}.

Record mgr_ok (w : World) (m : LoggerManager) : Prop := {
  mo_sorted : sset_sorted fst (mg_loggers m);
  mo_root : ∃ r, w_loggers w !! mg_root m = Some r ∧ l_root r = None;
  mo_loggers : ∀ k p, (k, p) ∈ mg_loggers m → ∃ l, w_loggers w !! p = Some l ∧ l_name l = k;
}.

Record heap_wf (w : World) : Prop := {
  hw_fresh : ∀ p, w_next w ≤ p → w_loggers w !! p = None ∧ w_appenders w !! p = None;
  hw_mgr : ∀ m, w_mgr w = Some m → mgr_ok w m;
  hw_loggers : ∀ p l, w_loggers w !! p = Some l → logger_ok w l;
  hw_appenders : ∀ p a, w_appenders w !! p = Some a → appender_ok a;
}.

(** ** What logging changes *)

(** The destination an appender writes to. *)
Inductive dest := DStdout | DFile (name : string).
#[export] Instance dest_eq_dec : EqDecision dest.
Proof. solve_decision. Defined.

Definition kind_dest (k : AppenderKind) : dest :=
  match k with StdoutLogAppender => DStdout | FileLogAppender name _ _ => DFile name end.

Definition out (d : dest) (w : World) : string :=
  match d with DStdout => w_stdout w | DFile name => default "" (w_files w !! name) end.

(** Two appenders that differ in their stream and time stamp only. *)
Definition app_sim (a a' : LogAppender) : Prop :=
  a_level a = a_level a' ∧ a_formatter a = a_formatter a' ∧
  a_has_formatter a = a_has_formatter a' ∧ kind_dest (a_kind a) = kind_dest (a_kind a').

(** No file stream is in the truncating mode. *)
Definition appends (w : World) : Prop :=
  ∀ p a, w_appenders w !! p = Some a → appends_kind (a_kind a).

(** Logging keeps loggers, manager, locks and environment, changes
    appenders in their streams only, and only adds to the outputs when all
    file streams append. *)
Record log_step (w w' : World) : Prop := {
  ls_loggers : w_loggers w' = w_loggers w;
  ls_next : w_next w' = w_next w;
  ls_mgr : w_mgr w' = w_mgr w;
  ls_locks : w_locks w' = w_locks w;
  ls_env : w_env w' = w_env w;
  ls_appenders : ∀ p, option_Forall2 app_sim (w_appenders w !! p) (w_appenders w' !! p);
  ls_out : appends w → appends w' ∧ ∀ d, ∃ x, out d w' = out d w +:+ x;
}.

#[export] Instance app_sim_preorder : PreOrder app_sim.
Proof.
  split; [by intros ?|]. unfold app_sim.
  by intros a b c (-> & -> & -> & ->) (-> & -> & -> & ->).
Qed.

#[export] Instance log_step_preorder : PreOrder log_step.
Proof.
  split.
  - intros w. split; try done. intros Hw. split; [done|]. intros d. exists "". by rewrite string_app_empty_r.
  - intros w1 w2 w3 [] []. split; try congruence.
    + intros p. specialize (ls_appenders0 p). specialize (ls_appenders1 p). by etrans.
    + intros [Hw2 Ho]%ls_out0. apply ls_out1 in Hw2 as [Hw3 Ho']. split; [done|].
      intros d. destruct (Ho d) as [x Hx], (Ho' d) as [y Hy].
      exists (x +:+ y). by rewrite Hy, Hx, string_app_assoc.
Qed.

Lemma app_sim_ok a a' : app_sim a a' → attached_ok a → attached_ok a'.
Proof. unfold app_sim, attached_ok. by intros (_ & <- & <- & _). Qed.

Lemma log_step_appender w w' p a : log_step w w' → w_appenders w !! p = Some a →
  ∃ a', w_appenders w' !! p = Some a' ∧ app_sim a a'.
Proof. intros Hs Hp. pose proof (ls_appenders _ _ Hs p) as Ha. rewrite Hp in Ha. inversion Ha. eauto. Qed.

Lemma log_step_wf w w' : log_step w w' → heap_wf w → heap_wf w'.
Proof.
  intros Hs [Hf Hm Hl Hk]. pose proof Hs as []. split.
  - intros p. rewrite ls_next0, ls_loggers0. intros Hp. split; [by apply Hf|].
    specialize (ls_appenders0 p). destruct (Hf p Hp) as [_ Hn]. rewrite Hn in ls_appenders0.
    by inversion ls_appenders0.
  - intros m. rewrite ls_mgr0. intros [H1 H2 H3]%Hm. split; by rewrite ?ls_loggers0.
  - intros p l. rewrite ls_loggers0. intros [H1 H2 H3]%Hl. split; [done| |by rewrite ls_mgr0].
    intros i Hi. destruct (H2 i Hi) as (a & Ha & Hok).
    destruct (log_step_appender _ _ _ _ Hs Ha) as (a' & ? & ?). eauto using app_sim_ok.
  - intros p a' Ha'. specialize (ls_appenders0 p). rewrite Ha' in ls_appenders0.
    inversion ls_appenders0 as [a ? Hsim Ha|]. destruct Hsim as (_ & Hf' & Hh' & _).
    symmetry in Ha. specialize (Hk _ _ Ha). unfold appender_ok in *. by rewrite <-Hf', <-Hh'.
Qed.

(** ** Logging to one appender *)

(** The event comes from a macro and its logger exists. *)
Definition event_ok (w : World) (ev : LogEvent) : Prop :=
  LogLevel.is_event_level (e_level ev) ∧ is_Some (w_loggers w !! e_logger ev).

(** The text an appender with formatter [f] produces for [ev]. *)
Definition event_text (w : World) (f : option LogFormatter) (ev : LogEvent) : string :=
  default "" (f ← f; format f (l_name <$> w_loggers w !! e_logger ev) ev).

Lemma wp_format_event f ev (Q : string → World → Prop) w :
  fmt_safe f → event_ok w ev → Q (event_text w f ev) w → wp (format_event f ev) Q w.
Proof.
  destruct f as [f|]; [|done]. intros Hf [Hl [l Hlog]] HQ. unfold format_event.
  wp_step. wp_step. wp_step. wp_step. unfold event_text in HQ. rewrite Hlog in *. simpl in *.
  destruct (format_safe f (l_name l) ev Hf Hl) as [text Ht]. rewrite Ht in HQ.
  by eapply wp_of_option.
Qed.

Lemma event_text_loggers w w' f ev :
  w_loggers w' = w_loggers w → event_text w' f ev = event_text w f ev.
Proof. unfold event_text. by intros ->. Qed.

(** A stream that accepts output in the given environment. *)
Definition healthy_kind (env : Env) (k : AppenderKind) : Prop :=
  match k with
  | StdoutLogAppender => True
  | FileLogAppender name fs _ =>
      fs_open fs = Some ios_app ∧ fs_fail fs = false ∧ name ∉ env_unopenable env
  end.

(** The text appender [i] adds to destination [d] for [ev]. *)
Definition appender_text (w : World) (ev : LogEvent) (d : dest) (i : nat) : string :=
  match w_appenders w !! i with
  | Some a =>
      if (a_level a <=? e_level ev)%Z && bool_decide (kind_dest (a_kind a) = d)
      then event_text w (a_formatter a) ev else ""
  | None => ""
  end.

(** All streams accept output. *)
Definition healthy (w : World) : Prop :=
  env_disk_full (w_env w) = false ∧
  ∀ p a, w_appenders w !! p = Some a → healthy_kind (w_env w) (a_kind a).

(** Delivery of [ev] to appender [i]. *)
Definition delivered (w : World) (ev : LogEvent) (i : nat) (w' : World) : Prop :=
  log_step w w' ∧
  (healthy w → healthy w' ∧ ∀ d, out d w' = out d w +:+ appender_text w ev d i).

Lemma set_locks_step w w' t : log_step (set_w_locks t w) w' →
  log_step w (set_w_locks (w_locks w) w').
Proof. intros []. split; try done. Qed.

Lemma set_locks_delivered w w' t ev i : delivered (set_w_locks t w) ev i w' →
  delivered w ev i (set_w_locks (w_locks w) w').
Proof. intros [Hs Hh]. split; [by eapply set_locks_step|]. intros Hw. by apply Hh. Qed.

(** A level above the event's: nothing happens. *)
Lemma delivered_skip w ev i a : w_appenders w !! i = Some a →
  (a_level a <=? e_level ev)%Z = false → delivered w ev i w.
Proof.
  intros Ha Hl. split; [done|]. intros Hh. split; [done|]. intros d.
  unfold appender_text. by rewrite Ha, Hl, string_app_empty_r.
Qed.

Lemma wp_StdoutLogAppender_log i a ev w :
  w_appenders w !! i = Some a → attached_ok a → a_kind a = StdoutLogAppender →
  w_locks w !! LkAppender i = None → event_ok w ev →
  wp (StdoutLogAppender_log i ev) (λ _, delivered w ev i) w.
Proof.
  intros Ha [Hf _] Hk Hlk Hev. unfold StdoutLogAppender_log.
  wp_step. eapply wp_deref; [exact Ha|]. destruct (_ <=? _)%Z eqn:Hl.
  2: { wp_step. by eapply delivered_skip. }
  apply wp_ScopedLock; [done|]. simpl. wp_step. eapply wp_deref; [exact Ha|].
  wp_step. apply wp_format_event; [done..|]. apply wp_modify. split; [done|].
  eapply set_locks_delivered with (t := <[LkAppender i:=Exclusive]> (w_locks w)). split.
  - split; try done. intros Hw. split; [done|]. intros [|n]; simpl; [by eexists|].
    exists "". by rewrite string_app_empty_r.
  - intros Hh. split; [done|]. unfold appender_text. simpl. rewrite Ha, Hl, Hk. simpl.
    intros [|n]; simpl; [done|]. by rewrite string_app_empty_r.
Qed.

(** ** File appenders *)

(** [w'] is [w] with appender [i]'s stream and time stamp replaced. *)
Definition restreamed (w : World) (i : nat) (a : LogAppender) (name : string)
    (fs : FileStream) (last : Z) (files : gmap string string) : World :=
  set_w_appenders (<[i := set_a_kind (FileLogAppender name fs last) a]>) (set_w_files (λ _, files) w).

Lemma restreamed_step w i a name fs0 last0 fs last files :
  w_appenders w !! i = Some a → a_kind a = FileLogAppender name fs0 last0 →
  (fs_open fs0 ≠ Some ios_out → fs_open fs ≠ Some ios_out ∧
     ∀ n, ∃ x, default "" (files !! n) = default "" (w_files w !! n) +:+ x) →
  log_step w (restreamed w i a name fs last files).
Proof.
  intros Ha Hk Ho. split; try done.
  - intros p. simpl. destruct (decide (p = i)) as [->|Hne].
    + rewrite Ha, lookup_insert_eq. constructor. unfold app_sim. simpl. by rewrite Hk.
    + rewrite lookup_insert_ne by done. by destruct (w_appenders w !! p); constructor.
  - intros Hw. pose proof (Hw i a Ha) as Hi. rewrite Hk in Hi. destruct (Ho Hi) as [Hm Hf]. split.
    + intros p b. simpl. destruct (decide (p = i)) as [->|]; [rewrite lookup_insert_eq; by intros [= <-]|].
      rewrite lookup_insert_ne by done. apply Hw.
    + intros [|n]; simpl; [|apply Hf]. exists "". by rewrite string_app_empty_r.
Qed.

(** The stream and files after [reopen(mode)]. *)
Definition reopened (w : World) (name : string) (mode : openmode) (fs : FileStream) : FileStream * gmap string string :=
  match (if fs_fail fs then fs_open fs else None) with
  | Some m => (mkFileStream (Some m) (fs_pos fs) true, w_files w)
  | None =>
      if decide (name ∈ env_unopenable (w_env w)) then (mkFileStream None 0 true, w_files w)
      else (mkFileStream (Some mode) 0 false,
            <[name := match mode with ios_out => "" | ios_app => default "" (w_files w !! name) end]> (w_files w))
  end.

Lemma set_files_id w : set_w_files (λ _, w_files w) w = w.
Proof. by destruct w. Qed.

Lemma stream_reopen w name mode fs :
  stream_open name mode (if negb (fs_fail fs) then stream_close fs else fs) w
    = Ret (reopened w name mode fs).1 (set_w_files (λ _, (reopened w name mode fs).2) w).
Proof.
  unfold stream_open, reopened, stream_close. destruct fs as [op pos []]; simpl.
  - destruct op; simpl; [by rewrite set_files_id|].
    case_decide; simpl; by rewrite ?set_files_id.
  - destruct op; simpl; (case_decide; simpl; by rewrite ?set_files_id).
Qed.

Lemma wp_reopen i a name fs last mode (Q : bool → World → Prop) w :
  w_appenders w !! i = Some a → a_kind a = FileLogAppender name fs last →
  w_locks w !! LkAppender i = None →
  Q (negb (fs_fail (reopened w name mode fs).1))
    (restreamed w i a name (reopened w name mode fs).1 last (reopened w name mode fs).2) →
  wp (FileLogAppender_reopen i mode) Q w.
Proof.
  intros Ha Hk Hl HQ. unfold FileLogAppender_reopen. apply wp_ScopedLock; [done|].
  wp_step. eapply wp_deref; [exact Ha|]. wp_step.
  eapply wp_of_option; [unfold file_fields; by rewrite Hk|]. cbv iota beta zeta. wp_step.
  unfold wp at 1. rewrite stream_reopen. wp_step. apply wp_modify, wp_ret.
  split; [done|]. by destruct w.
Qed.

Lemma reopened_out w name fs n :
  default "" ((reopened w name ios_app fs).2 !! n) = default "" (w_files w !! n).
Proof.
  unfold reopened. destruct (if fs_fail fs then _ else _); [done|].
  case_decide; [done|]. simpl. destruct (decide (n = name)) as [->|]; [by rewrite lookup_insert_eq|].
  by rewrite lookup_insert_ne by done.
Qed.

Lemma reopened_mode w name fs :
  fs_open fs ≠ Some ios_out → fs_open (reopened w name ios_app fs).1 ≠ Some ios_out.
Proof.
  intros Ho. unfold reopened. destruct fs as [op pos []]; simpl in *.
  - destruct op as [m|]; [done|]. by case_decide.
  - by case_decide.
Qed.

Lemma reopened_healthy w name fs : fs_fail fs = false → name ∉ env_unopenable (w_env w) →
  fs_open (reopened w name ios_app fs).1 = Some ios_app ∧ fs_fail (reopened w name ios_app fs).1 = false.
Proof. unfold reopened. intros -> Hn. by rewrite decide_False by done. Qed.

Lemma restreamed_step_reopen w i a name fs last last' :
  w_appenders w !! i = Some a → a_kind a = FileLogAppender name fs last →
  log_step w (restreamed w i a name (reopened w name ios_app fs).1 last' (reopened w name ios_app fs).2).
Proof.
  intros Ha Hk. eapply restreamed_step; [done..|]. intros Ho. split; [by apply reopened_mode|].
  intros n. exists "". by rewrite reopened_out, string_app_empty_r.
Qed.

Lemma restreamed_healthy w i a name fs last files :
  healthy w → healthy_kind (w_env w) (FileLogAppender name fs last) →
  healthy (restreamed w i a name fs last files).
Proof.
  intros [Hd Hh] Hk. split; [done|]. simpl. intros p b.
  destruct (decide (p = i)) as [->|]; [rewrite lookup_insert_eq; by intros [= <-]|].
  rewrite lookup_insert_ne by done. apply Hh.
Qed.

(** The stream and files after writing [text]. *)
Definition written (w : World) (name text : string) (fs : FileStream) : FileStream * gmap string string :=
  if fs_fail fs then (fs, w_files w)
  else match fs_open fs with
  | None => (mkFileStream None 0 true, w_files w)
  | Some mode =>
      if env_disk_full (w_env w) then (mkFileStream (Some mode) (fs_pos fs) true, w_files w)
      else match mode with
        | ios_app => (fs, <[name := default "" (w_files w !! name) +:+ text]> (w_files w))
        | ios_out => (mkFileStream (Some mode) (fs_pos fs + String.length text) false,
                      <[name := write_at (fs_pos fs) text (default "" (w_files w !! name))]> (w_files w))
        end
  end.

Lemma stream_write_eq w name text fs :
  stream_write name text fs w = Ret (written w name text fs).1
    (set_w_files (λ _, (written w name text fs).2) w).
Proof. unfold stream_write, written. repeat case_match; simpl; by rewrite ?set_files_id. Qed.

Lemma written_out w name text fs n : fs_open fs ≠ Some ios_out →
  ∃ x, default "" ((written w name text fs).2 !! n) = default "" (w_files w !! n) +:+ x.
Proof.
  intros Ho. unfold written. repeat case_match; simplify_eq/=;
    try (exists ""; by rewrite string_app_empty_r).
  destruct (decide (n = name)) as [->|]; [rewrite lookup_insert_eq; by eexists|].
  rewrite lookup_insert_ne by done. exists "". by rewrite string_app_empty_r.
Qed.

Lemma written_mode w name text fs :
  fs_open fs ≠ Some ios_out → fs_open (written w name text fs).1 ≠ Some ios_out.
Proof. intros Ho. unfold written. repeat case_match; simplify_eq/=; congruence. Qed.

(** After the once-per-second reopening: same outputs, same appender up to
    its stream. *)
Definition file_ready (w : World) (i : nat) (a : LogAppender) (name : string) (w1 : World) : Prop :=
  ∃ fs last, w_appenders w1 !! i = Some (set_a_kind (FileLogAppender name fs last) a) ∧
    log_step w w1 ∧
    (healthy w → healthy w1 ∧ ∀ d, out d w1 = out d w).

Lemma set_a_kind_id a k : a_kind a = k → set_a_kind k a = a.
Proof. destruct a. by intros <-. Qed.

Lemma wp_reopen_each_second i a name fs last now w :
  w_appenders w !! i = Some a → a_kind a = FileLogAppender name fs last →
  w_locks w !! LkAppender i = None →
  wp (if negb (now =? last)%Z then
        FileLogAppender_reopen i ios_app;;
        a ← load_appender i;
        '(name, fs, _) ← of_option "not a FileLogAppender" (file_fields a);
        store_appender i (set_a_kind (FileLogAppender name fs now) a)
      else mret tt) (λ _, file_ready w i a name) w.
Proof.
  intros Ha Hk Hl. destruct (now =? last)%Z; simpl.
  { wp_step. exists fs, last. rewrite (set_a_kind_id a) by done. split_and!; try done. }
  wp_step. eapply wp_reopen; [done..|]. wp_step.
  eapply wp_deref; [simpl; by rewrite lookup_insert_eq|]. wp_step.
  eapply wp_of_option; [done|]. cbv iota beta. apply wp_modify.
  exists (reopened w name ios_app fs).1, now. split; [simpl; by rewrite lookup_insert_eq|].
  pose proof (restreamed_step_reopen w i a name fs last now Ha Hk) as Hs.
  replace (set_w_appenders _ _) with
    (restreamed w i a name (reopened w name ios_app fs).1 now (reopened w name ios_app fs).2)
    by (unfold restreamed, set_w_appenders; simpl; by rewrite insert_insert_eq).
  split; [done|]. intros Hh. split.
  - apply restreamed_healthy; [done|]. destruct Hh as [_ Hh]. specialize (Hh i a Ha).
    rewrite Hk in Hh. destruct Hh as (_ & Hf & Hn).
    destruct (reopened_healthy w name fs Hf Hn). done.
  - intros [|n]; simpl; [done|]. apply reopened_out.
Qed.

Lemma delivered_write w i a name fs last ev :
  w_appenders w !! i = Some a → a_kind a = FileLogAppender name fs last →
  (a_level a <=? e_level ev)%Z = true →
  let r := written w name (event_text w (a_formatter a) ev) fs in
  delivered w ev i (restreamed w i a name r.1 last r.2).
Proof.
  intros Ha Hk Hl r. subst r. split.
  { eapply restreamed_step; [done..|]. intros Ho. split; [by apply written_mode|].
    intros n. by apply written_out. }
  intros Hh. pose proof Hh as [Hd Hh']. specialize (Hh' i a Ha). rewrite Hk in Hh'.
  destruct Hh' as (Hop & Hfail & Hn). unfold written. rewrite Hop, Hfail, Hd. simpl. split.
  - by apply restreamed_healthy.
  - intros d. unfold appender_text. rewrite Ha, Hl, Hk. simpl.
    destruct d as [|n]; simpl; [by rewrite string_app_empty_r|].
    case_bool_decide as Hb; simplify_eq.
    + by rewrite lookup_insert_eq.
    + rewrite lookup_insert_ne by congruence. by rewrite string_app_empty_r.
Qed.

Lemma delivered_after w w1 w2 i a name ev : file_ready w i a name w1 →
  w_appenders w !! i = Some a → kind_dest (a_kind a) = DFile name →
  delivered w1 ev i w2 → delivered w ev i w2.
Proof.
  intros (fs & last & Ha1 & Hs1 & Hh1) Ha Hk [Hs2 Hh2]. split; [by etrans|].
  intros Hh. destruct (Hh1 Hh) as [Hhw1 Ho1]. destruct (Hh2 Hhw1) as [Hhw2 Ho2].
  split; [done|]. intros d. rewrite Ho2, Ho1. f_equal. unfold appender_text.
  rewrite Ha1, Ha. simpl. rewrite Hk. erewrite event_text_loggers; [done|]. by destruct Hs1.
Qed.

Lemma wp_FileLogAppender_log i a name fs last ev w :
  w_appenders w !! i = Some a → attached_ok a → a_kind a = FileLogAppender name fs last →
  w_locks w !! LkAppender i = None → event_ok w ev →
  wp (FileLogAppender_log i ev) (λ _, delivered w ev i) w.
Proof.
  intros Ha [Hf _] Hk Hlk Hev. unfold FileLogAppender_log.
  wp_step. eapply wp_deref; [exact Ha|]. destruct (_ <=? _)%Z eqn:Hl.
  2: { wp_step. by eapply delivered_skip. }
  wp_step. apply wp_gets. wp_step.
  eapply wp_of_option; [unfold file_fields; by rewrite Hk|]. cbv iota beta. wp_step.
  eapply wp_mono; [|by eapply wp_reopen_each_second]. intros [] w1 Hr.
  pose proof Hr as (fs1 & last1 & Ha1 & Hs1 & _). pose proof Hs1 as [].
  apply wp_ScopedLock; [simpl; by rewrite ls_locks0|].
  wp_step. eapply wp_deref; [exact Ha1|]. wp_step. eapply wp_of_option; [done|].
  cbv iota beta. wp_step. apply wp_format_event; [done| |].
  { unfold event_ok in *. simpl. by rewrite ls_loggers0. }
  wp_step. unfold wp at 1. rewrite stream_write_eq. apply wp_modify. split; [done|].
  eapply delivered_after; [done..|by rewrite Hk|].
  pose proof (delivered_write w1 i _ name fs1 last1 ev Ha1 eq_refl Hl) as Hd.
  simpl in Hd. by destruct w1.
Qed.

Lemma wp_LogAppender_log i a ev w :
  w_appenders w !! i = Some a → attached_ok a → w_locks w !! LkAppender i = None →
  event_ok w ev → wp (LogAppender_log i ev) (λ _, delivered w ev i) w.
Proof.
  intros Ha Hok Hlk Hev. unfold LogAppender_log. wp_step. eapply wp_deref; [exact Ha|].
  destruct (a_kind a) eqn:Hk.
  - by eapply wp_StdoutLogAppender_log.
  - by eapply wp_FileLogAppender_log.
Qed.

(** ** Logging through a logger *)
Definition appenders_text (w : World) (ev : LogEvent) (d : dest) (l : list nat) : string :=
  concat_strings (appender_text w ev d <$> l).

(** Delivery of [ev] to the appenders [l], in order. *)
Definition delivered_all (w : World) (ev : LogEvent) (l : list nat) (w' : World) : Prop :=
  log_step w w' ∧
  (healthy w → healthy w' ∧ ∀ d, out d w' = out d w +:+ appenders_text w ev d l).

Lemma appender_text_step w w' ev d i : log_step w w' →
  appender_text w' ev d i = appender_text w ev d i.
Proof.
  intros Hs. unfold appender_text. pose proof (ls_appenders _ _ Hs i) as Ha.
  destruct Ha as [a a' (<- & <- & _ & <-)|]; [|done].
  by rewrite (event_text_loggers w w') by apply Hs.
Qed.

Lemma delivered_all_nil w ev : delivered_all w ev [] w.
Proof. split; [done|]. intros Hh. split; [done|]. intros d. by rewrite string_app_empty_r. Qed.

Lemma event_ok_step w w' ev : log_step w w' → event_ok w ev → event_ok w' ev.
Proof. intros []. unfold event_ok. by rewrite ls_loggers0. Qed.

Lemma wp_foreach_log l ev w :
  (∀ i, i ∈ l → ∃ a, w_appenders w !! i = Some a ∧ attached_ok a) →
  (∀ i, w_locks w !! LkAppender i = None) → event_ok w ev →
  wp (foreach l (λ i, LogAppender_log i ev)) (λ _, delivered_all w ev l) w.
Proof.
  intros Hl Hlk Hev.
  set (I := λ l' w', log_step w w' ∧ (healthy w → healthy w' ∧
    ∀ d, out d w' +:+ appenders_text w ev d l' = out d w +:+ appenders_text w ev d l)).
  eapply wp_mono; [|apply (wp_foreach l _ I)].
  - intros [] w' [Hs Hh]. split; [done|]. intros Hw. destruct (Hh Hw) as [? Ho].
    split; [done|]. intros d. rewrite <-Ho. by rewrite string_app_empty_r.
  - intros i l' w' Hi [Hs Hh]. destruct (Hl i Hi) as (a & Ha & Hok).
    destruct (log_step_appender _ _ _ _ Hs Ha) as (a' & Ha' & Hsim).
    eapply wp_mono; [|eapply wp_LogAppender_log; [exact Ha'| | |]].
    + intros [] w'' [Hs' Hh']. split; [by etrans|]. intros Hw.
      destruct (Hh Hw) as [Hw' Ho]. destruct (Hh' Hw') as [Hw'' Ho'].
      split; [done|]. intros d. rewrite <-Ho, Ho', <-string_app_assoc.
      rewrite (appender_text_step w w') by done. done.
    + by eapply app_sim_ok.
    + destruct Hs. by rewrite ls_locks0.
    + by eapply event_ok_step.
  - by split.
Qed.

(** The appenders an event logged at [p] reaches: the logger's own ones if
    it has any, those of its root logger otherwise, each level permitting. *)
Definition route (w : World) (p : nat) (ev : LogEvent) : list nat :=
  match w_loggers w !! p with
  | Some l =>
      if (l_level l <=? e_level ev)%Z then
        match l_appenders l, l_root l with
        | [], Some r =>
            match w_loggers w !! r with
            | Some lr => if (l_level lr <=? e_level ev)%Z then l_appenders lr else []
            | None => []
            end
        | aps, _ => aps
        end
      else []
  | None => []
  end.

Lemma set_locks_delivered_all w w' t ev l : delivered_all (set_w_locks t w) ev l w' →
  delivered_all w ev l (set_w_locks (w_locks w) w').
Proof. intros [Hs Hh]. split; [by eapply set_locks_step|]. intros Hw. by apply Hh. Qed.

Lemma logger_ok_locks w l t : logger_ok w l → logger_ok (set_w_locks t w) l.
Proof. intros []. by split. Qed.

(** A logger that does not forward to its root. *)
Lemma wp_log_local fuel p l ev w :
  w_loggers w !! p = Some l → logger_ok w l → (l_appenders l ≠ [] ∨ l_root l = None) →
  w_locks w !! LkLogger p = None → (∀ i, w_locks w !! LkAppender i = None) → event_ok w ev →
  wp (Logger_log_fuel (S fuel) p ev)
     (λ _, delivered_all w ev (if (l_level l <=? e_level ev)%Z then l_appenders l else [])) w.
Proof.
  intros Hp Hok Hr Hlk Hla Hev. simpl. wp_step. eapply wp_deref; [exact Hp|].
  destruct (l_level l <=? e_level ev)%Z; [|wp_step; apply delivered_all_nil].
  apply wp_ScopedLock; [done|]. wp_step. eapply wp_deref; [exact Hp|].
  assert (wp (foreach (l_appenders l) (λ i, LogAppender_log i ev))
    (λ _ w', w_locks w' = <[LkLogger p := Exclusive]> (w_locks w) ∧
             delivered_all w ev (l_appenders l) (set_w_locks (w_locks w) w'))
    (set_w_locks (<[LkLogger p := Exclusive]> (w_locks w)) w)) as Hf.
  { eapply wp_mono; [|apply wp_foreach_log].
    - intros [] w' Hd. split; [by destruct Hd as [[] _]|]. by eapply set_locks_delivered_all.
    - apply Hok.
    - intros i. simpl. by rewrite lookup_insert_ne.
    - done. }
  destruct (l_appenders l) as [|x aps]; [|exact Hf].
  destruct Hr as [?| ->]; [done|]. exact Hf.
Qed.

Lemma size_pos `{Countable K} {A} (m : gmap K A) k x : m !! k = Some x → ∃ n, size m = S n.
Proof.
  intros Hk. destruct (size m) eqn:E; [|by eexists].
  apply map_size_empty_iff in E. by rewrite E, lookup_empty in Hk.
Qed.

(** A logger with no appender and a root: the event goes to the root. *)
Lemma wp_log_forward fuel p l r lr ev w :
  w_loggers w !! p = Some l → l_appenders l = [] → l_root l = Some r → p ≠ r →
  w_loggers w !! r = Some lr → logger_ok w lr → l_root lr = None →
  w_locks w !! LkLogger p = None → w_locks w !! LkLogger r = None →
  (∀ i, w_locks w !! LkAppender i = None) → event_ok w ev →
  wp (Logger_log_fuel (S (S fuel)) p ev)
     (λ _, delivered_all w ev (if (l_level l <=? e_level ev)%Z then
        if (l_level lr <=? e_level ev)%Z then l_appenders lr else [] else [])) w.
Proof.
  intros Hp Ha Hr Hne Hlr Hok Hrr Hlk Hlkr Hla Hev.
  change (Logger_log_fuel (S (S fuel)) p ev) with
    (l ← load_logger p;
      if (l_level l <=? e_level ev)%Z then
        ScopedLockImpl (mkMutex (LkLogger p)) (
          l ← load_logger p;
          match l_appenders l with
          | [] => match l_root l with
                  | Some root => Logger_log_fuel (S fuel) root ev
                  | None => mret tt
                  end
          | aps => foreach aps (λ i, LogAppender_log i ev)
          end)
      else mret tt).
  wp_step. eapply wp_deref; [exact Hp|].
  destruct (l_level l <=? e_level ev)%Z; [|wp_step; apply delivered_all_nil].
  apply wp_ScopedLock; [done|]. wp_step. eapply wp_deref; [exact Hp|]. rewrite Ha, Hr.
  eapply wp_mono; [|eapply (wp_log_local _ r lr); [exact Hlr|by apply logger_ok_locks|by right| | |done]].
  - intros [] w' Hd. split; [by destruct Hd as [[] _]|]. by eapply set_locks_delivered_all.
  - simpl. rewrite lookup_insert_ne by congruence. done.
  - intros i. simpl. by rewrite lookup_insert_ne.
Qed.

Lemma wp_Logger_log p ev w :
  heap_wf w → w_locks w = ∅ → is_Some (w_loggers w !! p) → event_ok w ev →
  wp (Logger_log p ev) (λ _, delivered_all w ev (route w p ev)) w.
Proof.
  intros Hwf Hlk [l Hp] Hev. pose proof (hw_loggers _ Hwf _ _ Hp) as Hok.
  change (wp (Logger_log_fuel (S (size (w_loggers w))) p ev)
    (λ _, delivered_all w ev (route w p ev)) w).
  destruct (size_pos _ _ _ Hp) as [n ->]. unfold route. rewrite Hp.
  assert (∀ k, w_locks w !! k = None) as Hfree by (intros; by rewrite Hlk).
  pose proof (λ H, wp_log_local (S n) p l ev w Hp Hok H (Hfree _) (λ i, Hfree _) Hev) as Hloc.
  destruct (l_appenders l) as [|x aps] eqn:Ha; [destruct (l_root l) as [r|] eqn:Hr|].
  - destruct (lo_root _ _ Hok r Hr) as (m & Hm & <-).
    destruct (mo_root _ _ (hw_mgr _ Hwf _ Hm)) as (lr & Hlr & Hrr). rewrite Hlr.
    eapply wp_log_forward; try done; [congruence|]. by apply (hw_loggers _ Hwf (mg_root m)).
  - apply Hloc. by right.
  - apply Hloc. by left.
Qed.

(** ** The other operations: exact effects *)
Lemma wp_LogAppender_getFormatter i a (Q : option LogFormatter → World → Prop) w :
  w_appenders w !! i = Some a → w_locks w !! LkAppender i = None → Q (a_formatter a) w →
  wp (LogAppender_getFormatter i) Q w.
Proof.
  intros Ha Hl HQ. apply wp_ScopedLock; [done|]. wp_step. eapply wp_deref; [exact Ha|].
  wp_step. split; [done|]. by destruct w.
Qed.

Lemma wp_LogAppender_hasFormatter i a (Q : bool → World → Prop) w :
  w_appenders w !! i = Some a → w_locks w !! LkAppender i = None → Q (a_has_formatter a) w →
  wp (LogAppender_hasFormatter i) Q w.
Proof.
  intros Ha Hl HQ. apply wp_ScopedLock; [done|]. wp_step. eapply wp_deref; [exact Ha|].
  wp_step. split; [done|]. by destruct w.
Qed.

Lemma wp_LogAppender_setFormatter i a v (Q : unit → World → Prop) w :
  w_appenders w !! i = Some a → w_locks w !! LkAppender i = None →
  Q tt (set_w_appenders (<[i := set_a_formatter v true a]>) w) →
  wp (LogAppender_setFormatter i v) Q w.
Proof.
  intros Ha Hl HQ. apply wp_ScopedLock; [done|]. wp_step. eapply wp_deref; [exact Ha|].
  apply wp_modify. split; [done|]. by destruct w.
Qed.

(** The appender's formatter after [addAppender]: its own if it has one,
    the logger's otherwise, and the flag set in the second case. *)
Definition adopted (a : LogAppender) (l : Logger) : LogAppender :=
  match a_formatter a with
  | Some _ => a
  | None => set_a_formatter (l_formatter l) true a
  end.

Lemma wp_Logger_addAppender p l i a (Q : unit → World → Prop) w :
  w_loggers w !! p = Some l → w_appenders w !! i = Some a →
  w_locks w !! LkLogger p = None → w_locks w !! LkAppender i = None →
  Q tt (set_w_loggers (<[p := set_l_appenders (l_appenders l ++ [i]) l]>)
         (set_w_appenders (<[i := adopted a l]>) w)) →
  wp (Logger_addAppender p i) Q w.
Proof.
  intros Hp Ha Hlp Hli HQ. apply wp_ScopedLock; [done|]. wp_step.
  eapply wp_LogAppender_getFormatter; [exact Ha|simpl; by rewrite lookup_insert_ne|].
  unfold adopted in HQ. destruct (a_formatter a) as [f|] eqn:Hf.
  - wp_step. wp_step. wp_step. eapply wp_deref; [exact Hp|]. apply wp_modify.
    split; [done|]. unfold set_w_appenders in HQ. rewrite insert_id in HQ by done.
    by destruct w.
  - wp_step. wp_step. eapply wp_deref; [exact Hp|].
    eapply wp_LogAppender_setFormatter; [exact Ha|simpl; by rewrite lookup_insert_ne|].
    wp_step. eapply wp_deref; [exact Hp|]. apply wp_modify. split; [done|]. by destruct w.
Qed.

Lemma wp_Logger_delAppender p l i (Q : unit → World → Prop) w :
  w_loggers w !! p = Some l → w_locks w !! LkLogger p = None →
  Q tt (set_w_loggers (<[p := set_l_appenders (erase_first i (l_appenders l)) l]>) w) →
  wp (Logger_delAppender p i) Q w.
Proof.
  intros Hp Hl HQ. apply wp_ScopedLock; [done|]. wp_step. eapply wp_deref; [exact Hp|].
  apply wp_modify. split; [done|]. by destruct w.
Qed.

(** [Logger::setFormatter] when every attached appender has the flag set. *)
Lemma wp_Logger_setFormatter p l f (Q : unit → World → Prop) w :
  w_loggers w !! p = Some l → logger_ok w l → w_locks w !! LkLogger p = None →
  (∀ i, w_locks w !! LkAppender i = None) →
  Q tt (if isError f then w else set_w_loggers (<[p := set_l_formatter (Some f) l]>) w) →
  wp (Logger_setFormatter p f) Q w.
Proof.
  intros Hp Hok Hl Hla HQ. apply wp_ScopedLock; [done|]. destruct (isError f).
  { wp_step. split; [done|]. by destruct w. }
  wp_step. eapply wp_deref; [exact Hp|]. wp_step. apply wp_modify.
  set (w1 := set_w_loggers _ _).
  eapply wp_mono; [|apply (wp_foreach_inv _ _ (λ w', w' = w1)); [|done]].
  - intros [] w' ->. split; [done|]. by destruct w.
  - intros i w' Hi ->. destruct (lo_appenders _ _ Hok i Hi) as (a & Ha & _ & Hh).
    wp_step. eapply wp_LogAppender_hasFormatter; [exact Ha|simpl; by rewrite lookup_insert_ne|].
    by rewrite Hh.
Qed.

(** ** The operations keep the invariant *)
Lemma heap_wf_store_logger p l l' w :
  w_loggers w !! p = Some l → logger_ok w l' → l_name l' = l_name l → l_root l' = l_root l →
  heap_wf w → heap_wf (set_w_loggers (<[p := l']>) w).
Proof.
  intros Hp Hok Hn Hr [Hf Hm Hl Hk]. split; simpl; [| | |done].
  - intros q Hq. split; [|by apply Hf]. destruct (Hf q Hq) as [Hq' _].
    rewrite lookup_insert_ne; [done|]. by intros ->; rewrite Hp in Hq'.
  - intros m [H1 (r & Hr1 & Hr2) H3]%Hm. split; [done| |]; simpl.
    + destruct (decide (p = mg_root m)) as [->|].
      * exists l'. rewrite lookup_insert_eq, Hr. split; congruence.
      * rewrite lookup_insert_ne by done. eauto.
    + intros k q Hq. destruct (H3 k q Hq) as (lq & Hlq & <-).
      destruct (decide (p = q)) as [->|]; [|rewrite lookup_insert_ne by done; eauto].
      rewrite lookup_insert_eq. exists l'. split; congruence.
  - intros q lq Hq. assert (logger_ok w lq) as [].
    { apply lookup_insert_Some in Hq as [[<- <-]|[? ?]]; eauto. }
    by split.
Qed.

Lemma heap_wf_store_appender i a a' w :
  w_appenders w !! i = Some a → appender_ok a' → (attached_ok a → attached_ok a') →
  heap_wf w → heap_wf (set_w_appenders (<[i := a']>) w).
Proof.
  intros Ha Hka Hok [Hf Hm Hl Hk]. split; simpl.
  - intros q Hq. split; [by apply Hf|]. destruct (Hf q Hq) as [_ Hq'].
    rewrite lookup_insert_ne; [done|]. by intros ->; rewrite Ha in Hq'.
  - intros m []%Hm. by split.
  - intros q lq []%Hl. split; [done| |done]. simpl. intros j Hj.
    destruct (lo_appenders0 j Hj) as (b & Hb & Hbok).
    destruct (decide (i = j)) as [->|]; [|rewrite lookup_insert_ne by done; eauto].
    rewrite lookup_insert_eq. exists a'. split; [done|]. apply Hok. congruence.
  - intros q b [[<- <-]|[? ?]]%lookup_insert_Some; eauto.
Qed.

Lemma heap_wf_new_appender a w : appender_ok a → heap_wf w →
  heap_wf (mkWorld (w_loggers w) (<[w_next w := a]> (w_appenders w)) (S (w_next w))
    (w_mgr w) (w_locks w) (w_stdout w) (w_files w) (w_env w)).
Proof.
  intros Hka [Hf Hm Hl Hk]. destruct (Hf (w_next w)) as [_ Hn]; [done|]. split; simpl.
  - intros q Hq. rewrite lookup_insert_ne by lia. apply Hf. lia.
  - intros m []%Hm. by split.
  - intros q lq []%Hl. split; [done| |done]. simpl. intros j Hj.
    destruct (lo_appenders0 j Hj) as (b & Hb & Hbok).
    rewrite lookup_insert_ne; [eauto|]. by intros <-; rewrite Hn in Hb.
  - intros q b [[<- <-]|[? ?]]%lookup_insert_Some; eauto.
Qed.

Lemma heap_wf_new_logger l w : logger_ok w l → heap_wf w →
  heap_wf (mkWorld (<[w_next w := l]> (w_loggers w)) (w_appenders w) (S (w_next w))
    (w_mgr w) (w_locks w) (w_stdout w) (w_files w) (w_env w)).
Proof.
  intros Hok [Hf Hm Hl Hk]. destruct (Hf (w_next w)) as [Hn _]; [done|]. split; simpl.
  - intros q Hq. rewrite lookup_insert_ne by lia. apply Hf. lia.
  - intros m [H1 (r & Hr1 & Hr2) H3]%Hm. split; [done| |]; simpl.
    + exists r. split; [|done]. rewrite lookup_insert_ne; [done|].
      by intros Heq; rewrite Heq, Hr1 in Hn.
    + intros k q Hq. destruct (H3 k q Hq) as (lq & Hlq & <-). exists lq. split; [|done].
      rewrite lookup_insert_ne; [done|]. by intros Heq; rewrite Heq, Hlq in Hn.
  - intros q lq [[<- <-]|[? Hq]]%lookup_insert_Some; [by destruct Hok; split|].
    destruct (Hl _ _ Hq). by split.
  - done.
Qed.

Lemma heap_wf_locks t w : heap_wf w → heap_wf (set_w_locks t w).
Proof.
  intros [Hf Hm Hl Hk]. split; [done| | |done].
  - intros m []%Hm. by split.
  - intros p l []%Hl. by split.
Qed.

Lemma heap_wf_stdout f w : heap_wf w → heap_wf (set_w_stdout f w).
Proof.
  intros [Hf Hm Hl Hk]. split; [done| | |done].
  - intros m []%Hm. by split.
  - intros p l []%Hl. by split.
Qed.
End inv.

#[export] Hint Resolve heap_wf_locks heap_wf_stdout heap_wf_store_logger heap_wf_store_appender
  heap_wf_new_appender heap_wf_new_logger log_step_wf : cpp.
