(* ===== verification/LoggerThm.v ===== *)
(** * Theorems on the logging system

    The public operations as commands, the states reachable by valid
    commands and changes of the environment, and the properties: the
    invariant, the absence of self-deadlock and undefined behaviour, the
    routing of events, and what the manager's look-up returns. *)
From stdpp Require Import relations.
From S2P Require Import Prelude CppStd Lock LogLevel LogFormatter FormatterGrammar Logger LoggerInv.

Section thm.
Context `{Platform}.

(** The default time format yields 19 characters for years up to 9999. *)
Definition strftime_default_fits : Prop :=
  ∀ t, is_Some (strftime_local 64 "%Y-%m-%d %H:%M:%S" t).

(** A state between two calls: the manager exists, no lock is held. *)
Definition log_wf (w : World) : Prop := heap_wf w ∧ w_locks w = ∅ ∧ is_Some (w_mgr w).

(** ** The built-in patterns *)
Definition time_item : FormatItem := DateTimeFormatItem "%Y-%m-%d %H:%M:%S".

Lemma default_pattern_items : LogFormatter_new default_pattern =
  mkLogFormatter default_pattern
    [time_item; TabFormatItem; ThreadIDFormatItem; TabFormatItem; ThreadNameFormatItem;
     TabFormatItem; FiberIDFormatItem; TabFormatItem; StringFormatItem "["; LevelFormatItem;
     StringFormatItem "]"; TabFormatItem; StringFormatItem "["; NameFormatItem;
     StringFormatItem "]"; TabFormatItem; FilenameFormatItem ""; StringFormatItem ":";
     LineFormatItem; TabFormatItem; MessageFormatItem; NewLineFormatItem] false.
Proof. vm_compute. reflexivity. Qed.

Lemma root_pattern_items : LogFormatter_new root_pattern =
  mkLogFormatter root_pattern
    [time_item; TabFormatItem; ThreadIDFormatItem; TabFormatItem; FiberIDFormatItem;
     TabFormatItem; StringFormatItem "["; ColorLevelFormatItem; StringFormatItem "]";
     TabFormatItem; StringFormatItem "["; NameFormatItem; StringFormatItem "](dft)";
     TabFormatItem; FilenameFormatItem ""; StringFormatItem ":"; LineFormatItem;
     TabFormatItem; MessageFormatItem; NewLineFormatItem] false.
Proof. vm_compute. reflexivity. Qed.

Lemma root_file_pattern_items : LogFormatter_new root_file_pattern =
  mkLogFormatter root_file_pattern
    [time_item; TabFormatItem; ThreadIDFormatItem; TabFormatItem; FiberIDFormatItem;
     TabFormatItem; StringFormatItem "["; LevelFormatItem; StringFormatItem "]";
     TabFormatItem; StringFormatItem "["; NameFormatItem; StringFormatItem "](dft)";
     TabFormatItem; FilenameFormatItem ""; StringFormatItem ":"; LineFormatItem;
     TabFormatItem; MessageFormatItem; NewLineFormatItem] false.
Proof. vm_compute. reflexivity. Qed.

Lemma builtin_safe : strftime_default_fits →
  formatter_safe (LogFormatter_new default_pattern) ∧
  formatter_safe (LogFormatter_new root_pattern) ∧
  formatter_safe (LogFormatter_new root_file_pattern).
Proof.
  intros Hfit. rewrite default_pattern_items, root_pattern_items, root_file_pattern_items.
  unfold formatter_safe. split_and!; repeat (constructor; [done|]); constructor.
Qed.

(** ** Commands *)
Inductive log_cmd :=
| CGetLogger (name : string)
| CLog (logger : nat) (level : Z) (file : string) (line : Z) (content : string)
| CSetLevel (logger : nat) (level : Z)
| CSetFormatter (logger : nat) (pattern : string)
| CAddAppender (logger appender : nat)
| CDelAppender (logger appender : nat)
| CClearAppenders (logger : nat)
| CNewStdout
| CNewFile (filename : string)
| CAppSetFormatter (appender : nat) (pattern : string)
| CAppSetLevel (appender : nat) (level : Z)
| CAppReopen (appender : nat) (mode : openmode)
| CGetAppenders (logger : nat).

Definition run_cmd (c : log_cmd) : M World unit :=
  match c with
  | CGetLogger name => SYLAR_LOG_NAME name;; mret tt
  | CLog p level file line content => SYLAR_LOG_LEVEL p level file line content
  | CSetLevel p level => Logger_setLevel p level
  | CSetFormatter p pattern => Logger_setFormatter_string p pattern
  | CAddAppender p i => Logger_addAppender p i
  | CDelAppender p i => Logger_delAppender p i
  | CClearAppenders p => Logger_clearAppenders p
  | CNewStdout => StdoutLogAppender_new;; mret tt
  | CNewFile name => FileLogAppender_new name;; mret tt
  | CAppSetFormatter i pattern => LogAppender_setFormatter i (Some (LogFormatter_new pattern))
  | CAppSetLevel i level => LogAppender_setLevel i level
  | CAppReopen i mode => FileLogAppender_reopen i mode;; mret tt
  | CGetAppenders p => Logger_getAppenders p;; mret tt
  end.

(** A call the program may make: pointers are valid, the macro's level is
    one of the five, and a pattern's time formats fit the buffer.  An
    appender that got an own formatter keeps the flag; the other fields of
    an appender object are only set through the operations. *)
Definition safe_pattern (p : string) : Prop := formatter_safe (LogFormatter_new p).

Definition cmd_ok (w : World) (c : log_cmd) : Prop :=
  match c with
  | CGetLogger _ | CNewStdout | CNewFile _ => True
  | CLog p level _ _ _ => is_Some (w_loggers w !! p) ∧ LogLevel.is_event_level level
  | CSetLevel p _ | CClearAppenders p | CDelAppender p _ | CGetAppenders p => is_Some (w_loggers w !! p)
  | CSetFormatter p pattern => is_Some (w_loggers w !! p) ∧ safe_pattern pattern
  | CAddAppender p i => is_Some (w_loggers w !! p) ∧ is_Some (w_appenders w !! i)
  | CAppSetFormatter i pattern => is_Some (w_appenders w !! i) ∧ safe_pattern pattern
  | CAppSetLevel i _ => is_Some (w_appenders w !! i)
  | CAppReopen i _ => ∃ a name fs last, w_appenders w !! i = Some a ∧
      a_kind a = FileLogAppender name fs last
  end.

Lemma attached_appender_ok a : attached_ok a → appender_ok a.
Proof.
  unfold attached_ok, appender_ok, fmt_safe. intros [? ?].
  by destruct (a_formatter a).
Qed.

Lemma adopted_ok w a l : appender_ok a → logger_ok w l → attached_ok (adopted a l).
Proof.
  unfold appender_ok. intros Hf Hl. unfold attached_ok, adopted. destruct (a_formatter a) as [f|] eqn:E.
  - rewrite E. by destruct Hf.
  - simpl. split; [apply Hl|done].
Qed.

(** Adding an appender keeps the heap well formed. *)
Lemma heap_wf_add p l i a w :
  w_loggers w !! p = Some l → w_appenders w !! i = Some a → heap_wf w →
  heap_wf (set_w_loggers (<[p := set_l_appenders (l_appenders l ++ [i]) l]>)
            (set_w_appenders (<[i := adopted a l]>) w)).
Proof.
  intros Hp Ha Hwf. pose proof (hw_loggers _ Hwf _ _ Hp) as Hl.
  pose proof (hw_appenders _ Hwf _ _ Ha) as Hok.
  assert (attached_ok (adopted a l)) as Had by (by eapply adopted_ok).
  assert (heap_wf (set_w_appenders (<[i := adopted a l]>) w)) as Hwf1.
  { eapply heap_wf_store_appender; [done|by apply attached_appender_ok|done|done]. }
  eapply heap_wf_store_logger; [done| |done..|done].
  destruct (hw_loggers _ Hwf1 _ _ Hp). split; [done| |done]. simpl.
  intros j [Hj|Hj]%elem_of_app; [auto|]. apply list_elem_of_singleton in Hj as ->.
  rewrite lookup_insert_eq. eauto.
Qed.

Lemma logger_ok_sub w l aps : logger_ok w l → (∀ i, i ∈ aps → i ∈ l_appenders l) →
  logger_ok w (set_l_appenders aps l).
Proof. intros [] Hsub. split; [done| |done]. simpl. auto. Qed.

Lemma erase_first_sub x y l : y ∈ erase_first x l → y ∈ l.
Proof.
  induction l as [|z l IH]; simpl; [done|]. case_decide; rewrite !elem_of_cons; tauto.
Qed.

(** A file appender object comes out of its constructor well formed. *)
Lemma wp_FileLogAppender_new name w : heap_wf w → w_locks w = ∅ →
  wp (FileLogAppender_new name) (λ i w', heap_wf w' ∧ w_locks w' = ∅ ∧
    w_loggers w' = w_loggers w ∧ w_mgr w' = w_mgr w ∧ i = w_next w ∧
    (∃ a fs last, w_appenders w' !! i = Some a ∧ a_formatter a = None ∧
       a_kind a = FileLogAppender name fs last) ∧
    (∀ j, j ≠ i → w_appenders w' !! j = w_appenders w !! j)) w.
Proof.
  intros Hwf Hlk. unfold FileLogAppender_new. wp_step. apply wp_gets. wp_step.
  unfold wp at 1, new_appender.
  set (now := wrapU 64 _). set (a := mkLogAppender _ _ _ _). set (w1 := mkWorld _ _ _ _ _ _ _ _).
  assert (heap_wf w1) as Hwf1 by (by apply heap_wf_new_appender).
  assert (w_appenders w1 !! w_next w = Some a) as Ha by (simpl; by rewrite lookup_insert_eq).
  wp_step. eapply wp_reopen; [exact Ha|done|simpl; by rewrite Hlk|].
  pose proof (restreamed_step_reopen w1 (w_next w) a name (mkFileStream None 0 false) now now Ha eq_refl) as Hs.
  set (w2 := restreamed _ _ _ _ _ _ _) in *.
  assert (heap_wf w2) as Hwf2 by (by eapply log_step_wf).
  wp_step. eapply (wp_mono _ (λ _ w', w' = w2 ∨ ∃ f, w' = set_w_stdout f w2)).
  2: { destruct (negb _); [apply wp_modify; eauto|apply wp_ret; auto]. }
  intros [] w' Hw'. wp_step.
  assert (heap_wf w' ∧ w_locks w' = w_locks w2 ∧ w_loggers w' = w_loggers w2 ∧
    w_mgr w' = w_mgr w2 ∧ w_appenders w' = w_appenders w2) as (? & -> & -> & -> & ->).
  { destruct Hw' as [->|[f ->]]; [done|]. split; [by apply heap_wf_stdout|done]. }
  split_and!; try done.
  - simpl. rewrite lookup_insert_eq. do 3 eexists. done.
  - intros j Hj. simpl. by rewrite !lookup_insert_ne.
Qed.

Lemma wp_StdoutLogAppender_new w : heap_wf w →
  wp StdoutLogAppender_new (λ i w', heap_wf w' ∧ w_locks w' = w_locks w ∧
    w_loggers w' = w_loggers w ∧ w_mgr w' = w_mgr w ∧ i = w_next w ∧
    w_appenders w' !! i = Some (mkLogAppender LogLevel.DEBUG None false StdoutLogAppender) ∧
    (∀ j, j ≠ i → w_appenders w' !! j = w_appenders w !! j)) w.
Proof.
  intros Hwf. unfold StdoutLogAppender_new, wp, new_appender. split_and!; try done.
  - by apply heap_wf_new_appender.
  - simpl. by rewrite lookup_insert_eq.
  - intros j Hj. simpl. by rewrite lookup_insert_ne.
Qed.

(** Setting an own formatter on an appender. *)
Lemma heap_wf_set_formatter i a f w : w_appenders w !! i = Some a → formatter_safe f →
  heap_wf w → heap_wf (set_w_appenders (<[i := set_a_formatter (Some f) true a]>) w).
Proof.
  intros Ha Hf Hwf. by eapply heap_wf_store_appender.
Qed.

Lemma wp_Logger_new name w : heap_wf w → formatter_safe (LogFormatter_new default_pattern) →
  wp (Logger_new name) (λ p w', heap_wf w' ∧ w_locks w' = w_locks w ∧ p = w_next w ∧
    w_appenders w' = w_appenders w ∧ w_mgr w' = w_mgr w ∧ w_next w' = S (w_next w) ∧
    w_loggers w' = <[p := mkLogger name LogLevel.DEBUG []
       (Some (LogFormatter_new default_pattern)) None]> (w_loggers w)) w.
Proof.
  intros Hwf Hf. unfold Logger_new, wp, new_logger. split_and!; try done.
  apply heap_wf_new_logger; [|done]. split; [done| |done]. intros i Hi. by apply elem_of_nil in Hi.
Qed.

(** ** The manager *)
Lemma wp_LoggerManager_new w : strftime_default_fits → heap_wf w → w_locks w = ∅ →
  wp LoggerManager_new (λ m w', heap_wf w' ∧ w_locks w' = ∅ ∧ w_mgr w' = w_mgr w ∧
    m = mkLoggerManager [("root", w_next w)] (w_next w) ∧
    ∃ r, w_loggers w' !! w_next w = Some r ∧ l_name r = "root" ∧ l_root r = None ∧
         length (l_appenders r) = 2) w.
Proof.
  intros Hfit Hwf Hlk. destruct (builtin_safe Hfit) as (Hf1 & Hf2 & Hf3).
  set (root := w_next w). unfold LoggerManager_new. wp_step.
  eapply wp_mono; [|by apply wp_Logger_new].
  intros p1 w1 (Hwf1 & Hlk1 & -> & Ha1 & Hm1 & Hn1 & Hl1). rewrite Hlk in Hlk1.
  set (r0 := mkLogger _ _ _ _ _) in Hl1.
  assert (w_loggers w1 !! root = Some r0) as Hr1 by (by rewrite Hl1, lookup_insert_eq).
  wp_step. eapply wp_mono; [|by apply wp_StdoutLogAppender_new].
  intros i2 w2 (Hwf2 & Hlk2 & Hl2 & Hm2 & -> & Hi2 & _). rewrite Hlk1 in Hlk2.
  wp_step. eapply wp_LogAppender_setFormatter; [exact Hi2|by rewrite Hlk2|].
  pose proof (heap_wf_set_formatter _ _ _ _ Hi2 Hf2 Hwf2) as Hwf3.
  set (w3 := set_w_appenders _ w2) in *.
  assert (w_appenders w3 !! w_next w1 = Some (set_a_formatter (Some (LogFormatter_new root_pattern))
    true (mkLogAppender LogLevel.DEBUG None false StdoutLogAppender))) as Hi3
    by (simpl; by rewrite lookup_insert_eq).
  assert (w_loggers w3 !! root = Some r0) as Hr3 by (simpl; by rewrite Hl2).
  wp_step. eapply wp_Logger_addAppender; [exact Hr3|exact Hi3|simpl; by rewrite Hlk2..|].
  pose proof (heap_wf_add _ _ _ _ _ Hr3 Hi3 Hwf3) as Hwf4.
  set (w4 := set_w_loggers _ _) in *.
  assert (w_loggers w4 !! root = Some (set_l_appenders [w_next w1] r0)) as Hr4
    by (simpl; by rewrite lookup_insert_eq).
  wp_step. eapply wp_mono; [|by apply wp_FileLogAppender_new].
  intros i5 w5 (Hwf5 & Hlk5 & Hl5 & Hm5 & -> & (a5 & fs5 & last5 & Ha5 & _ & _) & _).
  wp_step. eapply wp_LogAppender_setFormatter; [exact Ha5|by rewrite Hlk5|].
  pose proof (heap_wf_set_formatter _ _ _ _ Ha5 Hf3 Hwf5) as Hwf6.
  set (w6 := set_w_appenders _ w5) in *.
  assert (w_appenders w6 !! w_next w4 =
    Some (set_a_formatter (Some (LogFormatter_new root_file_pattern)) true a5)) as Ha6
    by (simpl; by rewrite lookup_insert_eq).
  assert (w_loggers w6 !! root = Some (set_l_appenders [w_next w1] r0)) as Hr6
    by (simpl; by rewrite Hl5).
  wp_step. eapply wp_Logger_addAppender; [exact Hr6|exact Ha6|simpl; by rewrite Hlk5..|].
  pose proof (heap_wf_add _ _ _ _ _ Hr6 Ha6 Hwf6) as Hwf7.
  wp_step. eapply wp_deref; [simpl; by rewrite lookup_insert_eq|].
  wp_step. simpl. split_and!; try done.
  - simpl. rewrite Hm5. simpl. congruence.
  - rewrite lookup_insert_eq. by eexists.
Qed.

Lemma heap_wf_first_mgr w m : heap_wf w → w_mgr w = None → mgr_ok w m →
  heap_wf (set_w_mgr (Some m) w).
Proof.
  intros [Hf Hm Hl Hk] Hn Hok. split; simpl; [done| | |done].
  - intros m' [= <-]. by destruct Hok.
  - intros p l [L1 L2 L3]%Hl. split; [done..|]. simpl. intros r Hr.
    destruct (L3 r Hr) as (m' & Hm' & _). congruence.
Qed.

Lemma wp_GetInstance (Q : LoggerManager → World → Prop) w :
  strftime_default_fits → heap_wf w → w_locks w = ∅ →
  (∀ m w', log_wf w' → w_mgr w' = Some m → (w_mgr w = Some m → w' = w) → Q m w') →
  wp LoggerMgr_GetInstance Q w.
Proof.
  intros Hfit Hwf Hlk HQ. unfold LoggerMgr_GetInstance. wp_step. apply wp_get.
  destruct (w_mgr w) as [m|] eqn:Hm.
  { wp_step. apply HQ; [|done..]. split_and!; [done..|]. rewrite Hm. eauto. }
  wp_step. eapply wp_mono; [|by apply wp_LoggerManager_new].
  intros m w' (Hwf' & Hlk' & Hm' & -> & r & Hr & Hrn & Hrr & _). wp_step. apply wp_modify.
  wp_step. apply HQ; [|done..]. split_and!; [|done|by eexists].
  apply heap_wf_first_mgr; [done|congruence|]. split; simpl.
  - by repeat constructor.
  - eauto.
  - intros k p Hin. apply list_elem_of_singleton in Hin as [= -> ->]. eauto.
Qed.

(** A fresh logger entered into the manager's map. *)
Definition fresh_logger (name : string) (root : nat) : Logger :=
  mkLogger name LogLevel.DEBUG [] (Some (LogFormatter_new default_pattern)) (Some root).

(** The effect of [LoggerManager::getLogger]. *)
Definition getLogger_post (name : string) (w : World) (p : nat) (w' : World) : Prop :=
  log_wf w' ∧
  (∃ m', w_mgr w' = Some m' ∧ smap_find name (mg_loggers m') = Some p ∧
         ∀ m, w_mgr w = Some m → mg_root m' = mg_root m ∧
           (∀ k, k ≠ name → smap_find k (mg_loggers m') = smap_find k (mg_loggers m)) ∧
           match smap_find name (mg_loggers m) with
           | Some q => p = q ∧ w' = w
           | None => w_loggers w !! p = None ∧
               w_loggers w' = <[p := fresh_logger name (mg_root m)]> (w_loggers w) ∧
               w_appenders w' = w_appenders w
           end).

Lemma heap_wf_register name m w :
  formatter_safe (LogFormatter_new default_pattern) → heap_wf w → w_mgr w = Some m →
  heap_wf (mkWorld (<[w_next w := fresh_logger name (mg_root m)]> (w_loggers w)) (w_appenders w)
    (S (w_next w)) (Some (mkLoggerManager (smap_set name (w_next w) (mg_loggers m)) (mg_root m)))
    (w_locks w) (w_stdout w) (w_files w) (w_env w)).
Proof.
  intros Hf1 [Hf Hm Hl Hk] Hmgr. destruct (Hm _ Hmgr) as [Hso (r & Hr & Hrr) Hks].
  destruct (Hf (w_next w)) as [Hfr _]; [done|]. split; simpl.
  - intros q Hq. rewrite lookup_insert_ne by lia. apply Hf. lia.
  - intros m' [= <-]. split; simpl.
    + by apply smap_set_sorted.
    + exists r. by rewrite lookup_insert_ne by (intros Heq; by rewrite Heq, Hr in Hfr).
    + intros k q [[= -> ->]|Hin]%smap_set_elem.
      { rewrite lookup_insert_eq. by eexists. }
      destruct (Hks k q Hin) as (lq & Hlq & <-). exists lq.
      by rewrite lookup_insert_ne by (intros Heq; by rewrite Heq, Hlq in Hfr).
  - intros q l [[<- <-]|[Hne Hq]]%lookup_insert_Some.
    + split; simpl; [by apply Hf1|intros i Hi; by apply elem_of_nil in Hi|].
      intros r' [= <-]. by eexists.
    + destruct (Hl _ _ Hq) as [L1 L2 L3]. split; [done..|]. simpl. intros r' Hr'.
      destruct (L3 r' Hr') as (m' & Hm'' & <-). rewrite Hmgr in Hm''. injection Hm'' as <-.
      by eexists.
  - done.
Qed.

Lemma wp_getLogger name w : strftime_default_fits → log_wf w →
  wp (LoggerManager_getLogger name) (getLogger_post name w) w.
Proof.
  intros Hfit (Hwf & Hlk & m & Hm). destruct (builtin_safe Hfit) as (Hf1 & _).
  unfold LoggerManager_getLogger.
  apply wp_ScopedLock; [simpl; by rewrite Hlk|]. wp_step. eapply wp_deref; [exact Hm|].
  destruct (smap_find name (mg_loggers m)) as [p|] eqn:Hfind.
  { wp_step. split; [done|].
    replace (set_locks _ _) with w by (by destruct w). unfold getLogger_post.
    split; [split_and!; eauto|]. exists m. split_and!; [done..|].
    intros m' Hm'. rewrite Hm in Hm'. injection Hm' as <-. by rewrite Hfind. }
  wp_step. unfold wp at 1, Logger_new, new_logger. wp_step.
  eapply wp_deref; [simpl; by rewrite lookup_insert_eq|].
  wp_step. apply wp_modify. wp_step. apply wp_modify. wp_step. split; [done|].
  pose proof (heap_wf_register name m w Hf1 Hwf Hm) as Hwf'.
  split.
  - split_and!; [|done|by eexists]. unfold set_w_mgr, set_w_loggers. simpl.
    rewrite insert_insert_eq. exact Hwf'.
  - eexists. split; [done|]. simpl. split; [apply smap_find_set_eq|].
    intros m' Hm'. rewrite Hm in Hm'. injection Hm' as <-. rewrite Hfind.
    split_and!; [done| |by apply (hw_fresh _ Hwf)| |done].
    + intros k Hk. apply smap_find_set_ne; [apply (hw_mgr _ Hwf _ Hm)|done].
    + by rewrite insert_insert_eq.
Qed.

(** ** Every command from a well-formed state *)
Lemma SYLAR_LOG_LEVEL_delivers p level file line content w :
  heap_wf w → w_locks w = ∅ → is_Some (w_loggers w !! p) → LogLevel.is_event_level level →
  let env := w_env w in
  let ev := LogEvent_stream content
    (LogEvent_new p level file line 0 (env_tid env) (env_fid env) (env_time env) (env_tname env)) in
  wp (SYLAR_LOG_LEVEL p level file line content) (λ _, delivered_all w ev (route w p ev)) w.
Proof.
  intros Hwf Hlk [l Hl] Hlev env ev. unfold SYLAR_LOG_LEVEL. wp_step.
  eapply wp_deref; [exact Hl|]. destruct (l_level l <=? level)%Z eqn:Hle.
  - wp_step. apply wp_get. apply wp_Logger_log; [done..|by eexists|]. split; [done|]. by eexists.
  - wp_step. unfold route. rewrite Hl. change (e_level ev) with level. rewrite Hle.
    apply delivered_all_nil.
Qed.

Lemma log_wf_delivered w ev l w' : log_wf w → delivered_all w ev l w' → log_wf w'.
Proof.
  intros (Hwf & Hlk & Hm) [Hs _].
  split_and!; [by eapply log_step_wf|by rewrite (ls_locks _ _ Hs)|by rewrite (ls_mgr _ _ Hs)].
Qed.

Lemma wp_run_cmd c w : strftime_default_fits → log_wf w → cmd_ok w c →
  wp (run_cmd c) (λ _, log_wf) w.
Proof.
  intros Hfit Hlw Hok. pose proof Hlw as (Hwf & Hlk & Hm).
  assert (∀ k, w_locks w !! k = None) as Hfree by (intros; by rewrite Hlk).
  destruct c as [name|p level file line content|p level|p pat|p i|p i|p| |name|i pat|i level|i mode|p];
    simpl in Hok; simpl run_cmd.
  - unfold SYLAR_LOG_NAME. wp_step. wp_step. apply wp_GetInstance; [done..|].
    intros m w1 Hw1 _ _. eapply wp_mono; [|by apply wp_getLogger]. intros p w2 [? _]. done.
  - destruct Hok as [Hp Hl]. eapply wp_mono; [|by apply SYLAR_LOG_LEVEL_delivers].
    intros [] w' Hd. by eapply log_wf_delivered.
  - destruct Hok as [l Hl]. unfold Logger_setLevel. wp_step. eapply wp_deref; [exact Hl|].
    apply wp_modify. split_and!; [|done..]. eapply heap_wf_store_logger; [done| |done..|done].
    by destruct (hw_loggers _ Hwf _ _ Hl).
  - destruct Hok as [[l Hl] Hsafe]. unfold Logger_setFormatter_string.
    destruct (isError _) eqn:He.
    + wp_step. eapply wp_deref; [exact Hl|]. apply wp_modify.
      split_and!; [by apply heap_wf_stdout|done..].
    + eapply wp_Logger_setFormatter; [done|by eapply hw_loggers|done..|]. rewrite He.
      split_and!; [|done..]. eapply heap_wf_store_logger; [done| |done..|done].
      by destruct (hw_loggers _ Hwf _ _ Hl).
  - destruct Hok as [[l Hl] [a Ha]]. eapply wp_Logger_addAppender; [done..|].
    split_and!; [by apply heap_wf_add|done..].
  - destruct Hok as [l Hl]. eapply wp_Logger_delAppender; [done..|]. split_and!; [|done..].
    eapply heap_wf_store_logger; [done| |done..|done].
    apply logger_ok_sub; [by eapply hw_loggers|]. intros j. apply erase_first_sub.
  - destruct Hok as [l Hl]. unfold Logger_clearAppenders. wp_step. eapply wp_deref; [exact Hl|].
    apply wp_modify. split_and!; [|done..]. eapply heap_wf_store_logger; [done| |done..|done].
    apply logger_ok_sub; [by eapply hw_loggers|]. intros j Hj. by apply elem_of_nil in Hj.
  - wp_step. eapply wp_mono; [|by apply wp_StdoutLogAppender_new].
    intros i w' (? & Hlk' & _ & Hm' & _). wp_step. split_and!; [done|congruence|by rewrite Hm'].
  - wp_step. eapply wp_mono; [|by apply wp_FileLogAppender_new].
    intros i w' (? & Hlk' & _ & Hm' & _). wp_step. split_and!; [done|congruence|by rewrite Hm'].
  - destruct Hok as [[a Ha] Hsafe]. eapply wp_LogAppender_setFormatter; [done..|].
    split_and!; [by apply heap_wf_set_formatter|done..].
  - destruct Hok as [a Ha]. unfold LogAppender_setLevel. wp_step. eapply wp_deref; [exact Ha|].
    apply wp_modify. split_and!; [|done..]. eapply heap_wf_store_appender; [done| |done|done].
    by apply (hw_appenders _ Hwf _ _ Ha).
  - destruct Hok as (a & name & fs & last & Ha & Hk). wp_step. eapply wp_reopen; [done..|].
    wp_step. split_and!; [|done..]. pose proof (hw_appenders _ Hwf _ _ Ha) as Hap.
    eapply heap_wf_store_appender with (a := a); [done..|]. destruct Hwf as [Hf Hg Hl Hk']. split; [done| | |done].
    + intros m []%Hg. by split.
    + intros p l []%Hl. by split.
  - destruct Hok as [l Hl]. unfold Logger_getAppenders. wp_step. wp_step. by eapply wp_deref.
Qed.

(** The environment changes on its own: time passes, files become
    (un)available, another thread or fiber runs the next call. *)
Definition set_env (env : Env) (w : World) : World :=
  mkWorld (w_loggers w) (w_appenders w) (w_next w) (w_mgr w) (w_locks w) (w_stdout w) (w_files w) env.

Inductive log_trans : World → World → Prop :=
| trans_cmd c w w' : cmd_ok w c → run_cmd c w = Ret tt w' → log_trans w w'
| trans_env env w : log_trans w (set_env env w).

(** The states a program can be in between calls. *)
Definition reachable (env : Env) (w : World) : Prop :=
  ∃ m w0, LoggerMgr_GetInstance (world_init env) = Ret m w0 ∧ rtc log_trans w0 w.

Lemma heap_wf_init env : heap_wf (world_init env).
Proof. split; simpl; [done|done|by intros p l Hl; rewrite lookup_empty in Hl..]. Qed.

Lemma log_trans_wf w w' : strftime_default_fits → log_trans w w' → log_wf w → log_wf w'.
Proof.
  intros Hfit [c w1 w2 Hok Hrun|env w1] Hw.
  - pose proof (wp_run_cmd c w1 Hfit Hw Hok) as Hwp. unfold wp in Hwp. by rewrite Hrun in Hwp.
  - destruct Hw as ([Hf Hm Hl Hk] & ? & ?). split_and!; [|done..]. split; [done| | |done].
    + intros m []%Hm. by split.
    + intros p l []%Hl. by split.
Qed.

Lemma reachable_wf env w : strftime_default_fits → reachable env w → log_wf w.
Proof.
  intros Hfit (m & w0 & Hinit & Hsteps).
  assert (log_wf w0) as Hw0.
  { assert (wp LoggerMgr_GetInstance (λ _, log_wf) (world_init env)) as Hwp.
    { apply wp_GetInstance; [done|apply heap_wf_init|done|]. by intros. }
    unfold wp in Hwp. by rewrite Hinit in Hwp. }
  clear Hinit. induction Hsteps as [|w1 w2 w3 Hstep _ IH]; [done|].
  by apply IH, (log_trans_wf w1).
Qed.

(** ** The theorems *)


(** C2. Routing and delivery on healthy streams, that is, when every file
    appender's stream is open for appending and not in an error state, its
    file can be opened and the disk is not full (a stream that failed once
    writes nothing any more, see [failed_stream_never_recovers]): an event logged at a logger goes to that
    logger's appenders, or to the root logger's when it has none, each
    logger's and appender's level permitting; every destination (standard
    output or a file) grows by exactly the formatted texts of the appenders
    that write to it, in the order of the list, and nothing else of the
    logging state changes than the appenders' streams. *)
Theorem log_delivers p level file line content w :
  log_wf w → healthy w → is_Some (w_loggers w !! p) → LogLevel.is_event_level level →
  let env := w_env w in
  let ev := LogEvent_stream content
    (LogEvent_new p level file line 0 (env_tid env) (env_fid env) (env_time env) (env_tname env)) in
  ∃ w', SYLAR_LOG_LEVEL p level file line content w = Ret tt w' ∧ log_step w w' ∧
    ∀ d, out d w' = out d w +:+ appenders_text w ev d (route w p ev).
Proof.
  intros (Hwf & Hlk & _) Hh Hp Hl env ev.
  pose proof (SYLAR_LOG_LEVEL_delivers p level file line content w Hwf Hlk Hp Hl) as Hwp.
  apply wp_returns in Hwp as ([] & w' & Hrun & Hs & Hd). destruct (Hd Hh) as [_ Ho]. eauto.
Qed.

(** C21. Logging is append-only as long as no file stream is in mode
    [std::ios::out] (the constructor and [log] open with [std::ios::app];
    the default of a direct call of [reopen] is [std::ios::out]), in
    whatever state the streams are otherwise: the call returns, standard
    output and every file keep their previous content as a prefix, also
    when a stream is closed or failed, a file cannot be reopened or the
    disk is full, and no stream gets into that mode. *)
Theorem log_append_only p level file line content w :
  log_wf w → appends w → is_Some (w_loggers w !! p) → LogLevel.is_event_level level →
  ∃ w', SYLAR_LOG_LEVEL p level file line content w = Ret tt w' ∧ appends w' ∧
    ∀ d, ∃ x, out d w' = out d w +:+ x.
Proof.
  intros (Hwf & Hlk & _) Ha Hp Hl.
  pose proof (SYLAR_LOG_LEVEL_delivers p level file line content w Hwf Hlk Hp Hl) as Hwp.
  apply wp_returns in Hwp as ([] & w' & Hrun & Hs & _). exists w'. split; [done|]. by apply Hs.
Qed.

(** C20. The manager's look-up: [getLogger] returns the logger registered
    under the name and leaves the state alone, or registers a new one that
    has level DEBUG, no appender and forwards to the root logger; a second
    call returns the same pointer and changes nothing, and other names
    keep their loggers. *)
Theorem getLogger_spec name w m :
  strftime_default_fits → log_wf w → w_mgr w = Some m →
  ∃ p w', LoggerManager_getLogger name w = Ret p w' ∧ getLogger_post name w p w' ∧
    LoggerManager_getLogger name w' = Ret p w'.
Proof.
  intros Hfit Hw Hm. pose proof (wp_getLogger name w Hfit Hw) as Hwp.
  apply wp_returns in Hwp as (p & w' & Hrun & Hpost). exists p, w'. split_and!; [done..|].
  destruct Hpost as [Hw' (m' & Hm' & Hfind & _)].
  pose proof (wp_getLogger name w' Hfit Hw') as Hwp.
  apply wp_returns in Hwp as (p2 & w2 & -> & _ & m2 & Hm2 & Hfind2 & Hsame).
  destruct (Hsame m' Hm') as (_ & _ & Hres). rewrite Hfind in Hres. by destruct Hres as [-> ->].
Qed.

(** C36. [Logger::setFormatter] never reaches an appender: [addAppender]
    hands the logger's formatter over through [LogAppender::setFormatter],
    which marks the appender as having a formatter of its own, so in every
    reachable state the loop over the appenders changes none of them; only
    the logger's own pointer is replaced. *)
Theorem setFormatter_keeps_appenders env w p l f :
  strftime_default_fits → reachable env w → w_loggers w !! p = Some l → isError f = false →
  Logger_setFormatter p f w =
    Ret tt (set_w_loggers (<[p := set_l_formatter (Some f) l]>) w).
Proof.
  intros Hfit Hr Hp He. destruct (reachable_wf env w Hfit Hr) as (Hwf & Hlk & _).
  assert (wp (Logger_setFormatter p f) (λ a w', Ret a w' = Ret tt
    (set_w_loggers (<[p := set_l_formatter (Some f) l]>) w)) w) as Hwp.
  { eapply wp_Logger_setFormatter; [done|by eapply hw_loggers|by rewrite Hlk..|]. by rewrite He. }
  apply wp_returns in Hwp as ([] & w' & -> & [= ->]). done.
Qed.

(** A logger whose level is the value 100 is silent: no macro level
    passes its guard, so no event is built and nothing changes. *)
Lemma removed_logger_silent p l level file line content w :
  w_loggers w !! p = Some l → l_level l = LogLevel.REMOVED → LogLevel.is_level level →
  SYLAR_LOG_LEVEL p level file line content w = Ret tt w.
Proof.
  intros Hp Hl Hlev. unfold SYLAR_LOG_LEVEL, mbind, M_bind, load_logger, deref. rewrite Hp, Hl.
  unfold LogLevel.is_level, LogLevel.FATAL, LogLevel.REMOVED in *.
  by rewrite (proj2 (Z.leb_gt 100 level)) by lia.
Qed.

(** C37. A file appender whose open stream got into an error state (a write
    failed, for instance on a full disk) writes nothing any more, even when
    the disk has room again: [reopen] closes the stream only when it is in
    a good state, and opening an open stream fails. *)
Theorem failed_stream_never_recovers i a name fs last m ev w :
  log_wf w → w_appenders w !! i = Some a → attached_ok a →
  a_kind a = FileLogAppender name fs last → fs_open fs = Some m → fs_fail fs = true →
  event_ok w ev →
  ∃ w' fs' last', FileLogAppender_log i ev w = Ret tt w' ∧ w_files w' = w_files w ∧
    w_appenders w' !! i = Some (set_a_kind (FileLogAppender name fs' last') a) ∧
    fs_open fs' = Some m ∧ fs_fail fs' = true.
Proof.
  intros (Hwf & Hlk & _) Ha Hok Hk Hop Hfail Hev.
  assert (wp (FileLogAppender_log i ev) (λ _ w', ∃ fs' last', w_files w' = w_files w ∧
    w_appenders w' !! i = Some (set_a_kind (FileLogAppender name fs' last') a) ∧
    fs_open fs' = Some m ∧ fs_fail fs' = true) w) as Hwp.
  2: { apply wp_returns in Hwp as ([] & w' & ? & fs' & last' & ?). eauto 10. }
  unfold FileLogAppender_log. wp_step. eapply wp_deref; [exact Ha|].
  destruct (a_level a <=? e_level ev)%Z.
  2: { wp_step. exists fs, last. by rewrite (set_a_kind_id a). }
  wp_step. apply wp_gets. wp_step.
  eapply wp_of_option; [unfold file_fields; by rewrite Hk|]. cbv iota beta. wp_step.
  eapply (wp_mono _ (λ _ w1, ∃ fs1 last1, w_files w1 = w_files w ∧ w_locks w1 = ∅ ∧
    w_loggers w1 = w_loggers w ∧
    w_appenders w1 !! i = Some (set_a_kind (FileLogAppender name fs1 last1) a) ∧
    fs_open fs1 = Some m ∧ fs_fail fs1 = true)).
  - intros [] w1 (fs1 & last1 & Hf1 & Hlk1 & Hl1 & Ha1 & Ho1 & Hf1').
    apply wp_ScopedLock; [simpl; by rewrite Hlk1|]. wp_step. eapply wp_deref; [exact Ha1|].
    wp_step. eapply wp_of_option; [done|]. cbv iota beta. wp_step.
    apply wp_format_event; [apply Hok|by unfold event_ok in *; simpl; rewrite Hl1|].
    wp_step. unfold wp at 1, stream_write. rewrite Hf1'. apply wp_modify. split; [done|].
    exists fs1, last1. simpl. by rewrite lookup_insert_eq.
  - assert (reopened w name ios_app fs = (mkFileStream (Some m) (fs_pos fs) true, w_files w)) as Hre
      by (unfold reopened; by rewrite Hfail, Hop).
    destruct (negb _); [|wp_step; exists fs, last; by rewrite (set_a_kind_id a)].
    wp_step. eapply wp_reopen; [done..|by rewrite Hlk|]. rewrite Hre. wp_step.
    eapply wp_deref; [simpl; by rewrite lookup_insert_eq|]. wp_step.
    eapply wp_of_option; [done|]. cbv iota beta. apply wp_modify.
    eexists _, _. simpl. rewrite lookup_insert_eq. done.
Qed.
End thm.

(** ** A concrete platform and a concrete run *)
Definition demo_platform : Platform := {|
  strftime_local max fmt t := Some "2023-02-13 18:01:46";
  path_filename p := p;
  path_parents p := [];
  path_relative p := Some p;
|}.

Definition demo_env : Env := mkEnv 1676282506 4242 0 "main" ∅ false.

(** The state after the manager's construction. *)
Definition demo_world : World :=
  match @LoggerMgr_GetInstance (world_init demo_env) with
  | Ret _ w => w
  | _ => world_init demo_env
  end.

Definition demo_mgr : LoggerManager := mkLoggerManager [("root", 0)] 0.

Lemma demo_init : LoggerMgr_GetInstance (world_init demo_env) = Ret demo_mgr demo_world.
Proof. vm_compute. reflexivity. Qed.

Lemma demo_fits : @strftime_default_fits demo_platform.
Proof. intros t. by eexists. Qed.

Lemma demo_reachable : @reachable demo_platform demo_env demo_world.
Proof. exists demo_mgr, demo_world. split; [exact demo_init|apply rtc_refl]. Qed.

Lemma demo_wf : @log_wf demo_platform demo_world.
Proof. exact (reachable_wf (H := demo_platform) _ _ demo_fits demo_reachable). Qed.

Lemma demo_healthy : healthy demo_world.
Proof.
  split; [reflexivity|]. intros p a Ha. apply elem_of_map_to_list in Ha. vm_compute in Ha.
  repeat (apply elem_of_cons in Ha as [[= -> ->]|Ha]; [by vm_compute; intuition|]).
  by apply elem_of_nil in Ha.
Qed.


Lemma log_delivers_witness :
  ∃ w', @SYLAR_LOG_LEVEL demo_platform 0 LogLevel.INFO "a.cc" 7 "hello" demo_world = Ret tt w' ∧
    out (DFile "root.log") w' = "2023-02-13 18:01:46" +:+ TAB +:+ "4242" +:+ TAB +:+ "0" +:+ TAB
      +:+ "[INFO]" +:+ TAB +:+ "[root](dft)" +:+ TAB +:+ "a.cc:7" +:+ TAB +:+ "hello" +:+ NL.
Proof.
  destruct (log_delivers (H := demo_platform) 0 LogLevel.INFO "a.cc" 7 "hello" demo_world
    demo_wf demo_healthy) as (w' & Hrun & _ & Hout).
  - vm_compute. eexists. reflexivity.
  - unfold LogLevel.is_event_level, LogLevel.DEBUG, LogLevel.INFO, LogLevel.FATAL. lia.
  - exists w'. split; [exact Hrun|]. rewrite (Hout (DFile "root.log")). vm_compute. reflexivity.
Defined.

Lemma getLogger_spec_witness :
  ∃ p w', LoggerManager_getLogger "system" demo_world = Ret p w' ∧
    @getLogger_post demo_platform "system" demo_world p w' ∧
    LoggerManager_getLogger "system" w' = Ret p w'.
Proof.
  apply (getLogger_spec (H := demo_platform) "system" demo_world demo_mgr demo_fits demo_wf).
  vm_compute. reflexivity.
Defined.

Definition demo_root : Logger := default (fresh_logger "" 0) (w_loggers demo_world !! 0).

Lemma setFormatter_keeps_appenders_witness :
  Logger_setFormatter 0 (LogFormatter_new "%d%T%m%n") demo_world =
    Ret tt (set_w_loggers (<[0 := set_l_formatter (Some (LogFormatter_new "%d%T%m%n")) demo_root]>)
      demo_world).
Proof.
  apply (setFormatter_keeps_appenders (H := demo_platform) demo_env demo_world 0 demo_root
    (LogFormatter_new "%d%T%m%n") demo_fits demo_reachable); vm_compute; reflexivity.
Defined.

Example removed_logger_demo :
  let w := set_w_loggers (<[5 := mkLogger "old" LogLevel.REMOVED [] None None]>) demo_world in
  @SYLAR_LOG_LEVEL demo_platform 5 LogLevel.FATAL "a.cc" 7 "x" w = Ret tt w.
Proof.
  apply (removed_logger_silent (H := demo_platform) 5 (mkLogger "old" LogLevel.REMOVED [] None None)).
  - vm_compute. reflexivity.
  - reflexivity.
  - unfold LogLevel.is_level, LogLevel.UNKNOW, LogLevel.FATAL. lia.
Qed.

(** The root file appender, with its open stream in an error state. *)
Definition demo_file_appender : LogAppender :=
  mkLogAppender LogLevel.DEBUG (Some (LogFormatter_new root_file_pattern)) true
    (FileLogAppender "root.log" (mkFileStream (Some ios_app) 0 true) 0).
Definition demo_event : LogEvent :=
  LogEvent_stream "hello" (LogEvent_new 0 LogLevel.INFO "a.cc" 7 0 4242 0 1676282506 "main").

Definition demo_failed_world : World := set_w_appenders (<[2 := demo_file_appender]>) demo_world.

Lemma demo_attached : @attached_ok demo_platform demo_file_appender.
Proof.
  split; [|done]. exact (proj2 (proj2 (builtin_safe (H := demo_platform) demo_fits))).
Qed.

Lemma demo_failed_wf : @log_wf demo_platform demo_failed_world.
Proof.
  destruct demo_wf as (Hwf & ? & ?). split_and!; [|done..]. unfold demo_failed_world.
  eapply heap_wf_store_appender with (a := default demo_file_appender (w_appenders demo_world !! 2)).
  - vm_compute. reflexivity.
  - apply attached_appender_ok, demo_attached.
  - intros _. exact demo_attached.
  - done.
Qed.

Lemma demo_failed_appends : appends demo_failed_world.
Proof.
  intros p a Ha. apply elem_of_map_to_list in Ha. vm_compute in Ha.
  repeat (apply elem_of_cons in Ha as [[= -> ->]|Ha]; [by vm_compute|]).
  by apply elem_of_nil in Ha.
Qed.

(** A failed stream: the file keeps its content. *)
Lemma log_append_only_witness :
  ∃ w', @SYLAR_LOG_LEVEL demo_platform 0 LogLevel.INFO "a.cc" 7 "hello" demo_failed_world = Ret tt w' ∧ appends w' ∧
    ∀ d, ∃ x, out d w' = out d demo_failed_world +:+ x.
Proof.
  apply (log_append_only (H := demo_platform) 0 LogLevel.INFO "a.cc" 7 "hello" demo_failed_world demo_failed_wf).
  - exact demo_failed_appends.
  - vm_compute. eexists. reflexivity.
  - unfold LogLevel.is_event_level, LogLevel.DEBUG, LogLevel.INFO, LogLevel.FATAL. lia.
Defined.

Lemma failed_stream_never_recovers_witness :
  ∃ w' fs' last', @FileLogAppender_log demo_platform 2 demo_event demo_failed_world = Ret tt w' ∧
    w_files w' = w_files demo_failed_world ∧
    w_appenders w' !! 2 = Some (set_a_kind (FileLogAppender "root.log" fs' last') demo_file_appender) ∧
    fs_open fs' = Some ios_app ∧ fs_fail fs' = true.
Proof.
  apply (failed_stream_never_recovers (H := demo_platform) 2 demo_file_appender "root.log"
    (mkFileStream (Some ios_app) 0 true) 0 ios_app demo_event demo_failed_world
    demo_failed_wf); try (vm_compute; reflexivity).
  - exact demo_attached.
  - split.
    + unfold LogLevel.is_event_level, LogLevel.DEBUG, LogLevel.FATAL. simpl. unfold LogLevel.INFO. lia.
    + vm_compute. eexists. reflexivity.
Defined.
