(* ===== verification/LogLine.v ===== *)
(** * Reading a log line back (sylar/log.cc)

    A line in the default pattern of [Logger] is text whose fields are
    separated by tabulators.  A reader that knows nothing but the layout
    gets from the line in the file what the caller of the logging macro
    passed and what the environment was. *)
From S2P Require Import Prelude CppStd Lock LogLevel LogFormatter FormatterGrammar Logger LoggerInv LoggerThm.

(** ** The reader *)
Module LogLine.
Record t := mk {
  time : string;
  threadId : Z;
  threadName : string;
  fiberId : Z;
  level : Z;
  logger : string;
  file : string;
  line : Z;
  message : string;
}.

Definition tab : ascii := ascii_of_nat 9.
Definition newline : ascii := ascii_of_nat 10.

(** Cut at the first [c]. *)
Fixpoint cut (c : ascii) (s : string) : option (string * string) :=
  match s with
  | "" => None
  | String d s => if bool_decide (d = c) then Some ("", s)
                  else '(a, b) ← cut c s; Some (String d a, b)
  end.

(** Cut at the last [c]. *)
Fixpoint cut_last (c : ascii) (s : string) : option (string * string) :=
  match s with
  | "" => None
  | String d s =>
      match cut_last c s with
      | Some (a, b) => Some (String d a, b)
      | None => if bool_decide (d = c) then Some ("", s) else None
      end
  end.

(** The text before a final [c]. *)
Definition strip_last (c : ascii) (s : string) : option string :=
  '(a, b) ← cut_last c s; if str_empty b then Some a else None.

Definition unbracket (s : string) : option string :=
  match s with
  | String "[" s => strip_last "]" s
  | _ => None
  end.

Definition digit (c : ascii) : option Z :=
  let z := (Z.of_nat (nat_of_ascii c) - 48)%Z in
  if bool_decide (0 ≤ z ≤ 9)%Z then Some z else None.

Fixpoint decimal_from (acc : Z) (s : string) : option Z :=
  match s with
  | "" => Some acc
  | String c s => z ← digit c; decimal_from (10 * acc + z) s
  end.
Definition decimal (s : string) : option Z := if str_empty s then None else decimal_from 0 s.

Definition read (s : string) : option t :=
  '(time, s) ← cut tab s;
  '(tid, s) ← cut tab s;
  '(tname, s) ← cut tab s;
  '(fid, s) ← cut tab s;
  '(lev, s) ← cut tab s;
  '(name, s) ← cut tab s;
  '(place, s) ← cut tab s;
  message ← strip_last newline s;
  '(file, line) ← cut_last ":" place;
  tid ← decimal tid; fid ← decimal fid; line ← decimal line;
  lev ← unbracket lev; name ← unbracket name;
  Some (mk time tid tname fid (LogLevel.FromString lev) name file line message).

(** ** Its parts *)
Definition without (c : ascii) (s : string) : bool := str_all (λ d, bool_decide (d ≠ c)) s.

Lemma cut_app c a b : without c a = true → cut c (a +:+ String c b) = Some (a, b).
Proof.
  unfold without. induction a as [|d a IH]; simpl.
  - by rewrite bool_decide_true.
  - intros [Hd Ha]%andb_true_iff. apply bool_decide_eq_true in Hd.
    rewrite bool_decide_false by done. by rewrite IH.
Qed.

Lemma cut_last_none c s : without c s = true → cut_last c s = None.
Proof.
  unfold without. induction s as [|d s IH]; simpl; [done|]. intros [Hd Hs]%andb_true_iff.
  apply bool_decide_eq_true in Hd. rewrite IH by done. by rewrite bool_decide_false.
Qed.

Lemma cut_last_app c a b : without c b = true → cut_last c (a +:+ String c b) = Some (a, b).
Proof.
  intros Hb. induction a as [|d a IH].
  - simpl. rewrite cut_last_none by done. by rewrite bool_decide_true.
  - simpl. by rewrite IH.
Qed.

Lemma strip_last_app c a : strip_last c (a +:+ String c "") = Some a.
Proof. unfold strip_last. by rewrite cut_last_app. Qed.

Lemma unbracket_app s : unbracket (String "[" (s +:+ "]")) = Some s.
Proof. apply strip_last_app. Qed.

(** Decimals. *)
Lemma digit_char x : (x < 10)%N → digit (pretty_N_char x) = Some (Z.of_N x).
Proof.
  intros Hx. assert (x ∈ [0; 1; 2; 3; 4; 5; 6; 7; 8; 9]%N) as Hin by (rewrite !elem_of_cons; lia).
  repeat (apply elem_of_cons in Hin as [->|Hin]; [done|]). by apply elem_of_nil in Hin.
Qed.

Lemma decimal_from_go x s : decimal_from 0 (pretty_N_go x s) = decimal_from (Z.of_N x) s.
Proof.
  revert s. induction (N.lt_wf_0 x) as [x _ IH]. intros s. destruct (decide (x = 0%N)) as [->|Hx].
  { by rewrite pretty_N_go_0. }
  rewrite pretty_N_go_step by lia. rewrite IH by (apply N.div_lt; lia). simpl.
  rewrite digit_char by (apply N.mod_lt; lia). simpl. f_equal.
  pose proof (N.div_mod x 10). lia.
Qed.

Lemma without_go c x s : digit c = None → without c (pretty_N_go x s) = without c s.
Proof.
  intros Hc. revert s. induction (N.lt_wf_0 x) as [x _ IH]. intros s. destruct (decide (x = 0%N)) as [->|Hx].
  { by rewrite pretty_N_go_0. }
  rewrite pretty_N_go_step by lia. rewrite IH by (apply N.div_lt; lia). unfold without. simpl.
  rewrite bool_decide_true; [done|]. intros <-.
  rewrite digit_char in Hc by (apply N.mod_lt; lia). done.
Qed.

Lemma pretty_go z : (0 < z)%Z → pretty z = pretty_N_go (Z.to_N z) "".
Proof. destruct z; [lia| |lia]. intros _. unfold pretty, pretty_Z, pretty_positive, pretty, pretty_N. by rewrite decide_False. Qed.

Lemma go_nonempty x : (0 < x)%N → str_empty (pretty_N_go x "") = false.
Proof.
  intros Hx. destruct (str_empty _) eqn:He; [|done]. apply str_empty_spec in He.
  pose proof (decimal_from_go x "") as Hd. rewrite He in Hd. simpl in Hd. simplify_eq. lia.
Qed.

Lemma decimal_pretty z : (0 ≤ z)%Z → decimal (pretty z) = Some z.
Proof.
  intros Hz. destruct (decide (z = 0%Z)) as [->|]; [done|]. rewrite pretty_go by lia. unfold decimal.
  rewrite go_nonempty by lia. rewrite decimal_from_go. simpl. f_equal. lia.
Qed.

Lemma without_pretty c z : (0 ≤ z)%Z → digit c = None → without c (pretty z) = true.
Proof.
  intros Hz Hc. destruct (decide (z = 0%Z)) as [->|].
  - unfold without. simpl. rewrite bool_decide_true; [done|]. by intros <-.
  - rewrite pretty_go by lia. by rewrite without_go.
Qed.

Lemma without_level lev : without tab (LogLevel.ToString lev) = true.
Proof. unfold LogLevel.ToString. by repeat case_match. Qed.

Lemma without_app c a b : without c a = true → without c b = true → without c (a +:+ b) = true.
Proof. unfold without. intros Ha Hb. by rewrite str_all_app, Ha, Hb. Qed.

(** A line with these fields. *)
Definition text (e : t) : string :=
  time e +:+ String tab (pretty (threadId e) +:+ String tab (threadName e +:+ String tab (
    pretty (fiberId e) +:+ String tab (String "[" (LogLevel.ToString (level e) +:+ "]") +:+ String tab (
      String "[" (logger e +:+ "]") +:+ String tab ((file e +:+ String ":" (pretty (line e))) +:+ String tab (
        message e +:+ String newline ""))))))).

Record ok (e : t) : Prop := {
  ok_time : without tab (time e) = true;
  ok_threadName : without tab (threadName e) = true;
  ok_logger : without tab (logger e) = true;
  ok_file : without tab (file e) = true;
  ok_level : LogLevel.is_event_level (level e);
  ok_ids : (0 ≤ threadId e ∧ 0 ≤ fiberId e ∧ 0 ≤ line e)%Z;
}.

Lemma without_bracketed s : without tab s = true → without tab (String "[" (s +:+ "]")) = true.
Proof. intros Hs. change (without tab ("[" +:+ (s +:+ "]")) = true). by repeat apply without_app. Qed.

Lemma read_text e : ok e → read (text e) = Some e.
Proof.
  intros [H1 H2 H3 H4 H5 (H6 & H7 & H8)]. unfold read, text.
  rewrite cut_app by done. simpl. rewrite cut_app by (by apply without_pretty). simpl.
  rewrite cut_app by done. simpl. rewrite cut_app by (by apply without_pretty). simpl.
  rewrite cut_app by (apply without_bracketed, without_level). simpl.
  rewrite cut_app by (by apply without_bracketed). simpl.
  rewrite cut_app. 2: { apply without_app; [done|]. change (without tab (":" +:+ pretty (line e)) = true).
    apply without_app; [done|]. by apply without_pretty. }
  simpl. rewrite strip_last_app. simpl. rewrite cut_last_app by (by apply without_pretty). simpl.
  rewrite !decimal_pretty by done. simpl. rewrite !strip_last_app. simpl.
  rewrite LogLevel.FromString_ToString, bool_decide_true by (by apply LogLevel.event_level_is_level).
  by destruct e.
Qed.
End LogLine.

(** ** What the program writes *)
Section line.
Context `{Platform}.

Definition default_time_format : string := "%Y-%m-%d %H:%M:%S".

(** The line for an event. *)
Definition line_of (name time : string) (ev : LogEvent) : LogLine.t :=
  LogLine.mk time (e_threadId ev) (e_threadName ev) (e_fiberId ev) (e_level ev) name (e_file ev) (e_line ev)
    (e_content ev).

Lemma format_default name time ev : strftime_local 64 default_time_format (e_time ev) = Some time →
  format (LogFormatter_new default_pattern) (Some name) ev = Some (LogLine.text (line_of name time ev)).
Proof.
  intros Ht. rewrite default_pattern_items. unfold format, time_item, default_time_format in *. simpl. rewrite Ht. simpl.
  f_equal. unfold LogLine.text. simpl. rewrite !string_app_cons, <-!string_app_assoc. reflexivity.
Qed.

(** C17. What is logged can be read back from the file.  Let a logger have
    one appender, a file appender with the default pattern, both with
    levels that let the event pass; let the streams be healthy (open for
    appending, not failed, files openable, disk not full), and let the time
    text, the thread's name, the logger's name and the file's name contain
    no tabulator (the message may).  Then the macro returns, the file grows
    by exactly one text, and a reader that cuts it at its first seven
    tabulators gets back the time, thread id, thread name, fiber id, level,
    logger name, source file, line number and message: no field is lost,
    swapped or run into another, and decimals and level names read back. *)
Theorem logged_line_reads_back p l i a name fs last level file line content time w :
  let env := w_env w in
  log_wf w → healthy w → w_loggers w !! p = Some l → l_appenders l = [i] → w_appenders w !! i = Some a →
  a_kind a = FileLogAppender name fs last → a_formatter a = Some (LogFormatter_new default_pattern) →
  (l_level l ≤ level)%Z → (a_level a ≤ level)%Z → LogLevel.is_event_level level → (0 ≤ line)%Z →
  strftime_local 64 default_time_format (wrapU 64 (env_time env)) = Some time →
  Forall (λ s, LogLine.without LogLine.tab s = true) [time; env_tname env; l_name l; file] →
  ∃ w' text, SYLAR_LOG_LEVEL p level file line content w = Ret tt w' ∧
    out (DFile name) w' = out (DFile name) w +:+ text ∧
    LogLine.read text = Some (LogLine.mk time (wrapU 32 (env_tid env)) (env_tname env) (wrapU 32 (env_fid env))
      level (l_name l) file line content).
Proof.
  intros env (Hwf & Hlk & _) Hh Hp Hap Ha Hk Hf Hl Hal Hlev Hline Ht Hnt.
  pose proof (SYLAR_LOG_LEVEL_delivers p level file line content w Hwf Hlk ltac:(by eexists) Hlev) as Hwp.
  apply wp_returns in Hwp as ([] & w' & Hrun & _ & Hd). destruct (Hd Hh) as [_ Ho].
  exists w'. eexists. split; [exact Hrun|]. split; [apply Ho|].
  set (ev := LogEvent_stream _ _) in *. pose proof (format_default (l_name l) time ev Ht) as Hfmt.
  revert Hf Hfmt. generalize (LogFormatter_new default_pattern) as f. intros f Hf Hfmt.
  unfold route. rewrite Hp, Hap. change (e_level ev) with level. rewrite (proj2 (Z.leb_le _ _)) by done.
  unfold appenders_text. simpl. rewrite string_app_empty_r. unfold appender_text. rewrite Ha, Hk, Hf. change (e_level ev) with level.
  rewrite (proj2 (Z.leb_le _ _)), bool_decide_true by done. simpl. unfold event_text. change (e_logger ev) with p.
  rewrite Hp. simpl. rewrite Hfmt. simpl. rewrite LogLine.read_text; [done|].
  rewrite !Forall_cons in Hnt. destruct Hnt as (? & ? & ? & ? & _).
  split; try done. simpl. split_and!; [apply wrapU_range; lia..|done].
Qed.
End line.

(** ** A logger with a file of its own *)
#[local] Existing Instance demo_platform.

Definition line_cmds : list log_cmd := [CGetLogger "web"; CNewFile "web.log"; CAddAppender 3 4].

Definition run_cmds (l : list log_cmd) (w : World) : World :=
  foldl (λ w c, match run_cmd c w with Ret _ w' => w' | _ => w end) w l.

Definition line_world : World := run_cmds line_cmds demo_world.

Lemma run_cmds_cons c l w : run_cmds (c :: l) w = run_cmds l (run_cmds [c] w).
Proof. reflexivity. Qed.

Lemma line_cmd_step c w : cmd_ok w c → (∃ w', run_cmd c w = Ret tt w') → log_trans w (run_cmds [c] w).
Proof. intros Hok [w' Hrun]. simpl. rewrite Hrun. by eapply trans_cmd. Qed.

Lemma line_reachable : reachable demo_env line_world.
Proof.
  exists demo_mgr, demo_world. split; [exact demo_init|].
  unfold line_world, line_cmds. rewrite (run_cmds_cons _ [_; _]), (run_cmds_cons _ [_]).
  eapply rtc_l; [apply (line_cmd_step (CGetLogger "web")); [done|vm_compute; by eexists]|].
  eapply rtc_l; [apply (line_cmd_step (CNewFile "web.log")); [done|vm_compute; by eexists]|].
  apply rtc_once, line_cmd_step; [split; vm_compute; by eexists|vm_compute; by eexists].
Qed.

Lemma line_healthy : healthy line_world.
Proof.
  split; [reflexivity|]. intros p a Ha. apply elem_of_map_to_list in Ha. vm_compute in Ha.
  repeat (apply elem_of_cons in Ha as [[= -> ->]|Ha]; [by vm_compute; intuition|]).
  by apply elem_of_nil in Ha.
Qed.

Definition line_logger : Logger := set_l_appenders [4] (fresh_logger "web" 0).
Definition line_appender : LogAppender :=
  mkLogAppender LogLevel.DEBUG (Some (LogFormatter_new default_pattern)) true
    (FileLogAppender "web.log" (mkFileStream (Some ios_app) 0 false) 1676282506).

(** The message contains a tabulator and a new line, the source file a colon. *)
Lemma logged_line_reads_back_witness : ∃ w' text,
  SYLAR_LOG_LEVEL 3 LogLevel.WARN "src:a.cc" 107 ("x" +:+ TAB +:+ "y" +:+ NL) line_world = Ret tt w' ∧
  out (DFile "web.log") w' = out (DFile "web.log") line_world +:+ text ∧
  LogLine.read text = Some (LogLine.mk "2023-02-13 18:01:46" 4242 "main" 0 LogLevel.WARN "web" "src:a.cc" 107
    ("x" +:+ TAB +:+ "y" +:+ NL)).
Proof.
  apply (logged_line_reads_back 3 line_logger 4 line_appender "web.log" (mkFileStream (Some ios_app) 0 false) 1676282506
    LogLevel.WARN "src:a.cc" 107 ("x" +:+ TAB +:+ "y" +:+ NL) "2023-02-13 18:01:46" line_world
    (reachable_wf _ _ demo_fits line_reachable) line_healthy).
  1-5: vm_compute; reflexivity.
  1-4: unfold LogLevel.is_event_level, LogLevel.DEBUG, LogLevel.WARN, LogLevel.FATAL; simpl; unfold LogLevel.DEBUG; lia.
  - reflexivity.
  - repeat constructor.
Defined.
