(* ===== verification/LogConc.v ===== *)
(** * Threads that share the loggers (sylar/log.cc, sylar/log.h)

    The locking of the logging system as interleaved steps of any number of
    threads.  A thread's calls are unfolded into instructions: the
    acquisition and release of a mutex, and the accesses in between, which
    read and change the lists of appenders, the map of the manager and the
    appenders' formatters.  A [std::list] is a list of nodes, and a loop
    over it holds an iterator into the list the logger has at that moment:
    an iterator is the list of the nodes it has still to visit, and it is
    valid as long as these are the last nodes of the logger's list.  Using
    an iterator into a list that another thread has changed is undefined,
    and the machine stops in a state marked so.  What an event is, which
    loggers and appenders let it pass and whether a file is due to be
    reopened are parameters: levels and clocks are read without a lock. *)
From S2P Require Import Prelude CppStd Lock Logger.

Module LogConc.
Section machine.
Context {E : Type} (logger_admits appender_admits reopens : nat → E → bool).
(** The address of the root logger. *)
Context (root : nat).

(** The member functions of a logger; [setFormatter] with a formatter that
    is in error or not. *)
Inductive member :=
| log (ev : E)
| addAppender (i : nat)
| delAppender (i : nat)
| clearAppenders
| getAppenders
| setFormatter (err : bool)
| getFormatter
| toYamlString.

(** Calls on a logger the thread has a pointer to, on the logger the
    manager gives for a name ([SYLAR_LOG_NAME]), of the manager and of an
    appender. *)
Inductive call :=
| on (p : nat) (m : member)
| by_name (name : string) (m : member)
| getLogger (name : string)
| manager_toYamlString
| appender_setFormatter (i : nat)
| appender_getFormatter (i : nat)
| appender_reopen (i : nat).

(** The loops over the appenders of a logger: in [log], [setFormatter],
    [toYamlString], and the copy [getAppenders] makes. *)
Inductive loop := LLog (ev : E) | LFmt | LYaml | LCopy.

Notation node := (nat * nat)%type.

Inductive instr :=
| Acquire (l : lockid)
| Release (l : lockid)
(** [Logger::log] under its lock: the test of [m_appenders] *)
| LogBody (p : nat) (ev : E)
(** a loop over the appenders: its start, the access to the node of the
    iterator, and its increment *)
| Begin (k : loop) (p : nat)
| Loop (k : loop) (p : nat) (it : list node)
| Next (k : loop) (p : nat) (it : list node)
(** the output of an appender *)
| Append (i : nat) (ev : E)
| PushBack (p i : nat)
| Erase (p i : nat)
| Clear (p : nat)
(** under the lock of appender [i]: test whether it has a formatter,
    release the lock and, if it has none, set one *)
| Inherit (i : nat)
| SetFmt (i : nat)
(** [LoggerManager::getLogger] under its lock, and what is called on the
    result *)
| FindOrCreate (name : string) (k : option member)
(** [LoggerManager::toYamlString] under its lock: the loop over the map *)
| YamlMgr
| YamlMgrLoop (it : list nat)
| YamlMgrNext (it : list nat).

Definition locked (l : lockid) (body : list instr) : list instr := Acquire l :: body ++ [Release l].

Definition log_call (p : nat) (ev : E) : list instr :=
  if logger_admits p ev then locked (LkLogger p) [LogBody p ev] else [].

(** [i->log(event)] of a file appender; [reopens] is false of the others. *)
Definition appender_log (i : nat) (ev : E) : list instr :=
  if appender_admits i ev then
    (if reopens i ev then locked (LkAppender i) [] else []) ++ locked (LkAppender i) [Append i ev]
  else [].

(** The body of a loop for the appender [i]. *)
Definition element (k : loop) (i : nat) : list instr :=
  match k with
  | LLog ev => appender_log i ev
  | LFmt => [Acquire (LkAppender i); Inherit i]
  | LYaml => locked (LkAppender i) []
  | LCopy => []
  end.

Definition member_body (p : nat) (m : member) : list instr :=
  match m with
  | log ev => log_call p ev
  | addAppender i => locked (LkLogger p) [Acquire (LkAppender i); Inherit i; PushBack p i]
  | delAppender i => locked (LkLogger p) [Erase p i]
  | clearAppenders => [Clear p]
  | getAppenders => [Begin LCopy p]
  | setFormatter err => locked (LkLogger p) (if err then [] else [Begin LFmt p])
  | getFormatter => locked (LkLogger p) []
  | toYamlString => locked (LkLogger p) [Begin LYaml p]
  end.

Definition body (c : call) : list instr :=
  match c with
  | on p m => member_body p m
  | by_name name m => locked LkManager [FindOrCreate name (Some m)]
  | getLogger name => locked LkManager [FindOrCreate name None]
  | manager_toYamlString => locked LkManager [YamlMgr]
  | appender_setFormatter i => locked (LkAppender i) [SetFmt i]
  | appender_getFormatter i | appender_reopen i => locked (LkAppender i) []
  end.

(** [m_root] of a logger is null or the manager's root logger; the nodes
    of [m_appenders] are an address and the appender. *)
Record logger := mkLogger { m_appenders : list node; has_root : bool }.
Record thread := mkThread { code : list instr; todo : list call }.

Record state := mk {
  owners : gmap lockid nat;
  loggers : gmap nat logger;
  m_loggers : list (string * nat);
  next : nat;
  formatted : gset nat;
  threads : list thread;
  written : list (nat * nat * E);
  undefined : bool;
}.

Definition goto (t : nat) (c : list instr) (cs : list call) (s : state) : state :=
  mk (owners s) (loggers s) (m_loggers s) (next s) (formatted s) (<[t := mkThread c cs]> (threads s)) (written s)
    (undefined s).
Definition with_owners (f : gmap lockid nat → gmap lockid nat) (s : state) : state :=
  mk (f (owners s)) (loggers s) (m_loggers s) (next s) (formatted s) (threads s) (written s) (undefined s).
(** A change of the list of one logger; [next] is the address of a new
    node. *)
Definition with_appenders (p : nat) (f : list node → list node) (s : state) : option state :=
  l ← loggers s !! p;
  Some (mk (owners s) (<[p := mkLogger (f (m_appenders l)) (has_root l)]> (loggers s)) (m_loggers s) (S (next s))
    (formatted s) (threads s) (written s) (undefined s)).
Definition with_logger (name : string) (s : state) : state :=
  mk (owners s) (<[next s := mkLogger [] true]> (loggers s)) (smap_set name (next s) (m_loggers s)) (S (next s))
    (formatted s) (threads s) (written s) (undefined s).
Definition crash (s : state) : state :=
  mk (owners s) (loggers s) (m_loggers s) (next s) (formatted s) (threads s) (written s) true.

(** [m_appenders.erase(it)] at the first node that holds the appender. *)
Fixpoint erase_node (i : nat) (l : list node) : list node :=
  match l with [] => [] | n :: l => if decide (n.2 = i) then l else n :: erase_node i l end.

(** One instruction of thread [t], which goes on with [c] and the calls
    [cs]; [None] if the mutex is taken. *)
Definition exec (t : nat) (i : instr) (c : list instr) (cs : list call) (s : state) : option state :=
  match i with
  | Acquire l =>
      match owners s !! l with
      | None => Some (goto t c cs (with_owners (<[l := t]>) s))
      | Some _ => None
      end
  | Release l =>
      if decide (owners s !! l = Some t) then Some (goto t c cs (with_owners (delete l) s)) else None
  | LogBody p ev =>
      l ← loggers s !! p;
      Some (goto t (match m_appenders l with
        | [] => if has_root l then log_call root ev else []
        | _ => [Begin (LLog ev) p]
        end ++ c) cs s)
  | Begin k p => l ← loggers s !! p; Some (goto t (Loop k p (m_appenders l) :: c) cs s)
  | Loop k p [] => Some (goto t c cs s)
  | Loop k p (n :: it) =>
      l ← loggers s !! p;
      if decide (n :: it `suffix_of` m_appenders l)
      then Some (goto t (element k n.2 ++ Next k p (n :: it) :: c) cs s) else Some (crash s)
  | Next k p it =>
      l ← loggers s !! p;
      if decide (it `suffix_of` m_appenders l) then Some (goto t (Loop k p (tail it) :: c) cs s) else Some (crash s)
  | Append i ev => Some (goto t c cs (mk (owners s) (loggers s) (m_loggers s) (next s) (formatted s) (threads s)
      (written s ++ [(t, i, ev)]) (undefined s)))
  | PushBack p i => s' ← with_appenders p (λ l, l ++ [(next s, i)]) s; Some (goto t c cs s')
  | Erase p i => s' ← with_appenders p (erase_node i) s; Some (goto t c cs s')
  | Clear p => s' ← with_appenders p (λ _, []) s; Some (goto t c cs s')
  | Inherit i =>
      Some (goto t ((if decide (i ∈ formatted s) then [Release (LkAppender i)]
        else Release (LkAppender i) :: locked (LkAppender i) [SetFmt i]) ++ c) cs s)
  | SetFmt i => Some (goto t c cs (mk (owners s) (loggers s) (m_loggers s) (next s) ({[i]} ∪ formatted s) (threads s)
      (written s) (undefined s)))
  | FindOrCreate name k =>
      let call_on p := match k with Some m => member_body p m | None => [] end in
      match smap_find name (m_loggers s) with
      | Some p => Some (goto t (c ++ call_on p) cs s)
      | None => Some (goto t (c ++ call_on (next s)) cs (with_logger name s))
      end
  | YamlMgr => Some (goto t (YamlMgrLoop (m_loggers s).*2 :: c) cs s)
  | YamlMgrLoop [] => Some (goto t c cs s)
  | YamlMgrLoop (p :: it) =>
      if decide (p :: it `suffix_of` (m_loggers s).*2)
      then Some (goto t (locked (LkLogger p) [Begin LYaml p] ++ YamlMgrNext (p :: it) :: c) cs s) else Some (crash s)
  | YamlMgrNext it =>
      if decide (it `suffix_of` (m_loggers s).*2) then Some (goto t (YamlMgrLoop (tail it) :: c) cs s)
      else Some (crash s)
  end.

Definition tstep (t : nat) (s : state) : option state :=
  if undefined s then None else
  th ← threads s !! t;
  match code th with
  | [] => match todo th with [] => None | c :: cs => Some (goto t (body c) cs s) end
  | i :: c => exec t i c (todo th) s
  end.

Definition step (s s' : state) : Prop := ∃ t, tstep t s = Some s'.
Definition reach : state → state → Prop := rtc step.

Fixpoint run (sched : list nat) (s : state) : option state :=
  match sched with [] => Some s | t :: sched => s ← tstep t s; run sched s end.

Definition finished (s : state) : Prop := Forall (λ th, th = mkThread [] []) (threads s).

(** Threads that start when the manager and some loggers exist. *)
Definition init (ls : gmap nat logger) (names : list (string * nat)) (next : nat) (fmt : gset nat)
    (progs : list (list call)) : state :=
  mk ∅ ls names next fmt (mkThread [] <$> progs) [] false.

(** ** The order of the locks *)
Implicit Types (s : state) (t : nat) (c : list instr) (D : gset nat).

Definition rank (l : lockid) : nat :=
  match l with
  | LkManager => 0
  | LkLogger p => if decide (p = root) then 2 else 1
  | LkAppender _ => 3
  end.

Definition below (n : nat) (held : list lockid) : Prop := Forall (λ h, rank h < n) held.

(** The lock under which the container of a running loop is stable. *)
Definition loop_lock (i : instr) : option lockid :=
  match i with
  | Loop LCopy _ _ | Next LCopy _ _ => None
  | Loop _ p _ | Next _ p _ => Some (LkLogger p)
  | YamlMgrLoop _ | YamlMgrNext _ => Some LkManager
  | _ => None
  end.
Definition no_loop (l : lockid) c : Prop := Forall (λ i, loop_lock i ≠ Some l) c.
Definition plain c : Prop := Forall (λ i, loop_lock i = None) c.

Definition loop_held (k : loop) (p : nat) (held : list lockid) : Prop :=
  match k with LCopy => True | _ => LkLogger p ∈ held ∧ below 3 held end.

(** [ok D held c]: running [c] with the locks [held] acquires each lock
    above those held, releases them in the reverse order, touches an object
    only under its lock (but for [Clear] and the loop of [getAppenders]),
    does not change a container while it runs a loop over it, and uses
    loggers of [D] only. *)
Fixpoint ok D (held : list lockid) c : Prop :=
  match c with
  | [] => held = []
  | i :: c =>
    match i with
    | Acquire l => below (rank l) held ∧ no_loop l c ∧ ok D (l :: held) c
    | Release l => ∃ h, held = l :: h ∧ ok D h c
    | LogBody p _ => (LkLogger p ∈ held ∧ below (S (rank (LkLogger p))) held ∧ p ∈ D) ∧ ok D held c
    | Begin k p | Loop k p _ | Next k p _ => (loop_held k p held ∧ p ∈ D) ∧ ok D held c
    | Append i _ | SetFmt i => LkAppender i ∈ held ∧ ok D held c
    | PushBack p _ | Erase p _ => (LkLogger p ∈ held ∧ p ∈ D ∧ no_loop (LkLogger p) c) ∧ ok D held c
    | Clear p => p ∈ D ∧ ok D held c
    | Inherit i => ∃ h, held = LkAppender i :: h ∧ below 3 h ∧ ok D h c
    | FindOrCreate _ _ => (LkManager ∈ held ∧ no_loop LkManager c) ∧ ok D held c
    | YamlMgr => (LkManager ∈ held ∧ below 1 held) ∧ ok D held c
    | YamlMgrLoop l | YamlMgrNext l => (LkManager ∈ held ∧ below 1 held ∧ Forall (.∈ D) l) ∧ ok D held c
    end
  end.

Definition call_ok D (x : call) : Prop := match x with on p _ => p ∈ D | _ => True end.

Lemma below_mono n m held : n ≤ m → below n held → below m held.
Proof. intros Hle Hb. eapply Forall_impl; [done|]. simpl. lia. Qed.

Lemma below_cons n l held : rank l < n → below n held → below n (l :: held).
Proof. by constructor. Qed.

Lemma below_not_in l held : below (rank l) held → l ∉ held.
Proof. unfold below. rewrite Forall_forall. intros Hb Hin. specialize (Hb l Hin). lia. Qed.

Lemma rank_logger p : 1 ≤ rank (LkLogger p) ≤ 2.
Proof. simpl. case_decide; lia. Qed.

Lemma loop_held_mono k p held h : loop_held k p held → (∀ l, l ∈ held → l ∈ h) → below 3 h → loop_held k p h.
Proof. destruct k; simpl; intuition. Qed.

Lemma ok_mono D D' held c : D ⊆ D' → ok D held c → ok D' held c.
Proof.
  intros Hsub. revert held. induction c as [|i c IH]; intros held; [done|].
  assert (∀ l, Forall (.∈ D) l → Forall (.∈ D') l) as HD.
  { intros l Hl. eapply Forall_impl; [done|]. intros p. apply Hsub. }
  destruct i; simpl; try (by intuition eauto); intros (h & -> & Hh); intuition eauto.
Qed.

(** The locks of the loops a thread is in are held. *)
Lemma ok_loops D held c i l : ok D held c → i ∈ c → loop_lock i = Some l → l ∈ held.
Proof.
  revert held. induction c as [|j c IH]; intros held Hok Hin Hl; [by apply elem_of_nil in Hin|].
  apply elem_of_cons in Hin as [->|Hin].
  - destruct j as [| | | |[]|[]| | | | | | | | | |]; simplify_eq/=; intuition.
  - destruct j; simpl in Hok; try (by apply IH; intuition).
    + destruct Hok as (_ & Hno & Hok). specialize (IH _ Hok Hin Hl). apply elem_of_cons in IH as [->|IH]; [|done].
      unfold no_loop in Hno. rewrite Forall_forall in Hno. by destruct (Hno i Hin).
    + destruct Hok as (h & -> & Hok). right. by apply IH.
    + destruct Hok as (h & -> & _ & Hok). right. by apply IH.
Qed.

Lemma ok_no_loop D held c l : ok D held c → l ∉ held → no_loop l c.
Proof. intros Hok Hl. apply Forall_forall. intros i Hi E'. by eapply Hl, ok_loops. Qed.

Lemma plain_no_loop l c : plain c → no_loop l c.
Proof. intros Hp. eapply Forall_impl; [done|]. simpl. congruence. Qed.

(** A locked block inside others. *)
Lemma ok_locked D held l b c : below (rank l) held → plain b → ok D held c →
  (∀ c', ok D held c' → ok D (l :: held) (b ++ Release l :: c')) → ok D held (locked l b ++ c).
Proof.
  intros Hb Hp Hc Hok. unfold locked. cbn [app ok]. rewrite <-app_assoc. split_and!; [done| |by apply Hok].
  apply Forall_app. split; [by apply plain_no_loop|]. constructor; [done|].
  by eapply ok_no_loop, below_not_in.
Qed.

Lemma ok_release D held l c : ok D held c → ok D (l :: held) (Release l :: c).
Proof. simpl. eauto. Qed.

(** A call whose result is used by a second one. *)
Lemma ok_app D held c b : ok D held c → ok D [] b → plain b → ok D held (c ++ b).
Proof.
  intros Hc Hb Hp. revert held Hc. induction c as [|i c IH]; intros held; simpl; [by intros ->|].
  assert (∀ l, no_loop l c → no_loop l (c ++ b)) as Hno.
  { intros l Hl. apply Forall_app. split; [done|by apply plain_no_loop]. }
  destruct i; try (by intuition); intros (h & -> & Hh); intuition eauto.
Qed.

Lemma plain_member p m : plain (member_body p m).
Proof.
  destruct m as [ev| | | | |[]| |]; simpl; [unfold log_call; destruct (logger_admits p ev)|..]; repeat constructor.
Qed.

Lemma plain_element k i : plain (element k i).
Proof.
  destruct k as [ev| | |]; simpl; [|repeat constructor..]. unfold appender_log.
  destruct (appender_admits i ev), (reopens i ev); repeat constructor.
Qed.

Lemma ok_log_call D held p ev c : below (rank (LkLogger p)) held → p ∈ D → ok D held c →
  ok D held (log_call p ev ++ c).
Proof.
  intros Hb Hp Hc. unfold log_call. destruct (logger_admits p ev); [|done].
  apply ok_locked; [done|repeat constructor|done|]. intros c' Hc'. cbn [app ok]. split; [|by eauto].
  split_and!; [by left| |done]. apply below_cons; [lia|]. by eapply below_mono; [|done]; lia.
Qed.

(** The other locked sections, which end where they started. *)
Lemma ok_section D held l b c : below (rank l) held → plain b → ok D held c →
  (∀ c', ok D (l :: held) c' → ok D (l :: held) (b ++ c')) → ok D held (locked l b ++ c).
Proof. intros Hb Hp Hc Hok. apply ok_locked; [done..|]. intros c' Hc'. by apply Hok, ok_release. Qed.

Lemma ok_appender_log D held i ev c : below 3 held → ok D held c → ok D held (appender_log i ev ++ c).
Proof.
  intros Hb Hc. unfold appender_log. destruct (appender_admits i ev); [|done]. rewrite <-app_assoc.
  assert (ok D held (locked (LkAppender i) [Append i ev] ++ c)) as Hok.
  { apply ok_section; [done|repeat constructor|done|]. intros c' Hc'. cbn [app ok]. split; [by left|done]. }
  destruct (reopens i ev); [|done]. by apply ok_section; [|repeat constructor|..].
Qed.

(** [Acquire i; Inherit i] leaves the locks as they were. *)
Lemma ok_inherit D held i c : below 3 held → ok D held c → ok D held ([Acquire (LkAppender i); Inherit i] ++ c).
Proof.
  intros Hb Hc. cbn [app ok]. split_and!; [done| |by eauto]. constructor; [done|].
  eapply ok_no_loop, below_not_in; [done|]. done.
Qed.

Lemma ok_element D held k p i c : loop_held k p held → ok D held c → ok D held (element k i ++ c).
Proof.
  intros Hk Hc. destruct k; simpl in Hk.
  - apply ok_appender_log; [apply Hk|done].
  - apply ok_inherit; [apply Hk|done].
  - apply ok_section; [apply Hk|repeat constructor|done|done].
  - done.
Qed.

(** A section of a logger, at the top level of a call or under the
    manager's lock. *)
Lemma ok_logger_section D held p b c : below 1 held → plain b → ok D held c →
  (∀ c', LkLogger p ∈ LkLogger p :: held → below 3 (LkLogger p :: held) → no_loop (LkLogger p) c' →
     ok D (LkLogger p :: held) c' → ok D (LkLogger p :: held) (b ++ c')) →
  ok D held (locked (LkLogger p) b ++ c).
Proof.
  intros Hb Hp Hc Hok. pose proof (rank_logger p).
  assert (below (rank (LkLogger p)) held) as Hb' by (eapply below_mono; [|done]; lia).
  apply ok_locked; [done..|]. intros c' Hc'. apply Hok; [by left| | |by apply ok_release].
  - apply below_cons; [lia|]. eapply below_mono; [|done]. lia.
  - constructor; [done|]. by eapply ok_no_loop, below_not_in.
Qed.

Lemma ok_begin D held k p c : k ≠ LCopy → LkLogger p ∈ held → below 3 held → p ∈ D → ok D held c →
  ok D held ([Begin k p] ++ c).
Proof. intros Hk Hl Hb Hp Hc. cbn [app ok]. split; [|done]. split; [|done]. by destruct k. Qed.

Lemma ok_member D p m : p ∈ D → ok D [] (member_body p m).
Proof.
  intros Hp. rewrite <-(app_nil_r (member_body p m)). assert (below 1 []) as Hb by constructor.
  pose proof (plain_member p m) as Hpl. destruct m as [ev|i|i| | |err| |]; cbn [member_body] in *.
  - by apply ok_log_call; [constructor|..].
  - apply ok_logger_section; [done|repeat constructor|done|]. intros c' Hl Hb3 Hno Hc'.
    change ([Acquire (LkAppender i); Inherit i; PushBack p i] ++ c')
      with ([Acquire (LkAppender i); Inherit i] ++ PushBack p i :: c').
    apply ok_inherit; [done|]. by cbn [ok].
  - apply ok_logger_section; [done|repeat constructor|done|]. intros c' Hl Hb3 Hno Hc'. by cbn [app ok].
  - by cbn [app ok].
  - by cbn [app ok].
  - apply ok_logger_section; [done|destruct err; repeat constructor|done|]. intros c' Hl Hb3 Hno Hc'.
    destruct err; [done|by apply ok_begin].
  - by apply ok_logger_section; [|repeat constructor|..].
  - apply ok_logger_section; [done|repeat constructor|done|]. intros c' Hl Hb3 Hno Hc'. by apply ok_begin.
Qed.

Lemma ok_body D x : call_ok D x → ok D [] (body x).
Proof.
  intros Hx. destruct x; simpl in Hx; cbn [body]; [by apply ok_member|..]; rewrite <-(app_nil_r (locked _ _)).
  1-2: apply ok_locked; [constructor|repeat constructor|done|]; intros c' Hc'; cbn [app ok];
    split; [|by eauto]; split; [by left|]; constructor; [done|]; by eapply ok_no_loop, not_elem_of_nil.
  1: apply ok_section; [constructor|repeat constructor|done|]; intros c' Hc'; cbn [app ok]; split; [|done];
    split; [by left|]; apply below_cons; [simpl; lia|constructor].
  all: apply ok_section; [constructor|repeat constructor|done|]; intros c' Hc'; cbn [app ok]; first [done|split; [by left|done]].
Qed.

(** ** The invariant *)
Fixpoint ordered (held : list lockid) : Prop :=
  match held with [] => True | l :: h => below (rank l) h ∧ ordered h end.

Lemma ordered_head l h : ordered (l :: h) → l ∉ h.
Proof. intros [Hb _]. by apply below_not_in. Qed.

Notation dom_of s := (dom (loggers s)).

Record shared_ok s : Prop := {
  so_root : ∃ l, loggers s !! root = Some l ∧ has_root l = false;
  so_next p : p ∈ dom_of s → p < next s;
  so_names : Forall (.∈ dom_of s) (m_loggers s).*2;
  so_sorted : sset_sorted fst (m_loggers s);
}.

(** Thread [t] holds the locks [held] and can go on with [c]. *)
Definition holds s t (held : list lockid) : Prop := ordered held ∧ ∀ l, owners s !! l = Some t ↔ l ∈ held.

Record log_inv s : Prop := {
  li_shared : shared_ok s;
  li_owner l t : owners s !! l = Some t → is_Some (threads s !! t);
  li_thread t th : threads s !! t = Some th → Forall (call_ok (dom_of s)) (todo th) ∧
    ∃ held, holds s t held ∧ ok (dom_of s) held (code th);
}.

(** What an instruction of thread [t] does. *)
Record executed t (cs : list call) s s' : Prop := {
  ex_shared : shared_ok s';
  ex_dom : dom_of s ⊆ dom_of s';
  ex_others u l : u ≠ t → owners s' !! l = Some u ↔ owners s !! l = Some u;
  ex_code : ∃ c' held', threads s' = <[t := mkThread c' cs]> (threads s) ∧ holds s' t held' ∧ ok (dom_of s') held' c';
}.

Lemma call_ok_mono D D' x : D ⊆ D' → call_ok D x → call_ok D' x.
Proof. intros Hsub. destruct x; simpl; auto. Qed.

Lemma executed_inv t th cs s s' : log_inv s → threads s !! t = Some th →
  (∀ x, x ∈ cs → x ∈ todo th) → executed t cs s s' → log_inv s'.
Proof.
  intros [Hsh Ho Hth] Ht Hcs [Hsh' Hdom Hoth (c' & held' & Hths & Hheld & Hok)].
  split; [done| |].
  - intros l u Hl. rewrite Hths. destruct (decide (u = t)) as [->|Hne].
    + rewrite list_lookup_insert_eq by (by eapply lookup_lt_Some). by eexists.
    + rewrite list_lookup_insert_ne by done. apply (Ho l). by apply Hoth.
  - intros u thu Hu. rewrite Hths in Hu. destruct (decide (u = t)) as [->|Hne].
    + rewrite list_lookup_insert_eq in Hu by (by eapply lookup_lt_Some). injection Hu as <-. simpl.
      split; [|by exists held']. destruct (Hth t th Ht) as [Htodo _]. rewrite Forall_forall in Htodo.
      apply Forall_forall. intros x Hx. eapply call_ok_mono; [done|auto].
    + rewrite list_lookup_insert_ne in Hu by done. destruct (Hth u thu Hu) as [Htodo (h & [Hord Hh] & Hc)]. split.
      * eapply Forall_impl; [done|]. intros x. by apply call_ok_mono.
      * exists h. split; [split; [done|]|by eapply ok_mono]. intros l. by rewrite Hoth.
Qed.

(** Instructions that only change the thread's code, and undefined ones,
    which change nothing else. *)
Lemma executed_goto t c cs held s : shared_ok s → holds s t held → ok (dom_of s) held c →
  executed t cs s (goto t c cs s).
Proof. intros Hsh Hh Hok. split; [by destruct Hsh|done|done|]. by exists c, held. Qed.

Lemma executed_crash t th c held s : threads s !! t = Some th → code th = c → shared_ok s → holds s t held →
  ok (dom_of s) held c → executed t (todo th) s (crash s).
Proof.
  intros Ht <- Hsh Hh Hok. split; [by destruct Hsh|done|done|]. exists (code th), held. split_and!; [|done..].
  simpl. symmetry. apply list_insert_id. by destruct th.
Qed.

(** Changes of the shared data that keep the lock table. *)
Lemma executed_data t c cs held s s1 : shared_ok s1 → dom_of s ⊆ dom_of s1 → owners s1 = owners s →
  threads s1 = threads s → holds s t held → ok (dom_of s1) held c → executed t cs s (goto t c cs s1).
Proof.
  intros Hsh Hdom Ho Hth [Hord Hh] Hok. split; [by destruct Hsh|done|by simpl; rewrite Ho|].
  exists c, held. simpl. rewrite Hth. split_and!; [done| |done]. split; [done|]. simpl. by rewrite Ho.
Qed.

Lemma with_appenders_ok p f s s1 : shared_ok s → with_appenders p f s = Some s1 →
  shared_ok s1 ∧ dom_of s1 = dom_of s ∧ owners s1 = owners s ∧ threads s1 = threads s.
Proof.
  intros [(lr & Hr & Hroot) Hn Hna Hso]. unfold with_appenders. intros (l & Hl & [= <-])%bind_Some.
  assert (dom (<[p := mkLogger (f (m_appenders l)) (has_root l)]> (loggers s)) = dom_of s) as Hdom.
  { rewrite dom_insert_L. apply elem_of_dom_2 in Hl. set_solver. }
  split_and!; [|done..]. split; simpl; rewrite ?Hdom; [|intros q Hq%Hn; lia|done..].
  destruct (decide (p = root)) as [->|Hne].
  - exists (mkLogger (f (m_appenders l)) (has_root l)). rewrite lookup_insert_eq. split; [done|].
    simpl. congruence.
  - exists lr. by rewrite lookup_insert_ne.
Qed.

Lemma with_logger_ok name s : shared_ok s → shared_ok (with_logger name s).
Proof.
  intros [(lr & Hr & Hroot) Hn Hna Hso]. split; simpl; rewrite ?dom_insert_L.
  - pose proof (Hn root (elem_of_dom_2 _ _ _ Hr)) as Hlt. exists lr. rewrite lookup_insert_ne by lia. done.
  - intros p [->%elem_of_singleton|Hp%Hn]%elem_of_union; lia.
  - rewrite Forall_forall in Hna. apply Forall_forall. intros p ([k q] & -> & Hin)%list_elem_of_fmap.
    apply smap_set_elem in Hin as [[= -> ->]|Hin]; [set_solver|].
    apply elem_of_union_r, Hna, list_elem_of_fmap. by exists (k, q).
  - by apply smap_set_sorted.
Qed.

Lemma exec_acquire t l c cs held s : shared_ok s → holds s t held → ok (dom_of s) held (Acquire l :: c) →
  owners s !! l = None → executed t cs s (goto t c cs (with_owners (<[l := t]>) s)).
Proof.
  intros Hsh [Hord Hh] (Hb & _ & Hok) Hl. split; [by destruct Hsh|done| |].
  - intros u k Hne. simpl. destruct (decide (k = l)) as [->|Hk]; [|by rewrite lookup_insert_ne].
    rewrite lookup_insert_eq, Hl. split; congruence.
  - exists c, (l :: held). split_and!; [done| |done]. split; [done|]. intros k. simpl. rewrite elem_of_cons.
    destruct (decide (k = l)) as [->|Hk]; [by rewrite lookup_insert_eq; intuition|].
    rewrite lookup_insert_ne by done. rewrite Hh. intuition.
Qed.

Lemma exec_release t l c cs held s : shared_ok s → holds s t held → ok (dom_of s) held (Release l :: c) →
  executed t cs s (goto t c cs (with_owners (delete l) s)).
Proof.
  intros Hsh [Hord Hh] (h & -> & Hok). pose proof (ordered_head l h Hord) as Hnot.
  assert (owners s !! l = Some t) as Hl by (apply Hh; by left).
  split; [by destruct Hsh|done| |].
  - intros u k Hne. simpl. destruct (decide (k = l)) as [->|Hk]; [|by rewrite lookup_delete_ne].
    rewrite lookup_delete_eq, Hl. split; congruence.
  - exists c, h. split_and!; [done| |done]. split; [apply Hord|]. intros k. simpl.
    destruct (decide (k = l)) as [->|Hk]; [by rewrite lookup_delete_eq|].
    rewrite lookup_delete_ne by done. rewrite Hh, elem_of_cons. intuition.
Qed.

Lemma exec_appenders t p f c cs held s s1 : shared_ok s → holds s t held → ok (dom_of s) held c →
  with_appenders p f s = Some s1 → executed t cs s (goto t c cs s1).
Proof.
  intros Hsh Hh Hok Hs1. apply with_appenders_ok in Hs1 as (Hsh1 & Hd & Ho & Ht); [|done].
  by eapply (executed_data _ _ _ held); rewrite ?Hd.
Qed.

(** [Logger::log] goes to the appenders, or to the root logger, whose lock
    is above that of any other logger. *)
Lemma exec_log_body p ev c held l s : shared_ok s → ok (dom_of s) held (LogBody p ev :: c) →
  loggers s !! p = Some l → ok (dom_of s) held (match m_appenders l with
    | [] => if has_root l then log_call root ev else []
    | _ => [Begin (LLog ev) p]
    end ++ c).
Proof.
  intros Hsh [(Hin & Hb & Hp) Hok] Hl. destruct (m_appenders l) as [|i aps].
  - destruct (has_root l) eqn:Hr; [|done]. destruct (so_root s Hsh) as (lr & Hlr & Hroot).
    assert (p ≠ root) as Hne by congruence.
    apply ok_log_call; [|by apply elem_of_dom_2 in Hlr|done].
    simpl in Hb |- *. rewrite decide_False in Hb by done. by rewrite decide_True.
  - pose proof (rank_logger p). apply ok_begin; try done. by eapply below_mono; [|done]; lia.
Qed.

(** [getLogger], and the call of a member function of its result. *)
Lemma exec_find t name k c cs held s s' : shared_ok s → holds s t held → ok (dom_of s) held c →
  exec t (FindOrCreate name k) c cs s = Some s' → executed t cs s s'.
Proof.
  intros Hsh Hh Hok Hx. cbn [exec] in Hx.
  assert (∀ D p, p ∈ D → ok D held c → ok D held (c ++ match k with Some m => member_body p m | None => [] end)) as Happ.
  { intros D p Hp Hc. destruct k as [m|]; [|by rewrite app_nil_r].
    apply ok_app; [done|by apply ok_member|apply plain_member]. }
  destruct (smap_find name (m_loggers s)) as [p|] eqn:Hf; injection Hx as <-.
  - eapply executed_goto; [done..|]. apply Happ; [|done]. pose proof (so_names s Hsh) as Hn.
    rewrite Forall_forall in Hn. apply Hn, list_elem_of_fmap. exists (name, p). split; [done|].
    by apply smap_find_Some.
  - assert (dom_of s ⊆ dom_of (with_logger name s)) as Hd by (simpl; rewrite dom_insert_L; set_solver).
    eapply (executed_data _ _ _ held); [by apply with_logger_ok|done..|].
    apply Happ; [|by eapply ok_mono]. simpl. rewrite dom_insert_L. set_solver.
Qed.

(** The steps of the loops. *)
Lemma exec_loop t k p it c cs held s s' : shared_ok s → holds s t held → ok (dom_of s) held (Loop k p it :: c) →
  exec t (Loop k p it) c cs s = Some s' → s' = crash s ∨ executed t cs s s'.
Proof.
  intros Hsh Hh [[Hk Hp] Hok] Hx. destruct it as [|n it]; cbn [exec] in Hx.
  { injection Hx as <-. right. by eapply executed_goto. }
  apply bind_Some in Hx as (l & Hl & Hx). case_decide; injection Hx as <-; [right|by left].
  eapply executed_goto; [done..|]. eapply ok_element; [done|]. by cbn [ok].
Qed.

Lemma exec_manager_loop t it c cs held s s' : shared_ok s → holds s t held →
  ok (dom_of s) held (YamlMgrLoop it :: c) → exec t (YamlMgrLoop it) c cs s = Some s' →
  s' = crash s ∨ executed t cs s s'.
Proof.
  intros Hsh Hh [(Hm & Hb & Hd) Hok] Hx. destruct it as [|p it]; cbn [exec] in Hx.
  { injection Hx as <-. right. by eapply executed_goto. }
  case_decide; injection Hx as <-; [right|by left]. eapply executed_goto; [done..|].
  pose proof Hd as [Hp _]%Forall_cons.
  apply (ok_logger_section _ _ p [Begin LYaml p] (YamlMgrNext (p :: it) :: c)); [done|repeat constructor|by cbn [ok]|].
  intros c' Hl Hb3 _ Hc'. by apply ok_begin.
Qed.

Lemma exec_ok t i c cs held s s' : shared_ok s → holds s t held → ok (dom_of s) held (i :: c) →
  exec t i c cs s = Some s' → s' = crash s ∨ executed t cs s s'.
Proof.
  intros Hsh Hh Hok Hx.
  destruct i as [l|l|p ev|k p|k p it|k p it|i ev|p i|p i|p|i|i|name k| |it|it]; cbn [exec ok] in *.
  - destruct (owners s !! l) eqn:Hl; [done|]. injection Hx as <-. right. by eapply exec_acquire.
  - case_decide; [|done]. injection Hx as <-. right. by eapply exec_release.
  - apply bind_Some in Hx as (l & Hl & [= <-]). right. eapply executed_goto; [done..|]. by eapply exec_log_body.
  - apply bind_Some in Hx as (l & Hl & [= <-]). right. eapply executed_goto; [done..|]. by cbn [ok].
  - by eapply exec_loop.
  - destruct Hok as [Hp Hok]. apply bind_Some in Hx as (l & Hl & Hx). case_decide; injection Hx as <-; [right|by left].
    eapply executed_goto; [done..|]. by cbn [ok].
  - injection Hx as <-. destruct Hok as [_ Hok]. right. by eapply (executed_data _ _ _ held); [destruct Hsh|..].
  - destruct Hok as [_ Hok]. apply bind_Some in Hx as (s1 & Hs1 & [= <-]). right. by eapply exec_appenders.
  - destruct Hok as [_ Hok]. apply bind_Some in Hx as (s1 & Hs1 & [= <-]). right. by eapply exec_appenders.
  - destruct Hok as [_ Hok]. apply bind_Some in Hx as (s1 & Hs1 & [= <-]). right. by eapply exec_appenders.
  - destruct Hok as (h & -> & Hb & Hok). injection Hx as <-. right. eapply executed_goto; [done..|].
    case_decide; [exact (ok_release _ h _ c Hok)|].
    apply (ok_release _ h _ (locked (LkAppender i) [SetFmt i] ++ c)), ok_section; [done|repeat constructor|done|].
    intros c' Hc'. cbn [app ok]. split; [by left|done].
  - injection Hx as <-. destruct Hok as [_ Hok]. right. by eapply (executed_data _ _ _ held); [destruct Hsh|..].
  - destruct Hok as [_ Hok]. right. exact (exec_find t name k c cs held s s' Hsh Hh Hok Hx).
  - destruct Hok as ((Hm & Hb) & Hok). injection Hx as <-. right. eapply executed_goto; [done..|].
    cbn [ok]. split; [|done]. split_and!; [done..|]. apply Hsh.
  - by eapply exec_manager_loop.
  - destruct Hok as ((Hm & Hb & Hd) & Hok). case_decide; injection Hx as <-; [right|by left].
    eapply executed_goto; [done..|]. cbn [ok]. split; [|done]. split_and!; [done..|]. destruct it; [done|].
    by apply Forall_cons in Hd as [_ Hd].
Qed.

Lemma log_inv_step s s' : step s s' → log_inv s → log_inv s'.
Proof.
  intros [t Ht] Hi. unfold tstep in Ht. destruct (undefined s); [done|]. apply bind_Some in Ht as (th & Hth & Hs).
  destruct (li_thread s Hi t th Hth) as (Htodo & held & Hh & Hok).
  destruct (code th) as [|i c] eqn:Hc.
  - destruct (todo th) as [|x cs] eqn:Hcs; [done|]. injection Hs as <-. simpl in Hok. subst held.
    apply Forall_cons in Htodo as [Hx _].
    apply (executed_inv t th cs s); [done..| |].
    + intros y Hy. rewrite Hcs. by right.
    + eapply executed_goto; [apply Hi|done|]. by apply ok_body.
  - eapply (executed_inv t th (todo th)); [done..| |]; [done|].
    destruct (exec_ok _ _ _ _ _ _ _ (li_shared s Hi) Hh Hok Hs) as [->|Hx]; [|done].
    eapply (executed_crash t th (i :: c) held); [done..|apply Hi|done|done].
Qed.

(** A name that is bound stays bound to the same logger. *)
Lemma names_exec t i c cs name p s s' : sset_sorted fst (m_loggers s) → exec t i c cs s = Some s' →
  smap_find name (m_loggers s) = Some p → smap_find name (m_loggers s') = Some p.
Proof.
  intros Hso Hx Hp. assert (∀ q f s1, with_appenders q f s = Some s1 → m_loggers s1 = m_loggers s) as Hw.
  { intros q f s1. unfold with_appenders. by intros (l & _ & [= <-])%bind_Some. }
  destruct i as [l|l|q ev|k q|k q it|k q it|i ev|q i|q i|q|i|i|nm k| |it|it]; cbn [exec] in Hx;
    try (destruct it); repeat case_match; simplify_eq/=; try done;
    try (apply bind_Some in Hx as (x & Hx0 & Hx); try case_decide; simplify_eq/=; try done; by rewrite (Hw _ _ _ Hx0)).
  all: rewrite smap_find_set_ne; [done|done|congruence].
Qed.

Lemma names_step name p s s' : log_inv s → step s s' → smap_find name (m_loggers s) = Some p →
  smap_find name (m_loggers s') = Some p.
Proof.
  intros Hi [t Ht] Hp. unfold tstep in Ht. destruct (undefined s); [done|]. apply bind_Some in Ht as (th & Hth & Hs).
  destruct (code th) as [|i c]; [destruct (todo th); by simplify_eq/=|].
  eapply names_exec; [apply Hi|done|done].
Qed.

Lemma names_reach name p s s' : log_inv s → reach s s' → smap_find name (m_loggers s) = Some p →
  smap_find name (m_loggers s') = Some p.
Proof.
  intros Hi Hr. revert Hi. unfold reach in Hr. induction Hr as [|s1 s2 s3 H12 _ IH]; [done|]. intros Hi Hp.
  apply IH; [by eapply log_inv_step|by eapply names_step].
Qed.

Lemma log_inv_init ls names nx fmt progs : shared_ok (init ls names nx fmt progs) →
  Forall (Forall (call_ok (dom ls))) progs → log_inv (init ls names nx fmt progs).
Proof.
  intros Hsh Hp. split; [done| |].
  - intros l t. simpl. by rewrite lookup_empty.
  - intros t th. simpl. intros (cs & -> & Hcs)%list_lookup_fmap_Some. split; [by eapply Forall_lookup_1 in Hp|].
    exists []. split; [|done]. split; [done|]. intros l. simpl. by rewrite lookup_empty, elem_of_nil.
Qed.

Lemma reach_log_inv s s' : reach s s' → log_inv s → log_inv s'.
Proof. unfold reach. induction 1; eauto using log_inv_step. Qed.

(** ** Programs that keep to the locked calls

    Without [clearAppenders] and [getAppenders], no iterator is ever
    invalid. *)
Definition locked_member (m : member) : Prop := m ≠ clearAppenders ∧ m ≠ getAppenders.
Definition locked_call (x : call) : Prop :=
  match x with on _ m | by_name _ m => locked_member m | _ => True end.

(** The iterator of a loop is valid; and there is no unlocked access. *)
Definition valid s (i : instr) : Prop :=
  match i with
  | Begin LCopy _ | Loop LCopy _ _ | Next LCopy _ _ | Clear _ => False
  | Loop _ p it | Next _ p it => ∃ l, loggers s !! p = Some l ∧ it `suffix_of` m_appenders l
  | YamlMgrLoop it | YamlMgrNext it => it `suffix_of` (m_loggers s).*2
  | FindOrCreate _ (Some m) => locked_member m
  | _ => True
  end.

Record loops_inv s : Prop := {
  lo_defined : undefined s = false;
  lo_thread t th : threads s !! t = Some th → Forall locked_call (todo th) ∧ Forall (valid s) (code th);
}.

(** What a lock protects is the same in two states. *)
Definition same (l : lockid) s s' : Prop :=
  match l with
  | LkManager => m_loggers s' = m_loggers s
  | LkLogger p => ∀ x, loggers s !! p = Some x → loggers s' !! p = Some x
  | LkAppender _ => True
  end.

Definition touched (i : instr) : option lockid :=
  match i with
  | PushBack p _ | Erase p _ => Some (LkLogger p)
  | FindOrCreate _ _ => Some LkManager
  | _ => None
  end.

Lemma valid_same s s' i : valid s i → (∀ l, loop_lock i = Some l → same l s s') → valid s' i.
Proof.
  intros Hv Hs. destruct i as [| | |[]|[]|[]| | | | | | |nm []| | |]; simpl in *; try done.
  1-6: destruct Hv as (l & Hl & Hit); exists l; split; [|done]; by apply (Hs _ eq_refl).
  all: by rewrite (Hs _ eq_refl).
Qed.

Lemma exec_same t i c cs s s' l : shared_ok s → valid s i → exec t i c cs s = Some s' → touched i ≠ Some l →
  same l s s'.
Proof.
  intros Hsh Hv Hx Hl.
  assert (∀ q f s1, with_appenders q f s = Some s1 → LkLogger q ≠ l → same l s s1) as Hw.
  { intros q f s1. unfold with_appenders. intros (x & _ & [= <-])%bind_Some Hq. destruct l as [|p|]; simpl; try done.
    intros y Hy. rewrite lookup_insert_ne; [done|congruence]. }
  assert (same l s s) as Hrefl by (destruct l; simpl; auto).
  assert (∀ s1 c' cs', same l s s1 → same l s (goto t c' cs' s1)) as Hgo by (destruct l; simpl; auto).
  destruct i as [k|k|q ev|k q|k q it|k q it|i ev|q i|q i|q|i|i|nm k| |it|it]; cbn [exec] in Hx;
    try (destruct it); repeat case_match; simplify_eq/=; try done; try (by apply Hgo);
    try (by apply Hgo; destruct l); try (by destruct l);
    try (apply bind_Some in Hx as (x & Hx0 & Hx); try case_decide; simplify_eq/=; try done;
      first [by apply Hgo|by destruct l|apply Hgo; eapply Hw; [done|congruence]]).
  all: apply Hgo; destruct l as [|p|]; simpl; try done; intros y Hy; rewrite lookup_insert_ne; [done|];
    apply elem_of_dom_2 in Hy; pose proof (so_next s Hsh p Hy); lia.
Qed.

Lemma valid_plain s c : plain c → Forall (λ i, match i with
    | Begin LCopy _ | Loop LCopy _ _ | Next LCopy _ _ | Clear _ | FindOrCreate _ _ => False | _ => True end) c →
  Forall (valid s) c.
Proof.
  intros Hp Hf. apply Forall_forall. intros i Hi. unfold plain in Hp. rewrite Forall_forall in Hp, Hf.
  specialize (Hp i Hi). specialize (Hf i Hi). destruct i as [| | |[]|[]|[]| | | | | | | | | |]; done.
Qed.

Lemma valid_member s p m : locked_member m → Forall (valid s) (member_body p m).
Proof.
  intros [H1 H2]. apply valid_plain; [apply plain_member|]. destruct m as [ev| | | | |[]| |]; simpl; try done;
    [unfold log_call; destruct (logger_admits p ev)|..]; repeat constructor.
Qed.

Lemma valid_element s k i : Forall (valid s) (element k i).
Proof.
  apply valid_plain; [apply plain_element|]. destruct k as [ev| | |]; simpl; [|repeat constructor..].
  unfold appender_log. destruct (appender_admits i ev), (reopens i ev); repeat constructor.
Qed.

Lemma valid_body s x : locked_call x → Forall (valid s) (body x).
Proof. intros Hx. destruct x; simpl; [by apply valid_member|..]; repeat constructor; apply Hx. Qed.

(** An instruction whose own iterator is valid is defined, and the code it
    leads to is valid if the rest of the thread's code stays so. *)
Lemma exec_valid t i c cs s s' : valid s i → exec t i c cs s = Some s' → undefined s = false → Forall (valid s') c →
  undefined s' = false ∧ ∃ c', threads s' = <[t := mkThread c' cs]> (threads s) ∧ Forall (valid s') c'.
Proof.
  intros Hv Hx Hun Hc.
  assert (∀ q f s1, with_appenders q f s = Some s1 → undefined s1 = false ∧ threads s1 = threads s) as Hw.
  { intros q f s1. unfold with_appenders. by intros (x & _ & [= <-])%bind_Some. }
  destruct i as [l|l|p ev|k p|k p it|k p it|i ev|p i|p i|p|i|i|name k| |it|it]; cbn [exec] in Hx.
  - destruct (owners s !! l); simplify_eq/=. eauto.
  - case_decide; simplify_eq/=. eauto.
  - apply bind_Some in Hx as (l & Hl & [= <-]). split; [done|]. eexists. split; [done|]. apply Forall_app.
    split; [|done]. destruct (m_appenders l); [|by constructor]. destruct (has_root l); [|done].
    unfold log_call. destruct (logger_admits root ev); repeat constructor.
  - apply bind_Some in Hx as (l & Hl & [= <-]). split; [done|]. eexists. split; [done|]. constructor; [|done].
    destruct k; simpl in *; try done; by exists l.
  - destruct it as [|n it]; [simplify_eq/=; eauto|]. apply bind_Some in Hx as (l & Hl & Hx).
    assert (n :: it `suffix_of` m_appenders l) as Hit by (destruct k; simpl in Hv; naive_solver).
    rewrite decide_True in Hx by done. simplify_eq/=. split; [done|]. eexists. split; [done|].
    apply Forall_app. split; [apply valid_element|]. constructor; [|done]. destruct k; simpl; try done; by exists l.
  - apply bind_Some in Hx as (l & Hl & Hx).
    assert (it `suffix_of` m_appenders l) as Hit by (destruct k; simpl in Hv; naive_solver).
    rewrite decide_True in Hx by done. simplify_eq/=. split; [done|]. eexists. split; [done|]. constructor; [|done].
    assert (tail it `suffix_of` m_appenders l) as Hit'.
    { destruct it as [|n it]; [done|]. simpl. by eapply suffix_cons_l. }
    destruct k; simpl; try done; by exists l.
  - simplify_eq/=. eauto.
  - apply bind_Some in Hx as (s1 & Hs1 & [= <-]). destruct (Hw _ _ _ Hs1) as [Hu Ht]. simpl. rewrite Ht. eauto.
  - apply bind_Some in Hx as (s1 & Hs1 & [= <-]). destruct (Hw _ _ _ Hs1) as [Hu Ht]. simpl. rewrite Ht. eauto.
  - done.
  - simplify_eq/=. split; [done|]. eexists. split; [done|]. apply Forall_app. split; [|done].
    case_decide; repeat constructor.
  - simplify_eq/=. eauto.
  - assert (∀ p s1, Forall (valid s1) (match k with Some m => member_body p m | None => [] end)) as Hk.
    { intros p s1. destruct k as [m|]; [by apply valid_member|done]. }
    destruct (smap_find name (m_loggers s)); simplify_eq/=; (split; [done|]; eexists; split; [done|]);
      apply Forall_app; (split; [done|apply Hk]).
  - simplify_eq/=. split; [done|]. eexists. split; [done|]. constructor; [simpl; reflexivity|done].
  - destruct it as [|p it]; [simplify_eq/=; eauto|]. rewrite decide_True in Hx by done. simplify_eq/=.
    split; [done|]. eexists. split; [done|]. repeat constructor; done.
  - rewrite decide_True in Hx by done. simplify_eq/=. split; [done|]. eexists. split; [done|]. constructor; [|done].
    simpl. destruct it as [|n it]; [done|]. by eapply suffix_cons_l.
Qed.

(** A thread has no running loop over what its next instruction changes. *)
Lemma ok_touched D held i c l : ok D held (i :: c) → touched i = Some l → l ∈ held ∧ no_loop l c.
Proof. intros Hok [=]. destruct i; simplify_eq/=; intuition. Qed.

Lemma loops_inv_step s s' : log_inv s → step s s' → loops_inv s → loops_inv s'.
Proof.
  intros Hi [t Ht] [Hun Hlo]. unfold tstep in Ht. rewrite Hun in Ht. apply bind_Some in Ht as (th & Hth & Hs).
  destruct (Hlo t th Hth) as [Htodo Hcode]. destruct (li_thread s Hi t th Hth) as (_ & held & [_ Hh] & Hok).
  destruct (code th) as [|i c] eqn:Hc.
  { destruct (todo th) as [|x cs]; [done|]. injection Hs as <-. apply Forall_cons in Htodo as [Hx Hcs].
    split; [done|]. simpl. intros u thu [(<- & [= <-] & _)|[_ Hu]]%list_lookup_insert_Some; [|by apply (Hlo u)].
    split; [done|by apply valid_body]. }
  apply Forall_cons in Hcode as [Hv Hcode].
  assert (∀ j l, loop_lock j = Some l → touched i ≠ Some l → same l s s') as Hsame.
  { intros j l _ Hl. eapply exec_same; [apply Hi|done..]. }
  assert (Forall (valid s') c) as Hc'.
  { rewrite Forall_forall in Hcode |- *. intros j Hj. apply (valid_same s); [by apply Hcode|].
    intros l Hl. apply (Hsame j); [done|]. intros E'. destruct (ok_touched _ _ _ _ _ Hok E') as [_ Hno].
    unfold no_loop in Hno. rewrite Forall_forall in Hno. by destruct (Hno j Hj). }
  destruct (exec_valid _ _ _ _ _ _ Hv Hs Hun Hc') as (Hun' & c' & Hths & Hcv).
  split; [done|]. intros u thu Hu. rewrite Hths in Hu.
  apply list_lookup_insert_Some in Hu as [(<- & [= <-] & _)|[Hne Hu]]; [done|].
  destruct (Hlo u thu Hu) as [Htu Hvu]. split; [done|]. destruct (li_thread s Hi u thu Hu) as (_ & h & [_ Hhu] & Hoku).
  rewrite Forall_forall in Hvu |- *. intros j Hj. apply (valid_same s); [by apply Hvu|].
  intros l Hl. apply (Hsame j); [done|]. intros E'. destruct (ok_touched _ _ _ _ _ Hok E') as [Hin _].
  apply Hh in Hin. pose proof (ok_loops _ _ _ _ _ Hoku Hj Hl) as Hinu. apply Hhu in Hinu. congruence.
Qed.

Lemma loops_inv_init ls names nx fmt progs : Forall (Forall locked_call) progs →
  loops_inv (init ls names nx fmt progs).
Proof.
  intros Hp. split; [done|]. intros t th. simpl. intros (cs & -> & Hcs)%list_lookup_fmap_Some.
  split; [by eapply Forall_lookup_1 in Hp|done].
Qed.

Lemma reach_loops_inv s s' : reach s s' → log_inv s → loops_inv s → loops_inv s'.
Proof.
  unfold reach. induction 1 as [|s1 s2 s3 H12 _ IH]; [done|]. intros Hi Hl.
  apply IH; [by eapply log_inv_step|by eapply loops_inv_step].
Qed.

(** ** No deadlock *)

(** Only the acquisition of a lock that is taken blocks. *)
Lemma exec_total t i c cs held s : holds s t held → ok (dom_of s) held (i :: c) →
  (∀ l, i = Acquire l → owners s !! l = None) → is_Some (exec t i c cs s).
Proof.
  intros [_ Hh] Hok Hfree.
  assert (∀ p f, p ∈ dom_of s → is_Some (s' ← with_appenders p f s; Some (goto t c cs s'))) as Hw.
  { intros p f [l Hl]%elem_of_dom. unfold with_appenders. rewrite Hl. by eexists. }
  assert (∀ p (f : logger → option state), p ∈ dom_of s → (∀ l, is_Some (f l)) → is_Some (loggers s !! p ≫= f)) as Hd.
  { intros p f [l Hl]%elem_of_dom Hf. rewrite Hl. apply Hf. }
  destruct i as [l|l|p ev|k p|k p it|k p it|i ev|p i|p i|p|i|i|name k| |it|it]; cbn [ok exec] in *;
    try (by eexists); try (by apply Hw; intuition).
  - rewrite Hfree by done. by eexists.
  - destruct Hok as (h & -> & _). rewrite decide_True by (apply Hh; by left). by eexists.
  - apply Hd; [intuition|]. by eexists.
  - apply Hd; [intuition|]. by eexists.
  - destruct it; [by eexists|]. apply Hd; [intuition|]. intros l. case_decide; by eexists.
  - apply Hd; [intuition|]. intros l. case_decide; by eexists.
  - destruct (smap_find name (m_loggers s)); by eexists.
  - destruct it; [by eexists|]. case_decide; by eexists.
  - case_decide; by eexists.
Qed.

(** In a state without a step, a thread that has not finished waits for a
    lock another thread holds. *)
Lemma stuck_waits s t th : log_inv s → undefined s = false → (∀ s', ¬ step s s') → threads s !! t = Some th →
  th = mkThread [] [] ∨ ∃ l c u, code th = Acquire l :: c ∧ owners s !! l = Some u.
Proof.
  intros Hi Hun Hno Ht. assert (tstep t s = None) as Hnone.
  { destruct (tstep t s) as [s'|] eqn:Est; [|done]. destruct (Hno s'). by exists t. }
  unfold tstep in Hnone. rewrite Hun, Ht in Hnone. simpl in Hnone.
  destruct (li_thread s Hi t th Ht) as (_ & held & Hh & Hok). destruct th as [[|i c] cs]; cbn [code todo] in *.
  { left. by destruct cs. }
  right. destruct i as [l| | | | | | | | | | | | | | |];
    [|exfalso; destruct (exec_total t _ c cs held s Hh Hok) as [s' Ex]; [done|congruence]..].
  destruct (owners s !! l) as [u|] eqn:El; [eauto|].
  exfalso; destruct (exec_total t _ c cs held s Hh Hok) as [s' Ex]; [naive_solver|congruence].
Qed.

(** The lock a thread waits for is held by one that waits for a higher
    lock. *)
Lemma no_wait s : log_inv s → undefined s = false → (∀ s', ¬ step s s') → ∀ n t th l c, threads s !! t = Some th →
  code th = Acquire l :: c → 3 < rank l + n → False.
Proof.
  intros Hi Hun Hno. induction n as [|n IH]; intros t th l c Ht Hc Hn.
  { destruct l as [|p|]; simpl in Hn; [lia|case_decide; lia|lia]. }
  destruct (stuck_waits s t th Hi Hun Hno Ht) as [->|(l1 & c1 & u & Hc1 & Hu)]; [done|].
  rewrite Hc in Hc1. injection Hc1 as <- <-. destruct (li_owner s Hi l u Hu) as [thu Htu].
  destruct (li_thread s Hi u thu Htu) as (_ & held & [_ Hh] & Hok). apply Hh in Hu.
  destruct (stuck_waits s u thu Hi Hun Hno Htu) as [->|(l2 & c2 & v & Hc2 & _)].
  { simpl in Hok. subst held. by apply elem_of_nil in Hu. }
  rewrite Hc2 in Hok. destruct Hok as [Hb _]. unfold below in Hb. rewrite Forall_forall in Hb.
  specialize (Hb l Hu). apply (IH u thu l2 c2); [done..|lia].
Qed.

Lemma log_progress s : log_inv s → undefined s = false → (∀ s', ¬ step s s') → finished s.
Proof.
  intros Hi Hun Hno. apply Forall_lookup. intros t th Ht.
  destruct (stuck_waits s t th Hi Hun Hno Ht) as [->|(l & c & u & Hc & _)]; [done|].
  destruct (no_wait s Hi Hun Hno 4 t th l c Ht Hc). lia.
Qed.

(** ** Termination

    [K] bounds the number of appenders a logger will ever have, [L] the
    number of loggers. *)
Section bounds.
Context (K L : nat).

Definition instr_work (i : instr) : nat :=
  match i with
  | Inherit _ => 5
  | Loop _ _ it => 1 + 8 * length it
  | Next _ _ it => 2 + 8 * pred (length it)
  | Begin _ _ => 2 + 8 * K
  | LogBody p _ => if decide (p = root) then 3 + 8 * K else 6 + 8 * K
  | FindOrCreate _ (Some _) => 10 + 8 * K
  | YamlMgrLoop it => 1 + (7 + 8 * K) * length it
  | YamlMgrNext it => 2 + (7 + 8 * K) * pred (length it)
  | YamlMgr => 2 + (7 + 8 * K) * L
  | _ => 1
  end.
Definition code_work c : nat := sum_list_with instr_work c.
Definition thread_work (th : thread) : nat :=
  code_work (code th) + sum_list_with (λ x, 1 + code_work (body x)) (todo th).
Definition work s : nat := sum_list_with thread_work (threads s).

(** Appenders and loggers that will still be added. *)
Definition adds (i : instr) : nat :=
  match i with PushBack _ _ | FindOrCreate _ (Some (addAppender _)) => 1 | _ => 0 end.
Definition creates (i : instr) : nat := match i with FindOrCreate _ _ => 1 | _ => 0 end.
Definition pending (f : instr → nat) (th : thread) : nat :=
  sum_list_with f (code th) + sum_list_with (λ x, sum_list_with f (body x)) (todo th).

Record bounded s : Prop := {
  bd_appenders p l : loggers s !! p = Some l →
    length (m_appenders l) + sum_list_with (pending adds) (threads s) ≤ K;
  bd_loggers : length (m_loggers s) + sum_list_with (pending creates) (threads s) ≤ L;
}.

(** The effect of an instruction on the amount of work, and on the sizes:
    a list grows only by an addition that was pending. *)
Record consumed t (cs : list call) (i : instr) c s s' c' : Prop := {
  cn_threads : threads s' = <[t := mkThread c' cs]> (threads s);
  cn_work : code_work c' < instr_work i + code_work c;
  cn_adds : sum_list_with adds c' ≤ adds i + sum_list_with adds c;
  cn_appenders p l' : loggers s' !! p = Some l' → m_appenders l' = [] ∨ ∃ l, loggers s !! p = Some l ∧
    length (m_appenders l') + sum_list_with adds c' ≤ length (m_appenders l) + adds i + sum_list_with adds c;
  cn_loggers : length (m_loggers s') + sum_list_with creates c'
    ≤ length (m_loggers s) + creates i + sum_list_with creates c;
}.

Lemma consumed_code t cs i c s s' c' : threads s' = <[t := mkThread c' cs]> (threads s) →
  loggers s' = loggers s → m_loggers s' = m_loggers s → code_work c' < instr_work i + code_work c →
  sum_list_with adds c' ≤ adds i + sum_list_with adds c → sum_list_with creates c' ≤ creates i + sum_list_with creates c →
  consumed t cs i c s s' c'.
Proof.
  intros Ht Hl Hn Hw Ha Hc. split; [done|done|lia| |rewrite Hn; lia]. rewrite Hl. intros p l Hp.
  right. exists l. split; [done|lia].
Qed.

Lemma log_call_work p ev : code_work (log_call p ev) ≤ 2 + instr_work (LogBody p ev) ∧
  sum_list_with adds (log_call p ev) = 0 ∧ sum_list_with creates (log_call p ev) = 0.
Proof.
  unfold log_call, locked, code_work. destruct (logger_admits p ev); cbn -[instr_work]; [|lia].
  cbn [instr_work]. case_decide; lia.
Qed.

Lemma element_work k i : code_work (element k i) ≤ 6 ∧
  sum_list_with adds (element k i) = 0 ∧ sum_list_with creates (element k i) = 0.
Proof.
  destruct k as [ev| | |]; cbn; try lia. unfold appender_log, locked, code_work.
  destruct (appender_admits i ev), (reopens i ev); cbn; lia.
Qed.

Lemma member_work p m : code_work (member_body p m) ≤ 9 + 8 * K ∧
  sum_list_with adds (member_body p m) = (match m with addAppender _ => 1 | _ => 0 end) ∧
  sum_list_with creates (member_body p m) = 0.
Proof.
  destruct m as [ev| | | | |[]| |]; [|cbn -[Nat.mul]; lia..].
  destruct (log_call_work p ev) as (H1 & H2 & H3). cbn [instr_work member_body] in *. split; [|done]. case_decide; lia.
Qed.

Lemma length_erase_node i l : length (erase_node i l) ≤ length l.
Proof. induction l as [|j l IH]; simpl; [done|]. case_decide; simpl; lia. Qed.

(** The operations on the list of appenders of one logger. *)
Lemma consumed_appenders t cs i c s s1 p f : with_appenders p f s = Some s1 → instr_work i = 1 → creates i = 0 →
  (∀ l, length (f l) ≤ length l + adds i) → consumed t cs i c s (goto t c cs s1) c.
Proof.
  unfold with_appenders. intros (l & Hl & [= <-])%bind_Some Hw Hc Hf.
  split; simpl; [done|lia|lia| |lia].
  intros q l' [[<- <-]|[_ Hq]]%lookup_insert_Some; right; [|exists l'; split; [done|lia]].
  exists l. split; [done|]. simpl. pose proof (Hf (m_appenders l)). lia.
Qed.

Lemma length_names_set name p l : length (smap_set (V := nat) name p l) ≤ S (length l).
Proof. induction l as [|[k v] l IH]; simpl; [lia|]. repeat case_match; simpl; lia. Qed.

Lemma code_work_app c c' : code_work (c ++ c') = code_work c + code_work c'.
Proof. apply sum_list_with_app. Qed.

(** Only the thread's code changes. *)
Ltac consume := apply consumed_code; [reflexivity|reflexivity|reflexivity|..];
  rewrite ?code_work_app, ?sum_list_with_app; unfold code_work; simpl; try lia.

(** [getLogger], and what is called on its result. *)
Lemma consumed_find t name k c cs s s' : exec t (FindOrCreate name k) c cs s = Some s' →
  ∃ c', consumed t cs (FindOrCreate name k) c s s' c'.
Proof.
  cbn [exec]. intros Hx. set (rest p := match k with Some m => member_body p m | None => [] end) in Hx.
  assert (∀ p, code_work (rest p) < instr_work (FindOrCreate name k) ∧
    sum_list_with adds (rest p) ≤ adds (FindOrCreate name k) ∧ sum_list_with creates (rest p) = 0) as Hr.
  { intros p. subst rest. simpl. destruct k as [m|]; [|simpl; lia].
    destruct (member_work p m) as (H1 & H2 & H3). rewrite H2. destruct m; lia. }
  destruct (smap_find name (m_loggers s)) as [p|]; injection Hx as <-.
  - destruct (Hr p) as (H1 & H2 & H3). exists (c ++ rest p).
    apply consumed_code; [done..|rewrite code_work_app; lia|rewrite sum_list_with_app; lia|].
    rewrite sum_list_with_app, H3. simpl. lia.
  - destruct (Hr (next s)) as (H1 & H2 & H3). exists (c ++ rest (next s)).
    split; rewrite ?code_work_app, ?sum_list_with_app, ?H3; [done|lia|lia| |].
    + simpl. intros p l [[_ <-]|[_ Hp]]%lookup_insert_Some; [by left|]. right. exists l. split; [done|].
      simpl in H2. lia.
    + simpl. pose proof (length_names_set name (next s) (m_loggers s)). lia.
Qed.

Lemma exec_consumed t i c cs s s' : shared_ok s → bounded s → exec t i c cs s = Some s' →
  undefined s' = undefined s → undefined s = false → ∃ c', consumed t cs i c s s' c'.
Proof.
  intros Hsh Hbd Hx Hun Hdef. rewrite Hdef in Hun.
  assert (∀ p l, loggers s !! p = Some l → length (m_appenders l) ≤ K) as HK.
  { intros p l Hl. pose proof (bd_appenders s Hbd p l Hl). lia. }
  destruct i as [l|l|p ev|k p|k p it|k p it|i ev|p i|p i|p|i|i|name k| |it|it]; cbn [exec] in Hx.
  - destruct (owners s !! l) eqn:Hl; [done|]. injection Hx as <-. exists c. consume.
  - case_decide; [|done]. injection Hx as <-. exists c. consume.
  - apply bind_Some in Hx as (l & Hl & [= <-]). eexists. consume; fold (code_work c);
      destruct (m_appenders l) as [|j aps] eqn:Ha; try destruct (has_root l) eqn:Hr;
      destruct (log_call_work root ev) as (H1 & H2 & H3); simpl in *; try lia.
    all: repeat case_decide; unfold code_work in *; try lia.
    destruct (so_root s Hsh) as (lr & Hlr & Hroot). congruence.
  - apply bind_Some in Hx as (l & Hl & [= <-]). eexists. consume. pose proof (HK p l Hl). lia.
  - destruct it as [|n it]; [injection Hx as <-; exists c; consume|].
    apply bind_Some in Hx as (l & Hl & Hx). case_decide; injection Hx as <-; [|done].
    destruct (element_work k n.2) as (H1 & H2 & H3). unfold code_work in H1. eexists. consume.
  - apply bind_Some in Hx as (l & Hl & Hx). case_decide; injection Hx as <-; [|done].
    eexists. consume. rewrite length_tl. lia.
  - injection Hx as <-. exists c. consume.
  - apply bind_Some in Hx as (s1 & Hs1 & [= <-]). exists c. eapply consumed_appenders; [exact Hs1|done|done|].
    intros l. cbn beta. rewrite length_app. simpl. lia.
  - apply bind_Some in Hx as (s1 & Hs1 & [= <-]). exists c. eapply consumed_appenders; [exact Hs1|done|done|].
    intros l. pose proof (length_erase_node i l). lia.
  - apply bind_Some in Hx as (s1 & Hs1 & [= <-]). exists c. eapply consumed_appenders; [exact Hs1|done|done|]. simpl. lia.
  - injection Hx as <-. eexists. consume; case_decide; simpl; lia.
  - injection Hx as <-. exists c. consume.
  - by eapply consumed_find.
  - injection Hx as <-. eexists. consume. rewrite length_fmap. pose proof (bd_loggers s Hbd). nia.
  - destruct it as [|p it]; [injection Hx as <-; exists c; consume|].
    case_decide; injection Hx as <-; [|done]. eexists. consume.
  - case_decide; injection Hx as <-; [|done]. eexists. consume. rewrite length_tl. lia.
Qed.

(** A thread starts its next call. *)
Lemma call_starts t x cs th s : threads s !! t = Some th → code th = [] → todo th = x :: cs → bounded s →
  bounded (goto t (body x) cs s) ∧ work (goto t (body x) cs s) < work s.
Proof.
  intros Ht Hc Hcs [Ha Hl].
  assert (∀ f, pending f (mkThread (body x) cs) = pending f th) as Hp.
  { intros f. unfold pending. rewrite Hc, Hcs. done. }
  assert (∀ f, sum_list_with (pending f) (<[t := mkThread (body x) cs]> (threads s))
    = sum_list_with (pending f) (threads s)) as Hsum.
  { intros f. pose proof (sum_list_with_insert (pending f) _ t th (mkThread (body x) cs) Ht) as Hs.
    rewrite Hp in Hs. lia. }
  split; [split; simpl; rewrite Hsum; done|]. unfold work. simpl.
  pose proof (sum_list_with_insert thread_work _ t th (mkThread (body x) cs) Ht) as Hs.
  unfold thread_work at 2 4 in Hs. rewrite Hc, Hcs in Hs. simpl in Hs. lia.
Qed.

Lemma bounded_step s s' : log_inv s → step s s' → undefined s' = false → bounded s → bounded s' ∧ work s' < work s.
Proof.
  intros Hi [t Hs] Hdef Hbd. unfold tstep in Hs. destruct (undefined s) eqn:Hun; [done|].
  apply bind_Some in Hs as (th & Ht & Hs). destruct (code th) as [|i c] eqn:Hc.
  { destruct (todo th) as [|x cs] eqn:Hcs; [done|]. injection Hs as <-. by eapply call_starts. }
  destruct (exec_consumed t i c (todo th) s s' (li_shared s Hi) Hbd Hs) as (c' & [Hths Hw Had Hap Hlo]);
    [congruence|done|].
  destruct Hbd as [Ha Hl]. destruct (so_root s (li_shared s Hi)) as (lr & Hlr & _).
  assert (∀ f, sum_list_with (pending f) (threads s') + (f i + sum_list_with f c)
    = sum_list_with (pending f) (threads s) + sum_list_with f c') as Hsum.
  { intros f. pose proof (sum_list_with_insert (pending f) _ t th (mkThread c' (todo th)) Ht) as Hf.
    rewrite Hths. unfold pending at 2 4 in Hf. rewrite Hc in Hf. simpl in Hf. lia. }
  split; [split|].
  - intros p l' Hp. specialize (Hsum adds). pose proof (Ha root lr Hlr).
    destruct (Hap p l' Hp) as [->|(l & Hl' & Hle)]; [simpl; lia|]. specialize (Ha p l Hl'). lia.
  - specialize (Hsum creates). lia.
  - unfold work. rewrite Hths.
    pose proof (sum_list_with_insert thread_work _ t th (mkThread c' (todo th)) Ht) as Hf.
    unfold thread_work at 2 4 in Hf. rewrite Hc in Hf. unfold code_work at 1 in Hf. simpl in Hf.
    unfold code_work in *. lia.
Qed.

Lemma log_work_nsteps n s s' : nsteps step n s s' → log_inv s → loops_inv s → bounded s → n + work s' ≤ work s.
Proof.
  induction 1 as [|n s1 s2 s3 H12 _ IH]; intros Hi Hlo Hbd; [lia|].
  pose proof (loops_inv_step s1 s2 Hi H12 Hlo) as Hlo2.
  destruct (bounded_step s1 s2 Hi H12 (lo_defined s2 Hlo2) Hbd) as [Hbd2 Hlt].
  specialize (IH (log_inv_step s1 s2 H12 Hi) Hlo2 Hbd2). lia.
Qed.
End bounds.

(** Bounds exist. *)
Lemma bounded_exists s : ∃ K L, bounded K L s.
Proof.
  assert (∃ K, ∀ p l, loggers s !! p = Some l → length (m_appenders l) ≤ K) as [K HK].
  { induction (loggers s) as [|p x m Hp [K IH]] using map_ind; [by exists 0|].
    exists (K `max` length (m_appenders x)). intros q l [[_ <-]|[_ Hq]]%lookup_insert_Some; [lia|].
    specialize (IH q l Hq). lia. }
  eexists (K + _), _. split; [|reflexivity]. intros p l Hl. specialize (HK p l Hl).
  apply Nat.add_le_mono_r. exact HK.
Qed.

(** The lock that protects what an instruction accesses. *)
Definition guard (i : instr) : option lockid :=
  match i with
  | Begin LCopy _ | Loop LCopy _ _ | Next LCopy _ _ | Clear _ | Acquire _ => None
  | LogBody p _ | Begin _ p | Loop _ p _ | Next _ p _ | PushBack p _ | Erase p _ => Some (LkLogger p)
  | Append i _ | SetFmt i | Inherit i => Some (LkAppender i)
  | FindOrCreate _ _ | YamlMgr | YamlMgrLoop _ | YamlMgrNext _ => Some LkManager
  | Release l => Some l
  end.

Lemma ok_guard D held i c l : ok D held (i :: c) → guard i = Some l → l ∈ held.
Proof.
  intros Hok [=]. destruct i as [| | |[]|[]|[]| | | | | | | | | |]; simplify_eq/=; try (by intuition);
    destruct Hok as (h & -> & _); by left.
Qed.

Lemma log_run_cons t sched s s1 s' : tstep t s = Some s1 → run sched s1 = Some s' → run (t :: sched) s = Some s'.
Proof. intros Hs Hr. simpl. by rewrite Hs. Qed.

Lemma log_run_reach sched s s' : run sched s = Some s' → reach s s'.
Proof.
  revert s. induction sched as [|t sched IH]; intros s; simpl; [by intros [= ->]|].
  intros (s1 & Hs & Hr)%bind_Some. eapply rtc_l; [by exists t|]. by apply IH.
Qed.
End machine.
End LogConc.

Section theorems.
Import LogConc.
Context {E : Type} (logger_admits appender_admits reopens : nat → E → bool) (root : nat).
(** The loggers, the manager's map, the appenders with a formatter, and the
    calls of the threads: on loggers that exist at the start, to which the
    thread has a pointer, and on loggers it asks the manager for by name,
    which may be created meanwhile. *)
Context (ls : gmap nat logger) (names : list (string * nat)) (nx : nat) (fmt : gset nat) (progs : list (list (call (E := E)))).
Notation start := (init ls names nx fmt progs).
Notation steps := (step logger_admits appender_admits reopens root).
Hypothesis Hstart : shared_ok root start.
Hypothesis Hcalls : Forall (Forall (call_ok (dom ls))) progs.


(** C8. Logging is defined and never deadlocks: if the threads log, add and
    remove appenders, change and read formatters, look loggers up or
    create them, reopen files and print the configuration (everything but
    the unlocked [clearAppenders] and [getAppenders]), on loggers that
    existed when they started or that they look up by name, then however
    they are scheduled no loop over a list of appenders or over the
    manager's map ever meets a list that changed under it, every execution
    is finite, and it can only stop when every call has returned.  The
    locks are taken in the order manager, logger, root logger, appender. *)
Theorem log_calls_return : Forall (Forall locked_call) progs →
  ∃ limit, ∀ n s, nsteps steps n start s →
    undefined s = false ∧ n ≤ limit ∧ ((∀ s', ¬ steps s s') → finished s).
Proof using Hstart Hcalls.
  intros Hlocked. destruct (bounded_exists logger_admits start) as (K & L & Hbd).
  pose proof (log_inv_init root ls names nx fmt progs Hstart Hcalls) as Hi.
  pose proof (loops_inv_init ls names nx fmt progs Hlocked) as Hlo.
  exists (work logger_admits root K L start). intros n s Hn.
  assert (rtc steps start s) as Hr by (by eapply rtc_nsteps_2).
  pose proof (lo_defined _ (reach_loops_inv _ _ _ _ _ _ Hr Hi Hlo)) as Hdef. split_and!; [done| |].
  - pose proof (log_work_nsteps _ _ _ _ _ _ n _ s Hn Hi Hlo Hbd). lia.
  - apply log_progress; [|done]. by eapply reach_log_inv.
Qed.
End theorems.

(** ** What is not protected *)

(** C34. [clearAppenders] and [getAppenders] take no lock.  The first can
    empty the list of appenders of a logger while another thread, which
    holds the logger's lock, is in its loop over that list, and the next
    access of that thread is undefined.  The second can be in the middle
    of its copy of the list while another thread removes the appender it
    is at, under the lock, and its next access is undefined. *)
Theorem clearAppenders_races {E} (logger_admits appender_admits reopens : nat → E → bool) p n i ev :
  logger_admits p ev = true →
  (∃ s s' s'', LogConc.reach logger_admits appender_admits reopens p
      (LogConc.init {[p := LogConc.mkLogger [(n, i)] false]} [("root", p)] (S p) {[i]}
        [[LogConc.on p (LogConc.log ev)]; [LogConc.on p LogConc.clearAppenders]]) s ∧
    LogConc.threads s !! 0 =
      Some (LogConc.mkThread [LogConc.Loop (LogConc.LLog ev) p [(n, i)]; LogConc.Release (LkLogger p)] []) ∧
    LogConc.owners s !! LkLogger p = Some 0 ∧
    LogConc.tstep logger_admits appender_admits reopens p 1 s = Some s' ∧
    LogConc.loggers s' !! p = Some (LogConc.mkLogger [] false) ∧
    LogConc.tstep logger_admits appender_admits reopens p 0 s' = Some s'' ∧ LogConc.undefined s'' = true) ∧
  (∃ s s' s'', LogConc.reach logger_admits appender_admits reopens p
      (LogConc.init {[p := LogConc.mkLogger [(n, i)] false]} [("root", p)] (S p) {[i]}
        [[LogConc.on p LogConc.getAppenders]; [LogConc.on p (LogConc.delAppender i)]]) s ∧
    LogConc.threads s !! 0 = Some (LogConc.mkThread [LogConc.Loop LogConc.LCopy p [(n, i)]] []) ∧
    LogConc.owners s !! LkLogger p = Some 1 ∧
    LogConc.tstep logger_admits appender_admits reopens p 1 s = Some s' ∧
    LogConc.tstep logger_admits appender_admits reopens p 0 s' = Some s'' ∧ LogConc.undefined s'' = true).
Proof.
  intros Had. split.
  - eexists. eexists. eexists. split.
    { apply (LogConc.log_run_reach _ _ _ _ [0; 0; 0; 0; 1]).
      eapply LogConc.log_run_cons; [unfold LogConc.tstep; simpl; unfold LogConc.log_call; rewrite Had; reflexivity|].
      eapply LogConc.log_run_cons; [reflexivity|].
      eapply LogConc.log_run_cons; [unfold LogConc.tstep; simpl; rewrite lookup_singleton_eq; reflexivity|].
      eapply LogConc.log_run_cons; [unfold LogConc.tstep; simpl; rewrite lookup_singleton_eq; reflexivity|].
      eapply LogConc.log_run_cons; reflexivity. }
    simpl. split; [done|]. split; [by rewrite lookup_insert_eq|].
    unfold LogConc.tstep. simpl. unfold LogConc.with_appenders. simpl. rewrite lookup_singleton_eq. simpl.
    split; [reflexivity|]. simpl. rewrite lookup_insert_eq. split; [done|]. split; reflexivity.
  - eexists. eexists. eexists. split.
    { apply (LogConc.log_run_reach _ _ _ _ [0; 0; 1; 1]).
      eapply LogConc.log_run_cons; [reflexivity|].
      eapply LogConc.log_run_cons; [unfold LogConc.tstep; simpl; rewrite lookup_singleton_eq; reflexivity|].
      eapply LogConc.log_run_cons; [reflexivity|]. eapply LogConc.log_run_cons; reflexivity. }
    simpl. split; [done|]. split; [by rewrite lookup_insert_eq|].
    unfold LogConc.tstep. simpl. unfold LogConc.with_appenders. simpl. rewrite lookup_singleton_eq. simpl.
    split; [reflexivity|]. simpl. rewrite lookup_insert_eq. simpl. rewrite (decide_True _ _ (eq_refl i)).
    split; reflexivity.
Qed.

(** ** Three threads *)
Definition conc_loggers : gmap nat LogConc.logger :=
  {[0 := LogConc.mkLogger [(100, 10); (101, 11)] false; 1 := LogConc.mkLogger [] true]}.
Definition conc_names : list (string * nat) := [("root", 0); ("web", 1)].
Definition conc_progs : list (list (LogConc.call (E := Z))) :=
  [[LogConc.on 1 (LogConc.log 5%Z); LogConc.by_name "db" (LogConc.addAppender 13)];
   [LogConc.on 1 (LogConc.addAppender 12); LogConc.on 0 (LogConc.setFormatter false)];
   [LogConc.manager_toYamlString; LogConc.on 0 (LogConc.delAppender 10); LogConc.appender_reopen 11]].
Definition admits_all (p : nat) (ev : Z) : bool := true.
Definition conc_start : LogConc.state := LogConc.init conc_loggers conc_names 200 {[10; 11]} conc_progs.

Lemma conc_shared : LogConc.shared_ok (E := Z) 0 conc_start.
Proof.
  split; simpl.
  - exists (LogConc.mkLogger [(100, 10); (101, 11)] false). split; reflexivity.
  - intros p Hp. assert (p = 0 ∨ p = 1) as [->| ->]; [|lia..]. unfold conc_loggers in Hp. set_solver.
  - unfold conc_loggers. repeat constructor; set_solver.
  - repeat constructor.
Qed.

Lemma conc_calls : Forall (Forall (LogConc.call_ok (E := Z) (dom conc_loggers))) conc_progs.
Proof. unfold conc_loggers. repeat constructor; simpl; set_solver. Qed.

Lemma conc_locked : Forall (Forall (LogConc.locked_call (E := Z))) conc_progs.
Proof. repeat constructor; done. Qed.

(** The first thread has reached the first appender of the root logger,
    through the logger without appenders. *)
Definition conc_sched : list nat := [0; 0; 2; 0; 1; 0; 0; 0; 0; 0].
Definition conc_mid : LogConc.state :=
  default conc_start (LogConc.run admits_all admits_all (λ _ _, false) 0 conc_sched conc_start).

Lemma conc_mid_reach : rtc (LogConc.step admits_all admits_all (λ _ _, false) 0) conc_start conc_mid.
Proof. apply (LogConc.log_run_reach _ _ _ _ conc_sched). vm_compute. reflexivity. Qed.

(** The rest of the run. *)
Definition conc_end : LogConc.state :=
  drive (LogConc.tstep admits_all admits_all (λ _ _, false) 0) [0; 1; 2] 200 conc_mid.

Lemma conc_end_reach : rtc (LogConc.step admits_all admits_all (λ _ _, false) 0) conc_start conc_end.
Proof. etrans; [exact conc_mid_reach|apply drive_reach]. Qed.


Lemma conc_end_stops s : ¬ LogConc.step admits_all admits_all (λ _ _, false) 0 conc_end s.
Proof.
  intros [t Ht]. destruct t as [|[|[|t]]]; [vm_compute in Ht; done..|].
  unfold LogConc.tstep in Ht. destruct (LogConc.undefined conc_end); [done|].
  apply bind_Some in Ht as (th & Hth & _). apply lookup_lt_Some in Hth. vm_compute in Hth. lia.
Qed.

(** All calls have returned; one thread has logged to both appenders of
    the root logger, and has given an appender to a logger that did not
    exist at the start. *)
Lemma log_calls_return_witness :
  LogConc.finished conc_end ∧ LogConc.written conc_end = [(0, 10, 5%Z); (0, 11, 5%Z)] ∧
  (LogConc.m_appenders <$> (smap_find "db" (LogConc.m_loggers conc_end) ≫= λ p, LogConc.loggers conc_end !! p))
    = Some [(201, 13)].
Proof.
  destruct (log_calls_return admits_all admits_all (λ _ _, false) 0 conc_loggers conc_names 200 {[10; 11]} conc_progs
    conc_shared conc_calls conc_locked) as [limit Hl].
  split; [|split; vm_compute; reflexivity].
  destruct (rtc_nsteps_1 _ _ conc_end_reach) as [n Hn]. destruct (Hl n conc_end Hn) as (_ & _ & Hfin).
  exact (Hfin conc_end_stops).
Defined.

Lemma clearAppenders_races_witness : ∃ s,
  LogConc.reach admits_all admits_all (λ _ _, false) 0
    (LogConc.init {[0 := LogConc.mkLogger [(100, 10)] false]} [("root", 0)] 1 {[10]}
      [[LogConc.on 0 (LogConc.log 5%Z)]; [LogConc.on 0 LogConc.clearAppenders]]) s ∧
  LogConc.owners s !! LkLogger 0 = Some 0.
Proof.
  destruct (clearAppenders_races admits_all admits_all (λ _ _, false) 0 100 10 5%Z eq_refl)
    as [(s & _ & _ & Hr & _ & Ho & _) _].
  exists s. split; [exact Hr|exact Ho].
Defined.
