(* ===== verification/Yaml.v ===== *)
(** * The interface of yaml-cpp

    yaml-cpp is not part of the repository.  A [YAML::Node] is data: its
    constructors are the library's node types.  What the program calls
    (parsing, emitting, subscripts, iteration, building nodes) are
    operations of the class [Yaml], and the documented behaviour the
    program relies on are the laws of the class [YamlLaws]. *)
From S2P Require Import Prelude CppStd.

Inductive Node : Type :=
| NUndefined
| NNull
| NScalar (s : string)
| NSequence (l : list Node)
| NMap (l : list (Node * Node)).

(** The node's type; an undefined node is the result of a failed look-up. *)
Definition IsDefined (n : Node) : bool := match n with NUndefined => false | _ => true end.
Definition IsScalar (n : Node) : bool := match n with NScalar _ => true | _ => false end.
Definition IsSequence (n : Node) : bool := match n with NSequence _ => true | _ => false end.
Definition IsMap (n : Node) : bool := match n with NMap _ => true | _ => false end.

(** A node that can stand in a document: no undefined node inside. *)
Fixpoint wf_node (n : Node) : bool :=
  match n with
  | NUndefined => false
  | NNull | NScalar _ => true
  | NSequence l => forallb wf_node l
  | NMap l => forallb (λ p, match p with (k, v) => wf_node k && wf_node v end) l
  end.

(** Induction over the nested lists. *)
Section node_ind.
Variable P : Node → Prop.
Hypothesis HU : P NUndefined.
Hypothesis HN : P NNull.
Hypothesis HS : ∀ s, P (NScalar s).
Hypothesis HL : ∀ l, Forall P l → P (NSequence l).
Hypothesis HM : ∀ l, Forall (λ p, P p.1 ∧ P p.2) l → P (NMap l).

Fixpoint Node_ind' (n : Node) : P n :=
  match n with
  | NUndefined => HU
  | NNull => HN
  | NScalar s => HS s
  | NSequence l => HL l ((fix go l := match l return Forall P l with
      | [] => Forall_nil_2 _
      | x :: l => Forall_cons_2 _ _ _ (Node_ind' x) (go l)
      end) l)
  | NMap l => HM l ((fix go l := match l return Forall (λ p, P p.1 ∧ P p.2) l with
      | [] => Forall_nil_2 _
      | (k, v) :: l => Forall_cons_2 (λ p, P p.1 ∧ P p.2) (k, v) l
          (conj (Node_ind' k) (Node_ind' v)) (go l)
      end) l)
  end.
End node_ind.

(** ** Operations *)
Class Yaml := {
  (** [YAML::Load(s)]; an exception on malformed input *)
  Load : string → exn + Node;
  (** [ss << node] *)
  Emit : Node → string;
  (** [node.size()] *)
  Size : Node → nat;
  (** [node[i]] with an unsigned index *)
  Index : Node → nat → exn + Node;
  (** [node[key]] on a constant node *)
  Subscript : Node → string → exn + Node;
  (** the pairs [it->first], [it->second] from [begin()] to [end()] *)
  Entries : Node → list (Node * Node);
  (** [node.Scalar()] and [node.as<std::string>()] *)
  Scalar : Node → exn + string;
  (** [node.push_back(v)] *)
  PushBack : Node → Node → Node;
  (** [node[key] = v] *)
  Assign : Node → string → Node → Node;
  (** [node[n][key] = v] *)
  AssignAt : Node → nat → string → Node → Node;
  (** [node[key].push_back(v)] *)
  PushBackAt : Node → string → Node → Node;
}.

(** The first value stored under a scalar key. *)
Fixpoint assoc (key : string) (l : list (Node * Node)) : option Node :=
  match l with
  | [] => None
  | (k, v) :: l => match k with
                   | NScalar s => if decide (s = key) then Some v else assoc key l
                   | _ => assoc key l
                   end
  end.

(** ** Documented behaviour *)
Class YamlLaws `{Yaml} : Prop := {
  (** emitting a document and parsing the text gives it back (scalars are
      taken to be valid UTF-8, as yaml-cpp expects) *)
  load_emit n : wf_node n = true → Load (Emit n) = inr n;
  (** a decimal integer is a plain scalar, written without quotes *)
  load_int (z : Z) : Load (pretty z) = inr (NScalar (pretty z));
  emit_int (z : Z) : Emit (NScalar (pretty z)) = pretty z;
  (** sequences and maps *)
  size_sequence l : Size (NSequence l) = length l;
  size_null : Size NNull = 0;
  index_sequence l i x : l !! i = Some x → Index (NSequence l) i = inr x;
  subscript_map l key : Subscript (NMap l) key = inr (default NUndefined (assoc key l));
  entries_map l : Entries (NMap l) = l;
  entries_null : Entries NNull = [];
  scalar_scalar s : Scalar (NScalar s) = inr s;
  (** only an invalid node throws *)
  scalar_valid n : n ≠ NUndefined → ∃ s, Scalar n = inr s;
  (** a default-constructed node is null; it becomes a sequence on the
      first [push_back] and a map on the first assignment to a key *)
  push_back_null v : PushBack NNull v = NSequence [v];
  push_back_sequence l v : PushBack (NSequence l) v = NSequence (l ++ [v]);
  assign_null key v : Assign NNull key v = NMap [(NScalar key, v)];
  assign_map l key v : assoc key l = None → Assign (NMap l) key v = NMap (l ++ [(NScalar key, v)]);
  (** the index one past the end adds an element to a sequence (or makes a
      null node a sequence); any other index is that of an element *)
  assign_at_null key v : AssignAt NNull 0 key v = NSequence [NMap [(NScalar key, v)]];
  assign_at_end l key v :
    AssignAt (NSequence l) (length l) key v = NSequence (l ++ [NMap [(NScalar key, v)]]);
  assign_at_elem l n x key v : l !! n = Some x →
    AssignAt (NSequence l) n key v = NSequence (<[n := Assign x key v]> l);
  (** a missing key is added *)
  push_back_at_map l key v : assoc key l = None →
    PushBackAt (NMap l) key v = NMap (l ++ [(NScalar key, NSequence [v])]);
  push_back_at_last l key xs v : assoc key l = None →
    PushBackAt (NMap (l ++ [(NScalar key, NSequence xs)])) key v
    = NMap (l ++ [(NScalar key, NSequence (xs ++ [v]))]);
}.

(** A library call in the effect monad. *)
Definition ycall {S A} (r : exn + A) : M S A :=
  match r with inl e => throw e | inr a => mret a end.

Lemma wp_ycall {S A} (r : exn + A) a (Q : A → S → Prop) s :
  r = inr a → Q a s → wp (ycall r) Q s.
Proof. by intros ->. Qed.

Section building.
Context `{YamlLaws}.

Lemma push_back_list l x :
  foldl PushBack NNull (l ++ [x]) = NSequence (l ++ [x]).
Proof.
  revert x. induction l as [|y l IH] using rev_ind; intros x; simpl.
  - apply push_back_null.
  - rewrite foldl_snoc, IH. apply push_back_sequence.
Qed.

(** A node built by [push_back] from null: null if nothing was added. *)
Definition seq_node (l : list Node) : Node := match l with [] => NNull | _ => NSequence l end.

Lemma push_back_all l : foldl PushBack NNull l = seq_node l.
Proof.
  destruct l as [|x l] using rev_ind; [done|]. rewrite push_back_list. by destruct l.
Qed.

Lemma wf_seq_node l : forallb wf_node l = true → wf_node (seq_node l) = true.
Proof. by destruct l. Qed.

Lemma size_seq_node l : Size (seq_node l) = length l.
Proof. destruct l; [apply size_null|apply size_sequence]. Qed.

Lemma index_seq_node l i x : l !! i = Some x → Index (seq_node l) i = inr x.
Proof. destruct l; [done|apply index_sequence]. Qed.

(** A node built by assignments to distinct keys. *)
Definition map_node (l : list (string * Node)) : Node :=
  match l with [] => NNull | _ => NMap (prod_map NScalar id <$> l) end.

Lemma assoc_fmap key (l : list (string * Node)) :
  key ∉ l.*1 → assoc key (prod_map NScalar id <$> l) = None.
Proof.
  induction l as [|[k v] l IH]; [done|]. rewrite !fmap_cons, not_elem_of_cons. simpl.
  intros [Hne Hl]. rewrite decide_False by done. auto.
Qed.

Lemma assign_all (l : list (string * Node)) : NoDup l.*1 →
  foldl (λ n p, Assign n p.1 p.2) NNull l = map_node l.
Proof.
  induction l as [|[k v] l IH] using rev_ind; [done|]. rewrite fmap_app, foldl_snoc.
  intros (Hl & Hk & _)%NoDup_app. rewrite IH by done. simpl.
  destruct l as [|[k' v'] l']; [apply assign_null|].
  unfold map_node at 1. rewrite assign_map.
  - unfold map_node. simpl. by rewrite fmap_app.
  - apply assoc_fmap. intros Hin. apply (Hk k); [done|]. by apply list_elem_of_singleton.
Qed.

Lemma wf_map_node l : forallb (λ p, wf_node p.2) l = true → wf_node (map_node l) = true.
Proof.
  intros Hl. destruct l as [|p l]; [done|].
  change (forallb (λ q : Node * Node, let (k, v) := q in wf_node k && wf_node v)
    (prod_map NScalar id <$> p :: l) = true).
  revert Hl. generalize (p :: l). clear p l. intros l.
  induction l as [|[k v] l IH]; [done|]. rewrite fmap_cons. simpl.
  intros [-> ?]%andb_true_iff. auto.
Qed.

Lemma entries_map_node l : Entries (map_node l) = prod_map NScalar id <$> l.
Proof. destruct l; [apply entries_null|apply entries_map]. Qed.
End building.
