(* ===== verification/YamlDemo.v ===== *)
(** * A concrete instance of the yaml-cpp interface

    It shows that the laws of [YamlLaws] can hold together, and lets the
    development run concrete configurations.  Its text format is not YAML:
    a scalar that does not start with an exclamation mark is itself, any
    other document is an exclamation mark and a bit string. *)
From S2P Require Import Prelude CppStd Yaml.

(** ** Nodes as countable data *)
Fixpoint node_tree (n : Node) : gen_tree string :=
  match n with
  | NUndefined => GenNode 0 []
  | NNull => GenNode 1 []
  | NScalar s => GenLeaf s
  | NSequence l => GenNode 2 (map node_tree l)
  | NMap l => GenNode 3 (map (λ p, match p with (k, v) => GenNode 4 [node_tree k; node_tree v] end) l)
  end.

Fixpoint tree_node (t : gen_tree string) : Node :=
  match t with
  | GenLeaf s => NScalar s
  | GenNode 1 [] => NNull
  | GenNode 2 l => NSequence (map tree_node l)
  | GenNode 3 l => NMap (map (λ p, match p with
      | GenNode 4 [k; v] => (tree_node k, tree_node v)
      | _ => (NUndefined, NUndefined) end) l)
  | _ => NUndefined
  end.

Lemma tree_node_tree n : tree_node (node_tree n) = n.
Proof.
  induction n as [| | |l IH|l IH] using Node_ind'; [done..| |].
  - simpl. f_equal. induction IH as [|x l Hx _ IHl]; [done|]. simpl. by rewrite Hx, IHl.
  - simpl. f_equal. induction IH as [|[k v] l [Hk Hv] _ IHl]; [done|]. simpl in *.
    by rewrite Hk, Hv, IHl.
Qed.

(** ** Bit strings *)
Fixpoint pos_bits (p : positive) : string :=
  match p with
  | xH => ""
  | xO p => String "0" (pos_bits p)
  | xI p => String "1" (pos_bits p)
  end.

Fixpoint bits_pos (s : string) : positive :=
  match s with
  | "" => xH
  | String c s => if ascii_dec c "1" then xI (bits_pos s) else xO (bits_pos s)
  end.

Lemma bits_pos_bits p : bits_pos (pos_bits p) = p.
Proof. induction p; simpl; by f_equal. Qed.

(** ** The instance *)
Definition plain (s : string) : bool :=
  match s with "" => false | String c _ => negb (bool_decide (c = "!"%char)) end.

Definition demo_Load (s : string) : exn + Node :=
  if plain s then inr (NScalar s)
  else match s with
  | "" => inr NNull
  | String _ s =>
      match (tree_node <$> decode (bits_pos s)) with
      | Some n => inr n
      | None => inl (StdException "bad document")
      end
  end.

Definition demo_encode (n : Node) : string := String "!" (pos_bits (encode (node_tree n))).

Definition demo_Emit (n : Node) : string :=
  match n with
  | NScalar s => if plain s then s else demo_encode n
  | _ => demo_encode n
  end.

Definition demo_Assign (n : Node) (key : string) (v : Node) : Node :=
  match n with
  | NMap l => NMap (l ++ [(NScalar key, v)])
  | _ => NMap [(NScalar key, v)]
  end.

Fixpoint demo_push_at (l : list (Node * Node)) (key : string) (v : Node) : list (Node * Node) :=
  match l with
  | [] => [(NScalar key, NSequence [v])]
  | (NScalar k, x) :: l =>
      if decide (k = key)
      then (NScalar k, match x with NSequence xs => NSequence (xs ++ [v]) | _ => NSequence [v] end) :: l
      else (NScalar k, x) :: demo_push_at l key v
  | kx :: l => kx :: demo_push_at l key v
  end.

Lemma demo_push_at_app l key v k : assoc key l = None →
  demo_push_at (l ++ k) key v = l ++ demo_push_at k key v.
Proof.
  induction l as [|[n x] l IH]; [done|]. destruct n as [| |s| |]; simpl; intros Hl.
  3: destruct (decide (s = key)); [done|].
  all: by rewrite IH.
Qed.

#[export] Instance demo_yaml : Yaml := {|
  Load := demo_Load;
  Emit := demo_Emit;
  Size n := match n with NSequence l => length l | NMap l => length l | _ => 0 end;
  Index n i := match n with
    | NSequence l => inr (default NUndefined (l !! i))
    | _ => inl (StdException "bad subscript")
    end;
  Subscript n key := match n with
    | NMap l => inr (default NUndefined (assoc key l))
    | NScalar _ => inl (StdException "bad subscript")
    | _ => inr NUndefined
    end;
  Entries n := match n with NMap l => l | NSequence l => pair NUndefined <$> l | _ => [] end;
  Scalar n := match n with
    | NScalar s => inr s
    | NUndefined => inl (StdException "invalid node")
    | _ => inr ""
    end;
  PushBack n v := match n with NSequence l => NSequence (l ++ [v]) | _ => NSequence [v] end;
  Assign := demo_Assign;
  AssignAt n i key v := match n with
    | NSequence l => match l !! i with
        | Some x => NSequence (<[i := demo_Assign x key v]> l)
        | None => NSequence (l ++ [NMap [(NScalar key, v)]])
        end
    | _ => NSequence [NMap [(NScalar key, v)]]
    end;
  PushBackAt n key v := match n with NMap l => NMap (demo_push_at l key v) | _ => n end;
|}.

Lemma demo_decode n : demo_Load (demo_encode n) = inr n.
Proof.
  unfold demo_Load, demo_encode. simpl. rewrite bits_pos_bits, decode_encode. simpl.
  by rewrite tree_node_tree.
Qed.

Lemma plain_pretty (z : Z) : plain (pretty z) = true.
Proof.
  assert (∀ x c s, plain (String c s) = true → plain (pretty_N_go x (String c s)) = true) as Hgo.
  { intros x. induction (N.lt_wf_0 x) as [x _ IH]; intros c s Hc.
    destruct (decide (x = 0)%N) as [->|Hx]; [by rewrite pretty_N_go_0|].
    rewrite pretty_N_go_step by lia. apply IH; [by apply N.div_lt; lia|].
    unfold pretty_N_char. by repeat case_match. }
  assert (∀ p : positive, plain (pretty (N.pos p)) = true) as Hpos.
  { intros p. unfold pretty, pretty_N. rewrite decide_False by done.
    rewrite pretty_N_go_step by lia. apply Hgo. unfold pretty_N_char. by repeat case_match. }
  destruct z as [|p|p]; [done|apply Hpos|done].
Qed.

#[export] Instance demo_yaml_laws : YamlLaws.
Proof.
  split; try done; simpl.
  - intros n _. destruct n as [| |s|l|l]; try apply demo_decode. simpl.
    destruct (plain s) eqn:Hs; [|apply demo_decode]. unfold demo_Load. by rewrite Hs.
  - intros z. unfold demo_Load. by rewrite plain_pretty.
  - intros z. by rewrite plain_pretty.
  - intros l i x Hx. by rewrite Hx.
  - intros []; [done|eauto..].
  - intros l key v. by rewrite lookup_ge_None_2.
  - intros l n x key v Hx. by rewrite Hx.
  - intros l key v Hl. by rewrite <-(app_nil_r l) at 1; rewrite demo_push_at_app.
  - intros l key xs v Hl. rewrite demo_push_at_app by done. simpl. by rewrite decide_True.
Qed.
