(* ===== verification/LexicalCast.v ===== *)
(** * LexicalCast: configuration values to and from text (sylar/config.h)

    [LexicalCast<F, T>] is a functor template.  The primary template calls
    [boost::lexical_cast], which is a parameter; the specialisations for
    containers go through YAML and cast each element.  A cast is a
    computation: it may throw, and user-defined ones write to the
    console.  An [unordered_set] or [unordered_map] is a list without
    duplicates in its (unspecified) iteration order. *)
From S2P Require Import Prelude CppStd Yaml.

Section casts.
Context {St : Type} `{Yaml}.

(** The primary template: [boost::lexical_cast<T>(v)]. *)
Definition LexicalCast_primary {A B} (lexical_cast : A → exn + B) (v : A) : M St B :=
  ycall (lexical_cast v).

(** The loop [for (size_t i = 0; i < node.size(); ++i)] of the sequence
    casts: emit element [i], cast the text, add the result. *)
Fixpoint cast_elements {T C} (elem : string → M St T) (add : C → T → C) (node : Node)
    (i n : nat) (acc : C) : M St C :=
  match n with
  | 0 => mret acc
  | S n =>
      x ← ycall (Index node i);
      t ← elem (Emit x);
      cast_elements elem add node (S i) n (add acc t)
  end.

Definition cast_sequence {T C} (elem : string → M St T) (add : C → T → C) (empty : C)
    (v : string) : M St C :=
  node ← ycall (Load v);
  cast_elements elem add node 0 (Size node) empty.

(** The loop [for (auto& i : v)] of the casts to text. *)
Fixpoint push_elements {T} (elem : T → M St string) (l : list T) (node : Node) : M St Node :=
  match l with
  | [] => mret node
  | i :: l =>
      s ← elem i;
      x ← ycall (Load s);
      push_elements elem l (PushBack node x)
  end.

Definition sequence_cast {T} (elem : T → M St string) (l : list T) : M St string :=
  node ← push_elements elem l NNull; mret (Emit node).

(** *** std::vector *)
Definition vector_from_string {T} (elem : string → M St T) : string → M St (list T) :=
  cast_sequence elem (λ vec t, vec ++ [t]) [].
Definition vector_to_string {T} (elem : T → M St string) : list T → M St string :=
  sequence_cast elem.

(** *** std::list *)
Definition list_from_string {T} (elem : string → M St T) : string → M St (list T) :=
  cast_sequence elem (λ vec t, vec ++ [t]) [].
Definition list_to_string {T} (elem : T → M St string) : list T → M St string :=
  sequence_cast elem.

(** *** std::set *)
Definition set_from_string {T K} `{!KeyOrd K} (key : T → K) (elem : string → M St T) :
    string → M St (list T) :=
  cast_sequence elem (λ vec t, sset_insert key t vec) [].
Definition set_to_string {T} (elem : T → M St string) : list T → M St string :=
  sequence_cast elem.

(** *** std::unordered_set *)
Definition uset_insert {T} `{!EqDecision T} (x : T) (l : list T) : list T :=
  if decide (x ∈ l) then l else x :: l.
Definition uset_from_string {T} `{!EqDecision T} (elem : string → M St T) : string → M St (list T) :=
  cast_sequence elem (λ vec t, uset_insert t vec) [].
Definition uset_to_string {T} (elem : T → M St string) : list T → M St string :=
  sequence_cast elem.

(** *** std::map and std::unordered_map with string keys *)
Fixpoint cast_entries {T C} (elem : string → M St T) (add : C → string * T → C)
    (l : list (Node * Node)) (acc : C) : M St C :=
  match l with
  | [] => mret acc
  | (first, second) :: l =>
      k ← ycall (Scalar first);
      t ← elem (Emit second);
      cast_entries elem add l (add acc (k, t))
  end.

Definition cast_map {T C} (elem : string → M St T) (add : C → string * T → C) (empty : C)
    (v : string) : M St C :=
  node ← ycall (Load v);
  cast_entries elem add (Entries node) empty.

Fixpoint assign_entries {T} (elem : T → M St string) (l : list (string * T)) (node : Node) : M St Node :=
  match l with
  | [] => mret node
  | (k, t) :: l =>
      s ← elem t;
      x ← ycall (Load s);
      assign_entries elem l (Assign node k x)
  end.

Definition map_cast {T} (elem : T → M St string) (l : list (string * T)) : M St string :=
  node ← assign_entries elem l NNull; mret (Emit node).

Definition map_from_string {T} (elem : string → M St T) : string → M St (list (string * T)) :=
  cast_map elem (λ vec kv, smap_insert kv vec) [].
Definition map_to_string {T} (elem : T → M St string) : list (string * T) → M St string :=
  map_cast elem.

(** [unordered_map::insert]: an existing key keeps its value. *)
Definition umap_insert {T} (kv : string * T) (l : list (string * T)) : list (string * T) :=
  if decide (kv.1 ∈ l.*1) then l else kv :: l.
Definition umap_from_string {T} (elem : string → M St T) : string → M St (list (string * T)) :=
  cast_map elem (λ vec kv, umap_insert kv vec) [].
Definition umap_to_string {T} (elem : T → M St string) : list (string * T) → M St string :=
  map_cast elem.
End casts.

(** ** The contract of a pair of casts

    [castable from to R x]: the text of [x] is read back as a value related
    to [x] by [R] (the container's equality), both directly and after a
    passage through a YAML document, which is how a container treats its
    elements. *)
Section contract.
Context {St : Type} `{YamlLaws}.

Definition reads {T} (from : string → M St T) (R : T → T → Prop) (x : T) (str : string) : Prop :=
  ∀ s, ∃ y s', from str s = Ret y s' ∧ R x y.

Definition castable {T} (from : string → M St T) (to : T → M St string) (R : T → T → Prop) (x : T) : Prop :=
  ∃ str n, (∀ s, to x s = Ret str s) ∧ Load str = inr n ∧ wf_node n = true ∧
    reads from R x str ∧ reads from R x (Emit n).

(** Integers, under the documented behaviour of [boost::lexical_cast]. *)
Lemma castable_int (from : string → exn + Z) (to : Z → exn + string) z :
  to z = inr (pretty z) → from (pretty z) = inr z →
  castable (LexicalCast_primary from) (LexicalCast_primary to) eq z.
Proof.
  intros Hto Hfrom. exists (pretty z), (NScalar (pretty z)).
  assert (reads (LexicalCast_primary from) eq z (pretty z)) as Hr.
  { intros s. exists z, s. unfold LexicalCast_primary. by rewrite Hfrom. }
  split_and!; [|apply load_int|done|done|by rewrite emit_int].
  intros s. unfold LexicalCast_primary. by rewrite Hto.
Qed.

Section elements.
Context {T : Type} (from : string → M St T) (to : T → M St string) (R : T → T → Prop).

Lemma push_elements_ok l acc : Forall (castable from to R) l →
  ∃ ns, (∀ s, push_elements to l acc s = Ret (foldl PushBack acc ns) s) ∧
    forallb wf_node ns = true ∧ Forall2 (λ x n, reads from R x (Emit n)) l ns.
Proof.
  intros Hl. revert acc. induction Hl as [|x l (str & n & Hto & Hload & Hwf & _ & Hr) _ IH]; intros acc.
  { exists []. split_and!; done. }
  destruct (IH (PushBack acc n)) as (ns & Hpush & Hns & HR). exists (n :: ns). split_and!.
  - intros s. simpl. unfold mbind, M_bind. rewrite Hto, Hload. simpl. apply Hpush.
  - simpl. by rewrite Hwf.
  - by constructor.
Qed.

Lemma cast_elements_ok {C} (add : C → T → C) pre l ns acc s :
  Forall2 (λ x n, reads from R x (Emit n)) l ns →
  ∃ ys s', cast_elements from add (seq_node (pre ++ ns)) (length pre) (length ns) acc s
    = Ret (foldl add acc ys) s' ∧ Forall2 R l ys.
Proof.
  intros Hl. revert pre acc s. induction Hl as [|x n l ns Hr _ IH]; intros pre acc s.
  { exists [], s. by split. }
  simpl. unfold mbind, M_bind. rewrite (index_seq_node (pre ++ n :: ns) (length pre) n).
  2: { by apply list_lookup_middle. }
  simpl. destruct (Hr s) as (y & s1 & -> & Hxy).
  destruct (IH (pre ++ [n]) (add acc y) s1) as (ys & s2 & Hc & HR).
  rewrite <-app_assoc, length_app, Nat.add_1_r in Hc. simpl in Hc. rewrite Hc.
  exists (y :: ys), s2. by repeat constructor.
Qed.

(** A sequence container: elements are added in order. *)
Lemma castable_sequence {C} (add : C → T → C) (empty : C) (items : C → list T) (RC : C → C → Prop) c :
  Forall (castable from to R) (items c) →
  (∀ ys, Forall2 R (items c) ys → RC c (foldl add empty ys)) →
  castable (cast_sequence from add empty) (λ c, sequence_cast to (items c)) RC c.
Proof.
  intros Hl HRC. destruct (push_elements_ok _ NNull Hl) as (ns & Hpush & Hns & HR).
  rewrite push_back_all in Hpush.
  assert (reads (cast_sequence from add empty) RC c (Emit (seq_node ns))) as Hreads.
  { intros s. unfold cast_sequence, mbind, M_bind.
    rewrite load_emit by (by apply wf_seq_node). simpl. rewrite size_seq_node.
    destruct (cast_elements_ok add [] _ _ empty s HR) as (ys & s' & Hc & Hys). simpl in Hc.
    rewrite Hc. eauto. }
  exists (Emit (seq_node ns)), (seq_node ns). split_and!; [|by apply load_emit, wf_seq_node|
    by apply wf_seq_node|done|done].
  intros s. unfold sequence_cast, mbind, M_bind. by rewrite Hpush.
Qed.

Lemma assign_entries_ok l acc : Forall (λ kv, castable from to R kv.2) l →
  ∃ ns : list (string * Node),
    (∀ s, assign_entries to l acc s = Ret (foldl (λ n p, Assign n p.1 p.2) acc ns) s) ∧
    forallb (λ p, wf_node p.2) ns = true ∧ ns.*1 = l.*1 ∧
    Forall2 (λ kv n, reads from R kv.2 (Emit n.2)) l ns.
Proof.
  intros Hl. revert acc. induction Hl as [|[k x] l (str & n & Hto & Hload & Hwf & _ & Hr) _ IH]; intros acc.
  { exists []. split_and!; done. }
  destruct (IH (Assign acc k n)) as (ns & Hpush & Hns & Hk & HR). exists ((k, n) :: ns). split_and!.
  - intros s. simpl. unfold mbind, M_bind. simpl in Hto. rewrite Hto, Hload. simpl. apply Hpush.
  - simpl. by rewrite Hwf.
  - by rewrite !fmap_cons, Hk.
  - by constructor.
Qed.

Lemma cast_entries_ok {C} (add : C → string * T → C) l (ns : list (string * Node)) acc s :
  ns.*1 = l.*1 → Forall2 (λ kv n, reads from R kv.2 (Emit n.2)) l ns →
  ∃ ys s', cast_entries from add (prod_map NScalar id <$> ns) acc s = Ret (foldl add acc ys) s' ∧
    Forall2 (λ kv y, y.1 = kv.1 ∧ R kv.2 y.2) l ys.
Proof.
  intros Hk Hl. revert acc s Hk. induction Hl as [|[k x] [k' n] l ns Hr _ IH]; intros acc s Hk.
  { exists [], s. by split. }
  simpl in Hk. injection Hk as -> Hk. rewrite fmap_cons. simpl. unfold mbind, M_bind.
  rewrite scalar_scalar. simpl. destruct (Hr s) as (y & s1 & Hy & Hxy). simpl in Hy, Hxy. rewrite Hy.
  destruct (IH (add acc (k, y)) s1 Hk) as (ys & s2 & Hc & HR). rewrite Hc.
  exists ((k, y) :: ys), s2. split; [done|]. by constructor.
Qed.

(** A map container with distinct keys. *)
Lemma castable_map {C} (add : C → string * T → C) (empty : C) (items : C → list (string * T))
    (RC : C → C → Prop) c :
  NoDup (items c).*1 → Forall (λ kv, castable from to R kv.2) (items c) →
  (∀ ys, Forall2 (λ kv y, y.1 = kv.1 ∧ R kv.2 y.2) (items c) ys → RC c (foldl add empty ys)) →
  castable (cast_map from add empty) (λ c, map_cast to (items c)) RC c.
Proof.
  intros Hnd Hl HRC. destruct (assign_entries_ok _ NNull Hl) as (ns & Hpush & Hns & Hk & HR).
  rewrite assign_all in Hpush by (by rewrite Hk).
  assert (reads (cast_map from add empty) RC c (Emit (map_node ns))) as Hreads.
  { intros s. unfold cast_map, mbind, M_bind.
    rewrite load_emit by (by apply wf_map_node). simpl. rewrite entries_map_node.
    destruct (cast_entries_ok add _ ns empty s Hk HR) as (ys & s' & -> & Hys). eauto. }
  exists (Emit (map_node ns)), (map_node ns). split_and!; [|by apply load_emit, wf_map_node|
    by apply wf_map_node|done|done].
  intros s. unfold map_cast, mbind, M_bind. by rewrite Hpush.
Qed.
End elements.
End contract.

(** ** Round trips of the containers *)
Section roundtrip.
Context {St : Type} `{YamlLaws}.
Context {T : Type} (from : string → M St T) (to : T → M St string) (R : T → T → Prop).

Lemma foldl_snoc_id {A} (acc ys : list A) : foldl (λ vec t, vec ++ [t]) acc ys = acc ++ ys.
Proof.
  revert acc. induction ys as [|y ys IH]; intros acc; simpl; [by rewrite app_nil_r|].
  by rewrite IH, <-app_assoc.
Qed.

(** [std::vector] and [std::list]: if every element round-trips, the
    text of the container is read back as a container of related elements
    in the same order (also when it is empty and its text is that of a
    null node), and so does the container as an element of another one. *)
Lemma vector_list_roundtrip l : Forall (castable from to R) l →
  castable (vector_from_string from) (vector_to_string to) (Forall2 R) l ∧
  castable (list_from_string from) (list_to_string to) (Forall2 R) l.
Proof.
  intros Hl. unfold vector_from_string, vector_to_string, list_from_string, list_to_string.
  split; apply (castable_sequence from to R _ [] id (Forall2 R)); try done;
    intros ys Hys; by rewrite foldl_snoc_id.
Qed.

Lemma foldl_uset_insert `{!EqDecision T} (acc ys : list T) :
  NoDup (acc ++ ys) → foldl (λ vec t, uset_insert t vec) acc ys ≡ₚ acc ++ ys.
Proof.
  revert acc. induction ys as [|y ys IH]; intros acc Hnd; simpl; [by rewrite app_nil_r|].
  assert (y ∉ acc) as Hy.
  { apply NoDup_app in Hnd as (_ & Hd & _). intros Hin. apply (Hd y Hin). by left. }
  unfold uset_insert at 2. rewrite decide_False by done.
  rewrite IH; simpl; [by rewrite Permutation_middle|]. by rewrite Permutation_middle.
Qed.

Lemma Forall2_eq_inv {A} (l k : list A) : Forall2 eq l k → l = k.
Proof. induction 1; congruence. Qed.

Lemma foldl_sset {A K} `{!KeyOrd K} (key : A → K) ys :
  foldl (λ vec t, sset_insert key t vec) [] ys = sset_of_list key ys.
Proof. done. Qed.

(** [std::set] (ordered by any key) and [std::unordered_set]: a set
    whose elements round-trip is read back as the same set, the second up
    to the order of iteration. *)
Lemma sets_roundtrip {K} `{!KeyOrd K} (key : T → K) `{!EqDecision T} l u :
  sset_sorted key l → Forall (castable from to eq) l →
  NoDup u → Forall (castable from to eq) u →
  castable (set_from_string key from) (set_to_string to) eq l ∧
  castable (uset_from_string from) (uset_to_string to) (≡ₚ) u.
Proof.
  intros Hs Hl Hnd Hu. split.
  - apply (castable_sequence from to eq _ [] id eq); [done|].
    intros ys <-%Forall2_eq_inv. rewrite foldl_sset. by rewrite sset_of_list_id.
  - apply (castable_sequence from to eq _ [] id (≡ₚ)); [done|].
    intros ys <-%Forall2_eq_inv. by rewrite foldl_uset_insert.
Qed.

Definition entry_rel (kv kv' : string * T) : Prop := kv'.1 = kv.1 ∧ R kv.2 kv'.2.

Lemma entry_rel_keys l ys : Forall2 entry_rel l ys → ys.*1 = l.*1.
Proof.
  induction 1 as [|kv y l ys [Hk _] _ IH]; [done|]. by rewrite !fmap_cons, IH, Hk.
Qed.

Lemma sorted_keys {A} (l : list (string * A)) : sset_sorted fst l → NoDup l.*1.
Proof.
  unfold sset_sorted. induction 1 as [|[k x] l _ IH Hk]; [constructor|].
  rewrite fmap_cons. constructor; [|done]. rewrite Forall_forall in Hk.
  intros ([k' x'] & Heq & Hin)%list_elem_of_fmap. simpl in Heq. subst k'.
  specialize (Hk _ Hin). pose proof (klt_irrefl k) as Hirr. simpl in Hk, Hirr. congruence.
Qed.

Lemma sorted_by_keys {A B} (l : list (string * A)) (k : list (string * B)) :
  k.*1 = l.*1 → sset_sorted fst l → sset_sorted fst k.
Proof.
  intros Hk Hs. revert k Hk. unfold sset_sorted in *.
  induction Hs as [|[i x] l _ IH Hi]; intros [|[j y] k] Hk; try done; [constructor|].
  rewrite !fmap_cons in Hk. simpl in Hk. injection Hk as -> Hk. constructor; [auto|].
  rewrite Forall_forall in Hi. apply Forall_forall. intros [j' y'] Hin.
  assert (j' ∈ l.*1) as ([i' x'] & -> & Hin')%list_elem_of_fmap.
  { rewrite <-Hk. apply list_elem_of_fmap. by exists (j', y'). }
  apply (Hi _ Hin').
Qed.

Lemma foldl_umap_insert (acc ys : list (string * T)) :
  NoDup (acc ++ ys).*1 → foldl (λ vec kv, umap_insert kv vec) acc ys ≡ₚ acc ++ ys.
Proof.
  revert acc. induction ys as [|y ys IH]; intros acc Hnd; simpl; [by rewrite app_nil_r|].
  assert (y.1 ∉ acc.*1) as Hy.
  { rewrite fmap_app, fmap_cons in Hnd. apply NoDup_app in Hnd as (_ & Hd & _).
    intros Hin. apply (Hd _ Hin). by left. }
  unfold umap_insert at 2. rewrite decide_False by done.
  rewrite IH; simpl; [by rewrite Permutation_middle|].
  rewrite <-fmap_cons. by rewrite Permutation_middle.
Qed.

(** [std::map] and [std::unordered_map] with string keys: if every
    value round-trips, the text is read back as a map with the same keys
    and related values, the second up to the order of iteration. *)
Lemma maps_roundtrip (m u : list (string * T)) :
  sset_sorted fst m → Forall (λ kv, castable from to R kv.2) m →
  NoDup u.*1 → Forall (λ kv, castable from to R kv.2) u →
  castable (map_from_string from) (map_to_string to) (Forall2 entry_rel) m ∧
  castable (umap_from_string from) (umap_to_string to)
    (λ x y, ∃ z, y ≡ₚ z ∧ Forall2 entry_rel x z) u.
Proof.
  intros Hs Hm Hnd Hu. split.
  - apply (castable_map from to R _ [] id (Forall2 entry_rel)); [by apply sorted_keys|done|].
    intros ys Hys. change (Forall2 entry_rel m (sset_of_list fst ys)).
    rewrite sset_of_list_id; [done|].
    by apply (sorted_by_keys m), Hs; apply entry_rel_keys.
  - apply (castable_map from to R _ [] id); [done..|].
    intros ys Hys. exists ys. split; [|done]. rewrite foldl_umap_insert; [done|].
    simpl. by rewrite (entry_rel_keys _ _ Hys).
Qed.
End roundtrip.

(** C15. Every container cast round-trips when the cast of its elements does,
    and the result can again be an element of a container: [std::vector]
    and [std::list] keep the order (also when empty, the text being that of
    a null node), [std::set] (ordered by any key) is read back as the same
    set and [std::unordered_set] up to the order of iteration; the maps
    with string keys keep their keys and their values up to the relation
    the elements round-trip to, [std::unordered_map] again up to the
    order. *)
Theorem containers_roundtrip {St T K : Type} `{YamlLaws} `{!KeyOrd K} `{!EqDecision T} (key : T → K)
    (from : string → M St T) (to : T → M St string) (R : T → T → Prop)
    (l set uset : list T) (map umap : list (string * T)) :
  Forall (castable from to R) l →
  sset_sorted key set → Forall (castable from to eq) set →
  NoDup uset → Forall (castable from to eq) uset →
  sset_sorted fst map → Forall (λ kv, castable from to R kv.2) map →
  NoDup umap.*1 → Forall (λ kv, castable from to R kv.2) umap →
  castable (vector_from_string from) (vector_to_string to) (Forall2 R) l ∧
  castable (list_from_string from) (list_to_string to) (Forall2 R) l ∧
  castable (set_from_string key from) (set_to_string to) eq set ∧
  castable (uset_from_string from) (uset_to_string to) (≡ₚ) uset ∧
  castable (map_from_string from) (map_to_string to) (Forall2 (entry_rel R)) map ∧
  castable (umap_from_string from) (umap_to_string to)
    (λ x y, ∃ z, y ≡ₚ z ∧ Forall2 (entry_rel R) x z) umap.
Proof.
  intros Hl Hs1 Hs2 Hu1 Hu2 Hm1 Hm2 Hum1 Hum2.
  destruct (vector_list_roundtrip from to R l Hl) as [H1 H2].
  destruct (sets_roundtrip from to key set uset Hs1 Hs2 Hu1 Hu2) as [H3 H4].
  destruct (maps_roundtrip from to R map umap Hm1 Hm2 Hum1 Hum2) as [H5 H6]. done.
Qed.

(** ** Concrete instances: a decimal [boost::lexical_cast] and the text
    format of [YamlDemo] *)
From S2P Require Import YamlDemo.

Definition digit_of (c : ascii) : option Z :=
  let n := Z.of_nat (nat_of_ascii c) in
  if bool_decide (48 ≤ n ≤ 57)%Z then Some (n - 48)%Z else None.

Fixpoint digits_of (acc : Z) (s : string) : option Z :=
  match s with
  | "" => Some acc
  | String c s => d ← digit_of c; digits_of (10 * acc + d)%Z s
  end.

Definition demo_atoi (s : string) : exn + Z :=
  match s with
  | "" | "-" => inl (StdException "bad lexical cast: source type value could not be interpreted as target")
  | String "-" s => match digits_of 0 s with Some z => inr (- z)%Z | None => inl (StdException "bad lexical cast") end
  | s => match digits_of 0 s with Some z => inr z | None => inl (StdException "bad lexical cast") end
  end.
Definition demo_itoa (z : Z) : exn + string := inr (pretty z).

Definition int_from : string → M unit Z := LexicalCast_primary demo_atoi.
Definition int_to : Z → M unit string := LexicalCast_primary demo_itoa.

Lemma demo_castable (l : list Z) :
  Forall (λ z, demo_atoi (pretty z) = inr z) l → Forall (castable int_from int_to eq) l.
Proof. intros Hl. eapply Forall_impl; [done|]. intros z Hz. by apply castable_int. Qed.

Lemma demo_castable_1 : Forall (castable int_from int_to eq) [10; -3; 10]%Z.
Proof. apply demo_castable. repeat constructor. Qed.

(** A map of vectors of integers: the containers nest. *)
Definition demo_map : list (string * list Z) := [("a", [10; -3; 10]); ("b", [])]%Z.

Lemma demo_map_castable :
  Forall (λ kv, castable (vector_from_string int_from) (vector_to_string int_to) (Forall2 eq) kv.2) demo_map.
Proof.
  repeat constructor; simpl.
  all: apply (castable_sequence int_from int_to eq _ [] id (Forall2 eq)).
  all: first [apply demo_castable_1 | apply Forall_nil_2 | intros ys Hys; by rewrite foldl_snoc_id].
Qed.

Lemma demo_sets_castable : Forall (castable (vector_from_string int_from) (vector_to_string int_to) eq) [[10; -3; 10]; []]%Z.
Proof.
  repeat constructor.
  all: apply (castable_sequence int_from int_to eq _ [] id eq).
  all: first [apply demo_castable_1 | apply Forall_nil_2 | intros ys <-%Forall2_eq_inv; by rewrite foldl_snoc_id].
Qed.

(** Containers of vectors of integers; the set is ordered by length. *)
Lemma containers_roundtrip_witness :
  castable (set_from_string (λ v : list Z, Z.of_nat (length v)) (vector_from_string int_from))
    (set_to_string (vector_to_string int_to)) eq [[]; [10; -3; 10]]%Z ∧
  castable (map_from_string (vector_from_string int_from)) (map_to_string (vector_to_string int_to))
    (Forall2 (entry_rel (Forall2 eq))) demo_map.
Proof.
  destruct (containers_roundtrip (λ v : list Z, Z.of_nat (length v)) (vector_from_string int_from)
    (vector_to_string int_to) (Forall2 eq) [] [[]; [10; -3; 10]]%Z [[10; -3; 10]; []]%Z demo_map demo_map)
    as (_ & _ & Hset & _ & Hmap & _).
  - constructor.
  - repeat constructor.
  - apply Forall_cons. pose proof demo_sets_castable as Hd. rewrite !Forall_cons in Hd.
    split; [apply Hd|]. apply Forall_cons. split; [apply Hd|constructor].
  - apply (bool_decide_unpack _). vm_compute. exact I.
  - apply demo_sets_castable.
  - repeat constructor.
  - apply demo_map_castable.
  - apply (bool_decide_unpack _). vm_compute. exact I.
  - apply demo_map_castable.
  - split; [exact Hset|exact Hmap].
Defined.
