(* ===== verification/Config.v ===== *)
(** * Configuration variables and their registry (sylar/config.h, sylar/config.cc)

    [ConfigVar<T>] is a class template, and [Config] keeps variables of all
    instantiations behind [ConfigVarBase] pointers.  The class [CfgTypes]
    lists the types [T] in use, each with its equality, its [typeid] name
    and its two casts; a heap cell ([anyvar]) is a type and a variable
    of that type, and [dynamic_pointer_cast] compares types.
    Casts, the root logger and the listeners act on the environment [Ext]
    of the configuration; the class [LogService] is what the module needs
    of the logging system.  The build option is [SYLAR_CONFIG_RWMUTEX]. *)
From S2P Require Import Prelude CppStd Lock Yaml.

(** ** The types of configuration values *)
Class CfgTypes (Ext : Type) := {
  ty : Type;
  ty_eq_dec :: EqDecision ty;
  val : ty → Type;
  (** [operator==] *)
  val_eqb : ∀ t, val t → val t → bool;
  (** [typeid(T).name()] *)
  type_name : ty → string;
  (** [LexicalCast<std::string, T>] and [LexicalCast<T, std::string>] *)
  from_string : ∀ t, string → M Ext (val t);
  to_string : ∀ t, val t → M Ext string;
}.

(** [SYLAR_LOG_ERROR(SYLAR_LOG_ROOT()) << ...]: the level test of the root
    logger, which decides whether the streamed expressions are evaluated,
    and the logging of the text. *)
Class LogService (Ext : Type) := {
  log_enabled : M Ext bool;
  log_emit : string → Z → string → M Ext unit;
}.

(** The contract: from a state satisfying the invariant both return and
    keep it. *)
Class LogServiceOk (Ext : Type) `{!LogService Ext} := {
  log_inv : Ext → Prop;
  log_enabled_ok e : log_inv e → wp log_enabled (λ _, log_inv) e;
  log_emit_ok file line msg e : log_inv e → wp (log_emit file line msg) (λ _, log_inv) e;
}.

Inductive cfg_lock := LkConfig | LkVar (p : nat).

#[export] Instance cfg_lock_eq_dec : EqDecision cfg_lock.
Proof. solve_decision. Defined.
#[export] Instance cfg_lock_countable : Countable cfg_lock.
Proof.
  refine (inj_countable' (λ l, match l with LkConfig => None | LkVar p => Some p end)
    (λ x, match x with None => LkConfig | Some p => LkVar p end) _).
  by intros [].
Defined.

Section state.
Context {Ext : Type} `{!CfgTypes Ext} (Cb : ty → Type).

(** ** State *)

(** [ConfigVarBase] and [ConfigVar<T>]; [m_cbs] is a [std::map]. *)
Record ConfigVar (t : ty) := mkConfigVar {
  m_name : string;
  m_description : string;
  m_val : val t;
  m_cbs : list (Z * Cb t);
}.

(** An object behind a [ConfigVarBase] pointer. *)
Record anyvar := AnyVar { any_ty : ty; any_var : ConfigVar any_ty }.

(** The variables by address, [GetDatas()], the static counter [s_fun_id]
    of each [ConfigVar<T>::addListener], the locks and the environment. *)
Record Cfg := mkCfg {
  c_vars : gmap nat anyvar;
  c_next : nat;
  c_datas : gmap string nat;
  c_fun_id : ty → Z;
  c_locks : gmap cfg_lock lkst;
  c_ext : Ext;
}.
End state.
Arguments mkConfigVar {Ext _ Cb t} _ _ _ _.
Arguments m_name {Ext _ Cb t} _.
Arguments m_description {Ext _ Cb t} _.
Arguments m_val {Ext _ Cb t} _.
Arguments m_cbs {Ext _ Cb t} _.
Arguments AnyVar {Ext _ Cb} _ _.
Arguments any_ty {Ext _ Cb} _.
Arguments any_var {Ext _ Cb} _.
Arguments mkCfg {Ext _ Cb} _ _ _ _ _ _.
Arguments c_vars {Ext _ Cb} _.
Arguments c_next {Ext _ Cb} _.
Arguments c_datas {Ext _ Cb} _.
Arguments c_fun_id {Ext _ Cb} _ _.
Arguments c_locks {Ext _ Cb} _.
Arguments c_ext {Ext _ Cb} _.

Section setters.
Context {Ext : Type} `{!CfgTypes Ext} {Cb : ty → Type}.
Implicit Types (s : Cfg Cb).

Definition set_c_vars f s : Cfg Cb :=
  mkCfg (f (c_vars s)) (c_next s) (c_datas s) (c_fun_id s) (c_locks s) (c_ext s).
Definition set_c_datas f s : Cfg Cb :=
  mkCfg (c_vars s) (c_next s) (f (c_datas s)) (c_fun_id s) (c_locks s) (c_ext s).
Definition set_c_fun_id f s : Cfg Cb :=
  mkCfg (c_vars s) (c_next s) (c_datas s) f (c_locks s) (c_ext s).
Definition set_c_locks l s : Cfg Cb :=
  mkCfg (c_vars s) (c_next s) (c_datas s) (c_fun_id s) l (c_ext s).
Definition set_c_ext e s : Cfg Cb :=
  mkCfg (c_vars s) (c_next s) (c_datas s) (c_fun_id s) (c_locks s) e.

#[export] Program Instance Cfg_HasLocks : HasLocks (Cfg Cb) cfg_lock :=
  {| locks_of := c_locks; set_locks := set_c_locks |}.
Next Obligation. done. Qed.
Next Obligation. done. Qed.
Next Obligation. by intros []. Qed.

(** A program start. *)
Definition cfg_init (e : Ext) : Cfg Cb := mkCfg ∅ 0 ∅ (λ _, 0%Z) ∅ e.

(** [std::dynamic_pointer_cast<ConfigVar<T>>] *)
Definition cast_var (t : ty) (x : anyvar Cb) : option (ConfigVar Cb t) :=
  match decide (any_ty x = t) with
  | left e => Some (eq_rect (any_ty x) (ConfigVar Cb) (any_var x) t e)
  | right _ => None
  end.

(** [*this] of a method of [ConfigVar<T>]. *)
Definition load_var (t : ty) (p : nat) : M (Cfg Cb) (ConfigVar Cb t) :=
  deref "dangling ConfigVar" (λ s, c_vars s !! p ≫= cast_var t).
Definition store_var {t : ty} (p : nat) (v : ConfigVar Cb t) : M (Cfg Cb) unit :=
  modify (set_c_vars (<[p := AnyVar t v]>)).
Definition load_base (p : nat) : M (Cfg Cb) (anyvar Cb) :=
  deref "dangling ConfigVarBase" (λ s, c_vars s !! p).
Definition new_var {t : ty} (v : ConfigVar Cb t) : M (Cfg Cb) nat := λ s,
  Ret (c_next s) (mkCfg (<[c_next s := AnyVar t v]> (c_vars s)) (S (c_next s)) (c_datas s)
    (c_fun_id s) (c_locks s) (c_ext s)).

(** A call into the environment. *)
Definition ext {A} (m : M Ext A) : M (Cfg Cb) A := zoom c_ext set_c_ext m.
End setters.

(** ** ConfigVar *)
Section operations.
Context {Ext : Type} `{!CfgTypes Ext} `{!LogService Ext} `{!Yaml} {Cb : ty → Type}.
(** A listener is a closure: it may act on any part of the program. *)
Context (run_cb : ∀ t, Cb t → val t → val t → M (Cfg Cb) unit).

Definition log_error (file : string) (line : Z) (msg : M (Cfg Cb) string) : M (Cfg Cb) unit :=
  b ← ext log_enabled;
  if (b : bool) then text ← msg; ext (log_emit file line text) else mret tt.

Definition set_m_val {t} (v : val t) (var : ConfigVar Cb t) : ConfigVar Cb t :=
  mkConfigVar (m_name var) (m_description var) v (m_cbs var).
Definition set_m_cbs {t} (l : list (Z * Cb t)) (var : ConfigVar Cb t) : ConfigVar Cb t :=
  mkConfigVar (m_name var) (m_description var) (m_val var) l.

Definition var_mutex (p : nat) : RWMutex cfg_lock := mkRWMutex (LkVar p).
Definition config_mutex : RWMutex cfg_lock := mkRWMutex LkConfig.

Definition ConfigVar_new {t} (name : string) (default_value : val t) (description : string) : ConfigVar Cb t :=
  mkConfigVar (transform tolower name) description default_value [].

Definition getValue t (p : nat) : M (Cfg Cb) (val t) :=
  ReadScopedLockImpl (var_mutex p) (var ← load_var t p; mret (m_val var)).

(** The first block returns [true] when the function returns from it. *)
Definition setValue t (p : nat) (v : val t) : M (Cfg Cb) unit :=
  ret ← ReadScopedLockImpl (var_mutex p) (
    var ← load_var t p;
    if val_eqb t v (m_val var) then mret true
    else
      foreach (m_cbs var) (λ i, var ← load_var t p; run_cb t i.2 (m_val var) v);;
      mret false);
  if (ret : bool) then mret tt
  else WriteScopedLockImpl (var_mutex p) (
    var ← load_var t p;
    store_var p (set_m_val v var)).

Definition toString (p : nat) : M (Cfg Cb) string :=
  '(AnyVar t _) ← load_base p;
  try_catch
    (ReadScopedLockImpl (var_mutex p) (var ← load_var t p; ext (to_string t (m_val var))))
    (λ e, match e with
      | StdException what =>
          log_error "config.h" 286 (mret ("ConfigVar::toString exception " +:+ what +:+ " convert: "
            +:+ type_name t +:+ " to string"));;
          mret "..."
      | OtherException => throw e
      end).

Definition fromString (p : nat) (v : string) : M (Cfg Cb) bool :=
  '(AnyVar t _) ← load_base p;
  try_catch
    (x ← ext (from_string t v); setValue t p x;; mret true)
    (λ e, match e with
      | StdException what =>
          log_error "config.h" 300 (mret ("ConfigVar::fromString exception " +:+ what
            +:+ " convert: string to " +:+ type_name t +:+ v));;
          mret false
      | OtherException => throw e
      end).

Definition getTypeName (p : nat) : M (Cfg Cb) string :=
  '(AnyVar t _) ← load_base p; mret (type_name t).

(** [++s_fun_id] on a [uint64_t]. *)
Definition bump_fun_id (t : ty) : M (Cfg Cb) Z := λ s,
  let id := wrapU 64 (c_fun_id s t + 1) in
  Ret id (set_c_fun_id (λ t', if decide (t' = t) then id else c_fun_id s t') s).

Definition addListener t (p : nat) (cb : Cb t) : M (Cfg Cb) Z :=
  WriteScopedLockImpl (var_mutex p) (
    id ← bump_fun_id t;
    var ← load_var t p;
    store_var p (set_m_cbs (smap_set id cb (m_cbs var)) var);;
    mret id).

Definition delListener t (p : nat) (key : Z) : M (Cfg Cb) unit :=
  WriteScopedLockImpl (var_mutex p) (
    var ← load_var t p;
    store_var p (set_m_cbs (smap_erase key (m_cbs var)) var)).

Definition getListener t (p : nat) (key : Z) : M (Cfg Cb) (option (Cb t)) :=
  ReadScopedLockImpl (var_mutex p) (
    var ← load_var t p;
    mret (smap_find key (m_cbs var))).

Definition clearListener t (p : nat) : M (Cfg Cb) unit :=
  WriteScopedLockImpl (var_mutex p) (
    var ← load_var t p;
    store_var p (set_m_cbs [] var)).

(** ** Config *)
Definition name_chars : string := "abcdefghijklmnopqrstuvwxyz._0123456789".

(** [Config::Lookup<T>(name)] *)
Definition Lookup t (name : string) : M (Cfg Cb) (option nat) :=
  ReadScopedLockImpl config_mutex (
    s ← get;
    match c_datas s !! name with
    | None => mret None
    | Some p =>
        x ← load_base p;
        match cast_var t x with
        | Some _ => mret (Some p)
        | None =>
            log_error "config.h" 400 (
              real ← getTypeName p;
              value ← toString p;
              mret ("Lookup name=" +:+ name +:+ ",type=" +:+ type_name t
                +:+ " not correct, real type=" +:+ real +:+ ", value=" +:+ value));;
            mret None
        end
    end).

(** [Config::Lookup<T>(name, default_value, description)] *)
Definition Lookup_default t (name : string) (default_value : val t) (description : string) :
    M (Cfg Cb) nat :=
  tmp ← Lookup t name;
  match tmp with
  | Some p =>
      log_error "config.h" 369 (mret ("Lookup name=" +:+ name +:+ " exists"));;
      mret p
  | None =>
      match find_first_not_of name_chars name with
      | Some _ =>
          log_error "config.h" 375 (mret ("Lookup name invalid: " +:+ name));;
          throw (StdException name)
      | None =>
          v ← new_var (ConfigVar_new (t := t) name default_value description);
          WriteScopedLockImpl config_mutex (
            modify (set_c_datas (<[name := v]>));;
            mret v)
      end
  end.

Definition LookupBase (name : string) : M (Cfg Cb) (option nat) :=
  ReadScopedLockImpl config_mutex (s ← get; mret (c_datas s !! name)).

(** [Config::Visit]; the order of iteration over an [unordered_map] is a
    parameter. *)
Definition Visit (order : gmap string nat → list (string * nat)) (cb : nat → M (Cfg Cb) unit) :
    M (Cfg Cb) unit :=
  ReadScopedLockImpl config_mutex (
    s ← get;
    foreach (order (c_datas s)) (λ it, cb it.2)).

Definition member_name (prefix key : string) : string :=
  if str_empty prefix then key else prefix +:+ "." +:+ key.

Fixpoint ListAllMember (prefix : string) (node : Node) (output : list (string * Node)) :
    M (Cfg Cb) (list (string * Node)) :=
  match find_first_not_of name_chars prefix with
  | Some _ =>
      log_error "config.cc" 11 (mret ("Config invalid name: " +:+ prefix +:+ " : " +:+ Emit node));;
      mret output
  | None =>
      let output := output ++ [(prefix, node)] in
      match node with
      | NMap l =>
          (fix loop (l : list (Node * Node)) (output : list (string * Node)) :=
             match l with
             | [] => mret output
             | (first, second) :: l =>
                 key ← ycall (Scalar first);
                 output ← ListAllMember (member_name prefix key) second output;
                 loop l output
             end) l output
      | _ => mret output
      end
  end.

Definition LoadFromYaml (root : Node) : M (Cfg Cb) unit :=
  all_nodes ← ListAllMember "" root [];
  foreach all_nodes (λ i,
    if str_empty i.1 then mret tt
    else
      var ← LookupBase (transform tolower i.1);
      match var with
      | None => mret tt
      | Some p =>
          if IsScalar i.2 then v ← ycall (Scalar i.2); fromString p v;; mret tt
          else fromString p (Emit i.2);; mret tt
      end).
End operations.
