(* ===== verification/ConfigInv.v ===== *)
(** * Invariant of the configuration registry and rules for its operations

    [cfg_wf] is the registry's invariant, [ext_step] a step that changes
    only the environment; each operation of [Config] has one rule that
    gives its result from any state in which the locks it takes are free. *)
From S2P Require Import Prelude CppStd Lock Yaml Config.

(** ** Contracts of the casts and the listeners *)
Definition is_some {A} (o : option A) : bool := match o with Some _ => true | None => false end.

(** A cast depends on its argument only, throws only standard exceptions,
    and keeps the logging system's invariant. *)
Class CfgTypesOk (Ext : Type) `{!CfgTypes Ext} `{!LogService Ext} `{!LogServiceOk Ext} := {
  parse : ∀ t, string → option (val t);
  print : ∀ t, val t → option string;
  from_string_ok t str e : log_inv e →
    wpx (from_string t str) (λ v e', parse t str = Some v ∧ log_inv e')
      (λ x e', is_std x ∧ parse t str = None ∧ log_inv e') e;
  to_string_ok t v e : log_inv e →
    wpx (to_string t v) (λ str e', print t v = Some str ∧ log_inv e')
      (λ x e', is_std x ∧ print t v = None ∧ log_inv e') e;
}.

Section inv.
Context {Ext : Type} `{CfgTypesOk Ext} {Cb : ty → Type}.
Context (run_cb : ∀ t, Cb t → val t → val t → M (Cfg Cb) unit).
Implicit Types (s : Cfg Cb).

(** Only the environment changes, within its invariant. *)
Definition ext_step s s' : Prop := s' = set_c_ext (c_ext s') s ∧ log_inv (c_ext s').

Lemma ext_step_refl s : log_inv (c_ext s) → ext_step s s.
Proof. split; [by destruct s|done]. Qed.

Lemma ext_step_trans s1 s2 s3 : ext_step s1 s2 → ext_step s2 s3 → ext_step s1 s3.
Proof. intros [-> _] [-> ?]. by split. Qed.

Lemma ext_step_set e s : log_inv e → ext_step s (set_c_ext e s).
Proof. by split. Qed.

(** A listener that returns and touches no configuration variable. *)
Definition quiet {t} (c : Cb t) : Prop :=
  ∀ old new s, log_inv (c_ext s) → wp (run_cb t c old new) (λ _, ext_step s) s.

(** ** Dynamic casts *)
Lemma cast_var_refl {t} (v : ConfigVar Cb t) : cast_var t (AnyVar t v) = Some v.
Proof.
  unfold cast_var. simpl. destruct (decide (t = t)) as [e|]; [|done].
  by rewrite <-(Eqdep_dec.eq_rect_eq_dec ty_eq_dec).
Qed.

Lemma cast_var_Some t x (v : ConfigVar Cb t) : cast_var t x = Some v ↔ x = AnyVar t v.
Proof.
  split; [|intros ->; apply cast_var_refl]. destruct x as [t' v']. unfold cast_var. simpl.
  destruct (decide (t' = t)) as [e|]; [|done]. destruct e. simpl. by intros [= ->].
Qed.

Lemma cast_var_None t t' (v : ConfigVar Cb t') : t' ≠ t → cast_var t (AnyVar t' v) = None.
Proof. intros Hne. unfold cast_var. simpl. by destruct (decide (t' = t)). Qed.

Lemma AnyVar_inj {t} (v v' : ConfigVar Cb t) : AnyVar t v = AnyVar t v' → v = v'.
Proof. intros Heq. apply (f_equal (cast_var t)) in Heq. rewrite !cast_var_refl in Heq. congruence. Qed.

(** ** The invariant *)
Definition var_of (x : anyvar Cb) : string := m_name (any_var x).

Definition valid_name (name : string) : Prop := find_first_not_of name_chars name = None.

(** The keys of the listeners are ordered and among those handed out. *)
Record cbs_ok {A} (fun_id : Z) (l : list (Z * A)) : Prop := {
  cbs_sorted : sset_sorted fst l;
  cbs_range k c : (k, c) ∈ l → (1 ≤ k ≤ fun_id)%Z;
}.

Record cfg_heap s : Prop := {
  (** addresses are below the allocator, counters within 64 bits *)
  ch_next p x : c_vars s !! p = Some x → p < c_next s;
  ch_fun_id t : (0 ≤ c_fun_id s t < 2 ^ 64)%Z;
  ch_cbs p t (v : ConfigVar Cb t) : c_vars s !! p = Some (AnyVar t v) → cbs_ok (c_fun_id s t) (m_cbs v);
  (** a registered name is valid and is the name of its variable *)
  ch_datas name p : c_datas s !! name = Some p →
    valid_name name ∧ ∃ x, c_vars s !! p = Some x ∧ var_of x = name;
  ch_ext : log_inv (c_ext s);
}.

Definition cfg_wf s : Prop := cfg_heap s ∧ c_locks s = ∅.

Lemma cfg_heap_ext s s' : ext_step s s' → cfg_heap s → cfg_heap s'.
Proof. intros [-> ?] []. by split. Qed.

Lemma cfg_heap_locks l s : cfg_heap s → cfg_heap (set_c_locks l s).
Proof. intros []. by split. Qed.

Lemma cfg_wf_ext s s' : ext_step s s' → cfg_wf s → cfg_wf s'.
Proof. intros Hs [Hh Hl]. split; [by eapply cfg_heap_ext|]. by destruct Hs as [-> _]. Qed.

(** Valid names are in lower case already. *)
Lemma valid_name_lower name : valid_name name → transform tolower name = name.
Proof.
  unfold valid_name. rewrite find_first_not_of_None. intros Hv. apply transform_id. revert Hv.
  induction name as [|c s IH]; [done|]. simpl. intros [Hc Hs]%andb_true_iff. rewrite (IH Hs).
  rewrite andb_true_r. destruct c as [[] [] [] [] [] [] [] []]; by vm_compute in Hc |- *.
Qed.

(** Distinct names are distinct variables. *)
Lemma datas_inj s n1 n2 p : cfg_heap s → c_datas s !! n1 = Some p → c_datas s !! n2 = Some p → n1 = n2.
Proof.
  intros Hh (_ & x1 & Hx1 & <-)%(ch_datas s Hh) (_ & x2 & Hx2 & <-)%(ch_datas s Hh). congruence.
Qed.

(** ** Rules *)
Lemma wp_ext {A} (m : M Ext A) (Q : A → Ext → Prop) s :
  wp m Q (c_ext s) → wp (ext m) (λ a s', s' = set_c_ext (c_ext s') s ∧ Q a (c_ext s')) s.
Proof. intros Hm. apply wp_zoom. eapply wp_mono; [|exact Hm]. by intros a e ?. Qed.

Lemma wp_log_error file line msg s : log_inv (c_ext s) →
  (∀ s', ext_step s s' → wp msg (λ _, ext_step s') s') →
  wp (log_error file line msg) (λ _, ext_step s) s.
Proof.
  intros Hl Hmsg. unfold log_error. apply wp_bind.
  eapply wp_mono; [|apply wp_ext, log_enabled_ok, Hl]. intros b s1 H1. destruct b; [|done].
  apply wp_bind. eapply wp_mono; [|by apply Hmsg]. intros text s2 H2.
  assert (ext_step s s2) as H12 by (by eapply ext_step_trans).
  eapply wp_mono; [|apply wp_ext, log_emit_ok, H12]. intros [] s3 H3. by eapply ext_step_trans.
Qed.

Lemma wp_log_error_text file line text s : log_inv (c_ext s) →
  wp (log_error file line (mret text)) (λ _, ext_step s) s.
Proof.
  intros Hl. apply wp_log_error; [done|]. intros s' [_ ?]. by apply wp_ret, ext_step_refl.
Qed.

Lemma load_var_eq {t} p (v : ConfigVar Cb t) s :
  c_vars s !! p = Some (AnyVar t v) → load_var t p s = Ret v s.
Proof. intros Hp. unfold load_var, deref. rewrite Hp. simpl. by rewrite cast_var_refl. Qed.

Lemma wp_load_var {t} p (v : ConfigVar Cb t) (Q : ConfigVar Cb t → Cfg Cb → Prop) s :
  c_vars s !! p = Some (AnyVar t v) → Q v s → wp (load_var t p) Q s.
Proof. intros Hp HQ. apply wp_deref with v; [|done]. cbn beta. rewrite Hp. apply cast_var_refl. Qed.

(** Put the lock table back after a step on the environment. *)
Lemma ext_step_unlock s s' l : ext_step (set_c_locks l s) s' →
  c_locks s' = l ∧ ext_step s (set_c_locks (c_locks s) s').
Proof. intros [Heq ?]. rewrite Heq. by repeat split. Qed.

(** The value of a variable replaced. *)
Definition upd {t} (p : nat) (var : ConfigVar Cb t) s : Cfg Cb :=
  set_c_vars (<[p := AnyVar t var]>) s.
Definition new_val t (v old : val t) : val t := if val_eqb t v old then old else v.

Lemma upd_id {t} p (var : ConfigVar Cb t) s : c_vars s !! p = Some (AnyVar t var) → upd p var s = s.
Proof. intros Hp. destruct s. unfold upd, set_c_vars. simpl in *. by rewrite insert_id. Qed.

(** A write-locked update of a variable. *)
Lemma wp_write_var {t} p (v : ConfigVar Cb t) (f : ConfigVar Cb t → ConfigVar Cb t)
    (Q : unit → Cfg Cb → Prop) s :
  c_vars s !! p = Some (AnyVar t v) → c_locks s !! LkVar p = None →
  Q tt (upd p (f v) s) →
  wp (WriteScopedLockImpl (var_mutex p) (var ← load_var t p; store_var p (f var))) Q s.
Proof.
  intros Hp Hl HQ. apply (wp_WriteLock (LkVar p)); [done|]. apply wp_bind.
  apply (wp_load_var p v); [done|]. apply wp_modify. split; [done|]. by destruct s.
Qed.

(** A read-locked query of a variable. *)
Lemma wp_read_var {t A} p (v : ConfigVar Cb t) (f : ConfigVar Cb t → A) (Q : A → Cfg Cb → Prop) s :
  c_vars s !! p = Some (AnyVar t v) → c_locks s !! LkVar p = None →
  Q (f v) s →
  wp (ReadScopedLockImpl (var_mutex p) (var ← load_var t p; mret (f var))) Q s.
Proof.
  intros Hp Hl HQ. apply (wp_ReadLock (LkVar p)); [done|]. apply wp_bind.
  apply (wp_load_var p v); [done|]. apply wp_ret. split; [done|]. by destruct s.
Qed.

(** *** Setting a value *)
Lemma wp_notify {t} p (var : ConfigVar Cb t) (v : val t) (l : list (Z * Cb t)) s :
  c_vars s !! p = Some (AnyVar t var) → log_inv (c_ext s) →
  (∀ k c, (k, c) ∈ l → quiet c) →
  wp (foreach l (λ i, var ← load_var t p; run_cb t i.2 (m_val var) v)) (λ _, ext_step s) s.
Proof.
  intros Hp Hl Hq. apply wp_foreach_inv; [|by apply ext_step_refl].
  intros [k c] s1 Hin H1. apply wp_bind. apply (wp_load_var p var); [by destruct H1 as [-> _]|].
  eapply wp_mono; [|by apply (Hq k c), H1]. intros [] s2 H2. by eapply ext_step_trans.
Qed.

Lemma wp_setValue {t} p (var : ConfigVar Cb t) (v : val t) s :
  c_vars s !! p = Some (AnyVar t var) → c_locks s !! LkVar p = None → log_inv (c_ext s) →
  (∀ k c, (k, c) ∈ m_cbs var → quiet c) →
  wp (setValue run_cb t p v)
    (λ _, ext_step (upd p (set_m_val (new_val t v (m_val var)) var) s)) s.
Proof.
  intros Hp Hl Hi Hq. unfold setValue, new_val. apply wp_bind.
  apply (wp_ReadLock (LkVar p)); [done|]. apply wp_bind, (wp_load_var p var); [done|].
  destruct (val_eqb t v (m_val var)).
  { apply wp_ret. split; [done|]. apply wp_ret.
    assert (set_m_val (m_val var) var = var) as -> by (by destruct var).
    rewrite upd_id by done. split; [by destruct s|done]. }
  apply wp_bind. eapply wp_mono; [|by apply (wp_notify p var)].
  intros [] s1 [Hs1 Hi1]. apply wp_ret. rewrite Hs1. split; [done|].
  apply (wp_write_var p var); [done..|]. by apply (ext_step_set (c_ext s1)).
Qed.

(** *** Text *)
Lemma wp_toString {t} p (var : ConfigVar Cb t) s :
  c_vars s !! p = Some (AnyVar t var) → c_locks s !! LkVar p = None → log_inv (c_ext s) →
  wp (toString p) (λ str s', ext_step s s' ∧ str = default "..." (print t (m_val var))) s.
Proof.
  intros Hp Hl Hi. unfold toString. apply wp_bind. eapply wp_deref; [done|]. apply wp_catch.
  apply (wpx_ReadLock (LkVar p)); [done|]. apply wpx_bind, wpx_wp, (wp_load_var p var); [done|].
  apply wpx_zoom. eapply wpx_mono; [..|by apply to_string_ok].
  - intros str e [-> He]. split; [done|]. by split.
  - intros [what|] e (Hx & -> & He); [|done]. split; [done|]. apply wp_bind.
    eapply wp_mono; [|by apply wp_log_error_text]. intros [] s1 H1. apply wp_ret.
    split; [|done]. eapply ext_step_trans; [|exact H1]. by split.
Qed.

(** The effect of [fromString] on a variable. *)
Definition assign_text {t} (str : string) (var : ConfigVar Cb t) : ConfigVar Cb t :=
  match parse t str with Some v => set_m_val (new_val t v (m_val var)) var | None => var end.

Lemma wp_fromString {t} p (var : ConfigVar Cb t) str s :
  c_vars s !! p = Some (AnyVar t var) → c_locks s !! LkVar p = None → log_inv (c_ext s) →
  (∀ k c, (k, c) ∈ m_cbs var → quiet c) →
  wp (fromString run_cb p str) (λ b s', b = is_some (parse t str) ∧
    ext_step (upd p (assign_text str var) s) s') s.
Proof.
  intros Hp Hl Hi Hq. unfold fromString, assign_text. apply wp_bind. eapply wp_deref; [done|].
  apply wp_catch, wpx_bind, wpx_zoom. eapply wpx_mono; [..|by apply from_string_ok].
  - intros v e [-> He]. apply wpx_bind, wpx_wp.
    eapply wp_mono; [|by apply (wp_setValue p var)]. intros [] s1 H1. apply wpx_ret.
    split; [done|]. by destruct H1.
  - intros [what|] e (Hx & -> & He); [|done]. apply wp_bind.
    eapply wp_mono; [|by apply wp_log_error_text]. intros [] s1 H1. apply wp_ret.
    rewrite upd_id by done. split; [done|]. eapply ext_step_trans; [|exact H1]. by split.
Qed.

(** *** Listeners *)
Definition bumped (t : ty) s : Z := wrapU 64 (c_fun_id s t + 1).

Lemma wp_addListener {t} p (var : ConfigVar Cb t) c (Q : Z → Cfg Cb → Prop) s :
  c_vars s !! p = Some (AnyVar t var) → c_locks s !! LkVar p = None →
  Q (bumped t s) (upd p (set_m_cbs (smap_set (bumped t s) c (m_cbs var)) var)
    (set_c_fun_id (λ t', if decide (t' = t) then bumped t s else c_fun_id s t') s)) →
  wp (addListener t p c) Q s.
Proof.
  intros Hp Hl HQ. apply (wp_WriteLock (LkVar p)); [done|]. apply wp_bind.
  unfold wp at 1, bump_fun_id. apply wp_bind, (wp_load_var p var); [done|].
  apply wp_bind, wp_modify, wp_ret. split; [done|]. by destruct s.
Qed.

(** *** The registry *)
Lemma wp_LookupBase name (Q : option nat → Cfg Cb → Prop) s :
  c_locks s !! LkConfig = None → Q (c_datas s !! name) s → wp (LookupBase name) Q s.
Proof.
  intros Hl HQ. apply (wp_ReadLock LkConfig); [done|]. apply wp_bind, wp_get, wp_ret.
  split; [done|]. by destruct s.
Qed.

(** The variable registered under a name, if it has the type. *)
Definition registered s t name : option nat :=
  p ← c_datas s !! name; x ← c_vars s !! p; guard (any_ty x = t);; Some p.

Lemma wp_Lookup t name s : cfg_wf s →
  wp (Lookup t name) (λ r s', r = registered s t name ∧ ext_step s s') s.
Proof.
  intros [Hh Hl]. apply (wp_ReadLock LkConfig); [by simpl; rewrite Hl|].
  apply wp_bind, wp_get. simpl.
  unfold registered. destruct (c_datas s !! name) as [p|] eqn:Hname.
  2: { apply wp_ret. split; [done|]. split; [done|]. split; [by destruct s|apply Hh]. }
  destruct (ch_datas s Hh name p Hname) as (_ & [t' v] & Hx & _).
  apply wp_bind. eapply wp_deref; [done|]. simpl. rewrite Hx. simpl.
  destruct (decide (t' = t)) as [->|Hne].
  { rewrite cast_var_refl. apply wp_ret. split; [done|]. rewrite option_guard_True by done.
    split; [done|]. split; [by destruct s|apply Hh]. }
  rewrite cast_var_None, option_guard_False by done. apply wp_bind. eapply wp_mono.
  2: { apply wp_log_error; [apply Hh|]. intros s1 [Hs1 Hi1]. rewrite Hs1.
       apply wp_bind, wp_bind, (wp_deref _ _ (AnyVar t' v)); [done|]. apply wp_ret, wp_bind.
       eapply wp_mono; [|apply (wp_toString p v); [done| |done]].
       - intros str s2 [H2 _]. by apply wp_ret.
       - simpl. by rewrite lookup_insert_ne, Hl. }
  intros [] s1 (Hlk & H1)%ext_step_unlock. apply wp_ret. done.
Qed.
End inv.
