(* ===== verification/ConfigThm.v ===== *)
(** * Correctness of the configuration system

    Loading a YAML document refines assignments to an abstract map from
    names to values; any sequence of operations keeps the registry's
    invariant and never blocks; listeners and failures behave as the code
    promises. *)
From S2P Require Import Prelude CppStd Lock Yaml Config ConfigInv.

(** ** The entries of a document *)
Section members.
Context `{Yaml}.

Definition key_of (k : Node) : string := match Scalar k with inr s => s | inl _ => "" end.

(** What [ListAllMember] should produce: the nodes whose path consists of
    valid characters only, parents before children, in document order. *)
Fixpoint members (prefix : string) (node : Node) : list (string * Node) :=
  match find_first_not_of name_chars prefix with
  | Some _ => []
  | None =>
      (prefix, node) ::
      match node with
      | NMap l => concat (map (λ kv, match kv with (k, v) => members (member_name prefix (key_of k)) v end) l)
      | _ => []
      end
  end.

(** The text handed to [fromString]. *)
Definition node_text (n : Node) : string := if IsScalar n then key_of n else Emit n.
End members.

Section thm.
Context {Ext : Type} `{Hty : CfgTypesOk Ext} `{Hyl : YamlLaws} {Cb : ty → Type}.
Context (run_cb : ∀ t, Cb t → val t → val t → M (Cfg Cb) unit).
Implicit Types (s : Cfg Cb).

Lemma key_of_ok k : wf_node k = true → Scalar k = inr (key_of k).
Proof.
  intros Hk. unfold key_of. destruct (scalar_valid k) as [x Hx]; [by intros ->|]. by rewrite Hx.
Qed.

Lemma wp_ListAllMember node prefix output s : wf_node node = true → log_inv (c_ext s) →
  wp (ListAllMember prefix node output)
    (λ r s', r = output ++ members prefix node ∧ ext_step s s') s.
Proof.
  revert prefix output s. induction node as [| |str|l _|l IH] using Node_ind';
    intros prefix output s Hwf Hi; simpl;
    (destruct (find_first_not_of name_chars prefix);
      [apply wp_bind; eapply wp_mono; [|by apply wp_log_error_text];
       intros [] s1 H1; apply wp_ret; by rewrite app_nil_r|]);
    try (apply wp_ret; split; [done|by apply ext_step_refl]).
  set (rest := concat _). rewrite (cons_middle (prefix, NMap l) output rest), app_assoc. subst rest.
  generalize (output ++ [(prefix, NMap l)]). simpl in Hwf.
  clear output. revert s Hi Hwf. induction IH as [|[k v] l [_ IHv] _ IHl]; intros s Hi Hwf output; simpl.
  { apply wp_ret. rewrite app_nil_r. split; [done|by apply ext_step_refl]. }
  simpl in Hwf, IHv. rewrite !andb_true_iff in Hwf. destruct Hwf as [[Hk Hv] Hl].
  apply wp_bind. eapply wp_ycall; [by apply key_of_ok|]. apply wp_bind.
  eapply wp_mono; [|by apply IHv]. intros r s1 [-> H1].
  eapply wp_mono; [|apply IHl; [apply H1|done]]. intros r s2 [-> H2].
  split; [by rewrite app_assoc|by eapply ext_step_trans].
Qed.

(** ** The abstract configuration: values by name *)
Record anyval := AnyVal { av_ty : ty; av_val : val av_ty }.

Definition value_of (x : anyvar Cb) : anyval := AnyVal (any_ty x) (m_val (any_var x)).
Definition view s : gmap string anyval := omap (λ p, value_of <$> c_vars s !! p) (c_datas s).

Definition assign_val (str : string) (x : anyval) : anyval :=
  match parse (av_ty x) str with
  | Some v => AnyVal (av_ty x) (new_val (av_ty x) v (av_val x))
  | None => x
  end.

(** One entry of a document: the variable of that name, if it exists and
    the text can be read, takes the value. *)
Definition load_entry (c : gmap string anyval) (i : string * Node) : gmap string anyval :=
  if str_empty i.1 then c else alter (assign_val (node_text i.2)) (transform tolower i.1) c.
Definition load_entries (l : list (string * Node)) (c : gmap string anyval) : gmap string anyval :=
  foldl load_entry c l.

Lemma view_lookup s name : view s !! name = p ← c_datas s !! name; value_of <$> c_vars s !! p.
Proof. unfold view. by rewrite lookup_omap. Qed.

Lemma view_ext s s' : ext_step s s' → view s' = view s.
Proof. by intros [-> _]. Qed.

(** Replacing the value of one variable changes the view at its name. *)
Lemma view_upd {t} name p (var var' : ConfigVar Cb t) (f : anyval → anyval) s : cfg_heap s →
  c_datas s !! name = Some p → c_vars s !! p = Some (AnyVar t var) →
  f (value_of (AnyVar t var)) = value_of (AnyVar t var') →
  view (upd p var' s) = alter f name (view s).
Proof.
  intros Hh Hn Hp Hf. apply map_eq. intros n. rewrite view_lookup. simpl.
  destruct (decide (n = name)) as [->|Hne].
  - rewrite lookup_alter_eq, view_lookup, Hn. simpl. by rewrite lookup_insert_eq, Hp; simpl; rewrite Hf.
  - rewrite lookup_alter_ne, view_lookup by done. destruct (c_datas s !! n) as [q|] eqn:Hq; [|done].
    simpl. rewrite lookup_insert_ne; [done|]. intros ->. apply Hne. by apply (datas_inj s n name q).
Qed.

(** A change of the listeners is not seen in the view. *)
Lemma view_upd_same {t} p (var var' : ConfigVar Cb t) s : c_vars s !! p = Some (AnyVar t var) →
  m_val var' = m_val var → view (upd p var' s) = view s.
Proof.
  intros Hp Hv. apply map_eq. intros n. rewrite !view_lookup. simpl. destruct (c_datas s !! n) as [q|]; [|done].
  simpl. destruct (decide (q = p)) as [->|Hne]; [|by rewrite lookup_insert_ne].
  rewrite lookup_insert_eq, Hp. unfold value_of. simpl. by rewrite Hv.
Qed.

Lemma cfg_heap_upd {t} p (var var' : ConfigVar Cb t) s :
  c_vars s !! p = Some (AnyVar t var) → m_name var' = m_name var →
  cbs_ok (c_fun_id s t) (m_cbs var') → cfg_heap s → cfg_heap (upd p var' s).
Proof.
  intros Hp Hname Hcbs Hh. split; simpl; try apply Hh.
  - intros q x [[<- <-]|[_ Hq]]%lookup_insert_Some; by eapply (ch_next s Hh).
  - intros q t' v [[<- Heq]|[_ Hq]]%lookup_insert_Some; [|by apply (ch_cbs s Hh q)].
    pose proof (f_equal any_ty Heq) as Ht. simpl in Ht. subst t'. by apply AnyVar_inj in Heq as <-.
  - intros n q (Hv & x & Hx & Hn)%(ch_datas s Hh). split; [done|].
    destruct (decide (q = p)) as [->|Hne].
    + exists (AnyVar t var'). rewrite lookup_insert_eq. split; [done|].
      rewrite Hp in Hx. injection Hx as <-. by rewrite <-Hn.
    + exists x. by rewrite lookup_insert_ne.
Qed.

Lemma assign_text_ok {t} fid str (var : ConfigVar Cb t) :
  m_name (assign_text str var) = m_name var ∧ m_cbs (assign_text str var) = m_cbs var ∧
  (cbs_ok fid (m_cbs var) → cbs_ok fid (m_cbs (assign_text str var))).
Proof. unfold assign_text. by destruct (parse t str). Qed.

Lemma assign_text_val {t} str (var : ConfigVar Cb t) :
  assign_val str (value_of (AnyVar t var)) = value_of (AnyVar t (assign_text str var)).
Proof. unfold assign_text, assign_val. simpl. by destruct (parse t str). Qed.

(** ** Loading *)

(** Only values of variables changed. *)
Record val_step s s' : Prop := {
  vs_datas : c_datas s' = c_datas s;
  vs_fun_id : c_fun_id s' = c_fun_id s;
  vs_vars p t (var : ConfigVar Cb t) : c_vars s !! p = Some (AnyVar t var) →
    ∃ v, c_vars s' !! p = Some (AnyVar t (set_m_val v var));
}.

Lemma val_step_refl s : val_step s s.
Proof. split; [done..|]. intros p t var Hp. exists (m_val var). rewrite Hp. by destruct var. Qed.

Lemma val_step_ext s s' : ext_step s s' → val_step s s'.
Proof. intros [-> _]. split; [done..|]. apply (val_step_refl s). Qed.

Lemma val_step_trans s1 s2 s3 : val_step s1 s2 → val_step s2 s3 → val_step s1 s3.
Proof.
  intros [Hd Hf Hv] [Hd' Hf' Hv']. split; [congruence..|]. intros p t var Hp.
  destruct (Hv _ _ _ Hp) as [v Hp']. destruct (Hv' _ _ _ Hp') as [v' ->]. by exists v'.
Qed.

Lemma val_step_assign {t} p (var : ConfigVar Cb t) str s s' :
  c_vars s !! p = Some (AnyVar t var) → ext_step (upd p (assign_text str var) s) s' → val_step s s'.
Proof.
  intros Hp [-> _]. split; [done..|]. intros q t' var' Hq. simpl.
  destruct (decide (q = p)) as [->|Hne].
  - rewrite lookup_insert_eq. assert (AnyVar t var = AnyVar t' var') as Heq by congruence.
    pose proof (f_equal any_ty Heq) as Ht. simpl in Ht. subst t'. apply AnyVar_inj in Heq as <-.
    unfold assign_text. destruct (parse t str); [by eexists|]. exists (m_val var). by destruct var.
  - rewrite lookup_insert_ne by done. exists (m_val var'). rewrite Hq. by destruct var'.
Qed.

Section load.
Hypothesis Hquiet : ∀ t (c : Cb t), quiet run_cb c.

(** [fromString] in a well-formed state. *)
Lemma wp_fromString_wf {t} p (var : ConfigVar Cb t) str s :
  cfg_wf s → c_vars s !! p = Some (AnyVar t var) →
  wp (fromString run_cb p str) (λ b s', b = is_some (parse t str) ∧ cfg_wf s' ∧ val_step s s' ∧
    ∀ name, c_datas s !! name = Some p → view s' = alter (assign_val str) name (view s)) s.
Proof.
  intros [Hh Hl] Hp. eapply wp_mono; [|apply (wp_fromString run_cb p var); [done|by rewrite Hl|apply Hh|eauto]].
  intros b s' [-> Hs']. split; [done|]. split_and!.
  - eapply cfg_wf_ext; [exact Hs'|]. split; [|done].
    destruct (assign_text_ok (c_fun_id s t) str var) as (Hn & _ & Hc).
    apply (cfg_heap_upd p var); [done..| |done]. by apply Hc, (ch_cbs s Hh p).
  - by eapply val_step_assign.
  - intros name Hname. rewrite (view_ext _ _ Hs'). eapply view_upd; [done..|].
    apply assign_text_val.
Qed.

Definition load_body (i : string * Node) : M (Cfg Cb) unit :=
  if str_empty i.1 then mret tt
  else
    var ← LookupBase (transform tolower i.1);
    match var with
    | None => mret tt
    | Some p =>
        if IsScalar i.2 then v ← ycall (Scalar i.2); fromString run_cb p v;; mret tt
        else fromString run_cb p (Emit i.2);; mret tt
    end.

Lemma load_body_text i s :
  load_body i s = (if str_empty i.1 then mret tt
    else var ← LookupBase (transform tolower i.1);
      match var with
      | None => mret tt
      | Some p => fromString run_cb p (node_text i.2);; mret tt
      end) s.
Proof.
  unfold load_body, node_text, key_of. destruct (str_empty i.1); [done|].
  unfold mbind, M_bind. destruct (LookupBase _ s) as [[p|] s1| |]; try done.
  destruct i as [k []]; simpl; try done. by rewrite scalar_scalar.
Qed.

Lemma wp_load_body i s : cfg_wf s →
  wp (load_body i) (λ _ s', cfg_wf s' ∧ val_step s s' ∧ view s' = load_entry (view s) i) s.
Proof.
  intros Hwf. unfold wp. rewrite load_body_text. unfold load_entry.
  destruct (str_empty i.1); [split_and!; [done|apply val_step_refl|done]|].
  apply wp_bind, wp_LookupBase; [by destruct Hwf as [_ ->]|].
  destruct (c_datas s !! transform tolower i.1) as [p|] eqn:Hname.
  - destruct (ch_datas s (proj1 Hwf) _ _ Hname) as (_ & [t var] & Hp & _).
    apply wp_bind. eapply wp_mono; [|by apply (wp_fromString_wf p var)].
    intros b s' (_ & Hwf' & Hv & Hview). apply wp_ret. auto.
  - apply wp_ret. split_and!; [done|apply val_step_refl|].
    symmetry. apply alter_id. intros x. by rewrite view_lookup, Hname.
Qed.

Lemma wp_LoadFromYaml root s : wf_node root = true → cfg_wf s →
  wp (LoadFromYaml run_cb root) (λ _ s', cfg_wf s' ∧ val_step s s' ∧
    view s' = load_entries (members "" root) (view s)) s.
Proof.
  intros Hr Hwf. unfold LoadFromYaml. apply wp_bind.
  eapply wp_mono; [|apply wp_ListAllMember; [done|apply Hwf]]. intros l s1 [-> H1]. simpl.
  apply (wp_foreach _ load_body (λ l s', cfg_wf s' ∧ val_step s s' ∧
    load_entries l (view s') = load_entries (members "" root) (view s))).
  - intros i l s2 _ (Hwf2 & Hv2 & <-). eapply wp_mono; [|by apply wp_load_body].
    intros [] s3 (Hwf3 & Hv3 & Hview). split_and!; [done|by eapply val_step_trans|].
    by rewrite Hview.
  - split_and!; [by eapply cfg_wf_ext|by apply val_step_ext|by rewrite (view_ext _ _ H1)].
Qed.

(** ** Registration *)
Definition register {t} (name : string) (var : ConfigVar Cb t) s : Cfg Cb :=
  mkCfg (<[c_next s := AnyVar t var]> (c_vars s)) (S (c_next s)) (<[name := c_next s]> (c_datas s))
    (c_fun_id s) (c_locks s) (c_ext s).

Lemma wpx_Lookup_default t name (d : val t) desc s : cfg_wf s →
  wpx (Lookup_default t name d desc)
    (λ p s', match registered s t name with
      | Some q => p = q ∧ ext_step s s'
      | None => valid_name name ∧ p = c_next s ∧ ext_step (register name (ConfigVar_new name d desc) s) s'
      end)
    (λ e s', e = StdException name ∧ registered s t name = None ∧ ¬ valid_name name ∧ ext_step s s') s.
Proof.
  intros Hwf. unfold Lookup_default. apply wpx_bind, wpx_wp.
  eapply wp_mono; [|by apply wp_Lookup]. intros r s1 [-> H1].
  destruct (registered s t name) as [q|].
  { apply wpx_bind, wpx_wp. eapply wp_mono; [|apply wp_log_error_text, H1]. intros [] s2 H2.
    apply wpx_ret. split; [done|by eapply ext_step_trans]. }
  destruct (find_first_not_of name_chars name) as [i|] eqn:Hv.
  { apply wpx_bind, wpx_wp. eapply wp_mono; [|apply wp_log_error_text, H1]. intros [] s2 H2.
    split_and!; [done..| |by eapply ext_step_trans]. unfold valid_name. by rewrite Hv. }
  apply wpx_wp, wp_bind. unfold wp at 1, new_var. apply (wp_WriteLock LkConfig).
  { simpl. destruct H1 as [-> _]. simpl. by destruct Hwf as [_ ->]. }
  apply wp_bind, wp_modify, wp_ret. destruct H1 as [-> Hi]. split_and!; try done.
Qed.

Lemma cfg_heap_register {t} name (var : ConfigVar Cb t) s :
  valid_name name → m_name var = name → m_cbs var = [] → cfg_heap s → cfg_heap (register name var s).
Proof.
  intros Hv Hn Hc Hh. split; simpl; try apply Hh.
  - intros q x [[<- _]|[_ Hq%(ch_next s Hh)]]%lookup_insert_Some; lia.
  - intros q t' v [[<- Heq]|[_ Hq]]%lookup_insert_Some; [|by apply (ch_cbs s Hh q)].
    pose proof (f_equal any_ty Heq) as Ht. simpl in Ht. subst t'. apply AnyVar_inj in Heq as <-.
    rewrite Hc. split; [constructor|]. by intros ? ? ?%elem_of_nil.
  - intros n p [[<- <-]|[Hne Hp]]%lookup_insert_Some.
    + split; [done|]. exists (AnyVar t var). by rewrite lookup_insert_eq.
    + destruct (ch_datas s Hh n p Hp) as (Hvn & x & Hx & Hxn). split; [done|]. exists x.
      split; [|done]. rewrite lookup_insert_ne; [done|]. apply (ch_next s Hh) in Hx. lia.
Qed.

Lemma cfg_heap_bump t id s : (0 ≤ id < 2 ^ 64)%Z → (c_fun_id s t ≤ id)%Z → cfg_heap s →
  cfg_heap (set_c_fun_id (λ t', if decide (t' = t) then id else c_fun_id s t') s).
Proof.
  intros Hid Hle Hh. split; simpl; try apply Hh.
  - intros t'. destruct (decide (t' = t)); [done|apply Hh].
  - intros p t' v Hp. destruct (ch_cbs s Hh p t' v Hp) as [Hs Hr].
    destruct (decide (t' = t)) as [->|]; [|by split]. split; [done|].
    intros k c Hin. specialize (Hr k c Hin). lia.
Qed.

(** The next key has not been handed out, unless the counter wraps. *)
Lemma bumped_small t s : cfg_heap s → (c_fun_id s t + 1 < 2 ^ 64)%Z → bumped t s = (c_fun_id s t + 1)%Z.
Proof. intros Hh Hlt. apply wrapU_small. pose proof (ch_fun_id s Hh t). lia. Qed.

Lemma cbs_ok_add {A} fid k (c : A) l : cbs_ok fid l → (1 ≤ k)%Z → (fid ≤ k)%Z →
  cbs_ok k (smap_set k c l).
Proof.
  intros [Hs Hr] H1 Hle. split; [by apply smap_set_sorted|].
  intros k' c' [[= -> _]|Hin]%smap_set_elem; [lia|]. specialize (Hr k' c' Hin). lia.
Qed.

Lemma wp_addListener_wf {t} p (var : ConfigVar Cb t) c s :
  cfg_wf s → c_vars s !! p = Some (AnyVar t var) → (c_fun_id s t + 1 < 2 ^ 64)%Z →
  wp (addListener t p c) (λ id s', id = (c_fun_id s t + 1)%Z ∧ cfg_wf s' ∧ view s' = view s ∧
    c_fun_id s' t = id ∧
    c_vars s' = <[p := AnyVar t (set_m_cbs (smap_set id c (m_cbs var)) var)]> (c_vars s)) s.
Proof.
  intros [Hh Hl] Hp Hlt. apply (wp_addListener p var); [done|by rewrite Hl|].
  pose proof (ch_fun_id s Hh t) as Hid. rewrite (bumped_small t s Hh Hlt).
  split_and!; [done| | |by simpl; rewrite decide_True|done].
  - split; [|done]. apply (cfg_heap_upd p var); [done|done| |].
    + simpl. rewrite decide_True by done.
      apply (cbs_ok_add (c_fun_id s t)); [by apply (ch_cbs s Hh p)|lia..].
    + apply cfg_heap_bump; [lia..|done].
  - apply map_eq. intros n. rewrite !view_lookup. simpl. destruct (c_datas s !! n) as [q|]; [|done].
    simpl. destruct (decide (q = p)) as [->|Hne]; [by rewrite lookup_insert_eq, Hp|].
    by rewrite lookup_insert_ne.
Qed.

Lemma cfg_wf_cbs {t} p (var : ConfigVar Cb t) l s : cfg_wf s →
  c_vars s !! p = Some (AnyVar t var) → cbs_ok (c_fun_id s t) l →
  cfg_wf (upd p (set_m_cbs l var) s).
Proof. intros [Hh Hl] Hp Hc. split; [|done]. by apply (cfg_heap_upd p var). Qed.

Lemma cbs_ok_erase {A} fid k (l : list (Z * A)) : cbs_ok fid l → cbs_ok fid (smap_erase k l).
Proof.
  intros [Hs Hr]. split; [by apply smap_erase_sorted|].
  intros k' c' ?%smap_erase_elem. by eapply Hr.
Qed.

Lemma cbs_ok_nil {A} fid : cbs_ok fid ([] : list (Z * A)).
Proof. split; [constructor|]. by intros ? ? ?%elem_of_nil. Qed.

Lemma wp_setValue_wf {t} p (var : ConfigVar Cb t) v s :
  cfg_wf s → c_vars s !! p = Some (AnyVar t var) →
  wp (setValue run_cb t p v) (λ _, cfg_wf) s.
Proof.
  intros [Hh Hl] Hp. eapply wp_mono; [|apply (wp_setValue run_cb p var); [done|by rewrite Hl|apply Hh|eauto]].
  intros [] s' Hs'. eapply cfg_wf_ext; [exact Hs'|]. split; [|done].
  apply (cfg_heap_upd p var); [done|done| |done]. apply (ch_cbs s Hh p t var Hp).
Qed.

(** ** Sequences of operations *)
Variable order : gmap string nat → list (string * nat).
Hypothesis Horder : ∀ m, order m ≡ₚ map_to_list m.

Inductive cfg_cmd :=
| CmdGetValue (t : ty) (p : nat)
| CmdSetValue (t : ty) (p : nat) (v : val t)
| CmdToString (p : nat)
| CmdFromString (p : nat) (str : string)
| CmdAddListener (t : ty) (p : nat) (c : Cb t)
| CmdDelListener (t : ty) (p : nat) (key : Z)
| CmdGetListener (t : ty) (p : nat) (key : Z)
| CmdClearListener (t : ty) (p : nat)
| CmdLookup (t : ty) (name : string)
| CmdLookupDefault (t : ty) (name : string) (d : val t) (desc : string)
| CmdLookupBase (name : string)
| CmdVisit
| CmdLoadFromYaml (root : Node).

Definition run_cfg (c : cfg_cmd) : M (Cfg Cb) unit :=
  match c with
  | CmdGetValue t p => getValue t p;; mret tt
  | CmdSetValue t p v => setValue run_cb t p v
  | CmdToString p => toString p;; mret tt
  | CmdFromString p str => fromString run_cb p str;; mret tt
  | CmdAddListener t p c => addListener t p c;; mret tt
  | CmdDelListener t p key => delListener t p key
  | CmdGetListener t p key => getListener t p key;; mret tt
  | CmdClearListener t p => clearListener t p
  | CmdLookup t name => Lookup t name;; mret tt
  | CmdLookupDefault t name d desc => Lookup_default t name d desc;; mret tt
  | CmdLookupBase name => LookupBase name;; mret tt
  | CmdVisit => Visit order (λ p, toString p;; mret tt)
  | CmdLoadFromYaml root => LoadFromYaml run_cb root
  end.

(** A pointer to a [ConfigVar<T>]. *)
Definition has_var (t : ty) (p : nat) s : Prop := ∃ var, c_vars s !! p = Some (AnyVar t var).

(** What a C++ caller guarantees: pointers come from a look-up, and a
    document comes from the parser; less than 2^64 listeners are added. *)
Definition cfg_ok s (c : cfg_cmd) : Prop :=
  match c with
  | CmdGetValue t p | CmdSetValue t p _ | CmdDelListener t p _
  | CmdGetListener t p _ | CmdClearListener t p => has_var t p s
  | CmdAddListener t p _ => has_var t p s ∧ (c_fun_id s t + 1 < 2 ^ 64)%Z
  | CmdToString p | CmdFromString p _ => is_Some (c_vars s !! p)
  | CmdLoadFromYaml root => wf_node root = true
  | CmdLookup _ _ | CmdLookupDefault _ _ _ _ | CmdLookupBase _ | CmdVisit => True
  end.

Lemma wp_Visit cb s : cfg_wf s →
  (∀ name p s', c_datas s !! name = Some p → ext_step (set_c_locks {[LkConfig := Shared 1]} s) s' →
    wp (cb p) (λ _, ext_step s') s') →
  wp (Visit order cb) (λ _, ext_step s) s.
Proof.
  intros [Hh Hl] Hcb. apply (wp_ReadLock LkConfig); [by simpl; rewrite Hl|]. apply wp_bind, wp_get.
  simpl. rewrite Hl. set (s0 := set_c_locks _ s). apply wp_mono with (λ _ s', ext_step s0 s').
  { intros [] s' Hs'. apply ext_step_unlock in Hs' as [-> Hs']. by rewrite Hl in Hs'. }
  apply wp_foreach_inv; [|by apply ext_step_refl, Hh]. intros [name p] s1 Hin H1.
  rewrite Horder in Hin. apply elem_of_map_to_list in Hin.
  eapply wp_mono; [|by apply (Hcb name)]. intros [] s2 H2. by eapply ext_step_trans.
Qed.

Lemma wp_Visit_toString s : cfg_wf s → wp (Visit order (λ p, toString p;; mret tt)) (λ _, cfg_wf) s.
Proof.
  intros Hwf. apply wp_mono with (λ _, ext_step s); [intros [] s' Hs'; by eapply cfg_wf_ext|].
  apply wp_Visit; [done|].
  intros name p s1 Hname [Hs1 Hi]. destruct (ch_datas s (proj1 Hwf) name p Hname) as (_ & [t var] & Hp & _).
  apply wp_bind.
  eapply wp_mono; [|apply (wp_toString p var); [by rewrite Hs1| |done]].
  2: { rewrite Hs1. simpl. by apply lookup_singleton_ne. }
  intros str s2 [H2 _]. by apply wp_ret.
Qed.

(** Every operation keeps the invariant; only the registering look-up
    throws, on an invalid name. *)
Lemma wpx_run_cfg c s : cfg_wf s → cfg_ok s c →
  wpx (run_cfg c) (λ _, cfg_wf) (λ x s', cfg_wf s' ∧ ∃ t name d desc,
    c = CmdLookupDefault t name d desc ∧ x = StdException name ∧ ¬ valid_name name) s.
Proof.
  intros Hwf Hok. pose proof Hwf as [Hh Hl].
  assert (∀ p, c_locks s !! LkVar p = None) as Hfree by (intros p; by rewrite Hl).
  destruct c as [t p|t p v|p|p str|t p c|t p key|t p key|t p|t name|t name d desc|name| |root]; simpl in *.
  10: { apply wpx_bind. eapply wpx_mono; [..|by apply wpx_Lookup_default].
    - intros p s'. destruct (registered s t name); [intros [_ Hs']; by eapply cfg_wf_ext|].
      intros (Hv & _ & Hs'). eapply cfg_wf_ext; [exact Hs'|]. split; [|done].
      apply cfg_heap_register; [done| |done..]. by apply valid_name_lower.
    - intros x s' (-> & _ & Hv & Hs'). split; [by eapply cfg_wf_ext|]. eauto 10. }
  all: apply wpx_wp.
  - destruct Hok as [var Hp]. apply wp_bind, (wp_read_var p var); auto.
  - destruct Hok as [var Hp]. by eapply wp_setValue_wf.
  - destruct Hok as [[t var] Hp]. apply wp_bind.
    eapply wp_mono; [|by apply (wp_toString p var); [..|apply Hh]].
    intros str s' [Hs' _]. by eapply wp_ret, cfg_wf_ext.
  - destruct Hok as [[t var] Hp]. apply wp_bind.
    eapply wp_mono; [|by apply (wp_fromString_wf p var)]. intros b s' (_ & ? & _). by apply wp_ret.
  - destruct Hok as [[var Hp] Hid]. apply wp_bind.
    eapply wp_mono; [|by apply (wp_addListener_wf p var)]. intros b s' (_ & ? & _). by apply wp_ret.
  - destruct Hok as [var Hp]. apply (wp_write_var p var); [done..|].
    apply cfg_wf_cbs; [done..|]. by apply cbs_ok_erase, (ch_cbs s Hh p).
  - destruct Hok as [var Hp]. apply wp_bind, (wp_read_var p var); auto.
  - destruct Hok as [var Hp]. apply (wp_write_var p var); [done..|].
    apply cfg_wf_cbs; [done..|]. apply cbs_ok_nil.
  - apply wp_bind. eapply wp_mono; [|by apply wp_Lookup]. intros r s' [_ Hs'].
    by eapply wp_ret, cfg_wf_ext.
  - apply wp_bind, wp_LookupBase; [by rewrite Hl|]. by apply wp_ret.
  - by apply wp_Visit_toString.
  - eapply wp_mono; [|by apply wp_LoadFromYaml]. by intros [] s' [? _].
Qed.

(** One operation of the program, which may end in an exception. *)
Inductive cfg_trans s : Cfg Cb → Prop :=
| trans_ret c s' : cfg_ok s c → run_cfg c s = Ret tt s' → cfg_trans s s'
| trans_throw c x s' : cfg_ok s c → run_cfg c s = Throw x s' → cfg_trans s s'.

Definition cfg_reach (e : Ext) s : Prop := rtc cfg_trans (cfg_init e) s.

Lemma cfg_init_wf e : log_inv e → cfg_wf (cfg_init (Cb := Cb) e).
Proof. intros He. split; [|done]. by split. Qed.

Lemma cfg_trans_wf s s' : cfg_trans s s' → cfg_wf s → cfg_wf s'.
Proof.
  intros [c s1 Hok Hr|c x s1 Hok Hr] Hwf; pose proof (wpx_run_cfg c s Hwf Hok) as Hw;
    unfold wpx in Hw; rewrite Hr in Hw; [done|apply Hw].
Qed.

Lemma cfg_reach_wf e s : log_inv e → cfg_reach e s → cfg_wf s.
Proof.
  intros He Hr. pose proof (cfg_init_wf e He) as Hwf. revert Hwf.
  induction Hr as [|s1 s2 s3 Hstep _ IH]; [done|]. intros Hwf. by eapply IH, cfg_trans_wf.
Qed.
End load.
End thm.
