(* ===== verification/ConfigSpec.v ===== *)
(** * Properties of the configuration system

    The theorems about [Config] and [ConfigVar], proved from the rules of
    [ConfigInv] and [ConfigThm], and their instances on a small concrete
    configuration. *)
From S2P Require Import Prelude CppStd Lock Yaml Config ConfigInv ConfigThm.

#[local] Arguments load_var : simpl never.

Section spec.
Context {Ext : Type} `{Hty : CfgTypesOk Ext} `{Hyl : YamlLaws} {Cb : ty → Type}.
Context (run_cb : ∀ t, Cb t → val t → val t → M (Cfg Cb) unit).
Implicit Types (s : Cfg Cb).


(** C3. If every listener is quiet (it returns, without throwing, and
    touches no configuration variable) and the document has no undefined
    node in it (none that was parsed has), loading it refines assignments
    to an abstract map: seen
    as a map from names to values, the registry after [LoadFromYaml] is the
    old one with the entries of the document (every path of valid names,
    parents before children) assigned one after the other, where an entry
    with no variable or an unreadable text changes nothing; names, types,
    descriptions and listeners stay. *)
Theorem LoadFromYaml_refines root s :
  (∀ t (c : Cb t), quiet run_cb c) → wf_node root = true → cfg_wf s →
  wp (LoadFromYaml run_cb root) (λ _ s', cfg_wf s' ∧ val_step s s' ∧
    view s' = load_entries (members "" root) (view s)) s.
Proof. intros. by apply wp_LoadFromYaml. Qed.

(** The texts a document has for a name, in document order. *)
Definition texts_of (name : string) (root : Node) : list string :=
  omap (λ i, if str_empty i.1 then None
             else if decide (transform tolower i.1 = name) then Some (node_text i.2) else None)
    (members "" root).

Lemma load_entries_lookup name l (c : gmap string anyval) :
  load_entries l c !! name = (λ x, foldl (flip assign_val) x
    (omap (λ i, if str_empty i.1 then None
             else if decide (transform tolower i.1 = name) then Some (node_text i.2) else None) l))
    <$> c !! name.
Proof.
  unfold load_entries. revert c. induction l as [|i l IH]; intros c; simpl; [by destruct (c !! name)|].
  rewrite IH. unfold load_entry. destruct (str_empty i.1); [done|].
  destruct (decide (transform tolower i.1 = name)) as [->|Hne].
  - rewrite lookup_alter_eq. by destruct (c !! name).
  - by rewrite lookup_alter_ne.
Qed.

Lemma assign_all_last {t} (old : val t) l : (∀ v w : val t, val_eqb t v w = true ↔ v = w) →
  foldl (flip assign_val) (AnyVal t old) l = AnyVal t (default old (last (omap (parse t) l))).
Proof.
  intros Heq. revert old. induction l as [|x l IH]; intros old; [done|]. simpl.
  unfold assign_val at 2. simpl. destruct (parse t x) as [v|]; [|apply IH].
  assert (new_val t v old = v) as ->.
  { unfold new_val. destruct (val_eqb t v old) eqn:E; [|done]. by apply Heq in E. }
  rewrite IH. change (list_omap _ _ (parse t) l) with (omap (parse t) l).
  destruct (omap (parse t) l) as [|w l']; [done|].
  rewrite last_cons_cons. by destruct (last (w :: l')) eqn:E; [|by apply last_None in E].
Qed.

(** After loading, each variable has the value of the last readable
    entry under its name, compared without case, and its old value if the
    document has none. *)
Theorem LoadFromYaml_last_wins root name t (old : val t) s :
  (∀ t (c : Cb t), quiet run_cb c) → wf_node root = true → cfg_wf s →
  (∀ v w : val t, val_eqb t v w = true ↔ v = w) →
  view s !! name = Some (AnyVal t old) →
  wp (LoadFromYaml run_cb root) (λ _ s',
    view s' !! name = Some (AnyVal t (default old (last (omap (parse t) (texts_of name root)))))) s.
Proof.
  intros Hq Hr Hwf Heq Hv. eapply wp_mono; [|by apply wp_LoadFromYaml]. intros [] s' (_ & _ & ->).
  rewrite load_entries_lookup, Hv. simpl. f_equal. by apply assign_all_last.
Qed.

(** C27. The registering look-up finds or creates: it returns the variable
    of that name and type if there is one; it throws
    [std::invalid_argument] on an invalid name; and otherwise it returns a
    new variable with the default value, which replaces a variable of
    another type in the registry.  No existing variable object changes. *)
Theorem Lookup_default_spec t name (d : val t) desc s :
  cfg_wf s →
  wpx (Lookup_default t name d desc)
    (λ p s', cfg_wf s' ∧ has_var t p s' ∧ c_datas s' !! name = Some p ∧
      (∀ q x, c_vars s !! q = Some x → c_vars s' !! q = Some x) ∧
      match registered s t name with
      | Some q => p = q ∧ view s' = view s
      | None => valid_name name ∧ c_vars s !! p = None ∧ view s' = <[name := AnyVal t d]> (view s)
      end)
    (λ e s', e = StdException name ∧ ¬ valid_name name ∧ registered s t name = None ∧
      cfg_wf s' ∧ view s' = view s) s.
Proof.
  intros Hwf. pose proof Hwf as [Hh Hl]. eapply wpx_mono; [..|by apply wpx_Lookup_default].
  - intros p s'. destruct (registered s t name) as [q|] eqn:Hreg.
    + intros [-> Hs']. split; [by eapply cfg_wf_ext|]. destruct Hs' as [-> _].
      unfold registered in Hreg. apply bind_Some in Hreg as (p & Hn & Hreg).
      apply bind_Some in Hreg as ([t' var] & Hp & Hreg). case_guard; [|done]. simplify_eq/=.
      split_and!; try done. by exists var.
    + intros (Hv & -> & Hs'). assert (c_vars s !! c_next s = None) as Hnew.
      { destruct (c_vars s !! c_next s) eqn:E; [|done]. apply (ch_next s Hh) in E. lia. }
      split_and!.
      * eapply cfg_wf_ext; [exact Hs'|]. split; [|done].
        apply cfg_heap_register; [done| |done..]. by apply valid_name_lower.
      * destruct Hs' as [-> _]. eexists. apply lookup_insert_eq.
      * destruct Hs' as [-> _]. apply lookup_insert_eq.
      * destruct Hs' as [-> _]. intros q x Hq. simpl. rewrite lookup_insert_ne; [done|].
        intros <-. congruence.
      * done.
      * done.
      * rewrite (view_ext _ _ Hs'). apply map_eq. intros n. rewrite view_lookup. simpl.
        destruct (decide (n = name)) as [->|Hne].
        { rewrite !lookup_insert_eq. simpl. by rewrite lookup_insert_eq. }
        rewrite !lookup_insert_ne, view_lookup by done.
        destruct (c_datas s !! n) as [q|] eqn:Hq; [|done]. simpl.
        destruct (ch_datas s Hh n q Hq) as (_ & x & Hx & _).
        rewrite lookup_insert_ne; [done|]. intros <-. congruence.
  - intros e s' (-> & Hn & Hv & Hs'). split_and!; try done; [by eapply cfg_wf_ext|by apply view_ext].
Qed.

(** ** Listeners with a known effect *)
Section effects.
Context {t : ty} (p : nat) (var : ConfigVar Cb t) (v : val t).
Context (eff : Cb t → Ext → Ext).

(** Called with the old and the new value, the listener acts on the
    environment by [eff] and returns. *)
Definition acts (c : Cb t) : Prop :=
  ∀ s, run_cb t c (m_val var) v s = Ret tt (set_c_ext (eff c (c_ext s)) s).

Definition notified (l : list (Z * Cb t)) (e : Ext) : Ext := foldl (λ e i, eff i.2 e) e l.

Lemma notify_eff l s : c_vars s !! p = Some (AnyVar t var) → (∀ k c, (k, c) ∈ l → acts c) →
  foreach l (λ i, var ← load_var t p; run_cb t i.2 (m_val var) v) s
  = Ret tt (set_c_ext (notified l (c_ext s)) s).
Proof.
  intros Hp. revert s Hp. induction l as [|[k c] l IH]; intros s Hp Hl; [by destruct s|].
  simpl. unfold mbind, M_bind in *. rewrite (load_var_eq p var s Hp), (Hl k c) by (by left).
  rewrite IH; [done|done|].
  intros k' c' ?. apply (Hl k'). by right.
Qed.

(** The first block of [setValue], under the read lock. *)
Lemma setValue_unfold s : c_vars s !! p = Some (AnyVar t var) → c_locks s = ∅ →
  val_eqb t v (m_val var) = false →
  setValue run_cb t p v s =
  match foreach (m_cbs var) (λ i, var ← load_var t p; run_cb t i.2 (m_val var) v)
          (set_c_locks {[LkVar p := Shared 1]} s) with
  | Ret _ s1 => (finally (mret false) (rwunlock (var_mutex p)) ≫= λ _,
      WriteScopedLockImpl (var_mutex p) (var ← load_var t p; store_var p (set_m_val v var))) s1
  | Throw x s1 => finally (throw x) (rwunlock (var_mutex p)) s1
  | Stuck r => Stuck r
  end.
Proof.
  intros Hp Hl Hne. unfold setValue, ReadScopedLockImpl, guard_scope, guard_new, guard_delete, guard_unlock.
  unfold mbind, M_bind, finally. simpl. unfold pthread_rwlock_rdlock. simpl. rewrite Hl, lookup_empty.
  simpl. rewrite (load_var_eq p var) by done. rewrite Hne.
  change (<[LkVar p := Shared 1]> ∅) with ({[LkVar p := Shared 1]} : gmap cfg_lock lkst).
  destruct (foreach _ _ _) as [[] s1|x s1|r]; simpl; try done;
    by destruct (pthread_rwlock_unlock _ s1).
Qed.
End effects.

(** C6. [setValue] notifies and stores: if the new value equals the
    current one nothing happens; otherwise, if every listener returns and
    acts on the environment only (C29 has those that throw or call the
    variable), the listeners are called once each, in the order of their keys, with the old and the new value, and
    then the variable holds the new value; nothing else changes and no
    lock stays taken. *)
Theorem setValue_notifies t p (var : ConfigVar Cb t) v eff s :
  cfg_wf s → c_vars s !! p = Some (AnyVar t var) →
  (∀ k c, (k, c) ∈ m_cbs var → acts var v eff c) →
  sset_sorted fst (m_cbs var) ∧
  setValue run_cb t p v s = Ret tt (if val_eqb t v (m_val var) then s
    else set_c_ext (notified eff (m_cbs var) (c_ext s)) (upd p (set_m_val v var) s)).
Proof.
  intros [Hh Hl] Hp Hacts. split; [by apply (ch_cbs s Hh p)|].
  destruct (val_eqb t v (m_val var)) eqn:Heq.
  { assert (wp (setValue run_cb t p v) (λ _ s', s' = s) s) as Hw.
    { unfold setValue. apply wp_bind, (wp_ReadLock (LkVar p)); [by simpl; rewrite Hl|].
      apply wp_bind, (wp_load_var p var); [done|]. rewrite Heq. apply wp_ret. split; [done|].
      apply wp_ret. by destruct s. }
    apply wp_returns in Hw as ([] & s' & -> & ->). done. }
  rewrite (setValue_unfold p var) by done. rewrite (notify_eff p var v eff) by done.
  unfold finally, mbind, M_bind. simpl. unfold pthread_rwlock_unlock. simpl.
  rewrite lookup_singleton_eq. simpl. rewrite delete_singleton_eq.
  assert (∀ s0, wp (WriteScopedLockImpl (var_mutex p) (var ← load_var t p; store_var p (set_m_val v var)))
    (λ _ s', s' = upd p (set_m_val v var) s0) s0 → WriteScopedLockImpl (var_mutex p)
      (var ← load_var t p; store_var p (set_m_val v var)) s0 = Ret tt (upd p (set_m_val v var) s0)) as Hr.
  { intros s0 ([] & s' & -> & ->)%wp_returns. done. }
  unfold mbind, M_bind in Hr. rewrite Hr; [by rewrite <-Hl; destruct s|].
  by apply (wp_write_var p var).
Qed.

(** A listener that throws stops the assignment: the listeners before
    it have been called, those after it have not, the variable keeps its
    value and the read lock is released; through [fromString] the caller
    sees [false] and a configuration that has not changed. *)
Lemma setValue_aborted t p (var : ConfigVar Cb t) v eff thr l1 k c l2 x s :
  cfg_wf s → c_vars s !! p = Some (AnyVar t var) → val_eqb t v (m_val var) = false →
  m_cbs var = l1 ++ (k, c) :: l2 → (∀ k c, (k, c) ∈ l1 → acts var v eff c) →
  (∀ s, run_cb t c (m_val var) v s = Throw (StdException x) (set_c_ext (thr (c_ext s)) s)) →
  setValue run_cb t p v s = Throw (StdException x) (set_c_ext (thr (notified eff l1 (c_ext s))) s) ∧
  (∀ str, parse t str = Some v → (∀ e, log_inv e → log_inv (thr (notified eff l1 e))) →
    wp (fromString run_cb p str) (λ b s', b = false ∧ cfg_wf s' ∧ view s' = view s) s).
Proof.
  intros Hwf Hp Hne Hcbs Hacts Hthr.
  assert (∀ s, c_locks s = ∅ → c_vars s !! p = Some (AnyVar t var) → setValue run_cb t p v s
    = Throw (StdException x) (set_c_ext (thr (notified eff l1 (c_ext s))) s)) as Hset.
  { clear s Hwf Hp. intros s Hl Hp. rewrite (setValue_unfold p var) by done.
    rewrite Hcbs, foreach_app. unfold mbind at 1, M_bind. rewrite (notify_eff p var v eff) by done.
    simpl. unfold mbind, M_bind. rewrite (load_var_eq p var) by done. rewrite Hthr.
    unfold finally. simpl. unfold pthread_rwlock_unlock. simpl. rewrite lookup_singleton_eq. simpl.
    rewrite delete_singleton_eq, <-Hl. by destruct s. }
  split; [by apply Hset; [apply Hwf|]|]. intros str Hparse Hinv.
  unfold fromString. apply wp_bind. eapply wp_deref; [done|]. apply wp_catch, wpx_bind, wpx_zoom.
  eapply wpx_mono; [..|apply from_string_ok, Hwf].
  - intros v' e [Hv' He]. assert (v' = v) as -> by congruence. apply wpx_bind.
    unfold wpx at 1. rewrite Hset by (try done; apply Hwf). apply wp_bind.
    eapply wp_mono; [|by apply wp_log_error_text; simpl; apply Hinv]. intros [] s1 H1. apply wp_ret.
    split; [done|]. assert (ext_step s s1) as Hs1 by (destruct H1 as [-> ?]; by split).
    split; [by eapply cfg_wf_ext|by apply view_ext].
  - intros y e (_ & Hv' & _). congruence.
Qed.

(** The member functions that take the write lock of the variable. *)
Inductive write_op t (p : nat) : M (Cfg Cb) unit → Prop :=
| write_add c : write_op t p (addListener t p c;; mret tt)
| write_del key : write_op t p (delListener t p key)
| write_clear : write_op t p (clearListener t p).

(** A listener must not change the listeners of its own variable: it
    runs while the read lock is held, so the call blocks the thread. *)
Lemma listener_reentry_deadlock t p (var : ConfigVar Cb t) v eff l1 k c l2 s m :
  cfg_wf s → c_vars s !! p = Some (AnyVar t var) → val_eqb t v (m_val var) = false →
  m_cbs var = l1 ++ (k, c) :: l2 → (∀ k c, (k, c) ∈ l1 → acts var v eff c) →
  write_op t p m → run_cb t c (m_val var) v = m →
  setValue run_cb t p v s = Stuck Deadlock.
Proof.
  intros Hwf Hp Hne Hcbs Hacts Hm Hc. rewrite (setValue_unfold p var); [|done|apply Hwf|done].
  rewrite Hcbs, foreach_app. unfold mbind at 1, M_bind. rewrite (notify_eff p var v eff) by done.
  simpl. unfold mbind, M_bind. rewrite (load_var_eq p var) by done. rewrite Hc.
  set (s1 := set_c_ext _ _). assert (m s1 = Stuck Deadlock) as ->; [|done].
  assert (∀ A (b : M (Cfg Cb) A), WriteScopedLockImpl (var_mutex p) b s1 = Stuck Deadlock) as Hd.
  { intros A b. apply WriteLock_deadlock. exists (Shared 1). apply lookup_singleton_eq. }
  destruct Hm; [|apply Hd..]. unfold mbind, M_bind, addListener. by rewrite Hd.
Qed.


(** C28. As long as the listener counter of the value type has not reached
    2^64 - 1, adding a listener gives it a key that no listener of the
    variable has; [getListener] with that key returns it and the other
    listeners stay reachable under their keys; and [delListener], with that
    key or any other, removes the listener of that key and no other one.
    No value changes. *)
Theorem addListener_spec t p (var : ConfigVar Cb t) c s :
  cfg_wf s → c_vars s !! p = Some (AnyVar t var) → (c_fun_id s t + 1 < 2 ^ 64)%Z →
  wp (id ← addListener t p c; got ← getListener t p id; mret (id, got))
    (λ r s', cfg_wf s' ∧ view s' = view s ∧ r.2 = Some c ∧ (r.1 ∉ (m_cbs var).*1) ∧
      (∀ k, k ≠ r.1 → wp (getListener t p k) (λ got _, got = smap_find k (m_cbs var)) s') ∧
      (∀ key k, wp (delListener t p key;; getListener t p k) (λ got s'', view s'' = view s ∧
         got = if decide (k = key) then None else if decide (k = r.1) then Some c else smap_find k (m_cbs var)) s')) s.
Proof.
  intros Hwf Hp Hid. apply wp_bind. eapply wp_mono; [|by apply (wp_addListener_wf p var)].
  intros id s' (Hk & Hwf' & Hview & _ & Hvars). pose proof (ch_cbs s (proj1 Hwf) p t var Hp) as [Hs Hr].
  set (var' := set_m_cbs (smap_set id c (m_cbs var)) var) in *.
  assert (c_vars s' !! p = Some (AnyVar t var')) as Hp' by (by rewrite Hvars, lookup_insert_eq).
  assert (c_locks s' !! LkVar p = None) as Hl' by (by destruct Hwf' as [_ ->]).
  apply wp_bind, (wp_read_var p var'); [done..|]. apply wp_ret. split_and!; simpl; try done.
  - apply smap_find_set_eq.
  - intros ([k' c'] & Heq & Hin)%list_elem_of_fmap. simpl in Heq. specialize (Hr k' c' Hin). lia.
  - intros k Hne. apply (wp_read_var p var'); [done..|]. simpl. by apply smap_find_set_ne.
  - intros key k. apply wp_bind, (wp_write_var p var' (λ var, set_m_cbs (smap_erase key (m_cbs var)) var)); [done..|].
    set (var2 := set_m_cbs _ var'). apply (wp_read_var p var2); [apply lookup_insert_eq|done|]. simpl.
    pose proof (smap_set_sorted id c _ Hs) as Hs'. split; [rewrite <-Hview; by apply (view_upd_same p var')|].
    destruct (decide (k = key)) as [->|Hne]; [by apply smap_find_erase|].
    rewrite smap_find_erase_ne by congruence. destruct (decide (k = id)) as [->|Hid']; [apply smap_find_set_eq|].
    by apply smap_find_set_ne.
Qed.
End spec.
