(* ===== verification/ConfigLog.v ===== *)
(** * The logging system behind the configuration

    [World_LogService] implements the interface [LogService] by the root
    logger, and [World_LogServiceOk] discharges its contract from the
    invariant of the logging system. *)
From S2P Require Import Prelude CppStd Lock LogLevel LogFormatter FormatterGrammar Logger LoggerInv LoggerThm.
From S2P Require Import Config.

(** ** The root logger as a service *)
Section service.
Context `{Platform}.

#[export] Instance World_LogService : LogService World := {|
  log_enabled :=
    root ← SYLAR_LOG_ROOT;
    l ← load_logger root;
    mret (l_level l <=? LogLevel.ERROR)%Z;
  log_emit file line msg :=
    root ← SYLAR_LOG_ROOT;
    SYLAR_LOG_LEVEL root LogLevel.ERROR file line msg;
|}.

(** The manager may not have been constructed yet. *)
Definition world_ok (w : World) : Prop := strftime_default_fits ∧ heap_wf w ∧ w_locks w = ∅.

Lemma log_wf_world_ok w : strftime_default_fits → log_wf w → world_ok w.
Proof. by intros ? (? & ? & ?). Qed.

Lemma wp_root (Q : nat → World → Prop) w : world_ok w →
  (∀ p w', world_ok w' → log_wf w' → is_Some (w_loggers w' !! p) → Q p w') → wp SYLAR_LOG_ROOT Q w.
Proof.
  intros (Hfit & Hwf & Hlk) HQ. unfold SYLAR_LOG_ROOT. apply wp_bind, wp_GetInstance; [done..|].
  intros m w' Hwf' Hm _. apply wp_ret, HQ; [by apply log_wf_world_ok|done|].
  destruct (hw_mgr _ (proj1 Hwf') m Hm) as [_ (r & Hr & _) _]. eauto.
Qed.

#[export] Instance World_LogServiceOk : LogServiceOk World.
Proof.
  refine {| log_inv := world_ok |}.
  - intros w Hw. apply wp_bind, wp_root; [done|]. intros p w' Hw' _ [l Hl].
    apply wp_bind, wp_deref with l; [done|]. by apply wp_ret.
  - intros file line msg w Hw. apply wp_bind, wp_root; [done|].
    intros p w' Hw' Hwf Hp. eapply wp_mono; [|apply SYLAR_LOG_LEVEL_delivers; [apply Hwf..|done|done]].
    intros [] w'' Hd. apply log_wf_world_ok; [apply Hw'|]. by eapply log_wf_delivered.
Defined.
End service.
