(* ===== verification/ConfigDemo.v ===== *)
(** * A concrete configuration

    Types, listeners and documents, and the theorems of [ConfigSpec]
    applied to them. *)
From S2P Require Import Prelude CppStd Lock LogLevel LogFormatter FormatterGrammar Logger LoggerInv LoggerThm.
From S2P Require Import Yaml LexicalCast Config ConfigInv ConfigThm ConfigSpec YamlDemo ConfigLog.

(** ** Casts that depend on their argument only *)
Section pure.
Context {St : Type}.

Definition pure_cast {A} (m : M St A) : Prop :=
  (∃ a, ∀ s, m s = Ret a s) ∨ (∃ e, ∀ s, m s = Throw (StdException e) s).

Lemma pure_ret {A} (a : A) : pure_cast (mret a).
Proof. left. by exists a. Qed.

Lemma pure_ycall {A} (r : exn + A) : (∀ e, r = inl e → is_std e) → pure_cast (ycall r).
Proof.
  destruct r as [[e|]|a]; intros Hr; [right; by exists e|by destruct (Hr _ eq_refl)|left; by exists a].
Qed.

Lemma pure_bind {A B} (m : M St A) (f : A → M St B) : pure_cast m → (∀ a, pure_cast (f a)) →
  pure_cast (m ≫= f).
Proof.
  intros [[a Ha]|[e He]] Hf.
  - destruct (Hf a) as [[b Hb]|[e He]]; [left; exists b|right; exists e]; intros s;
      unfold mbind, M_bind; by rewrite Ha.
  - right. exists e. intros s. unfold mbind, M_bind. by rewrite He.
Qed.

Lemma pure_result {A} (m : M St A) (I : St → Prop) s0 s : pure_cast m → I s →
  wpx m (λ a s', result_at s0 m = Some a ∧ I s') (λ e s', is_std e ∧ result_at s0 m = None ∧ I s') s.
Proof.
  unfold wpx, result_at. intros [[a Ha]|[e He]] HI; [by rewrite !Ha|by rewrite !He].
Qed.
End pure.

(** ** Two types: [int] and [std::vector<int>] *)
Inductive demo_ty := TInt | TVec.
#[export] Instance demo_ty_eq_dec : EqDecision demo_ty.
Proof. solve_decision. Defined.

Definition demo_val (t : demo_ty) : Type := match t with TInt => Z | TVec => list Z end.

#[export] Instance demo_types : CfgTypes World := {|
  ty := demo_ty;
  val := demo_val;
  val_eqb t := match t with TInt => Z.eqb | TVec => λ x y, bool_decide (x = y) end;
  type_name t := match t with TInt => "i" | TVec => "St6vectorIiSaIiEE" end;
  from_string t := match t with
    | TInt => LexicalCast_primary demo_atoi
    | TVec => vector_from_string (LexicalCast_primary demo_atoi) end;
  to_string t := match t with
    | TInt => LexicalCast_primary demo_itoa
    | TVec => vector_to_string (LexicalCast_primary demo_itoa) end;
|}.

Lemma demo_atoi_std s e : demo_atoi s = inl e → is_std e.
Proof. unfold demo_atoi. repeat case_match; by intros [= <-]. Qed.

Lemma demo_Load_std s e : demo_Load s = inl e → is_std e.
Proof. unfold demo_Load. repeat case_match; by intros [= <-]. Qed.

Lemma demo_elements_pure n node i (acc : list Z) :
  pure_cast (St := World) (cast_elements (LexicalCast_primary demo_atoi) (λ vec t, vec ++ [t]) node i n acc).
Proof.
  revert i acc. induction n as [|n IH]; intros i acc; [apply pure_ret|]. simpl.
  apply pure_bind; [apply pure_ycall|intros x; apply pure_bind; [apply pure_ycall, demo_atoi_std|auto]].
  intros e. destruct node; by intros [= <-].
Qed.

Lemma demo_push_pure l node : pure_cast (St := World) (push_elements (LexicalCast_primary demo_itoa) l node).
Proof.
  revert node. induction l as [|z l IH]; intros node; [apply pure_ret|]. simpl.
  apply pure_bind; [by apply pure_ycall|intros s; apply pure_bind; [apply pure_ycall, demo_Load_std|auto]].
Qed.

#[export] Instance demo_types_ok : @CfgTypesOk World demo_types (World_LogService (H := demo_platform)) (World_LogServiceOk (H := demo_platform)).
Proof.
  refine {| parse t str := result_at demo_world (from_string t str);
            print t v := result_at demo_world (to_string t v) |}.
  - intros t str e He. apply pure_result; [|done]. destruct t; simpl.
    + apply pure_ycall, demo_atoi_std.
    + apply pure_bind; [apply pure_ycall, demo_Load_std|]. intros node. apply demo_elements_pure.
  - intros t v e He. apply pure_result; [|done]. destruct t; simpl.
    + by apply pure_ycall.
    + apply pure_bind; [apply demo_push_pure|]. intros node. apply pure_ret.
Defined.

Lemma demo_world_ok : @world_ok demo_platform demo_world.
Proof. apply log_wf_world_ok; [apply demo_fits|apply demo_wf]. Qed.

(** ** A concrete run: two variables and one listener that prints *)
Section run.
#[local] Existing Instance demo_platform.

Definition tag_cb : ty → Type := λ _, string.
Definition run_tag (t : ty) (c : tag_cb t) (old new : val t) : M (Cfg tag_cb) unit :=
  ext (cout (c +:+ NL)).

Lemma run_tag_quiet t (c : tag_cb t) : quiet run_tag c.
Proof.
  intros old new s (Hfit & Hh & Hl). eapply wp_mono; [|apply wp_ext with (Q := λ _, world_ok)].
  { by intros [] s' [Hs' ?]. }
  apply wp_modify. split_and!; [done|by apply heap_wf_stdout|done].
Qed.

Definition demo_order : gmap string nat → list (string * nat) := map_to_list.

Definition state_of {S A} (s0 : S) (o : outcome S A) : S :=
  match o with Ret _ s => s | Throw _ s => s | Stuck _ => s0 end.
Definition returns {S A} (o : outcome S A) : bool := match o with Ret _ _ => true | _ => false end.
Definition after (c : cfg_cmd) (s : Cfg tag_cb) : Cfg tag_cb :=
  state_of s (run_cfg run_tag demo_order c s).

Lemma after_trans c s : cfg_ok s c → returns (run_cfg run_tag demo_order c s) = true →
  cfg_trans run_tag demo_order s (after c s).
Proof.
  intros Hok Hr. apply (trans_ret _ _ _ c); [done|]. unfold after.
  by destruct (run_cfg run_tag demo_order c s) as [[] s'| |].
Qed.

Definition cmd_port : cfg_cmd (Cb := tag_cb) := CmdLookupDefault TInt "system.port" 8080%Z "port".
Definition cmd_xs : cfg_cmd (Cb := tag_cb) := CmdLookupDefault TVec "system.xs" [1; 2]%Z "".
Definition cmd_add : cfg_cmd (Cb := tag_cb) := CmdAddListener TInt 0 "port changed".

Definition cfg1 : Cfg tag_cb := after cmd_port (cfg_init demo_world).
Definition cfg2 : Cfg tag_cb := after cmd_xs cfg1.
Definition cfg3 : Cfg tag_cb := after cmd_add cfg2.

(** The fields of the integer variable at an address. *)
Definition int_fields (s : Cfg tag_cb) (p : nat) : option (string * string * Z * list (Z * string)) :=
  match c_vars s !! p ≫= cast_var TInt with
  | Some v => Some (m_name v, m_description v, m_val v, m_cbs v)
  | None => None
  end.

Lemma int_fields_at s p n d v l : int_fields s p = Some (n, d, v, l) →
  c_vars s !! p = Some (AnyVar TInt (mkConfigVar (t := TInt) (Cb := tag_cb) n d v l)).
Proof.
  unfold int_fields. destruct (c_vars s !! p) as [x|]; [|done]. simpl.
  destruct (cast_var (Cb := tag_cb) TInt x) as [w|] eqn:Hx; [|done]. apply cast_var_Some in Hx as ->.
  destruct w as [n' d' v' l']. simpl. by intros [= -> -> -> ->].
Qed.

Lemma cfg3_reach : cfg_reach run_tag demo_order demo_world cfg3.
Proof.
  unfold cfg_reach.
  eapply rtc_l; [apply (after_trans cmd_port); [done|vm_compute; reflexivity]|].
  eapply rtc_l; [apply (after_trans cmd_xs); [done|vm_compute; reflexivity]|].
  apply rtc_once, (after_trans cmd_add); [|vm_compute; reflexivity].
  split; [|vm_compute; reflexivity].
  exists (mkConfigVar (t := TInt) (Cb := tag_cb) "system.port" "port" 8080%Z []).
  apply (int_fields_at cfg2 0). vm_compute. reflexivity.
Qed.

Lemma cfg3_wf : cfg_wf cfg3.
Proof.
  eapply cfg_reach_wf; [apply run_tag_quiet|done|apply demo_world_ok|apply cfg3_reach].
Qed.

(** The document [{system: {port: 9090, xs: [7], "port": x}, System: {port: 1}}]. *)
Definition demo_doc : Node :=
  NMap [(NScalar "system", NMap [(NScalar "port", NScalar "9090");
                                 (NScalar "xs", NSequence [NScalar "7"]);
                                 (NScalar "port", NScalar "x")]);
        (NScalar "System", NMap [(NScalar "port", NScalar "1")])].


Definition demo_var : ConfigVar tag_cb TInt :=
  mkConfigVar (t := TInt) (Cb := tag_cb) "system.port" "port" 8080%Z [(1%Z, "port changed")].

Lemma demo_var_at : c_vars cfg3 !! 0 = Some (AnyVar TInt demo_var).
Proof. apply (int_fields_at cfg3 0). vm_compute. reflexivity. Qed.

Lemma demo_view : view cfg3 !! "system.port" = Some (AnyVal TInt 8080%Z).
Proof.
  rewrite view_lookup. assert (c_datas cfg3 !! "system.port" = Some 0) as -> by (vm_compute; reflexivity).
  simpl. rewrite demo_var_at. reflexivity.
Qed.

(** The value of a vector variable. *)
Definition vec_value (x : anyval) : option (list Z) :=
  match x with
  | AnyVal t v => match t return val t → option (list Z) with TInt => λ _, None | TVec => Some end v
  end.

Lemma LoadFromYaml_refines_witness :
  ∃ s', LoadFromYaml run_tag demo_doc cfg3 = Ret tt s' ∧
    view s' = load_entries (members "" demo_doc) (view cfg3) ∧
    view s' !! "system.xs" ≫= vec_value = Some [7]%Z.
Proof.
  pose proof (LoadFromYaml_refines run_tag demo_doc cfg3 run_tag_quiet eq_refl cfg3_wf) as Hw.
  destruct (proj1 (wp_returns _ _ _) Hw) as ([] & s' & Hrun & _ & _ & Hview). exists s'.
  split; [exact Hrun|]. split; [exact Hview|]. rewrite Hview. vm_compute. reflexivity.
Defined.

Lemma demo_last_wins :
  ∃ s', LoadFromYaml run_tag demo_doc cfg3 = Ret tt s' ∧
    view s' !! "system.port" = Some (AnyVal TInt 9090%Z).
Proof.
  pose proof (LoadFromYaml_last_wins run_tag demo_doc "system.port" TInt 8080%Z cfg3 run_tag_quiet
    eq_refl cfg3_wf Z.eqb_eq demo_view) as Hw.
  destruct (proj1 (wp_returns _ _ _) Hw) as ([] & s' & Hrun & Hview). exists s'.
  split; [exact Hrun|]. rewrite Hview.
  apply (f_equal (λ z : Z, Some (@AnyVal World demo_types TInt z))). vm_compute. reflexivity.
Defined.

Definition tvec : @ty World demo_types := TVec.

Lemma Lookup_default_spec_witness :
  wpx (Lookup_default tvec "system.port" [5]%Z "")
    (λ p s', view s' = <["system.port" := AnyVal tvec [5]%Z]> (view cfg3)) (λ _ _, False) cfg3.
Proof.
  eapply wpx_mono; [..|apply (Lookup_default_spec tvec "system.port" [5]%Z "" cfg3 cfg3_wf)].
  - intros p s' (_ & _ & _ & _ & Hw).
    assert (registered cfg3 tvec "system.port" = None) as Hreg by (vm_compute; reflexivity).
    rewrite Hreg in Hw. apply Hw.
  - intros e s' (_ & Hv & _). apply Hv. vm_compute. reflexivity.
Defined.

Lemma setValue_notifies_witness :
  ∃ s', setValue run_tag TInt 0 9090%Z cfg3 = Ret tt s' ∧
    w_stdout (c_ext s') = w_stdout (c_ext cfg3) +:+ ("port changed" +:+ NL).
Proof.
  destruct (setValue_notifies run_tag TInt 0 demo_var 9090%Z (λ c, set_w_stdout (λ o, o +:+ (c +:+ NL)))
    cfg3 cfg3_wf demo_var_at) as [_ Hset].
  - intros k c _ s. reflexivity.
  - eexists. split; [exact Hset|]. vm_compute. reflexivity.
Defined.

Lemma addListener_spec_witness :
  wp (id ← addListener TInt 0 "again"; got ← getListener TInt 0 id; mret (id, got))
    (λ r _, r.2 = Some ("again" : tag_cb TInt)) cfg3.
Proof.
  eapply wp_mono; [|apply (addListener_spec (Cb := tag_cb) TInt 0 demo_var "again" cfg3 cfg3_wf demo_var_at)].
  - intros r s' (_ & _ & Hr & _). exact Hr.
  - vm_compute. reflexivity.
Defined.

(** *** Listeners that throw or change the listeners *)
Definition bad_cb : @ty World demo_types → Type := λ _, bool.
Definition run_bad (t : ty) (c : bad_cb t) (old new : val t) : M (Cfg bad_cb) unit :=
  if c then throw (StdException "refused") else clearListener t 0.

Definition bad_var (c : bool) : ConfigVar bad_cb TInt :=
  mkConfigVar (t := TInt) (Cb := bad_cb) "a" "" 1%Z [(1%Z, c)].
Definition bad_cfg (c : bool) : Cfg bad_cb :=
  mkCfg {[0 := AnyVar (TInt : @ty World demo_types) (bad_var c)]} 1 ∅ (λ _, 1%Z) ∅ demo_world.

Lemma bad_wf c : cfg_wf (bad_cfg c).
Proof.
  split; [|done]. split; simpl.
  - intros p x [<- _]%lookup_singleton_Some. lia.
  - intros _. lia.
  - intros p t v [_ Heq]%lookup_singleton_Some. pose proof (f_equal any_ty Heq) as Ht. simpl in Ht.
    subst t. apply AnyVar_inj in Heq as <-. simpl. split; [by repeat constructor|].
    intros k d [= -> _]%list_elem_of_singleton. lia.
  - by intros name p ?.
  - apply demo_world_ok.
Qed.

End run.
