(* ===== verification/ConfigConc.v ===== *)
(** * Threads that share a ConfigVar (sylar/config.h, sylar/thread.h)

    The operations of one [ConfigVar] as interleaved steps of any number
    of threads: a step acquires or releases the [RWMutex], or executes one
    access to [m_val] or [m_cbs] under it.  A thread that cannot get the
    lock has no step.  The callbacks do not call back into the variable
    ([ConfigSpec] has what happens if they do); they return or throw, as
    the parameter [throws] says, and the trace records what they are told.  [Reg] does
    the same for the registration of variables in [Config]. *)
From S2P Require Import Prelude CppStd Lock.

Module Conc.
Section machine.
(** The value type with its [operator==], the callbacks, and which of them
    throw when they are told an old and a new value. *)
Context {V C : Type} (eqb : V → V → bool) (throws : C → V → V → bool).

Inductive op :=
| getValue
| setValue (v : V)
| toString
| addListener (cb : C)
| delListener (key : Z)
| getListener (key : Z)
| clearListener.

(** Where a thread is: outside; in [setValue] before the read lock, at the
    comparison, in the loop over [m_cbs] with the listeners left to call, at
    the end of the block, before the write lock, at the assignment; before
    the lock of another reader or writer, or inside it; at the end of a
    locked block, which is the end of the call; at the use of the reference
    [getValue] has returned. *)
Inductive pc :=
| Idle
| SetRd (v : V) | SetCmp (v : V) | SetLoop (v : V) (l : list (Z * C)) | SetUnl (v : V) | SetWr (v : V) | SetSto (v : V)
| Rd (o : op) | RdIn (o : op) | Wr (o : op) | WrIn (o : op)
| EndRd | EndWr
| GetUnl | Deref.

Record thread := mkThread { at_pc : pc; todo : list op }.

(** What the outside can see: a call of [setValue] that found the value
    [old] different from [v], with the listeners [cbs] registered; the call
    of a listener; an assignment; a read under the lock. *)
Inductive event :=
| Change (t : nat) (old v : V) (cbs : list (Z * C))
| Notify (t : nat) (cb : Z * C) (old v : V)
| Store (t : nat) (v : V)
| Read (t : nat) (v : V).

Record state := mk {
  rw : option lkst;
  m_val : V;
  m_cbs : list (Z * C);
  s_fun_id : Z;
  threads : list thread;
  trace : list event;
}.

Definition init (v : V) (cbs : list (Z * C)) (progs : list (list op)) : state :=
  mk None v cbs 0 (mkThread Idle <$> progs) [].

(** [pthread_rwlock_rdlock], [wrlock] and [unlock] on the shared object. *)
Definition rdlock (l : option lkst) : option (option lkst) :=
  match l with
  | None => Some (Some (Shared 1))
  | Some (Shared n) => Some (Some (Shared (S n)))
  | Some Exclusive => None
  end.
Definition wrlock (l : option lkst) : option (option lkst) :=
  match l with None => Some (Some Exclusive) | Some _ => None end.
Definition unlock (l : option lkst) : option (option lkst) :=
  match l with
  | Some (Shared (S (S n))) => Some (Some (Shared (S n)))
  | Some _ => Some None
  | None => None
  end.

(** Thread [t], whose remaining calls are [os], goes to [x]. *)
Definition goto (t : nat) (x : pc) (os : list op) (s : state) : state :=
  mk (rw s) (m_val s) (m_cbs s) (s_fun_id s) (<[t := mkThread x os]> (threads s)) (trace s).
Definition with_lock (l : option lkst) (s : state) : state :=
  mk l (m_val s) (m_cbs s) (s_fun_id s) (threads s) (trace s).
Definition with_val (v : V) (s : state) : state :=
  mk (rw s) v (m_cbs s) (s_fun_id s) (threads s) (trace s).
Definition with_cbs (l : list (Z * C)) (id : Z) (s : state) : state :=
  mk (rw s) (m_val s) l id (threads s) (trace s).
Definition emit (e : event) (s : state) : state :=
  mk (rw s) (m_val s) (m_cbs s) (s_fun_id s) (threads s) (trace s ++ [e]).

(** The first step of a call. *)
Definition enter (o : op) : pc :=
  match o with
  | setValue v => SetRd v
  | getValue | toString | getListener _ => Rd o
  | addListener _ | delListener _ | clearListener => Wr o
  end.

(** The access of a call other than [setValue] inside its block. *)
Definition read_access (t : nat) (o : op) (s : state) : state :=
  match o with toString => emit (Read t (m_val s)) s | _ => s end.
Definition write_access (o : op) (s : state) : state :=
  match o with
  | addListener cb => let id := wrapU 64 (s_fun_id s + 1) in with_cbs (smap_set id cb (m_cbs s)) id s
  | delListener key => with_cbs (smap_erase key (m_cbs s)) (s_fun_id s) s
  | clearListener => with_cbs [] (s_fun_id s) s
  | _ => s
  end.

(** One step of thread [t]; [None] if it is blocked or has ended. *)
Definition tstep (t : nat) (s : state) : option state :=
  th ← threads s !! t;
  let os := todo th in
  match at_pc th with
  | Idle => match os with [] => None | o :: os => Some (goto t (enter o) os s) end
  | SetRd v => l ← rdlock (rw s); Some (goto t (SetCmp v) os (with_lock l s))
  | SetCmp v =>
      if eqb v (m_val s) then Some (goto t EndRd os s)
      else Some (goto t (SetLoop v (m_cbs s)) os (emit (Change t (m_val s) v (m_cbs s)) s))
  | SetLoop v [] => Some (goto t (SetUnl v) os s)
  | SetLoop v (cb :: l) =>
      Some (goto t (if throws cb.2 (m_val s) v then EndRd else SetLoop v l) os (emit (Notify t cb (m_val s) v) s))
  | SetUnl v => l ← unlock (rw s); Some (goto t (SetWr v) os (with_lock l s))
  | SetWr v => l ← wrlock (rw s); Some (goto t (SetSto v) os (with_lock l s))
  | SetSto v => Some (goto t EndWr os (with_val v (emit (Store t v) s)))
  | Rd o => l ← rdlock (rw s); Some (goto t (match o with getValue => GetUnl | _ => RdIn o end) os (with_lock l s))
  | RdIn o => Some (goto t EndRd os (read_access t o s))
  | Wr o => l ← wrlock (rw s); Some (goto t (WrIn o) os (with_lock l s))
  | WrIn o => Some (goto t EndWr os (write_access o s))
  | EndRd | EndWr => l ← unlock (rw s); Some (goto t Idle os (with_lock l s))
  | GetUnl => l ← unlock (rw s); Some (goto t Deref os (with_lock l s))
  | Deref => Some (goto t Idle os s)
  end.

Definition step (s s' : state) : Prop := ∃ t, tstep t s = Some s'.
Definition reach : state → state → Prop := rtc step.

(** A schedule: which thread moves next. *)
Fixpoint run (sched : list nat) (s : state) : option state :=
  match sched with [] => Some s | t :: sched => s ← tstep t s; run sched s end.

Definition finished (s : state) : Prop := Forall (λ th, th = mkThread Idle []) (threads s).

(** How the thread holds the lock. *)
Definition holds (x : pc) : option lkst :=
  match x with
  | SetCmp _ | SetLoop _ _ | SetUnl _ | RdIn _ | EndRd | GetUnl => Some (Shared 1)
  | SetSto _ | WrIn _ | EndWr => Some Exclusive
  | _ => None
  end.

(** ** The lock *)
Implicit Types (s : state) (t : nat).

Definition reader (th : thread) : nat := match holds (at_pc th) with Some (Shared _) => 1 | _ => 0 end.
Definition writer (th : thread) : nat := match holds (at_pc th) with Some Exclusive => 1 | _ => 0 end.

(** The lock counts the threads that hold it. *)
Definition lock_ok s : Prop :=
  let n := sum_list_with reader (threads s) in
  let m := sum_list_with writer (threads s) in
  match rw s with
  | None => n = 0 ∧ m = 0
  | Some (Shared k) => n = k ∧ 1 ≤ k ∧ m = 0
  | Some Exclusive => n = 0 ∧ m = 1
  end.

(** How a step of a thread from [x] to [y] acts on the lock. *)
Inductive lock_move (x y : pc) (l l' : option lkst) : Prop :=
| move_stay : holds y = holds x → l' = l → lock_move x y l l'
| move_read : holds x = None → holds y = Some (Shared 1) → rdlock l = Some l' → lock_move x y l l'
| move_write : holds x = None → holds y = Some Exclusive → wrlock l = Some l' → lock_move x y l l'
| move_unlock : holds x ≠ None → holds y = None → unlock l = Some l' → lock_move x y l l'.

(** Every step moves one thread; the shared data change only under the
    write lock; the events are the thread's own. *)
Definition tid (e : event) : nat :=
  match e with Change t _ _ _ | Notify t _ _ _ | Store t _ | Read t _ => t end.

Record moved t s s' (th : thread) (y : pc) (os : list op) (es : list event) : Prop := {
  mv_thread : threads s !! t = Some th;
  mv_threads : threads s' = <[t := mkThread y os]> (threads s);
  mv_lock : lock_move (at_pc th) y (rw s) (rw s');
  mv_trace : trace s' = trace s ++ es;
  mv_tid : Forall (λ e, tid e = t) es;
  mv_data : holds (at_pc th) ≠ Some Exclusive → m_val s' = m_val s ∧ m_cbs s' = m_cbs s;
}.

Ltac step_cases :=
  repeat match goal with
  | H : Some _ = Some _ |- _ => injection H as H
  | H : None = Some _ |- _ => discriminate H
  | H : (_ ≫= _) = Some _ |- _ => apply bind_Some in H as (? & ? & ?)
  | H : (match ?x with _ => _ end) = Some _ |- _ => destruct x eqn:?
  end.

Lemma holds_enter o : holds (enter o) = None.
Proof. by destruct o. Qed.

Ltac move_solve Hpc :=
  split; [done|reflexivity|rewrite Hpc|simpl; rewrite ?app_nil_r; reflexivity|by repeat constructor|by rewrite ?Hpc];
  first [apply move_stay; [by rewrite ?holds_enter|reflexivity]|by apply move_read|by apply move_write|by apply move_unlock].

Lemma tstep_moved t s s' : tstep t s = Some s' → ∃ th y os es, moved t s s' th y os es.
Proof.
  unfold tstep. intros (th & Hth & Hs)%bind_Some.
  destruct (at_pc th) as [|v|v|v [|cb l]|v|v|v|o|o|o|o| | | |] eqn:Hpc; step_cases; subst s';
    try (destruct o); try destruct (throws _ _ _); exists th; do 2 eexists;
    first [exists []; by move_solve Hpc|eexists [_]; by move_solve Hpc].
Qed.

Lemma lock_step t s s' : tstep t s = Some s' → lock_ok s → lock_ok s'.
Proof.
  intros (th & y & os & es & [Hth Hths Hmv _ _ _])%tstep_moved Hok. unfold lock_ok in *. rewrite Hths.
  pose proof (sum_list_with_insert reader _ t th (mkThread y os) Hth) as Hr.
  pose proof (sum_list_with_insert writer _ t th (mkThread y os) Hth) as Hw.
  unfold reader at 2 4 in Hr. unfold writer at 2 4 in Hw. simpl in Hr, Hw.
  set (l' := rw s') in *. clearbody l'. destruct Hmv as [E ->|E1 E2 Hl|E1 E2 Hl|E1 E2 Hl].
  - rewrite E in Hr, Hw. destruct (rw s) as [[]|]; lia.
  - rewrite E1, E2 in Hr, Hw. destruct (rw s) as [[]|]; simplify_eq/=; lia.
  - rewrite E1, E2 in Hr, Hw. destruct (rw s) as [[]|]; simplify_eq/=; lia.
  - rewrite E2 in Hr, Hw. destruct (rw s) as [[[|[|n]]|]|]; simplify_eq/=;
      destruct (holds (at_pc th)) as [[]|]; simplify_eq/=; lia.
Qed.

(** Who writes is alone. *)
Lemma writer_alone s t u th th' : lock_ok s → threads s !! t = Some th → threads s !! u = Some th' → u ≠ t →
  holds (at_pc th) = Some Exclusive → holds (at_pc th') = None.
Proof.
  intros Hok Ht Hu Hne Hx. unfold lock_ok in Hok.
  pose proof (sum_list_with_lookup_2 writer _ t u th th' Ht Hu (not_eq_sym Hne)) as Hw.
  pose proof (sum_list_with_lookup reader _ u th' Hu) as Hr.
  unfold reader at 1 in Hr. unfold writer at 1 2 in Hw. rewrite Hx in Hw.
  destruct (holds (at_pc th')) as [[]|], (rw s) as [[]|]; first [done|exfalso; lia].
Qed.

(** ** The history *)

(** Listeners are told the value of the variable at the time, and so are
    readers. *)
Inductive consistent (v0 : V) : list event → V → Prop :=
| cons_nil : consistent v0 [] v0
| cons_change l v t new cbs : consistent v0 l v → eqb new v = false →
    consistent v0 (l ++ [Change t v new cbs]) v
| cons_notify l v t cb new : consistent v0 l v → consistent v0 (l ++ [Notify t cb v new]) v
| cons_store l v t new : consistent v0 l v → consistent v0 (l ++ [Store t new]) new
| cons_read l v t : consistent v0 l v → consistent v0 (l ++ [Read t v]) v.

Definition events_of t (l : list event) : list event := filter (λ e, tid e = t) l.

(** The events of the calls of a thread that have ended: a [setValue]
    that changes the value tells every registered listener, in the order
    of the map, and then assigns; or it tells them up to the first that
    throws, and ends with the exception. *)
Definition calm (old v : V) (l : list (Z * C)) : Prop := Forall (λ cb, throws cb.2 old v = false) l.
Inductive complete t : list event → Prop :=
| comp_nil : complete t []
| comp_abort l old v cbs n cb : complete t l → eqb v old = false → calm old v (take n cbs) →
    cbs !! n = Some cb → throws cb.2 old v = true →
    complete t (l ++ Change t old v cbs :: ((λ cb, Notify t cb old v) <$> take (S n) cbs))
| comp_set l old v cbs : complete t l → eqb v old = false → calm old v cbs →
    complete t (l ++ Change t old v cbs :: ((λ cb, Notify t cb old v) <$> cbs) ++ [Store t v])
| comp_read l v : complete t l → complete t (l ++ [Read t v]).

(** The listeners [l] have been told, none has, or the value was equal. *)
Definition telling t (l evs : list event) (old v : V) (cbs : list (Z * C)) (n : nat) : Prop :=
  complete t l ∧ eqb v old = false ∧ calm old v (take n cbs) ∧ evs = l ++ Change t old v cbs :: ((λ cb, Notify t cb old v) <$> take n cbs).

Definition in_call t s (x : pc) : Prop :=
  let evs := events_of t (trace s) in
  match x with
  | SetLoop v ks => ∃ l n, telling t l evs (m_val s) v (m_cbs s) n ∧ ks = drop n (m_cbs s)
  | SetUnl v | SetWr v | SetSto v => ∃ l old cbs, telling t l evs old v cbs (length cbs)
  | _ => complete t evs
  end.

Record inv (v0 : V) s : Prop := {
  inv_lock : lock_ok s;
  inv_hist : consistent v0 (trace s) (m_val s);
  inv_calls t th : threads s !! t = Some th → in_call t s (at_pc th);
}.

Lemma events_of_app t l k : events_of t (l ++ k) = events_of t l ++ events_of t k.
Proof. apply filter_app. Qed.

Lemma events_of_snoc t l e : tid e = t → events_of t (l ++ [e]) = events_of t l ++ [e].
Proof. intros He. rewrite events_of_app. unfold events_of at 2. by rewrite filter_cons_True. Qed.

Lemma events_of_other t u l : u ≠ t → Forall (λ e, tid e = t) l → events_of u l = [].
Proof.
  intros Hne. induction 1 as [|e l He _ IH]; [done|]. unfold events_of in *.
  rewrite filter_cons_False; congruence.
Qed.

(** The other threads' calls are not affected. *)
Lemma in_call_other t s s' th y os es u th' : lock_ok s → moved t s s' th y os es → u ≠ t →
  threads s !! u = Some th' → in_call u s (at_pc th') → in_call u s' (at_pc th').
Proof.
  intros Hok [Hth _ _ Htr Htid Hdata] Hne Hu Hc. unfold in_call in *.
  rewrite Htr, events_of_app, (events_of_other t u es), app_nil_r by done.
  destruct (at_pc th') eqn:Hpc; try done.
  destruct Hdata as [-> ->]; [|done].
  intros Hx. pose proof (writer_alone s t u th th' Hok Hth Hu Hne Hx) as Hn. by rewrite Hpc in Hn.
Qed.

(** The listeners left to call are those not called yet. *)
Lemma telling_next t l evs old v cbs n cb ks : telling t l evs old v cbs n → cb :: ks = drop n cbs →
  if throws cb.2 old v then complete t (evs ++ [Notify t cb old v])
  else telling t l (evs ++ [Notify t cb old v]) old v cbs (S n) ∧ ks = drop (S n) cbs.
Proof.
  intros (Hl & He & Hcalm & ->) Hd.
  assert (cbs !! n = Some cb) as Hn by (rewrite <-(Nat.add_0_r n), <-lookup_drop, <-Hd; done).
  assert ((l ++ Change t old v cbs :: ((λ cb, Notify t cb old v) <$> take n cbs)) ++ [Notify t cb old v]
    = l ++ Change t old v cbs :: ((λ cb, Notify t cb old v) <$> take (S n) cbs)) as ->.
  { rewrite (take_S_r cbs n cb Hn), fmap_app, <-app_assoc. done. }
  destruct (throws cb.2 old v) eqn:Hthr; [by econstructor|].
  split; [|rewrite (drop_S cbs cb n Hn) in Hd; congruence]. split_and!; [done..| |done].
  rewrite (take_S_r cbs n cb Hn). apply Forall_app. by split; [|constructor].
Qed.

Lemma telling_all t l evs old v cbs n : telling t l evs old v cbs n → [] = drop n cbs →
  telling t l evs old v cbs (length cbs).
Proof.
  intros (Hl & He & Hcalm & ->) Hd.
  assert (length cbs ≤ n) by (apply (f_equal length) in Hd; rewrite length_drop in Hd; simpl in Hd; lia).
  split_and!; [done..| |]; by rewrite !take_ge in *.
Qed.

Lemma telling_done t l evs old v cbs : telling t l evs old v cbs (length cbs) → complete t (evs ++ [Store t v]).
Proof.
  intros (Hl & He & Hcalm & ->). rewrite firstn_all in *. rewrite <-app_assoc, <-app_comm_cons. by constructor.
Qed.

Lemma access_threads t o s :
  threads (read_access t o s) = threads s ∧ threads (write_access o s) = threads s.
Proof. by destruct o. Qed.

(** The calls of the thread that moves. *)
Lemma in_call_own t s s' th th' : tstep t s = Some s' → threads s !! t = Some th →
  in_call t s (at_pc th) → threads s' !! t = Some th' → in_call t s' (at_pc th').
Proof.
  unfold tstep. intros (th0 & Hth & Hs)%bind_Some Hth0 Hc Hth'.
  assert (th0 = th) as -> by congruence. clear Hth0.
  assert (t < length (threads s)) as Hlt by (by eapply lookup_lt_Some).
  unfold in_call in *. revert Hc Hs.
  destruct (at_pc th) as [|v|v|v [|cb l]|v|v|v|o|o|o|o| | | |] eqn:Hpc; intros Hc Hs;
    step_cases; subst s'; simpl in Hth';
    rewrite ?(proj1 (access_threads t o s)), ?(proj2 (access_threads t o s)) in Hth';
    rewrite list_lookup_insert_eq in Hth' by done; injection Hth' as <-;
    simpl; rewrite ?events_of_snoc by done; try done.
  - by destruct o.
  - exists (events_of t (trace s)), 0. rewrite drop_0. split; [|done]. split_and!; [done..|constructor|done].
  - destruct Hc as (l & n & Ht & Hd). exists l. eauto using telling_all.
  - destruct Hc as (l0 & n & Ht & Hd). pose proof (telling_next _ _ _ _ _ _ _ _ _ Ht Hd) as Hnext.
    destruct (throws cb.2 (m_val s) v); [done|]. by exists l0, (S n).
  - destruct Hc as (l & old & cbs & Ht). by eapply telling_done.
  - by destruct o.
  - destruct o; simpl; try done. rewrite events_of_snoc by done. by constructor.
  - by destruct o.
Qed.

Lemma hist_step v0 t s s' : tstep t s = Some s' → consistent v0 (trace s) (m_val s) →
  consistent v0 (trace s') (m_val s').
Proof.
  unfold tstep. intros (th & Hth & Hs)%bind_Some Hc.
  destruct (at_pc th) as [|v|v|v [|cb l]|v|v|v|o|o|o|o| | | |] eqn:Hpc; step_cases; subst s'; simpl;
    try done; try (by econstructor).
  all: destruct o; try done; by econstructor.
Qed.

Lemma conc_inv_step v0 s s' : step s s' → inv v0 s → inv v0 s'.
Proof.
  intros [t Hs] [Hl Hh Hc]. split; [by eapply lock_step|by eapply hist_step|].
  intros u th' Hu. pose proof (tstep_moved t s s' Hs) as (th & y & os & es & Hm).
  pose proof (mv_thread _ _ _ _ _ _ _ Hm) as Hth. destruct (decide (u = t)) as [->|Hne].
  - by eapply in_call_own; [..|by apply Hc|].
  - assert (threads s !! u = Some th') as Hu0.
    { rewrite (mv_threads _ _ _ _ _ _ _ Hm), list_lookup_insert_ne in Hu; done. }
    by eapply in_call_other; [..|by apply Hc].
Qed.

Lemma conc_inv_init v cbs progs : inv v (init v cbs progs).
Proof.
  assert (∀ t th, threads (init v cbs progs) !! t = Some th → at_pc th = Idle) as Hidle.
  { intros t th Ht. simpl in Ht. by apply list_lookup_fmap_Some in Ht as (os & -> & _). }
  split.
  - simpl. unfold lock_ok. simpl. induction progs as [|os progs IH]; [done|]. simpl. apply IH.
    intros t th Ht. by apply (Hidle (S t)).
  - constructor.
  - intros t th Ht. rewrite (Hidle t th Ht). constructor.
Qed.

Lemma reach_conc_inv v cbs progs s : reach (init v cbs progs) s → inv v s.
Proof.
  unfold reach. intros Hr. pose proof (conc_inv_init v cbs progs) as Hi. revert Hi.
  induction Hr; eauto using conc_inv_step.
Qed.

(** ** Progress *)

(** A thread that holds the lock can go on. *)
Lemma holder_steps s t th : lock_ok s → threads s !! t = Some th → holds (at_pc th) ≠ None → is_Some (tstep t s).
Proof.
  intros Hok Ht Hh. pose proof (sum_list_with_lookup reader _ t th Ht) as Hr.
  pose proof (sum_list_with_lookup writer _ t th Ht) as Hw.
  unfold reader at 1 in Hr. unfold writer at 1 in Hw. unfold lock_ok in Hok.
  assert (∃ l, unlock (rw s) = Some l) as [l Hl].
  { destruct (rw s) as [[[|[]]|]|]; simpl; eauto. destruct (holds (at_pc th)) as [[]|]; (done || lia). }
  unfold tstep. rewrite Ht. simpl.
  destruct (at_pc th) as [|v|v|v [|cb ks]|v|v|v|o|o|o|o| | | |]; try done; rewrite ?Hl; eauto.
  destruct (eqb v (m_val s)); eauto.
Qed.

(** A thread that has something left to do can go on when the lock is
    free. *)
Lemma free_steps s t th : rw s = None → threads s !! t = Some th → holds (at_pc th) = None →
  th = mkThread Idle [] ∨ is_Some (tstep t s).
Proof.
  intros Hrw Ht Hh. unfold tstep. rewrite Ht, Hrw. simpl.
  destruct th as [[|v|v|v [|cb ks]|v|v|v|o|o|o|o| | | |] [|o' os]]; simpl in *; try done; eauto.
Qed.

Lemma conc_progress s : lock_ok s → (∀ s', ¬ step s s') → finished s.
Proof.
  intros Hok Hno. assert (∀ t, ¬ is_Some (tstep t s)) as Hno'.
  { intros t [s' Hs]. apply (Hno s'). by exists t. }
  assert (∀ t th, threads s !! t = Some th → holds (at_pc th) = None) as Hnone.
  { intros t th Ht. destruct (holds (at_pc th)) eqn:E; [|done]. destruct (Hno' t).
    eapply holder_steps; [done..|congruence]. }
  assert (∀ l, (∀ t th, l !! t = Some th → holds (at_pc th) = None) →
    sum_list_with reader l = 0 ∧ sum_list_with writer l = 0) as Hsum.
  { clear. induction l as [|th l IH]; intros Hl; [done|]. simpl.
    pose proof (Hl 0 th eq_refl) as H0. unfold reader at 1, writer at 1. rewrite H0.
    apply IH. intros t th'. apply (Hl (S t)). }
  apply Hsum in Hnone as Hs. unfold lock_ok in Hok.
  assert (rw s = None) as Hrw by (destruct (rw s) as [[]|]; [lia..|done]).
  apply Forall_lookup. intros t th Ht.
  destruct (free_steps s t th Hrw Ht (Hnone t th Ht)) as [->|Hs']; [done|]. by destruct (Hno' t).
Qed.

(** ** Termination *)
Definition adds_op (o : op) : nat := match o with addListener _ => 1 | _ => 0 end.
Definition adds (th : thread) : nat :=
  match at_pc th with Wr o | WrIn o => adds_op o | _ => 0 end + sum_list_with adds_op (todo th).

(** No loop over the listeners will be longer. *)
Definition bound s : nat := length (m_cbs s) + sum_list_with adds (threads s).

Definition pc_work (n : nat) (x : pc) : nat :=
  match x with
  | Idle => 0
  | SetRd _ => n + 7 | SetCmp _ => n + 6 | SetLoop _ l => length l + 5 | SetUnl _ => 4 | SetWr _ => 3 | SetSto _ => 2
  | Rd _ => 4 | RdIn _ => 2 | Wr _ => 3 | WrIn _ => 2 | EndRd | EndWr => 1 | GetUnl => 3 | Deref => 2
  end.
Definition thread_work (n : nat) (th : thread) : nat := pc_work n (at_pc th) + (n + 8) * length (todo th).
Definition work s : nat := sum_list_with (thread_work (bound s)) (threads s).

Lemma length_smap_set (k : Z) (cb : C) l : length (smap_set k cb l) ≤ S (length l).
Proof. induction l as [|[k' v] l IH]; simpl; [lia|]. repeat case_match; simpl; lia. Qed.

Lemma length_smap_erase (k : Z) (l : list (Z * C)) : length (smap_erase k l) ≤ length l.
Proof. induction l as [|[k' v] l IH]; simpl; [lia|]. repeat case_match; simpl; lia. Qed.

Lemma bound_step t s s' : tstep t s = Some s' → bound s' ≤ bound s.
Proof.
  unfold tstep. intros (th & Hth & Hs)%bind_Some. unfold bound.
  assert (∀ y os, sum_list_with adds (<[t := mkThread y os]> (threads s)) + adds th
    = sum_list_with adds (threads s) + adds (mkThread y os)) as Hsum
    by (intros; by apply sum_list_with_insert).
  unfold adds at 2 4 in Hsum. simpl in Hsum.
  destruct (at_pc th) as [|v|v|v [|cb l]|v|v|v|o|o|o|o| | | |] eqn:Hpc; step_cases; subst s';
    try destruct o; try destruct (throws _ _ _); simpl in *;
    repeat match goal with H : todo th = _ |- _ => rewrite H in *; simpl in * end;
    match goal with |- context [<[t := mkThread ?y ?os]> _] => specialize (Hsum y os); simpl in Hsum end;
    try lia.
  - pose proof (length_smap_set (wrapU 64 (s_fun_id s + 1)) cb (m_cbs s)). lia.
  - pose proof (length_smap_erase key (m_cbs s)). lia.
Qed.

(** The thread that moves has less left to do. *)
Lemma work_own t s s' : tstep t s = Some s' → ∃ th y os, threads s !! t = Some th ∧
  threads s' = <[t := mkThread y os]> (threads s) ∧
  ∀ n, length (m_cbs s) ≤ n → thread_work n (mkThread y os) < thread_work n th.
Proof.
  unfold tstep. intros (th & Hth & Hs)%bind_Some. exists th. unfold thread_work.
  destruct (at_pc th) as [|v|v|v [|cb l]|v|v|v|o|o|o|o| | | |] eqn:Hpc; step_cases; subst s';
    try destruct o; try destruct (throws _ _ _); simpl in *; do 2 eexists; (split_and!; [done|reflexivity|]); intros n Hn; simpl in *;
    repeat match goal with H : todo th = _ |- _ => rewrite H in *; simpl in * end; lia.
Qed.

Lemma work_step s s' : step s s' → work s' < work s.
Proof.
  intros [t Hs]. pose proof (bound_step t s s' Hs) as Hb.
  destruct (work_own t s s' Hs) as (th & y & os & Hth & Hths & Hlt). unfold work.
  apply Nat.le_lt_trans with (sum_list_with (thread_work (bound s)) (threads s')).
  - apply sum_list_with_mono. intros th' _. unfold thread_work.
    assert (pc_work (bound s') (at_pc th') ≤ pc_work (bound s) (at_pc th')) by (destruct (at_pc th'); simpl; lia).
    nia.
  - rewrite Hths. pose proof (sum_list_with_insert (thread_work (bound s)) _ t th (mkThread y os) Hth).
    specialize (Hlt (bound s)). unfold bound in Hlt at 1. lia.
Qed.

Lemma work_nsteps n s s' : nsteps step n s s' → n + work s' ≤ work s.
Proof. induction 1 as [|n s1 s2 s3 H12%work_step _ IH]; lia. Qed.

Lemma run_reach sched s s' : run sched s = Some s' → reach s s'.
Proof.
  revert s. induction sched as [|t sched IH]; intros s; simpl; [by intros [= ->]|].
  intros (s1 & Hs & Hr)%bind_Some. eapply rtc_l; [by exists t|]. by apply IH.
Qed.

Lemma run_cons t sched s s1 s' : tstep t s = Some s1 → run sched s1 = Some s' → run (t :: sched) s = Some s'.
Proof. intros Hs Hr. simpl. by rewrite Hs. Qed.

(** The callback of a [Notify] and what it was told. *)
Definition told (e : event) : option (V * V) := match e with Notify _ _ old v => Some (old, v) | _ => None end.
End machine.
End Conc.

(** ** Registration

    Threads that call [Config::Lookup(name, default_value)] with names of
    permitted characters and one value type: the look-up under the read
    lock of [Config], and, if it finds nothing, the construction of a
    variable and its insertion under the write lock. *)
Module Reg.
Inductive pc :=
| Idle
| Rd (name : string) | Find (name : string) | EndRd (name : string) (found : option nat)
| Make (name : string) | Wr (name : string) (v : nat) | Insert (name : string) (v : nat) | EndWr (name : string) (v : nat).

Record thread := mkThread { at_pc : pc; todo : list string }.

(** [returned] lists what the calls have returned: thread, name, variable. *)
Record state := mk {
  rw : option lkst;
  datas : gmap string nat;
  next : nat;
  threads : list thread;
  returned : list (nat * string * nat);
}.

Definition init (progs : list (list string)) : state := mk None ∅ 0 (mkThread Idle <$> progs) [].

Definition goto (t : nat) (x : pc) (os : list string) (s : state) : state :=
  mk (rw s) (datas s) (next s) (<[t := mkThread x os]> (threads s)) (returned s).
Definition with_lock (l : option lkst) (s : state) : state := mk l (datas s) (next s) (threads s) (returned s).
Definition return_ (t : nat) (name : string) (v : nat) (s : state) : state :=
  mk (rw s) (datas s) (next s) (threads s) (returned s ++ [(t, name, v)]).

Definition tstep (t : nat) (s : state) : option state :=
  th ← threads s !! t;
  let os := todo th in
  match at_pc th with
  | Idle => match os with [] => None | name :: os => Some (goto t (Rd name) os s) end
  | Rd name => l ← Conc.rdlock (rw s); Some (goto t (Find name) os (with_lock l s))
  | Find name => Some (goto t (EndRd name (datas s !! name)) os s)
  | EndRd name found =>
      l ← Conc.unlock (rw s);
      Some (match found with
        | Some v => goto t Idle os (return_ t name v (with_lock l s))
        | None => goto t (Make name) os (with_lock l s)
        end)
  | Make name =>
      Some (goto t (Wr name (next s)) os (mk (rw s) (datas s) (S (next s)) (threads s) (returned s)))
  | Wr name v => l ← Conc.wrlock (rw s); Some (goto t (Insert name v) os (with_lock l s))
  | Insert name v =>
      Some (goto t (EndWr name v) os (mk (rw s) (<[name := v]> (datas s)) (next s) (threads s) (returned s)))
  | EndWr name v => l ← Conc.unlock (rw s); Some (goto t Idle os (return_ t name v (with_lock l s)))
  end.

Fixpoint run (sched : list nat) (s : state) : option state :=
  match sched with [] => Some s | t :: sched => s ← tstep t s; run sched s end.

Lemma reg_run_cons t sched s s1 s' : tstep t s = Some s1 → run sched s1 = Some s' → run (t :: sched) s = Some s'.
Proof. intros Hs Hr. simpl. by rewrite Hs. Qed.

(** Two threads that look before either inserts. *)
Lemma both_register name : ∃ sched s, run sched (init [[name]; [name]]) = Some s ∧
  returned s = [(0, name, 0); (1, name, 1)] ∧ datas s = {[name := 1]}.
Proof.
  exists [0; 0; 0; 0; 1; 1; 1; 1; 0; 0; 0; 0; 1; 1; 1; 1]. eexists. split.
  - repeat (eapply reg_run_cons; [unfold tstep; simpl; rewrite ?lookup_empty; reflexivity|]). reflexivity.
  - split; [done|]. simpl. by rewrite insert_insert_eq.
Qed.
End Reg.

Section theorems.
Context {V C : Type} (eqb : V → V → bool) (throws : C → V → V → bool).
Import Conc.

(** C12. Threads that share a configuration variable are kept apart by its
    lock, in every interleaving of their calls: while a thread writes the
    value or the listeners no other one holds the lock; the value a
    listener is given as the old one, and the value a reader prints, is the
    value the variable has at that time; and the calls of [setValue] of a
    thread each tell every registered listener, in order, before they
    assign, or stop at the first that throws without assigning, or find
    the value equal and do nothing.  (The listeners return or throw; they
    do not call back into the variable.) *)
Theorem ConfigVar_threads_safe v cbs progs s : reach eqb throws (init (C := C) v cbs progs) s →
  (∀ t u th th', threads s !! t = Some th → threads s !! u = Some th' → u ≠ t →
    holds (at_pc th) = Some Exclusive → holds (at_pc th') = None) ∧
  consistent eqb v (trace s) (m_val s) ∧
  (∀ t os, threads s !! t = Some (mkThread Idle os) → complete eqb throws t (events_of t (trace s))).
Proof.
  intros Hi%reach_conc_inv. split_and!; [|apply Hi|].
  - intros t u th th' Ht Hu Hne. by eapply writer_alone; [apply Hi|..].
  - intros t os Ht. exact (inv_calls _ _ _ _ Hi t _ Ht).
Qed.

(** C19. If the listeners return or throw and do not themselves call the
    variable (those that do block for ever, C29), then no call on a shared
    configuration variable blocks for ever: every execution of the
    threads' calls is finite, however they are scheduled, and it can only
    stop when every call of every thread has returned or ended with the
    exception of a listener. *)
Theorem ConfigVar_calls_return v cbs progs : ∃ limit, ∀ n s,
  nsteps (step eqb throws) n (init (C := C) v cbs progs) s →
  n ≤ limit ∧ ((∀ s', ¬ step eqb throws s s') → finished s).
Proof.
  exists (work (init v cbs progs)). intros n s Hn. split.
  - pose proof (work_nsteps eqb throws n _ s Hn). lia.
  - apply conc_progress. apply rtc_nsteps_2 in Hn. by apply reach_conc_inv in Hn as [].
Qed.

(** C33. What the locking of [ConfigVar] does not give.  The lock is
    released between the notification and the assignment: of two
    concurrent assignments the one that notifies first can store last, so
    that the listeners were last told [v2] while the variable has the
    value [v1].  [getValue] returns a reference, which its caller uses when
    the lock is no longer held, while another thread assigns.  And two
    threads that register the same name at the same time both find nothing
    and each get a variable of their own, of which [Config] keeps the
    second: what is loaded never reaches the first. *)
Theorem ConfigVar_races v0 v1 v2 (cb : Z * C) name : eqb v1 v0 = false → eqb v2 v0 = false →
  throws cb.2 v0 v1 = false → throws cb.2 v0 v2 = false →
  (∃ s, reach eqb throws (init v0 [cb] [[setValue v1]; [setValue v2]]) s ∧ finished s ∧
    m_val s = v1 ∧ last (omap told (trace s)) = Some (v0, v2)) ∧
  (∃ s, reach eqb throws (init v0 [cb] [[getValue]; [setValue v1]]) s ∧
    threads s = [mkThread Deref []; mkThread (SetSto v1) []]) ∧
  (∃ sched s, Reg.run sched (Reg.init [[name]; [name]]) = Some s ∧
    Reg.returned s = [(0, name, 0); (1, name, 1)] ∧ Reg.datas s = {[name := 1]}).
Proof.
  intros E1 E2 T1 T2. destruct cb as [key cb]. cbn in T1, T2. split_and!.
  - eexists. split.
    + apply (run_reach eqb throws [0; 0; 0; 0; 1; 1; 1; 1; 1; 1; 0; 0; 1; 1; 1; 0; 0; 0]).
      repeat (eapply run_cons; [lazy; rewrite ?E1, ?E2, ?T1, ?T2; reflexivity|]). reflexivity.
    + split_and!; [|done..]. by repeat constructor.
  - eexists. split.
    + apply (run_reach eqb throws [0; 0; 0; 1; 1; 1; 1; 1; 1; 1]).
      repeat (eapply run_cons; [lazy; rewrite ?E1, ?E2, ?T1, ?T2; reflexivity|]). reflexivity.
    + done.
  - apply Reg.both_register.
Qed.
End theorems.

(** ** A schedule of three threads *)
Definition no_throw (cb : unit) (old v : Z) : bool := false.
Definition demo_progs : list (list (Conc.op (V := Z) (C := unit))) :=
  [[Conc.setValue 1%Z; Conc.getValue]; [Conc.addListener tt; Conc.setValue 2%Z]; [Conc.toString; Conc.delListener 7]].
Definition demo_start : Conc.state := Conc.init 0%Z [(7%Z, tt)] demo_progs.
(** The first assignment is in its loop when the others start. *)
Definition demo_sched : list nat := [0; 0; 0; 2; 2; 2; 2; 0; 0; 0; 0; 0; 0; 1; 1; 1; 1; 1; 1].

Definition demo_mid : Conc.state := default demo_start (Conc.run Z.eqb no_throw demo_sched demo_start).

Lemma demo_mid_reach : Conc.reach Z.eqb no_throw demo_start demo_mid.
Proof. apply (Conc.run_reach Z.eqb no_throw demo_sched). vm_compute. reflexivity. Qed.

Lemma ConfigVar_threads_safe_witness :
  Conc.consistent Z.eqb 0%Z (Conc.trace demo_mid) 1%Z ∧
  Conc.complete Z.eqb no_throw 0 (Conc.events_of 0 (Conc.trace demo_mid)) ∧
  Conc.trace demo_mid = [Conc.Change 0 0%Z 1%Z [(7%Z, tt)]; Conc.Read 2 0%Z; Conc.Notify 0 (7%Z, tt) 0%Z 1%Z;
    Conc.Store 0 1%Z].
Proof.
  destruct (ConfigVar_threads_safe Z.eqb no_throw 0%Z [(7%Z, tt)] demo_progs demo_mid demo_mid_reach) as (_ & Hc & Hcomp).
  split; [exact Hc|]. split; [|vm_compute; reflexivity].
  apply (Hcomp 0 [Conc.getValue]). vm_compute. reflexivity.
Defined.

(** The rest of the run. *)
Definition demo_end : Conc.state := drive (Conc.tstep Z.eqb no_throw) [0; 1; 2] 100 demo_mid.

Lemma demo_end_reach : Conc.reach Z.eqb no_throw demo_start demo_end.
Proof. etrans; [exact demo_mid_reach|apply drive_reach]. Qed.

Lemma demo_end_stops s : ¬ Conc.step Z.eqb no_throw demo_end s.
Proof.
  intros [t Ht]. destruct t as [|[|[|t]]]; [vm_compute in Ht; done..|].
  unfold Conc.tstep in Ht. apply bind_Some in Ht as (th & Hth & _).
  apply lookup_lt_Some in Hth. vm_compute in Hth. lia.
Qed.

Lemma ConfigVar_calls_return_witness : Conc.finished demo_end ∧ Conc.m_val demo_end = 2%Z.
Proof.
  destruct (ConfigVar_calls_return Z.eqb no_throw 0%Z [(7%Z, tt)] demo_progs) as [limit Hl].
  split; [|vm_compute; reflexivity].
  destruct (rtc_nsteps_1 _ _ demo_end_reach) as [n Hn]. exact (proj2 (Hl n demo_end Hn) demo_end_stops).
Defined.

Lemma ConfigVar_races_witness :
  ∃ s, Conc.reach Z.eqb no_throw (Conc.init 0%Z [(7%Z, tt)] [[Conc.setValue 1%Z]; [Conc.setValue 2%Z]]) s ∧
    Conc.finished s ∧ Conc.m_val s = 1%Z ∧ last (omap Conc.told (Conc.trace s)) = Some (0%Z, 2%Z).
Proof. exact (proj1 (ConfigVar_races Z.eqb no_throw 0%Z 1%Z 2%Z (7%Z, tt) "tcp.timeout" eq_refl eq_refl eq_refl eq_refl)). Defined.
