(* ===== verification/LogConfig.v ===== *)
(** * The logging configuration (sylar/log.cc)

    The variable ["logs"] of type [std::set<LogDefine>] describes loggers
    and their appenders.  This file has the data, its casts to and from
    text, the listener that reconfigures the loggers when the variable
    changes, and the printers of loggers and appenders. *)
From S2P Require Import Prelude CppStd Lock LogLevel LogFormatter Logger Yaml LexicalCast.

(** ** LogAppenderDefine and LogDefine *)
Module LogAppenderDefine.
Inductive Type_ := TypeUNKNOW | TypeFileLogAppender | TypeStdoutLogAppender.

#[global] Instance Type_eq_dec : EqDecision Type_.
Proof. solve_decision. Defined.

Record t := mk {
  type : Type_;
  level : Z;
  formatter : string;
  file : string;
}.

#[global] Instance t_eq_dec : EqDecision t.
Proof. solve_decision. Defined.

(** The members' initialisers. *)
Definition init : t := mk TypeUNKNOW LogLevel.UNKNOW "" "".

(** [operator==] *)
Definition eqb (a b : t) : bool :=
  bool_decide (type a = type b) && (level a =? level b)%Z &&
  String.eqb (formatter a) (formatter b) && String.eqb (file a) (file b).

Definition StringToType (str : string) : Type_ :=
  let ucstr := transform toupper str in
  if String.eqb ucstr "FILELOGAPPENDER" then TypeFileLogAppender
  else if String.eqb ucstr "STDOUTLOGAPPENDER" then TypeStdoutLogAppender
  else TypeUNKNOW.

Definition TypeToString (ty : Type_) : string :=
  match ty with
  | TypeFileLogAppender => "FileLogAppender"
  | TypeStdoutLogAppender => "StdoutLogAppender"
  | TypeUNKNOW => "UNKNOW"
  end.
End LogAppenderDefine.

Module LogDefine.
Record t := mk {
  name : string;
  level : Z;
  formatter : string;
  appenders : list LogAppenderDefine.t;
}.

#[global] Instance t_eq_dec : EqDecision t.
Proof. solve_decision. Defined.

Definition init : t := mk "" LogLevel.UNKNOW "" [].

(** [operator==] of two vectors. *)
Fixpoint vec_eqb (l k : list LogAppenderDefine.t) : bool :=
  match l, k with
  | [], [] => true
  | a :: l, b :: k => LogAppenderDefine.eqb a b && vec_eqb l k
  | _, _ => false
  end.

Definition eqb (a b : t) : bool :=
  String.eqb (name a) (name b) && (level a =? level b)%Z &&
  String.eqb (formatter a) (formatter b) && vec_eqb (appenders a) (appenders b).

(** [operator<] compares names: [std::set<LogDefine>] is keyed by name. *)
Definition ltb (a b : t) : bool := klt (name a) (name b).
End LogDefine.

(** [operator==] of two sets. *)
Fixpoint logs_eqb (l k : list LogDefine.t) : bool :=
  match l, k with
  | [], [] => true
  | a :: l, b :: k => LogDefine.eqb a b && logs_eqb l k
  | _, _ => false
  end.

Section casts.
Context `{Yaml}.

(** ** LexicalCast<std::string, LogDefine>

    The functions fill the object passed by reference: it is threaded
    through, next to the returned flag. *)
Definition complain (msg : string) (node : Node) : M World unit :=
  cout (msg +:+ NL +:+ Emit node +:+ NL).

Definition set_name (v : string) (d : LogDefine.t) : LogDefine.t :=
  LogDefine.mk v (LogDefine.level d) (LogDefine.formatter d) (LogDefine.appenders d).
Definition set_level (v : Z) (d : LogDefine.t) : LogDefine.t :=
  LogDefine.mk (LogDefine.name d) v (LogDefine.formatter d) (LogDefine.appenders d).
Definition set_formatter (v : string) (d : LogDefine.t) : LogDefine.t :=
  LogDefine.mk (LogDefine.name d) (LogDefine.level d) v (LogDefine.appenders d).
Definition push_appender (a : LogAppenderDefine.t) (d : LogDefine.t) : LogDefine.t :=
  LogDefine.mk (LogDefine.name d) (LogDefine.level d) (LogDefine.formatter d) (LogDefine.appenders d ++ [a]).

Definition read_name (ld : LogDefine.t) (node : Node) : M World (LogDefine.t * bool) :=
  x ← ycall (Subscript node "name");
  if negb (IsDefined x) then
    complain "log config error: name not defined" node;; mret (ld, false)
  else if negb (IsScalar x) then
    complain "log config error: name not scalar" node;; mret (ld, false)
  else s ← ycall (Scalar x); mret (set_name s ld, true).

Definition read_level (ld : LogDefine.t) (node : Node) : M World (LogDefine.t * bool) :=
  x ← ycall (Subscript node "level");
  if negb (IsDefined x) then
    complain "log config error: level not defined" node;; mret (ld, false)
  else if negb (IsScalar x) then
    complain "log config error: level not scalar" node;; mret (ld, false)
  else s ← ycall (Scalar x); mret (set_level (LogLevel.FromString s) ld, true).

Definition read_formatter (ld : LogDefine.t) (node : Node) : M World (LogDefine.t * bool) :=
  x ← ycall (Subscript node "formatter");
  if negb (IsDefined x) then
    complain "log config warn: formatter not defined" node;; mret (ld, true)
  else if negb (IsScalar x) then
    complain "log config error: formatter not scalar" node;; mret (ld, false)
  else s ← ycall (Scalar x); mret (set_formatter s ld, true).

(** [_read_an_appender]; [lad] is a local object of the caller, so only
    the value it has on success matters. *)
Definition read_file (ty : LogAppenderDefine.Type_) (node : Node) : M World (option string) :=
  match ty with
  | LogAppenderDefine.TypeFileLogAppender =>
      x ← ycall (Subscript node "file");
      if negb (IsDefined x) || negb (IsScalar x) then
        complain "logappender config error: file not defined or not scalar" node;; mret None
      else s ← ycall (Scalar x); mret (Some s)
  | _ => mret (Some "")
  end.

Definition read_appender_level (node : Node) : M World (option Z) :=
  x ← ycall (Subscript node "level");
  if negb (IsDefined x) then
    complain "logappender config warn: level not defined" node;; mret (Some LogLevel.UNKNOW)
  else if negb (IsScalar x) then
    complain "logappender config error: level not scalar" node;; mret None
  else s ← ycall (Scalar x); mret (Some (LogLevel.FromString s)).

Definition read_appender_formatter (node : Node) : M World (option string) :=
  x ← ycall (Subscript node "formatter");
  if negb (IsDefined x) then
    complain "logappender config warn: formatter not defined" node;; mret (Some "")
  else if negb (IsScalar x) then
    complain "logappender config error: formatter not scalar" node;; mret None
  else s ← ycall (Scalar x); mret (Some s).

Definition read_an_appender (node : Node) : M World (option LogAppenderDefine.t) :=
  x ← ycall (Subscript node "type");
  if negb (IsDefined x) then
    complain "logappender config error: type not defined" node;; mret None
  else if negb (IsScalar x) then
    complain "logappender config error: type not scalar" node;; mret None
  else
    s ← ycall (Scalar x);
    let type := LogAppenderDefine.StringToType s in
    if decide (type = LogAppenderDefine.TypeUNKNOW) then
      complain "logappender config error: type unknown" node;; mret None
    else
      file ← read_file type node;
      match file with
      | None => mret None
      | Some file =>
          level ← read_appender_level node;
          match level with
          | None => mret None
          | Some level =>
              formatter ← read_appender_formatter node;
              match formatter with
              | None => mret None
              | Some formatter => mret (Some (LogAppenderDefine.mk type level formatter file))
              end
          end
      end.

(** The loop over [node["appenders"]]; an unreadable one is skipped. *)
Fixpoint read_appenders_loop (ld : LogDefine.t) (appenders : Node) (x n : nat) : M World LogDefine.t :=
  match n with
  | 0 => mret ld
  | S n =>
      a ← ycall (Index appenders x);
      lad ← read_an_appender a;
      read_appenders_loop (match lad with Some lad => push_appender lad ld | None => ld end)
        appenders (S x) n
  end.

Definition read_appenders (ld : LogDefine.t) (node : Node) : M World (LogDefine.t * bool) :=
  x ← ycall (Subscript node "appenders");
  if negb (IsDefined x) then
    complain "log config warn: appenders not defined" node;; mret (ld, true)
  else if negb (IsSequence x) then
    complain "log config error: appenders not sequence" node;; mret (ld, false)
  else ld ← read_appenders_loop ld x 0 (Size x); mret (ld, true).

Definition LogDefine_from_string (v : string) : M World LogDefine.t :=
  node ← ycall (Load v);
  '(ld, ok) ← read_name LogDefine.init node;
  if negb ok then mret ld else
  '(ld, ok) ← read_level ld node;
  if negb ok then mret ld else
  '(ld, ok) ← read_formatter ld node;
  if negb ok then mret ld else
  '(ld, _) ← read_appenders ld node;
  mret ld.

(** ** LexicalCast<LogDefine, std::string> *)
Definition write_appender (n : nat) (a : LogAppenderDefine.t) (node : Node) : Node :=
  let node := if negb (str_empty (LogAppenderDefine.file a))
    then AssignAt node n "file" (NScalar (LogAppenderDefine.file a)) else node in
  let node := if negb (str_empty (LogAppenderDefine.formatter a))
    then AssignAt node n "formatter" (NScalar (LogAppenderDefine.formatter a)) else node in
  let node := if negb (LogAppenderDefine.level a =? LogLevel.UNKNOW)%Z
    then AssignAt node n "level" (NScalar (LogLevel.ToString (LogAppenderDefine.level a))) else node in
  AssignAt node n "type" (NScalar (LogAppenderDefine.TypeToString (LogAppenderDefine.type a))).

Fixpoint write_appenders (n : nat) (l : list LogAppenderDefine.t) (node : Node) : Node :=
  match l with
  | [] => node
  | a :: l => write_appenders (S n) l (write_appender n a node)
  end.

Definition LogDefine_to_string (ld : LogDefine.t) : M World string :=
  let node := Assign NNull "name" (NScalar (LogDefine.name ld)) in
  let node := Assign node "level" (NScalar (LogLevel.ToString (LogDefine.level ld))) in
  let node := Assign node "formatter" (NScalar (LogDefine.formatter ld)) in
  let appenders_node := write_appenders 0 (LogDefine.appenders ld) NNull in
  let node := Assign node "appenders" appenders_node in
  mret (Emit node).

(** The casts of [std::set<LogDefine>], from the template for sets. *)
Definition logs_from_string : string → M World (list LogDefine.t) :=
  set_from_string LogDefine.name LogDefine_from_string.
Definition logs_to_string : list LogDefine.t → M World string :=
  set_to_string LogDefine_to_string.

(** ** toYamlString *)
Definition StdoutLogAppender_toYaml (a : LogAppender) : Node :=
  let node := Assign NNull "type" (NScalar "StdoutLogAppender") in
  let node := if negb (a_level a =? LogLevel.UNKNOW)%Z
    then Assign node "level" (NScalar (LogLevel.ToString (a_level a))) else node in
  match a_formatter a with
  | Some f => Assign node "formatter" (NScalar (getPattern f))
  | None => node
  end.

Definition FileLogAppender_toYaml (m_filename : string) (a : LogAppender) : Node :=
  let node := Assign NNull "type" (NScalar "FileLogAppender") in
  let node := if negb (a_level a =? LogLevel.UNKNOW)%Z
    then Assign node "level" (NScalar (LogLevel.ToString (a_level a))) else node in
  let node := Assign node "file" (NScalar m_filename) in
  match a_formatter a with
  | Some f => Assign node "formatter" (NScalar (getPattern f))
  | None => node
  end.

(** The virtual call [i->toYamlString()]. *)
Definition LogAppender_toYamlString (p : nat) : M World string :=
  ScopedLockImpl (mkMutex (LkAppender p)) (
    a ← load_appender p;
    mret (Emit (match a_kind a with
      | StdoutLogAppender => StdoutLogAppender_toYaml a
      | FileLogAppender name _ _ => FileLogAppender_toYaml name a
      end))).

Fixpoint push_appenders (l : list nat) (node : Node) : M World Node :=
  match l with
  | [] => mret node
  | i :: l =>
      s ← LogAppender_toYamlString i;
      x ← ycall (Load s);
      push_appenders l (PushBackAt node "appenders" x)
  end.

Definition Logger_toYamlString (p : nat) : M World string :=
  ScopedLockImpl (mkMutex (LkLogger p)) (
    l ← load_logger p;
    let node := Assign NNull "name" (NScalar (l_name l)) in
    let node := Assign node "level" (NScalar (LogLevel.ToString (l_level l))) in
    let node := match l_formatter l with
      | Some f => Assign node "formatter" (NScalar (getPattern f))
      | None => node
      end in
    node ← push_appenders (l_appenders l) node;
    mret (Emit node)).

Fixpoint push_loggers (l : list (string * nat)) (node : Node) : M World Node :=
  match l with
  | [] => mret node
  | i :: l =>
      s ← Logger_toYamlString i.2;
      x ← ycall (Load s);
      push_loggers l (PushBack node x)
  end.

Definition LoggerManager_toYamlString : M World string :=
  ScopedLockImpl (mkMutex LkManager) (
    m ← deref "no LoggerManager" w_mgr;
    node ← push_loggers (mg_loggers m) NNull;
    mret (Emit node)).
End casts.

(** ** The listener of LogIniter *)
Section listener.
Context `{Platform}.

(** [a.type == ...]: construct the appender; [None] leaves the loop. *)
Definition make_appender (a : LogAppenderDefine.t) : M World (option nat) :=
  match LogAppenderDefine.type a with
  | LogAppenderDefine.TypeFileLogAppender => p ← FileLogAppender_new (LogAppenderDefine.file a); mret (Some p)
  | LogAppenderDefine.TypeStdoutLogAppender => p ← StdoutLogAppender_new; mret (Some p)
  | LogAppenderDefine.TypeUNKNOW => cout ("Unknown Appender Type" +:+ NL);; mret None
  end.

(** The loop over the appenders of a definition. *)
Fixpoint add_appenders (logger : nat) (l : list LogAppenderDefine.t) : M World unit :=
  match l with
  | [] => mret tt
  | a :: l =>
      ap ← make_appender a;
      match ap with
      | None => mret tt
      | Some ap =>
          LogAppender_setLevel ap (LogAppenderDefine.level a);;
          (if negb (str_empty (LogAppenderDefine.formatter a))
           then LogAppender_setFormatter ap (Some (LogFormatter_new (LogAppenderDefine.formatter a)))
           else mret tt);;
          Logger_addAppender logger ap;;
          add_appenders logger l
      end
  end.

(** Configure a logger that is new or has changed. *)
Definition configure (i : LogDefine.t) : M World unit :=
  logger ← SYLAR_LOG_NAME (LogDefine.name i);
  Logger_setLevel logger (LogDefine.level i);;
  (if negb (str_empty (LogDefine.formatter i))
   then Logger_setFormatter_string logger (LogDefine.formatter i) else mret tt);;
  Logger_clearAppenders logger;;
  add_appenders logger (LogDefine.appenders i).

(** The first loop: definitions that are new or differ. *)
Definition apply_new (old_value : list LogDefine.t) (i : LogDefine.t) : M World unit :=
  match sset_find LogDefine.name (LogDefine.name i) old_value with
  | None => configure i
  | Some it => if negb (LogDefine.eqb i it) then configure i else mret tt
  end.

(** The second loop: definitions that are gone. *)
Definition remove_old (new_value : list LogDefine.t) (i : LogDefine.t) : M World unit :=
  match sset_find LogDefine.name (LogDefine.name i) new_value with
  | None =>
      logger ← SYLAR_LOG_NAME (LogDefine.name i);
      Logger_setLevel logger LogLevel.REMOVED;;
      Logger_clearAppenders logger
  | Some _ => mret tt
  end.

Definition on_logs_changed (old_value new_value : list LogDefine.t) : M World unit :=
  root ← SYLAR_LOG_ROOT;
  SYLAR_LOG_LEVEL root LogLevel.DEBUG "log.cc" 1034 "on_logger_conf_changed!";;
  foreach new_value (apply_new old_value);;
  foreach old_value (remove_old new_value).
End listener.
