(* ===== verification/LogConfigCast.v ===== *)
(** * The text of a logging configuration is read back *)
From S2P Require Import Prelude CppStd LogLevel LogFormatter Logger Yaml LexicalCast LogConfig.

Section cast.
Context `{Hyl : YamlLaws}.

(** ** Writing *)

(** A sequence whose last element is a map under construction. *)
Definition at_end (l : list Node) (e : list (Node * Node)) : Node :=
  seq_node (l ++ match e with [] => [] | _ => [NMap e] end).

Lemma at_end_assign l e key v : assoc key e = None →
  AssignAt (at_end l e) (length l) key v = at_end l (e ++ [(NScalar key, v)]).
Proof.
  intros He. unfold at_end. destruct e as [|kv e].
  - rewrite app_nil_r. simpl. destruct l as [|x l]; simpl; [apply assign_at_null|].
    apply (assign_at_end (x :: l)).
  - assert (∀ x, seq_node (l ++ [x]) = NSequence (l ++ [x])) as Hseq by (by destruct l).
    simpl app at 3. rewrite !Hseq, (assign_at_elem _ _ (NMap (kv :: e))) by (by apply list_lookup_middle).
    by rewrite assign_map, insert_app_r_alt, Nat.sub_diag by done.
Qed.

(** The entries of an appender's map, in the order they are assigned. *)
Definition appender_entries (a : LogAppenderDefine.t) : list (Node * Node) :=
  (if negb (str_empty (LogAppenderDefine.file a))
   then [(NScalar "file", NScalar (LogAppenderDefine.file a))] else []) ++
  (if negb (str_empty (LogAppenderDefine.formatter a))
   then [(NScalar "formatter", NScalar (LogAppenderDefine.formatter a))] else []) ++
  (if negb (LogAppenderDefine.level a =? LogLevel.UNKNOW)%Z
   then [(NScalar "level", NScalar (LogLevel.ToString (LogAppenderDefine.level a)))] else []) ++
  [(NScalar "type", NScalar (LogAppenderDefine.TypeToString (LogAppenderDefine.type a)))].

Lemma write_appender_ok a l :
  write_appender (length l) a (seq_node l) = seq_node (l ++ [NMap (appender_entries a)]).
Proof.
  assert (seq_node l = at_end l []) as -> by (unfold at_end; by rewrite app_nil_r).
  assert (seq_node (l ++ [NMap (appender_entries a)]) = at_end l (appender_entries a)) as ->.
  { unfold at_end, appender_entries. by repeat case_match. }
  unfold write_appender, appender_entries.
  destruct (str_empty (LogAppenderDefine.file a)), (str_empty (LogAppenderDefine.formatter a)),
    (LogAppenderDefine.level a =? LogLevel.UNKNOW)%Z; simpl;
    by repeat (rewrite at_end_assign by done; simpl).
Qed.

Definition appender_node (a : LogAppenderDefine.t) : Node := NMap (appender_entries a).

Lemma write_appenders_ok k l :
  write_appenders (length l) k (seq_node l) = seq_node (l ++ (appender_node <$> k)).
Proof.
  revert l. induction k as [|a k IH]; intros l; [by rewrite app_nil_r|]. simpl.
  rewrite write_appender_ok. specialize (IH (l ++ [appender_node a])).
  rewrite length_app, Nat.add_1_r in IH. simpl in IH. unfold appender_node at 1 in IH. rewrite IH.
  by rewrite <-app_assoc.
Qed.

Definition define_node (d : LogDefine.t) : Node :=
  NMap [(NScalar "name", NScalar (LogDefine.name d));
        (NScalar "level", NScalar (LogLevel.ToString (LogDefine.level d)));
        (NScalar "formatter", NScalar (LogDefine.formatter d));
        (NScalar "appenders", seq_node (appender_node <$> LogDefine.appenders d))].

Lemma LogDefine_to_string_ok d s : LogDefine_to_string d s = Ret (Emit (define_node d)) s.
Proof.
  unfold LogDefine_to_string. rewrite assign_null, !assign_map by done.
  by rewrite (write_appenders_ok _ []).
Qed.

Lemma wf_define_node d : wf_node (define_node d) = true.
Proof.
  simpl. rewrite andb_true_r. apply wf_seq_node.
  induction (LogDefine.appenders d) as [|a l IH]; [done|]. rewrite fmap_cons. simpl. rewrite IH, andb_true_r.
  unfold appender_entries.
  by destruct (str_empty (LogAppenderDefine.file a)), (str_empty (LogAppenderDefine.formatter a)),
    (LogAppenderDefine.level a =? LogLevel.UNKNOW)%Z.
Qed.

(** ** Reading *)
Definition appender_def_ok (a : LogAppenderDefine.t) : Prop :=
  match LogAppenderDefine.type a with
  | LogAppenderDefine.TypeFileLogAppender => LogAppenderDefine.file a ≠ ""
  | LogAppenderDefine.TypeStdoutLogAppender => LogAppenderDefine.file a = ""
  | LogAppenderDefine.TypeUNKNOW => False
  end ∧ LogLevel.is_level (LogAppenderDefine.level a).

Definition define_ok (d : LogDefine.t) : Prop :=
  LogLevel.is_level (LogDefine.level d) ∧ Forall appender_def_ok (LogDefine.appenders d).

(** A map entry that is a scalar, or absent. *)
Definition entry (key : string) (node : Node) (x : option string) : Prop :=
  Subscript node key = inr (match x with Some s => NScalar s | None => NUndefined end).

Lemma wp_read_file node f w : entry "file" node (Some f) →
  wp (read_file LogAppenderDefine.TypeFileLogAppender node) (λ r _, r = Some f) w.
Proof.
  intros Hf. apply wp_bind. eapply wp_ycall; [exact Hf|]. simpl.
  apply wp_bind. eapply wp_ycall; [apply scalar_scalar|done].
Qed.

Lemma read_appender_level_ok node (x : option string) w : entry "level" node x →
  wp (read_appender_level node) (λ r _, r = Some (match x with
    Some s => LogLevel.FromString s | None => LogLevel.UNKNOW end)) w.
Proof.
  intros He. unfold read_appender_level. apply wp_bind. eapply wp_ycall; [exact He|].
  destruct x as [s|]; simpl; [|by apply wp_bind, wp_modify].
  apply wp_bind. eapply wp_ycall; [apply scalar_scalar|done].
Qed.

Lemma read_appender_formatter_ok node (x : option string) w : entry "formatter" node x →
  wp (read_appender_formatter node) (λ r _, r = Some (default "" x)) w.
Proof.
  intros He. unfold read_appender_formatter. apply wp_bind. eapply wp_ycall; [exact He|].
  destruct x as [s|]; simpl; [|by apply wp_bind, wp_modify].
  apply wp_bind. eapply wp_ycall; [apply scalar_scalar|done].
Qed.

(** What the entries of an appender's map are. *)
Lemma appender_entry a :
  entry "type" (appender_node a) (Some (LogAppenderDefine.TypeToString (LogAppenderDefine.type a))) ∧
  (LogAppenderDefine.file a ≠ "" → entry "file" (appender_node a) (Some (LogAppenderDefine.file a))) ∧
  entry "level" (appender_node a) (if (LogAppenderDefine.level a =? LogLevel.UNKNOW)%Z then None
    else Some (LogLevel.ToString (LogAppenderDefine.level a))) ∧
  entry "formatter" (appender_node a) (if str_empty (LogAppenderDefine.formatter a) then None
    else Some (LogAppenderDefine.formatter a)).
Proof.
  unfold entry, appender_node. rewrite !subscript_map. unfold appender_entries.
  assert (LogAppenderDefine.file a ≠ "" → str_empty (LogAppenderDefine.file a) = false) as Hf.
  { intros Hne. by destruct (LogAppenderDefine.file a). }
  destruct (str_empty (LogAppenderDefine.file a)), (str_empty (LogAppenderDefine.formatter a)),
    (LogAppenderDefine.level a =? LogLevel.UNKNOW)%Z; simpl; split_and!; try done; intros ?%Hf; done.
Qed.

Lemma type_roundtrip ty : LogAppenderDefine.StringToType (LogAppenderDefine.TypeToString ty) = ty.
Proof. by destruct ty. Qed.

(** What is left of a definition after a passage through text: a level
    that is no enumerator becomes [UNKNOW], an appender of unknown type or
    of type file without a file name is lost, and the file name of a
    stdout appender is lost. *)
Definition norm_level (l : Z) : Z := if bool_decide (LogLevel.is_level l) then l else LogLevel.UNKNOW.

Definition norm_appender (a : LogAppenderDefine.t) : option LogAppenderDefine.t :=
  let a' file := LogAppenderDefine.mk (LogAppenderDefine.type a) (norm_level (LogAppenderDefine.level a))
    (LogAppenderDefine.formatter a) file in
  match LogAppenderDefine.type a with
  | LogAppenderDefine.TypeUNKNOW => None
  | LogAppenderDefine.TypeFileLogAppender =>
      if str_empty (LogAppenderDefine.file a) then None else Some (a' (LogAppenderDefine.file a))
  | LogAppenderDefine.TypeStdoutLogAppender => Some (a' "")
  end.

Definition norm_define (d : LogDefine.t) : LogDefine.t :=
  LogDefine.mk (LogDefine.name d) (norm_level (LogDefine.level d)) (LogDefine.formatter d)
    (omap norm_appender (LogDefine.appenders d)).

(** *** Reading any node with the right entries *)
Definition level_of (x : option string) : Z :=
  match x with Some s => LogLevel.FromString s | None => LogLevel.UNKNOW end.

(** After the type and the file, the rest of an appender is read. *)
Lemma read_rest_entries node lev fmt ty file w : entry "level" node lev → entry "formatter" node fmt →
  wp (level ← read_appender_level node;
      match level with
      | None => mret None
      | Some level =>
          formatter ← read_appender_formatter node;
          match formatter with
          | None => mret None
          | Some formatter => mret (Some (LogAppenderDefine.mk ty level formatter file))
          end
      end)
    (λ r _, r = Some (LogAppenderDefine.mk ty (level_of lev) (default "" fmt) file)) w.
Proof.
  intros Hl Hf.
  apply wp_bind. eapply wp_mono; [|by apply read_appender_level_ok]. intros r w1 ->.
  apply wp_bind. eapply wp_mono; [|by apply read_appender_formatter_ok]. intros r w2 ->.
  by apply wp_ret.
Qed.

(** The node of an appender is read as [r], whatever the state. *)
Definition reads_appender (node : Node) (r : option LogAppenderDefine.t) : Prop :=
  ∀ w, wp (read_an_appender node) (λ r' _, r' = r) w.

Lemma read_appenders_loop_ok pre ns ds ld w : Forall2 reads_appender ns ds →
  wp (read_appenders_loop ld (seq_node (pre ++ ns)) (length pre) (length ns))
    (λ r _, r = LogDefine.mk (LogDefine.name ld) (LogDefine.level ld) (LogDefine.formatter ld)
      (LogDefine.appenders ld ++ omap id ds)) w.
Proof.
  intros Hns. revert pre ld w. induction Hns as [|n d ns ds Hr _ IH]; intros pre ld w.
  { apply wp_ret. rewrite app_nil_r. by destruct ld. }
  simpl. apply wp_bind. eapply wp_ycall; [by apply index_seq_node, list_lookup_middle|].
  apply wp_bind. eapply wp_mono; [|apply Hr]. intros r w1 ->.
  set (ld' := match d with Some _ => _ | None => _ end). specialize (IH (pre ++ [n]) ld' w1).
  rewrite <-app_assoc, length_app, Nat.add_1_r in IH. simpl in IH.
  eapply wp_mono; [|exact IH]. intros r w2 ->. unfold ld'.
  destruct d; [|done]. simpl. by rewrite <-app_assoc.
Qed.

(** A definition with the mandatory entries; its appenders are a sequence,
    or there are none. *)
Lemma wp_read_define node name lev fmt apps ns ds w : wf_node node = true →
  entry "name" node (Some name) → entry "level" node (Some lev) → entry "formatter" node fmt →
  Subscript node "appenders" = inr apps → (apps = NSequence ns ∨ ns = [] ∧ IsSequence apps = false) →
  Forall2 reads_appender ns ds →
  wp (LogDefine_from_string (Emit node))
    (λ r _, r = LogDefine.mk name (LogLevel.FromString lev) (default "" fmt) (omap id ds)) w.
Proof.
  intros Hwf Hn Hl Hf Ha Hns Hds. unfold LogDefine_from_string. apply wp_bind.
  eapply wp_ycall; [by apply load_emit|].
  apply wp_bind. unfold read_name. apply wp_bind. eapply wp_ycall; [exact Hn|]. simpl.
  apply wp_bind. eapply wp_ycall; [apply scalar_scalar|]. apply wp_ret. simpl.
  apply wp_bind. unfold read_level. apply wp_bind. eapply wp_ycall; [exact Hl|]. simpl.
  apply wp_bind. eapply wp_ycall; [apply scalar_scalar|]. apply wp_ret. simpl. apply wp_bind.
  set (ld := set_level _ _).
  apply wp_mono with (λ r _, r = (set_formatter (default "" fmt) ld, true)).
  2: { unfold read_formatter. apply wp_bind. eapply wp_ycall; [exact Hf|]. destruct fmt as [s|]; simpl.
       - apply wp_bind. by eapply wp_ycall; [apply scalar_scalar|].
       - by apply wp_bind, wp_modify, wp_ret. }
  intros [? ?] w1 [= -> ->]. simpl. apply wp_bind. unfold read_appenders. apply wp_bind.
  eapply wp_ycall; [exact Ha|]. destruct Hns as [->|[-> Hseq]].
  - simpl. rewrite size_sequence. destruct ns as [|n ns'].
    { inversion Hds. apply wp_bind. by repeat apply wp_ret. }
    apply wp_bind. eapply wp_mono; [|by apply (read_appenders_loop_ok [] (n :: ns'))].
    intros r w2 ->. by repeat apply wp_ret.
  - inversion Hds. destruct (IsDefined apps); simpl; rewrite ?Hseq; simpl;
      apply wp_bind, wp_modify; by repeat apply wp_ret.
Qed.

(** *** Reading a definition that was written *)
Lemma level_of_norm l : level_of (if (l =? LogLevel.UNKNOW)%Z then None else Some (LogLevel.ToString l)) = norm_level l.
Proof.
  unfold norm_level. destruct (l =? LogLevel.UNKNOW)%Z eqn:E; simpl; [|apply LogLevel.FromString_ToString].
  apply Z.eqb_eq in E. rewrite E. by case_bool_decide.
Qed.

Lemma read_rest_ok a ty file w :
  wp (level ← read_appender_level (appender_node a);
      match level with
      | None => mret None
      | Some level =>
          formatter ← read_appender_formatter (appender_node a);
          match formatter with
          | None => mret None
          | Some formatter => mret (Some (LogAppenderDefine.mk ty level formatter file))
          end
      end)
    (λ r _, r = Some (LogAppenderDefine.mk ty (norm_level (LogAppenderDefine.level a))
      (LogAppenderDefine.formatter a) file)) w.
Proof.
  destruct (appender_entry a) as (_ & _ & Hl & Hf). eapply wp_mono; [|by apply read_rest_entries].
  intros r w' ->. rewrite level_of_norm. by destruct (LogAppenderDefine.formatter a).
Qed.

Lemma read_an_appender_norm a w :
  wp (read_an_appender (appender_node a)) (λ r _, r = norm_appender a) w.
Proof.
  destruct (appender_entry a) as (Htype & Hfile & _).
  unfold read_an_appender, norm_appender. apply wp_bind. eapply wp_ycall; [exact Htype|]. simpl.
  apply wp_bind. eapply wp_ycall; [apply scalar_scalar|]. rewrite type_roundtrip.
  destruct (LogAppenderDefine.type a); simpl; [by apply wp_bind, wp_modify| |].
  - destruct (str_empty (LogAppenderDefine.file a)) eqn:Hf; apply wp_bind.
    + unfold read_file. apply wp_bind. apply wp_ycall with NUndefined; [|by apply wp_bind, wp_modify].
      apply str_empty_spec in Hf. unfold appender_node, appender_entries.
      rewrite subscript_map, Hf. simpl.
      by destruct (str_empty (LogAppenderDefine.formatter a)),
        (LogAppenderDefine.level a =? LogLevel.UNKNOW)%Z.
    + assert (LogAppenderDefine.file a ≠ "") as Hne by (intros Heq; by rewrite Heq in Hf).
      eapply wp_mono; [|apply wp_read_file; auto]. intros r w1 ->. apply read_rest_ok.
  - apply wp_bind. apply wp_ret. apply read_rest_ok.
Qed.

Lemma omap_id_fmap {A B} (f : A → option B) (l : list A) : omap id (f <$> l) = omap f l.
Proof. induction l as [|x l IH]; [done|]. rewrite fmap_cons. cbn. by rewrite IH. Qed.

Lemma LogDefine_reads d :
  reads LogDefine_from_string (λ x y, y = norm_define x) d (Emit (define_node d)).
Proof.
  intros w.
  enough (wp (LogDefine_from_string (Emit (define_node d))) (λ r _, r = norm_define d) w) as Hw.
  { apply wp_returns in Hw as (r & w' & -> & ->). eauto. }
  eapply wp_mono; [|eapply (wp_read_define (define_node d) (LogDefine.name d)
    (LogLevel.ToString (LogDefine.level d)) (Some (LogDefine.formatter d)) _
    (appender_node <$> LogDefine.appenders d) (norm_appender <$> LogDefine.appenders d));
    [apply wf_define_node|by apply subscript_map..| |]].
  - intros r w' ->. unfold norm_define, norm_level. rewrite LogLevel.FromString_ToString.
    f_equal. apply omap_id_fmap.
  - simpl. destruct (LogDefine.appenders d); [by right|by left].
  - apply Forall2_fmap, Forall_Forall2_diag, Forall_forall. intros a _ w'. apply read_an_appender_norm.
Qed.

Lemma LogDefine_castable d :
  castable LogDefine_from_string LogDefine_to_string (λ x y, y = norm_define x) d.
Proof.
  exists (Emit (define_node d)), (define_node d).
  split_and!; [intros s; apply LogDefine_to_string_ok|apply load_emit, wf_define_node|
    apply wf_define_node|apply LogDefine_reads..].
Qed.

Lemma norm_fmap l ys : Forall2 (λ x y, y = norm_define x) l ys → ys = norm_define <$> l.
Proof. induction 1 as [|x y l ys -> _ IH]; [done|]. by rewrite fmap_cons, IH. Qed.

Lemma norm_sorted l : sset_sorted LogDefine.name l → sset_sorted LogDefine.name (norm_define <$> l).
Proof.
  unfold sset_sorted. induction 1 as [|x l _ IH Hx]; [constructor|]. rewrite fmap_cons.
  constructor; [done|]. by rewrite Forall_fmap.
Qed.

(** The set of definitions with any relation that holds of the result. *)
Lemma logs_castable (R : list LogDefine.t → list LogDefine.t → Prop) l :
  sset_sorted LogDefine.name l → R l (norm_define <$> l) → castable logs_from_string logs_to_string R l.
Proof.
  intros Hs HR. unfold logs_from_string, logs_to_string, set_from_string, set_to_string.
  apply (castable_sequence LogDefine_from_string LogDefine_to_string (λ x y, y = norm_define x) _ [] id R).
  - apply Forall_forall. intros d _. apply LogDefine_castable.
  - intros ys ->%norm_fmap. rewrite foldl_sset. rewrite sset_of_list_id; [done|]. by apply norm_sorted.
Qed.

Lemma norm_level_id l : LogLevel.is_level l → norm_level l = l.
Proof. intros Hl. unfold norm_level. by rewrite bool_decide_true. Qed.

Lemma norm_appender_id a : appender_def_ok a → norm_appender a = Some a.
Proof.
  intros [Hty Hlev]. unfold norm_appender. rewrite norm_level_id by done.
  destruct a as [[] lev fmt file]; simpl in *; [done| |by rewrite Hty].
  by destruct file.
Qed.

Lemma norm_define_id d : define_ok d → norm_define d = d.
Proof.
  destruct d as [name lev fmt apps]. intros [Hlev Happs]. unfold norm_define. simpl in *.
  rewrite norm_level_id by done. f_equal.
  induction Happs as [|a l Ha _ IH]; [done|]. simpl. rewrite norm_appender_id by done. by f_equal.
Qed.

(** C14. The logging configuration survives a round trip through text: a
    set of definitions with distinct names is written as a YAML document
    that is read back with each definition normalised (a level that is no
    enumerator becomes UNKNOW, the file name of a stdout appender and an
    appender of unknown type are lost, and so is one of type file without a
    file name, although it is written); if its levels are enumerators and
    its appenders are of type file with a file name or of type stdout
    without one, the same set is read back. *)
Theorem logs_roundtrip l : sset_sorted LogDefine.name l →
  castable logs_from_string logs_to_string (λ x y, y = norm_define <$> x) l ∧
  (Forall define_ok l → castable logs_from_string logs_to_string eq l).
Proof.
  intros Hs. split; [by apply logs_castable|]. intros Hl. apply logs_castable; [done|].
  induction Hl as [|d l Hd _ IH]; [done|]. rewrite fmap_cons, norm_define_id by done. f_equal.
  apply IH. by inversion Hs.
Qed.
End cast.
