(* ===== verification/LogYaml.v ===== *)
(** * The text of the loggers (log.cc, the toYamlString methods)

    [LoggerManager::toYamlString] prints what the configuration variable
    "logs" can read: its text is the description of the loggers as they
    are. *)
From S2P Require Import Prelude CppStd Lock LogLevel LogFormatter Logger LoggerInv Yaml LexicalCast.
From S2P Require Import LogConfig LogConfigCast.

(** ** What the text describes *)
Definition pattern_of (f : option LogFormatter) : option string := getPattern <$> f.

Definition describe_appender (a : LogAppender) : LogAppenderDefine.t :=
  let mk ty := LogAppenderDefine.mk ty (norm_level (a_level a)) (default "" (pattern_of (a_formatter a))) in
  match a_kind a with
  | StdoutLogAppender => mk LogAppenderDefine.TypeStdoutLogAppender ""
  | FileLogAppender name _ _ => mk LogAppenderDefine.TypeFileLogAppender name
  end.

Definition describe_logger (w : World) (l : Logger) : LogDefine.t :=
  LogDefine.mk (l_name l) (norm_level (l_level l)) (default "" (pattern_of (l_formatter l)))
    (omap (λ i, describe_appender <$> w_appenders w !! i) (l_appenders l)).

Definition describe (w : World) (m : LoggerManager) : list LogDefine.t :=
  omap (λ kp, describe_logger w <$> w_loggers w !! kp.2) (mg_loggers m).

Section text.
Context `{Hyl : YamlLaws} `{Platform}.

(** ** Printing *)
Definition opt_entry (key : string) (x : option string) : list (Node * Node) :=
  match x with Some s => [(NScalar key, NScalar s)] | None => [] end.

Definition level_text (l : Z) : option string :=
  if (l =? LogLevel.UNKNOW)%Z then None else Some (LogLevel.ToString l).

Definition appender_map (a : LogAppender) : Node :=
  NMap (match a_kind a with
    | StdoutLogAppender =>
        (NScalar "type", NScalar "StdoutLogAppender") :: opt_entry "level" (level_text (a_level a)) ++
        opt_entry "formatter" (pattern_of (a_formatter a))
    | FileLogAppender name _ _ =>
        (NScalar "type", NScalar "FileLogAppender") :: opt_entry "level" (level_text (a_level a)) ++
        (NScalar "file", NScalar name) :: opt_entry "formatter" (pattern_of (a_formatter a))
    end).

Lemma wp_appender_text i a (Q : string → World → Prop) w :
  w_appenders w !! i = Some a → w_locks w !! LkAppender i = None → Q (Emit (appender_map a)) w →
  wp (LogAppender_toYamlString i) Q w.
Proof.
  intros Ha Hl HQ. apply wp_ScopedLock; [done|]. apply wp_bind. eapply wp_deref; [exact Ha|].
  apply wp_ret. split; [done|]. replace (set_locks _ _) with w by (by destruct w).
  match goal with |- Q (Emit ?n) w => assert (n = appender_map a) as -> end; [|done].
  unfold appender_map, level_text, StdoutLogAppender_toYaml, FileLogAppender_toYaml.
  destruct (a_kind a), (a_level a =? LogLevel.UNKNOW)%Z, (a_formatter a); simpl;
    by rewrite assign_null, ?assign_map by done.
Qed.

Lemma wf_appender_map a : wf_node (appender_map a) = true.
Proof.
  unfold appender_map. by destruct (a_kind a), (level_text (a_level a)), (a_formatter a).
Qed.

(** A map with a sequence of appenders at its end, if there is any. *)
Definition with_appenders (e : list (Node * Node)) (ns : list Node) : Node :=
  NMap (e ++ match ns with [] => [] | _ => [(NScalar "appenders", NSequence ns)] end).

Lemma push_with_appenders e ns n : assoc "appenders" e = None →
  PushBackAt (with_appenders e ns) "appenders" n = with_appenders e (ns ++ [n]).
Proof.
  intros He. unfold with_appenders. destruct ns as [|n' ns].
  - rewrite app_nil_r. by apply push_back_at_map.
  - by rewrite push_back_at_last.
Qed.

Definition appender_at (w : World) (i : nat) : Node :=
  match w_appenders w !! i with Some a => appender_map a | None => NNull end.

Lemma wp_push_appenders e ns l (Q : Node → World → Prop) w : assoc "appenders" e = None →
  (∀ i, i ∈ l → is_Some (w_appenders w !! i)) → (∀ i, w_locks w !! LkAppender i = None) →
  Q (with_appenders e (ns ++ (appender_at w <$> l))) w → wp (push_appenders l (with_appenders e ns)) Q w.
Proof.
  intros He Hl Hlk. revert ns. induction l as [|i l IH]; intros ns HQ; simpl.
  { apply wp_ret. by rewrite app_nil_r in HQ. }
  destruct (Hl i ltac:(by left)) as [a Ha]. apply wp_bind, (wp_appender_text i a); [done..|].
  apply wp_bind. eapply wp_ycall; [apply load_emit, wf_appender_map|].
  rewrite push_with_appenders by done. apply IH; [intros j Hj; apply Hl; by right|].
  rewrite fmap_cons in HQ. unfold appender_at at 1 in HQ. by rewrite Ha, cons_middle, app_assoc in HQ.
Qed.

Definition logger_map (w : World) (l : Logger) : Node :=
  with_appenders ([(NScalar "name", NScalar (l_name l)); (NScalar "level", NScalar (LogLevel.ToString (l_level l)))]
    ++ opt_entry "formatter" (pattern_of (l_formatter l))) (appender_at w <$> l_appenders l).

(** The logger [p] of a well-formed state, whatever locks are held outside
    of it and its appenders. *)
Lemma wp_logger_text p l (Q : string → World → Prop) w : logger_ok w l →
  w_loggers w !! p = Some l → w_locks w !! LkLogger p = None → (∀ i, w_locks w !! LkAppender i = None) →
  Q (Emit (logger_map w l)) w → wp (Logger_toYamlString p) Q w.
Proof.
  intros Hok Hp Hl Hlk HQ. apply wp_ScopedLock; [done|]. apply wp_bind. eapply wp_deref; [exact Hp|].
  cbv zeta. match goal with |- wp (mbind _ (push_appenders _ ?n)) _ _ => assert (n = with_appenders
    ([(NScalar "name", NScalar (l_name l)); (NScalar "level", NScalar (LogLevel.ToString (l_level l)))]
    ++ opt_entry "formatter" (pattern_of (l_formatter l))) []) as -> end.
  { unfold with_appenders. rewrite app_nil_r. destruct (l_formatter l); simpl;
      by rewrite assign_null, !assign_map. }
  apply wp_bind, wp_push_appenders.
  - by destruct (l_formatter l).
  - intros i Hi. destruct (lo_appenders _ _ Hok i Hi) as (a & Ha & _). by exists a.
  - intros i. simpl. rewrite lookup_insert_ne by done. apply Hlk.
  - apply wp_ret. split; [done|]. by destruct w.
Qed.

Lemma wf_logger_map w l : wf_node (logger_map w l) = true.
Proof.
  unfold logger_map, with_appenders. cbn [wf_node]. rewrite forallb_app. apply andb_true_iff. split.
  { by destruct (l_formatter l). }
  assert (forallb wf_node (appender_at w <$> l_appenders l) = true) as Hf.
  { apply forallb_forall. intros n (i & <- & _)%in_map_iff. unfold appender_at.
    destruct (w_appenders w !! i); [apply wf_appender_map|done]. }
  destruct (appender_at w <$> l_appenders l); [done|]. simpl in *. by rewrite Hf.
Qed.

Definition logger_at (w : World) (p : nat) : Node :=
  match w_loggers w !! p with Some l => logger_map w l | None => NNull end.

Lemma push_seq_node ns n : PushBack (seq_node ns) n = seq_node (ns ++ [n]).
Proof. destruct ns; [apply push_back_null|apply push_back_sequence]. Qed.

Lemma wp_push_loggers ns l (Q : Node → World → Prop) w :
  (∀ p x, w_loggers w !! p = Some x → logger_ok w x) →
  (∀ kp, kp ∈ l → is_Some (w_loggers w !! kp.2)) →
  (∀ p, w_locks w !! LkLogger p = None) → (∀ i, w_locks w !! LkAppender i = None) →
  Q (seq_node (ns ++ (logger_at w ∘ snd <$> l))) w → wp (push_loggers l (seq_node ns)) Q w.
Proof.
  intros Hwf Hl Hlk Hla. revert ns. induction l as [|[k p] l IH]; intros ns HQ; simpl.
  { apply wp_ret. by rewrite app_nil_r in HQ. }
  destruct (Hl (k, p) ltac:(by left)) as [x Hx]. simpl in Hx.
  apply wp_bind, (wp_logger_text p x); [by apply (Hwf p)|done..|].
  apply wp_bind. eapply wp_ycall; [apply load_emit, wf_logger_map|].
  rewrite push_seq_node. apply IH; [intros j Hj; apply Hl; by right|].
  rewrite fmap_cons in HQ. simpl in HQ. unfold logger_at at 1 in HQ. by rewrite Hx, cons_middle, app_assoc in HQ.
Qed.
Lemma wp_manager_text m (Q : string → World → Prop) w : heap_wf w → w_locks w = ∅ → w_mgr w = Some m →
  Q (Emit (seq_node (logger_at w ∘ snd <$> mg_loggers m))) w → wp LoggerManager_toYamlString Q w.
Proof.
  intros Hwf Hlk Hm HQ. apply wp_ScopedLock; [simpl; by rewrite Hlk|]. apply wp_bind.
  eapply wp_deref; [exact Hm|]. apply wp_bind, (wp_push_loggers []).
  - intros p l Hl. by apply logger_ok_locks, (hw_loggers _ Hwf p).
  - intros [k p] Hin. destruct (mo_loggers _ _ (hw_mgr _ Hwf m Hm) k p Hin) as (l & Hl & _). by exists l.
  - intros p. simpl. by rewrite lookup_insert_ne, Hlk.
  - intros p. simpl. by rewrite lookup_insert_ne, Hlk.
  - apply wp_ret. split; [done|]. by destruct w.
Qed.

(** ** Reading *)
Lemma assoc_app key l k : assoc key (l ++ k) = match assoc key l with Some x => Some x | None => assoc key k end.
Proof.
  induction l as [|[[] v] l IH]; simpl; try done. by case_decide.
Qed.

Lemma appender_map_reads a : reads_appender (appender_map a) (Some (describe_appender a)).
Proof.
  intros w.
  assert (entry "level" (appender_map a) (level_text (a_level a)) ∧
    entry "formatter" (appender_map a) (pattern_of (a_formatter a))) as [Hl Hf].
  { unfold entry, appender_map. destruct (a_kind a), (level_text (a_level a)), (a_formatter a);
      by rewrite !subscript_map. }
  unfold describe_appender. rewrite <-level_of_norm.
  unfold read_an_appender. apply wp_bind.
  destruct (a_kind a) as [|name fs last] eqn:Hk.
  - eapply wp_ycall; [unfold appender_map; rewrite Hk; apply subscript_map|]. simpl.
    apply wp_bind. eapply wp_ycall; [apply scalar_scalar|]. simpl. apply wp_bind, wp_ret.
    by apply read_rest_entries.
  - eapply wp_ycall; [unfold appender_map; rewrite Hk; apply subscript_map|]. simpl.
    apply wp_bind. eapply wp_ycall; [apply scalar_scalar|]. simpl. apply wp_bind.
    eapply wp_mono; [|apply (wp_read_file _ name)]; [intros r w' ->; by apply read_rest_entries|].
    unfold entry, appender_map. rewrite Hk, subscript_map. by destruct (level_text (a_level a)).
Qed.

Lemma logger_map_reads w l w1 : logger_ok w l →
  wp (LogDefine_from_string (Emit (logger_map w l))) (λ r _, r = describe_logger w l) w1.
Proof.
  intros Hok.
  assert (∀ key, key ≠ "appenders" → Subscript (logger_map w l) key = inr (default NUndefined (assoc key
    ([(NScalar "name", NScalar (l_name l)); (NScalar "level", NScalar (LogLevel.ToString (l_level l)))]
     ++ opt_entry "formatter" (pattern_of (l_formatter l)))))) as Hsub.
  { intros key Hne. unfold logger_map, with_appenders. rewrite subscript_map, assoc_app.
    destruct (assoc key _); [done|]. destruct (appender_at w <$> l_appenders l); simpl; [done|].
    by rewrite decide_False. }
  eapply wp_mono; [|eapply (wp_read_define _ (l_name l) (LogLevel.ToString (l_level l))
    (pattern_of (l_formatter l)) _ (appender_at w <$> l_appenders l)
    ((λ i, describe_appender <$> w_appenders w !! i) <$> l_appenders l));
    [apply wf_logger_map|unfold entry; rewrite Hsub by done; by destruct (l_formatter l)..|
     apply subscript_map| |]].
  - intros r w' ->. unfold describe_logger, norm_level. by rewrite LogLevel.FromString_ToString, omap_id_fmap.
  - rewrite assoc_app. destruct (appender_at w <$> l_appenders l), (l_formatter l); simpl; auto.
  - apply Forall2_fmap, Forall_Forall2_diag, Forall_forall. intros i Hi.
    destruct (lo_appenders _ _ Hok i Hi) as (a & Ha & _). unfold appender_at. rewrite Ha.
    apply appender_map_reads.
Qed.

(** The names of the descriptions are the keys of the manager's map. *)
Lemma describe_Forall2 w m : heap_wf w → w_mgr w = Some m →
  Forall2 (λ d kp, LogDefine.name d = kp.1 ∧ ∃ l, w_loggers w !! kp.2 = Some l ∧ d = describe_logger w l)
    (describe w m) (mg_loggers m).
Proof.
  intros Hwf Hm. pose proof (mo_loggers _ _ (hw_mgr _ Hwf m Hm)) as Hl. unfold describe.
  induction (mg_loggers m) as [|[k p] l IH]; [constructor|].
  destruct (Hl k p ltac:(by left)) as (x & Hx & Hn). cbn. rewrite Hx. cbn.
  constructor; [eauto|]. apply IH. intros k' p' Hin. apply Hl. by right.
Qed.

Lemma describe_sorted w m : heap_wf w → w_mgr w = Some m → sset_sorted LogDefine.name (describe w m).
Proof.
  intros Hwf Hm. pose proof (mo_sorted _ _ (hw_mgr _ Hwf m Hm)) as Hs.
  pose proof (describe_Forall2 w m Hwf Hm) as Hd. unfold sset_sorted in *.
  induction Hd as [|d kp ds l [Hn _] Hds IH]; [constructor|]. inversion Hs as [|? ? Hs' Hk]; subst.
  constructor; [auto|]. rewrite Forall_forall in Hk. apply Forall_forall. intros d' Hin.
  apply list_elem_of_lookup in Hin as [i Hi].
  destruct (Forall2_lookup_l _ _ _ _ _ Hds Hi) as (kp' & Hi' & Hn' & _).
  rewrite Hn, Hn'. apply Hk. by apply list_elem_of_lookup_2 with i.
Qed.

(** C13. What [LoggerManager::toYamlString] prints is a logging
    configuration: the text is read by the cast of the variable "logs" as
    the set of the descriptions of all loggers, in order of their names,
    each with its level, the pattern of its formatter and its appenders in
    order (type, file, level and pattern); a level that is no enumerator,
    such as the one a removed logger has, is read as UNKNOW.  Printing
    takes and returns the locks and changes nothing. *)
Theorem toYamlString_reads w m : heap_wf w → w_locks w = ∅ → w_mgr w = Some m →
  ∃ text, LoggerManager_toYamlString w = Ret text w ∧
    ∀ w1, wp (logs_from_string text) (λ r _, r = describe w m) w1.
Proof.
  intros Hwf Hlk Hm.
  assert (wp LoggerManager_toYamlString (λ t w', w' = w ∧
    t = Emit (seq_node (logger_at w ∘ snd <$> mg_loggers m))) w) as Hw.
  { by apply (wp_manager_text m). }
  apply wp_returns in Hw as (text & w' & Hrun & -> & ->). eexists. split; [exact Hrun|]. intros w1.
  assert (Forall2 (λ d n, reads LogDefine_from_string eq d (Emit n)) (describe w m)
    (logger_at w ∘ snd <$> mg_loggers m)) as Hreads.
  { apply Forall2_fmap_r. eapply Forall2_impl; [by apply describe_Forall2|].
    intros d [k p] (_ & l & Hl & ->) w2. simpl in *. unfold logger_at. rewrite Hl.
    pose proof (logger_map_reads w l w2 (hw_loggers _ Hwf p l Hl)) as (r & w3 & Hr & ->)%wp_returns. eauto. }
  assert (forallb wf_node (logger_at w ∘ snd <$> mg_loggers m) = true) as Hwfn.
  { apply forallb_forall. intros n ([k p] & <- & _)%in_map_iff. simpl. unfold logger_at.
    destruct (w_loggers w !! p); [apply wf_logger_map|done]. }
  unfold logs_from_string, set_from_string, cast_sequence. apply wp_bind.
  eapply wp_ycall; [by apply load_emit, wf_seq_node|]. rewrite size_seq_node.
  destruct (cast_elements_ok LogDefine_from_string eq (λ vec t, sset_insert LogDefine.name t vec) [] _ _ [] w1 Hreads)
    as (ys & w2 & Hc & <-%Forall2_eq_inv).
  unfold wp. simpl in Hc. rewrite Hc, foldl_sset. apply sset_of_list_id. by apply describe_sorted.
Qed.
End text.
