(* ===== verification/LogConfigThm.v ===== *)
(** * Reconfiguring the loggers

    What the listener of the variable ["logs"] does to the logging system:
    [touch] is the effect of an operation on one logger, [conf_step] that
    of a part of the listener on a set of logger names. *)
From S2P Require Import Prelude CppStd Lock LogLevel LogFormatter FormatterGrammar Logger LoggerInv LoggerThm.
From S2P Require Import LogConfig.

Section conf.
Context `{Platform}.

(** ** What a definition asks for *)
Definition known (a : LogAppenderDefine.t) : Prop :=
  LogAppenderDefine.type a ≠ LogAppenderDefine.TypeUNKNOW.

Definition dest_of (a : LogAppenderDefine.t) : dest :=
  match LogAppenderDefine.type a with
  | LogAppenderDefine.TypeFileLogAppender => DFile (LogAppenderDefine.file a)
  | _ => DStdout
  end.

(** The appender at address [i] is what [a] describes, for a logger with
    formatter [f]. *)
Definition matches (w : World) (f : option LogFormatter) (a : LogAppenderDefine.t) (i : nat) : Prop :=
  ∃ ap, w_appenders w !! i = Some ap ∧ a_level ap = LogAppenderDefine.level a ∧
    kind_dest (a_kind ap) = dest_of a ∧
    a_formatter ap = (if str_empty (LogAppenderDefine.formatter a) then f
      else Some (LogFormatter_new (LogAppenderDefine.formatter a))).

(** The definition's appenders have known types, and its formatters can
    print every event. *)
Definition appender_def_safe (a : LogAppenderDefine.t) : Prop :=
  known a ∧ (LogAppenderDefine.formatter a ≠ "" → safe_pattern (LogAppenderDefine.formatter a)).
Definition define_safe (d : LogDefine.t) : Prop :=
  (LogDefine.formatter d ≠ "" → safe_pattern (LogDefine.formatter d)) ∧
  Forall appender_def_safe (LogDefine.appenders d).

(** ** Operations on one logger *)
Record touch (p : nat) (w w' : World) : Prop := {
  tc_wf : log_wf w';
  tc_mgr : w_mgr w' = w_mgr w;
  tc_loggers : ∀ q, q ≠ p → w_loggers w' !! q = w_loggers w !! q;
  tc_appenders : ∀ i a, w_appenders w !! i = Some a → w_appenders w' !! i = Some a;
}.

Lemma touch_refl p w : log_wf w → touch p w w.
Proof. by split. Qed.

Lemma touch_trans p w1 w2 w3 : touch p w1 w2 → touch p w2 w3 → touch p w1 w3.
Proof.
  intros [_ Hm Hl Ha] [Hwf Hm' Hl' Ha']. split; [done|congruence| |eauto].
  intros q Hq. rewrite Hl' by done. auto.
Qed.

(** A change of the logger's own fields. *)
Lemma touch_store p l l' w : log_wf w → w_loggers w !! p = Some l →
  l_name l' = l_name l → l_root l' = l_root l → logger_ok w l' →
  touch p w (set_w_loggers (<[p := l']>) w).
Proof.
  intros (Hwf & Hlk & Hm) Hp Hn Hr Hok. split; [|done| |done].
  - split_and!; [|done..]. by eapply heap_wf_store_logger.
  - intros q Hq. simpl. by rewrite lookup_insert_ne.
Qed.

Lemma touch_stdout p f w : log_wf w → touch p w (set_w_stdout f w).
Proof. intros (Hwf & Hlk & Hm). split; [|done..]. split_and!; [by apply heap_wf_stdout|done..]. Qed.

Lemma wp_make_appender a w : known a → log_wf w →
  wp (make_appender a) (λ r w', ∃ ap, r = Some (w_next w) ∧ heap_wf w' ∧ w_locks w' = ∅ ∧
    w_loggers w' = w_loggers w ∧ w_mgr w' = w_mgr w ∧ w_appenders w' !! w_next w = Some ap ∧
    a_formatter ap = None ∧ kind_dest (a_kind ap) = dest_of a ∧
    ∀ j, j ≠ w_next w → w_appenders w' !! j = w_appenders w !! j) w.
Proof.
  intros Hk (Hwf & Hlk & _). unfold make_appender, dest_of, known in *.
  destruct (LogAppenderDefine.type a); [done| |]; apply wp_bind.
  - eapply wp_mono; [|by apply wp_FileLogAppender_new].
    intros i w' (? & ? & ? & ? & -> & (ap & fs & last & Hap & Hf & Hkind) & ?). apply wp_ret.
    exists ap. rewrite Hkind. by split_and!.
  - eapply wp_mono; [|by apply wp_StdoutLogAppender_new].
    intros i w' (? & Hlk' & ? & ? & -> & Hap & ?). apply wp_ret. eexists.
    split_and!; try done. congruence.
Qed.

(** One round of the loop over the appenders of a definition. *)
Definition add_one (logger : nat) (a : LogAppenderDefine.t) (ap : nat) : M World unit :=
  LogAppender_setLevel ap (LogAppenderDefine.level a);;
  (if negb (str_empty (LogAppenderDefine.formatter a))
   then LogAppender_setFormatter ap (Some (LogFormatter_new (LogAppenderDefine.formatter a)))
   else mret tt);;
  Logger_addAppender logger ap.

Lemma wp_own_formatter a i ap w : heap_wf w → w_locks w = ∅ → appender_def_safe a →
  w_appenders w !! i = Some ap → a_formatter ap = None →
  wp (if negb (str_empty (LogAppenderDefine.formatter a))
      then LogAppender_setFormatter i (Some (LogFormatter_new (LogAppenderDefine.formatter a)))
      else mret tt)
    (λ _ w', ∃ ap', heap_wf w' ∧ w' = set_w_appenders (<[i := ap']>) w ∧ a_level ap' = a_level ap ∧
      a_kind ap' = a_kind ap ∧ a_formatter ap' = (if str_empty (LogAppenderDefine.formatter a)
        then None else Some (LogFormatter_new (LogAppenderDefine.formatter a)))) w.
Proof.
  intros Hwf Hlk [_ Hsafe] Hi Hf. destruct (str_empty (LogAppenderDefine.formatter a)) eqn:He; simpl.
  - apply wp_ret. exists ap. split_and!; try done. unfold set_w_appenders. rewrite insert_id by done.
    by destruct w.
  - eapply wp_LogAppender_setFormatter; [exact Hi|by rewrite Hlk|]. eexists.
    split_and!; [|done..]. apply heap_wf_set_formatter; [done| |done]. apply Hsafe.
    intros Heq. by rewrite Heq in He.
Qed.

Lemma heap_wf_set_level i ap level w : heap_wf w → w_appenders w !! i = Some ap →
  heap_wf (set_w_appenders (<[i := set_a_level level ap]>) w).
Proof.
  intros Hwf Hi. pose proof (hw_appenders _ Hwf _ _ Hi) as Hok.
  eapply heap_wf_store_appender; [done|by destruct ap|by destruct ap|done].
Qed.

Lemma wp_add_one p l a i ap w : heap_wf w → w_locks w = ∅ → appender_def_safe a →
  w_loggers w !! p = Some l → w_appenders w !! i = Some ap → a_formatter ap = None →
  kind_dest (a_kind ap) = dest_of a →
  wp (add_one p a i) (λ _ w', heap_wf w' ∧ w_locks w' = ∅ ∧ w_mgr w' = w_mgr w ∧
    w_loggers w' = <[p := set_l_appenders (l_appenders l ++ [i]) l]> (w_loggers w) ∧
    (∀ j, j ≠ i → w_appenders w' !! j = w_appenders w !! j) ∧ matches w' (l_formatter l) a i) w.
Proof.
  intros Hwf Hlk Hsafe Hp Hi Hf Hd. unfold add_one. apply wp_bind. unfold LogAppender_setLevel.
  apply wp_bind. eapply wp_deref; [exact Hi|]. apply wp_modify. apply wp_bind.
  set (ap1 := set_a_level _ ap). set (w1 := set_w_appenders _ w).
  assert (w_appenders w1 !! i = Some ap1) as Hi1 by (simpl; by rewrite lookup_insert_eq).
  eapply wp_mono; [|apply (wp_own_formatter a i ap1); [by apply heap_wf_set_level|done..]].
  intros [] w2 (ap2 & Hwf2 & -> & Hlev & Hkind & Hf2).
  assert (w_appenders (set_w_appenders <[i:=ap2]> w1) !! i = Some ap2) as Hi2
    by (simpl; by rewrite lookup_insert_eq).
  eapply wp_Logger_addAppender; [exact Hp|exact Hi2|simpl; by rewrite Hlk..|].
  split_and!; try done.
  - by apply heap_wf_add.
  - intros j Hj. simpl. by rewrite !lookup_insert_ne by done.
  - exists (adopted ap2 l). simpl. rewrite lookup_insert_eq. split_and!; [done|..].
    + unfold adopted. by destruct (a_formatter ap2).
    + unfold adopted. destruct (a_formatter ap2); simpl; by rewrite Hkind.
    + unfold adopted. destruct (a_formatter ap2) eqn:E; rewrite Hf2 in *;
        by destruct (str_empty (LogAppenderDefine.formatter a)).
Qed.

Lemma matches_mono w w' f a i : (∀ i a, w_appenders w !! i = Some a → w_appenders w' !! i = Some a) →
  matches w f a i → matches w' f a i.
Proof. intros Hsub (ap & Hap & ?). exists ap. split; [auto|done]. Qed.

Lemma wp_seq3 (m1 m2 m3 k : M World unit) Q w : wp ((m1;; m2;; m3);; k) Q w → wp (m1;; m2;; m3;; k) Q w.
Proof.
  unfold wp, mbind, M_bind. destruct (m1 w) as [? w1| |]; [|done..]. by destruct (m2 w1).
Qed.

(** The loop: the logger gets one appender per definition, in order. *)
Lemma wp_add_appenders p l ads w : log_wf w → w_loggers w !! p = Some l →
  Forall appender_def_safe ads →
  wp (add_appenders p ads) (λ _ w', touch p w w' ∧ ∃ idx,
    w_loggers w' !! p = Some (set_l_appenders (l_appenders l ++ idx) l) ∧
    Forall2 (matches w' (l_formatter l)) ads idx) w.
Proof.
  intros Hwf Hp Hads. revert l w Hwf Hp. induction Hads as [|a ads Ha Hads IH]; intros l w Hwf Hp; simpl.
  { apply wp_ret. split; [by apply touch_refl|]. exists []. rewrite app_nil_r. by destruct l. }
  apply wp_bind. eapply wp_mono; [|apply wp_make_appender; [apply Ha|done]].
  intros r w1 (ap & -> & Hwf1 & Hlk1 & Hl1 & Hm1 & Hap & Hf & Hd & Hoth).
  set (i := w_next w) in *.
  apply wp_seq3, wp_bind. fold (add_one p a i).
  eapply wp_mono; [|apply (wp_add_one p l a i ap); try done; by rewrite Hl1].
  intros [] w2 (Hwf2 & Hlk2 & Hm2 & Hl2 & Hoth2 & Hmat).
  assert (touch p w w2) as Ht.
  { split; [split_and!; [done..|]|congruence| |].
    - rewrite Hm2, Hm1. apply Hwf.
    - intros q Hq. by rewrite Hl2, lookup_insert_ne, Hl1.
    - intros j b Hj. assert (j ≠ i) as Hne.
      { intros ->. destruct Hwf as [Hwf _]. destruct (hw_fresh _ Hwf i) as [_ Hn]; [done|congruence]. }
      by rewrite Hoth2, Hoth. }
  set (l2 := set_l_appenders (l_appenders l ++ [i]) l) in *.
  eapply wp_mono; [|apply (IH l2); [apply Ht|by rewrite Hl2, lookup_insert_eq]].
  intros [] w3 (Ht3 & idx & Hp3 & Hall). split; [by eapply touch_trans|]. exists (i :: idx).
  split; [by rewrite Hp3; simpl; rewrite <-app_assoc|]. constructor; [|done].
  eapply matches_mono; [|exact Hmat]. apply Ht3.
Qed.

(** ** Parts of the listener *)

(** Only the loggers with the given names change. *)
Record conf_step (names : list string) (w w' : World) : Prop := {
  cs_wf : log_wf w';
  cs_loggers : ∀ p l, w_loggers w !! p = Some l → l_name l ∉ names → w_loggers w' !! p = Some l;
  cs_appenders : ∀ i a, w_appenders w !! i = Some a → ∃ a', w_appenders w' !! i = Some a' ∧ app_sim a a';
  cs_mgr : ∀ m, w_mgr w = Some m → ∃ m', w_mgr w' = Some m' ∧
    ∀ k, k ∉ names → smap_find k (mg_loggers m') = smap_find k (mg_loggers m);
}.

Lemma conf_step_trans n1 n2 w1 w2 w3 :
  conf_step n1 w1 w2 → conf_step n2 w2 w3 → conf_step (n1 ++ n2) w1 w3.
Proof.
  intros [_ Hl1 Ha1 Hm1] [Hwf Hl2 Ha2 Hm2]. split; [done|..].
  - intros p l Hp [Hn1 Hn2]%not_elem_of_app. auto.
  - intros i a Hi. destruct (Ha1 i a Hi) as (b & Hb & Hs1). destruct (Ha2 i b Hb) as (c & Hc & Hs2).
    exists c. split; [done|by etrans].
  - intros m Hm. destruct (Hm1 m Hm) as (m2 & Hm2' & Hf1). destruct (Hm2 m2 Hm2') as (m3 & Hm3 & Hf2).
    exists m3. split; [done|]. intros k [Hn1 Hn2]%not_elem_of_app. by rewrite Hf2, Hf1.
Qed.

Lemma conf_step_refl w : log_wf w → conf_step [] w w.
Proof. intros Hwf. split; [done|done| |eauto]. intros i a Hi. by exists a. Qed.

Lemma conf_step_log w w' : log_wf w → log_step w w' → conf_step [] w w'.
Proof.
  intros (Hwf & Hlk & Hm) Hs. split.
  - split_and!; [by eapply log_step_wf|by rewrite (ls_locks _ _ Hs)|by rewrite (ls_mgr _ _ Hs)].
  - intros p l Hp _. by rewrite (ls_loggers _ _ Hs).
  - intros i a Hi. by eapply log_step_appender.
  - intros m Hm'. exists m. by rewrite (ls_mgr _ _ Hs).
Qed.

Lemma conf_step_touch p l w w' : w_loggers w !! p = Some l → touch p w w' → conf_step [l_name l] w w'.
Proof.
  intros Hp [Hwf Hm Hl Ha]. split; [done|..].
  - intros q k Hq Hn. rewrite Hl; [done|]. intros ->. apply Hn. simplify_eq. by left.
  - intros i a Hi. exists a. split; [auto|done].
  - intros m Hm'. exists m. by rewrite Hm.
Qed.

(** The logger registered under a name. *)
Definition logger_named (w : World) (name : string) (p : nat) (l : Logger) : Prop :=
  (∃ m, w_mgr w = Some m ∧ smap_find name (mg_loggers m) = Some p) ∧
  w_loggers w !! p = Some l ∧ l_name l = name.

Lemma logger_named_step names w w' name p l : conf_step names w w' → name ∉ names →
  logger_named w name p l → logger_named w' name p l.
Proof.
  intros Hs Hn ((m & Hm & Hf) & Hp & Hl). destruct (cs_mgr _ _ _ Hs m Hm) as (m' & Hm' & Hf').
  split; [exists m'; by rewrite Hf'|]. split; [|done]. apply (cs_loggers _ _ _ Hs); [done|congruence].
Qed.

(** The formatter a logger has before it is configured. *)
Definition old_formatter (w : World) (name : string) : option LogFormatter :=
  match w_mgr w with
  | Some m => match smap_find name (mg_loggers m) with
              | Some p => match w_loggers w !! p with Some l => l_formatter l | None => None end
              | None => Some (LogFormatter_new default_pattern)
              end
  | None => None
  end.

Lemma old_formatter_step names w w' name : log_wf w → conf_step names w w' → name ∉ names →
  old_formatter w' name = old_formatter w name.
Proof.
  intros (Hwf & _ & m & Hm) Hs Hn. unfold old_formatter. rewrite Hm.
  destruct (cs_mgr _ _ _ Hs m Hm) as (m' & -> & Hf'). rewrite Hf' by done.
  destruct (smap_find name (mg_loggers m)) as [p|] eqn:Hf; [|done].
  apply smap_find_Some in Hf. destruct (mo_loggers _ _ (hw_mgr _ Hwf m Hm) _ _ Hf) as (l & Hp & Hl).
  by rewrite Hp, (cs_loggers _ _ _ Hs p l) by (rewrite ?Hl; done).
Qed.

(** The formatter it should have afterwards: the one of the definition,
    unless that is empty or invalid. *)
Definition conf_formatter (w : World) (d : LogDefine.t) : option LogFormatter :=
  let f := LogFormatter_new (LogDefine.formatter d) in
  if str_empty (LogDefine.formatter d) || isError f then old_formatter w (LogDefine.name d) else Some f.

(** In [w'], the logger of definition [d] is what [d] asks for, [w] being
    the state before. *)
Definition configured (w w' : World) (d : LogDefine.t) : Prop :=
  ∃ p l, logger_named w' (LogDefine.name d) p l ∧ l_level l = LogDefine.level d ∧
    l_formatter l = conf_formatter w d ∧
    Forall2 (matches w' (l_formatter l)) (LogDefine.appenders d) (l_appenders l).

Lemma matches_step names w w' f a i : conf_step names w w' → matches w f a i → matches w' f a i.
Proof.
  intros Hs (ap & Hi & Hlev & Hd & Hf). destruct (cs_appenders _ _ _ Hs i ap Hi) as (ap' & Hi' & Hsim).
  destruct Hsim as (E1 & E2 & _ & E4). exists ap'. split_and!; congruence.
Qed.

Lemma configured_step names w w1 w2 d : conf_step names w1 w2 → LogDefine.name d ∉ names →
  configured w w1 d → configured w w2 d.
Proof.
  intros Hs Hn (p & l & Hln & Hlev & Hf & Happ). exists p, l. split_and!; [|done..|].
  - by eapply logger_named_step.
  - eapply Forall2_impl; [exact Happ|]. intros a i. by eapply matches_step.
Qed.

Lemma configured_before names w0 w w' d : log_wf w0 → conf_step names w0 w → LogDefine.name d ∉ names →
  configured w w' d → configured w0 w' d.
Proof.
  intros Hwf Hs Hn (p & l & ? & ? & Hf & ?). exists p, l. split_and!; try done.
  rewrite Hf. unfold conf_formatter. by rewrite (old_formatter_step names w0 w).
Qed.

(** Finding or creating the logger of a name. *)
Lemma wp_LOG_NAME name w : strftime_default_fits → log_wf w →
  wp (SYLAR_LOG_NAME name) (λ p w', conf_step [name] w w' ∧
    ∃ l, logger_named w' name p l ∧ l_formatter l = old_formatter w name) w.
Proof.
  intros Hfit Hwf. pose proof Hwf as (Hh & _ & m & Hm). unfold SYLAR_LOG_NAME, LoggerMgr_GetInstance.
  apply wp_bind, wp_bind, wp_get. rewrite Hm. apply wp_ret.
  eapply wp_mono; [|by apply wp_getLogger].
  intros p w' (Hwf' & m' & Hm' & Hfind & Hpost). destruct (Hpost m Hm) as (_ & Hoth & Hcase).
  destruct (smap_find name (mg_loggers m)) as [q|] eqn:Hf.
  - destruct Hcase as [-> ->]. pose proof (smap_find_Some _ _ _ Hf) as Hin.
    destruct (mo_loggers _ _ (hw_mgr _ Hh m Hm) _ _ Hin) as (l & Hp & Hl).
    split.
    + split; [done|done|intros i a Hi; by exists a|eauto].
    + exists l. split; [by split; [exists m|]|]. unfold old_formatter. by rewrite Hm, Hf, Hp.
  - destruct Hcase as (Hnew & Hl' & Ha'). split.
    + split; [done| |intros i a Hi; exists a; by rewrite Ha'|].
      * intros q l Hq _. rewrite Hl', lookup_insert_ne; [done|]. intros ->. congruence.
      * intros m0 Hm0. exists m'. simplify_eq. split; [done|]. intros k Hk. apply Hoth.
        intros ->. apply Hk. by left.
    + exists (fresh_logger name (mg_root m)). split.
      * split; [by exists m'|]. by rewrite Hl', lookup_insert_eq.
      * unfold old_formatter. by rewrite Hm, Hf.
Qed.

Lemma conf_step_sub n1 n2 w w' : (∀ x, x ∈ n1 → x ∈ n2) → conf_step n1 w w' → conf_step n2 w w'.
Proof.
  intros Hsub [Hwf Hl Ha Hm]. split; [done|eauto|done|].
  intros m Hm'. destruct (Hm m Hm') as (m' & ? & ?). exists m'. split; eauto.
Qed.

Lemma wp_set_level p l level w : log_wf w → w_loggers w !! p = Some l →
  wp (Logger_setLevel p level) (λ _ w', touch p w w' ∧ w_loggers w' !! p = Some (set_l_level level l)) w.
Proof.
  intros Hwf Hp. apply wp_bind. eapply wp_deref; [exact Hp|]. apply wp_modify. split.
  - apply (touch_store p l); [done..|]. by destruct (hw_loggers _ (proj1 Hwf) p l Hp).
  - apply lookup_insert_eq.
Qed.

Lemma wp_clear_appenders p l w : log_wf w → w_loggers w !! p = Some l →
  wp (Logger_clearAppenders p) (λ _ w', touch p w w' ∧ w_loggers w' !! p = Some (set_l_appenders [] l)) w.
Proof.
  intros Hwf Hp. apply wp_bind. eapply wp_deref; [exact Hp|]. apply wp_modify. split.
  - apply (touch_store p l); [done..|]. destruct (hw_loggers _ (proj1 Hwf) p l Hp).
    split; [done| |done]. intros i Hi. by apply elem_of_nil in Hi.
  - apply lookup_insert_eq.
Qed.

(** The formatter part of [configure]. *)
Definition chosen_formatter (pattern : string) (old : option LogFormatter) : option LogFormatter :=
  if str_empty pattern || isError (LogFormatter_new pattern) then old else Some (LogFormatter_new pattern).

Lemma wp_set_formatter p l pattern w : log_wf w → w_loggers w !! p = Some l →
  (pattern ≠ "" → safe_pattern pattern) →
  wp (if negb (str_empty pattern) then Logger_setFormatter_string p pattern else mret tt)
    (λ _ w', touch p w w' ∧
      w_loggers w' !! p = Some (set_l_formatter (chosen_formatter pattern (l_formatter l)) l)) w.
Proof.
  intros Hwf Hp Hsafe. unfold chosen_formatter.
  assert (Hid : set_l_formatter (l_formatter l) l = l) by (by destruct l).
  destruct (str_empty pattern) eqn:He; simpl.
  { apply wp_ret. rewrite Hid. split; [by apply touch_refl|done]. }
  pose proof Hwf as (Hh & Hlk & _). unfold Logger_setFormatter_string.
  destruct (isError (LogFormatter_new pattern)) eqn:Herr.
  { apply wp_bind. eapply wp_deref; [exact Hp|]. apply wp_modify. rewrite Hid.
    split; [by apply touch_stdout|done]. }
  pose proof (hw_loggers _ Hh p l Hp) as Hok.
  eapply wp_Logger_setFormatter; [done..|by rewrite Hlk|intros i; by rewrite Hlk|]. rewrite Herr. split.
  - apply (touch_store p l); [done..|]. destruct Hok. split; [|done..]. apply Hsafe.
    intros ->. done.
  - apply lookup_insert_eq.
Qed.

Lemma wp_configure d w : strftime_default_fits → log_wf w → define_safe d →
  wp (configure d) (λ _ w', conf_step [LogDefine.name d] w w' ∧ configured w w' d) w.
Proof.
  intros Hfit Hwf [Hsf Hsa]. unfold configure. apply wp_bind.
  eapply wp_mono; [|by apply wp_LOG_NAME]. intros p w1 (Hs1 & l & ((m & Hm & Hfind) & Hp & Hname) & Hfmt).
  apply wp_bind. eapply wp_mono; [|apply (wp_set_level p l); [apply Hs1|done]].
  intros [] w2 [Ht2 Hp2]. apply wp_bind.
  eapply wp_mono; [|apply (wp_set_formatter p _ _ _ (tc_wf _ _ _ Ht2) Hp2 Hsf)].
  intros [] w3 [Ht3 Hp3]. apply wp_bind.
  eapply wp_mono; [|apply (wp_clear_appenders p _ _ (tc_wf _ _ _ Ht3) Hp3)]. intros [] w4 [Ht4 Hp4].
  eapply wp_mono; [|apply (wp_add_appenders p _ _ _ (tc_wf _ _ _ Ht4) Hp4 Hsa)].
  intros [] w5 (Ht5 & idx & Hp5 & Hmat). simpl in Hp5, Hmat.
  assert (touch p w1 w5) as Ht by eauto using touch_trans. split.
  - apply (conf_step_sub ([LogDefine.name d] ++ [l_name l])); [rewrite Hname; intros x; simpl; rewrite !elem_of_cons; tauto|].
    eapply conf_step_trans; [exact Hs1|]. by apply (conf_step_touch p).
  - exists p. eexists. split; [split; [|split; [exact Hp5|done]]|].
    { exists m. by rewrite (tc_mgr _ _ _ Ht). }
    simpl. split_and!; [done| |done]. unfold conf_formatter. by rewrite Hfmt.
Qed.

(** Silencing a logger whose definition is gone. *)
Definition removed (w : World) (name : string) : Prop :=
  ∃ p l, logger_named w name p l ∧ l_level l = LogLevel.REMOVED ∧ l_appenders l = [].

Lemma removed_step names w w' name : conf_step names w w' → name ∉ names → removed w name → removed w' name.
Proof. intros Hs Hn (p & l & Hln & ?). exists p, l. split; [by eapply logger_named_step|done]. Qed.

Lemma wp_remove name w : strftime_default_fits → log_wf w →
  wp (logger ← SYLAR_LOG_NAME name; Logger_setLevel logger LogLevel.REMOVED;; Logger_clearAppenders logger)
    (λ _ w', conf_step [name] w w' ∧ removed w' name) w.
Proof.
  intros Hfit Hwf. apply wp_bind. eapply wp_mono; [|by apply wp_LOG_NAME].
  intros p w1 (Hs1 & l & ((m & Hm & Hfind) & Hp & Hname) & _).
  apply wp_bind. eapply wp_mono; [|apply (wp_set_level p l); [apply Hs1|done]].
  intros [] w2 [Ht2 Hp2].
  eapply wp_mono; [|apply (wp_clear_appenders p _ _ (tc_wf _ _ _ Ht2) Hp2)]. intros [] w3 [Ht3 Hp3].
  assert (touch p w1 w3) as Ht by eauto using touch_trans. split.
  - apply (conf_step_sub ([name] ++ [l_name l])); [rewrite Hname; intros x; simpl; rewrite !elem_of_cons; tauto|].
    eapply conf_step_trans; [exact Hs1|]. by apply (conf_step_touch p).
  - exists p. eexists. split; [split; [|split; [exact Hp3|done]]|done].
    exists m. by rewrite (tc_mgr _ _ _ Ht).
Qed.

(** ** The two loops *)

(** The definition is new or differs from the old one of that name. *)
Definition differs (old : list LogDefine.t) (d : LogDefine.t) : bool :=
  match sset_find LogDefine.name (LogDefine.name d) old with
  | None => true
  | Some it => negb (LogDefine.eqb d it)
  end.
(** No definition of that name is left. *)
Definition gone (new : list LogDefine.t) (d : LogDefine.t) : bool :=
  match sset_find LogDefine.name (LogDefine.name d) new with None => true | Some _ => false end.

Definition names_where (f : LogDefine.t → bool) (l : list LogDefine.t) : list string :=
  LogDefine.name <$> filter (λ d, f d = true) l.

Lemma names_where_in f l x : x ∈ names_where f l → x ∈ LogDefine.name <$> l.
Proof.
  unfold names_where. intros (d & -> & Hd)%list_elem_of_fmap. apply list_elem_of_fmap.
  exists d. split; [done|]. by apply list_elem_of_filter in Hd as [_ ?].
Qed.

Lemma names_where_cons f d l : names_where f (d :: l) =
  (if f d then [LogDefine.name d] else []) ++ names_where f l.
Proof.
  unfold names_where. rewrite filter_cons. destruct (f d).
  - by rewrite decide_True.
  - by rewrite decide_False.
Qed.

(** A loop that treats the selected definitions one after the other: each
    round establishes [P] for its definition, later rounds keep it. *)
Lemma wp_conf_loop (f : LogDefine.t → bool) (body : LogDefine.t → M World unit)
    (P : World → World → LogDefine.t → Prop) l w :
  (∀ d w, d ∈ l → log_wf w → wp (body d)
    (λ _ w', if f d then conf_step [LogDefine.name d] w w' ∧ P w w' d else w' = w) w) →
  (∀ names w w1 w2 d, conf_step names w1 w2 → LogDefine.name d ∉ names → P w w1 d → P w w2 d) →
  (∀ names w0 w w' d, log_wf w0 → conf_step names w0 w → LogDefine.name d ∉ names → P w w' d → P w0 w' d) →
  NoDup (LogDefine.name <$> l) → log_wf w →
  wp (foreach l body) (λ _ w', conf_step (names_where f l) w w' ∧
    ∀ d, d ∈ l → f d = true → P w w' d) w.
Proof.
  intros Hbody Hafter Hbefore. revert w. induction l as [|d l IH]; intros w Hnd Hwf; simpl.
  { apply wp_ret. split; [by apply conf_step_refl|]. by intros d ?%elem_of_nil. }
  rewrite fmap_cons in Hnd. apply NoDup_cons in Hnd as [Hd Hnd]. apply wp_bind.
  eapply wp_mono; [|apply (Hbody d); [by left|done]]. intros [] w1 H1. cbv beta in H1.
  set (n := if f d then [LogDefine.name d] else []).
  assert (conf_step n w w1) as Hs1.
  { unfold n. destruct (f d); [by destruct H1|]. rewrite H1. by apply conf_step_refl. }
  eapply wp_mono; [|apply IH; [|done|apply Hs1]].
  2: { intros d' w' Hin. apply Hbody. by right. }
  intros [] w2 [Hs2 HP2]. rewrite names_where_cons. fold n. split; [by eapply conf_step_trans|].
  intros d' [->|Hin]%elem_of_cons Hf.
  - rewrite Hf in H1. destruct H1 as [_ HP]. eapply Hafter; [exact Hs2| |exact HP].
    intros Hx. by apply Hd, (names_where_in f).
  - eapply Hbefore; [done|exact Hs1| |by apply HP2]. unfold n. destruct (f d); [|by intros ?%elem_of_nil].
    intros Heq%list_elem_of_singleton. apply Hd. rewrite <-Heq. apply list_elem_of_fmap. eauto.
Qed.

Lemma sorted_names l : sset_sorted LogDefine.name l → NoDup (LogDefine.name <$> l).
Proof.
  unfold sset_sorted. induction 1 as [|d l _ IH Hd]; [constructor|]. rewrite fmap_cons.
  constructor; [|done]. intros (d' & Heq & Hin)%list_elem_of_fmap. rewrite Forall_forall in Hd.
  specialize (Hd d' Hin). rewrite Heq in Hd. pose proof (klt_irrefl (LogDefine.name d')). congruence.
Qed.

Lemma wp_apply_all old new w : strftime_default_fits → log_wf w → sset_sorted LogDefine.name new →
  (∀ d, d ∈ new → differs old d = true → define_safe d) →
  wp (foreach new (apply_new old)) (λ _ w', conf_step (names_where (differs old) new) w w' ∧
    ∀ d, d ∈ new → differs old d = true → configured w w' d) w.
Proof.
  intros Hfit Hwf Hs Hsafe. apply wp_conf_loop; [|apply configured_step|apply configured_before|
    by apply sorted_names|done].
  intros d w1 Hin Hwf1. specialize (Hsafe d Hin). unfold apply_new, differs in *.
  destruct (sset_find _ _ _) as [it|]; [destruct (negb _)|].
  - by apply wp_configure; auto.
  - done.
  - by apply wp_configure; auto.
Qed.

Lemma wp_remove_all old new w : strftime_default_fits → log_wf w → sset_sorted LogDefine.name old →
  wp (foreach old (remove_old new)) (λ _ w', conf_step (names_where (gone new) old) w w' ∧
    ∀ d, d ∈ old → gone new d = true → removed w' (LogDefine.name d)) w.
Proof.
  intros Hfit Hwf Hs.
  apply (wp_conf_loop (gone new) (remove_old new) (λ _ w' d, removed w' (LogDefine.name d)));
    [|by eauto using removed_step|done|by apply sorted_names|done].
  intros d w1 Hin Hwf1. unfold remove_old, gone. destruct (sset_find _ _ _); [done|]. by apply wp_remove.
Qed.

(** The logging system [w'] follows from [w] by a change of the definitions
    from [old] to [new]. *)
Definition reconfigured (old new : list LogDefine.t) (w w' : World) : Prop :=
  log_wf w' ∧
  (∀ d, d ∈ new → differs old d = true → configured w w' d) ∧
  (∀ d, d ∈ old → gone new d = true → removed w' (LogDefine.name d)) ∧
  (∀ p l, w_loggers w !! p = Some l → l_name l ∉ names_where (differs old) new →
     l_name l ∉ names_where (gone new) old → w_loggers w' !! p = Some l).

Lemma wp_on_logs_changed old new w :
  strftime_default_fits → log_wf w →
  sset_sorted LogDefine.name old → sset_sorted LogDefine.name new →
  (∀ d, d ∈ new → differs old d = true → define_safe d) →
  wp (on_logs_changed old new) (λ _, reconfigured old new w) w.
Proof.
  intros Hfit Hwf Hso Hsn Hsafe. pose proof Hwf as (Hh & Hlk & m & Hm).
  destruct (hw_mgr _ Hh m Hm) as [_ (r & Hr & _) _].
  unfold on_logs_changed, SYLAR_LOG_ROOT, LoggerMgr_GetInstance.
  apply wp_bind, wp_bind, wp_bind, wp_get. rewrite Hm. apply wp_ret, wp_ret, wp_bind.
  eapply wp_mono; [|apply SYLAR_LOG_LEVEL_delivers; [done|done|by eexists|done]].
  intros [] w1 [Hstep _]. pose proof (conf_step_log w w1 Hwf Hstep) as Hs1.
  apply wp_bind. eapply wp_mono; [|apply (wp_apply_all old new); [done|apply Hs1|done..]].
  intros [] w2 [Hs2 Hconf].
  eapply wp_mono; [|apply (wp_remove_all old new); [done|apply Hs2|done]]. intros [] w3 [Hs3 Hrem].
  split_and!; [apply Hs3| |done|].
  - intros d Hin Hd. eapply (configured_before [] w w1); [done|done|by intros ?%elem_of_nil|].
    eapply configured_step; [exact Hs3| |by apply Hconf].
    intros (d' & Heq & [Hg Hin']%list_elem_of_filter)%list_elem_of_fmap. unfold gone in Hg.
    rewrite <-Heq, (sset_find_elem LogDefine.name d) in Hg by done. done.
  - intros p l Hp Hn1 Hn2. apply (cs_loggers _ _ _ Hs3); [|done]. apply (cs_loggers _ _ _ Hs2); [|done].
    apply (cs_loggers _ _ _ Hs1); [done|by intros ?%elem_of_nil].
Qed.

(** The listener of ["logs"] brings the logging system in line with
    the new definitions.  It returns, keeps the invariant of the logging
    system, and afterwards every definition that is new or has changed is
    in force (its logger has that level, the definition's formatter if it
    is a valid one, and exactly the listed appenders in order, each with
    its level, destination and formatter), every definition that has
    disappeared leaves a logger that is silenced, and loggers of any other
    name are unchanged. *)
Theorem logs_listener_spec old new w :
  strftime_default_fits → log_wf w →
  sset_sorted LogDefine.name old → sset_sorted LogDefine.name new →
  (∀ d, d ∈ new → differs old d = true → define_safe d) →
  wp (on_logs_changed old new) (λ _ w', log_wf w' ∧
    (∀ d, d ∈ new → differs old d = true → configured w w' d) ∧
    (∀ d, d ∈ old → gone new d = true → removed w' (LogDefine.name d)) ∧
    (∀ p l, w_loggers w !! p = Some l → l_name l ∉ names_where (differs old) new →
       l_name l ∉ names_where (gone new) old → w_loggers w' !! p = Some l)) w.
Proof. intros. by apply wp_on_logs_changed. Qed.
End conf.
