(* ===== verification/LogIniter.v ===== *)
(** * From a text to the loggers (sylar/log.cc)

    The static objects of log.cc tie the configuration to the logging
    system: [g_log_defines] registers the variable ["logs"] and the
    constructor of [LogIniter] installs the listener on it.  This file has
    these two and [print_log_config_var], and follows a text through
    [ConfigVar::fromString] to the loggers; [LogDocument] does so for
    [Config::LoadFromYaml].

    The program's configuration types are any that include
    [std::set<LogDefine>]; the interface [HasLogs] says so. *)
From S2P Require Import Prelude CppStd Lock LogLevel LogFormatter FormatterGrammar Logger LoggerInv LoggerThm.
From S2P Require Import Yaml LexicalCast Config ConfigInv ConfigThm ConfigSpec ConfigLog.
From S2P Require Import LogConfig LogConfigThm.

#[local] Arguments load_var : simpl never.

(** yaml-cpp throws [YAML::Exception], a [std::runtime_error]. *)
Class YamlStd `{HY : Yaml} : Prop := {
  load_std str e : Load str = inl e → is_std e;
  index_std n i e : Index n i = inl e → is_std e;
  subscript_std n key e : Subscript n key = inl e → is_std e;
  scalar_std n e : Scalar n = inl e → is_std e;
}.

(** [std::set<LogDefine>] is one of the types, with its equality and its
    casts; [to_logs] and [of_logs] convert its representation. *)
Class HasLogs `{Yaml} `{CfgTypes World} := {
  TLogs : ty;
  to_logs : val TLogs → list LogDefine.t;
  of_logs : list LogDefine.t → val TLogs;
  to_of_logs l : to_logs (of_logs l) = l;
  val_eqb_logs v v' : val_eqb TLogs v v' = logs_eqb (to_logs v) (to_logs v');
  from_string_logs str w : from_string TLogs str w = (l ← logs_from_string str; mret (of_logs l)) w;
  to_string_logs v w : to_string TLogs v w = logs_to_string (to_logs v) w;
}.

Section initer.
Context `{HPl : Platform} `{HYl : YamlLaws} `{HYs : !YamlStd} `{HT : !CfgTypes World} `{Hlogs : !HasLogs} {Cb : ty → Type}.
Context (run_cb : ∀ t, Cb t → val t → val t → M (Cfg Cb) unit).
(** The lambda that [LogIniter] passes to [addListener]. *)
Context (logs_cb : Cb TLogs).
Context (run_logs_cb : ∀ old new s,
  run_cb TLogs logs_cb old new s = ext (on_logs_changed (to_logs old) (to_logs new)) s).
Implicit Types (s : Cfg Cb).

(** ** The static objects *)
Definition g_log_defines : M (Cfg Cb) nat := Lookup_default TLogs "logs" (of_logs []) "logs config".

Definition launch_message : string :=
  "New Launch            " +:+ NL +:+
  "===============================================================" +:+ NL.

(** [SYLAR_LOG_LEVEL(SYLAR_LOG_ROOT(), level) << content] *)
Definition log_root (level line : Z) (content : string) : M World unit :=
  root ← SYLAR_LOG_ROOT;
  SYLAR_LOG_LEVEL root level "log.cc" line content.

Definition LogIniter_new (g : nat) : M (Cfg Cb) unit :=
  ext (log_root LogLevel.INFO 1028 launch_message);;
  ext (log_root LogLevel.DEBUG 1030 "LogIniter() construction");;
  key ← addListener TLogs g logs_cb;
  ext (cout ("LogIniter g_log_defines listener cb id:" +:+ pretty key +:+ NL)).

Definition static_init : M (Cfg Cb) nat :=
  g ← g_log_defines;
  LogIniter_new g;;
  mret g.

Definition print_log_config_var (g : nat) : M (Cfg Cb) unit :=
  text ← toString g;
  ext (cout (text +:+ NL)).

(** ** The casts only print *)

(** The result (a value that satisfies [R], or a standard exception) does
    not depend on the state, and the state changes only by what is
    printed. *)
Definition out_only {A} (R : A → Prop) (m : M World A) : Prop :=
  ∃ r : exn + A, match r with inl e => is_std e | inr a => R a end ∧
    ∀ w, ∃ f, m w = match r with inl e => Throw e (set_w_stdout f w) | inr a => Ret a (set_w_stdout f w) end.

Definition any {A} : A → Prop := λ _, True.

Lemma out_ret {A} (R : A → Prop) a : R a → out_only R (mret a).
Proof. intros Ha. exists (inr a). split; [done|]. intros w. exists id. by destruct w. Qed.

Lemma out_bind {A B} R (R' : B → Prop) (m : M World A) f :
  out_only R m → (∀ a, R a → out_only R' (f a)) → out_only R' (m ≫= f).
Proof.
  intros ([e|a] & Ha & Hm) Hf.
  - exists (inl e). split; [done|]. intros w. destruct (Hm w) as [g Hg]. exists g.
    unfold mbind, M_bind. by rewrite Hg.
  - destruct (Hf a Ha) as (r & Hr & Hf'). exists r. split; [done|]. intros w.
    destruct (Hm w) as [g Hg]. destruct (Hf' (set_w_stdout g w)) as [h Hh]. exists (h ∘ g).
    unfold mbind, M_bind. rewrite Hg, Hh. by destruct r, w.
Qed.

Lemma out_ycall {A} (r : exn + A) : (∀ e, r = inl e → is_std e) → out_only any (ycall r).
Proof.
  intros Hr. exists r. split; [destruct r; [by apply Hr|done]|]. intros w. exists id. by destruct r, w.
Qed.

Lemma out_complain msg node : out_only any (complain msg node).
Proof. exists (inr tt). split; [done|]. intros w. by eexists. Qed.

(** Break a reader down into its steps. *)
Ltac out_step :=
  match goal with
  | |- out_only _ (mret _) => by apply out_ret
  | |- out_only _ (mbind _ _) => apply (out_bind any); [|intros ? _]
  | |- out_only _ (ycall _) =>
      apply out_ycall; eauto using load_std, index_std, subscript_std, scalar_std
  | |- out_only _ (complain _ _) => apply out_complain
  | |- out_only _ (if ?b then _ else _) => destruct b
  | |- out_only _ (match ?x with _ => _ end) => destruct x
  end.

Lemma out_read_an_appender node : out_only any (read_an_appender node).
Proof.
  unfold read_an_appender, read_file, read_appender_level, read_appender_formatter. cbv zeta.
  repeat out_step.
Qed.

Lemma out_read_appenders_loop n ld node x : out_only any (read_appenders_loop ld node x n).
Proof.
  revert ld x. induction n as [|n IH]; intros ld x; simpl; [by apply out_ret|].
  out_step; [out_step|]. apply (out_bind any); [apply out_read_an_appender|auto].
Qed.

Lemma out_LogDefine_from_string v : out_only any (LogDefine_from_string v).
Proof.
  unfold LogDefine_from_string, read_name, read_level, read_formatter, read_appenders.
  repeat (out_step || apply out_read_appenders_loop).
Qed.

Lemma out_logs_from_string v : out_only (sset_sorted LogDefine.name) (logs_from_string v).
Proof.
  unfold logs_from_string, set_from_string, cast_sequence. apply (out_bind any); [out_step|].
  intros node _. set (n := Size node). clearbody n. generalize 0 as i.
  assert (sset_sorted LogDefine.name []) as Hs by constructor. revert Hs.
  generalize (@nil LogDefine.t) as acc. induction n as [|n IH]; intros acc Hs i; simpl; [by apply out_ret|].
  apply (out_bind any); [out_step|]. intros x _.
  apply (out_bind any); [apply out_LogDefine_from_string|]. intros d _. apply IH.
  by apply sset_insert_sorted.
Qed.

Lemma out_logs_to_string l : out_only any (logs_to_string l).
Proof.
  unfold logs_to_string, set_to_string, sequence_cast. apply (out_bind any); [|intros; by apply out_ret].
  generalize NNull. induction l as [|d l IH]; intros node; simpl; [by apply out_ret|].
  apply (out_bind any); [by apply out_ret|]. intros str _. apply (out_bind any); [out_step|auto].
Qed.

(** The set a text stands for, if it can be read. *)
Definition read_logs (str : string) : option (list LogDefine.t) :=
  result_at (world_init (mkEnv 0 0 0 "" ∅ false)) (logs_from_string str).

Lemma logs_from_string_eq str w : ∃ f,
  match read_logs str with
  | Some l => logs_from_string str w = Ret l (set_w_stdout f w) ∧ sset_sorted LogDefine.name l
  | None => ∃ what, logs_from_string str w = Throw (StdException what) (set_w_stdout f w)
  end.
Proof.
  destruct (out_logs_from_string str) as (r & Hr & Hm). unfold read_logs, result_at.
  destruct (Hm (world_init (mkEnv 0 0 0 "" ∅ false))) as [g ->]. destruct (Hm w) as [f Hf].
  exists f. destruct r as [[what|]|l]; [by exists what|done|done].
Qed.

(** ** Equality of definitions *)
Lemma appender_eqb_eq a b : LogAppenderDefine.eqb a b = true → a = b.
Proof.
  unfold LogAppenderDefine.eqb. rewrite !andb_true_iff, bool_decide_eq_true, Z.eqb_eq, !String.eqb_eq.
  destruct a, b. simpl. by intros [[[-> ->] ->] ->].
Qed.

Lemma vec_eqb_eq l k : LogDefine.vec_eqb l k = true → l = k.
Proof.
  revert k. induction l as [|a l IH]; intros [|b k]; simpl; try done.
  intros [->%appender_eqb_eq ->%IH]%andb_true_iff. done.
Qed.

Lemma define_eqb_eq a b : LogDefine.eqb a b = true → a = b.
Proof.
  unfold LogDefine.eqb. rewrite !andb_true_iff, Z.eqb_eq, !String.eqb_eq.
  destruct a, b. simpl. by intros [[[-> ->] ->] ->%vec_eqb_eq].
Qed.

Lemma logs_eqb_eq l k : logs_eqb l k = true → l = k.
Proof.
  revert k. induction l as [|a l IH]; intros [|b k]; simpl; try done.
  intros [->%define_eqb_eq ->%IH]%andb_true_iff. done.
Qed.

Lemma appender_eqb_refl a : LogAppenderDefine.eqb a a = true.
Proof. unfold LogAppenderDefine.eqb. by rewrite bool_decide_eq_true_2, Z.eqb_refl, !String.eqb_refl. Qed.

Lemma define_eqb_refl d : LogDefine.eqb d d = true.
Proof.
  unfold LogDefine.eqb. rewrite Z.eqb_refl, !String.eqb_refl. simpl.
  induction (LogDefine.appenders d) as [|a l IH]; [done|]. simpl. by rewrite appender_eqb_refl.
Qed.

(** Nothing to do when the definitions stay. *)
Lemma reconfigured_refl l w : log_wf w → sset_sorted LogDefine.name l → reconfigured l l w w.
Proof.
  intros Hwf Hs. split_and!; [done|intros d Hd ..|done].
  - unfold differs. rewrite (sset_find_elem LogDefine.name d) by done. by rewrite define_eqb_refl.
  - unfold gone. by rewrite (sset_find_elem LogDefine.name d).
Qed.

(** ** Assigning the variable *)
Lemma log_wf_stdout f w : log_wf w → log_wf (set_w_stdout f w).
Proof. intros (Hh & Hl & Hm). split_and!; [by apply heap_wf_stdout|done..]. Qed.

(** [g] is the variable ["logs"] with the definitions [old] and the
    listener of [LogIniter] only. *)
Record logs_var s (g : nat) (var : ConfigVar Cb TLogs) (old : list LogDefine.t) : Prop := {
  lv_at : c_vars s !! g = Some (AnyVar TLogs var);
  lv_val : to_logs (m_val var) = old;
  lv_sorted : sset_sorted LogDefine.name old;
  lv_cbs : ∃ k, m_cbs var = [(k, logs_cb)];
}.

(** Only the value of [g] changes, to [new], and the loggers follow. *)
Definition applied g var old new s s' : Prop :=
  ∃ v w', s' = set_c_ext w' (upd g (set_m_val (t := TLogs) v var) s) ∧ to_logs v = new ∧
    reconfigured old new (c_ext s) w'.

Lemma wp_setValue_logs g var old new s : strftime_default_fits → c_locks s = ∅ → log_wf (c_ext s) →
  logs_var s g var old → sset_sorted LogDefine.name new →
  (∀ d, d ∈ new → differs old d = true → define_safe d) →
  wp (setValue run_cb TLogs g (of_logs new)) (λ _, applied g var old new s) s.
Proof.
  intros Hfit Hl Hwf [Hg Hval Hso [k Hk]] Hsn Hsafe. unfold setValue. apply wp_bind.
  apply (wp_ReadLock (LkVar g)); [by simpl; rewrite Hl|]. apply wp_bind, (wp_load_var g var); [done|].
  rewrite val_eqb_logs, to_of_logs, Hval. destruct (logs_eqb new old) eqn:Heq.
  - apply logs_eqb_eq in Heq as ->. apply wp_ret. split; [done|]. apply wp_ret.
    exists (m_val var), (c_ext s). split_and!; [|done|by apply reconfigured_refl].
    assert (set_m_val (m_val var) var = var) as -> by (by destruct var).
    rewrite upd_id by done. by destruct s.
  - rewrite Hk. simpl. apply wp_bind, wp_bind, wp_bind, (wp_load_var g var); [done|].
    eapply wp_eq; [apply run_logs_cb|]. rewrite to_of_logs, Hval.
    eapply wp_mono; [|by apply wp_ext, wp_on_logs_changed]. intros [] s1 [Hs1 Hr].
    apply wp_ret, wp_ret. rewrite Hs1. split; [done|].
    apply (wp_write_var g var); [done|by simpl; rewrite Hl|].
    exists (of_logs new), (c_ext s1). by rewrite to_of_logs.
Qed.

Lemma wp_fromString_logs g var old new text s : strftime_default_fits → c_locks s = ∅ →
  log_wf (c_ext s) → logs_var s g var old → read_logs text = Some new →
  (∀ d, d ∈ new → differs old d = true → define_safe d) →
  wp (fromString run_cb g text) (λ b s', b = true ∧ applied g var old new s s') s.
Proof.
  intros Hfit Hl Hwf Hv Hread Hsafe. unfold fromString. apply wp_bind.
  apply (wp_deref _ _ (AnyVar TLogs var)); [apply Hv|]. apply wp_try_catch, wp_bind.
  destruct (logs_from_string_eq text (c_ext s)) as [f Hf]. rewrite Hread in Hf. destruct Hf as [Hf Hs].
  apply wp_zoom. eapply wp_eq; [apply from_string_logs|].
  unfold wp at 1, mbind at 1, M_bind at 1. rewrite Hf. simpl. apply wp_bind.
  eapply wp_mono; [|apply (wp_setValue_logs g var old new); try done; [by apply log_wf_stdout|by destruct Hv]].
  intros [] s' (v & w' & -> & Hnew & Hr). apply wp_ret. split; [done|]. by exists v, w'.
Qed.

(** ** Program start *)
Lemma wp_log_root level line content w : world_ok w → LogLevel.is_event_level level →
  wp (log_root level line content) (λ _ w', world_ok w' ∧ log_wf w') w.
Proof.
  intros Hw Hlev. apply wp_bind, wp_root; [done|]. intros p w1 Hw1 Hwf Hp.
  eapply wp_mono; [|apply SYLAR_LOG_LEVEL_delivers; [apply Hwf..|done|done]].
  intros [] w2 Hd. assert (log_wf w2) by (by eapply log_wf_delivered). split; [|done].
  by apply log_wf_world_ok; [apply Hw1|].
Qed.

Context `{HTok : !CfgTypesOk World}.

(** After the static objects are constructed, ["logs"] is registered with
    no definitions and the listener of [LogIniter]. *)
Lemma static_init_spec w : world_ok w →
  wp static_init (λ g s, cfg_wf s ∧ log_wf (c_ext s) ∧ c_datas s = <["logs" := g]> ∅ ∧
    ∃ var, logs_var s g var []) (cfg_init w).
Proof.
  intros Hw. pose proof (cfg_init_wf (Cb := Cb) w Hw) as Hwf0. unfold static_init. apply wp_bind.
  eapply wp_mono; [|eapply wpx_no_throw; [by apply wpx_Lookup_default|]].
  2: { intros e y (_ & _ & Hno & _). by apply Hno. }
  intros g s (_ & -> & Hs). cbv beta in *. simpl in Hs. unfold LogIniter_new.
  apply wp_bind, wp_bind, wp_zoom. eapply wp_mono; [|by apply wp_log_root; [apply Hs|]].
  intros [] w1 [Hw1 _]. apply wp_bind, wp_zoom. eapply wp_mono; [|by apply wp_log_root].
  intros [] w2 [Hw2 Hlw2]. destruct Hs as [-> _]. apply wp_bind.
  set (var := ConfigVar_new "logs" (of_logs []) "logs config").
  set (s2 := set_c_ext w2 _). assert (c_vars s2 !! 0 = Some (AnyVar TLogs var)) as Hg by apply lookup_insert_eq.
  assert (cfg_wf s2) as Hwf2.
  { split; [|done]. change s2 with (set_c_ext w2 (register "logs" var (cfg_init w))).
    eapply cfg_heap_ext; [by apply ext_step_set|]. by apply cfg_heap_register; [..|apply Hwf0]. }
  eapply wp_mono; [|apply wp_and; [by apply (wp_addListener_wf 0 var)|apply (wp_addListener 0 var logs_cb (λ k s3,
    s3 = upd 0 (set_m_cbs [(1%Z, logs_cb)] var) (set_c_fun_id (c_fun_id s3) s2))); [done|done|]]].
  2: { unfold bumped, wrapU. simpl. done. }
  intros key s3 [(_ & Hwf3 & _) Hs3]. rewrite Hs3 in Hwf3 |- *. clear Hs3. apply wp_zoom, wp_modify, wp_ret.
  split_and!; [|by apply log_wf_stdout|done|].
  - eapply cfg_wf_ext; [|exact Hwf3]. apply ext_step_set. split_and!; [apply Hw2|apply heap_wf_stdout|]; apply Hw2.
  - eexists. split; [apply lookup_insert_eq|apply to_of_logs|constructor|by eexists].
Qed.

End initer.

(** ** The types of a program whose only variable is ["logs"] *)
Section logs_only.
Context `{HPl : Platform} `{HYl : YamlLaws} `{HYs : !YamlStd}.

Definition logs_types : CfgTypes World := {|
  ty := unit;
  val _ := list LogDefine.t;
  val_eqb _ := logs_eqb;
  type_name _ := "St3setIN5sylar9LogDefineESt4lessIS1_ESaIS1_EE";
  from_string _ := logs_from_string;
  to_string _ := logs_to_string;
|}.
#[local] Existing Instance logs_types.

Definition logs_types_has : HasLogs.
Proof.
  refine {| TLogs := (tt : ty); to_logs := λ l, l; of_logs := λ l, l |}; try done.
  intros str w. unfold mbind, M_bind. simpl. by destruct (logs_from_string str w).
Defined.

Lemma out_only_result {A} R (m : M World A) w0 w : out_only R m → world_ok w →
  wpx m (λ a w', result_at w0 m = Some a ∧ world_ok w')
    (λ e w', is_std e ∧ result_at w0 m = None ∧ world_ok w') w.
Proof.
  intros (r & Hr & Hm) (Hfit & Hh & Hlk). unfold wpx, result_at.
  destruct (Hm w) as [f ->], (Hm w0) as [f0 ->].
  assert (world_ok (set_w_stdout f w)) by (split_and!; [done|by apply heap_wf_stdout|done]).
  by destruct r.
Qed.

Definition logs_types_ok : CfgTypesOk World.
Proof.
  pose (w0 := world_init (mkEnv 0 0 0 "" ∅ false)).
  refine {| parse t str := result_at w0 (from_string t str);
            print t v := result_at w0 (to_string t v) |}.
  - intros t str w Hw. by apply (out_only_result (sset_sorted LogDefine.name)); [apply out_logs_from_string|].
  - intros t v w Hw. by apply (out_only_result any); [apply out_logs_to_string|].
Defined.
End logs_only.
