(* ===== verification/LogDocument.v ===== *)
(** * Loading a whole document (sylar/config.cc, sylar/log.cc)

    [Config::LoadFromYaml] on a document that configures the loggers next
    to other variables.  While the entries of the other variables are
    loaded, the program logs (names that are not valid, texts that cannot
    be read) and prints, but the loggers stay as they are; the contract of
    [Config] with the logging system is used with that as its invariant. *)
From S2P Require Import Prelude CppStd Lock LogLevel LogFormatter FormatterGrammar Logger LoggerInv LoggerThm.
From S2P Require Import Yaml LexicalCast Config ConfigInv ConfigThm ConfigSpec ConfigLog.
From S2P Require Import LogConfig LogConfigThm LogIniter.

(** ** Loggers that stay as they are *)
Section stay.
Context `{HPl : Platform}.

(** Only logging and printing has happened since [w0]. *)
Definition stays (w0 w : World) : Prop := log_wf w0 ∧ conf_step [] w0 w.

Lemma stays_refl w : log_wf w → stays w w.
Proof. intros Hw. split; [done|by apply conf_step_refl]. Qed.

Lemma stays_trans w0 w1 w2 : stays w0 w1 → conf_step [] w1 w2 → stays w0 w2.
Proof. intros [Hw Hs] Hs'. split; [done|]. exact (conf_step_trans [] [] w0 w1 w2 Hs Hs'). Qed.

Lemma stays_wf w0 w : stays w0 w → log_wf w.
Proof. intros [_ Hs]. apply Hs. Qed.

Lemma conf_step_stdout f w : log_wf w → conf_step [] w (set_w_stdout f w).
Proof.
  intros Hw. split; [by apply log_wf_stdout|done| |by eauto]. intros i a Hi. by exists a.
Qed.

Lemma wp_log_stays (Q : nat → World → Prop) w : log_wf w →
  (∀ p, is_Some (w_loggers w !! p) → Q p w) → wp SYLAR_LOG_ROOT Q w.
Proof.
  intros (Hh & Hlk & m & Hm) HQ. destruct (hw_mgr _ Hh m Hm) as [_ (r & Hr & _) _].
  unfold SYLAR_LOG_ROOT, LoggerMgr_GetInstance. apply wp_bind, wp_bind, wp_get. rewrite Hm.
  apply wp_ret, wp_ret, HQ. by eexists.
Qed.

Definition stays_service (w0 : World) : LogServiceOk World.
Proof.
  refine {| log_inv := stays w0 |}.
  - intros w Hw. apply wp_bind, wp_log_stays; [by eapply stays_wf|]. intros p [l Hl].
    apply wp_bind, wp_deref with l; [done|]. by apply wp_ret.
  - intros file line msg w Hw. pose proof (stays_wf _ _ Hw) as Hwf. apply wp_bind, wp_log_stays; [done|].
    intros p Hp. eapply wp_mono; [|apply SYLAR_LOG_LEVEL_delivers; [apply Hwf..|done|done]].
    intros [] w' [Hs _]. eapply stays_trans; [done|]. by apply conf_step_log.
Defined.

(** The casts of the program's types print at most. *)
Class CastsPrint `{HT : !CfgTypes World} : Prop := {
  from_string_prints t str : out_only any (from_string t str);
  to_string_prints t v : out_only any (to_string t v);
}.

Lemma out_stays {A} (m : M World A) w0 w1 w : out_only any m → stays w0 w →
  wpx m (λ a w', result_at w1 m = Some a ∧ stays w0 w') (λ e w', is_std e ∧ result_at w1 m = None ∧ stays w0 w') w.
Proof.
  intros (r & Hr & Hm) Hw. unfold wpx, result_at. destruct (Hm w) as [f ->], (Hm w1) as [f1 ->].
  assert (stays w0 (set_w_stdout f w)).
  { eapply stays_trans; [done|]. by eapply conf_step_stdout, stays_wf. }
  by destruct r.
Qed.

Definition stays_types `{HT : !CfgTypes World} `{Hpr : !CastsPrint} (w0 : World) :
  CfgTypesOk World (LogServiceOk0 := stays_service w0).
Proof.
  refine {| parse t str := result_at w0 (from_string t str); print t v := result_at w0 (to_string t v) |}.
  - intros t str w Hw. apply out_stays; [apply from_string_prints|done].
  - intros t v w Hw. apply out_stays; [apply to_string_prints|done].
Defined.
End stay.

Section document.
Context `{HPl : Platform} `{HYl : YamlLaws} `{HYs : !YamlStd} `{HT : !CfgTypes World} `{Hpr : !CastsPrint}.
Context `{Hlogs : !HasLogs} {Cb : ty → Type}.
Context (run_cb : ∀ t, Cb t → val t → val t → M (Cfg Cb) unit).
Context (logs_cb : Cb TLogs).
Context (run_logs_cb : ∀ old new s,
  run_cb TLogs logs_cb old new s = ext (on_logs_changed (to_logs old) (to_logs new)) s).
Implicit Types (s : Cfg Cb).

(** A listener that returns and leaves the configuration and the loggers as
    they are (it may log). *)
Definition tame {t} (c : Cb t) : Prop := ∀ old new s, log_wf (c_ext s) →
  wp (run_cb t c old new) (λ _ s', s' = set_c_ext (c_ext s') s ∧ conf_step [] (c_ext s) (c_ext s')) s.

Lemma tame_quiet w0 {t} (c : Cb t) : tame c →
  quiet (LogServiceOk0 := stays_service w0) run_cb c.
Proof.
  intros Hc old new s Hs. eapply wp_mono; [|apply Hc, (stays_wf w0), Hs].
  intros [] s' [Hs' Hstep]. split; [done|]. exact (stays_trans w0 _ _ Hs Hstep).
Qed.

(** The variables the entries [l] of a document name. *)
Definition named s (l : list (string * Node)) (q : nat) : Prop :=
  ∃ i, i ∈ l ∧ c_datas s !! transform tolower i.1 = Some q.

(** Values of named variables have changed, and no logger. *)
Record kept (l : list (string * Node)) s s' : Prop := {
  kp_datas : c_datas s' = c_datas s;
  kp_locks : c_locks s' = c_locks s;
  kp_vars q t (var : ConfigVar Cb t) : c_vars s !! q = Some (AnyVar t var) →
    ∃ v, c_vars s' !! q = Some (AnyVar t (set_m_val v var));
  kp_others q : ¬ named s l q → c_vars s' !! q = c_vars s !! q;
  kp_ext : conf_step [] (c_ext s) (c_ext s');
}.

Lemma kept_ext l s s' : s' = set_c_ext (c_ext s') s → conf_step [] (c_ext s) (c_ext s') → kept l s s'.
Proof.
  intros Hs Hc. split; [by rewrite Hs..| |by rewrite Hs|done]. intros q t var Hq. exists (m_val var).
  rewrite Hs. simpl. rewrite Hq. by destruct var.
Qed.

Lemma kept_trans l s1 s2 s3 : kept l s1 s2 → kept l s2 s3 → kept l s1 s3.
Proof.
  intros [Hd Hl Hv Ho He] [Hd' Hl' Hv' Ho' He']. split; [congruence..| | |exact (conf_step_trans [] [] _ _ _ He He')].
  - intros q t var Hq. destruct (Hv q t var Hq) as [v Hq2]. destruct (Hv' q t _ Hq2) as [v' Hq3]. by exists v'.
  - intros q Hq. rewrite Ho' by (intros (i & Hi & Hn); apply Hq; exists i; by rewrite <-Hd). by apply Ho.
Qed.

Definition entries_tame s (l : list (string * Node)) : Prop := ∀ q, named s l q →
  ∃ t (var : ConfigVar Cb t), c_vars s !! q = Some (AnyVar t var) ∧ ∀ k c, (k, c) ∈ m_cbs var → tame c.

(** One entry. *)
Lemma wp_load_other l i s s2 : c_locks s = ∅ → log_wf (c_ext s) → entries_tame s l → i ∈ l → kept l s s2 →
  wp (load_body run_cb i) (λ _, kept l s) s2.
Proof.
  intros Hl Hwf Ht Hi [Hd Hlk Hv Ho He]. unfold wp. rewrite load_body_text.
  destruct (str_empty i.1); [by split|]. apply wp_bind, wp_LookupBase; [by rewrite Hlk, Hl|]. rewrite Hd.
  destruct (c_datas s !! transform tolower i.1) as [q|] eqn:Hq; [|by apply wp_ret].
  assert (named s l q) as Hnq by (by exists i). destruct (Ht q Hnq) as (t & var & Hvar & Htame).
  destruct (Hv q t var Hvar) as [v Hvar2]. apply wp_bind.
  eapply wp_mono; [|apply (wp_fromString (H := stays_types (c_ext s)) run_cb q (set_m_val v var));
    [done|by rewrite Hlk, Hl|by split|]].
  2: { intros k c Hc. by eapply tame_quiet, Htame. }
  intros b s3 [_ [Hs3 [_ Hstep]]]. apply wp_ret. simpl in Hs3.
  assert (∃ v', c_vars s3 = <[q := AnyVar t (set_m_val v' var)]> (c_vars s2)) as [v' Hvars].
  { rewrite Hs3. simpl. unfold assign_text. destruct (parse t _) as [x|]; by eexists. }
  split; [by rewrite Hs3|by rewrite Hs3| | |done].
  - intros p t' var' Hp. rewrite Hvars. destruct (decide (p = q)) as [->|Hne].
    + rewrite lookup_insert_eq. assert (AnyVar t var = AnyVar t' var') as Heq by congruence.
      pose proof (f_equal any_ty Heq) as Et. simpl in Et. subst t'. apply AnyVar_inj in Heq as <-. by exists v'.
    + rewrite lookup_insert_ne by done. by apply Hv.
  - intros p Hp. rewrite Hvars, lookup_insert_ne; [by apply Ho|]. by intros ->.
Qed.

Lemma wp_load_others l s : c_locks s = ∅ → log_wf (c_ext s) → entries_tame s l →
  wp (foreach l (load_body run_cb)) (λ _, kept l s) s.
Proof.
  intros Hl Hwf Ht. apply (wp_foreach _ (load_body run_cb) (λ _ s', kept l s s')).
  - intros i r s2 Hi Hk. by apply (wp_load_other l).
  - apply kept_ext; [by destruct s|by apply conf_step_refl].
Qed.

Lemma named_mono s s' l l' q : c_datas s' = c_datas s → (∀ i, i ∈ l → i ∈ l') → named s' l q → named s l' q.
Proof. intros Hd Hl (i & Hi & Hq). exists i. rewrite <-Hd. auto. Qed.

Lemma entries_tame_step s s' l l' : entries_tame s l → c_datas s' = c_datas s → (∀ i, i ∈ l' → i ∈ l) →
  (∀ q t (var : ConfigVar Cb t), named s l q → c_vars s !! q = Some (AnyVar t var) →
     ∃ v, c_vars s' !! q = Some (AnyVar t (set_m_val v var))) → entries_tame s' l'.
Proof.
  intros Ht Hd Hl Hv q Hq%(named_mono s s' l' l); [|done..]. destruct (Ht q Hq) as (t & var & Hvar & Hc).
  destruct (Hv q t var Hq Hvar) as [v Hv']. exists t, (set_m_val v var). by split.
Qed.

(** The entry for the loggers. *)
Lemma wp_load_logs g var old new key node s : strftime_default_fits → c_locks s = ∅ → log_wf (c_ext s) →
  c_datas s !! "logs" = Some g → logs_var logs_cb s g var old → transform tolower key = "logs" →
  read_logs (node_text node) = Some new → (∀ d, d ∈ new → differs old d = true → define_safe d) →
  wp (load_body run_cb (key, node)) (λ _, applied g var old new s) s.
Proof.
  intros Hfit Hl Hwf Hg Hv Hkey Hread Hsafe. unfold wp. rewrite load_body_text. simpl.
  destruct key as [|c key]; [done|]. simpl str_empty. cbv iota. apply wp_bind, wp_LookupBase; [by rewrite Hl|].
  rewrite Hkey, Hg. apply wp_bind.
  eapply wp_mono; [|by apply (wp_fromString_logs run_cb logs_cb run_logs_cb g var old new)].
  intros b s' [_ Ha]. by apply wp_ret.
Qed.

(** What loading the document has done. *)
Definition loaded g (var : ConfigVar Cb TLogs) old new (others : list (string * Node)) s s' : Prop :=
  (∃ v, c_vars s' !! g = Some (AnyVar TLogs (set_m_val v var)) ∧ to_logs v = new) ∧
  (∀ q, q ≠ g → ¬ named s others q → c_vars s' !! q = c_vars s !! q) ∧
  c_datas s' = c_datas s ∧ c_locks s' = ∅ ∧ reconfigured old new (c_ext s) (c_ext s').

(** The three parts of the loop. *)
Lemma loaded_parts g var old new pre post s s2 s3 s4 : log_wf (c_ext s) → c_locks s = ∅ →
  ¬ named s post g → kept pre s s2 → applied g var old new s2 s3 → kept post s3 s4 →
  loaded g var old new (pre ++ post) s s4.
Proof.
  intros Hwf Hl Hg K2 (v & w' & Hs3 & Hnew & (Hwf3 & Hc & Hrm & Hk)) K4.
  assert (c_datas s3 = c_datas s) as Hd3 by (rewrite Hs3; apply K2).
  assert (∀ q, named s3 post q → named s (pre ++ post) q) as Hn3.
  { intros q. apply named_mono; [done|]. intros i Hi. apply elem_of_app. by right. }
  pose proof (kp_ext _ _ _ K2) as E2. pose proof (kp_ext _ _ _ K4) as E4. rewrite Hs3 in E4. simpl in E4.
  split_and!.
  - exists v. split; [|done]. rewrite (kp_others _ _ _ K4), Hs3; [apply lookup_insert_eq|].
    intros (i & Hi & Hq). apply Hg. exists i. by rewrite <-Hd3.
  - intros q Hq Hn. rewrite (kp_others _ _ _ K4) by auto. rewrite Hs3. simpl. rewrite lookup_insert_ne by done.
    apply (kp_others _ _ _ K2). intros Hp. apply Hn. destruct Hp as (i & Hi & Hp). exists i.
    rewrite elem_of_app. auto.
  - rewrite (kp_datas _ _ _ K4). done.
  - rewrite (kp_locks _ _ _ K4), Hs3. simpl. rewrite (kp_locks _ _ _ K2). done.
  - split_and!; [apply E4| | |].
    + intros d Hd Hdf. eapply configured_step; [exact E4|apply not_elem_of_nil|].
      eapply configured_before; [exact Hwf|exact E2|apply not_elem_of_nil|by apply Hc].
    + intros d Hd Hgo. eapply removed_step; [exact E4|apply not_elem_of_nil|by apply Hrm].
    + intros p l Hp H1 H2. apply (cs_loggers _ _ _ E4); [|apply not_elem_of_nil]. apply Hk; [|done..].
      apply (cs_loggers _ _ _ E2); [done|apply not_elem_of_nil].
Qed.

Lemma wp_load_document g var old new root pre key node post s : strftime_default_fits → c_locks s = ∅ →
  log_wf (c_ext s) → c_datas s !! "logs" = Some g → logs_var logs_cb s g var old →
  wf_node root = true → members "" root = pre ++ (key, node) :: post → transform tolower key = "logs" →
  (∀ q l, (∀ i, i ∈ l → i ∈ pre ++ post) → named s l q → q ≠ g) →
  entries_tame s (pre ++ post) → read_logs (node_text node) = Some new →
  (∀ d, d ∈ new → differs old d = true → define_safe d) →
  wp (LoadFromYaml run_cb root) (λ _, loaded g var old new (pre ++ post) s) s.
Proof.
  intros Hfit Hl Hwf Hg Hv Hr Hmem Hkey Hng Ht Hread Hsafe. unfold LoadFromYaml. apply wp_bind.
  eapply wp_mono; [|apply (wp_ListAllMember (LogServiceOk0 := stays_service (c_ext s))); [done|by apply stays_refl]].
  intros all s1 [-> [Hs1 [_ Hc1]]]. simpl. rewrite Hmem. unfold wp. rewrite foreach_app.
  assert (kept pre s s1) as K1 by (by apply kept_ext).
  assert (c_datas s1 = c_datas s ∧ c_vars s1 = c_vars s ∧ c_locks s1 = ∅) as (Hd1 & Hv1 & Hl1) by (by rewrite Hs1).
  apply wp_bind. eapply wp_mono; [|apply (wp_load_others pre s1); [done|apply Hc1|]].
  2: { eapply (entries_tame_step s); [done|done|intros i Hi; rewrite elem_of_app; by left|].
       intros q t x _ Hq. exists (m_val x). rewrite Hv1, Hq. by destruct x. }
  intros [] s2 K12%(kept_trans pre s s1 s2 K1). pose proof (kp_ext _ _ _ K12) as E2.
  assert (c_locks s2 = ∅ ∧ c_datas s2 = c_datas s) as [Hl2 Hd2] by (by rewrite (kp_locks _ _ _ K12), (kp_datas _ _ _ K12)).
  assert (c_vars s2 !! g = c_vars s !! g) as Hg2.
  { apply (kp_others _ _ _ K12). intros Hn. destruct (Hng g pre); [|done..]. intros i Hi. rewrite elem_of_app. by left. }
  simpl. apply wp_bind. eapply wp_mono; [|apply (wp_load_logs g var old new); try done; [apply E2|by rewrite Hd2|]].
  2: { destruct Hv. split; [by rewrite Hg2|done..]. }
  intros [] s3 Ha. pose proof Ha as (v & w' & Hs3 & _ & [Hwf3 _]).
  eapply wp_mono; [|apply (wp_load_others post s3); [by rewrite Hs3|by rewrite Hs3|]].
  2: { eapply (entries_tame_step s); [done|by rewrite Hs3|intros i Hi; rewrite elem_of_app; by right|].
       intros q t x Hq Hx. rewrite Hs3. simpl. rewrite lookup_insert_ne; [by apply (kp_vars _ _ _ K12)|].
       intros <-. by apply (Hng g (pre ++ post)). }
  intros [] s4 K4. eapply loaded_parts; [done..| |exact K12|exact Ha|exact K4].
  intros Hn. apply (Hng g post); [|done..]. intros i Hi. rewrite elem_of_app. by right.
Qed.

End document.
