(* ===== verification/LogConfigDemo.v ===== *)
(** * A concrete logging configuration

    The theorems on the logging configuration applied to concrete
    definitions, with the platform of [LoggerThm] and the text format of
    [YamlDemo]. *)
From S2P Require Import Prelude CppStd Lock LogLevel LogFormatter FormatterGrammar Logger LoggerInv LoggerThm.
From S2P Require Import Yaml YamlDemo LexicalCast Config ConfigInv ConfigThm ConfigLog.
From S2P Require Import LogConfig LogConfigCast LogYaml LogConfigThm LogIniter LogDocument.

#[local] Existing Instance demo_platform.

Definition def_file : LogAppenderDefine.t :=
  LogAppenderDefine.mk LogAppenderDefine.TypeFileLogAppender LogLevel.WARN "%m%n" "web.log".
Definition def_stdout : LogAppenderDefine.t :=
  LogAppenderDefine.mk LogAppenderDefine.TypeStdoutLogAppender LogLevel.UNKNOW "" "".
Definition def_no_file : LogAppenderDefine.t :=
  LogAppenderDefine.mk LogAppenderDefine.TypeFileLogAppender LogLevel.WARN "" "".
Definition def_db : LogDefine.t := LogDefine.mk "db" LogLevel.INFO "%m%n" [def_stdout].
Definition def_web : LogDefine.t := LogDefine.mk "web" LogLevel.DEBUG "" [def_file; def_stdout].
Definition def_bad : LogDefine.t := LogDefine.mk "web" LogLevel.DEBUG "" [def_no_file; def_stdout].

Lemma defs_ok : Forall define_ok [def_db; def_web].
Proof. repeat constructor; by vm_compute. Qed.

(** The appender of type file without a file name is lost. *)
Lemma logs_roundtrip_witness :
  castable logs_from_string logs_to_string eq [def_db; def_web] ∧
  castable logs_from_string logs_to_string (λ x y, y = norm_define <$> x) [def_bad] ∧
  norm_define def_bad = LogDefine.mk "web" LogLevel.DEBUG "" [def_stdout].
Proof.
  split; [|split; [|vm_compute; reflexivity]].
  - apply (logs_roundtrip [def_db; def_web]); [repeat constructor|exact defs_ok].
  - apply (logs_roundtrip [def_bad]); repeat constructor.
Defined.

(** The loggers at the start of the program: the root logger with its two
    appenders. *)
Definition def_root : LogDefine.t :=
  LogDefine.mk "root" LogLevel.DEBUG default_pattern
    [LogAppenderDefine.mk LogAppenderDefine.TypeStdoutLogAppender LogLevel.DEBUG root_pattern "";
     LogAppenderDefine.mk LogAppenderDefine.TypeFileLogAppender LogLevel.DEBUG root_file_pattern "root.log"].

Lemma toYamlString_reads_witness : ∃ text,
  LoggerManager_toYamlString demo_world = Ret text demo_world ∧
  wp (logs_from_string text) (λ r _, r = [def_root]) demo_world.
Proof.
  destruct (toYamlString_reads demo_world demo_mgr (proj1 demo_wf) eq_refl eq_refl) as (text & Hrun & Hread).
  exists text. split; [exact Hrun|].
  assert (describe demo_world demo_mgr = [def_root]) as <- by (vm_compute; reflexivity).
  apply Hread.
Defined.

Lemma demo_pattern_safe : safe_pattern "%m%n".
Proof. unfold safe_pattern, formatter_safe. vm_compute. repeat constructor. Qed.

Lemma defs_safe_all d : d ∈ [def_db; def_web] → define_safe d.
Proof.
  intros Hin. rewrite !elem_of_cons in Hin. destruct Hin as [->|[->|Hin]]; [..|by apply elem_of_nil in Hin].
  all: split; [intros Hne; first [apply demo_pattern_safe|done]|].
  all: repeat constructor; simpl; try done; intros _; apply demo_pattern_safe.
Qed.

(** From a definition of ["web"] to ["db"] and another ["web"]. *)
Lemma demo_listener :
  ∃ w', on_logs_changed [def_bad] [def_db; def_web] demo_world = Ret tt w' ∧ log_wf w' ∧
    configured demo_world w' def_db ∧ configured demo_world w' def_web.
Proof.
  pose proof (logs_listener_spec [def_bad] [def_db; def_web] demo_world demo_fits demo_wf) as Hw.
  destruct (proj1 (wp_returns _ _ _) (Hw ltac:(repeat constructor) ltac:(repeat constructor) (λ d Hd _, defs_safe_all d Hd)))
    as ([] & w' & Hrun & Hwf & Hconf & _).
  exists w'. split; [exact Hrun|]. split; [exact Hwf|].
  split; apply Hconf; [by left|vm_compute; reflexivity|by right; left|vm_compute; reflexivity].
Defined.

(** ** A program start and a document *)
#[local] Instance demo_yaml_std : YamlStd.
Proof.
  split.
  - intros str e. simpl. unfold demo_Load. repeat case_match; by intros [= <-].
  - intros n i e. simpl. repeat case_match; by intros [= <-].
  - intros n key e. simpl. repeat case_match; by intros [= <-].
  - intros n e. simpl. repeat case_match; by intros [= <-].
Qed.

#[local] Existing Instance logs_types.
#[local] Existing Instance logs_types_has.
#[local] Existing Instance logs_types_ok.

Definition only_cb : @ty World logs_types → Type := λ _, unit.
Definition run_only (t : ty) (c : only_cb t) (old new : val t) : M (Cfg only_cb) unit :=
  ext (on_logs_changed old new).

Lemma run_only_logs (old new : val TLogs) s :
  run_only TLogs tt old new s = ext (on_logs_changed (to_logs old) (to_logs new)) s.
Proof. reflexivity. Qed.

Definition scalar_entry (key value : string) : Node * Node := (NScalar key, NScalar value).
Definition demo_nodes : list Node :=
  [NMap [scalar_entry "name" "web"; scalar_entry "level" "debug";
     (NScalar "appenders", NSequence
       [NMap [scalar_entry "type" "FileLogAppender"; scalar_entry "file" "web.log";
              scalar_entry "level" "warn"; scalar_entry "formatter" "%m%n"];
        NMap [scalar_entry "type" "StdoutLogAppender"]])];
   NMap [scalar_entry "name" "db"; scalar_entry "level" "info"; scalar_entry "formatter" "%m%n";
     (NScalar "appenders", NSequence [NMap [scalar_entry "type" "stdoutlogappender"]])]].

Lemma demo_nodes_read : read_logs (Emit (NSequence demo_nodes)) = Some [def_db; def_web].
Proof. vm_compute. reflexivity. Qed.

#[local] Instance logs_types_print : CastsPrint.
Proof.
  split; [|intros t l; apply out_logs_to_string]. intros t str.
  destruct (out_logs_from_string str) as (r & _ & Hm). destruct (out_logs_from_string str) as (r' & Hr' & Hm').
  exists r'. split; [|done]. by destruct r'.
Qed.

(** The program also registers a variable ["backup.logs"], and the document
    has a value for it, before the loggers, and entries no variable is
    registered for. *)
Definition demo_document : Node :=
  NMap [(NScalar "system", NMap [scalar_entry "port" "9900"]);
        (NScalar "backup", NMap [(NScalar "logs", NSequence [])]);
        (NScalar "logs", NSequence demo_nodes);
        scalar_entry "version" "3"].

Definition demo_pre : list (string * Node) :=
  [("", demo_document); ("system", NMap [scalar_entry "port" "9900"]); ("system.port", NScalar "9900");
   ("backup", NMap [(NScalar "logs", NSequence [])]); ("backup.logs", NSequence [])].
Definition demo_post : list (string * Node) := [("version", NScalar "3")].

Lemma demo_members : members "" demo_document = demo_pre ++ ("logs", NSequence demo_nodes) :: demo_post.
Proof. vm_compute. reflexivity. Qed.

Lemma demo_others i : i ∈ demo_pre ++ demo_post → transform tolower i.1 ≠ "logs".
Proof.
  assert (Forall (λ x : string * Node, negb (String.eqb (transform tolower x.1) "logs")) (demo_pre ++ demo_post)) as Hall
    by (by repeat constructor).
  rewrite Forall_forall in Hall. intros Hi%Hall Heq. by rewrite Heq in Hi.
Qed.

Lemma demo_document_wf : wf_node demo_document = true.
Proof. vm_compute. reflexivity. Qed.

(** The start of the program. *)
Definition demo_start : M (Cfg only_cb) (nat * nat) :=
  g ← static_init tt; p ← Lookup_default TLogs "backup.logs" [] ""; mret (g, p).

Lemma demo_lookup g s : cfg_wf s → log_wf (c_ext s) → c_datas s = <["logs" := g]> ∅ →
  wp (Lookup_default TLogs "backup.logs" [] "") (λ p s', p = c_next s ∧ log_wf (c_ext s') ∧
    ext_step (register "backup.logs" (ConfigVar_new (Cb := only_cb) (t := TLogs) "backup.logs" [] "") s) s') s.
Proof.
  intros [Hh Hl] Hwf Hd.
  assert (cfg_wf (LogServiceOk0 := stays_service (c_ext s)) s) as Hcw.
  { split; [|done]. destruct Hh. split; try done. by apply stays_refl. }
  eapply wp_mono; [|eapply wpx_no_throw; [by apply (wpx_Lookup_default (LogServiceOk0 := stays_service (c_ext s)) (Hty := stays_types (c_ext s)))|]].
  2: { intros e y (_ & _ & Hno & _). by apply Hno. }
  intros p s'. cbv beta. unfold registered at 1. rewrite Hd. simpl. intros (_ & Hp & Hs' & Hst).
  pose proof (stays_wf _ _ Hst) as Hwf'. split_and!; [done..|]. split; [done|].
  apply log_wf_world_ok; [apply demo_fits|done].
Qed.

Lemma demo_start_ready : wp demo_start (λ gp s,
  cfg_wf s ∧ log_wf (c_ext s) ∧ c_datas s !! "logs" = Some gp.1 ∧
  (∃ var, logs_var (Cb := only_cb) tt s gp.1 var []) ∧
  entries_tame run_only s (demo_pre ++ demo_post)) (cfg_init demo_world).
Proof.
  unfold demo_start. apply wp_bind.
  eapply wp_mono; [|exact (static_init_spec (Cb := only_cb) tt demo_world (log_wf_world_ok demo_world demo_fits demo_wf))].
  intros g s (Hcw & Hwf & Hd & var & Hv). apply wp_bind.
  eapply wp_mono; [|by apply (demo_lookup g)]. intros p s' (-> & Hwf' & Hs'). apply wp_ret. simpl.
  pose proof (ch_next s (proj1 Hcw) g _ (lv_at _ _ _ _ _ Hv)) as Hlt.
  split_and!.
  - eapply cfg_wf_ext; [exact Hs'|]. split; [|apply Hcw]. apply cfg_heap_register; [done..|apply Hcw].
  - done.
  - destruct Hs' as [-> _]. simpl. by rewrite Hd.
  - exists var. destruct Hv. split; [|done..]. destruct Hs' as [-> _]. simpl. rewrite lookup_insert_ne by lia. done.
  - intros q (i & Hi & Hq). destruct Hs' as [Hs' _]. rewrite Hs' in Hq |- *. simpl in Hq |- *. rewrite Hd in Hq.
    assert (q = c_next s) as ->.
    { clear -Hi Hq. revert Hq. generalize (c_next s) as n. intros n Hq. clear s.
      unfold demo_pre, demo_post in Hi. rewrite !elem_of_cons in Hi.
      destruct_or! Hi; subst; try (by apply elem_of_nil in Hi); vm_compute in Hq; congruence. }
    exists TLogs. eexists. split; [apply lookup_insert_eq|]. by intros k c ?%elem_of_nil.
Qed.

