(* ===== verification/Fiber.v ===== *)
(** * Fibers (sylar/fiber.h, sylar/fiber.cc)

    The fibers of one thread.  Code that runs on a fiber or on the thread
    itself is a value of type [code]: the calls into the class [Fiber] it
    makes, in order, and how it ends.  A saved [ucontext_t] is the control
    state it resumes; a control state is a stack (the thread's, or that of
    the [MainFunc] of a fiber) and the code left to run on it.  A context
    that has been entered or resumed is [Stale] until it is saved or made
    again: its stack has been used, and resuming it again is undefined.  [f_refs] counts the [std::shared_ptr]s to the
    fiber, the local variables [cur] of [MainFunc] and of the yield
    functions included.  The class [FiberBuild] is the build option
    [SYLAR_FIBER_RETURN_USE_UCLINK], which decides how [MainFunc] ends.
    [getcontext], [swapcontext] and [malloc] do not fail. *)
From S2P Require Import Prelude.

(** Whether [SYLAR_FIBER_RETURN_USE_UCLINK] is defined. *)
Class FiberBuild := { uclink : bool }.

Inductive State := INIT | HOLD | EXEC | TERM | READY | EXCEP.

#[export] Instance State_eq_dec : EqDecision State.
Proof. solve_decision. Defined.

Inductive code : Type :=
| Return
| Throws (e : exn)
(** [std::make_shared<Fiber>(cb, stacksize)] *)
| New (cb : code) (stacksize : Z) (k : nat → code)
(** [f->swapIn()] *)
| SwapIn (f : nat) (k : code)
| YieldToReady (k : code)
| YieldToHold (k : code)
(** [f->reset(cb)] *)
| Reset (f : nat) (cb : code) (k : code)
(** [Fiber::GetThis()], kept in a shared pointer *)
| GetThis (k : nat → code)
(** the end of the life of a shared pointer to [f] *)
| Drop (f : nat) (k : code)
| GetFiberId (k : Z → code)
| TotalFibers (k : Z → code)
(** the assertion after the last [swapOut] of [MainFunc], in the build
    without [uc_link] *)
| Never.

(** ** State *)
(** [ctl_frame] is the fiber whose [MainFunc] the code runs in, none for
    the thread's own stack; [ctl_cur] is the local [cur] of a yield
    function that has not returned yet. *)
Record control := mkControl { ctl_frame : option nat; ctl_cur : option nat; ctl_code : code }.

Inductive context := Start | Cont (c : control) | Stale.

Record Fiber := mkFiber {
  m_id : Z;
  m_stacksize : Z;
  m_state : State;
  m_ctx : context;
  m_link : option nat;
  m_stack : bool;
  m_cb : option code;
  f_refs : nat;
}.

Record FiberState := mkFiberState {
  fs_fibers : gmap nat Fiber;
  fs_next : nat;
  s_fiber_id : Z;
  s_fiber_count : Z;
  t_fiber : option nat;
  t_threadFiber : option nat;
  fs_control : control;
  fs_log : list string;
}.

Definition set_fibers f s := mkFiberState (f (fs_fibers s)) (fs_next s) (s_fiber_id s) (s_fiber_count s)
  (t_fiber s) (t_threadFiber s) (fs_control s) (fs_log s).
Definition set_control c s := mkFiberState (fs_fibers s) (fs_next s) (s_fiber_id s) (s_fiber_count s)
  (t_fiber s) (t_threadFiber s) c (fs_log s).
Definition set_count f s := mkFiberState (fs_fibers s) (fs_next s) (s_fiber_id s) (wrapU 64 (f (s_fiber_count s)))
  (t_fiber s) (t_threadFiber s) (fs_control s) (fs_log s).
Definition set_thread_fiber p s := mkFiberState (fs_fibers s) (fs_next s) (s_fiber_id s) (s_fiber_count s)
  (t_fiber s) p (fs_control s) (fs_log s).

Definition set_state (x : State) (f : Fiber) : Fiber :=
  mkFiber (m_id f) (m_stacksize f) x (m_ctx f) (m_link f) (m_stack f) (m_cb f) (f_refs f).
Definition set_ctx (x : context) (f : Fiber) : Fiber :=
  mkFiber (m_id f) (m_stacksize f) (m_state f) x (m_link f) (m_stack f) (m_cb f) (f_refs f).
Definition set_link (x : option nat) (f : Fiber) : Fiber :=
  mkFiber (m_id f) (m_stacksize f) (m_state f) (m_ctx f) x (m_stack f) (m_cb f) (f_refs f).
Definition set_cb (x : option code) (f : Fiber) : Fiber :=
  mkFiber (m_id f) (m_stacksize f) (m_state f) (m_ctx f) (m_link f) (m_stack f) x (f_refs f).
Definition set_refs (x : nat) (f : Fiber) : Fiber :=
  mkFiber (m_id f) (m_stacksize f) (m_state f) (m_ctx f) (m_link f) (m_stack f) (m_cb f) x.

Definition load_fiber (p : nat) : M FiberState Fiber :=
  deref "dangling Fiber" (λ s, fs_fibers s !! p).
Definition update_fiber (p : nat) (g : Fiber → Fiber) : M FiberState unit :=
  f ← load_fiber p; modify (set_fibers (<[p := g f]>)).
Definition new_fiber (f : Fiber) : M FiberState nat := λ s,
  Ret (fs_next s) (mkFiberState (<[fs_next s := f]> (fs_fibers s)) (S (fs_next s)) (s_fiber_id s)
    (s_fiber_count s) (t_fiber s) (t_threadFiber s) (fs_control s) (fs_log s)).

Definition log (msg : string) : M FiberState unit := modify (λ s,
  mkFiberState (fs_fibers s) (fs_next s) (s_fiber_id s) (s_fiber_count s) (t_fiber s) (t_threadFiber s)
    (fs_control s) (fs_log s ++ [msg])).

(** [SYLAR_ASSERT]: a failed assertion is logged and ends the program; with
    [NDEBUG] it is logged and the program goes on, which the model does not
    follow (the safety theorems show that no assertion fails). *)
Definition check (what : string) (b : bool) : M FiberState unit :=
  if b then mret tt else stop (AssertFailed what).

(** ** The class *)
Definition SetThis (p : option nat) : M FiberState unit := modify (λ s,
  mkFiberState (fs_fibers s) (fs_next s) (s_fiber_id s) (s_fiber_count s) p (t_threadFiber s)
    (fs_control s) (fs_log s)).

(** [Fiber::Fiber()], the main fiber of the thread; the context saved by
    [getcontext] is overwritten before it is used. *)
Definition Fiber_new_main : M FiberState nat :=
  p ← new_fiber (mkFiber 0 0 EXEC Stale None false None 1);
  SetThis (Some p);;
  modify (set_count (λ n, n + 1)%Z);;
  log ("Fiber::Fiber main_fiber id=" +:+ pretty 0%Z);;
  mret p.

(** [shared_from_this()] *)
Definition share (p : nat) : M FiberState unit := update_fiber p (λ f, set_refs (S (f_refs f)) f).

(** [Fiber::GetThis()]; the result holds a reference, and so does
    [t_threadFiber] after the main fiber's creation. *)
Definition Fiber_GetThis : M FiberState nat :=
  s ← get;
  match t_fiber s with
  | Some p => share p;; mret p
  | None =>
      p ← Fiber_new_main;
      s ← get;
      check "t_fiber == main_fiber.get()" (bool_decide (t_fiber s = Some p));;
      modify (set_thread_fiber (Some p));;
      share p;;
      mret p
  end.

(** [Fiber::~Fiber()] *)
Definition Fiber_delete (p : nat) : M FiberState unit :=
  modify (set_count (λ n, n - 1)%Z);;
  f ← load_fiber p;
  (if m_stack f then
     check "m_state == TERM || m_state == INIT || m_state == EXCEP"
       (bool_decide (m_state f = TERM ∨ m_state f = INIT ∨ m_state f = EXCEP))
   else
     check "!m_cb" (match m_cb f with None => true | Some _ => false end);;
     check "m_state == EXEC" (bool_decide (m_state f = EXEC));;
     s ← get;
     if decide (t_fiber s = Some p) then SetThis None else mret tt);;
  log ("Fiber::~Fiber id=" +:+ pretty (m_id f));;
  modify (set_fibers (delete p)).

(** The end of the life of a shared pointer. *)
Definition release (p : nat) : M FiberState unit :=
  f ← load_fiber p;
  match f_refs f with
  | 0 => stop (Undefined "reference count")
  | 1 => Fiber_delete p
  | S n => update_fiber p (set_refs n)
  end.

Section machine.
Context `{B : FiberBuild}.
(** The value of the configuration variable ["fiber.stack_size"]. *)
Context (stack_default : Z).

(** [Fiber::Fiber(cb, stactsize)]; both sizes are converted to
    [uint32_t]. *)
Definition Fiber_new (cb : code) (stactsize : Z) : M FiberState nat :=
  modify (λ s, mkFiberState (fs_fibers s) (fs_next s) (wrapU 64 (s_fiber_id s + 1)) (s_fiber_count s)
    (t_fiber s) (t_threadFiber s) (fs_control s) (fs_log s));;
  id ← gets s_fiber_id;
  tf ← gets t_threadFiber;
  (match tf with
   | None => p ← Fiber_GetThis; release p
   | Some _ => mret tt
   end);;
  s ← get;
  check "t_threadFiber" (bool_decide (t_threadFiber s ≠ None));;
  check "t_fiber == t_threadFiber.get()" (bool_decide (t_fiber s = t_threadFiber s));;
  modify (set_count (λ n, n + 1)%Z);;
  p ← new_fiber (mkFiber id (wrapU 32 (if (stactsize =? 0)%Z then stack_default else stactsize))
        INIT Start (if uclink then t_threadFiber s else None) true (Some cb) 1);
  log ("Fiber::Fiber id=" +:+ pretty id);;
  mret p.

(** [Fiber::reset] *)
Definition Fiber_reset (p : nat) (cb : code) : M FiberState unit :=
  f ← load_fiber p;
  check "m_stack" (m_stack f);;
  check "m_state == TERM || m_state == INIT || m_state == EXCEP"
    (bool_decide (m_state f = TERM ∨ m_state f = INIT ∨ m_state f = EXCEP));;
  link ← (if uclink then
      tf ← gets t_threadFiber;
      tf ← of_option "null t_threadFiber" tf;
      mret (Some tf)
    else mret None);
  update_fiber p (λ f, set_state INIT (set_ctx Start (set_link link (set_cb (Some cb) f)))).

(** [Fiber::MainFunc] up to the call of [m_cb]; calling an empty
    [std::function] throws [std::bad_function_call]. *)
Definition MainFunc_enter : M FiberState unit :=
  cur ← Fiber_GetThis;
  f ← load_fiber cur;
  modify (set_control (mkControl (Some cur) None
    (match m_cb f with Some c => c | None => Throws (StdException "bad_function_call") end))).

(** [setcontext(&p->m_ctx)] *)
Definition switch_to (p : nat) : M FiberState unit :=
  f ← load_fiber p;
  match m_ctx f with
  | Start => update_fiber p (set_ctx Stale);; MainFunc_enter
  | Cont c => update_fiber p (set_ctx Stale);; modify (set_control c)
  | Stale => stop (Undefined "context resumed twice")
  end.

(** [swapcontext(&from->m_ctx, &to->m_ctx)], where the caller goes on
    with [k] when it is resumed. *)
Definition swapcontext (from to : nat) (cur : option nat) (k : code) : M FiberState unit :=
  c ← gets fs_control;
  update_fiber from (set_ctx (Cont (mkControl (ctl_frame c) cur k)));;
  switch_to to.

(** [Fiber::swapOut] *)
Definition swapOut (p : nat) (cur : option nat) (k : code) : M FiberState unit :=
  tf ← gets t_threadFiber;
  SetThis tf;;
  tf ← of_option "null t_threadFiber" tf;
  swapcontext p tf cur k.

(** The rest of [MainFunc] after [m_cb] has returned or thrown.  With
    [uc_link], [cur] dies at the end of the function and the return resumes
    the linked context; without it, [cur] is given up and the fiber swaps
    out a last time, through a raw pointer. *)
Definition MainFunc_leave (cur : nat) (ex : option exn) : M FiberState unit :=
  (match ex with
   | None => update_fiber cur (λ f, set_state TERM (set_cb None f))
   | Some (StdException what) => update_fiber cur (set_state EXCEP);; log ("Fiber Except: " +:+ what)
   | Some OtherException => update_fiber cur (set_state EXCEP);; log "Fiber Except"
   end);;
  if uclink then
    tf ← gets t_threadFiber;
    SetThis tf;;
    f ← load_fiber cur;
    release cur;;
    if decide (f_refs f = 1) then stop (Undefined "return on a freed stack")
    else
      link ← of_option "thread exit" (m_link f);
      switch_to link
  else
    release cur;;
    swapOut cur None Never.

(** [Fiber::swapIn] *)
Definition swapIn (p : nat) (k : code) : M FiberState unit :=
  SetThis (Some p);;
  f ← load_fiber p;
  check "m_state != EXEC" (bool_decide (m_state f ≠ EXEC));;
  update_fiber p (set_state EXEC);;
  tf ← gets t_threadFiber;
  tf ← of_option "null t_threadFiber" tf;
  swapcontext tf p None k.

(** [Fiber::YieldToReady] and [Fiber::YieldToHold]: the local [cur] dies
    when the fiber is resumed. *)
Definition yield_as (st : State) (k : code) : M FiberState unit :=
  cur ← Fiber_GetThis;
  update_fiber cur (set_state st);;
  swapOut cur (Some cur) k.

Definition Fiber_GetFiberId : M FiberState Z :=
  s ← get;
  match t_fiber s with
  | Some p => f ← load_fiber p; mret (m_id f)
  | None => mret 0%Z
  end.

Definition Fiber_TotalFibers : M FiberState Z := gets s_fiber_count.

(** ** Running: one call at a time

    [false] is returned when the thread's own code has ended. *)
Definition continue_with (k : code) : M FiberState bool :=
  modify (λ s, set_control (mkControl (ctl_frame (fs_control s)) None k) s);; mret true.

Definition step : M FiberState bool :=
  c ← gets fs_control;
  match ctl_cur c with
  | Some p => release p;; continue_with (ctl_code c)
  | None =>
  match ctl_code c, ctl_frame c with
  | Return, None => mret false
  | Return, Some cur => MainFunc_leave cur None;; mret true
  | Throws _, None => stop (Undefined "std::terminate")
  | Throws e, Some cur => MainFunc_leave cur (Some e);; mret true
  | New cb stacksize k, _ => p ← Fiber_new cb stacksize; continue_with (k p)
  | SwapIn f k, _ => swapIn f k;; mret true
  | YieldToReady k, _ => yield_as READY k;; mret true
  | YieldToHold k, _ => yield_as HOLD k;; mret true
  | Reset f cb k, _ => Fiber_reset f cb;; continue_with k
  | GetThis k, _ => p ← Fiber_GetThis; continue_with (k p)
  | Drop f k, _ => release f;; continue_with k
  | GetFiberId k, _ => id ← Fiber_GetFiberId; continue_with (k id)
  | TotalFibers k, _ => n ← Fiber_TotalFibers; continue_with (k n)
  | Never, _ => check "never reach after swapout" false;; mret true
  end
  end.

Fixpoint run (n : nat) : M FiberState bool :=
  match n with
  | 0 => mret true
  | S n => more ← step; if (more : bool) then run n else mret false
  end.

(** A thread that starts with its code and no fiber. *)
Definition thread_start (c : code) : FiberState :=
  mkFiberState ∅ 0 0 0 None None (mkControl None None c) [].
End machine.

(** A fiber that yields three times in different ways. *)
Definition demo_main : code :=
  New (YieldToHold (YieldToReady Return)) 0 (λ f,
    SwapIn f (SwapIn f (SwapIn f (TotalFibers (λ _, Drop f (Return)))))).

Example demo_run : ∀ build,
  match run (B := build) 1024 100 (thread_start demo_main) with
  | Ret b s => (b, m_state <$> fs_fibers s !! 1, fs_log s, s_fiber_count s)
  | _ => (true, None, [], 0%Z)
  end = (false, None, ["Fiber::Fiber main_fiber id=0"; "Fiber::Fiber id=1"; "Fiber::~Fiber id=1"], 1%Z).
Proof. intros [[]]; vm_compute; reflexivity. Qed.
