(* ===== verification/FiberInv.v ===== *)
(** * Invariant of the fiber machine

    [fiber_inv] ties the states of the fibers, their saved contexts, the
    thread-local pointers and the running code together; [polite] says
    which calls a well-behaved program makes.  From a state satisfying the
    invariant a polite call always returns and keeps it. *)
From S2P Require Import Prelude Fiber.

Section inv.
Context `{B : FiberBuild}.

(** ** The invariant *)

(** A child fiber [p], with main fiber [mf], while [frame] is running. *)
Record child_ok (mf : nat) (frame : option nat) (p : nat) (f : Fiber) : Prop := {
  co_stack : m_stack f = true;
  co_link : m_link f = if uclink then Some mf else None;
  co_state : match m_state f with
    | INIT => m_ctx f = Start ∧ m_cb f ≠ None ∧ frame ≠ Some p
    | HOLD | READY => (∃ k, m_ctx f = Cont (mkControl (Some p) (Some p) k)) ∧ frame ≠ Some p
    | EXEC => m_ctx f = Stale ∧ frame = Some p
    | TERM => m_cb f = None ∧ frame ≠ Some p
    | EXCEP => frame ≠ Some p
    end;
  (** the context of a fiber that has ended has been used or, without
      [uc_link], is the point after its last [swapOut] *)
  co_ended : m_state f = TERM ∨ m_state f = EXCEP →
    m_ctx f = if uclink then Stale else Cont (mkControl (Some p) None Never);
}.

(** The main fiber; its context is saved while a child runs. *)
Record main_ok (frame : option nat) (f : Fiber) : Prop := {
  mo_stack : m_stack f = false;
  mo_cb : m_cb f = None;
  mo_state : m_state f = EXEC;
  mo_ctx : frame ≠ None → ∃ k, m_ctx f = Cont (mkControl None None k);
}.

(** The shared pointers the machine itself holds: [t_threadFiber] on the
    main fiber; on a child, the local [cur] of its [MainFunc] and that of
    a yield function it is in. *)
Definition internal (cur : option nat) (p : nat) (f : Fiber) : nat :=
  if m_stack f then
    match m_state f with
    | HOLD | READY => 2
    | EXEC => if decide (cur = Some p) then 2 else 1
    | INIT | TERM | EXCEP => 0
    end
  else 1.

Record heap_ok (cur : option nat) (next : nat) (last_id : Z) (h : gmap nat Fiber) : Prop := {
  ho_next p f : h !! p = Some f → p < next;
  ho_refs p f : h !! p = Some f → internal cur p f ≤ f_refs f ∧ 1 ≤ f_refs f;
  ho_ids p f : h !! p = Some f → m_stack f = true → (1 ≤ m_id f ≤ last_id)%Z;
  ho_inj p q f g : h !! p = Some f → h !! q = Some g → m_stack f = true → m_stack g = true →
    m_id f = m_id g → p = q;
}.

Record threads_ok (t : option nat) (mf : nat) (frame cur : option nat) (h : gmap nat Fiber) : Prop := {
  to_main : ∃ f, h !! mf = Some f ∧ main_ok frame f;
  to_child p f : h !! p = Some f → p ≠ mf → child_ok mf frame p f;
  to_this : t = Some (default mf frame);
  to_frame p : frame = Some p → p ≠ mf ∧ ∃ f, h !! p = Some f ∧ m_state f = EXEC;
  to_cur : cur = None ∨ cur = frame;
}.

Record fiber_inv (s : FiberState) : Prop := {
  fi_heap : heap_ok (ctl_cur (fs_control s)) (fs_next s) (s_fiber_id s) (fs_fibers s);
  fi_count : s_fiber_count s = wrapU 64 (Z.of_nat (size (fs_fibers s)));
  fi_id : (0 ≤ s_fiber_id s < 2 ^ 64)%Z;
  fi_threads : match t_threadFiber s with
    | Some mf => threads_ok (t_fiber s) mf (ctl_frame (fs_control s)) (ctl_cur (fs_control s)) (fs_fibers s)
    | None => fs_fibers s = ∅ ∧ t_fiber s = None ∧ ctl_frame (fs_control s) = None ∧
        ctl_cur (fs_control s) = None
    end;
}.

(** ** Well-behaved programs *)
Definition resumable (x : State) : Prop := x = INIT ∨ x = HOLD ∨ x = READY.
Definition finished (x : State) : Prop := x = TERM ∨ x = INIT ∨ x = EXCEP.

(** The program owns a shared pointer to the fiber, or more than [n]. *)
Definition owns_more (n : nat) (s : FiberState) (p : nat) : Prop :=
  ∃ f, fs_fibers s !! p = Some f ∧ internal (ctl_cur (fs_control s)) p f + n < f_refs f.
Definition owns (s : FiberState) (p : nat) : Prop :=
  ∃ f, fs_fibers s !! p = Some f ∧ internal (ctl_cur (fs_control s)) p f < f_refs f.

(** The rules of the class.  A fiber is swapped in through a pointer the
    program owns, and a running fiber does not give up the last such
    pointer to itself; how a fiber's function ends is up to it. *)
Definition polite (s : FiberState) : Prop :=
  let c := fs_control s in
  ctl_cur c = None →
  match ctl_code c with
  | Return => True
  | Throws _ => ctl_frame c ≠ None
  | New _ _ _ => ctl_frame c = None ∧ (s_fiber_id s + 1 < 2 ^ 64)%Z
  | SwapIn p _ => ctl_frame c = None ∧ owns s p ∧ ∃ f, fs_fibers s !! p = Some f ∧ m_stack f = true ∧ resumable (m_state f)
  | YieldToReady _ | YieldToHold _ => ctl_frame c ≠ None
  | Reset p _ _ => ∃ f, fs_fibers s !! p = Some f ∧ m_stack f = true ∧ finished (m_state f)
  | Drop p _ => owns s p ∧ (ctl_frame c = Some p → owns_more 1 s p)
  | GetThis _ | GetFiberId _ | TotalFibers _ => True
  | Never => False
  end.

(** ** Rules *)
Lemma wp_load_fiber p f (Q : Fiber → FiberState → Prop) s :
  fs_fibers s !! p = Some f → Q f s → wp (load_fiber p) Q s.
Proof. intros Hp HQ. by apply wp_deref with f. Qed.

Lemma wp_update p f g (Q : unit → FiberState → Prop) s :
  fs_fibers s !! p = Some f → Q tt (set_fibers (<[p := g f]>) s) → wp (update_fiber p g) Q s.
Proof. intros Hp HQ. apply wp_bind, (wp_load_fiber p f); [done|]. by apply wp_modify. Qed.

Lemma wp_check what b (Q : unit → FiberState → Prop) s : b = true → Q tt s → wp (check what b) Q s.
Proof. by intros ->. Qed.

Lemma wp_release_many p f n (Q : unit → FiberState → Prop) s :
  fs_fibers s !! p = Some f → f_refs f = S (S n) →
  Q tt (set_fibers (<[p := set_refs (S n) f]>) s) → wp (release p) Q s.
Proof.
  intros Hp Hn HQ. apply wp_bind, (wp_load_fiber p f); [done|]. rewrite Hn. by apply (wp_update p f).
Qed.

(** ** The invariant under changes of the heap *)
Lemma heap_ok_insert cur cur' next id h p f f' :
  heap_ok cur next id h → h !! p = Some f → m_id f' = m_id f → m_stack f' = m_stack f →
  internal cur' p f' ≤ f_refs f' ∧ 1 ≤ f_refs f' →
  (∀ q g, q ≠ p → h !! q = Some g → internal cur' q g ≤ internal cur q g) →
  heap_ok cur' next id (<[p := f']> h).
Proof.
  intros [Hn Hr Hi Hj] Hp Hid Hst Href Hcur. split.
  - intros q g [[<- <-]|[_ Hq]]%lookup_insert_Some; eauto.
  - intros q g [[<- <-]|[Hne Hq]]%lookup_insert_Some; [done|].
    pose proof (Hr q g Hq). pose proof (Hcur q g (not_eq_sym Hne) Hq). lia.
  - intros q g [[<- <-]|[_ Hq]]%lookup_insert_Some; [|eauto]. rewrite Hid, Hst. eauto.
  - intros q r g g' [[<- <-]|[Hq1 Hq]]%lookup_insert_Some [[<- <-]|[Hr1 Hr']]%lookup_insert_Some;
      rewrite ?Hst, ?Hid; eauto.
Qed.

Lemma size_insert_same (h : gmap nat Fiber) p f f' : h !! p = Some f → size (<[p := f']> h) = size h.
Proof. intros Hp. apply map_size_insert_Some. by eexists. Qed.

Lemma child_ok_frame mf frame frame' p f : child_ok mf frame p f → frame ≠ Some p → frame' ≠ Some p →
  child_ok mf frame' p f.
Proof.
  intros [Hs Hl Hst He] Hne Hne'. split; [done|done| |done]. destruct (m_state f); intuition.
Qed.

Lemma internal_child_cur cur cur' mf frame q g : child_ok mf frame q g → frame ≠ Some q →
  internal cur' q g = internal cur q g.
Proof.
  intros [Hs _ Hst _] Hne. unfold internal. rewrite Hs. destruct (m_state g); try done. by destruct Hst.
Qed.

(** Two heaps that agree outside two addresses present in both. *)
Record upd2 (mf p : nat) (fm f fm' f' : Fiber) (h h' : gmap nat Fiber) : Prop := {
  u2_main : h !! mf = Some fm;
  u2_child : h !! p = Some f;
  u2_ne : p ≠ mf;
  u2_main' : h' !! mf = Some fm';
  u2_child' : h' !! p = Some f';
  u2_other q : q ≠ p → q ≠ mf → h' !! q = h !! q;
}.

Lemma upd2_size mf p fm f fm' f' h h' : upd2 mf p fm f fm' f' h h' → size h' = size h.
Proof.
  intros [H1 H2 Hne H1' H2' Ho]. rewrite <-!size_dom. apply set_size_proper. intros q.
  rewrite !elem_of_dom. destruct (decide (q = p)) as [->|]; [by rewrite H2, H2'; split; eauto|].
  destruct (decide (q = mf)) as [->|]; [by rewrite H1, H1'; split; eauto|]. by rewrite Ho.
Qed.

(** Every lookup in the new heap is one of the three cases. *)
Lemma upd2_cases mf p fm f fm' f' h h' q g : upd2 mf p fm f fm' f' h h' → h' !! q = Some g →
  q = p ∧ g = f' ∨ q = mf ∧ g = fm' ∨ q ≠ p ∧ q ≠ mf ∧ h !! q = Some g.
Proof.
  intros [H1 H2 Hne H1' H2' Ho] Hq. destruct (decide (q = p)) as [->|]; [left; split; congruence|].
  destruct (decide (q = mf)) as [->|]; [right; left; split; congruence|].
  right; right. by rewrite <-Ho.
Qed.

(** Control passes between the main fiber and the child [p], or stays. *)
Lemma fiber_inv_switch mf p fm f fm' f' frame' cur' s s' :
  fiber_inv s → t_threadFiber s = Some mf →
  upd2 mf p fm f fm' f' (fs_fibers s) (fs_fibers s') →
  (∀ q, q ≠ p → frame' = Some q ↔ ctl_frame (fs_control s) = Some q) →
  (∀ q, q ≠ p → cur' = Some q ↔ ctl_cur (fs_control s) = Some q) →
  cur' = None ∨ cur' = frame' →
  (* the new state *)
  fs_next s' = fs_next s → s_fiber_id s' = s_fiber_id s → s_fiber_count s' = s_fiber_count s →
  t_threadFiber s' = Some mf → t_fiber s' = Some (default mf frame') →
  ctl_frame (fs_control s') = frame' → ctl_cur (fs_control s') = cur' →
  (* the new fibers *)
  main_ok frame' fm' → m_id fm' = m_id fm → f_refs fm' = f_refs fm →
  child_ok mf frame' p f' → m_id f' = m_id f → internal cur' p f' ≤ f_refs f' ∧ 1 ≤ f_refs f' →
  fiber_inv s'.
Proof.
  intros [Hh Hc Hid Ht] Htf Hu Hfr Hcu Hcur Hnx Hsi Hsc Htf' Hthis Hf' Hc' Hmain Hmid Hmref Hch Hcid Hcref.
  rewrite Htf in Ht. destruct Ht as [(fm0 & Hm0 & Hmok) Hchild Hthis0 Hframe Hcur0].
  pose proof (u2_main _ _ _ _ _ _ _ _ Hu) as Hmf. pose proof (u2_child _ _ _ _ _ _ _ _ Hu) as Hp.
  assert (fm0 = fm) as -> by congruence. destruct Hh as [Hn Hr Hi Hj].
  assert (∀ q g, q ≠ p → q ≠ mf → fs_fibers s !! q = Some g →
    child_ok mf frame' q g ∧ internal cur' q g = internal (ctl_cur (fs_control s)) q g) as Hoth.
  { intros q g Hqp Hqm Hq. pose proof (Hchild q g Hq Hqm) as Hco. split.
    - destruct Hco as [Hs Hl Hst He]. split; [done|done| |done].
      destruct (m_state g); rewrite ?(Hfr q Hqp); done.
    - unfold internal. destruct (m_stack g), (m_state g); try done.
      destruct (decide (cur' = Some q)) as [E|E], (decide (ctl_cur (fs_control s) = Some q)) as [E'|E']; try done.
      + by apply (Hcu q Hqp) in E.
      + by apply (Hcu q Hqp) in E'. }
  pose proof (u2_ne _ _ _ _ _ _ _ _ Hu) as Hne.
  assert (m_stack fm' = false) as Hsm by apply Hmain. assert (m_stack f' = true) as Hsc' by apply Hch.
  assert (m_stack f = true) as Hsf by (by apply (Hchild p f Hp Hne)).
  split.
  - rewrite Hc', Hnx, Hsi. split.
    + intros q g [[-> ->]|[[-> ->]|(_ & _ & Hq)]]%(upd2_cases _ _ _ _ _ _ _ _ _ _ Hu); eauto.
    + intros q g [[-> ->]|[[-> ->]|(Hqp & Hqm & Hq)]]%(upd2_cases _ _ _ _ _ _ _ _ _ _ Hu); [done| |].
      * destruct (Hr mf fm Hmf) as [Hr1 Hr2]. unfold internal in *. rewrite Hsm, Hmref.
        by rewrite (mo_stack _ _ Hmok) in Hr1.
      * destruct (Hoth q g Hqp Hqm Hq) as [_ ->]. eauto.
    + intros q g [[-> ->]|[[-> ->]|(_ & _ & Hq)]]%(upd2_cases _ _ _ _ _ _ _ _ _ _ Hu) Hst;
        [rewrite Hcid; eauto|congruence|eauto].
    + intros q r g g' [[-> ->]|[[-> ->]|(Hq1 & _ & Hq)]]%(upd2_cases _ _ _ _ _ _ _ _ _ _ Hu)
        [[-> ->]|[[-> ->]|(Hr1 & _ & Hr')]]%(upd2_cases _ _ _ _ _ _ _ _ _ _ Hu) Hs1 Hs2 Hideq;
        try congruence; rewrite ?Hcid in Hideq; eauto.
  - by rewrite Hsc, (upd2_size _ _ _ _ _ _ _ _ Hu).
  - by rewrite Hsi.
  - rewrite Htf', Hf', Hc'. split; try done.
    + exists fm'. split; [apply Hu|done].
    + intros q g [[-> ->]|[[-> ->]|(Hqp & Hqm & Hq)]]%(upd2_cases _ _ _ _ _ _ _ _ _ _ Hu) Hqm'; try done.
      by apply Hoth.
    + intros q Hq. destruct (decide (q = p)) as [->|Hqp].
      * split; [done|]. exists f'. split; [apply Hu|]. destruct Hch as [_ _ Hst _].
        destruct (m_state f'); intuition.
      * apply (Hfr q Hqp) in Hq. destruct (Hframe q Hq) as (Hqm & g & Hg & Hst). split; [done|].
        exists g. by rewrite (u2_other _ _ _ _ _ _ _ _ Hu).
Qed.

(** A change of a reference count. *)
Lemma fiber_inv_refs p f n s : fiber_inv s → fs_fibers s !! p = Some f →
  internal (ctl_cur (fs_control s)) p f ≤ n → 1 ≤ n →
  fiber_inv (set_fibers (<[p := set_refs n f]>) s).
Proof.
  intros [Hh Hc Hid Ht] Hp Hn H1. split; simpl.
  - eapply heap_ok_insert; [done..|by destruct f|]. done.
  - by rewrite (size_insert_same _ p f).
  - done.
  - destruct (t_threadFiber s) as [mf|]; [|destruct Ht as [Ht _]; by rewrite Ht, lookup_empty in Hp].
    destruct Ht as [(fm & Hm & Hmok) Hch Hth Hfr Hcu]. split; try done.
    + destruct (decide (p = mf)) as [->|Hne].
      * exists (set_refs n f). rewrite lookup_insert_eq. split; [done|].
        assert (f = fm) as -> by congruence. by destruct Hmok.
      * exists fm. by rewrite lookup_insert_ne.
    + intros q g [[<- <-]|[_ Hq]]%lookup_insert_Some Hne; [|by apply Hch].
      by destruct (Hch p f Hp Hne).
    + intros q Hq. destruct (Hfr q Hq) as (Hqm & g & Hg & Hst). split; [done|].
      destruct (decide (p = q)) as [->|Hne]; [|exists g; by rewrite lookup_insert_ne].
      exists (set_refs n f). rewrite lookup_insert_eq. split; [done|]. assert (f = g) by congruence. by subst.
Qed.

(** The invariant does not depend on the code and the log. *)
Lemma fiber_inv_code s s' : fiber_inv s → fs_fibers s' = fs_fibers s → fs_next s' = fs_next s →
  s_fiber_id s' = s_fiber_id s → s_fiber_count s' = s_fiber_count s → t_fiber s' = t_fiber s →
  t_threadFiber s' = t_threadFiber s → ctl_frame (fs_control s') = ctl_frame (fs_control s) →
  ctl_cur (fs_control s') = ctl_cur (fs_control s) → fiber_inv s'.
Proof.
  intros [Hh Hc Hid Ht] E1 E2 E3 E4 E5 E6 E7 E8.
  split; rewrite ?E1, ?E2, ?E3, ?E4, ?E5, ?E6, ?E7, ?E8; done.
Qed.

Lemma wp_continue k (Q : bool → FiberState → Prop) s :
  Q true (set_control (mkControl (ctl_frame (fs_control s)) None k) s) → wp (continue_with k) Q s.
Proof. intros HQ. by apply wp_bind, wp_modify, wp_ret. Qed.

Lemma inv_continue k s : fiber_inv s → ctl_cur (fs_control s) = None →
  wp (continue_with k) (λ _, fiber_inv) s.
Proof. intros Hi Hc. apply wp_continue. by apply (fiber_inv_code s). Qed.

(** *** Shared pointers *)
Lemma inv_share p f s : fiber_inv s → fs_fibers s !! p = Some f →
  wp (share p) (λ _ s', fiber_inv s' ∧ s' = set_fibers (<[p := set_refs (S (f_refs f)) f]>) s) s.
Proof.
  intros Hi Hp. apply (wp_update p f); [done|]. split; [|done].
  destruct (ho_refs _ _ _ _ (fi_heap s Hi) p f Hp). apply fiber_inv_refs; [done|done|lia|lia].
Qed.

(** A fiber without machine-held pointers can be destroyed. *)
Lemma fiber_inv_delete p f s : fiber_inv s → fs_fibers s !! p = Some f → m_stack f = true →
  finished (m_state f) → fiber_inv (set_fibers (delete p) (set_count (λ n, n - 1)%Z s)).
Proof.
  intros [Hh Hc Hid Ht] Hp Hst Hfin. split; simpl.
  - destruct Hh as [Hn Hr Hi Hj]. split; intros q; intros.
    + apply lookup_delete_Some in H as [_ Hq]. eauto.
    + apply lookup_delete_Some in H as [_ Hq]. eauto.
    + apply lookup_delete_Some in H as [_ Hq]. eauto.
    + apply lookup_delete_Some in H as [_ Hq], H0 as [_ Hq']. eauto.
  - rewrite Hc, map_size_delete, Hp. unfold wrapU. rewrite Zminus_mod_idemp_l.
    f_equal. assert (size (fs_fibers s) ≠ 0); [|lia].
    rewrite map_size_ne_0_lookup. by exists p, f.
  - done.
  - destruct (t_threadFiber s) as [mf|]; [|destruct Ht as [Ht _]; by rewrite Ht, lookup_empty in Hp].
    destruct Ht as [(fm & Hm & Hmok) Hch Hth Hfr Hcu].
    assert (p ≠ mf) as Hne.
    { intros ->. assert (f = fm) as -> by congruence. by rewrite (mo_stack _ _ Hmok) in Hst. }
    split; try done.
    + exists fm. by rewrite lookup_delete_ne.
    + intros q g [_ Hq]%lookup_delete_Some. by apply Hch.
    + intros q Hq. destruct (Hfr q Hq) as (Hqm & g & Hg & Hge). split; [done|]. exists g.
      rewrite lookup_delete_ne; [done|]. intros ->. assert (f = g) by congruence. subst g.
      rewrite Hge in Hfin. by destruct Hfin as [?|[?|?]].
Qed.

Lemma main_internal s mf f cur : threads_ok (t_fiber s) mf (ctl_frame (fs_control s)) cur (fs_fibers s) →
  fs_fibers s !! mf = Some f → m_stack f = false.
Proof. intros [(fm & Hm & Hmok) _ _ _ _] Hf. assert (f = fm) as -> by congruence. apply Hmok. Qed.

(** Who owns the only pointer to a fiber, owns one that has finished. *)
Lemma last_pointer cur p f : internal cur p f < f_refs f → f_refs f = 1 →
  m_stack f = true ∧ finished (m_state f).
Proof.
  unfold internal, finished. intros Hlt Hn. rewrite Hn in Hlt. destruct (m_stack f); [|lia]. split; [done|].
  destruct (m_state f); auto; [lia| |lia]. destruct (decide _); lia.
Qed.

(** Giving up an owned pointer. *)
Lemma inv_release p s : fiber_inv s → owns s p →
  wp (release p) (λ _ s', fiber_inv s' ∧ fs_control s' = fs_control s) s.
Proof.
  intros Hi (f & Hp & Hown). apply wp_bind, (wp_load_fiber p f); [done|].
  destruct (f_refs f) as [|[|n]] eqn:Hn; [lia| |].
  - rewrite <-Hn in Hown. destruct (last_pointer _ p f Hown Hn) as [Hst Hfin].
    apply wp_bind, wp_modify, wp_bind, (wp_load_fiber p f); [done|]. rewrite Hst. apply wp_bind.
    apply wp_check; [by apply bool_decide_true|]. apply wp_bind, wp_modify, wp_modify. split; [|done].
    apply (fiber_inv_code (set_fibers (delete p) (set_count (λ n, n - 1)%Z s))); try done.
    by apply (fiber_inv_delete p f).
  - apply (wp_update p f); [done|]. split; [|done]. apply fiber_inv_refs; [done|done|lia|lia].
Qed.

(** *** The main fiber *)
Definition main_fiber (refs : nat) : Fiber := mkFiber 0 0 EXEC Stale None false None refs.

(** The thread's first fiber has been created and is referred to by
    [t_threadFiber] and [refs] other pointers. *)
Definition with_main (refs : nat) (s : FiberState) : FiberState :=
  mkFiberState (<[fs_next s := main_fiber (S refs)]> (fs_fibers s)) (S (fs_next s)) (s_fiber_id s)
    (wrapU 64 (s_fiber_count s + 1)) (Some (fs_next s)) (Some (fs_next s)) (fs_control s)
    (fs_log s ++ ["Fiber::Fiber main_fiber id=0"]).

Lemma wp_create_main (Q : nat → FiberState → Prop) s : t_fiber s = None →
  Q (fs_next s) (with_main 1 s) → wp Fiber_GetThis Q s.
Proof.
  intros Ht HQ. unfold Fiber_GetThis. apply wp_bind, wp_get. rewrite Ht.
  apply wp_bind. unfold Fiber_new_main. apply wp_bind. unfold wp at 1, new_fiber.
  do 3 apply wp_bind, wp_modify. apply wp_ret, wp_bind, wp_get, wp_bind.
  apply wp_check; [by apply bool_decide_true|]. apply wp_bind, wp_modify, wp_bind.
  apply (wp_update _ (main_fiber 1)); [simpl; by rewrite lookup_insert_eq|]. apply wp_ret.
  unfold set_fibers, set_count, set_thread_fiber. simpl. by rewrite insert_insert_eq.
Qed.

Lemma fiber_inv_with_main refs s : fiber_inv s → t_fiber s = None → fiber_inv (with_main refs s).
Proof.
  intros [Hh Hc Hid Ht] Htf. destruct (t_threadFiber s) as [mf|] eqn:Hmf.
  { rewrite (to_this _ _ _ _ _ Ht) in Htf. done. }
  destruct Ht as (Hemp & _ & Hfr & Hcu). unfold with_main. rewrite Hemp. split; simpl.
  - rewrite Hcu. split.
    + intros p f [<- _]%lookup_singleton_Some. lia.
    + intros p f [_ <-]%lookup_singleton_Some. unfold internal. simpl. lia.
    + by intros p f [_ <-]%lookup_singleton_Some.
    + by intros p q f g [_ <-]%lookup_singleton_Some.
  - rewrite Hc, Hemp, map_size_insert_None, map_size_empty by done. done.
  - done.
  - rewrite Hfr, Hcu. split; try done.
    + exists (main_fiber (S refs)). rewrite lookup_insert_eq. split; [done|]. by split.
    + by intros p f [<- _]%lookup_singleton_Some ?.
    + by left.
Qed.

(** The current fiber exists once there is one. *)
Lemma this_fiber s p : fiber_inv s → t_fiber s = Some p → ∃ f, fs_fibers s !! p = Some f ∧ m_state f = EXEC.
Proof.
  intros [Hh Hc Hid Ht] Htf. destruct (t_threadFiber s) as [mf|]; [|destruct Ht as (_ & ? & _); congruence].
  destruct Ht as [(fm & Hm & Hmok) Hch Hth Hfr Hcu]. rewrite Htf in Hth. injection Hth as ->.
  destruct (ctl_frame (fs_control s)) as [q|]; simpl.
  - destruct (Hfr q eq_refl) as (_ & f & ? & ?). eauto.
  - exists fm. split; [done|apply Hmok].
Qed.

Lemma inv_GetThis s : fiber_inv s →
  wp Fiber_GetThis (λ p s', fiber_inv s' ∧ fs_control s' = fs_control s) s.
Proof.
  intros Hi. destruct (t_fiber s) as [p|] eqn:Htf.
  - destruct (this_fiber s p Hi Htf) as (f & Hp & _). unfold Fiber_GetThis. apply wp_bind, wp_get.
    rewrite Htf. apply wp_bind. eapply wp_mono; [|by apply (inv_share p f)].
    intros [] s' [Hi' ->]. by apply wp_ret.
  - apply wp_create_main; [done|]. split; [by apply fiber_inv_with_main|done].
Qed.

(** *** Creating a child *)
Lemma fiber_inv_bump z s : fiber_inv s → (s_fiber_id s ≤ z < 2 ^ 64)%Z →
  fiber_inv (mkFiberState (fs_fibers s) (fs_next s) z (s_fiber_count s) (t_fiber s) (t_threadFiber s)
    (fs_control s) (fs_log s)).
Proof.
  intros [[Hn Hr Hi Hj] Hc Hid Ht] Hz. split; simpl; [|done|lia|done].
  split; [done|done| |done]. intros p f Hp Hs. specialize (Hi p f Hp Hs). lia.
Qed.

(** A fresh child of the main fiber, made while the main fiber runs. *)
Lemma fiber_inv_child mf cb size id s : fiber_inv s → t_threadFiber s = Some mf →
  ctl_frame (fs_control s) = None → (s_fiber_id s < id < 2 ^ 64)%Z →
  fiber_inv (mkFiberState
    (<[fs_next s := mkFiber id size INIT Start (if uclink then Some mf else None) true (Some cb) 1]> (fs_fibers s)) (S (fs_next s)) id
    (wrapU 64 (s_fiber_count s + 1)) (t_fiber s) (t_threadFiber s) (fs_control s) (fs_log s)).
Proof.
  intros [[Hn Hr Hi Hj] Hc Hid Ht] Hmf Hfr Hidz. rewrite Hmf in Ht.
  destruct Ht as [(fm & Hm & Hmok) Hch Hth Hf Hcu].
  assert (fs_fibers s !! fs_next s = None) as Hnew.
  { destruct (fs_fibers s !! fs_next s) eqn:E; [|done]. apply Hn in E. lia. }
  set (f := mkFiber _ _ _ _ _ _ _ _). split; simpl.
  - split.
    + intros q g [[<- _]|[_ Hq%Hn]]%lookup_insert_Some; lia.
    + intros q g [[<- <-]|[_ Hq]]%lookup_insert_Some; [|eauto]. unfold internal. simpl. lia.
    + intros q g [[<- <-]|[_ Hq]]%lookup_insert_Some Hs; [simpl; lia|]. specialize (Hi q g Hq Hs). lia.
    + intros q r g g' [[<- <-]|[_ Hq]]%lookup_insert_Some [[<- <-]|[_ Hr']]%lookup_insert_Some Hs Hs' Heq;
        try done; [|  |by eauto]; simpl in Heq; exfalso.
      * specialize (Hi r g' Hr' Hs'). lia.
      * specialize (Hi q g Hq Hs). lia.
  - rewrite map_size_insert_None by done. rewrite Hc. unfold wrapU. rewrite Zplus_mod_idemp_l.
    f_equal. lia.
  - lia.
  - rewrite Hmf. assert (mf ≠ fs_next s) as Hne by (intros ->; congruence). split; try done.
    + exists fm. by rewrite lookup_insert_ne.
    + intros q g [[<- <-]|[_ Hq]]%lookup_insert_Some Hqm; [|by apply Hch].
      split; [done|done| |by intros [|]]. simpl. rewrite Hfr. done.
    + intros q Hq. congruence.
Qed.

Section new.
Context (stack_default : Z).

Lemma inv_Fiber_new cb size s : fiber_inv s → ctl_frame (fs_control s) = None →
  (s_fiber_id s + 1 < 2 ^ 64)%Z →
  wp (Fiber_new stack_default cb size) (λ p s', fiber_inv s' ∧ fs_control s' = fs_control s ∧
    ∃ f, fs_fibers s' !! p = Some f ∧ m_id f = (s_fiber_id s + 1)%Z ∧ m_state f = INIT ∧
      m_cb f = Some cb ∧ f_refs f = 1) s.
Proof.
  intros Hi Hfr Hid. pose proof (fi_id s Hi) as Hid0.
  assert (wrapU 64 (s_fiber_id s + 1) = (s_fiber_id s + 1)%Z) as Hw by (apply wrapU_small; lia).
  unfold Fiber_new. apply wp_bind, wp_modify, wp_bind, wp_gets, wp_bind, wp_gets. simpl. rewrite Hw.
  set (b := mkFiberState _ _ _ _ _ _ _ _). apply wp_bind.
  apply wp_mono with (λ _ s1, ∃ s0 mf, fiber_inv s0 ∧ t_threadFiber s0 = Some mf ∧ t_fiber s0 = Some mf ∧
    fs_control s0 = fs_control s ∧ s_fiber_id s0 = s_fiber_id s ∧
    s1 = mkFiberState (fs_fibers s0) (fs_next s0) (s_fiber_id s + 1)%Z (s_fiber_count s0) (t_fiber s0)
      (t_threadFiber s0) (fs_control s0) (fs_log s0)).
  - intros [] s1 (s0 & mf & Hi0 & Hmf & Ht0 & Hc0 & Hid1 & ->).
    apply wp_bind, wp_get. simpl. rewrite Hmf, Ht0.
    apply wp_bind, wp_check; [by apply bool_decide_true|].
    apply wp_bind, wp_check; [by apply bool_decide_true|]. apply wp_bind, wp_modify, wp_bind.
    unfold wp at 1, new_fiber. apply wp_bind, wp_modify, wp_ret. simpl. split_and!; [|done|].
    + set (size' := wrapU 32 _).
      assert (ctl_frame (fs_control s0) = None) as Hfr0 by congruence.
      pose proof (fiber_inv_child mf cb size' (s_fiber_id s + 1)%Z s0 Hi0 Hmf Hfr0 ltac:(lia)) as Hi1.
      apply (fiber_inv_code _ _ Hi1); simpl; congruence.
    + rewrite lookup_insert_eq. by eexists.
  - destruct (t_threadFiber s) as [mf|] eqn:Hmf.
    + apply wp_ret. exists s, mf. split_and!; try done; [|by subst b; rewrite Hmf].
      pose proof (fi_threads s Hi) as Ht. rewrite Hmf, Hfr in Ht. apply Ht.
    + pose proof (fi_threads s Hi) as Ht. rewrite Hmf in Ht. destruct Ht as (_ & Htf & _).
      apply wp_bind, wp_create_main; [done|].
      apply (wp_release_many _ (main_fiber 2) 0); [simpl; by rewrite lookup_insert_eq|done|].
      exists (with_main 0 s), (fs_next s). split_and!; try done; [by apply fiber_inv_with_main|].
      unfold set_fibers, with_main. simpl. by rewrite insert_insert_eq.
Qed.
End new.
End inv.
