(* ===== verification/FiberThm.v ===== *)
(** * Control transfer between fibers

    Exact effects of [swapIn], of the yield functions and of the end of a
    fiber, safety of well-behaved programs, and what goes wrong in others. *)
From S2P Require Import Prelude Fiber FiberInv.

(** The state after control went from [frame] to another control state,
    with only the main fiber and one child changed. *)
Record switched (mf p : nat) (fm f fm' f' : Fiber) (c : control) (s s' : FiberState) : Prop := {
  sw_heap : upd2 mf p fm f fm' f' (fs_fibers s) (fs_fibers s');
  sw_next : fs_next s' = fs_next s;
  sw_id : s_fiber_id s' = s_fiber_id s;
  sw_count : s_fiber_count s' = s_fiber_count s;
  sw_tf : t_threadFiber s' = Some mf;
  sw_this : t_fiber s' = Some (default mf (ctl_frame c));
  sw_control : fs_control s' = c;
}.

Section rules.
Context `{B : FiberBuild} (stack_default : Z).

(** Two fibers of a well-formed state. *)
Lemma main_and_child s p f : fiber_inv s → fs_fibers s !! p = Some f → m_stack f = true →
  ∃ mf fm, t_threadFiber s = Some mf ∧ fs_fibers s !! mf = Some fm ∧ p ≠ mf ∧
    main_ok (ctl_frame (fs_control s)) fm ∧ child_ok mf (ctl_frame (fs_control s)) p f.
Proof.
  intros Hi Hp Hst. pose proof (fi_threads s Hi) as Ht. destruct (t_threadFiber s) as [mf|].
  2: { destruct Ht as [Ht _]. by rewrite Ht, lookup_empty in Hp. }
  destruct Ht as [(fm & Hm & Hmok) Hch _ _ _].
  assert (p ≠ mf) as Hne.
  { intros ->. assert (f = fm) as -> by congruence. by rewrite (mo_stack _ _ Hmok) in Hst. }
  exists mf, fm. split_and!; auto.
Qed.

(** The main fiber while [k] is left to do in it. *)
Definition parked (k : code) (fm : Fiber) : Fiber := set_ctx (Cont (mkControl None None k)) fm.

(** What a fiber is when it has been entered or resumed, and the control
    state of its code. *)
Definition entered (f : Fiber) : Fiber :=
  let f' := set_ctx Stale (set_state EXEC f) in
  match m_state f with INIT => set_refs (S (f_refs f)) f' | _ => f' end.
Definition entry_control (p : nat) (f : Fiber) : control :=
  match m_ctx f with
  | Cont c => c
  | _ => mkControl (Some p) None (default Return (m_cb f))
  end.

Lemma entry_frame mf frame p f : child_ok mf frame p f → resumable (m_state f) →
  ctl_frame (entry_control p f) = Some p.
Proof.
  intros [_ _ Hst _] Hr. unfold entry_control.
  destruct Hr as [Hr|[Hr|Hr]]; rewrite Hr in Hst.
  - by destruct Hst as (-> & _).
  - by destruct Hst as ((k & ->) & _).
  - by destruct Hst as ((k & ->) & _).
Qed.

Lemma wp_swapIn p f k s : fiber_inv s → ctl_frame (fs_control s) = None →
  fs_fibers s !! p = Some f → m_stack f = true → resumable (m_state f) →
  wp (swapIn p k) (λ _ s', ∃ mf fm, fs_fibers s !! mf = Some fm ∧ main_ok None fm ∧
    child_ok mf None p f ∧ t_threadFiber s = Some mf ∧
    switched mf p fm f (parked k fm) (entered f) (entry_control p f) s s') s.
Proof.
  intros Hi Hfr Hp Hst Hr. destruct (main_and_child s p f Hi Hp Hst) as (mf & fm & Htf & Hm & Hne & Hmok & Hco).
  rewrite Hfr in Hmok, Hco. pose proof (entry_frame _ _ _ _ Hco Hr) as Hef.
  unfold swapIn. apply wp_bind, wp_modify, wp_bind, (wp_load_fiber p f); [done|].
  apply wp_bind, wp_check.
  { apply bool_decide_true. destruct Hr as [->|[->| ->]]; done. }
  apply wp_bind, (wp_update p f); [done|]. apply wp_bind, wp_gets. simpl. rewrite Htf.
  apply wp_bind. eapply wp_of_option; [done|]. unfold swapcontext. apply wp_bind, wp_gets. simpl. rewrite Hfr.
  apply wp_bind, (wp_update mf fm); [simpl; by rewrite lookup_insert_ne|]. unfold switch_to.
  set (s1 := set_fibers _ (set_fibers _ _)).
  assert (fs_fibers s1 !! p = Some (set_state EXEC f)) as Hp1
    by (simpl; by rewrite lookup_insert_ne, lookup_insert_eq).
  apply wp_bind, (wp_load_fiber p (set_state EXEC f)); [done|]. simpl.
  assert (∀ f' s2, fs_fibers s2 = <[p := f']> (fs_fibers s1) →
    upd2 mf p fm f (parked k fm) f' (fs_fibers s) (fs_fibers s2)) as Hu.
  { intros f' s2 Hs2. split; try done; rewrite Hs2.
    - simpl. by rewrite lookup_insert_ne, lookup_insert_eq.
    - by rewrite lookup_insert_eq.
    - intros q Hq Hqm. simpl. by rewrite !lookup_insert_ne. }
  pose proof Hco as [Hs Hlk Hstate _]. unfold entry_control, entered in *.
  destruct Hr as [Hr|Hr].
  - rewrite Hr in *. destruct Hstate as (Hctx & Hcb & _). rewrite Hctx in *.
    apply wp_bind, (wp_update p (set_state EXEC f)); [done|].
    unfold MainFunc_enter, Fiber_GetThis. apply wp_bind, wp_bind, wp_get. simpl. apply wp_bind.
    apply (wp_update p (set_ctx Stale (set_state EXEC f))); [simpl; by rewrite lookup_insert_eq|].
    apply wp_ret, wp_bind.
    apply (wp_load_fiber p (set_refs (S (f_refs f)) (set_ctx Stale (set_state EXEC f)))); [apply lookup_insert_eq|].
    apply wp_modify. exists mf, fm. split_and!; try done.
    split; try done; first [apply Hu; simpl; by rewrite insert_insert_eq|simpl; by destruct (m_cb f)].
  - assert (∃ k', m_ctx f = Cont (mkControl (Some p) (Some p) k')) as [k' Hctx].
    { destruct Hr as [Hr|Hr]; rewrite Hr in Hstate; apply Hstate. }
    rewrite Hctx. apply wp_bind, (wp_update p (set_state EXEC f)); [done|]. apply wp_modify.
    exists mf, fm. split_and!; try done.
    split; try done. apply Hu. simpl. by destruct Hr as [Hr|Hr]; rewrite Hr.
Qed.

(** The running child of a well-formed state and the code its main fiber
    goes on with. *)
Lemma running_child s p : fiber_inv s → ctl_frame (fs_control s) = Some p →
  ∃ mf fm f k0, t_threadFiber s = Some mf ∧ t_fiber s = Some p ∧ p ≠ mf ∧ fs_fibers s !! mf = Some fm ∧
    fs_fibers s !! p = Some f ∧ main_ok (Some p) fm ∧ child_ok mf (Some p) p f ∧ m_state f = EXEC ∧
    m_ctx fm = Cont (mkControl None None k0).
Proof.
  intros Hi Hfr. pose proof (fi_threads s Hi) as Ht. destruct (t_threadFiber s) as [mf|].
  2: { destruct Ht as (_ & _ & ? & _). congruence. }
  destruct Ht as [(fm & Hm & Hmok) Hch Hth Hf _]. rewrite Hfr in *.
  destruct (Hf p eq_refl) as (Hne & f & Hp & Hst). destruct (mo_ctx _ _ Hmok) as [k0 Hk0]; [done|].
  exists mf, fm, f, k0. split_and!; auto.
Qed.

(** Going back to the main fiber. *)
Definition resumed (fm : Fiber) : Fiber := set_ctx Stale fm.

Lemma wp_switch_to_main mf fm k0 (Q : unit → FiberState → Prop) s :
  fs_fibers s !! mf = Some fm → m_ctx fm = Cont (mkControl None None k0) →
  Q tt (set_control (mkControl None None k0) (set_fibers (<[mf := resumed fm]>) s)) →
  wp (switch_to mf) Q s.
Proof.
  intros Hm Hctx HQ. apply wp_bind, (wp_load_fiber mf fm); [done|]. rewrite Hctx.
  apply wp_bind, (wp_update mf fm); [done|]. by apply wp_modify.
Qed.

(** Swapping out to a main fiber that is parked. *)
Lemma wp_swapOut p g mf fm k0 cur k (Q : unit → FiberState → Prop) s :
  t_threadFiber s = Some mf → fs_fibers s !! p = Some g → fs_fibers s !! mf = Some fm → p ≠ mf →
  m_ctx fm = Cont (mkControl None None k0) →
  Q tt (mkFiberState
    (<[mf := resumed fm]> (<[p := set_ctx (Cont (mkControl (ctl_frame (fs_control s)) cur k)) g]> (fs_fibers s)))
    (fs_next s) (s_fiber_id s) (s_fiber_count s) (Some mf) (Some mf) (mkControl None None k0) (fs_log s)) →
  wp (swapOut p cur k) Q s.
Proof.
  intros Htf Hp Hm Hne Hctx HQ. unfold swapOut. apply wp_bind, wp_gets. rewrite Htf.
  apply wp_bind, wp_modify, wp_bind. eapply wp_of_option; [done|]. unfold swapcontext. apply wp_bind, wp_gets.
  simpl. apply wp_bind. apply (wp_update p g); [done|].
  apply (wp_switch_to_main mf fm k0); [simpl; by rewrite lookup_insert_ne|done|].
  unfold set_control, set_fibers. simpl. by rewrite Htf.
Qed.

Definition yielded (st : State) (k : code) (p : nat) (f : Fiber) : Fiber :=
  set_ctx (Cont (mkControl (Some p) (Some p) k)) (set_state st (set_refs (S (f_refs f)) f)).

Lemma wp_yield st p k s : fiber_inv s → ctl_frame (fs_control s) = Some p →
  wp (yield_as st k) (λ _ s', ∃ mf fm f k0, t_threadFiber s = Some mf ∧ main_ok (Some p) fm ∧
    child_ok mf (Some p) p f ∧ m_state f = EXEC ∧ m_ctx fm = Cont (mkControl None None k0) ∧
    switched mf p fm f (resumed fm) (yielded st k p f) (mkControl None None k0) s s') s.
Proof.
  intros Hi Hfr. destruct (running_child s p Hi Hfr) as (mf & fm & f & k0 & Htf & Hth & Hne & Hm & Hp & Hmok & Hco & Hst & Hctx).
  unfold yield_as, Fiber_GetThis. apply wp_bind, wp_bind, wp_get. rewrite Hth. apply wp_bind.
  apply (wp_update p f); [done|]. apply wp_ret, wp_bind.
  apply (wp_update p (set_refs (S (f_refs f)) f)); [simpl; by rewrite lookup_insert_eq|].
  apply (wp_swapOut p (set_state st (set_refs (S (f_refs f)) f)) mf fm k0);
    [done|simpl; by rewrite lookup_insert_eq|simpl; by rewrite !lookup_insert_ne|done|done|].
  exists mf, fm, f, k0. split_and!; try done. split; try done. simpl. rewrite Hfr. split; try done.
  - by rewrite lookup_insert_eq.
  - rewrite lookup_insert_ne by done. by rewrite lookup_insert_eq.
  - intros q Hq Hqm. by rewrite !lookup_insert_ne.
Qed.

(** The end of a fiber's function. *)
Definition finish (ex : option exn) (f : Fiber) : Fiber :=
  match ex with None => set_state TERM (set_cb None f) | Some _ => set_state EXCEP f end.
Definition ended (ex : option exn) (p : nat) (f : Fiber) : Fiber :=
  let f' := set_refs (pred (f_refs f)) (finish ex f) in
  if uclink then f' else set_ctx (Cont (mkControl (Some p) None Never)) f'.

Lemma finish_kept ex f : f_refs (finish ex f) = f_refs f ∧ m_link (finish ex f) = m_link f ∧
  m_stack (finish ex f) = m_stack f ∧ m_id (finish ex f) = m_id f.
Proof. by destruct ex. Qed.

Lemma wp_leave ex p f s : fiber_inv s → ctl_frame (fs_control s) = Some p →
  fs_fibers s !! p = Some f → 2 ≤ f_refs f →
  wp (MainFunc_leave p ex) (λ _ s', ∃ mf fm k0, t_threadFiber s = Some mf ∧ main_ok (Some p) fm ∧
    child_ok mf (Some p) p f ∧ m_ctx fm = Cont (mkControl None None k0) ∧
    switched mf p fm f (resumed fm) (ended ex p f) (mkControl None None k0) s s') s.
Proof.
  intros Hi Hfr Hp Href.
  destruct (running_child s p Hi Hfr) as (mf & fm & f0 & k0 & Htf & Hth & Hne & Hm & Hp0 & Hmok & Hco & Hst & Hctx).
  assert (f0 = f) as -> by congruence. unfold MainFunc_leave. apply wp_bind.
  apply wp_mono with (λ _ s1, ∃ lg, s1 = mkFiberState (<[p := finish ex f]> (fs_fibers s)) (fs_next s)
    (s_fiber_id s) (s_fiber_count s) (t_fiber s) (t_threadFiber s) (fs_control s) lg).
  2: { destruct ex as [[what|]|]; [apply wp_bind..|]; apply (wp_update p f); try done;
         [apply wp_modify|apply wp_modify|]; eexists; reflexivity. }
  intros [] s1 [lg ->]. destruct (finish_kept ex f) as (Hrg & Hlg & _). rewrite (co_link _ _ _ _ Hco) in Hlg.
  unfold ended. destruct (f_refs f) as [|[|n]] eqn:Hn; [lia..|]. simpl. destruct uclink.
  - apply wp_bind, wp_gets. simpl. rewrite Htf. apply wp_bind, wp_modify, wp_bind.
    apply (wp_load_fiber p (finish ex f)); [simpl; by rewrite lookup_insert_eq|]. apply wp_bind.
    apply (wp_release_many p (finish ex f) n); [simpl; by rewrite lookup_insert_eq|done|].
    rewrite decide_False by lia. apply wp_bind. eapply wp_of_option; [exact Hlg|].
    apply (wp_switch_to_main mf fm k0); [simpl; by rewrite !lookup_insert_ne|done|].
    exists mf, fm, k0. split_and!; try done. split; try done. simpl. split; try done.
    + by rewrite lookup_insert_eq.
    + by rewrite lookup_insert_ne, lookup_insert_eq.
    + intros q Hq Hqm. by rewrite !lookup_insert_ne.
  - apply wp_bind. apply (wp_release_many p (finish ex f) n); [simpl; by rewrite lookup_insert_eq|done|].
    apply (wp_swapOut p (set_refs (S n) (finish ex f)) mf fm k0 None Never);
      [done|simpl; by rewrite lookup_insert_eq|simpl; by rewrite !lookup_insert_ne|done|done|].
    exists mf, fm, k0. split_and!; try done. split; try done. simpl. rewrite Hfr. split; try done.
    + by rewrite lookup_insert_eq.
    + by rewrite lookup_insert_ne, lookup_insert_eq.
    + intros q Hq Hqm. by rewrite !lookup_insert_ne.
Qed.

(** *** The invariant after a transfer *)
Lemma inv_swapIn p f k s : fiber_inv s → ctl_frame (fs_control s) = None → ctl_cur (fs_control s) = None →
  fs_fibers s !! p = Some f → m_stack f = true → resumable (m_state f) →
  wp (swapIn p k) (λ _, fiber_inv) s.
Proof.
  intros Hi Hfr Hcu Hp Hst Hr. eapply wp_mono; [|by apply (wp_swapIn p f)].
  intros [] s' (mf & fm & Hm & Hmok & Hco & Htf & Hsw).
  pose proof (entry_frame _ _ _ _ Hco Hr) as Hef.
  destruct (ho_refs _ _ _ _ (fi_heap s Hi) p f Hp) as [Hint Href].
  pose proof (sw_this _ _ _ _ _ _ _ _ _ Hsw) as Hthis. rewrite Hef in Hthis.
  assert (ctl_cur (entry_control p f) = None ∧ m_state f = INIT ∨ ctl_cur (entry_control p f) = Some p ∧
    (m_state f = HOLD ∨ m_state f = READY)) as Hcase.
  { unfold entry_control. destruct Hco as [_ _ Hs _]. destruct Hr as [Hr|Hr]; [left|right].
    - rewrite Hr in Hs. by destruct Hs as (-> & _).
    - destruct Hr as [Hr|Hr]; rewrite Hr in Hs; destruct Hs as [[k' ->] _]; auto. }
  eapply (fiber_inv_switch mf p fm f _ _ (Some p) (ctl_cur (entry_control p f)) s s');
    try (apply Hsw || done).
  - intros q Hq. rewrite Hfr. split; congruence.
  - intros q Hq. rewrite Hcu. destruct Hcase as [[-> _]|[-> _]]; split; congruence.
  - destruct Hcase as [[-> _]|[-> _]]; auto.
  - by rewrite (sw_control _ _ _ _ _ _ _ _ _ Hsw).
  - by rewrite (sw_control _ _ _ _ _ _ _ _ _ Hsw).
  - destruct Hmok. split; try done. intros _. by eexists.
  - destruct Hco. unfold entered. destruct Hcase as [[_ E]|[_ [E|E]]]; rewrite E; (split; [done..|by intros [|]]).
  - unfold entered. by destruct (m_state f).
  - unfold entered, internal in *. rewrite Hst in *.
    destruct Hcase as [[E0 E]|[E0 [E|E]]]; rewrite E, ?E0 in *; simpl; rewrite Hst; simpl;
      repeat case_decide; simplify_eq; lia.
Qed.

(** Both ways back to the main fiber. *)
Lemma inv_back mf p fm f f' k0 s s' : fiber_inv s → ctl_frame (fs_control s) = Some p →
  ctl_cur (fs_control s) = None → t_threadFiber s = Some mf → main_ok (Some p) fm →
  switched mf p fm f (resumed fm) f' (mkControl None None k0) s s' →
  child_ok mf None p f' → m_id f' = m_id f → internal None p f' ≤ f_refs f' ∧ 1 ≤ f_refs f' →
  fiber_inv s'.
Proof.
  intros Hi Hfr Hcu Htf Hmok Hsw Hco Hid Href.
  eapply (fiber_inv_switch mf p fm f _ f' None None s s'); try (apply Hsw || done).
  - intros q Hq. rewrite Hfr. split; congruence.
  - intros q Hq. by rewrite Hcu.
  - by left.
  - by rewrite (sw_control _ _ _ _ _ _ _ _ _ Hsw).
  - by rewrite (sw_control _ _ _ _ _ _ _ _ _ Hsw).
  - by destruct Hmok.
Qed.

Lemma inv_yield st p k s : st = HOLD ∨ st = READY → fiber_inv s → ctl_frame (fs_control s) = Some p →
  ctl_cur (fs_control s) = None → wp (yield_as st k) (λ _, fiber_inv) s.
Proof.
  intros Hst Hi Hfr Hcu. eapply wp_mono; [|by apply (wp_yield st p)].
  intros [] s' (mf & fm & f & k0 & Htf & Hmok & Hco & Hex & Hctx & Hsw).
  pose proof (u2_child _ _ _ _ _ _ _ _ (sw_heap _ _ _ _ _ _ _ _ _ Hsw)) as Hp.
  destruct (ho_refs _ _ _ _ (fi_heap s Hi) p f Hp) as [Hint Href]. destruct Hco as [Hs Hl _ _].
  eapply (inv_back mf p fm f); try done.
  - split; [done|done| |]; simpl; [|by destruct Hst as [->| ->]; intros [|]].
    destruct Hst as [->| ->]; (split; [by eexists|done]).
  - unfold internal in *. rewrite Hs, Hex, Hcu in Hint. rewrite decide_False in Hint by done. simpl.
    rewrite Hs. destruct Hst as [->| ->]; simpl; lia.
Qed.

Lemma inv_leave ex p s : fiber_inv s → ctl_frame (fs_control s) = Some p → ctl_cur (fs_control s) = None →
  owns s p → wp (MainFunc_leave p ex) (λ _, fiber_inv) s.
Proof.
  intros Hi Hfr Hcu (f & Hp & Hown).
  destruct (running_child s p Hi Hfr) as (_ & _ & f0 & _ & _ & _ & _ & _ & Hp0 & _ & [Hs _ _ _] & Hex & _).
  assert (f0 = f) as -> by congruence. unfold internal in Hown. rewrite Hs, Hex, Hcu in Hown.
  rewrite decide_False in Hown by done.
  eapply wp_mono; [|apply (wp_leave ex p f); [done..|lia]].
  intros [] s' (mf & fm & k0 & Htf & Hmok & Hco & Hctx & Hsw). destruct Hco as [_ Hl Hx _].
  rewrite Hex in Hx. destruct Hx as [Hstale _].
  eapply (inv_back mf p fm f); try done; unfold ended, finish, internal; destruct uclink eqn:Hu.
  - destruct ex; (split; [done|by rewrite Hu|done|]); intros _; by rewrite Hu.
  - destruct ex; (split; [done|by rewrite Hu|done|]); intros _; by rewrite Hu.
  - by destruct ex.
  - by destruct ex.
  - destruct ex; simpl; rewrite Hs; simpl; lia.
  - destruct ex; simpl; rewrite Hs; simpl; lia.
Qed.

Lemma finished_not_running mf frame p f : child_ok mf frame p f → finished (m_state f) → frame ≠ Some p.
Proof. intros [_ _ Hs _] [E|[E|E]]; rewrite E in Hs; intuition. Qed.

(** A change of one child while control stays where it is. *)
Lemma inv_local mf p fm f f' cur' s s' : fiber_inv s → t_threadFiber s = Some mf →
  fs_fibers s !! mf = Some fm → fs_fibers s !! p = Some f → p ≠ mf →
  main_ok (ctl_frame (fs_control s)) fm →
  (∀ q, q ≠ p → cur' = Some q ↔ ctl_cur (fs_control s) = Some q) →
  cur' = None ∨ cur' = ctl_frame (fs_control s) →
  s' = set_control (mkControl (ctl_frame (fs_control s)) cur' (ctl_code (fs_control s')))
         (set_fibers (<[p := f']>) s) →
  child_ok mf (ctl_frame (fs_control s)) p f' → m_id f' = m_id f →
  internal cur' p f' ≤ f_refs f' ∧ 1 ≤ f_refs f' → fiber_inv s'.
Proof.
  intros Hi Htf Hm Hp Hne Hmok Hcu Hcu' Hs' Hco Hid Href.
  pose proof (fi_threads s Hi) as Ht. rewrite Htf in Ht.
  eapply (fiber_inv_switch mf p fm f fm f' (ctl_frame (fs_control s)) cur' s s'); try done; rewrite Hs'; try done.
  - split; try done; simpl; [by rewrite lookup_insert_ne|by rewrite lookup_insert_eq|].
    intros q Hq _. by rewrite lookup_insert_ne.
  - simpl. apply Ht.
Qed.

Definition renewed (mf : nat) (cb : code) (f : Fiber) : Fiber :=
  set_state INIT (set_ctx Start (set_link (if uclink then Some mf else None) (set_cb (Some cb) f))).

Lemma wp_reset p f mf cb (Q : unit → FiberState → Prop) s :
  fs_fibers s !! p = Some f → m_stack f = true → finished (m_state f) → t_threadFiber s = Some mf →
  Q tt (set_fibers (<[p := renewed mf cb f]>) s) → wp (Fiber_reset p cb) Q s.
Proof.
  intros Hp Hst Hfin Htf HQ. unfold Fiber_reset, renewed in *. apply wp_bind, (wp_load_fiber p f); [done|].
  apply wp_bind, wp_check; [done|]. apply wp_bind, wp_check; [by apply bool_decide_true|]. apply wp_bind.
  destruct uclink; [|by apply wp_ret, (wp_update p f)].
  apply wp_bind, wp_gets, wp_bind. rewrite Htf. eapply wp_of_option; [done|].
  by apply wp_ret, (wp_update p f).
Qed.

Lemma inv_reset p cb k s : fiber_inv s → ctl_cur (fs_control s) = None →
  (∃ f, fs_fibers s !! p = Some f ∧ m_stack f = true ∧ finished (m_state f)) →
  wp (Fiber_reset p cb;; continue_with k) (λ _, fiber_inv) s.
Proof.
  intros Hi Hcu (f & Hp & Hst & Hfin).
  destruct (main_and_child s p f Hi Hp Hst) as (mf & fm & Htf & Hm & Hne & Hmok & Hco).
  apply wp_bind, (wp_reset p f mf); [done..|]. apply wp_continue.
  destruct (ho_refs _ _ _ _ (fi_heap s Hi) p f Hp) as [_ Href].
  eapply (inv_local mf p fm f _ None s); try done.
  - intros q Hq. by rewrite Hcu.
  - by left.
  - split; [done|done| |by intros [|]]. simpl. split_and!; [done..|]. by eapply finished_not_running.
  - unfold internal. simpl. rewrite Hst. simpl. lia.
Qed.

(** The local [cur] of a yield function dies after the fiber is resumed. *)
Lemma cur_is_frame s p : fiber_inv s → ctl_cur (fs_control s) = Some p → ctl_frame (fs_control s) = Some p.
Proof.
  intros Hi Hcu. pose proof (fi_threads s Hi) as Ht. destruct (t_threadFiber s).
  - destruct (to_cur _ _ _ _ _ Ht) as [E|E]; congruence.
  - destruct Ht as (_ & _ & _ & E). congruence.
Qed.

Lemma inv_end_yield p k s : fiber_inv s → ctl_cur (fs_control s) = Some p →
  wp (release p;; continue_with k) (λ _, fiber_inv) s.
Proof.
  intros Hi Hcu. pose proof (cur_is_frame s p Hi Hcu) as Hfr.
  destruct (running_child s p Hi Hfr) as (mf & fm & f & k0 & Htf & _ & Hne & Hm & Hp & Hmok & Hco & Hex & _).
  destruct (ho_refs _ _ _ _ (fi_heap s Hi) p f Hp) as [Hint _].
  assert (m_stack f = true) as Hst by apply Hco.
  unfold internal in Hint. rewrite Hst, Hex, Hcu, decide_True in Hint by done.
  destruct (f_refs f) as [|[|n]] eqn:Hn; [lia..|]. apply wp_bind.
  apply (wp_release_many p f n); [done..|]. apply wp_continue.
  eapply (inv_local mf p fm f (set_refs (S n) f) None s); try done.
  - by rewrite Hfr.
  - intros q Hq. rewrite Hcu. split; congruence.
  - by left.
  - rewrite Hfr. by destruct Hco.
  - unfold internal. simpl. rewrite Hst, Hex. simpl. lia.
Qed.

(** *** The running fiber has an owner

    The machine's own pointers to a running fiber die on its stack; what
    keeps that stack alive is a pointer of the program. *)
Definition running_owned s : Prop := ∀ p, ctl_frame (fs_control s) = Some p → owns s p.

Lemma running_none s : ctl_frame (fs_control s) = None → running_owned s.
Proof. intros E p Hp. congruence. Qed.

Lemma running_same s s' : running_owned s → fs_control s' = fs_control s →
  (∀ p f, ctl_frame (fs_control s) = Some p → fs_fibers s !! p = Some f →
     ∃ f', fs_fibers s' !! p = Some f' ∧ m_state f' = m_state f ∧ m_stack f' = m_stack f ∧ f_refs f ≤ f_refs f') →
  running_owned s'.
Proof.
  intros Ho Ec Hf p. rewrite Ec. intros Hp. destruct (Ho p Hp) as (f & Hl & Hown).
  destruct (Hf p f Hp Hl) as (f' & Hl' & Es & Et & Hle). exists f'. split; [done|].
  rewrite Ec. unfold internal in *. rewrite Es, Et. lia.
Qed.

(** It has two pointers to it while no yield is pending. *)
Lemma running_refs s p f : fiber_inv s → running_owned s → ctl_cur (fs_control s) = None →
  ctl_frame (fs_control s) = Some p → fs_fibers s !! p = Some f → 2 ≤ f_refs f.
Proof.
  intros Hi Ho Hcu Hfr Hp. destruct (Ho p Hfr) as (f0 & Hp0 & Hown). assert (f0 = f) as -> by congruence.
  destruct (running_child s p Hi Hfr) as (_ & _ & f0 & _ & _ & _ & _ & _ & Hp1 & _ & [Hs _ _ _] & Hex & _).
  assert (f0 = f) as -> by congruence. unfold internal in Hown. rewrite Hs, Hex, Hcu, decide_False in Hown by done. lia.
Qed.

Lemma running_continue k s : running_owned s → ctl_cur (fs_control s) = None →
  wp (continue_with k) (λ _, running_owned) s.
Proof.
  intros Ho Hc. apply wp_continue. intros p Hp. destruct (Ho p Hp) as (f & Hf & Hown).
  exists f. split; [done|]. by rewrite Hc in Hown.
Qed.

(** Changes of other fibers, and more pointers. *)
Lemma running_insert q f n s : running_owned s → fs_fibers s !! q = Some f → f_refs f ≤ n →
  running_owned (set_fibers (<[q := set_refs n f]>) s).
Proof.
  intros Ho Hq Hn. apply (running_same s); [done..|]. intros p g Hp Hg. simpl.
  destruct (decide (q = p)) as [->|Hne]; [|exists g; by rewrite lookup_insert_ne].
  exists (set_refs n f). rewrite lookup_insert_eq. assert (g = f) as -> by congruence. done.
Qed.

Lemma running_GetThis s : fiber_inv s → running_owned s →
  wp Fiber_GetThis (λ _ s', running_owned s' ∧ fs_control s' = fs_control s) s.
Proof.
  intros Hi Ho. destruct (t_fiber s) as [q|] eqn:Htf.
  - destruct (this_fiber s q Hi Htf) as (g & Hq & _). unfold Fiber_GetThis. apply wp_bind, wp_get.
    rewrite Htf. apply wp_bind, (wp_update q g); [done|]. apply wp_ret. split; [|done].
    apply running_insert; [done..|lia].
  - apply wp_create_main; [done|]. split; [|done]. apply running_none. simpl.
    pose proof (fi_threads s Hi) as Ht. destruct (t_threadFiber s); [|apply Ht].
    rewrite (to_this _ _ _ _ _ Ht) in Htf. done.
Qed.

Lemma running_release q s : fiber_inv s → running_owned s → owns s q →
  (ctl_frame (fs_control s) = Some q → owns_more 1 s q) →
  wp (release q) (λ _ s', running_owned s' ∧ fs_control s' = fs_control s) s.
Proof.
  intros Hi Ho (g & Hq & Hown) Hself. apply wp_bind, (wp_load_fiber q g); [done|].
  assert (ctl_frame (fs_control s) = Some q → internal (ctl_cur (fs_control s)) q g + 1 < f_refs g) as Hmore.
  { intros Hfr. destruct (Hself Hfr) as (g' & Hg' & ?). by assert (g' = g) as -> by congruence. }
  destruct (f_refs g) as [|[|n]] eqn:Hn; [lia| |].
  - rewrite <-Hn in Hown. destruct (last_pointer _ q g Hown Hn) as [Hst Hfin].
    apply wp_bind, wp_modify, wp_bind, (wp_load_fiber q g); [done|]. rewrite Hst. apply wp_bind.
    apply wp_check; [by apply bool_decide_true|]. apply wp_bind, wp_modify, wp_modify. split; [|done].
    apply (running_same s); [done..|]. intros p f Hp Hf. exists f. simpl.
    rewrite lookup_delete_ne; [done|]. intros <-. specialize (Hmore Hp). lia.
  - apply (wp_update q g); [done|]. split; [|done]. intros p Hp. simpl in Hp.
    destruct (decide (q = p)) as [<-|Hne].
    + exists (set_refs (S n) g). simpl. rewrite lookup_insert_eq. split; [done|].
      specialize (Hmore Hp). unfold internal in *. simpl. lia.
    + destruct (Ho p Hp) as (f & Hf & ?). exists f. simpl. by rewrite lookup_insert_ne.
Qed.

Lemma running_swapIn p f k s : fiber_inv s → ctl_frame (fs_control s) = None → ctl_cur (fs_control s) = None →
  fs_fibers s !! p = Some f → m_stack f = true → resumable (m_state f) → owns s p →
  wp (swapIn p k) (λ _, running_owned) s.
Proof.
  intros Hi Hfr Hcu Hp Hst Hr (f0 & Hp0 & Hown). assert (f0 = f) as -> by congruence.
  eapply wp_mono; [|by apply (wp_swapIn p f)].
  intros [] s' (mf & fm & Hm & Hmok & Hco & Htf & Hsw) q. rewrite (sw_control _ _ _ _ _ _ _ _ _ Hsw).
  rewrite (entry_frame _ _ _ _ Hco Hr). intros [= <-]. exists (entered f).
  split; [apply (u2_child' _ _ _ _ _ _ _ _ (sw_heap _ _ _ _ _ _ _ _ _ Hsw))|].
  rewrite (sw_control _ _ _ _ _ _ _ _ _ Hsw). unfold internal, entered, entry_control in *. rewrite Hst in *.
  destruct Hco as [_ _ Hs _]. destruct Hr as [Hr|[Hr|Hr]]; rewrite Hr in *; simpl; rewrite Hst; simpl.
  - destruct Hs as (-> & _). simpl. lia.
  - destruct Hs as [[k' ->] _]. simpl. rewrite decide_True by done. lia.
  - destruct Hs as [[k' ->] _]. simpl. rewrite decide_True by done. lia.
Qed.

Lemma running_back (m : M FiberState unit) s : wp m (λ _ s', ctl_frame (fs_control s') = None) s →
  wp (m;; mret true) (λ _, running_owned) s.
Proof. intros Hm. apply wp_bind. eapply wp_mono; [|exact Hm]. intros [] s' E. by apply wp_ret, running_none. Qed.

Lemma running_yield st k s : fiber_inv s → ctl_frame (fs_control s) ≠ None →
  wp (yield_as st k;; mret true) (λ _, running_owned) s.
Proof.
  intros Hi Hsome. destruct (ctl_frame (fs_control s)) as [p|] eqn:Hfr; [|done]. apply running_back.
  eapply wp_mono; [|by apply (wp_yield st p)]. intros [] s' (mf & fm & f & k0 & _ & _ & _ & _ & _ & Hsw).
  by rewrite (sw_control _ _ _ _ _ _ _ _ _ Hsw).
Qed.

Lemma running_leave ex p s : fiber_inv s → running_owned s → ctl_cur (fs_control s) = None →
  ctl_frame (fs_control s) = Some p → wp (MainFunc_leave p ex;; mret true) (λ _, running_owned) s.
Proof.
  intros Hi Ho Hcu Hfr. apply running_back.
  destruct (running_child s p Hi Hfr) as (_ & _ & f & _ & _ & _ & _ & _ & Hp & _ & [Hs _ _ _] & Hex & _).
  eapply wp_mono; [|apply (wp_leave ex p f); [done..|]].
  - intros [] s' (mf & fm & k0 & _ & _ & _ & _ & Hsw). by rewrite (sw_control _ _ _ _ _ _ _ _ _ Hsw).
  - by apply (running_refs s p).
Qed.

Lemma running_end_yield p k s : fiber_inv s → running_owned s → ctl_cur (fs_control s) = Some p →
  wp (release p;; continue_with k) (λ _, running_owned) s.
Proof.
  intros Hi Ho Hcu. pose proof (cur_is_frame s p Hi Hcu) as Hfr. destruct (Ho p Hfr) as (f & Hp & Hown).
  destruct (running_child s p Hi Hfr) as (_ & _ & f0 & _ & _ & _ & _ & _ & Hp0 & _ & [Hst _ _ _] & Hex & _).
  assert (f0 = f) as -> by congruence. unfold internal in Hown. rewrite Hst, Hex, Hcu, decide_True in Hown by done.
  destruct (f_refs f) as [|[|n]] eqn:Hn; [lia..|]. apply wp_bind, (wp_release_many p f n); [done..|].
  apply wp_continue. intros q. simpl. rewrite Hfr. intros [= <-]. exists (set_refs (S n) f). simpl.
  rewrite lookup_insert_eq. split; [done|]. unfold internal. simpl. rewrite Hst, Hex. simpl. lia.
Qed.

Lemma wp_GetFiberId s (Q : Z → FiberState → Prop) : fiber_inv s → (∀ id, Q id s) → wp Fiber_GetFiberId Q s.
Proof.
  intros Hi HQ. unfold Fiber_GetFiberId. apply wp_bind, wp_get. destruct (t_fiber s) as [p|] eqn:Htf; [|by apply wp_ret].
  destruct (this_fiber s p Hi Htf) as (f & Hp & _). apply wp_bind, (wp_load_fiber p f); [done|]. by apply wp_ret.
Qed.

(** *** Polite calls *)
Lemma inv_step s : fiber_inv s → running_owned s → polite s → wp (step stack_default) (λ _, fiber_inv) s.
Proof.
  intros Hi Ho Hpol. unfold step. apply wp_bind, wp_gets. unfold polite in Hpol.
  destruct (ctl_cur (fs_control s)) as [p|] eqn:Hcu; [by apply inv_end_yield|].
  specialize (Hpol eq_refl).
  destruct (ctl_code (fs_control s)) as [|e|cb size k|p k|k|k|p cb k|k|p k|k|k|].
  - destruct (ctl_frame (fs_control s)) as [p|] eqn:Hfr; [|by apply wp_ret].
    apply wp_bind. eapply wp_mono; [|apply (inv_leave None p); auto]. intros [] s' ?. by apply wp_ret.
  - destruct (ctl_frame (fs_control s)) as [p|] eqn:Hfr; [|done].
    apply wp_bind. eapply wp_mono; [|apply (inv_leave (Some e) p); auto]. intros [] s' ?. by apply wp_ret.
  - destruct Hpol as [Hfr Hid]. apply wp_bind. eapply wp_mono; [|by apply inv_Fiber_new].
    intros p s' (Hi' & Hc & _). apply inv_continue; [done|congruence].
  - destruct Hpol as (Hfr & _ & f & Hp & Hst & Hr). apply wp_bind.
    eapply wp_mono; [|by apply (inv_swapIn p f)]. intros [] s' ?. by apply wp_ret.
  - destruct (ctl_frame (fs_control s)) as [p|] eqn:Hfr; [|done]. apply wp_bind.
    eapply wp_mono; [|apply (inv_yield READY p); auto]. intros [] s' ?. by apply wp_ret.
  - destruct (ctl_frame (fs_control s)) as [p|] eqn:Hfr; [|done]. apply wp_bind.
    eapply wp_mono; [|apply (inv_yield HOLD p); auto]. intros [] s' ?. by apply wp_ret.
  - by apply inv_reset.
  - apply wp_bind. eapply wp_mono; [|by apply inv_GetThis]. intros p s' [Hi' Hc].
    apply inv_continue; [done|congruence].
  - destruct Hpol as [Hown _]. apply wp_bind. eapply wp_mono; [|by apply inv_release]. intros [] s' [Hi' Hc].
    apply inv_continue; [done|congruence].
  - apply wp_bind, (wp_GetFiberId s); [done|]. intros id. by apply inv_continue.
  - apply wp_bind, wp_gets. by apply inv_continue.
  - done.
Qed.

Lemma running_step s : fiber_inv s → running_owned s → polite s → wp (step stack_default) (λ _, running_owned) s.
Proof.
  intros Hi Ho Hpol. unfold step. apply wp_bind, wp_gets. unfold polite in Hpol.
  destruct (ctl_cur (fs_control s)) as [p|] eqn:Hcu; [by apply running_end_yield|].
  specialize (Hpol eq_refl).
  destruct (ctl_code (fs_control s)) as [|e|cb size k|p k|k|k|p cb k|k|p k|k|k|].
  - destruct (ctl_frame (fs_control s)) as [p|] eqn:Hfr; [|by apply wp_ret]. by apply running_leave.
  - destruct (ctl_frame (fs_control s)) as [p|] eqn:Hfr; [|done]. by apply running_leave.
  - destruct Hpol as [Hfr Hid]. apply wp_bind. eapply wp_mono; [|by apply inv_Fiber_new].
    intros p s' (_ & Hc & _). apply wp_continue, running_none. simpl. congruence.
  - destruct Hpol as (Hfr & Hown & f & Hp & Hst & Hr). apply wp_bind.
    eapply wp_mono; [|by apply (running_swapIn p f)]. intros [] s' ?. by apply wp_ret.
  - by apply running_yield.
  - by apply running_yield.
  - destruct Hpol as (f & Hp & Hst & Hfin).
    destruct (main_and_child s p f Hi Hp Hst) as (mf & fm & Htf & _ & _ & _ & Hco).
    apply wp_bind, (wp_reset p f mf); [done..|]. apply running_continue; [|done].
    apply (running_same s); [done..|]. intros q g Hq Hg. exists g. simpl. rewrite lookup_insert_ne; [done|].
    intros <-. by destruct (finished_not_running _ _ _ _ Hco Hfin).
  - apply wp_bind. eapply wp_mono; [|by apply running_GetThis]. intros p s' [Ho' Hc].
    apply running_continue; [done|congruence].
  - destruct Hpol as [Hown Hself]. apply wp_bind. eapply wp_mono; [|by apply running_release].
    intros [] s' [Ho' Hc]. apply running_continue; [done|congruence].
  - apply wp_bind, (wp_GetFiberId s); [done|]. intros id. by apply running_continue.
  - apply wp_bind, wp_gets. by apply running_continue.
  - done.
Qed.

Lemma inv_start c : fiber_inv (thread_start c).
Proof.
  split; simpl; [|done|done|done].
  split; intros p; intros; by match goal with H : ∅ !! _ = Some _ |- _ => rewrite lookup_empty in H end.
Qed.

(** Polite executions. *)
Inductive fiber_trans (s : FiberState) : FiberState → Prop :=
| fiber_trans_step b s' : polite s → step stack_default s = Ret b s' → fiber_trans s s'.

Definition fiber_reach (c : code) (s : FiberState) : Prop := rtc fiber_trans (thread_start c) s.

Lemma fiber_reach_both c s : fiber_reach c s → fiber_inv s ∧ running_owned s.
Proof.
  unfold fiber_reach. intros Hr. assert (fiber_inv (thread_start c) ∧ running_owned (thread_start c)) as Hi.
  { split; [apply inv_start|by apply running_none]. }
  revert Hi. induction Hr as [|s1 s2 s3 [b s' Hp Hs] _ IH]; [done|]. intros [Hi Ho]. apply IH.
  pose proof (wp_and _ _ _ _ (inv_step s1 Hi Ho Hp) (running_step s1 Hi Ho Hp)) as Hw.
  unfold wp in Hw. by rewrite Hs in Hw.
Qed.

Lemma fiber_reach_inv c s : fiber_reach c s → fiber_inv s.
Proof. intros Hr. by apply (fiber_reach_both c s). Qed.
End rules.
