(* ===== verification/FiberSpec.v ===== *)
(** * Properties of fibers *)
From S2P Require Import Prelude Fiber FiberInv FiberThm.

Section spec.
Context `{B : FiberBuild} (stack_default : Z).

(** C4. Programs that follow the rules of the class are safe.  The rules,
    call by call ([polite]): fibers are created by the main fiber, and
    fewer than 2^64 of them; a fiber is swapped in by the main fiber,
    through a shared pointer the program owns, and has not finished; only
    child fibers yield and throw; a fiber that is reset is a child that
    has finished or not started; a shared pointer is given up by its
    owner, and a running fiber does not give up the last pointer the
    program has to itself.  In every state reached by such calls the next
    one does not fail an assertion, use a dangling pointer or a context
    twice, or, at the end of a fiber's function, free the stack it runs
    on; and the invariant holds again. *)
Theorem fiber_safe c s : fiber_reach stack_default c s → polite s →
  wp (step stack_default) (λ _, fiber_inv) s.
Proof. intros [Hi Ho]%fiber_reach_both Hp. by apply inv_step. Qed.

(** C22. In every state a thread reaches by calls that follow the rules of
    C4 (a nested [swapIn], for one, does not), states, counters and
    identifiers agree with what is running: the only fiber in state EXEC
    besides the main fiber is the one whose code runs, [GetThis] refers to
    it, [TotalFibers] is the number of live fibers, and fibers have distinct
    identifiers. *)
Theorem fiber_state_consistent c s : fiber_reach stack_default c s →
  (∀ p f, fs_fibers s !! p = Some f → m_stack f = true →
     m_state f = EXEC ↔ ctl_frame (fs_control s) = Some p) ∧
  (∀ p, ctl_frame (fs_control s) = Some p → t_fiber s = Some p) ∧
  s_fiber_count s = wrapU 64 (Z.of_nat (size (fs_fibers s))) ∧
  (∀ p q f g, fs_fibers s !! p = Some f → fs_fibers s !! q = Some g → m_stack f = true →
     m_stack g = true → m_id f = m_id g → p = q).
Proof.
  intros Hr. pose proof (fiber_reach_inv _ _ _ Hr) as Hi. split_and!; [| |apply Hi|apply Hi].
  - intros p f Hp Hst. destruct (main_and_child s p f Hi Hp Hst) as (_ & _ & _ & _ & _ & _ & [_ _ Hs _]).
    split; [intros E; rewrite E in Hs; apply Hs|]. intros E. destruct (m_state f); intuition.
  - intros p Hfr. by destruct (running_child s p Hi Hfr) as (? & ? & ? & ? & _ & ? & _).
Qed.

(** ** Fibers that are not running *)
Definition same_fiber (f f' : Fiber) : Prop :=
  m_ctx f' = m_ctx f ∧ m_state f' = m_state f ∧ m_cb f' = m_cb f ∧ m_id f' = m_id f.

Definition keeps (p : nat) (f : Fiber) (s : FiberState) : Prop :=
  ∃ f', fs_fibers s !! p = Some f' ∧ same_fiber f f'.

Lemma keeps_refl p f s : fs_fibers s !! p = Some f → keeps p f s.
Proof. intros Hp. exists f. by repeat split. Qed.

Lemma keeps_refs p f q g n s : fs_fibers s !! p = Some f → fs_fibers s !! q = Some g →
  keeps p f (set_fibers (<[q := set_refs n g]>) s).
Proof.
  intros Hp Hq. destruct (decide (q = p)) as [->|Hne].
  - exists (set_refs n g). simpl. rewrite lookup_insert_eq. assert (g = f) as -> by congruence. done.
  - apply keeps_refl. simpl. by rewrite lookup_insert_ne.
Qed.

Lemma keeps_release p f q s : fs_fibers s !! p = Some f → owns s q →
  fiber_inv s → (p = q → ¬ finished (m_state f)) → wp (release q) (λ _, keeps p f) s.
Proof.
  intros Hp (g & Hq & Hown) Hi Hfin. apply wp_bind, (wp_load_fiber q g); [done|].
  destruct (f_refs g) as [|[|n]] eqn:Hn; [lia| |by apply (wp_update q g), keeps_refs].
  rewrite <-Hn in Hown. destruct (last_pointer _ q g Hown Hn) as [Hst Hg].
  assert (p ≠ q) as Hne.
  { intros ->. assert (g = f) as -> by congruence. by apply Hfin. }
  apply wp_bind, wp_modify, wp_bind, (wp_load_fiber q g); [done|]. rewrite Hst. apply wp_bind.
  apply wp_check; [by apply bool_decide_true|]. apply wp_bind, wp_modify, wp_modify.
  apply keeps_refl. simpl. by rewrite lookup_delete_ne.
Qed.

Lemma keeps_continue p f k s : keeps p f s → wp (continue_with k) (λ _, keeps p f) s.
Proof. intros Hk. by apply wp_continue. Qed.

Lemma keeps_switched mf q fm g fm' g' c p f s s' : switched mf q fm g fm' g' c s s' →
  p ≠ q → p ≠ mf → fs_fibers s !! p = Some f → keeps p f s'.
Proof.
  intros Hsw Hq Hm Hp. apply keeps_refl. by rewrite (u2_other _ _ _ _ _ _ _ _ (sw_heap _ _ _ _ _ _ _ _ _ Hsw)).
Qed.

Lemma keeps_GetThis p f s : fiber_inv s → fs_fibers s !! p = Some f → wp Fiber_GetThis (λ _, keeps p f) s.
Proof.
  intros Hi Hp. destruct (t_fiber s) as [q|] eqn:Htf.
  - destruct (this_fiber s q Hi Htf) as (g & Hq & _). unfold Fiber_GetThis. apply wp_bind, wp_get.
    rewrite Htf. apply wp_bind. apply (wp_update q g); [done|]. apply wp_ret. by apply keeps_refs.
  - apply wp_create_main; [done|]. apply keeps_refl. simpl. rewrite lookup_insert_ne; [done|].
    apply (ho_next _ _ _ _ (fi_heap s Hi)) in Hp. lia.
Qed.

Lemma keeps_new cb size p f s : fiber_inv s → fs_fibers s !! p = Some f → m_stack f = true →
  ctl_frame (fs_control s) = None → wp (Fiber_new stack_default cb size) (λ _, keeps p f) s.
Proof.
  intros Hi Hp Hst Hfr. destruct (main_and_child s p f Hi Hp Hst) as (mf & fm & Htf & _).
  pose proof (fi_threads s Hi) as Ht. rewrite Htf, Hfr in Ht.
  unfold Fiber_new. apply wp_bind, wp_modify, wp_bind, wp_gets, wp_bind, wp_gets. simpl. rewrite Htf.
  apply wp_bind, wp_ret, wp_bind, wp_get, wp_bind, wp_check; [by apply bool_decide_true|].
  apply wp_bind, wp_check; [apply bool_decide_true; apply Ht|].
  apply wp_bind, wp_modify, wp_bind. unfold wp at 1, new_fiber. apply wp_bind, wp_modify, wp_ret.
  apply keeps_refl. simpl. rewrite lookup_insert_ne; [done|].
  apply (ho_next _ _ _ _ (fi_heap s Hi)) in Hp. lia.
Qed.

(** *** A suspended fiber under each polite call *)
Section suspended.
Context (p : nat) (f : Fiber) (s : FiberState).
Hypothesis Hi : fiber_inv s.
Hypothesis Hp : fs_fibers s !! p = Some f.
Hypothesis Hst : m_state f = HOLD ∨ m_state f = READY.

Lemma suspended_child : ∃ mf fm, t_threadFiber s = Some mf ∧ fs_fibers s !! mf = Some fm ∧ p ≠ mf ∧
  m_stack f = true ∧ ¬ finished (m_state f) ∧ ctl_frame (fs_control s) ≠ Some p.
Proof.
  assert (m_stack f = true) as Hstack.
  { pose proof (fi_threads s Hi) as Ht. destruct (t_threadFiber s) as [mf|].
    2: { destruct Ht as [Ht _]. by rewrite Ht, lookup_empty in Hp. }
    destruct (decide (p = mf)) as [->|Hne]; [|by apply (to_child _ _ _ _ _ Ht p f Hp Hne)].
    destruct (to_main _ _ _ _ _ Ht) as (fm & Hm & [_ _ E _]). assert (fm = f) as -> by congruence.
    rewrite E in Hst. by destruct Hst. }
  destruct (main_and_child s p f Hi Hp Hstack) as (mf & fm & Htf & Hm & Hne & _ & [_ _ E _]).
  exists mf, fm. split_and!; try done.
  - unfold finished. destruct Hst as [->| ->]; by intros [?|[?|?]].
  - destruct Hst as [Es|Es]; rewrite Es in E; apply E.
Qed.

Lemma keeps_end_yield q k : ctl_cur (fs_control s) = Some q →
  wp (release q;; continue_with k) (λ _, keeps p f) s.
Proof.
  intros Hcu. destruct suspended_child as (mf & fm & Htf & _).
  apply wp_bind. pose proof (fi_threads s Hi) as Ht. rewrite Htf, Hcu in Ht.
  destruct (to_cur _ _ _ _ _ Ht) as [E|E]; [done|].
  destruct (running_child s q Hi (eq_sym E)) as (_ & _ & g & _ & _ & _ & _ & _ & Hq & _ & [Hsg _ _ _] & Hex & _).
  destruct (ho_refs _ _ _ _ (fi_heap s Hi) q g Hq) as [Hint _]. unfold internal in Hint.
  rewrite Hsg, Hex, Hcu, decide_True in Hint by done. destruct (f_refs g) as [|[|n]] eqn:Hn; [lia..|].
  apply (wp_release_many q g n); [done..|]. by apply keeps_continue, keeps_refs.
Qed.

Lemma keeps_leave q ex : ctl_frame (fs_control s) = Some q → ctl_cur (fs_control s) = None → owns s q →
  wp (MainFunc_leave q ex;; mret true) (λ _, keeps p f) s.
Proof.
  intros Hq Hcu (g & Hg & Hown). apply wp_bind. destruct suspended_child as (mf & fm & Htf & Hm & Hne & _ & _ & Hfr).
  destruct (running_child s q Hi Hq) as (_ & _ & g' & _ & _ & _ & _ & _ & Hg' & _ & [Hsg _ _ _] & Hex & _).
  assert (g' = g) as -> by congruence. unfold internal in Hown.
  rewrite Hsg, Hex, Hcu, decide_False in Hown by done.
  eapply wp_mono; [|apply (wp_leave ex q g); [done..|lia]].
  intros [] s' (mf' & fm' & k0 & Htf' & _ & _ & _ & Hsw). apply wp_ret.
  eapply keeps_switched; [exact Hsw|congruence|congruence|done].
Qed.

Lemma keeps_yield st k : ctl_frame (fs_control s) ≠ None →
  wp (yield_as st k;; mret true) (λ _, keeps p f) s.
Proof.
  intros Hsome. destruct suspended_child as (mf & fm & Htf & Hm & Hne & _ & _ & Hfr).
  destruct (ctl_frame (fs_control s)) as [q|] eqn:Hq; [|done]. apply wp_bind.
  eapply wp_mono; [|by apply (wp_yield st q)].
  intros [] s' (mf' & fm' & g & k0 & Htf' & _ & _ & _ & _ & Hsw). apply wp_ret.
  eapply keeps_switched; [exact Hsw|congruence|congruence|done].
Qed.

Lemma keeps_swapIn q g k : q ≠ p → ctl_frame (fs_control s) = None → fs_fibers s !! q = Some g →
  m_stack g = true → resumable (m_state g) → wp (swapIn q k;; mret true) (λ _, keeps p f) s.
Proof.
  intros Hqp Hnone Hg Hsg Hrg. destruct suspended_child as (mf & fm & Htf & Hm & Hne & _). apply wp_bind.
  eapply wp_mono; [|by apply (wp_swapIn q g)]. intros [] s' (mf' & fm' & _ & _ & _ & Htf' & Hsw).
  apply wp_ret. eapply keeps_switched; [exact Hsw|congruence|congruence|done].
Qed.

Lemma keeps_reset q g cb k : fs_fibers s !! q = Some g → m_stack g = true → finished (m_state g) →
  wp (Fiber_reset q cb;; continue_with k) (λ _, keeps p f) s.
Proof.
  intros Hg Hsg Hfg. destruct suspended_child as (mf & fm & Htf & _ & _ & _ & Hfin & _).
  apply wp_bind, (wp_reset q g mf); [done..|]. apply keeps_continue, keeps_refl. simpl.
  rewrite lookup_insert_ne; [done|]. intros ->. assert (g = f) as -> by congruence. done.
Qed.

Lemma keeps_id k : wp (id ← Fiber_GetFiberId; continue_with (k id)) (λ _, keeps p f) s.
Proof.
  unfold Fiber_GetFiberId. apply wp_bind, wp_bind, wp_get. destruct (t_fiber s) as [q|] eqn:Htq.
  - destruct (this_fiber s q Hi Htq) as (g & Hg & _). apply wp_bind, (wp_load_fiber q g); [done|].
    by apply wp_ret, keeps_continue, keeps_refl.
  - by apply wp_ret, keeps_continue, keeps_refl.
Qed.
End suspended.

(** C9. A suspended fiber waits: as long as it is not swapped in, no call
    that follows the rules of C4 changes its saved context, its state or
    its function, and it is not destroyed even if the program gives up every
    pointer to it. *)
Theorem suspended_waits c s p f :
  fiber_reach stack_default c s → polite s → fs_fibers s !! p = Some f →
  m_state f = HOLD ∨ m_state f = READY →
  (∀ k, ctl_code (fs_control s) ≠ SwapIn p k) →
  wp (step stack_default) (λ _, keeps p f) s.
Proof.
  intros Hr Hpol Hp Hst Hno. destruct (fiber_reach_both _ _ _ Hr) as [Hi Ho].
  destruct (suspended_child p f s Hi Hp Hst) as (mf & fm & Htf & Hm & Hne & Hstack & Hfin & Hfr).
  unfold step. apply wp_bind, wp_gets. unfold polite in Hpol.
  destruct (ctl_cur (fs_control s)) as [q|] eqn:Hcu; [by apply keeps_end_yield|].
  specialize (Hpol eq_refl).
  destruct (ctl_code (fs_control s)) as [|e|cb size k|q k|k|k|q cb k|k|q k|k|k|] eqn:Hcode.
  - destruct (ctl_frame (fs_control s)) as [q|] eqn:Hq; [apply keeps_leave; auto|by apply wp_ret, keeps_refl].
  - destruct (ctl_frame (fs_control s)) as [q|] eqn:Hq; [apply keeps_leave; auto|done].
  - destruct Hpol as [Hnone _]. apply wp_bind. eapply wp_mono; [|by apply (keeps_new cb size p f)].
    intros x s' Hk. by apply keeps_continue.
  - destruct Hpol as (Hnone & _ & g & Hg & Hsg & Hrg).
    apply (keeps_swapIn p f s Hi Hp Hst q g); try done. intros ->. by apply (Hno k).
  - by apply keeps_yield.
  - by apply keeps_yield.
  - destruct Hpol as (g & Hg & Hsg & Hfg). by apply (keeps_reset p f s Hi Hp Hst q g).
  - apply wp_bind. eapply wp_mono; [|by apply (keeps_GetThis p f)]. intros x s' Hk. by apply keeps_continue.
  - destruct Hpol as [Hown _]. apply wp_bind. eapply wp_mono; [|by apply (keeps_release p f q)]. intros [] s' Hk. by apply keeps_continue.
  - by apply keeps_id.
  - apply wp_bind, wp_gets. by apply keeps_continue, keeps_refl.
  - done.
Qed.

(** ** Running a fiber to its end *)

(** A function that yields, as the list says ([true] for ready), and
    returns; and a main program that swaps the fiber in [n] times. *)
Fixpoint yields (l : list bool) : code :=
  match l with
  | [] => Return
  | true :: l => YieldToReady (yields l)
  | false :: l => YieldToHold (yields l)
  end.
Fixpoint swaps (n : nat) (p : nat) (k : code) : code :=
  match n with 0 => k | S n => SwapIn p (swaps n p k) end.

(** The fiber is suspended, or has not started, with [l] yields to go. *)
Definition remaining (p : nat) (l : list bool) (f : Fiber) : Prop :=
  m_state f = INIT ∧ m_cb f = Some (yields l) ∨
  (m_state f = HOLD ∨ m_state f = READY) ∧ m_ctx f = Cont (mkControl (Some p) (Some p) (yields l)).

Definition after_round (p : nat) (l : list bool) (f : Fiber) : Prop :=
  match l with [] => m_state f = TERM | _ :: l => remaining p l f end.

(** The main program owns a pointer to the child and goes on with [k]. *)
Definition back_in_main (p : nat) (k : code) (P : Fiber → Prop) (s : FiberState) : Prop :=
  fiber_inv s ∧ fs_control s = mkControl None None k ∧
  ∃ f, fs_fibers s !! p = Some f ∧ m_stack f = true ∧ internal None p f < f_refs f ∧ P f.

Lemma switched_child mf p fm f fm' f' c s s' : switched mf p fm f fm' f' c s s' →
  fs_fibers s !! mf = Some fm ∧ fs_fibers s !! p = Some f ∧ fs_fibers s' !! mf = Some fm' ∧
  fs_fibers s' !! p = Some f' ∧ fs_control s' = c ∧ t_threadFiber s' = Some mf.
Proof. intros [[] ? ? ? ? ? ?]. by split_and!. Qed.

Lemma round_end p l mf fm f k s : fiber_inv s → fs_control s = mkControl (Some p) None (yields l) →
  t_threadFiber s = Some mf → fs_fibers s !! mf = Some fm → m_ctx fm = Cont (mkControl None None k) →
  fs_fibers s !! p = Some f → m_stack f = true → 2 ≤ f_refs f →
  wp (step stack_default) (λ b s', b = true ∧ back_in_main p k (after_round p l) s') s.
Proof.
  intros Hi Hc Htf Hm Hctx Hp Hst Href. unfold step. apply wp_bind, wp_gets. rewrite Hc. simpl.
  assert (ctl_frame (fs_control s) = Some p ∧ ctl_cur (fs_control s) = None) as [Hfr Hcu] by (by rewrite Hc).
  destruct l as [|b l]; simpl.
  - assert (owns s p) as Hown.
    { destruct (running_child s p Hi Hfr) as (_ & _ & g & _ & _ & _ & _ & _ & Hg & _ & _ & Hex & _).
      exists f. split; [done|]. assert (g = f) as -> by congruence.
      unfold internal. rewrite Hst, Hex, Hcu, decide_False by done. lia. }
    apply wp_bind. eapply wp_mono; [|apply wp_and; [apply (inv_leave None p); done|by apply (wp_leave None p f)]].
    intros [] s' [Hi' (mf' & fm' & k0 & Htf' & _ & _ & Hk0 & Hsw)]. apply wp_ret.
    destruct (switched_child _ _ _ _ _ _ _ _ _ Hsw) as (Hm' & _ & _ & Hp' & Hc' & _).
    split; [done|]. split; [done|]. assert (k0 = k) as -> by congruence. split; [done|].
    exists (ended None p f). split; [done|].
    unfold ended, internal. destruct uclink; simpl; rewrite Hst; simpl; (split_and!; [done|lia|done]).
  - assert (∀ st, st = HOLD ∨ st = READY → wp (yield_as st (yields l);; mret true)
      (λ b' s', b' = true ∧ back_in_main p k (remaining p l) s') s) as Hy; [|destruct b; auto].
    intros st Hs. apply wp_bind.
    eapply wp_mono; [|apply wp_and; [by apply (inv_yield st p)|by apply (wp_yield st p)]].
    intros [] s' [Hi' (mf' & fm' & f0 & k0 & Htf' & _ & _ & _ & Hk0 & Hsw)]. apply wp_ret.
    destruct (switched_child _ _ _ _ _ _ _ _ _ Hsw) as (Hm' & Hf0 & _ & Hp' & Hc' & _).
    assert (f0 = f) as -> by congruence. assert (k0 = k) as -> by congruence.
    split; [done|]. split; [done|]. split; [done|]. exists (yielded st (yields l) p f). split_and!; try done.
    + unfold internal. simpl. rewrite Hst. destruct Hs as [->| ->]; lia.
    + right. split; [|done]. simpl. done.
Qed.

Lemma wp_run_S n (Q : bool → FiberState → Prop) s :
  wp (step stack_default) (λ b s', b = true ∧ wp (run stack_default n) Q s') s →
  wp (run stack_default (S n)) Q s.
Proof. intros Hw. simpl. apply wp_bind. eapply wp_mono; [|exact Hw]. by intros b s' [-> ?]. Qed.

Lemma wp_run_last (Q : FiberState → Prop) s :
  wp (step stack_default) (λ b s', b = true ∧ Q s') s →
  wp (run stack_default 1) (λ b s', b = true ∧ Q s') s.
Proof. intros Hw. apply wp_run_S. eapply wp_mono; [|exact Hw]. intros b s' [-> ?]. by split. Qed.

(** One [swapIn] runs the fiber to its next yield or its end and comes
    back to the statement after it. *)
Lemma round p l k s : back_in_main p (SwapIn p k) (remaining p l) s →
  ∃ n, n ≤ 3 ∧ wp (run stack_default n) (λ b s', b = true ∧ back_in_main p k (after_round p l) s') s.
Proof.
  intros (Hi & Hc & f & Hp & Hst & Hown & Hrem).
  assert (ctl_frame (fs_control s) = None ∧ ctl_cur (fs_control s) = None) as [Hfr Hcu] by (by rewrite Hc).
  assert (resumable (m_state f)) as Hr by (unfold resumable; destruct Hrem as [[-> _]|[[->| ->] _]]; auto).
  pose proof (wp_and _ _ _ _ (inv_swapIn p f k s Hi Hfr Hcu Hp Hst Hr) (wp_swapIn p f k s Hi Hfr Hp Hst Hr)) as Hin.
  assert (∀ n Q, wp (swapIn p k) (λ _ s', wp (run stack_default n) Q s') s →
    wp (run stack_default (S n)) Q s) as Hfirst.
  { intros n Q Hw. apply wp_run_S. unfold step. apply wp_bind, wp_gets. rewrite Hc. simpl. apply wp_bind.
    eapply wp_mono; [|exact Hw]. intros [] s' ?. by apply wp_ret. }
  destruct Hrem as [[Hs Hcb]|[Hs Hctx]].
  - exists 2. split; [lia|]. apply Hfirst. eapply wp_mono; [|exact Hin].
    intros [] s1 [Hi1 (mf & fm & Hm & Hmok & Hco & Htf & Hsw)].
    destruct (switched_child _ _ _ _ _ _ _ _ _ Hsw) as (_ & _ & Hm1 & Hp1 & Hc1 & Htf1).
    destruct Hco as [_ _ Hco _]. rewrite Hs in Hco. destruct Hco as (Hctx & _).
    unfold entry_control, entered in *. rewrite Hctx, Hcb in Hc1. rewrite Hs in Hp1.
    unfold internal in Hown. rewrite Hst, Hs in Hown.
    apply wp_run_last. eapply (round_end p l mf); try done. simpl. lia.
  - exists 3. split; [lia|]. apply Hfirst. eapply wp_mono; [|exact Hin].
    intros [] s1 [Hi1 (mf & fm & Hm & Hmok & Hco & Htf & Hsw)].
    destruct (switched_child _ _ _ _ _ _ _ _ _ Hsw) as (_ & _ & Hm1 & Hp1 & Hc1 & Htf1).
    unfold entry_control, entered in *. rewrite Hctx in Hc1.
    assert (fs_fibers s1 !! p = Some (set_ctx Stale (set_state EXEC f))) as Hp1'.
    { destruct Hs as [Hs|Hs]; by rewrite Hs in Hp1. }
    assert (3 ≤ f_refs f) as Href.
    { unfold internal in Hown. rewrite Hst in Hown. destruct Hs as [Hs|Hs]; rewrite Hs in Hown; lia. }
    apply wp_run_S. pose proof (inv_end_yield p (yields l) s1 Hi1 ltac:(by rewrite Hc1)) as Hend.
    destruct (f_refs f) as [|[|[|n]]] eqn:Hn; try lia.
    unfold step. apply wp_bind, wp_gets. rewrite Hc1. simpl. unfold wp in Hend.
    assert (wp (release p;; continue_with (yields l)) (λ b s', b = true ∧ s' = set_control
      (mkControl (Some p) None (yields l)) (set_fibers (<[p := set_refs (S (S n)) (set_ctx Stale (set_state EXEC f))]>) s1)) s1) as Hrel.
    { apply wp_bind. apply (wp_release_many p (set_ctx Stale (set_state EXEC f)) (S n)); [done|done|].
      apply wp_continue. simpl. by rewrite Hc1. }
    eapply wp_mono; [|apply (wp_and _ _ _ _ Hend Hrel)]. intros b s2 [Hi2 [-> ->]]. split; [done|].
    assert (p ≠ mf) as Hne by (apply (u2_ne _ _ _ _ _ _ _ _ (sw_heap _ _ _ _ _ _ _ _ _ Hsw))).
    apply wp_run_last.
    apply (round_end p l mf (parked k fm) (set_refs (S (S n)) (set_ctx Stale (set_state EXEC f)))); try done.
    + simpl. by rewrite lookup_insert_ne.
    + simpl. by rewrite lookup_insert_eq.
    + simpl. lia.
Qed.

Lemma wp_run_app n m Q s : wp (run stack_default n) (λ b s', b = true ∧ wp (run stack_default m) Q s') s →
  wp (run stack_default (n + m)) Q s.
Proof.
  revert s. induction n as [|n IH]; intros s; simpl; [by intros [_ ?]|].
  intros Hw. apply wp_bind. unfold wp, mbind, M_bind in Hw |- *.
  destruct (step stack_default s) as [[] s1| |]; [by apply IH| |done..]. by destruct Hw.
Qed.

(** C10. A fiber runs to its end: a fiber whose function yields [length l]
    times is finished (state TERM) when it has been swapped in once more
    than that, and each time control comes back to the statement after the
    call of [swapIn], whichever way the fiber yielded. *)
Theorem fiber_completes p l k s :
  back_in_main p (swaps (S (length l)) p k) (remaining p l) s →
  ∃ n, n ≤ 3 * S (length l) ∧
    wp (run stack_default n) (λ b s', b = true ∧ back_in_main p k (λ f, m_state f = TERM) s') s.
Proof.
  revert s. induction l as [|b l IH]; intros s Hs.
  { destruct (round p [] k s Hs) as (n & Hn & Hw). exists n. simpl in *. split; [lia|done]. }
  destruct (round p (b :: l) _ s Hs) as (n & Hn & Hw).
  apply wp_returns in Hw as (b1 & s1 & Hrun & -> & Hs1).
  destruct (IH s1 Hs1) as (m & Hm & Hw'). exists (n + m). split; [simpl in *; lia|].
  apply wp_run_app. apply wp_returns. eauto.
Qed.

(** ** Calls that are not polite *)

(** [swapIn] up to the switch to a fiber that is not running. *)
Lemma wp_swapIn_switch s p f mf fm k (Q : unit → FiberState → Prop) :
  fs_fibers s !! p = Some f → fs_fibers s !! mf = Some fm → t_threadFiber s = Some mf → p ≠ mf →
  m_state f ≠ EXEC →
  wp (switch_to p) Q (mkFiberState
    (<[mf := set_ctx (Cont (mkControl (ctl_frame (fs_control s)) None k)) fm]> (<[p := set_state EXEC f]> (fs_fibers s)))
    (fs_next s) (s_fiber_id s) (s_fiber_count s) (Some p) (Some mf) (fs_control s) (fs_log s)) →
  wp (swapIn p k) Q s.
Proof.
  intros Hp Hm Htf Hne Hst HQ. unfold swapIn. apply wp_bind, wp_modify, wp_bind, (wp_load_fiber p f); [done|].
  apply wp_bind, wp_check; [by apply bool_decide_true|].
  apply wp_bind, (wp_update p f); [done|]. apply wp_bind, wp_gets. simpl. rewrite Htf.
  apply wp_bind. eapply wp_of_option; [done|]. unfold swapcontext. apply wp_bind, wp_gets. simpl.
  apply wp_bind, (wp_update mf fm); [simpl; by rewrite lookup_insert_ne|done].
Qed.

(** [swapIn] from inside a fiber loses the main fiber: the context the
    main fiber would resume is overwritten with that of the calling fiber,
    so the next return to the main fiber runs the caller's code. *)
Lemma nested_swapIn_loses_main s p q g k :
  fiber_inv s → ctl_frame (fs_control s) = Some p → fs_fibers s !! q = Some g → q ≠ p →
  m_stack g = true → m_state g = INIT →
  wp (swapIn q k) (λ _ s', ∃ mf fm, t_threadFiber s = Some mf ∧ fs_fibers s' !! mf = Some fm ∧
    m_ctx fm = Cont (mkControl (Some p) None k)) s.
Proof.
  intros Hi Hfr Hq Hne Hsg Hst.
  destruct (main_and_child s q g Hi Hq Hsg) as (mf & fm & Htf & Hm & Hnm & Hmok & [_ _ Hco _]).
  rewrite Hst in Hco. destruct Hco as (Hctx & _).
  apply (wp_swapIn_switch s q g mf fm); [done..|by rewrite Hst|]. rewrite Hfr. unfold switch_to.
  apply wp_bind, (wp_load_fiber q (set_state EXEC g)); [simpl; by rewrite lookup_insert_ne, lookup_insert_eq|].
  simpl. rewrite Hctx. apply wp_bind.
  apply (wp_update q (set_state EXEC g)); [simpl; by rewrite lookup_insert_ne, lookup_insert_eq|].
  unfold MainFunc_enter, Fiber_GetThis. apply wp_bind, wp_bind, wp_get. simpl. apply wp_bind.
  apply (wp_update q (set_ctx Stale (set_state EXEC g))); [simpl; by rewrite lookup_insert_eq|].
  apply wp_ret, wp_bind. eapply wp_load_fiber; [simpl; by rewrite lookup_insert_eq|]. apply wp_modify.
  exists mf. eexists. split; [done|]. split; [simpl; rewrite lookup_insert_ne, lookup_insert_ne, lookup_insert_eq by done; done|done].
Qed.

(** C39. [swapIn] accepts a fiber that has finished: its assertion only
    excludes EXEC.  In the build with [uc_link] the fiber is then resumed
    at a point it has passed (its last yield, or its start if it never
    yielded), on a stack that has been used since, which is undefined; in
    the other build it is resumed after its last [swapOut], and the
    assertion that this point is never reached fails. *)
Theorem swapIn_finished s p f k :
  fiber_inv s → ctl_frame (fs_control s) = None → fs_fibers s !! p = Some f → m_stack f = true →
  m_state f = TERM ∨ m_state f = EXCEP →
  (uclink = true → swapIn p k s = Stuck (Undefined "context resumed twice")) ∧
  (uclink = false → wp (swapIn p k) (λ _ s',
     step stack_default s' = Stuck (AssertFailed "never reach after swapout")) s).
Proof.
  intros Hi Hfr Hp Hst Hend.
  destruct (main_and_child s p f Hi Hp Hst) as (mf & fm & Htf & Hm & Hne & _ & Hco).
  assert (m_state f ≠ EXEC) as Hnx by (by destruct Hend as [->| ->]). split.
  - intros Hu. pose proof (co_ended _ _ _ _ Hco Hend) as Hctx. rewrite Hu in Hctx.
    unfold swapIn, SetThis, modify, load_fiber, deref, check, swapcontext, switch_to, update_fiber, mbind, M_bind.
    simpl. unfold load_fiber, deref. simpl. rewrite Hp. rewrite bool_decide_true by done. simpl.
    unfold mbind, M_bind. simpl. unfold load_fiber, deref. simpl. rewrite Hp. simpl. rewrite Htf.
    unfold of_option, deref. simpl. rewrite lookup_insert_ne, Hm by done. simpl.
    rewrite lookup_insert_ne, lookup_insert_eq by done. simpl. by rewrite Hctx.
  - intros Hu. pose proof (co_ended _ _ _ _ Hco Hend) as Hctx. rewrite Hu in Hctx.
    apply (wp_swapIn_switch s p f mf fm); [done..|]. unfold switch_to. apply wp_bind.
    apply (wp_load_fiber p (set_state EXEC f)); [simpl; by rewrite lookup_insert_ne, lookup_insert_eq|].
    simpl. rewrite Hctx. apply wp_bind.
    apply (wp_update p (set_state EXEC f)); [simpl; by rewrite lookup_insert_ne, lookup_insert_eq|].
    by apply wp_modify.
Qed.

(** The main fiber must not yield: the call returns at once, but it
    leaves the main fiber in the state it was given, and the assertion of
    its destructor at the end of the thread fails. *)
Lemma main_yield_breaks_destructor s mf st k :
  fiber_inv s → t_threadFiber s = Some mf → ctl_frame (fs_control s) = None → st = HOLD ∨ st = READY →
  wp (yield_as st k) (λ _ s', fs_control s' = mkControl None (Some mf) k ∧
    Fiber_delete mf s' = Stuck (AssertFailed "m_state == EXEC")) s.
Proof.
  intros Hi Htf Hfr Hst. pose proof (fi_threads s Hi) as Ht. rewrite Htf, Hfr in Ht.
  destruct Ht as [(fm & Hm & Hmok) _ Hth _ _]. simpl in Hth.
  unfold yield_as, Fiber_GetThis. apply wp_bind, wp_bind, wp_get. rewrite Hth. apply wp_bind.
  apply (wp_update mf fm); [done|]. apply wp_ret, wp_bind.
  apply (wp_update mf (set_refs (S (f_refs fm)) fm)); [simpl; by rewrite lookup_insert_eq|].
  unfold swapOut. apply wp_bind, wp_gets. simpl. rewrite Htf. apply wp_bind, wp_modify, wp_bind.
  eapply wp_of_option; [done|]. unfold swapcontext. apply wp_bind, wp_gets. simpl. rewrite Hfr. apply wp_bind.
  apply (wp_update mf (set_state st (set_refs (S (f_refs fm)) fm))); [simpl; by rewrite lookup_insert_eq|].
  unfold switch_to. apply wp_bind.
  eapply wp_load_fiber; [simpl; by rewrite lookup_insert_eq|]. simpl. apply wp_bind.
  eapply wp_update; [simpl; by rewrite lookup_insert_eq|]. apply wp_modify. split; [done|].
  unfold Fiber_delete, mbind, M_bind, modify, load_fiber, deref. simpl. rewrite lookup_insert_eq. simpl.
  rewrite (mo_stack _ _ Hmok), (mo_cb _ _ Hmok). simpl. by destruct Hst as [->| ->].
Qed.

(** C38. Calls from the wrong fiber.  [swapIn] from inside a fiber loses the
    main fiber: the context the main fiber would resume is overwritten with
    that of the caller, so the next return to the main fiber runs the
    caller's code.  A yield of the main fiber returns at once, but leaves
    the main fiber in the state it was given, and the assertion of its
    destructor at the end of the thread fails. *)
Theorem wrong_fiber_calls s : fiber_inv s →
  (∀ p q g k, ctl_frame (fs_control s) = Some p → fs_fibers s !! q = Some g → q ≠ p →
    m_stack g = true → m_state g = INIT →
    wp (swapIn q k) (λ _ s', ∃ mf fm, t_threadFiber s = Some mf ∧ fs_fibers s' !! mf = Some fm ∧
      m_ctx fm = Cont (mkControl (Some p) None k)) s) ∧
  (∀ mf st k, t_threadFiber s = Some mf → ctl_frame (fs_control s) = None → st = HOLD ∨ st = READY →
    wp (yield_as st k) (λ _ s', fs_control s' = mkControl None (Some mf) k ∧
      Fiber_delete mf s' = Stuck (AssertFailed "m_state == EXEC")) s).
Proof.
  intros Hi. split.
  - intros p q g k. by apply nested_swapIn_loses_main.
  - intros mf st k. by apply main_yield_breaks_destructor.
Qed.
End spec.
