(* ===== verification/FiberType.v ===== *)
(** * The fibers that exist, in every program

    Facts about the set of live [Fiber] objects that hold in every run of
    the machine, also of a program that breaks the rules of the class (as
    long as it has not failed an assertion or reached undefined
    behaviour): [Fiber::TotalFibers] counts exactly the live objects, no
    object is left without a pointer to it, and the function of a fiber is
    there when it is needed and gone when it has returned. *)
From S2P Require Import Prelude Fiber.

Record fiber_typed (f : Fiber) : Prop := {
  ft_refs : 1 ≤ f_refs f;
  ft_init : m_state f = INIT → m_stack f = true ∧ m_cb f ≠ None;
  ft_term : m_state f = TERM → m_cb f = None;
  ft_main : m_stack f = false → m_cb f = None;
}.

(** [s_fiber_count] is [d] ahead of the number of live fibers, which is not
    0 only inside the constructors and the destructor. *)
Record census (d : Z) (s : FiberState) : Prop := {
  ce_count : s_fiber_count s = wrapU 64 (Z.of_nat (size (fs_fibers s)) + d);
  ce_next p f : fs_fibers s !! p = Some f → p < fs_next s;
  ce_fiber p f : fs_fibers s !! p = Some f → fiber_typed f;
}.

Local Notation counts d m := (∀ s, census d s → wlp m (λ _, census d) s).

(** ** The heap and the counter *)
Lemma census_load d p s : census d s → wlp (load_fiber p) (λ f s', census d s' ∧ fiber_typed f) s.
Proof. intros Hs. apply wlp_deref. intros f Hp. split; [done|]. by apply (ce_fiber d s Hs p). Qed.

Lemma census_update d p g : (∀ f, fiber_typed f → fiber_typed (g f)) → counts d (update_fiber p g).
Proof.
  intros Hg s [Hc Hn Hf]. apply wlp_bind, wlp_deref. intros f Hp. apply wlp_modify. split; simpl.
  - by rewrite map_size_insert_Some by eauto.
  - intros q h [[<- <-]|[_ Hq]]%lookup_insert_Some; eauto.
  - intros q h [[<- <-]|[_ Hq]]%lookup_insert_Some; eauto.
Qed.

(** One more object, or one more in the count. *)
Lemma census_new d f s : census d s → fiber_typed f → wlp (new_fiber f) (λ _, census (d - 1)) s.
Proof.
  intros [Hc Hn Hf] Hnew.
  assert (fs_fibers s !! fs_next s = None) as Hno.
  { destruct (fs_fibers s !! fs_next s) eqn:E; [|done]. apply Hn in E. lia. }
  split; simpl.
  - rewrite map_size_insert_None by done. rewrite Hc. f_equal. lia.
  - intros q h [[<- _]|[_ Hq%Hn]]%lookup_insert_Some; lia.
  - intros q h [[_ <-]|[_ Hq]]%lookup_insert_Some; eauto.
Qed.

Lemma census_count d e s : census d s → wlp (modify (set_count (λ n, n + e)%Z)) (λ _, census (d + e)) s.
Proof.
  intros [Hc Hn Hf]. apply wlp_modify. split; simpl; [|done..]. rewrite Hc. unfold wrapU.
  rewrite Zplus_mod_idemp_l. f_equal. lia.
Qed.

Lemma census_modify d g : (∀ s, fs_fibers (g s) = fs_fibers s ∧ fs_next (g s) = fs_next s ∧
    s_fiber_count (g s) = s_fiber_count s) → counts d (modify g).
Proof.
  intros Hg s [Hc Hn Hf]. apply wlp_modify. destruct (Hg s) as (E1 & E2 & E3). by split; rewrite ?E1, ?E2, ?E3.
Qed.

Lemma census_erase d p f s : census d s → fs_fibers s !! p = Some f → census (d + 1) (set_fibers (delete p) s).
Proof.
  intros [Hc Hn Hf] Hp. split; simpl.
  - rewrite Hc, map_size_delete, Hp. f_equal. assert (size (fs_fibers s) ≠ 0); [|lia].
    rewrite map_size_ne_0_lookup. by exists p, f.
  - intros q g [_ Hq]%lookup_delete_Some. eauto.
  - intros q g [_ Hq]%lookup_delete_Some. eauto.
Qed.

Lemma census_check d what b : counts d (check what b).
Proof. by destruct b. Qed.

(** Records that differ in nothing that matters here. *)
Lemma typed_same f g : f_refs g = f_refs f → m_state g = m_state f → m_stack g = m_stack f → m_cb g = m_cb f →
  fiber_typed f → fiber_typed g.
Proof. intros E1 E2 E3 E4 [H1 H2 H3 H4]. split; rewrite ?E1, ?E2, ?E3, ?E4; done. Qed.

Lemma typed_state x f : x ≠ INIT → x ≠ TERM → fiber_typed f → fiber_typed (set_state x f).
Proof. intros H1 H2 []. by split. Qed.

Lemma typed_refs n f : 1 ≤ n → fiber_typed f → fiber_typed (set_refs n f).
Proof. intros Hn []. by split. Qed.

Lemma typed_end f : fiber_typed f → fiber_typed (set_state TERM (set_cb None f)).
Proof. intros []. by split. Qed.

Lemma typed_main : fiber_typed (mkFiber 0 0 EXEC Stale None false None 1).
Proof. by split. Qed.

Lemma typed_child id size link cb : fiber_typed (mkFiber id size INIT Start link true (Some cb) 1).
Proof. by split. Qed.
#[local] Hint Resolve typed_main typed_child : core.

(** One rule per operation of the monad. *)
Ltac census_base :=
  lazymatch goal with
  | |- wlp (mret _) _ _ => by apply wlp_ret
  | |- wlp (stop _) _ _ => apply wlp_stop
  | |- wlp (gets _) _ _ => by apply wlp_gets
  | |- wlp get _ _ => by apply wlp_get
  | |- wlp (check _ _) _ _ => by apply census_check
  | |- wlp (of_option _ _) _ _ => by apply wlp_of_option
  | |- wlp (modify _) _ _ => by apply census_modify
  | |- wlp (update_fiber _ _) _ _ =>
      apply census_update; [|done]; let Hf := fresh in intros ? Hf; first
        [refine (typed_same _ _ _ _ _ _ Hf); reflexivity|apply typed_refs; [lia|done]|by apply typed_state|by apply typed_end|idtac]
  | |- wlp (if ?b then _ else _) _ _ => destruct b
  | |- wlp (match ?b with _ => _ end) _ _ => destruct b eqn:?
  | |- wlp (mbind _ (load_fiber _)) _ _ => eapply wlp_seq; [by apply census_load|intros ? ? [? ?]; cbn beta]
  | |- wlp (mbind _ _) _ _ => apply (wlp_seq _ _ (λ _, census 0)); [|intros ? ? ?; cbn beta]
  | _ => solve [auto]
  end.
Ltac census := repeat census_base.

(** ** The operations *)
Section operations.
Context `{B : FiberBuild} (stack_default : Z).

Lemma census_new_main : counts 0%Z Fiber_new_main.
Proof.
  intros s Hs. unfold Fiber_new_main, SetThis, log.
  eapply wlp_seq; [exact (census_new 0 _ s Hs typed_main)|intros p s1 H1; cbn beta].
  eapply wlp_seq; [by apply (census_modify (0 - 1))|intros [] s2 H2; cbn beta].
  eapply wlp_seq; [exact (census_count (0 - 1) 1 _ H2)|intros [] s3 H3; cbn beta]. census.
Qed.

Lemma census_GetThis : counts 0%Z Fiber_GetThis.
Proof. pose proof census_new_main. intros s Hs. unfold Fiber_GetThis, share. census. Qed.

Lemma census_delete p : counts 0%Z (Fiber_delete p).
Proof.
  intros s Hs. unfold Fiber_delete, SetThis, log.
  eapply wlp_seq; [exact (census_count 0 (-1) _ Hs)|intros [] s1 H1; cbn beta].
  apply wlp_bind, wlp_deref. intros f Hp.
  apply (wlp_seq _ _ (λ _ s', census (0 + -1) s' ∧ fs_fibers s' !! p = Some f)).
  - destruct (m_stack f); [by destruct (bool_decide _)|]. destruct (m_cb f); [done|]. simpl.
    destruct (bool_decide _); [|done]. simpl. unfold wlp, mbind, M_bind. simpl.
    destruct (decide _); simpl; (split; [|done]); by destruct H1.
  - intros [] s2 [H2 Hp2]. cbn beta. apply wlp_bind, wlp_modify, wlp_modify.
    eapply (census_erase (-1)); [by destruct H2|done].
Qed.

Lemma census_release p : counts 0%Z (release p).
Proof. pose proof census_delete. intros s Hs. unfold release. census. Qed.

Lemma census_Fiber_new cb size : counts 0%Z (Fiber_new stack_default cb size).
Proof.
  pose proof census_GetThis as HG. pose proof census_release as HR. intros s Hs. unfold Fiber_new.
  do 5 (census_base; [census|]). census_base; [census|]. census_base; [census|].
  eapply wlp_seq; [by apply (census_count 0 1)|intros [] s7 H7; cbn beta].
  eapply wlp_seq; [by apply (census_new (0 + 1)); [|apply typed_child]|intros p s8 H8; cbn beta]. unfold log. census.
Qed.

Lemma census_switch_to p : counts 0%Z (switch_to p).
Proof. pose proof census_GetThis. intros s Hs. unfold switch_to, MainFunc_enter. census. Qed.

Lemma census_swapcontext from to cur k : counts 0%Z (swapcontext from to cur k).
Proof. pose proof census_switch_to. intros s Hs. unfold swapcontext. census. Qed.

Lemma census_swapOut p cur k : counts 0%Z (swapOut p cur k).
Proof. pose proof census_swapcontext. intros s Hs. unfold swapOut, SetThis. census. Qed.

Lemma census_swapIn p k : counts 0%Z (swapIn p k).
Proof. pose proof census_swapcontext. intros s Hs. unfold swapIn, SetThis. census. Qed.

Lemma census_yield st k : st ≠ INIT → st ≠ TERM → counts 0%Z (yield_as st k).
Proof.
  pose proof census_GetThis. pose proof census_swapOut. intros H1 H2 s Hs. unfold yield_as. census.
Qed.

Lemma census_leave cur ex : counts 0%Z (MainFunc_leave cur ex).
Proof.
  pose proof census_release. pose proof census_swapOut. pose proof census_switch_to.
  intros s Hs. unfold MainFunc_leave, SetThis, log. census.
Qed.

(** [reset] gives a function to a fiber that has a stack. *)
Lemma census_renew d p f g s : census d s → fs_fibers s !! p = Some f → (fiber_typed f → fiber_typed (g f)) →
  wlp (update_fiber p g) (λ _, census d) s.
Proof.
  intros [Hc Hn Hf] Hp Hg. apply wlp_bind, wlp_deref. intros f' Hp'. assert (f' = f) as -> by congruence.
  apply wlp_modify. split; simpl.
  - by rewrite map_size_insert_Some by eauto.
  - intros q h [[<- <-]|[_ Hq]]%lookup_insert_Some; eauto.
  - intros q h [[<- <-]|[_ Hq]]%lookup_insert_Some; eauto.
Qed.

Lemma census_reset p cb : counts 0%Z (Fiber_reset p cb).
Proof.
  intros s Hs. unfold Fiber_reset. apply wlp_bind, wlp_deref. intros f Hp. apply wlp_bind.
  destruct (m_stack f) eqn:Hst; [|done]. apply wlp_ret, wlp_bind. destruct (bool_decide _); [|done].
  assert (∀ link, wlp (update_fiber p (λ f, set_state INIT (set_ctx Start (set_link link (set_cb (Some cb) f)))))
    (λ _, census 0) s) as Hup.
  { intros link. eapply census_renew; [done..|]. intros []. by split; simpl; rewrite ?Hst. }
  apply wlp_ret, wlp_bind. destruct uclink; [|by apply wlp_ret].
  apply wlp_bind, wlp_gets, wlp_bind, wlp_of_option. intros tf _. by apply wlp_ret.
Qed.

Lemma census_step : counts 0%Z (step stack_default).
Proof.
  pose proof census_release. pose proof census_leave. pose proof census_yield. pose proof census_swapIn.
  pose proof census_reset. pose proof census_Fiber_new. pose proof census_GetThis.
  intros s Hs. unfold step, continue_with, Fiber_GetFiberId, Fiber_TotalFibers. census.
Qed.

Lemma census_run n : counts 0%Z (run stack_default n).
Proof. pose proof census_step. induction n as [|n IH]; intros s Hs; simpl; census. Qed.

End operations.

(** A program in which the main fiber yields, and then drops the only
    pointer to a fiber that is on hold: against the rules. *)
Definition prog_rude : code := New (YieldToHold Return) 0 (λ f, YieldToHold (SwapIn f (Drop f Return))).
#[local] Instance rude_build : FiberBuild := {| uclink := true |}.
Definition rude_run := run 1024 20 (thread_start prog_rude).
Definition rude_end : FiberState := match rude_run with Ret _ s => s | _ => thread_start prog_rude end.

