(* ===== verification/FiberDemo.v ===== *)
(** * Concrete fiber programs

    An executable check of [polite], and the theorems of [FiberSpec] on
    runs of small programs. *)
From S2P Require Import Prelude Fiber FiberInv FiberThm FiberSpec.

(** ** Checking politeness by running *)
Definition owns_b (n : nat) (s : FiberState) (p : nat) : bool :=
  match fs_fibers s !! p with
  | Some f => bool_decide (internal (ctl_cur (fs_control s)) p f + n < f_refs f)
  | None => false
  end.
Definition state_in (l : list State) (s : FiberState) (p : nat) : bool :=
  match fs_fibers s !! p with
  | Some f => m_stack f && bool_decide (m_state f ∈ l)
  | None => false
  end.

Definition polite_b (s : FiberState) : bool :=
  let c := fs_control s in
  match ctl_cur c with
  | Some _ => true
  | None =>
      match ctl_code c with
      | Return => true
      | Throws _ => bool_decide (ctl_frame c ≠ None)
      | New _ _ _ => bool_decide (ctl_frame c = None) && (s_fiber_id s + 1 <? 2 ^ 64)%Z
      | SwapIn p _ => bool_decide (ctl_frame c = None) && owns_b 0 s p && state_in [INIT; HOLD; READY] s p
      | YieldToReady _ | YieldToHold _ => bool_decide (ctl_frame c ≠ None)
      | Reset p _ _ => state_in [TERM; INIT; EXCEP] s p
      | Drop p _ => owns_b 0 s p && (bool_decide (ctl_frame c ≠ Some p) || owns_b 1 s p)
      | GetThis _ | GetFiberId _ | TotalFibers _ => true
      | Never => false
      end
  end.

Lemma owns_b_sound n s p : owns_b n s p = true → owns_more n s p.
Proof.
  unfold owns_b, owns_more. destruct (fs_fibers s !! p) as [f|]; [|done].
  intros Hb%bool_decide_eq_true. eauto.
Qed.

Lemma owns_b_0 s p : owns_b 0 s p = true → owns s p.
Proof. intros (f & Hp & Hlt)%owns_b_sound. exists f. split; [done|lia]. Qed.

Lemma state_in_sound l s p : state_in l s p = true →
  ∃ f, fs_fibers s !! p = Some f ∧ m_stack f = true ∧ m_state f ∈ l.
Proof.
  unfold state_in. destruct (fs_fibers s !! p) as [f|]; [|done].
  intros [Hst Hin%bool_decide_eq_true]%andb_true_iff. eauto.
Qed.

Lemma polite_b_sound s : polite_b s = true → polite s.
Proof.
  unfold polite_b, polite. intros Hb Hcu. rewrite Hcu in Hb.
  destruct (ctl_code (fs_control s)) as [|e|cb size k|q k|k|k|q cb k|k|q k|k|k|]; try done.
  - by apply bool_decide_eq_true in Hb.
  - apply andb_true_iff in Hb as [Hf%bool_decide_eq_true Hid%Z.ltb_lt]. done.
  - apply andb_true_iff in Hb as [[Hf%bool_decide_eq_true Ho%owns_b_0]%andb_true_iff (f & ? & ? & Hin)%state_in_sound].
    split_and!; [done..|]. exists f. split_and!; try done. unfold resumable. rewrite !elem_of_cons, elem_of_nil in Hin. tauto.
  - by apply bool_decide_eq_true in Hb.
  - by apply bool_decide_eq_true in Hb.
  - apply state_in_sound in Hb as (f & ? & ? & Hin). exists f. split_and!; try done.
    unfold finished. rewrite !elem_of_cons, elem_of_nil in Hin. tauto.
  - apply andb_true_iff in Hb as [Ho%owns_b_0 [Hne%bool_decide_eq_true|Hm%owns_b_sound]%orb_true_iff]; done.
Qed.

Section run.
Context `{B : FiberBuild} (stack_default : Z).

Fixpoint run_polite (n : nat) (s : FiberState) : option FiberState :=
  match n with
  | 0 => Some s
  | S n => if polite_b s then match step stack_default s with Ret _ s' => run_polite n s' | _ => None end
           else None
  end.

Lemma run_polite_reach n s s' : run_polite n s = Some s' → rtc (fiber_trans stack_default) s s'.
Proof.
  revert s. induction n as [|n IH]; intros s; simpl; [intros [= ->]; done|].
  destruct (polite_b s) eqn:Hp; [|done]. destruct (step stack_default s) as [b s1| |] eqn:Hs; [|done..].
  intros Hr. eapply rtc_l; [|by apply IH]. by eapply fiber_trans_step; [apply polite_b_sound|].
Qed.
End run.

(** ** Programs

    In the build with [uc_link]; the last one also in the other. *)
#[local] Instance with_link : FiberBuild := {| uclink := true |}.

(** Two fibers: the second is created while the first is suspended. *)
Definition prog_two : code :=
  New (yields [false; true]) 0 (λ f, SwapIn f (New (yields []) 4096 (λ g, SwapIn g (SwapIn f (SwapIn f
    (Drop f (Drop g Return))))))).

Definition at_step (n : nat) (c : code) : FiberState := default (thread_start c) (run_polite 1024 n (thread_start c)).

Lemma at_step_reach n c : is_Some (run_polite 1024 n (thread_start c)) → fiber_reach 1024 c (at_step n c).
Proof. intros [s Hs]. unfold at_step. rewrite Hs. by eapply run_polite_reach. Qed.

Definition is_some_b {A} (o : option A) : bool := match o with Some _ => true | None => false end.
Lemma is_some_b_sound {A} (o : option A) : is_some_b o = true → is_Some o.
Proof. destruct o; [eauto|done]. Qed.

Lemma two_reach_4 : fiber_reach 1024 prog_two (at_step 4 prog_two).
Proof. apply at_step_reach, is_some_b_sound. vm_compute. reflexivity. Qed.

Lemma two_polite_4 : polite (at_step 4 prog_two).
Proof. apply polite_b_sound. vm_compute. reflexivity. Qed.

(** The second fiber is about to return from its function. *)
Lemma two_reach_5 : fiber_reach 1024 prog_two (at_step 5 prog_two).
Proof. apply at_step_reach, is_some_b_sound. vm_compute. reflexivity. Qed.

Lemma two_polite_5 : polite (at_step 5 prog_two).
Proof. apply polite_b_sound. vm_compute. reflexivity. Qed.

Lemma fiber_safe_witness :
  fs_control (at_step 5 prog_two) = mkControl (Some 2) None Return ∧
  wp (step 1024) (λ _, fiber_inv) (at_step 5 prog_two).
Proof.
  split; [vm_compute; reflexivity|]. apply (fiber_safe 1024 prog_two _ two_reach_5 two_polite_5).
Defined.

Lemma fiber_state_consistent_witness : s_fiber_count (at_step 4 prog_two) = wrapU 64 3.
Proof.
  destruct (fiber_state_consistent 1024 prog_two _ two_reach_4) as (_ & _ & Hc & _).
  rewrite Hc. vm_compute. reflexivity.
Defined.

(** After four calls the first fiber is on hold and the second is about
    to be swapped in. *)
Definition held : Fiber := default (main_fiber 0) (fs_fibers (at_step 4 prog_two) !! 1).

Lemma held_at : fs_fibers (at_step 4 prog_two) !! 1 = Some held.
Proof. vm_compute. reflexivity. Qed.

Lemma suspended_waits_witness : wp (step 1024) (λ _, keeps 1 held) (at_step 4 prog_two).
Proof.
  apply (suspended_waits 1024 prog_two _ 1 held two_reach_4 two_polite_4 held_at).
  - left. vm_compute. reflexivity.
  - intros k. vm_compute. congruence.
Defined.

(** One fiber, about to be swapped in for the first time. *)
Definition prog_one : code :=
  New (yields [false; true]) 0 (λ f, swaps 3 f (Drop f Return)).

Lemma one_reach : fiber_reach 1024 prog_one (at_step 1 prog_one).
Proof. apply at_step_reach, is_some_b_sound. vm_compute. reflexivity. Qed.

Lemma one_inv : fiber_inv (at_step 1 prog_one).
Proof. exact (fiber_reach_inv 1024 prog_one _ one_reach). Qed.

Definition fresh_one : Fiber := mkFiber 1 1024 INIT Start (Some 0) true (Some (yields [false; true])) 1.

Lemma one_fiber : fs_fibers (at_step 1 prog_one) !! 1 = Some fresh_one.
Proof. vm_compute. reflexivity. Qed.

Lemma one_control : fs_control (at_step 1 prog_one) = mkControl None None (swaps 3 1 (Drop 1 Return)).
Proof. vm_compute. reflexivity. Qed.

Lemma fiber_completes_witness :
  ∃ n, n ≤ 9 ∧ wp (run 1024 n) (λ b s', b = true ∧ back_in_main 1 (Drop 1 Return) (λ f, m_state f = TERM) s')
    (at_step 1 prog_one).
Proof.
  apply (fiber_completes 1024 1 [false; true] (Drop 1 Return) (at_step 1 prog_one)).
  split; [exact one_inv|]. split; [exact one_control|]. exists fresh_one. split; [exact one_fiber|].
  split; [reflexivity|]. split; [unfold internal; simpl; lia|]. left. split; reflexivity.
Defined.

(** The fiber has yielded twice and finished. *)
Lemma done_reach : fiber_reach 1024 prog_one (at_step 9 prog_one).
Proof. apply at_step_reach, is_some_b_sound. vm_compute. reflexivity. Qed.

Definition done_one : Fiber := mkFiber 1 1024 TERM Stale (Some 0) true None 1.

(** The same in the build without [uc_link]. *)
Definition no_link : FiberBuild := {| uclink := false |}.
Definition done_no_link : FiberState :=
  default (thread_start prog_one) (run_polite (B := no_link) 1024 9 (thread_start prog_one)).
Definition done_never : Fiber := mkFiber 1 1024 TERM (Cont (mkControl (Some 1) None Never)) None true None 1.

Lemma done_no_link_reach : fiber_reach (B := no_link) 1024 prog_one done_no_link.
Proof.
  apply (run_polite_reach (B := no_link) 1024 9). vm_compute. reflexivity.
Qed.

Lemma swapIn_finished_witness :
  swapIn 1 Return (at_step 9 prog_one) = Stuck (Undefined "context resumed twice") ∧
  wp (swapIn 1 Return) (λ _ s', step (B := no_link) 1024 s' = Stuck (AssertFailed "never reach after swapout"))
    done_no_link.
Proof.
  split.
  - refine (proj1 (swapIn_finished 1024 (at_step 9 prog_one) 1 done_one Return
      (fiber_reach_inv 1024 prog_one _ done_reach) _ _ _ (or_introl eq_refl)) eq_refl);
      vm_compute; reflexivity.
  - refine (proj2 (swapIn_finished (B := no_link) 1024 done_no_link 1 done_never Return
      (fiber_reach_inv (B := no_link) 1024 prog_one _ done_no_link_reach) _ _ _ (or_introl eq_refl)) eq_refl);
      vm_compute; reflexivity.
Defined.

(** A fiber that runs while another one has not started. *)
Definition prog_nested : code :=
  New (YieldToHold Return) 0 (λ f, New Return 0 (λ g, SwapIn f Return)).

Lemma nested_reach : fiber_reach 1024 prog_nested (at_step 3 prog_nested).
Proof. apply at_step_reach, is_some_b_sound. vm_compute. reflexivity. Qed.

Definition fresh_two : Fiber := mkFiber 2 1024 INIT Start (Some 0) true (Some Return) 1.

Lemma wrong_fiber_calls_witness :
  wp (swapIn 2 (YieldToHold Return)) (λ _ s', ∃ mf fm, t_threadFiber (at_step 3 prog_nested) = Some mf ∧
    fs_fibers s' !! mf = Some fm ∧ m_ctx fm = Cont (mkControl (Some 1) None (YieldToHold Return)))
    (at_step 3 prog_nested) ∧
  wp (yield_as HOLD Return) (λ _ s', fs_control s' = mkControl None (Some 0) Return ∧
    Fiber_delete 0 s' = Stuck (AssertFailed "m_state == EXEC")) (at_step 1 prog_one).
Proof.
  split.
  - refine (proj1 (wrong_fiber_calls (at_step 3 prog_nested) (fiber_reach_inv 1024 prog_nested _ nested_reach))
      1 2 fresh_two (YieldToHold Return) _ _ _ _ _); try (vm_compute; reflexivity). lia.
  - refine (proj2 (wrong_fiber_calls (at_step 1 prog_one) one_inv) 0 HOLD Return _ _ _).
    + vm_compute. reflexivity.
    + rewrite one_control. reflexivity.
    + by left.
Defined.
