(* ===== verification/Thread.v ===== *)
(** * The spinning lock (sylar/thread.h)

    [CASLock] as a step relation over interleaved threads, one step per
    atomic operation. *)
From S2P Require Import Prelude.

(** ** CASLock *)
Module CAS.

(** Where a thread is: outside, in the loop of [lock()], or between
    [lock()] and [unlock()]. *)
Inductive pc := Outside | Spinning | Inside.

Record state := mk { m_flag : bool; pcs : gmap nat pc }.

(** [CASLock::CASLock()] and any number of threads. *)
Definition init (threads : list nat) : state :=
  mk false (list_to_map ((λ t, (t, Outside)) <$> threads)).

(** [atomic_flag_test_and_set]: sets the flag and returns what it was. *)
Definition test_and_set (s : state) : bool * bool := (m_flag s, true).

Inductive step : state → state → Prop :=
| step_call s t : pcs s !! t = Some Outside → step s (mk (m_flag s) (<[t := Spinning]> (pcs s)))
(** one evaluation of the loop's condition *)
| step_spin s t old new : pcs s !! t = Some Spinning → test_and_set s = (old, new) →
    step s (mk new (<[t := if old then Spinning else Inside]> (pcs s)))
(** [unlock()]: [atomic_flag_clear] *)
| step_unlock s t : pcs s !! t = Some Inside → step s (mk false (<[t := Outside]> (pcs s))).

Definition reach (threads : list nat) (s : state) : Prop := rtc step (init threads) s.

Record inv (s : state) : Prop := {
  inv_one t t' : pcs s !! t = Some Inside → pcs s !! t' = Some Inside → t = t';
  inv_flag : m_flag s = true ↔ ∃ t, pcs s !! t = Some Inside;
}.

Lemma init_outside threads t x : pcs (init threads) !! t = Some x → x = Outside.
Proof.
  simpl. intros Hx%elem_of_list_to_map_2. apply list_elem_of_fmap in Hx as (u & [= _ ->] & _). done.
Qed.

Lemma inv_init threads : inv (init threads).
Proof.
  split.
  - intros t t' Ht. by apply init_outside in Ht.
  - split; [done|]. intros [t Ht]. by apply init_outside in Ht.
Qed.

(** A thread that is not inside moves to another place outside. *)
Lemma inv_move s t x : inv s → pcs s !! t ≠ Some Inside → x ≠ Inside →
  inv (mk (m_flag s) (<[t := x]> (pcs s))).
Proof.
  intros [H1 H2] Ht Hx. assert (∀ u, <[t := x]> (pcs s) !! u = Some Inside ↔ pcs s !! u = Some Inside) as Hiff.
  { intros u. destruct (decide (u = t)) as [->|Hne]; [|by rewrite lookup_insert_ne].
    rewrite lookup_insert_eq. split; [by intros [= ->]|done]. }
  split; simpl; [intros u u'; rewrite !Hiff; auto|]. rewrite H2. by setoid_rewrite Hiff.
Qed.

Lemma cas_inv_step s s' : step s s' → inv s → inv s'.
Proof.
  intros [s0 t Ht|s0 t old new Ht Hts|s0 t Ht] Hi.
  - apply inv_move; [done|congruence|done].
  - injection Hts as <- <-. destruct (m_flag s0) eqn:Hf.
    + rewrite <-Hf. apply inv_move; [done|congruence|done].
    + assert (∀ u, pcs s0 !! u ≠ Some Inside) as Hno.
      { intros u Hu. assert (m_flag s0 = true) by (apply (inv_flag s0 Hi); eauto). congruence. }
      split; simpl; [|split; [intros _; exists t; by rewrite lookup_insert_eq|done]].
      intros u u' [[<- _]|[_ Hu]]%lookup_insert_Some [[<- _]|[_ Hu']]%lookup_insert_Some; try done;
        by (destruct (Hno u) || destruct (Hno u')).
  - split; simpl.
    + intros u u' [[_ ?]|[_ Hu]]%lookup_insert_Some [[_ ?]|[_ Hu']]%lookup_insert_Some; try done.
      by eapply (inv_one s0 Hi).
    + split; [done|]. intros [u [[_ ?]|[Hne Hu]]%lookup_insert_Some]; [done|].
      destruct Hne. by eapply (inv_one s0 Hi).
Qed.

Lemma reach_inv threads s : reach threads s → inv s.
Proof.
  unfold reach. intros Hr. pose proof (inv_init threads) as Hi. revert Hi.
  induction Hr; eauto using cas_inv_step.
Qed.
End CAS.

(** C26. [CASLock] excludes: however the threads interleave, at most one is
    between [lock()] and [unlock()]; and when none is, a thread in the
    loop of [lock()] enters with its next evaluation of the condition. *)
Theorem CASLock_mutual_exclusion threads s : CAS.reach threads s →
  (∀ t t', CAS.pcs s !! t = Some CAS.Inside → CAS.pcs s !! t' = Some CAS.Inside → t = t') ∧
  (∀ t, CAS.pcs s !! t = Some CAS.Spinning → (∀ u, CAS.pcs s !! u ≠ Some CAS.Inside) →
    CAS.step s (CAS.mk true (<[t := CAS.Inside]> (CAS.pcs s)))).
Proof.
  intros Hr%CAS.reach_inv. split; [apply Hr|]. intros t Ht Hno.
  assert (CAS.m_flag s = false) as Hf.
  { apply not_true_iff_false. rewrite (CAS.inv_flag s Hr). intros [u Hu]. by apply (Hno u). }
  apply (CAS.step_spin s t false true); [done|]. unfold CAS.test_and_set. by rewrite Hf.
Qed.

Lemma CASLock_mutual_exclusion_witness :
  CAS.step (CAS.mk false {[1 := CAS.Spinning; 2 := CAS.Outside]})
    (CAS.mk true (<[1 := CAS.Inside]> {[1 := CAS.Spinning; 2 := CAS.Outside]})).
Proof.
  apply (CASLock_mutual_exclusion [1; 2]).
  - apply rtc_once. assert (({[1 := CAS.Spinning; 2 := CAS.Outside]} : gmap nat CAS.pc)
      = <[1 := CAS.Spinning]> (CAS.pcs (CAS.init [1; 2]))) as -> by (vm_compute; reflexivity).
    apply (CAS.step_call (CAS.init [1; 2]) 1). vm_compute. reflexivity.
  - vm_compute. reflexivity.
  - intros u Hu. apply elem_of_map_to_list in Hu. vm_compute in Hu.
    repeat (apply elem_of_cons in Hu as [[=]|Hu]). by apply elem_of_nil in Hu.
Defined.
