(* ===== verification/ThreadStart.v ===== *)
(** * The start of a thread (sylar/thread.cc)

    The constructor of [Thread] and [Thread::run] share the object without
    a lock; the semaphore orders them.  Both are programs of atomic steps,
    one per statement that touches shared state, and a run interleaves
    them: the thread that constructs, joins and destroys the object, and
    the new thread, whose callback is any sequence of [Thread::SetName]
    calls.  An access to the object after its destruction is recorded in
    [fault]. *)
From S2P Require Import Prelude CppStd.

Record Thread := mkThread {
  m_id : Z;
  m_thread : Z;
  m_cb : option nat;   (* the callback's identity; None: empty function *)
  m_name : string;
  m_semapore : nat;
}.

(** Where the constructing thread is. *)
Inductive cpc := Creating | Waiting | Constructed | Destroyed | Failed (what : string).

(** The statement of [Thread::run] the new thread executes next. *)
Inductive rpc :=
| NotStarted | SetThread | SetThreadName | SetId | SetOsName | SwapCb | Notify | CallCb
| InCb | Returned | Terminated.

(** The object (None: freed), the new thread's thread-local variables, its
    name in the kernel, the local [cb] of [run], and the callbacks begun. *)
Record state := mk {
  obj : option Thread;
  t_thread : bool;     (* whether it points to the object *)
  t_thread_name : string;
  os_name : string;
  local_cb : option nat;
  calls : list nat;
  at_c : cpc;
  at_r : rpc;
  fault : bool;
}.

Definition set_obj o s := mk o (t_thread s) (t_thread_name s) (os_name s) (local_cb s) (calls s)
  (at_c s) (at_r s) (fault s).
Definition set_tname n s := mk (obj s) (t_thread s) n (os_name s) (local_cb s) (calls s)
  (at_c s) (at_r s) (fault s).
Definition goto_c c s := mk (obj s) (t_thread s) (t_thread_name s) (os_name s) (local_cb s) (calls s)
  c (at_r s) (fault s).
Definition goto_r r s := mk (obj s) (t_thread s) (t_thread_name s) (os_name s) (local_cb s) (calls s)
  (at_c s) r (fault s).

(** [thread->...]: the object, or the fault of a dangling pointer. *)
Definition with_obj (f : Thread → state → state) (s : state) : state :=
  match obj s with
  | Some t => f t s
  | None => mk None (t_thread s) (t_thread_name s) (os_name s) (local_cb s) (calls s)
              (at_c s) (at_r s) true
  end.

Definition set_m_id i t := mkThread i (m_thread t) (m_cb t) (m_name t) (m_semapore t).
Definition set_m_thread h t := mkThread (m_id t) h (m_cb t) (m_name t) (m_semapore t).
Definition set_m_cb c t := mkThread (m_id t) (m_thread t) c (m_name t) (m_semapore t).
Definition set_m_name n t := mkThread (m_id t) (m_thread t) (m_cb t) n (m_semapore t).
Definition set_m_semapore k t := mkThread (m_id t) (m_thread t) (m_cb t) (m_name t) k.

(** ** The constructing thread *)

(** The constructor up to [pthread_create]. *)
Definition Thread_new (cb : option nat) (name : string) : state :=
  mk (Some (mkThread (-1) 0 cb (if str_empty name then "UNKNOW" else name) 0))
    false "UNKNOW" "" None [] Creating NotStarted false.

(** [pthread_create], which returns [rt] and on success stores a handle. *)
Definition Thread_create (rt handle : Z) (s : state) : state :=
  if Z.eqb rt 0 then
    with_obj (λ t s, goto_r SetThread (goto_c Waiting (set_obj (Some (set_m_thread handle t)) s))) s
  else goto_c (Failed "pthread_create error") (set_obj None s).

(** [m_semapore.wait()]: None while the count is zero. *)
Definition Semaphore_wait (t : Thread) : option Thread :=
  match m_semapore t with 0 => None | S k => Some (set_m_semapore k t) end.
Definition Semaphore_notify (t : Thread) : Thread := set_m_semapore (S (m_semapore t)) t.

(** [join()], where [rt] is what [pthread_join] returns; None while it
    blocks.  On an error it throws and leaves the object as it is. *)
Definition Thread_join (rt : Z) (t : Thread) (r : rpc) : option (Thread * option exn) :=
  if Z.eqb (m_thread t) 0 then Some (t, None)
  else if negb (Z.eqb rt 0) then Some (t, Some (StdException "pthread_join error"))
  else match r with Returned => Some (set_m_thread 0 t, None) | _ => None end.

(** [~Thread()]: detaches a thread that was not joined (it goes on
    running) and the object is gone. *)
Definition Thread_delete (s : state) : state := goto_c Destroyed (set_obj None s).

(** ** The new thread *)

Definition Thread_SetName (name : string) (s : state) : state :=
  set_tname name (if t_thread s then with_obj (λ t, set_obj (Some (set_m_name name t))) s else s).

(** One statement of [Thread::run]; [tid] is [GetThreadId()]. *)
Definition Thread_run (tid : Z) (s : state) : option state :=
  match at_r s with
  | SetThread => Some (goto_r SetThreadName
      (mk (obj s) true (t_thread_name s) (os_name s) (local_cb s) (calls s) (at_c s) (at_r s) (fault s)))
  | SetThreadName => Some (goto_r SetId (with_obj (λ t, set_tname (m_name t)) s))
  | SetId => Some (goto_r SetOsName (with_obj (λ t, set_obj (Some (set_m_id tid t))) s))
  | SetOsName => Some (goto_r SwapCb (with_obj (λ t s,
      mk (obj s) (t_thread s) (t_thread_name s) (String.substring 0 15 (m_name t)) (local_cb s)
        (calls s) (at_c s) (at_r s) (fault s)) s))
  | SwapCb => Some (goto_r Notify (with_obj (λ t s,
      mk (Some (set_m_cb None t)) (t_thread s) (t_thread_name s) (os_name s) (m_cb t)
        (calls s) (at_c s) (at_r s) (fault s)) s))
  | Notify => Some (goto_r CallCb (with_obj (λ t, set_obj (Some (Semaphore_notify t))) s))
  | CallCb => Some
      match local_cb s with
      | Some c => goto_r InCb (mk (obj s) (t_thread s) (t_thread_name s) (os_name s) (local_cb s)
                    (calls s ++ [c]) (at_c s) (at_r s) (fault s))
      | None => goto_r Terminated s   (* std::bad_function_call leaves the thread *)
      end
  | NotStarted | InCb | Returned | Terminated => None
  end.

(** ** Runs

    [intr]: whether [sem_wait] can fail, as it does with EINTR when a
    signal handler interrupts it; [Semaphore::wait] then throws out of the
    constructor, which destroys the object under construction. *)
Inductive step (intr : bool) (tid : Z) : state → state → Prop :=
| step_create s rt handle : at_c s = Creating → (handle ≠ 0)%Z → step intr tid s (Thread_create rt handle s)
| step_wait s t t' : at_c s = Waiting → obj s = Some t → Semaphore_wait t = Some t' →
    step intr tid s (goto_c Constructed (set_obj (Some t') s))
| step_wait_error s : intr = true → at_c s = Waiting →
    step intr tid s (goto_c (Failed "sem_wait error") (set_obj None s))
| step_join s rt t t' ex : at_c s = Constructed → obj s = Some t →
    Thread_join rt t (at_r s) = Some (t', ex) → step intr tid s (set_obj (Some t') s)
| step_destroy s : at_c s = Constructed → step intr tid s (Thread_delete s)
| step_run s s' : Thread_run tid s = Some s' → step intr tid s s'
| step_SetName s name : at_r s = InCb → step intr tid s (Thread_SetName name s)
| step_return s : at_r s = InCb → step intr tid s (goto_r Returned s).

Definition reach (intr : bool) (tid : Z) (cb : option nat) (name : string) (s : state) : Prop :=
  rtc (step intr tid) (Thread_new cb name) s.

(** ** The invariant *)

(** How far [run] has got. *)
Definition rank (r : rpc) : nat :=
  match r with
  | NotStarted => 0 | SetThread => 1 | SetThreadName => 2 | SetId => 3 | SetOsName => 4
  | SwapCb => 5 | Notify => 6 | CallCb => 7 | InCb | Terminated => 8 | Returned => 9
  end.

Definition called (r : rpc) : bool := match r with InCb | Returned => true | _ => false end.
Definition full_name (name : string) : string := if str_empty name then "UNKNOW" else name.


(** The object once [run] has handed over: it is the constructing
    thread's, which alone decides how long it lives. *)
Definition obj_handed (tid : Z) (o : option Thread) (c : cpc) (r : rpc) : Prop :=
  match c with
  | Waiting => ∃ h n, h ≠ 0%Z ∧ o = Some (mkThread tid h None n 1)
  | Constructed => ∃ h n, (h = 0%Z → r = Returned) ∧ o = Some (mkThread tid h None n 0)
  | Destroyed => o = None
  | Creating | Failed _ => False
  end.

(** The states of a run, phase by phase. *)
Inductive phase (tid : Z) (cb : option nat) (name : string) : state → Prop :=
| ph_creating : phase tid cb name (Thread_new cb name)
| ph_failed what : phase tid cb name (goto_c (Failed what) (set_obj None (Thread_new cb name)))
| ph_starting r h : 1 ≤ rank r ≤ 6 → h ≠ 0%Z →
    phase tid cb name
      (mk (Some (mkThread (if 3 <? rank r then tid else -1) h (if 5 <? rank r then None else cb)
                   (full_name name) 0))
        (1 <? rank r) (if 2 <? rank r then full_name name else "UNKNOW")
        (if 4 <? rank r then String.substring 0 15 (full_name name) else "")
        (if 5 <? rank r then cb else None) [] Waiting r false)
| ph_running o n c r f :
    6 < rank r → obj_handed tid o c r → (r = CallCb → n = full_name name) →
    (f = true → c = Destroyed ∧ called r = true) → (called r = true → is_Some cb) →
    phase tid cb name
      (mk o true n (String.substring 0 15 (full_name name)) cb
        (if called r then option_list cb else []) c r f).

Lemma phase_create tid cb name rt h : h ≠ 0%Z →
  phase tid cb name (Thread_create rt h (Thread_new cb name)).
Proof.
  intros Hh. unfold Thread_create. destruct (Z.eqb rt 0).
  - apply (ph_starting tid cb name SetThread h); simpl; [lia|done].
  - apply ph_failed.
Qed.

(** A statement of [run] before the hand-over, and the hand-over. *)
Lemma phase_run_starting tid cb name r h s s' : 1 ≤ rank r ≤ 6 → h ≠ 0%Z →
  s = mk (Some (mkThread (if 3 <? rank r then tid else -1) h (if 5 <? rank r then None else cb)
                  (full_name name) 0))
        (1 <? rank r) (if 2 <? rank r then full_name name else "UNKNOW")
        (if 4 <? rank r then String.substring 0 15 (full_name name) else "")
        (if 5 <? rank r then cb else None) [] Waiting r false →
  Thread_run tid s = Some s' → phase tid cb name s'.
Proof.
  intros Hr Hh -> Hrun. destruct r; simpl in *; try lia; injection Hrun as <-.
  - apply (ph_starting tid cb name SetThreadName h); simpl; [lia|done].
  - apply (ph_starting tid cb name SetId h); simpl; [lia|done].
  - apply (ph_starting tid cb name SetOsName h); simpl; [lia|done].
  - apply (ph_starting tid cb name SwapCb h); simpl; [lia|done].
  - apply (ph_starting tid cb name Notify h); simpl; [lia|done].
  - apply (ph_running tid cb name _ _ Waiting CallCb); simpl; try done; [lia|]. by exists h, (full_name name).
Qed.

(** The object does not depend on where the callback is. *)
Lemma obj_handed_move tid o c r r' : r ≠ Returned → obj_handed tid o c r → obj_handed tid o c r'.
Proof. destruct c; simpl; try done. intros Hr (h & n & Hh & ->). exists h, n. naive_solver. Qed.

Lemma phase_SetName tid cb name s x : phase tid cb name s → at_r s = InCb →
  phase tid cb name (Thread_SetName x s).
Proof.
  intros [|what|r h Hr Hh|o n c r f Hr Ho Hn Hf Hc]; simpl; try done; intros ->; [simpl in Hr; lia|].
  unfold Thread_SetName, with_obj; simpl. destruct o as [t|]; simpl.
  - apply (ph_running tid cb name _ x c InCb f); try done. destruct c; simpl in *; try done; naive_solver.
  - apply (ph_running tid cb name None x c InCb true); try done. intros _. destruct c; naive_solver.
Qed.

(** Case analysis on the phase, dropping the phases the step's guard
    excludes. *)
Ltac phase_cases H :=
  inversion H as [|what|r h' Hr' Hh'|o n c r f Hr' Hob Hn Hf Hcb]; subst; simpl in *; subst; try done.

Lemma phase_step tid cb name s s' : step false tid s s' → phase tid cb name s → phase tid cb name s'.
Proof.
  intros Hst Hph. destruct Hst as [s rt h Hc Hh|s t t' Hc Ho Hw|s ? Hc|s rt t t' ex Hc Ho Hj|s Hc|s s' Hrun|s x Hr|s Hr].
  - phase_cases Hph.
    by apply phase_create.
  - phase_cases Hph.
    { by injection Ho as <-. }
    destruct Hob as (h & m & Hh & [= ->]). injection Hw as <-.
    apply (ph_running tid cb name _ n Constructed r f); try done; [by exists h, m|naive_solver].
  - done.
  - phase_cases Hph.
    apply (ph_running tid cb name _ n Constructed r f); try done.
    destruct Hob as (h & m & Hh & [= ->]). unfold Thread_join in Hj; simpl in Hj.
    destruct (Z.eqb h 0); [injection Hj as <- <-; by exists h, m|].
    destruct (negb _); [injection Hj as <- <-; by exists h, m|].
    destruct r; try done. injection Hj as <- <-. by exists 0%Z, m.
  - phase_cases Hph.
    apply (ph_running tid cb name None n Destroyed r f); try done. naive_solver.
  - phase_cases Hph.
    { by eapply phase_run_starting. }
    unfold Thread_run in Hrun; simpl in Hrun. destruct r; simpl in *; try lia; try done.
    destruct cb as [k|]; injection Hrun as <-.
    + apply (ph_running tid (Some k) name o n c InCb f); simpl; try done; try lia; [|naive_solver].
      by apply (obj_handed_move tid o c CallCb).
    + apply (ph_running tid None name o n c Terminated f); simpl; try done; try lia.
      by apply (obj_handed_move tid o c CallCb).
  - by apply phase_SetName.
  - phase_cases Hph.
    { simpl in Hr'. lia. }
    apply (ph_running tid cb name o n c Returned f); simpl in *; try done; try lia.
    by apply (obj_handed_move tid o c InCb).
Qed.

Lemma reach_phase tid cb name s : reach false tid cb name s → phase tid cb name s.
Proof.
  unfold reach. intros Hr. pose proof (ph_creating tid cb name) as Hi. revert Hi.
  induction Hr; eauto using phase_step.
Qed.

(** [k] statements of [run]. *)
Lemma run_step intr tid s s' : Thread_run tid s = Some s' → rtc (step intr tid) s s'.
Proof. intros. by apply rtc_once, step_run. Qed.

Fixpoint run_n (tid : Z) (k : nat) (s : state) : state :=
  match k with 0 => s | S k => match Thread_run tid s with Some s' => run_n tid k s' | None => s end end.

Lemma run_n_steps intr tid k s : rtc (step intr tid) s (run_n tid k s).
Proof.
  revert s. induction k as [|k IH]; intros s; simpl; [done|].
  destruct (Thread_run tid s) as [s'|] eqn:He; [|done]. etrans; [by apply run_step|apply IH].
Qed.

(** ** Claims *)

(** C24. The hand-over (when no signal interrupts the wait).  However the
    two threads interleave, when the constructor of [Thread] has returned
    and the object lives, the new thread has done its part with it: [m_id]
    is the new thread's id (never the initial -1), the callback has been
    moved out of the object, [t_thread] is set and the kernel knows the
    name's first 15 characters; the callback passed to the constructor, and
    no other, begins at most once; and after a [join] that cleared the
    handle the callback has returned.  [Thread::run] itself never touches a
    destroyed object: until it has notified the object exists, and an access
    to a destroyed object can only come from the callback. *)
Theorem Thread_handover tid cb name s : reach false tid cb name s →
  (∀ t, at_c s = Constructed → obj s = Some t →
    m_id t = tid ∧ m_cb t = None ∧ t_thread s = true ∧
    os_name s = String.substring 0 15 (if str_empty name then "UNKNOW" else name) ∧
    (calls s = [] ∨ ∃ c, cb = Some c ∧ calls s = [c]) ∧ (m_thread t = 0%Z → at_r s = Returned)) ∧
  (rank (at_r s) ≤ rank Notify → is_Some (obj s) ∨ at_r s = NotStarted) ∧
  (fault s = true → at_c s = Destroyed ∧ (at_r s = InCb ∨ at_r s = Returned)).
Proof.
  intros Hp%reach_phase. split.
  - intros t Hc Ho. phase_cases Hp.
    destruct Hob as (h & m & Hh & [= ->]). repeat split; try done.
    destruct (called r) eqn:Hcl; [|by left]. destruct (Hcb eq_refl) as [k ->]. right. eauto.
  - inversion Hp as [|what|r h' Hr' Hh'|o n c r f Hr' Hob Hn Hf Hcb]; subst; simpl in *; split; try done; eauto.
    + lia.
    + intros Hft. destruct (Hf Hft) as [-> Hcl]. split; [done|]. destruct r; try done; auto.
Qed.

(** C25. The constructor returns: while it waits on the semaphore, either
    the count is positive and it can go on, or the new thread's next
    statement is enabled, and after at most the statements up to the
    notification the wait succeeds. *)
Theorem Thread_ctor_returns tid cb name s : reach false tid cb name s → at_c s = Waiting →
  (∃ s', step false tid s s') ∧
  ∃ k t t', k ≤ 6 ∧ rtc (step false tid) s (run_n tid k s) ∧ at_c (run_n tid k s) = Waiting ∧
    obj (run_n tid k s) = Some t ∧ Semaphore_wait t = Some t'.
Proof.
  intros Hp%reach_phase Hc.
  assert (∃ k t t', k ≤ 6 ∧ at_c (run_n tid k s) = Waiting ∧ obj (run_n tid k s) = Some t ∧
            Semaphore_wait t = Some t') as (k & t & t' & Hk & Hw & Ho & Hs).
  { phase_cases Hp.
    - exists (7 - rank r). destruct r; simpl in *; try lia; do 2 eexists; (split; [lia|done]).
    - destruct Hob as (h & m & Hh & ->). exists 0. do 2 eexists. split; [lia|done]. }
  split; [|exists k, t, t'; eauto using run_n_steps].
  destruct k as [|k].
  - eexists. by eapply step_wait.
  - simpl in *. destruct (Thread_run tid s) as [s'|] eqn:Hrun; [by eexists; apply step_run|].
    eexists. by eapply step_wait.
Qed.

(** A run in which the object is destroyed while the callback runs, and
    one in which the wait is interrupted before [run] has begun. *)
Definition detached (tid : Z) (cb : nat) (name : string) : state :=
  Thread_delete (goto_c Constructed (set_obj
    (Some (mkThread tid 1 None (full_name name) 0))
    (run_n tid 7 (Thread_create 0 1 (Thread_new (Some cb) name))))).
Definition interrupted (cb : nat) (name : string) : state :=
  goto_c (Failed "sem_wait error") (set_obj None (Thread_create 0 1 (Thread_new (Some cb) name))).

Lemma detached_reach tid cb name : reach false tid (Some cb) name (detached tid cb name).
Proof.
  unfold reach, detached.
  eapply rtc_l; [by apply (step_create _ tid _ 0 1)|]. etrans; [apply (run_n_steps _ tid 7)|].
  eapply rtc_l; [by eapply step_wait|]. apply rtc_once. by apply step_destroy.
Qed.

Lemma interrupted_reach tid cb name : reach true tid (Some cb) name (interrupted cb name).
Proof.
  unfold reach, interrupted.
  eapply rtc_l; [by apply (step_create _ tid _ 0 1)|]. apply rtc_once. by apply step_wait_error.
Qed.

(** C40. Two ways to a dangling [Thread]: for every callback and name (1)
    there is a run in which the [Thread] is destroyed (which detaches, it
    does not wait) and a later [Thread::SetName] in the callback writes to
    the destroyed object, because [t_thread] outlives it; and (2) when the
    wait of the constructor can be interrupted by a signal, there is a run in
    which the constructor throws and [Thread::run] reads the object it
    destroyed. *)
Theorem Thread_dangling tid cb name x :
  (∃ s, reach false tid (Some cb) name s ∧ at_r s = InCb ∧ fault s = false ∧
        reach false tid (Some cb) name (Thread_SetName x s) ∧ fault (Thread_SetName x s) = true) ∧
  (∃ s, reach true tid (Some cb) name s ∧ at_r s = SetId ∧ fault s = true).
Proof.
  split.
  - exists (detached tid cb name). pose proof (detached_reach tid cb name) as Hr.
    split_and!; [done|done|done| |done].
    unfold reach in *. eapply rtc_r; [exact Hr|]. by apply step_SetName.
  - exists (run_n tid 2 (interrupted cb name)). split_and!; [|done..].
    unfold reach. etrans; [apply interrupted_reach|apply run_n_steps].
Qed.

(** ** Witnesses *)
Lemma ctor_run : reach false 42 (Some 7) "worker" (goto_c Constructed (set_obj
    (Some (mkThread 42 1 None "worker" 0))
    (run_n 42 7 (Thread_create 0 1 (Thread_new (Some 7) "worker"))))).
Proof.
  unfold reach. eapply rtc_l; [by apply (step_create _ 42 _ 0 1)|]. etrans; [apply (run_n_steps _ 42 7)|].
  apply rtc_once. by eapply step_wait.
Qed.

Lemma Thread_handover_witness :
  m_id (mkThread 42 1 None "worker" 0) = 42%Z ∧
  (is_Some (obj (run_n 42 3 (Thread_create 0 1 (Thread_new (Some 7) "w")))) ∨
   at_r (run_n 42 3 (Thread_create 0 1 (Thread_new (Some 7) "w"))) = NotStarted).
Proof.
  split.
  - refine (proj1 (proj1 (Thread_handover 42 (Some 7) "worker" _ ctor_run) (mkThread 42 1 None "worker" 0) _ _));
      vm_compute; reflexivity.
  - refine (proj1 (proj2 (Thread_handover 42 (Some 7) "w" _ _)) _); [|simpl; lia]. unfold reach.
    eapply rtc_l; [by apply (step_create _ 42 _ 0 1)|]. apply (run_n_steps _ 42 3).
Defined.

Lemma Thread_ctor_returns_witness :
  ∃ s', step false 42 (Thread_create 0 1 (Thread_new (Some 7) "w")) s'.
Proof.
  apply (Thread_ctor_returns 42 (Some 7) "w"); [|reflexivity].
  apply rtc_once. by apply (step_create _ 42 _ 0 1).
Defined.
