(* ===== verification/Scheduler.v ===== *)
(** * The scheduler's task queue (sylar/scheduler.h, sylar/scheduler.cc)

    [schedule] and what it calls: the constructors of [FiberAndThread],
    which copy a task or, given a pointer, swap it out of the caller's
    variable, [scheduleNoLock] under the scheduler's mutex, and the virtual
    [tickle] outside it.  Fibers and callbacks are their identities. *)
From S2P Require Import Prelude Lock.

Record FiberAndThread := mkFT { fiber : option nat; cb : option nat; thread : Z }.

#[export] Instance FiberAndThread_eq_dec : EqDecision FiberAndThread.
Proof. solve_decision. Defined.

(** The argument of [schedule]: what [FiberOrCb] is instantiated with.
    The pointer cases hold the address of the caller's variable. *)
Inductive FiberOrCb :=
| FiberPtr (f : option nat)
| FiberPtrAddr (addr : nat)
| Callback (f : option nat)
| CallbackAddr (addr : nat).

(** The scheduler, the caller's variables, the lock table, and what the
    override of [tickle] keeps. *)
Record Sched (T : Type) := mkSched {
  m_fibers : list FiberAndThread;
  s_locks : gmap nat lkst;
  fiber_vars : gmap nat (option nat);
  cb_vars : gmap nat (option nat);
  s_ext : T;
}.
Arguments mkSched {T}.
Arguments m_fibers {T}.
Arguments s_locks {T}.
Arguments fiber_vars {T}.
Arguments cb_vars {T}.
Arguments s_ext {T}.

(** The address of [m_mutex]. *)
Definition m_mutex_addr : nat := 0.

Section scheduler.
Context {T : Type}.
Implicit Types s : Sched T.

Definition set_m_fibers q s := mkSched q (s_locks s) (fiber_vars s) (cb_vars s) (s_ext s).
Definition set_s_locks l s := mkSched (m_fibers s) l (fiber_vars s) (cb_vars s) (s_ext s).
Definition set_fiber_vars v s := mkSched (m_fibers s) (s_locks s) v (cb_vars s) (s_ext s).
Definition set_cb_vars v s := mkSched (m_fibers s) (s_locks s) (fiber_vars s) v (s_ext s).

#[export] Instance Sched_HasLocks : HasLocks (Sched T) nat.
Proof.
  refine {| locks_of := s_locks; set_locks := set_s_locks |}; [done|done|by intros []].
Defined.

(** The constructors of [FiberAndThread]; the pointer forms leave an empty
    pointer or function in the caller's variable. *)
Definition FiberAndThread_new (fc : FiberOrCb) (thr : Z) : M (Sched T) FiberAndThread :=
  match fc with
  | FiberPtr f => mret (mkFT f None thr)
  | FiberPtrAddr p =>
      f ← deref "null Fiber::ptr*" (λ s, fiber_vars s !! p);
      modify (λ s, set_fiber_vars (<[p := None]> (fiber_vars s)) s);;
      mret (mkFT f None thr)
  | Callback f => mret (mkFT None f thr)
  | CallbackAddr p =>
      f ← deref "null std::function*" (λ s, cb_vars s !! p);
      modify (λ s, set_cb_vars (<[p := None]> (cb_vars s)) s);;
      mret (mkFT None f thr)
  end.

Definition FiberAndThread_empty : FiberAndThread := mkFT None None (-1).
Definition FiberAndThread_reset (_ : FiberAndThread) : FiberAndThread := mkFT None None (-1).

(** [ft.fiber || ft.cb] *)
Definition is_task (ft : FiberAndThread) : bool :=
  bool_decide (is_Some (fiber ft)) || bool_decide (is_Some (cb ft)).

Definition scheduleNoLock (fc : FiberOrCb) (thr : Z) : M (Sched T) bool :=
  need_tickle ← gets (λ s, match m_fibers s with [] => true | _ => false end);
  ft ← FiberAndThread_new fc thr;
  (if is_task ft then modify (λ s, set_m_fibers (m_fibers s ++ [ft]) s) else mret tt);;
  mret need_tickle.

Section tickle.
(** [tickle] is virtual. *)
Context (tickle : M (Sched T) unit).

Definition schedule (fc : FiberOrCb) (thr : Z) : M (Sched T) unit :=
  need_tickle ← ScopedLockImpl (mkMutex m_mutex_addr) (scheduleNoLock fc thr);
  if (need_tickle : bool) then tickle else mret tt.
End tickle.

(** [Scheduler::tickle] of the base class, and the other members whose
    bodies are empty.  The two functions that should return a pointer have
    no return statement: calling them is undefined. *)
Definition Scheduler_tickle : M (Sched T) unit := mret tt.
Definition Scheduler_start : M (Sched T) unit := mret tt.
Definition Scheduler_stop : M (Sched T) unit := mret tt.
Definition Scheduler_GetThis : M (Sched T) nat := stop (Undefined "no return").
Definition Scheduler_GetMainFiber : M (Sched T) nat := stop (Undefined "no return").

(** The constructor leaves the members to their initialisers. *)
Definition Scheduler_new (threads : Z) (use_caller : bool) (name : string) (e : T) : Sched T :=
  mkSched [] ∅ ∅ ∅ e.

(** ** Specification *)

(** The task an argument stands for. *)
Definition task_of (fc : FiberOrCb) (thr : Z) (s : Sched T) : FiberAndThread :=
  match fc with
  | FiberPtr f => mkFT f None thr
  | FiberPtrAddr p => mkFT (mjoin (fiber_vars s !! p)) None thr
  | Callback f => mkFT None f thr
  | CallbackAddr p => mkFT None (mjoin (cb_vars s !! p)) thr
  end.

(** The pointer arguments point to something. *)
Definition valid (fc : FiberOrCb) (s : Sched T) : Prop :=
  match fc with
  | FiberPtrAddr p => is_Some (fiber_vars s !! p)
  | CallbackAddr p => is_Some (cb_vars s !! p)
  | _ => True
  end.

(** The caller's variables afterwards. *)
Definition taken (fc : FiberOrCb) (s : Sched T) : Sched T :=
  match fc with
  | FiberPtrAddr p => set_fiber_vars (<[p := None]> (fiber_vars s)) s
  | CallbackAddr p => set_cb_vars (<[p := None]> (cb_vars s)) s
  | _ => s
  end.

Definition tasks (ft : FiberAndThread) : list FiberAndThread := if is_task ft then [ft] else [].

Definition enqueued (fc : FiberOrCb) (thr : Z) (s : Sched T) : Sched T :=
  set_m_fibers (m_fibers s ++ tasks (task_of fc thr s)) (taken fc s).

Lemma FiberAndThread_new_spec fc thr s : valid fc s →
  FiberAndThread_new fc thr s = Ret (task_of fc thr s) (taken fc s).
Proof.
  destruct fc as [f|p|f|p]; simpl; try done; intros [x Hx];
    unfold mbind, M_bind, deref; rewrite Hx; done.
Qed.

Lemma scheduleNoLock_spec fc thr s : valid fc s →
  scheduleNoLock fc thr s =
    Ret (match m_fibers s with [] => true | _ => false end) (enqueued fc thr s).
Proof.
  intros Hv. unfold scheduleNoLock, enqueued, tasks, mbind, M_bind, gets.
  rewrite FiberAndThread_new_spec by done.
  destruct (is_task (task_of fc thr s)); [by destruct fc|]. rewrite app_nil_r.
  destruct fc, s; done.
Qed.

Lemma enqueued_locks fc thr l s :
  set_s_locks (s_locks s) (enqueued fc thr (set_s_locks l s)) = enqueued fc thr s.
Proof. by destruct fc, s. Qed.

Lemma schedule_eq tickle fc thr s : valid fc s → s_locks s !! m_mutex_addr = None →
  schedule tickle fc thr s =
    (match m_fibers s with [] => tickle | _ => mret tt end) (enqueued fc thr s).
Proof.
  intros Hv Hl.
  assert (ScopedLockImpl (mkMutex m_mutex_addr) (scheduleNoLock fc thr) s =
    Ret (match m_fibers s with [] => true | _ => false end) (enqueued fc thr s)) as He.
  { assert (wp (ScopedLockImpl (mkMutex m_mutex_addr) (scheduleNoLock fc thr))
      (λ b s', b = (match m_fibers s with [] => true | _ => false end) ∧ s' = enqueued fc thr s) s)
      as (b & s' & He & -> & ->)%wp_returns; [|exact He].
    apply wp_ScopedLock; [done|]. unfold wp. simpl.
    rewrite scheduleNoLock_spec by (by destruct fc, s). split; [by destruct fc, s|].
    split; [by destruct s|apply enqueued_locks]. }
  unfold schedule, mbind, M_bind. rewrite He. by destruct (m_fibers s).
Qed.
End scheduler.

(** A sequence of [schedule] calls by one thread. *)
Fixpoint schedule_all {T} (tickle : M (Sched T) unit) (l : list (FiberOrCb * Z)) : M (Sched T) unit :=
  match l with [] => mret tt | (fc, thr) :: l => schedule tickle fc thr;; schedule_all tickle l end.

(** An argument passed by value. *)
Definition by_value (fc : FiberOrCb) : bool :=
  match fc with FiberPtr _ | Callback _ => true | _ => false end.
Definition value_task (x : FiberOrCb * Z) : FiberAndThread :=
  match x.1 with
  | FiberPtr f => mkFT f None x.2
  | Callback f => mkFT None f x.2
  | FiberPtrAddr _ | CallbackAddr _ => FiberAndThread_empty
  end.

Lemma enqueued_value {T} fc thr (s : Sched T) : by_value fc = true →
  enqueued fc thr s = set_m_fibers (m_fibers s ++ tasks (value_task (fc, thr))) s.
Proof. by destruct fc. Qed.

(** ** Claims *)

(** C30. [schedule] appends the task at the back of the queue, and nothing
    when the fiber pointer or the function is empty; a task passed by pointer
    is moved out of the caller's variable, which is left empty; [tickle] runs
    exactly when the queue was empty before, and it runs with the mutex
    released (the lock table is the caller's), so an override may schedule
    again. *)
Theorem schedule_spec {T} (tickle : M (Sched T) unit) fc thr s :
  valid fc s → s_locks s !! m_mutex_addr = None →
  ∃ s', schedule tickle fc thr s = (if decide (m_fibers s = []) then tickle s' else Ret tt s') ∧
    m_fibers s' = m_fibers s ++ filter is_task [task_of fc thr s] ∧ s_locks s' = s_locks s ∧
    (∀ p, fc = FiberPtrAddr p → fiber_vars s' !! p = Some None) ∧
    (∀ p, fc = CallbackAddr p → cb_vars s' !! p = Some None).
Proof.
  intros Hv Hl. exists (enqueued fc thr s). rewrite schedule_eq by done. split_and!.
  - by destruct (m_fibers s).
  - simpl. unfold tasks. rewrite filter_cons. by destruct (is_task _).
  - by destruct fc.
  - intros p ->. apply lookup_insert_eq.
  - intros p ->. apply lookup_insert_eq.
Qed.

(** First in, first out: a sequence of calls with tasks passed by value
    leaves the queue extended by the non-empty tasks in the order of the
    calls. *)
Lemma schedule_all_fifo {T} l (s : Sched T) :
  Forall (λ x, by_value x.1 = true) l → s_locks s !! m_mutex_addr = None →
  schedule_all Scheduler_tickle l s =
    Ret tt (set_m_fibers (m_fibers s ++ filter is_task (value_task <$> l)) s).
Proof.
  intros Hl. revert s. induction Hl as [|[fc thr] l Hv Hl IH]; intros s Hs.
  - simpl. rewrite app_nil_r. by destruct s.
  - simpl. unfold mbind, M_bind. rewrite schedule_eq; [|by destruct fc|done].
    assert ((match m_fibers s with [] => Scheduler_tickle | _ => mret tt end)
              (enqueued fc thr s) = Ret tt (enqueued fc thr s)) as -> by (by destruct (m_fibers s)).
    rewrite enqueued_value by done. rewrite IH by done. simpl. f_equal. unfold set_m_fibers; simpl.
    f_equal. rewrite <-app_assoc. f_equal. unfold tasks. rewrite filter_cons.
    by destruct (is_task _).
Qed.

(** ** Witnesses *)
Definition demo_sched : Sched nat := mkSched [] ∅ {[5 := Some 9]} ∅ 0.

Lemma schedule_spec_witness :
  ∃ s', schedule Scheduler_tickle (FiberPtrAddr 5) 3 demo_sched = Ret tt s' ∧
        m_fibers s' = [mkFT (Some 9) None 3] ∧ fiber_vars s' !! 5 = Some None.
Proof.
  destruct (schedule_spec Scheduler_tickle (FiberPtrAddr 5) 3 demo_sched)
    as (s' & H1 & H2 & _ & H3 & _); [by eexists|reflexivity|].
  exists s'. split; [exact H1|]. split; [exact H2|]. by apply H3.
Defined.

Example schedule_all_demo :
  schedule_all Scheduler_tickle [(Callback (Some 1), (-1)%Z); (Callback None, (-1)%Z); (FiberPtr (Some 2), 4%Z)]
    demo_sched
  = Ret tt (set_m_fibers [mkFT None (Some 1) (-1); mkFT (Some 2) None 4] demo_sched).
Proof.
  rewrite (schedule_all_fifo
    [(Callback (Some 1), (-1)%Z); (Callback None, (-1)%Z); (FiberPtr (Some 2), 4%Z)] demo_sched);
    [reflexivity|repeat constructor|reflexivity].
Qed.
