(* ===== verification/Util.v ===== *)
(** * Stack traces (sylar/util.cc)

    [Backtrace] in its two builds ([BOOST_STACKTRACE_USE_BACKTRACE], the
    default, and execinfo's [backtrace]) and [BacktraceToString].  The
    frames of the running thread are a parameter.  [size_t] arithmetic is
    kept at 64 bits: [reserve] gets the difference of the number of frames
    and [skip] modulo 2^64. *)
From S2P Require Import Prelude CppStd.

Open Scope Z_scope.

(** [std::vector<std::string>::max_size()]: the largest array of 32 byte
    strings, half of the address space. *)
Definition max_size : Z := 2 ^ 58 - 1.

Definition size_t (z : Z) : Z := wrapU 64 z.

Section backtrace.
Context {St : Type} (log_error : string → M St unit).

(** [bt.reserve(n)] changes no element, but throws for an impossible size. *)
Definition reserve (n : Z) : M St unit :=
  if n <=? max_size then mret tt else throw (StdException "vector::reserve").

(** [for (size_t i = skip; i < s; ++i) bt.push_back(strings[i]);] the loop
    makes at most [s] iterations, since [i] starts at or above 0 and grows
    to [s], which is below 2^64. *)
Fixpoint push_loop (fuel : nat) (strings : list string) (i : Z) (bt : list string) : list string :=
  match fuel with
  | O => bt
  | S fuel =>
      if i <? Z.of_nat (length strings)
      then push_loop fuel strings (size_t (i + 1)) (bt ++ [default EmptyString (strings !! Z.to_nat i)])
      else bt
  end.

Definition push_frames (strings : list string) (skip : Z) (bt : list string) : list string :=
  push_loop (S (length strings)) strings (size_t skip) bt.

(** The build with boost::stacktrace: [frames] is [as_vector()], printed. *)
Definition Backtrace_boost (frames : list string) (bt : list string) (skip : Z) : M St (list string) :=
  reserve (size_t (Z.of_nat (length frames) - skip));;
  mret (push_frames frames skip bt).

(** The build with execinfo: [backtrace_symbols] may fail. *)
Definition Backtrace_execinfo (symbols : Z → option (list string)) (bt : list string) (size skip : Z) :
    M St (list string) :=
  match symbols size with
  | None => log_error "backtrace_symbols error";; mret bt
  | Some strings =>
      reserve (size_t (Z.of_nat (length strings) - skip));;
      mret (push_frames strings skip bt)
  end.

(** What both builds of [BacktraceToString] do with the vector. *)
Fixpoint print_frames (prefix : string) (i : nat) (bt : list string) : string :=
  match bt with
  | [] => ""
  | x :: bt => prefix +:+ pretty i +:+ "# " +:+ x +:+ String (ascii_of_nat 10) "" +:+
               print_frames prefix (S i) bt
  end.

Definition BacktraceToString (Backtrace : list string → Z → Z → M St (list string))
    (size skip : Z) (prefix : string) : M St string :=
  bt ← Backtrace [] size skip;
  mret (print_frames prefix 0 bt).

(** ** Lemmas *)
Implicit Types frames bt : list string.

Lemma size_t_nat n : Z.of_nat n < 2 ^ 64 → size_t (Z.of_nat n) = Z.of_nat n.
Proof. intros. apply wrapU_small. lia. Qed.

Lemma push_loop_drop fuel frames k bt : Z.of_nat (length frames) < 2 ^ 63 → (length frames < fuel + k)%nat →
  push_loop fuel frames (Z.of_nat k) bt = bt ++ drop k frames.
Proof.
  intros Hn. revert k bt. induction fuel as [|fuel IH]; intros k bt Hk; simpl.
  { rewrite drop_ge by lia. by rewrite app_nil_r. }
  destruct (Z.ltb_spec (Z.of_nat k) (Z.of_nat (length frames))) as [Hlt|Hge].
  - destruct (lookup_lt_is_Some_2 frames k) as [x Hx]; [lia|]. rewrite Nat2Z.id, Hx.
    replace (Z.of_nat k + 1) with (Z.of_nat (S k)) by lia. rewrite size_t_nat by lia.
    rewrite IH by lia. by rewrite (drop_S frames x k Hx), <-app_assoc.
  - rewrite drop_ge by lia. by rewrite app_nil_r.
Qed.

Lemma push_frames_skip frames k bt : Z.of_nat (length frames) < 2 ^ 63 → Z.of_nat k < 2 ^ 64 →
  push_frames frames (Z.of_nat k) bt = bt ++ drop k frames.
Proof. intros Hn Hk. unfold push_frames. rewrite size_t_nat by done. apply push_loop_drop; lia. Qed.

Lemma push_frames_negative frames k bt : Z.of_nat (length frames) < 2 ^ 58 → - 2 ^ 31 ≤ k < 0 →
  push_frames frames k bt = bt.
Proof.
  intros Hn Hk. unfold push_frames, size_t, wrapU. simpl.
  replace (k mod 2 ^ 64) with (k + 2 ^ 64) by (rewrite <-(Z.mod_add _ 1), Z.mod_small; lia).
  by destruct (Z.ltb_spec (k + 2 ^ 64) (Z.of_nat (length frames))); [lia|].
Qed.

Lemma reserve_small n s : 0 ≤ n ≤ max_size → reserve (size_t n) s = Ret tt s.
Proof.
  unfold max_size. intros Hn. unfold reserve, size_t. rewrite wrapU_small by lia.
  destruct (Z.leb_spec n max_size); [done|]. unfold max_size in *. lia.
Qed.

Lemma reserve_negative n s : - 2 ^ 32 ≤ n < 0 → reserve (size_t n) s = Throw (StdException "vector::reserve") s.
Proof.
  intros Hn. unfold reserve, size_t, wrapU.
  replace (n mod 2 ^ 64) with (n + 2 ^ 64) by (rewrite <-(Z.mod_add _ 1), Z.mod_small; lia).
  destruct (Z.leb_spec (n + 2 ^ 64) max_size); [|done]. unfold max_size in *. lia.
Qed.
End backtrace.

(** C32. [Backtrace] on every [skip] an int can hold, in both builds, with
    fewer than 2^31 frames: it appends the frames after the first [skip]; for a
    negative [skip] it appends nothing (given that there is memory for what
    [reserve] asks for); for a [skip] beyond the number of
    frames the unsigned subtraction in [reserve(size - skip)] wraps around
    and the call throws [length_error] where it means to append nothing.
    When [backtrace_symbols] fails, the error is logged and nothing is
    appended. *)
Theorem Backtrace_spec {St} (log_error : string → M St unit) frames bt size skip s :
  Z.of_nat (length frames) < 2 ^ 31 → - 2 ^ 31 ≤ skip < 2 ^ 31 →
  let result :=
    if decide (skip < 0) then Ret bt s
    else if decide (skip ≤ Z.of_nat (length frames)) then Ret (bt ++ drop (Z.to_nat skip) frames) s
    else Throw (StdException "vector::reserve") s in
  Backtrace_boost frames bt skip s = result ∧
  (∀ symbols, symbols size = Some frames → Backtrace_execinfo log_error symbols bt size skip s = result) ∧
  (∀ symbols s', symbols size = None → log_error "backtrace_symbols error" s = Ret tt s' →
     Backtrace_execinfo log_error symbols bt size skip s = Ret bt s').
Proof.
  intros Hn Hs. simpl. unfold Backtrace_boost, Backtrace_execinfo, mbind, M_bind.
  split_and!; [|intros symbols ->|by intros symbols s' -> ->].
  all: destruct (decide (skip < 0)) as [Hneg|Hpos]; [|destruct (decide (skip ≤ Z.of_nat (length frames)))];
    first [rewrite reserve_small by (unfold max_size; lia)|by rewrite reserve_negative by lia];
    first [by rewrite push_frames_negative by lia|by rewrite <-push_frames_skip, Z2Nat.id by lia].
Qed.

Lemma Backtrace_spec_witness :
  Backtrace_boost (St := unit) ["main"; "f"; "g"]%string [] 1 tt = Ret ["f"; "g"]%string tt ∧
  Backtrace_boost (St := unit) ["main"]%string [] 2 tt = Throw (StdException "vector::reserve") tt.
Proof.
  split.
  - apply (Backtrace_spec (λ _, mret tt) ["main"; "f"; "g"]%string [] 10 1 tt); simpl; lia.
  - apply (Backtrace_spec (λ _, mret tt) ["main"]%string [] 10 2 tt); simpl; lia.
Defined.
